(* ===== verification/_CoqProject ===== *)
-Q . S2P
Prelude.v
Errors.v
Files.v
Keys.v
Go.v
Store.v
Lock.v
Timeout.v
Shelf.v
Prefix.v
Pending.v
Walk.v
Client.v
Program.v
Contract.v
Interleave.v
Bbolt.v
BboltSpec.v
BboltFacts.v
BboltTx.v
BboltProgram.v
BboltContract.v
BboltExamples.v
BboltNested.v
BboltClose.v
BboltOpen.v
BboltConc.v
BboltSteps.v
BboltSerial.v
BboltConcExamples.v
Badger.v
BadgerSpec.v
BadgerFacts.v
BadgerShelf.v
BadgerFrame.v
BadgerTx.v
BadgerProgram.v
BadgerContract.v
BadgerNested.v
BadgerExamples.v
BadgerOpen.v
BadgerConc.v
BadgerTask.v
BadgerSteps.v
BadgerSerial.v
BadgerConcExamples.v
Redis.v
RedisSpec.v
RedisConcSpec.v
RedisKeys.v
RedisTx.v
RedisRange.v
RedisScan.v
RedisClient.v
RedisProgram.v
RedisContract.v
RedisExamples.v
RedisConc.v
RedisFrame.v
RedisTask.v
RedisSteps.v
RedisSerial.v
RedisConcExamples.v
Stores.v
StoresExamples.v
KVTests.v
KVTestsRuns.v
Mock.v
MockFacts.v
