(* ===== verification/Prelude.v ===== *)
(** * A verification of go-stoabs

    go-stoabs is a Go library that gives one interface, [KVStore], to three key-value
    stores: bbolt (a B+ tree in a file), Badger (an LSM tree) and Redis (a server). An
    application hands a callback to [Write], [Read], [WriteShelf] or [ReadShelf]; the store
    runs it in a transaction of its database, on shelves (named collections of pairs), and
    commits or rolls back. This development models the library's own code and proves what it
    guarantees, and in some places what it does not.

    ** The program and the files

    - src/store.go: the interfaces, options and error types. Errors.v has error values,
      [errors.Is], [DatabaseError] and the sentinels; Store.v has the interfaces as records of
      operations ([Reader], [Writer], [ReadTx], [WriteTx], [KVStore]), the configuration, the
      transaction options, [NilReader] and the error writer.
    - src/key.go: Keys.v. A [Key] is a [Uint32Key] (a number below 2^32), a [HashKey] (32 bytes)
      or a [BytesKey]; [key_wf] is the type invariant the Go types enforce. Module [Std] holds
      what the code uses of strconv, encoding/hex and math/big.
    - src/util/errors.go: [WrapError] in Errors.v.
    - src/util/mutex.go: Lock.v. [lockWithCancel] is a state machine of two goroutines, with one
      step per synchronising operation; [exec] performs the step of whoever moves.
    - src/util/util.go: Timeout.v. [CallWithTimeout], likewise.
    - src/bbolt/bbolt.go: Bbolt.v. src/badger/badger.go: Badger.v. src/redis7/redis.go: Redis.v.
      One definition per Go function, under its name ([doTX], [store_Write] for the method
      Write of the struct store, and so on), the loops as functions of their own. The
      constructors that open files are in BboltOpen.v, where [createBBoltStore] is an
      interleaving of the goroutine that opens the file and the one that warns, and in
      BadgerOpen.v; Files.v has the parts of os and path they use.
    - Calls of several goroutines on one store: BboltConc.v, BadgerConc.v and RedisConc.v cut the
      calls into phases ([thread_step]), BboltSerial.v, BadgerSerial.v and RedisSerial.v
      interleave them ([conc_step]); Interleave.v has what the three share.
    - Calls of the store from within a callback of it: BboltNested.v, BadgerNested.v.
    - src/mock.go: Mock.v, one definition per generated function; gomock's controller is a
      parameter.
    - src/kvtests/common_tests.go: KVTests.v, the subtests as programs of the interface;
      KVTestsRuns.v runs them on the three stores with their in-memory libraries; all
      that the repository runs on a store pass (the test with 2000 pairs is run with 20, and
      one test on Redis, which passes over 200,000 missing keys, is left out).

    Go.v has the monad the stores are written in: a computation maps a state (the backend's
    and the outside world's) to an outcome and a state. The outcomes are a result, a panic,
    being blocked for ever, and [NoFuel]. [defer] and [context.Context] are there too.
    The world is the clock and the state of the application; [tick] is an arbitrary change of
    it by others, applied whenever the code looks at a context or calls a remote server.

    ** The libraries

    bbolt, Badger, go-redis and redsync are not part of the repository. Their calls are the
    fields of a class ([BoltLib], [BadgerLib], [RedisLib]), arguments of every definition that
    uses them. What the code relies on of them is a class of laws over a logical view of the
    library's state ([BoltSpec], [BadgerSpec], [RedisSpec]): what a transaction sees, what is
    committed, where a cursor stands. A bbolt transaction sees the pairs as of its begin with its
    own changes, but that the statistics of a bucket, which [Empty] asks, are only known to count
    the pairs of a bucket the transaction has not changed ([spec_KeyN]). A Badger transaction
    sees the same, and its commit is refused when what it has read has been changed since
    (Pending.v has snapshots with pending changes); on a closed database the opening of an
    iterator may panic ([law_NewIterator], [db_open]). Further classes have the
    laws that single parts need
    ([BoltConcSpec]: transactions do not disturb each other; [RedisConcSpec]: likewise, and the
    distributed lock has one holder until it expires; [ScanSpec]: the guarantees of
    Redis' SCAN; [BadgerOptionsSpec]; [GoMockSpec]). Any call that can fail may fail, but
    for the reading of a value Badger has found. Each class has an
    in-memory instance (Modules [BoltMem], [BadgerMem], [RedisMem]) that satisfies the laws,
    and at which the files BboltExamples.v, BboltConcExamples.v, BadgerExamples.v,
    BadgerConcExamples.v, RedisExamples.v, RedisConcExamples.v and StoresExamples.v (and modules
    at the end of BboltNested.v, BboltOpen.v, BadgerOpen.v and MockFacts.v) apply the theorems
    and run the code.

    ** The reference model

    Shelf.v: a shelf is a list of pairs strictly sorted by key, with insertion, deletion,
    lookup and intervals. Prefix.v: a shelf as a slice of a flat key space, as Badger keeps
    it. Walk.v: an iteration as a walk over such a list. Client.v: programs of single-key
    operations, an abstract store for them ([client_spec], [query_spec]), and the classes
    [Backed] and [Serves] by which a backend's writer and reader promise to behave as the
    abstract store; bbolt and Badger implement them. The specifications have a parameter
    [stale], what the shelves held when the transaction began: if it is given, as for bbolt,
    the answer of [Empty] on a shelf that differs from that is left open ([empty_answer]);
    without it [Empty] is exact. Program.v: programs on several shelves, for
    the callbacks of [Write] and [Read] ([program_spec], [inquiry_spec]), and the classes
    [OpensTx], [BackedTx] and [ServesTx] by which a backend's transaction promises to behave as
    the abstract store of all shelves; BboltProgram.v, BadgerProgram.v and RedisProgram.v
    discharge them.

    Contract.v: the contract of a whole [KVStore] with an application that calls [Write], [Read],
    [WriteShelf] and [ReadShelf]: the abstract store of all shelves ([call_spec],
    [history_spec]), the class [Conforms], and, for a [Write] with options, the class
    [Transacts] ([transaction_spec]: what is committed, and which option functions are
    called). Three flags say whether [Empty] is exact, whether a failed commit may have had its
    effect, and whether a call may wait for ever. All three stores implement the classes
    (BboltContract.v, BadgerContract.v, RedisContract.v) for the calls they permit: bbolt any;
    Badger, while its database is open, those on shelves whose names are not prefixes of each
    other; Redis programs that use well-formed keys of one type, read before they write and do
    not call [Empty]. Stores.v has the three side by side.

    ** What the theorems show

    - Transactions (BboltTx.v, BadgerTx.v, RedisTx.v): [doTX] refines a specification of its
      outcomes ([write_outcome], [read_outcome]): what is committed, what is returned, when
      the lock is released and when the [AfterCommit] and [OnRollback] functions run. For
      clients, [WriteShelf] is atomic and computes what the abstract store does (for Redis in
      RedisClient.v).
    - The contract (Contract.v, Stores.v): any sequence of calls on any of the stores has the
      results and the effect the abstract store allows; what was written is read
      ([stores_get_after_write]); a [Write] on
      several shelves is all or nothing and tells the functions of its options the outcome.
    - Concurrency on bbolt (BboltConc.v, BboltSerial.v, with BboltSteps.v: what each phase does):
      the phases of a call, uninterrupted, are the call; in every interleaving of calls, a
      writer excludes all others, and the committed data and the results are those of a serial
      execution that later steps only extend (strict serialisability). Goroutines that [lockWithCancel] leaves behind take part as tasks that
      lock and unlock; a call that hangs on its lock stays in the phase [Ph_stuck].
    - Concurrency on Badger (BadgerConc.v, BadgerSerial.v, with BadgerFrame.v: what an operation
      leaves alone, BadgerTask.v: what it does to a program that Badger tracks, and
      BadgerSteps.v: what each phase does): the phases of a call are the call; no call waits
      for another, and while the database is open none panics; calls whose programs read with [Get], from shelves that do not overlap, are
      serialisable. [Empty] goes through an iterator whose visits
      Badger does not track, and BadgerConcExamples.v has a run of two writers that use it which
      no serial execution explains.
    - Concurrency on Redis (RedisConc.v, RedisSerial.v, with RedisFrame.v: what an operation
      leaves alone, RedisTask.v: the invariant of a goroutine, and RedisSteps.v: what each phase
      does to it): the phases of a call of [Write], [Read], [WriteShelf], [ReadShelf] or [Close]
      are the call; calls of [Write] with [WithWriteLock], on whatever shelves, are serialisable,
      even when a transaction is held up until its lock has expired, given that the server
      executes nothing later than [lockExpiryOffset] after the deadline it was sent with, the
      assumption the code makes ([law_Exec_late]); each read of a reader sees committed data.
      RedisConcExamples.v has runs in which an update is lost to a transaction without the lock,
      in which two reads of one [Read] see different transactions, and in which [Close] takes
      the client from under a call.
    - Nested calls (BboltNested.v, BadgerNested.v): a call of the store from the callback of a
      write transaction is never let through on bbolt; on Badger it is a transaction of its own.
    - Opening and closing (BboltOpen.v, BadgerOpen.v, BboltClose.v, RedisTx.v): what the
      constructors return, in every interleaving with the warning goroutine, and that this
      goroutine ends; that a closed bbolt or Redis store refuses every call without calling the
      application.
    - Shelves (BboltFacts.v, BadgerShelf.v, RedisTx.v): the single-key operations implement the
      reference operations; Badger's shelves overlap when one name is a prefix of the other.
      Redis buffers writes and reads what is committed.
    - Iterations (BboltFacts.v, BadgerShelf.v, RedisRange.v, RedisScan.v): which pairs [Iterate] and [Range]
      visit, in which order, and what stops them; Badger ignores [stopAtNil] for keys of fixed
      size and hangs on nested iterations; Redis' [Range] cuts the interval into pages, never
      returns nil when the last page is empty or the end of the interval is not reached; its
      [Iterate] visits every pair at least once, its [Empty] looks at the first batch of a scan
      only.
    - Keys (Keys.v, RedisKeys.v): round trips and injectivity of the encodings, the order of
      the encodings, [Next] as successor, and where these fail.
    - Locks and timeouts (Lock.v, Timeout.v): safety of [lockWithCancel] in every interleaving,
      its one deadlock, and that there is no other; results of [CallWithTimeout], and the
      goroutine it leaks.
    - Errors (Errors.v): what [errors.Is] recognises.
    - Mocks (MockFacts.v): the operations of a run, recorded as expected calls, are played back.

    ** Bounds

    Numbers are unbounded integers reduced where Go wraps around: [Uint32Key.Next] modulo
    2^32, [ParseInt] with its 32-bit range, the sums of Badger's [Stats] modulo 2^64. The
    cursor loops of bbolt and Badger take fuel; as many turns as the shelf has pairs are
    enough, and the theorems on iterations say so. Redis' [Range] may go on for ever; its
    theorems give the number of turns it takes, or hold for every amount of fuel. Redis'
    [Iterate] takes as many turns as the scan of the data does ([scan_bound]). The fuel of
    [Sprintf_d] is the number of bits of the number.

    ** What is not modelled

    Logging, but for the warnings of [createBBoltStore]; the other test code; the subtests of
    kvtests that use the library's transaction object or start goroutines.
    Goroutines on one store are interleaved for the calls [Write] (without options, and on
    Redis with or without the write lock), [Read], [WriteShelf] and [ReadShelf], and on Redis
    [Close], between the phases of a call: the lock, the begin of the transaction, the opening
    of a shelf, each operation, the end of the transaction, the unlocking. Taking bbolt's lock is
    one phase there; its inner steps are those of Lock.v, and redsync's attempts to take a lock
    are one call. The preference of Go's RWMutex for waiting writers is not modelled: a reader
    may take the lock while a writer waits. [Close] of a Redis store is one phase from taking the
    mutex to its release. That a call on a nil Redis client panics when it is made, not later,
    is an assumption ([must]). [Close] of a bbolt or Badger store is not among the interleaved
    calls. Of a closed Badger database the laws say that opening an iterator may panic, so the
    theorems on programs that call [Empty], and on iterations, ask for an open one ([open_db]);
    that the other calls keep to their laws on a closed database, where they may fail with an
    error, is an assumption. The store a transaction's accessor [Store] returns is the
    one it was made from. A byte slice is a value: aliasing is modelled where it matters, for the
    key slices of Badger's iterators ([prev_key]).

    The programs of the contract have single-key operations and [Empty]. [Iterate] and [Range]
    are not among them, because the stores do not promise the same about them: Redis' [Iterate]
    may visit a pair twice and its [Range] need not come to an end, Badger's [Range] ignores
    [stopAtNil] for keys of fixed size. What each of them does is proved per store instead.

    ** This file

    Shared notions: Go byte slices and strings as [list byte], the order of
    [bytes.Compare], big-endian numbers, prefixes, and the tactics and hints the
    component files use. *)
From stdpp Require Export base list gmap option numbers sorting relations.
From Stdlib Require Export Strings.Byte.
From Stdlib Require Strings.String.
Export Strings.String.StringSyntax.
Delimit Scope string_scope with string.

Declare Scope go_scope.
Delimit Scope go_scope with go.

(** A Go [[]byte] or [string]: a Go string is a read-only sequence of bytes, so
    the two share one representation and the conversions are identities. *)
Abbreviation bytes := (list byte).

#[global] Instance byte_eq_dec : EqDecision byte := Byte.byte_eq_dec.
#[global] Instance byte_countable : Countable byte.
Proof. exact (inj_countable Byte.to_N Byte.of_N Byte.of_to_N). Defined.

(** A string literal of the source. *)
Definition str (s : String.string) : bytes := String.list_byte_of_string s.
Notation "# s" := (str s%string) (at level 1, format "# s") : go_scope.
Open Scope go_scope.

(** Truncating conversion of a number to a byte. *)
Definition byte_of_N (n : N) : byte :=
  match Byte.of_N (n mod 256) with Some b => b | None => x00 end.

Lemma byte_bound (b : byte) : (Byte.to_N b < 256)%N.
Proof. pose proof (Byte.to_N_bounded b). lia. Qed.

Lemma byte_of_N_to_N (n : N) : Byte.to_N (byte_of_N n) = (n mod 256)%N.
Proof.
  unfold byte_of_N. destruct (Byte.of_N (n mod 256)) as [b|] eqn:E.
  - by apply Byte.to_of_N.
  - apply Byte.of_N_None_iff in E.
    pose proof (N.mod_upper_bound n 256). lia.
Qed.

Lemma byte_to_N_of_N (b : byte) : byte_of_N (Byte.to_N b) = b.
Proof.
  unfold byte_of_N. rewrite N.mod_small by apply byte_bound.
  by rewrite Byte.of_to_N.
Qed.

Lemma byte_to_N_inj (a b : byte) : Byte.to_N a = Byte.to_N b → a = b.
Proof. intros H. by rewrite <-(byte_to_N_of_N a), <-(byte_to_N_of_N b), H. Qed.

(** [bytes.Compare]: lexicographic, a proper prefix is smaller. *)
Fixpoint bytes_Compare (a b : bytes) : comparison :=
  match a, b with
  | [], [] => Eq
  | [], _ :: _ => Lt
  | _ :: _, [] => Gt
  | x :: a', y :: b' =>
      match (Byte.to_N x ?= Byte.to_N y)%N with
      | Eq => bytes_Compare a' b'
      | c => c
      end
  end.

(** [bytes.Compare(a, b) < 0]. *)
Definition bytes_ltb (a b : bytes) : bool :=
  match bytes_Compare a b with Lt => true | _ => false end.

Definition bytes_lt (a b : bytes) : Prop := bytes_Compare a b = Lt.
Definition bytes_le (a b : bytes) : Prop := bytes_Compare a b ≠ Gt.

#[global] Instance bytes_lt_dec a b : Decision (bytes_lt a b).
Proof. unfold bytes_lt. solve_decision. Defined.
#[global] Instance bytes_le_dec a b : Decision (bytes_le a b).
Proof. unfold bytes_le. solve_decision. Defined.

Lemma bytes_Compare_refl a : bytes_Compare a a = Eq.
Proof. induction a as [|x a IH]; [done|]. cbn. by rewrite N.compare_refl. Qed.

Lemma bytes_Compare_eq a b : bytes_Compare a b = Eq ↔ a = b.
Proof.
  split; [|intros ->; apply bytes_Compare_refl].
  revert b. induction a as [|x a IH]; intros [|y b]; cbn; try done.
  destruct (N.compare_spec (Byte.to_N x) (Byte.to_N y)) as [E|E|E]; try done.
  intros H. apply byte_to_N_inj in E as ->. f_equal. by apply IH.
Qed.

Lemma bytes_Compare_antisym a b : bytes_Compare b a = CompOpp (bytes_Compare a b).
Proof.
  revert b. induction a as [|x a IH]; intros [|y b]; cbn; try done.
  rewrite (N.compare_antisym (Byte.to_N x)).
  destruct (Byte.to_N x ?= Byte.to_N y)%N; cbn; auto.
Qed.

Lemma bytes_lt_irrefl a : ¬ bytes_lt a a.
Proof. unfold bytes_lt. by rewrite bytes_Compare_refl. Qed.

#[global] Instance bytes_lt_trans : Transitive bytes_lt.
Proof.
  unfold bytes_lt. intros a. induction a as [|x a IH]; intros [|y b] [|z c]; cbn; try done.
  destruct (N.compare_spec (Byte.to_N x) (Byte.to_N y)) as [E1|E1|E1];
  destruct (N.compare_spec (Byte.to_N y) (Byte.to_N z)) as [E2|E2|E2]; try done;
  destruct (N.compare_spec (Byte.to_N x) (Byte.to_N z)); try lia; try done. by apply IH.
Qed.

Lemma bytes_lt_trichotomy a b : bytes_lt a b ∨ a = b ∨ bytes_lt b a.
Proof.
  unfold bytes_lt. rewrite (bytes_Compare_antisym a b).
  destruct (bytes_Compare a b) eqn:E; cbn; auto.
  apply bytes_Compare_eq in E. auto.
Qed.

Lemma bytes_le_iff a b : bytes_le a b ↔ bytes_lt a b ∨ a = b.
Proof.
  unfold bytes_le, bytes_lt. rewrite <-bytes_Compare_eq.
  destruct (bytes_Compare a b); intuition congruence.
Qed.

Lemma bytes_nlt_le a b : ¬ bytes_lt a b ↔ bytes_le b a.
Proof.
  unfold bytes_le, bytes_lt. rewrite (bytes_Compare_antisym a b).
  destruct (bytes_Compare a b); cbn; intuition congruence.
Qed.

Lemma bytes_le_refl a : bytes_le a a.
Proof. apply bytes_le_iff. auto. Qed.

Lemma bytes_lt_le a b : bytes_lt a b → bytes_le a b.
Proof. rewrite bytes_le_iff. auto. Qed.

#[global] Instance bytes_le_trans : Transitive bytes_le.
Proof.
  intros a b c. rewrite !bytes_le_iff. intros [?| ->] [?| ->]; auto.
  left. by etrans.
Qed.

Lemma bytes_le_lt_trans a b c : bytes_le a b → bytes_lt b c → bytes_lt a c.
Proof. rewrite bytes_le_iff. intros [?| ->] ?; [by etrans|done]. Qed.

Lemma bytes_lt_le_trans a b c : bytes_lt a b → bytes_le b c → bytes_lt a c.
Proof. rewrite bytes_le_iff. intros ? [?| <-]; [by etrans|done]. Qed.

Lemma bytes_ltb_lt a b : bytes_ltb a b = true ↔ bytes_lt a b.
Proof. unfold bytes_ltb, bytes_lt. by destruct (bytes_Compare a b). Qed.

Lemma bytes_ltb_ge a b : bytes_ltb a b = false ↔ bytes_le b a.
Proof. rewrite <-bytes_nlt_le, <-bytes_ltb_lt. by destruct (bytes_ltb a b). Qed.

(** A shared prefix does not influence the order. *)
Lemma bytes_Compare_app p a b : bytes_Compare (p ++ a) (p ++ b) = bytes_Compare a b.
Proof. induction p as [|x p IH]; [done|]. cbn. by rewrite N.compare_refl. Qed.

(** [bytes.HasPrefix] / [strings.HasPrefix] and [strings.TrimPrefix]. *)
Fixpoint HasPrefix (s prefix : bytes) {struct prefix} : bool :=
  match prefix, s with
  | [], _ => true
  | _ :: _, [] => false
  | p :: prefix', c :: s' => bool_decide (p = c) && HasPrefix s' prefix'
  end.

Definition TrimPrefix (s prefix : bytes) : bytes :=
  if HasPrefix s prefix then drop (length prefix) s else s.

Lemma HasPrefix_spec s p : HasPrefix s p = true ↔ ∃ r, s = p ++ r.
Proof.
  revert s. induction p as [|x p IH]; intros s; cbn; [split; eauto|].
  destruct s as [|c s]; [split; [done|intros [r Hr]; done]|].
  rewrite andb_true_iff, bool_decide_eq_true, IH. split.
  - intros [-> [r ->]]. eauto.
  - intros [r [= -> ->]]. eauto.
Qed.

Lemma HasPrefix_app p r : HasPrefix (p ++ r) p = true.
Proof. apply HasPrefix_spec. eauto. Qed.

Lemma TrimPrefix_app p r : TrimPrefix (p ++ r) p = r.
Proof. unfold TrimPrefix. by rewrite HasPrefix_app, drop_app_length. Qed.

(** Big-endian value of a byte sequence. *)
Fixpoint be_value_acc (acc : N) (b : bytes) : N :=
  match b with
  | [] => acc
  | x :: b' => be_value_acc (acc * 256 + Byte.to_N x) b'
  end.
Definition be_value (b : bytes) : N := be_value_acc 0 b.

(** The [k] low-order bytes of [n], most significant first. *)
Fixpoint be_split (k : nat) (n : N) : bytes :=
  match k with
  | O => []
  | S k' => be_split k' (n / 256) ++ [byte_of_N n]
  end.

Lemma be_value_acc_app acc a b :
  be_value_acc acc (a ++ b) = be_value_acc (be_value_acc acc a) b.
Proof. revert acc. induction a; intros; cbn; auto. Qed.

Lemma be_value_snoc a x : be_value (a ++ [x]) = (be_value a * 256 + Byte.to_N x)%N.
Proof. unfold be_value. by rewrite be_value_acc_app. Qed.

Lemma be_value_acc_linear acc b :
  be_value_acc acc b = (acc * 256 ^ N.of_nat (length b) + be_value b)%N.
Proof.
  unfold be_value. revert acc. induction b as [|x b IH]; intros acc.
  - cbn -[N.pow N.mul]. rewrite N.pow_0_r. lia.
  - cbn [be_value_acc length]. rewrite IH, (IH (0 * 256 + _)%N).
    rewrite Nat2N.inj_succ, N.pow_succ_r'. lia.
Qed.

Lemma be_value_cons x b :
  be_value (x :: b) = (Byte.to_N x * 256 ^ N.of_nat (length b) + be_value b)%N.
Proof. unfold be_value at 1. cbn [be_value_acc]. by rewrite be_value_acc_linear. Qed.

Lemma be_value_bound b : (be_value b < 256 ^ N.of_nat (length b))%N.
Proof.
  induction b as [|x b IH]; [cbn; lia|].
  rewrite be_value_cons. cbn [length]. rewrite Nat2N.inj_succ, N.pow_succ_r'.
  pose proof (byte_bound x). nia.
Qed.

Lemma length_be_split k n : length (be_split k n) = k.
Proof.
  revert n. induction k as [|k IH]; intros n; [done|].
  cbn. rewrite length_app, IH. cbn. lia.
Qed.

Lemma be_value_split k n : be_value (be_split k n) = (n mod 256 ^ N.of_nat k)%N.
Proof.
  revert n. induction k as [|k IH]; intros n.
  - cbn [be_split N.of_nat]. by rewrite N.pow_0_r, N.mod_1_r.
  - cbn [be_split]. rewrite be_value_snoc, IH, byte_of_N_to_N.
    rewrite Nat2N.inj_succ, N.pow_succ_r'.
    rewrite (N.Div0.mod_mul_r n 256). lia.
Qed.

Lemma be_split_value b : be_split (length b) (be_value b) = b.
Proof.
  induction b as [|x b IH] using rev_ind; [done|].
  rewrite length_app, Nat.add_1_r. cbn [be_split].
  rewrite be_value_snoc. f_equal.
  - rewrite N.div_add_l by lia. rewrite (N.div_small (Byte.to_N x)) by apply byte_bound.
    by rewrite N.add_0_r.
  - f_equal. apply byte_to_N_inj. rewrite byte_of_N_to_N.
    rewrite N.add_comm, N.Div0.mod_add, N.mod_small by apply byte_bound. done.
Qed.

Lemma be_value_inj a b : length a = length b → be_value a = be_value b → a = b.
Proof.
  intros Hl Hv. rewrite <-(be_split_value a), <-(be_split_value b). by rewrite Hl, Hv.
Qed.

(** On sequences of equal length the byte order is the numeric order. *)
Lemma bytes_Compare_value a b :
  length a = length b → bytes_Compare a b = (be_value a ?= be_value b)%N.
Proof.
  revert b. induction a as [|x a IH]; intros [|y b] Hl; try done.
  injection Hl as Hl. cbn [bytes_Compare]. rewrite !be_value_cons, <-Hl.
  pose proof (be_value_bound a). pose proof (be_value_bound b) as Hb. rewrite <-Hl in Hb.
  destruct (N.compare_spec (Byte.to_N x) (Byte.to_N y)) as [E|E|E].
  - rewrite IH, E by done. symmetry.
    destruct (N.compare_spec (be_value a) (be_value b)); 
      [apply N.compare_eq_iff|apply N.compare_lt_iff|apply N.compare_gt_iff]; lia.
  - symmetry. apply N.compare_lt_iff. nia.
  - symmetry. apply N.compare_gt_iff. nia.
Qed.

(** Strips the leading zero bytes. *)
Fixpoint strip_zeros (b : bytes) : bytes :=
  match b with
  | x00 :: b' => strip_zeros b'
  | _ => b
  end.

Lemma be_value_strip b : be_value (strip_zeros b) = be_value b.
Proof. induction b as [|x b IH]; [done|]. by destruct x. Qed.

Lemma length_strip_zeros b : (length (strip_zeros b) ≤ length b)%nat.
Proof. induction b as [|x b IH]; [done|]. destruct x; cbn; lia. Qed.

(** Induction two elements at a time. *)
Lemma list_pair_ind {A} (P : list A → Prop) :
  P [] → (∀ x, P [x]) → (∀ x y l, P l → P (x :: y :: l)) → ∀ l, P l.
Proof. intros H0 H1 H2. fix IH 1. intros [|x [|y l]]; [done|done|]. apply H2, IH. Qed.

(** A pair with a known first component. *)
Lemma pair_of_fst {A B} (p : A * B) a : p.1 = a → p = (a, p.2).
Proof. intros <-. by destruct p. Qed.

(** ** Tactics *)

(** Case analysis on the first stuck [match] or [if] of the goal. *)
Ltac case_goal :=
  match goal with
  | |- context [match ?x with _ => _ end] =>
      lazymatch x with context [match _ with _ => _ end] => fail | _ => destruct x eqn:? end
  end.

(** Case analysis on a stuck [match] of hypothesis [H]. *)
Ltac case_hyp H :=
  match type of H with
  | context [match ?x with _ => _ end] =>
      lazymatch x with context [match _ with _ => _ end] => fail | _ => destruct x eqn:? end
  end.

Create HintDb go_db.
Create Rewrite HintDb go_db.
#[export] Hint Resolve bytes_le_refl bytes_lt_le byte_bound be_value_bound : go_db.
#[export] Hint Rewrite bytes_Compare_refl bytes_Compare_app TrimPrefix_app HasPrefix_app
  length_be_split be_split_value be_value_strip byte_to_N_of_N : go_db.

#[global] Arguments be_split : simpl never.
#[global] Arguments be_value : simpl never.
#[global] Arguments byte_of_N : simpl never.
