(* ===== verification/Errors.v ===== *)
(** Go's [error] values, the chain walk of [errors.Is], and the error types of
    store.go ([ErrDatabase], the sentinels) and util/errors.go ([wrappedError]). *)
From S2P Require Import Prelude.

(** A value of the interface type [error]. [ENil] is the nil interface. Every other
    constructor is a dynamic type the program meets:
    - [errorString]: a leaf allocated by [errors.New], compared by pointer, so it
      carries the identity of its allocation beside its text;
    - [deadlineExceededError]: the (comparable, empty) struct behind
      [context.DeadlineExceeded];
    - [InvalidByteError]: encoding/hex's error, a byte;
    - [NumError]: strconv's error, with the function, the input and a cause;
    - [Errorf]: the result of [fmt.Errorf("text: %w", e)];
    - [errorfText]: the result of [fmt.Errorf] with no [%w];
    - [ErrDatabase]: store.go; [wrappedError]: util/errors.go. *)
Inductive error : Type :=
  | ENil
  | errorString (id : N) (text : bytes)
  | deadlineExceededError
  | InvalidByteError (b : byte)
  | NumError (Func Num : bytes) (Err : error)
  | Errorf (text : bytes) (w : error)
  | errorfText (text : bytes)
  | ErrDatabase (e : error)
  | wrappedError (err cause : error).

#[global] Instance error_eq_dec : EqDecision error.
Proof. solve_decision. Defined.

Definition is_nil (e : error) : bool := match e with ENil => true | _ => false end.

Lemma is_nil_true e : is_nil e = true ↔ e = ENil.
Proof. by destruct e. Qed.
Lemma is_nil_false e : is_nil e = false ↔ e ≠ ENil.
Proof. by destruct e. Qed.

(** ** store.go: [ErrDatabase]'s methods *)

(** [_, ok := other.(ErrDatabase)]. *)
Definition ErrDatabase_Is (other : error) : bool :=
  match other with ErrDatabase _ => true | _ => false end.

(** ** The standard library's [errors.Unwrap] and [errors.Is] *)

Definition Unwrap (err : error) : error :=
  match err with
  | NumError _ _ e => e
  | Errorf _ e => e
  | ErrDatabase e => e
  | wrappedError _ cause => cause
  | _ => ENil
  end.

(** [errors.Is]: nil is only nil; otherwise the chain of [Unwrap]s is walked, and at
    each link the error is compared with the target and its [Is] method, when the type
    has one, is asked. [wrappedError.Is] calls [errors.Is] on its outer error. *)
Fixpoint errors_Is (err target : error) {struct err} : bool :=
  if is_nil err || is_nil target then bool_decide (err = target) else
  bool_decide (err = target) ||
  match err with
  | NumError _ _ e => errors_Is e target
  | Errorf _ e => errors_Is e target
  | ErrDatabase e => ErrDatabase_Is target || errors_Is e target
  | wrappedError e cause => errors_Is e target || errors_Is cause target
  | _ => false
  end.

(** [wrappedError.Is]. *)
Definition wrappedError_Is (err other : error) : bool := errors_Is err other.

(** [DatabaseError]. The target [ErrDatabase{}] has a nil inner error. *)
Definition DatabaseError (err : error) : error :=
  if errors_Is err (ErrDatabase ENil) then err else ErrDatabase err.

(** [util.WrapError]. *)
Definition WrapError (err cause : error) : error := wrappedError err cause.

(** ** Sentinels: allocation identities of the package-level [errors.New] calls *)

Definition ErrStoreIsClosed : error :=
  DatabaseError (errorString 1 #"database not open").
Definition ErrCommitFailed : error :=
  DatabaseError (errorString 2 #"unable to commit transaction").
Definition ErrKeyNotFound : error := errorString 3 #"key not found".

(** Sentinels of the standard library the program meets. *)
Definition Canceled : error := errorString 100 #"context canceled".
Definition DeadlineExceeded : error := deadlineExceededError.
Definition ErrSyntax : error := errorString 101 #"invalid syntax".
Definition ErrRange : error := errorString 102 #"value out of range".
Definition ErrLength : error := errorString 103 #"encoding/hex: odd length hex string".

(** Whether an error is a database error in the sense of the documented contract. *)
Definition is_database_error (e : error) : bool := errors_Is e (ErrDatabase ENil).

(** ** The texts of the errors *)

Definition hex_digit (n : N) : byte :=
  byte_of_N (if (n <? 10)%N then 48 + n else 87 + n).

(** [strconv.Quote] on ASCII input; a byte outside ASCII is written as an escape. *)
Definition quote_byte (b : byte) : bytes :=
  let n := Byte.to_N b in
  if (n =? 34)%N || (n =? 92)%N then [x5c; b]
  else if (32 <=? n)%N && (n <? 127)%N then [b]
  else if (n =? 7)%N then #"\a" else if (n =? 8)%N then #"\b"
  else if (n =? 9)%N then #"\t" else if (n =? 10)%N then #"\n"
  else if (n =? 11)%N then #"\v" else if (n =? 12)%N then #"\f"
  else if (n =? 13)%N then #"\r"
  else #"\x" ++ [hex_digit (n / 16); hex_digit (n mod 16)].
Definition Quote (s : bytes) : bytes := [x22] ++ mjoin (quote_byte <$> s) ++ [x22].

(** [fmt]'s [%#U] verb on a rune below 256, as [InvalidByteError.Error] uses it. *)
Definition upper_hex_digit (n : N) : byte :=
  byte_of_N (if (n <? 10)%N then 48 + n else 55 + n).
Definition utf8_latin1 (n : N) : bytes :=
  if (n <? 128)%N then [byte_of_N n] else [byte_of_N (192 + n / 64); byte_of_N (128 + n mod 64)].
Definition Sprintf_U (b : byte) : bytes :=
  let n := Byte.to_N b in
  let printable := ((32 <=? n) && (n <? 127) || (161 <=? n) && negb (n =? 173))%N in
  #"U+00" ++ [upper_hex_digit (n / 16); upper_hex_digit (n mod 16)] ++
  (if printable then #" '" ++ utf8_latin1 n ++ #"'" else []).

(** [fmt]'s [%s] verb on an error: the method's result, or the text for nil. *)
Fixpoint Sprintf_s (e : error) : bytes :=
  match e with
  | ENil => #"%!s(<nil>)"
  | errorString _ text => text
  | deadlineExceededError => #"context deadline exceeded"
  | InvalidByteError b => #"encoding/hex: invalid byte: " ++ Sprintf_U b
  | NumError fn num e => #"strconv." ++ fn ++ #": parsing " ++ Quote num ++ #": " ++ Sprintf_s e
  | Errorf text e => text ++ #": " ++ Sprintf_s e
  | errorfText text => text
  | ErrDatabase e => #"database error: " ++ Sprintf_s e
  | wrappedError e cause => Sprintf_s e ++ #": " ++ Sprintf_s cause
  end.

(** [ErrDatabase.Error] and [wrappedError.Error]. *)
Definition ErrDatabase_Error (e : error) : bytes := #"database error: " ++ Sprintf_s e.
Definition wrappedError_Error (err cause : error) : bytes :=
  Sprintf_s err ++ #": " ++ Sprintf_s cause.

(** ** Lemmas *)

(** The types of the program with an [Is] method, and what it answers. *)
Definition Is_method (err target : error) : bool :=
  match err with
  | ErrDatabase _ => ErrDatabase_Is target
  | wrappedError e _ => wrappedError_Is e target
  | _ => false
  end.

Lemma errors_Is_nil_target err : errors_Is err ENil = is_nil err.
Proof. by destruct err. Qed.

Lemma errors_Is_nil_err target : errors_Is ENil target = is_nil target.
Proof. by destruct target. Qed.

Lemma errors_Is_refl e : errors_Is e e = true.
Proof. destruct e; cbn; rewrite bool_decide_eq_true_2 by done; done. Qed.

(** One turn of the loop of [errors.Is]. *)
Lemma errors_Is_step err target :
  err ≠ ENil → target ≠ ENil →
  errors_Is err target =
    bool_decide (err = target) || Is_method err target ||
    (negb (is_nil (Unwrap err)) && errors_Is (Unwrap err) target).
Proof.
  intros He Ht. apply is_nil_false in Ht.
  assert (Hn : ∀ e, negb (is_nil e) && errors_Is e target = errors_Is e target).
  { intros e. destruct (is_nil e) eqn:E; [|done].
    apply is_nil_true in E as ->. by rewrite errors_Is_nil_err. }
  rewrite Hn. destruct err; try done; cbn [errors_Is Unwrap Is_method is_nil]; rewrite Ht;
    cbn [orb]; rewrite ?errors_Is_nil_err, ?Ht, ?orb_false_r, ?orb_assoc; try done.
  all: destruct target; try done; by rewrite orb_false_r.
Qed.

Lemma errors_Is_ErrDatabase e t :
  t ≠ ENil → errors_Is (ErrDatabase e) t = ErrDatabase_Is t || errors_Is e t.
Proof.
  intros Ht. apply is_nil_false in Ht. cbn. rewrite Ht. cbn.
  case_bool_decide as Hd; [by subst t|done].
Qed.

Lemma errors_Is_database e : errors_Is (ErrDatabase e) (ErrDatabase ENil) = true.
Proof. by rewrite errors_Is_ErrDatabase. Qed.

Lemma errors_Is_Errorf text e t :
  (∀ text' e', t ≠ Errorf text' e') → t ≠ ENil → errors_Is (Errorf text e) t = errors_Is e t.
Proof.
  intros Hne Ht. apply is_nil_false in Ht. cbn. rewrite Ht. cbn.
  case_bool_decide as Hd; [|done]. by destruct (Hne text e).
Qed.

(** Database errors answer to every target of type [ErrDatabase] alike. *)
Lemma errors_Is_any_database e x y :
  errors_Is e (ErrDatabase x) = true → errors_Is e (ErrDatabase y) = true.
Proof.
  induction e as [| | | |? ? e IH|? e IH| |e IH|e1 IH1 e2 IH2];
    cbn; rewrite ?orb_true_iff, ?bool_decide_eq_true; intuition congruence.
Qed.

Lemma DatabaseError_database e : is_database_error (DatabaseError e) = true.
Proof.
  unfold is_database_error, DatabaseError. destruct (errors_Is e _) eqn:E; [done|].
  apply errors_Is_database.
Qed.

Lemma DatabaseError_not_nil e : DatabaseError e ≠ ENil.
Proof. unfold DatabaseError. by destruct e; cbn; try case_match. Qed.

(** A failed commit. *)
Lemma commit_failed_database c : is_database_error (WrapError ErrCommitFailed c) = true.
Proof. unfold is_database_error. by rewrite errors_Is_step. Qed.

(** *** Properties *)

(** [DatabaseError] makes every error a database error, is idempotent ("only wrap
    once"), and hides nothing: for a non-nil target [errors.Is] answers as before, except
    that targets of type [ErrDatabase] are now found. *)
Theorem DatabaseError_spec (e t : error) (Ht : t ≠ ENil) :
  is_database_error (DatabaseError e) = true ∧
  DatabaseError (DatabaseError e) = DatabaseError e ∧
  errors_Is (DatabaseError e) t = errors_Is e t || ErrDatabase_Is t.
Proof.
  split; [apply DatabaseError_database|].
  unfold DatabaseError. destruct (errors_Is e (ErrDatabase ENil)) eqn:E.
  - rewrite E. split; [done|].
    destruct t; rewrite ?orb_false_r; try done.
    cbn [ErrDatabase_Is]. rewrite orb_true_r. by eapply errors_Is_any_database.
  - rewrite errors_Is_database. split; [done|].
    by rewrite errors_Is_ErrDatabase, orb_comm.
Qed.

Lemma DatabaseError_spec_witness :
  Canceled ≠ ENil ∧
  (is_database_error (DatabaseError Canceled) = true ∧
   DatabaseError (DatabaseError Canceled) = DatabaseError Canceled ∧
   errors_Is (DatabaseError Canceled) Canceled =
     errors_Is Canceled Canceled || ErrDatabase_Is Canceled).
Proof. split; [discriminate|]. apply (DatabaseError_spec Canceled Canceled). discriminate. Defined.

(** An error built by [WrapError] is recognised as its outer error and as its
    cause, through their whole chains, and as nothing else but itself: the promise of
    its comment ("errors.Is can be used on both the outer error and cause"). *)
Theorem WrapError_Is (err cause t : error) (Ht : t ≠ ENil) :
  errors_Is (WrapError err cause) t =
    bool_decide (t = WrapError err cause) || errors_Is err t || errors_Is cause t.
Proof.
  unfold WrapError. rewrite errors_Is_step by done. cbn [Is_method Unwrap].
  unfold wrappedError_Is. f_equal.
  - f_equal. by apply bool_decide_ext.
  - destruct (is_nil cause) eqn:E; [|done].
    apply is_nil_true in E as ->. by destruct t.
Qed.

Lemma WrapError_Is_witness :
  Canceled ≠ ENil ∧ errors_Is (WrapError ErrCommitFailed Canceled) Canceled = true.
Proof.
  split; [discriminate|]. by rewrite (WrapError_Is ErrCommitFailed Canceled Canceled).
Defined.

(** Because [ErrDatabase.Is] accepts every target of its type, [errors.Is] cannot
    tell the sentinels [ErrStoreIsClosed] and [ErrCommitFailed] from any other database
    error, whatever its cause: it answers yes for both on exactly the database errors. *)
Theorem sentinels_indistinguishable (e : error) :
  errors_Is e ErrStoreIsClosed = is_database_error e ∧
  errors_Is e ErrCommitFailed = is_database_error e.
Proof.
  assert (H : ∀ x, errors_Is e (ErrDatabase x) = is_database_error e).
  { intros x. unfold is_database_error. apply eq_true_iff_eq.
    split; apply errors_Is_any_database. }
  split; apply H.
Qed.
