(* ===== verification/Files.v ===== *)
(** What the constructors of the bbolt and Badger stores use of Go's packages path and os:
    [path.Dir] of slash-separated paths, and [os.MkdirAll] on a file system that is a
    parameter. *)
From S2P Require Import Prelude Errors.

(** ** The file system *)

(** [os.FileMode] bits. *)
Definition ModePerm : N := 511.

(** [os_MkdirAll dir mode]: creates the directory and its parents, or fails. *)
Class OS := {
  FS : Type;
  os_MkdirAll : bytes → N → FS → error * FS
}.

(** ** Package path *)

Definition slash : byte := x2f.
Definition dot : bytes := #".".
Definition dotdot : bytes := #"..".

(** The part up to and including the last slash, as [path.Split] gives it. *)
Fixpoint path_dir_part (p : bytes) : bytes :=
  match p with
  | [] => []
  | c :: p' =>
      match path_dir_part p' with
      | [] => if bool_decide (c = slash) then [c] else []
      | d => c :: d
      end
  end.

(** The elements between slashes. *)
Fixpoint split_slash (p : bytes) : list bytes :=
  match p with
  | [] => [[]]
  | c :: p' =>
      if bool_decide (c = slash) then [] :: split_slash p'
      else match split_slash p' with
           | e :: es => (c :: e) :: es
           | [] => [[c]]
           end
  end.

Fixpoint join_slash (es : list bytes) : bytes :=
  match es with
  | [] => []
  | [e] => e
  | e :: es' => e ++ slash :: join_slash es'
  end.

(** One element of [path.Clean]'s pass, [out] being the elements kept so far, last first:
    an empty element and "." are dropped, ".." takes back the element before it, is kept
    at the front of a relative path and dropped at the root. *)
Definition clean_step (rooted : bool) (out : list bytes) (e : bytes) : list bytes :=
  if bool_decide (e = []) || bool_decide (e = dot) then out
  else if bool_decide (e = dotdot) then
    match out with
    | x :: out' => if bool_decide (x = dotdot) then e :: out else out'
    | [] => if rooted then [] else [e]
    end
  else e :: out.

Definition path_Clean (p : bytes) : bytes :=
  let rooted := HasPrefix p [slash] in
  let es := reverse (foldl (clean_step rooted) [] (split_slash p)) in
  match (if rooted then [slash] else []) ++ join_slash es with
  | [] => dot
  | r => r
  end.

Definition path_Dir (p : bytes) : bytes := path_Clean (path_dir_part p).

(** ** Lemmas *)

Lemma path_dir_part_app d name :
  slash ∉ name → path_dir_part (d ++ slash :: name) = d ++ [slash].
Proof.
  intros Hn. assert (H0 : path_dir_part name = []).
  { induction name as [|c name IH]; [done|]. cbn. apply not_elem_of_cons in Hn as [Hc Hn].
    rewrite IH by done. by rewrite bool_decide_eq_false_2. }
  induction d as [|c d IH]; cbn; [by rewrite H0|]. rewrite IH. by destruct d.
Qed.

Lemma split_slash_snoc d : split_slash (d ++ [slash]) = split_slash d ++ [[]].
Proof.
  induction d as [|c d IH]; [done|]. cbn. rewrite IH. case_bool_decide; [done|].
  destruct (split_slash d) eqn:E; [|done].
  destruct d as [|c' d]; [done|]. cbn in E. case_bool_decide; [done|]. by destruct (split_slash d).
Qed.

(** A slash at the end of a path that is not empty does not matter. *)
Lemma path_Clean_slash d : d ≠ [] → path_Clean (d ++ [slash]) = path_Clean d.
Proof.
  intros Hd. unfold path_Clean. rewrite split_slash_snoc, foldl_app.
  assert (HasPrefix (d ++ [slash]) [slash] = HasPrefix d [slash]) as -> by (by destruct d).
  done.
Qed.

(** The directory of a file is the cleaned path before the last slash. *)
Lemma path_Dir_file d name :
  d ≠ [] → slash ∉ name → path_Dir (d ++ slash :: name) = path_Clean d.
Proof.
  intros Hd Hn. unfold path_Dir. by rewrite path_dir_part_app, path_Clean_slash.
Qed.

(** The examples of the package's documentation. *)
Example path_Dir_examples :
  path_Dir #"/a/b/c" = #"/a/b" ∧ path_Dir #"a/b/c" = #"a/b" ∧ path_Dir #"/a/" = #"/a" ∧
  path_Dir #"a/" = #"a" ∧ path_Dir #"/" = #"/" ∧ path_Dir [] = #"." ∧
  path_Clean #"a//c" = #"a/c" ∧ path_Clean #"a/c/b/.." = #"a/c" ∧
  path_Clean #"/../a/c" = #"/a/c" ∧ path_Clean #"/../a/b/../././/c" = #"/a/c" ∧
  path_Clean #"../../x/../y" = #"../../y" ∧ path_Clean #"a/.." = #".".
Proof. repeat split. Qed.
