(* ===== verification/Keys.v ===== *)
(** key.go: the [Key] interface and its three implementations, with the parts of
    strconv, encoding/hex, encoding/binary and math/big they call. *)
From S2P Require Import Prelude Errors.
Local Open Scope N_scope.

(** ** The standard library *)

Module Std.

(** [fmt.Sprintf("%d", u)]. The fuel, the number of bits of [n], bounds the number of
    decimal digits. *)
Definition digit (d : N) : byte := byte_of_N (48 + d).
Fixpoint format_dec (fuel : nat) (n : N) : bytes :=
  match fuel with
  | O => []
  | S fuel' => if n <? 10 then [digit n] else format_dec fuel' (n / 10) ++ [digit (n mod 10)]
  end.
Definition Sprintf_d (n : N) : bytes := format_dec (S (N.to_nat (N.size n))) n.

(** The value of a decimal digit. *)
Definition digit_value (c : byte) : option N :=
  let n := Byte.to_N c in
  if (48 <=? n) && (n <=? 57) then Some (n - 48) else None.

(** The loop of [strconv.ParseUint] in base 10. Its second result is [ENil],
    [ErrSyntax] or [ErrRange]. With [maxVal < 2^32] the 64-bit accumulator cannot
    overflow before the comparison with [maxVal]. *)
Fixpoint ParseUint_loop (maxVal n : N) (s : bytes) : N * error :=
  match s with
  | [] => (n, ENil)
  | c :: s' =>
      match digit_value c with
      | None => (0, ErrSyntax)
      | Some d =>
          let n1 := n * 10 + d in
          if maxVal <? n1 then (maxVal, ErrRange) else ParseUint_loop maxVal n1 s'
      end
  end.

Definition ParseUint (s : bytes) (bitSize : N) : N * error :=
  match s with [] => (0, ErrSyntax) | _ => ParseUint_loop (2 ^ bitSize - 1) 0 s end.

(** The sign handling of [strconv.ParseInt]: negative?, and the rest of the input. *)
Definition split_sign (s : bytes) : bool * bytes :=
  match s with
  | x2b :: s' => (false, s')
  | x2d :: s' => (true, s')
  | _ => (false, s)
  end.

(** [strconv.ParseInt(s, 10, bitSize)]. *)
Definition ParseInt (s : bytes) (bitSize : N) : Z * error :=
  let num e := NumError #"ParseInt" s e in
  match s with
  | [] => (0%Z, num ErrSyntax)
  | _ =>
      let '(neg, s') := split_sign s in
      let '(un, err) := ParseUint s' bitSize in
      if negb (is_nil err) && negb (bool_decide (err = ErrRange)) then (0%Z, num err) else
      let cutoff := 2 ^ (bitSize - 1) in
      if negb neg && (cutoff <=? un) then (Z.of_N (cutoff - 1), num ErrRange)
      else if neg && (cutoff <? un) then ((- Z.of_N cutoff)%Z, num ErrRange)
      else (if neg then (- Z.of_N un)%Z else Z.of_N un, ENil)
  end.

(** [hex.EncodeToString]. *)
Fixpoint EncodeToString (src : bytes) : bytes :=
  match src with
  | [] => []
  | b :: src' => hex_digit (Byte.to_N b / 16) :: hex_digit (Byte.to_N b mod 16) :: EncodeToString src'
  end.

(** encoding/hex's table of digit values: both cases of the letters are digits. *)
Definition hex_value (c : byte) : option N :=
  let n := Byte.to_N c in
  if (48 <=? n) && (n <=? 57) then Some (n - 48)
  else if (97 <=? n) && (n <=? 102) then Some (n - 87)
  else if (65 <=? n) && (n <=? 70) then Some (n - 55)
  else None.

(** [hex.DecodeString]: the bytes decoded before the first error, and the error. *)
Fixpoint DecodeString (src : bytes) : bytes * error :=
  match src with
  | [] => ([], ENil)
  | [p] => match hex_value p with None => ([], InvalidByteError p) | Some _ => ([], ErrLength) end
  | p :: q :: src' =>
      match hex_value p, hex_value q with
      | None, _ => ([], InvalidByteError p)
      | _, None => ([], InvalidByteError q)
      | Some a, Some b =>
          let '(dst, err) := DecodeString src' in (byte_of_N (a * 16 + b) :: dst, err)
      end
  end.

(** [big.Int.Bytes] of a non-negative integer: the big-endian bytes without leading
    zeros. The slice returned has no spare capacity. *)
Definition big_Bytes (n : N) : bytes := be_split (N.to_nat ((N.size n + 7) / 8)) n.

End Std.
Import Std.

(** ** Keys *)

(** The implementations of the [Key] interface. [Uint32Key] is a 32-bit unsigned
    integer, [HashKey] an array of 32 bytes, [BytesKey] a slice. A nil interface value
    is [None] of [option Key] where it can occur. *)
Inductive Key : Type :=
  | Uint32Key (u : N)
  | HashKey (s : bytes)
  | BytesKey (b : bytes).

#[global] Instance Key_eq_dec : EqDecision Key.
Proof. solve_decision. Defined.

(** The values of the Go types. *)
Definition key_wf (k : Key) : Prop :=
  match k with
  | Uint32Key u => u < 2 ^ 32
  | HashKey s => length s = 32%nat
  | BytesKey _ => True
  end.

#[global] Instance key_wf_dec k : Decision (key_wf k).
Proof. destruct k; cbn; apply _. Defined.

Definition same_type (k k' : Key) : bool :=
  match k, k' with
  | Uint32Key _, Uint32Key _ | HashKey _, HashKey _ | BytesKey _, BytesKey _ => true
  | _, _ => false
  end.

(** The [%T] verb. *)
Definition type_name (k : Key) : bytes :=
  match k with
  | Uint32Key _ => #"stoabs.Uint32Key"
  | HashKey _ => #"stoabs.HashKey"
  | BytesKey _ => #"stoabs.BytesKey"
  end.

Definition bytes_length_error (k : Key) (i : bytes) : error :=
  errorfText (#"given bytes (len=" ++ Sprintf_d (N.of_nat (length i)) ++
              #") can't be parsed as " ++ type_name k).

Definition string_parse_error (k : Key) (err : error) : error :=
  Errorf (#"given string can't be parsed as " ++ type_name k) err.

(** *** Uint32Key *)

Definition Uint32Key_FromBytes (u : N) (i : bytes) : option Key * error :=
  if negb (bool_decide (length i = 4%nat)) then (None, bytes_length_error (Uint32Key u) i)
  else (Some (Uint32Key (be_value i)), ENil).

Definition Uint32Key_String (u : N) : bytes := Sprintf_d u.

Definition Uint32Key_FromString (u : N) (i : bytes) : option Key * error :=
  let '(result, err) := ParseInt i 32 in
  if negb (is_nil err) then (None, string_parse_error (Uint32Key u) err)
  else if (result <? 0)%Z then
    (None, errorfText (#"given string can't be parsed as " ++ type_name (Uint32Key u) ++
                       #", because it yields a signed integer"))
  else (Some (Uint32Key (Z.to_N (result mod 2 ^ 32))), ENil).

Definition Uint32Key_Bytes (u : N) : bytes := be_split 4 u.

Definition Uint32Key_Next (u : N) : Key := Uint32Key ((u + 1) mod 2 ^ 32).

Definition Uint32Key_Equals (u : N) (other : option Key) : bool :=
  match other with Some (Uint32Key o) => o =? u | _ => false end.

(** *** HashKey *)

Definition NewHashKey (b : bytes) : Key := HashKey b.

Definition HashKey_String (s : bytes) : bytes := EncodeToString s.

Definition HashKey_FromBytes (s : bytes) (i : bytes) : option Key * error :=
  if negb (bool_decide (length i = 32%nat)) then (None, bytes_length_error (HashKey s) i)
  else (Some (HashKey i), ENil).

Definition HashKey_FromString (s : bytes) (i : bytes) : option Key * error :=
  let '(asBytes, err) := DecodeString i in
  if negb (is_nil err) then (None, string_parse_error (HashKey s) err)
  else HashKey_FromBytes s asBytes.

Definition HashKey_Bytes (s : bytes) : bytes := s.

(** [result[:32]] panics ([None]) when the slice has fewer than 32 bytes of capacity. *)
Definition HashKey_Next (s : bytes) : option Key :=
  let next := be_value s + 1 in
  let result := big_Bytes next in
  if (length result <? 32)%nat then None else Some (HashKey (take 32 result)).

Definition HashKey_Equals (s : bytes) (other : option Key) : bool :=
  match other with Some (HashKey o) => bool_decide (o = s) | _ => false end.

(** *** BytesKey *)

Definition BytesKey_String (b : bytes) : bytes := EncodeToString b.

Definition BytesKey_Bytes (b : bytes) : bytes := b.

Definition BytesKey_FromBytes (b : bytes) (i : bytes) : option Key * error :=
  (Some (BytesKey i), ENil).

Definition BytesKey_FromString (b : bytes) (i : bytes) : option Key * error :=
  let '(asBytes, err) := DecodeString i in
  if negb (is_nil err) then (None, string_parse_error (BytesKey b) err)
  else BytesKey_FromBytes b asBytes.

Definition BytesKey_Next (b : bytes) : Key :=
  let next := be_value b + 1 in BytesKey (big_Bytes next).

Definition BytesKey_Equals (b : bytes) (other : option Key) : bool :=
  match other with Some (BytesKey o) => bool_decide (b = o) | _ => false end.

(** *** The interface: dynamic dispatch on the receiver *)

Definition String (k : Key) : bytes :=
  match k with
  | Uint32Key u => Uint32Key_String u
  | HashKey s => HashKey_String s
  | BytesKey b => BytesKey_String b
  end.

Definition FromString (k : Key) (i : bytes) : option Key * error :=
  match k with
  | Uint32Key u => Uint32Key_FromString u i
  | HashKey s => HashKey_FromString s i
  | BytesKey b => BytesKey_FromString b i
  end.

Definition Bytes (k : Key) : bytes :=
  match k with
  | Uint32Key u => Uint32Key_Bytes u
  | HashKey s => HashKey_Bytes s
  | BytesKey b => BytesKey_Bytes b
  end.

Definition FromBytes (k : Key) (i : bytes) : option Key * error :=
  match k with
  | Uint32Key u => Uint32Key_FromBytes u i
  | HashKey s => HashKey_FromBytes s i
  | BytesKey b => BytesKey_FromBytes b i
  end.

(** [None] is a panic. *)
Definition Next (k : Key) : option Key :=
  match k with
  | Uint32Key u => Some (Uint32Key_Next u)
  | HashKey s => HashKey_Next s
  | BytesKey b => Some (BytesKey_Next b)
  end.

Definition Equals (k : Key) (other : option Key) : bool :=
  match k with
  | Uint32Key u => Uint32Key_Equals u other
  | HashKey s => HashKey_Equals s other
  | BytesKey b => BytesKey_Equals b other
  end.

(** The examples of key_test.go and of kvtests, evaluated. *)
Example Uint32Key_Next_test : String <$> Next (Uint32Key 1) = Some #"2".
Proof. reflexivity. Qed.
Example BytesKey_Next_test : String <$> Next (BytesKey [x09]) = Some #"0a".
Proof. reflexivity. Qed.
Example Uint32Key_FromBytes_test :
  FromBytes (Uint32Key 1) [x01] =
    (None, errorfText #"given bytes (len=1) can't be parsed as stoabs.Uint32Key").
Proof. reflexivity. Qed.
Example HashKey_Next_test :
  let hex1 := #"a40d35e4d56273e633ef7bbf8f1e97aabe74ccc3510bd9a9a07493eaf5f815d5" in
  let hex2 := #"a40d35e4d56273e633ef7bbf8f1e97aabe74ccc3510bd9a9a07493eaf5f815d6" in
  String <$> Next (NewHashKey (DecodeString hex1).1) = Some hex2.
Proof. vm_compute. reflexivity. Qed.
Example ParseInt_tests :
  ParseInt #"2147483647" 32 = (2147483647%Z, ENil) ∧
  ParseInt #"2147483648" 32 = (2147483647%Z, NumError #"ParseInt" #"2147483648" ErrRange) ∧
  ParseInt #"-5" 32 = ((-5)%Z, ENil) ∧ ParseInt #"+5" 32 = (5%Z, ENil) ∧
  (ParseInt #"" 32).2 = NumError #"ParseInt" #"" ErrSyntax.
Proof. vm_compute. auto. Qed.

(** ** Lemmas on the standard library *)

Module StdFacts.

Lemma size_bound n : n < 2 ^ N.size n.
Proof. apply N.size_gt. Qed.

Lemma size_le n k : n < 2 ^ k ↔ N.size n ≤ k.
Proof.
  destruct (decide (n = 0)) as [->|Hn].
  - cbn. pose proof (N.pow_nonzero 2 k). lia.
  - rewrite N.size_log2 by done. rewrite N.log2_lt_pow2 by lia. lia.
Qed.

Lemma digit_value_digit d : d < 10 → digit_value (digit d) = Some d.
Proof.
  intros Hd. unfold digit_value, digit. rewrite byte_of_N_to_N, N.mod_small by lia.
  rewrite (proj2 (N.leb_le 48 (48 + d))), (proj2 (N.leb_le (48 + d) 57)) by lia.
  cbn [andb]. f_equal. lia.
Qed.

Lemma split_sign_digit d s : d < 10 → split_sign (digit d :: s) = (false, digit d :: s).
Proof.
  intros Hd. assert (d = 0 ∨ d = 1 ∨ d = 2 ∨ d = 3 ∨ d = 4 ∨ d = 5 ∨ d = 6 ∨ d = 7 ∨
    d = 8 ∨ d = 9) as Hc by lia.
  by destruct_or! Hc; subst d.
Qed.

Lemma format_dec_head f n : ∃ d s, d < 10 ∧ format_dec (S f) n = digit d :: s.
Proof.
  revert n. induction f as [|f IH]; intros n; cbn [format_dec];
    destruct (N.ltb_spec n 10).
  - eauto.
  - exists (n mod 10), []. split; [|done]. apply N.mod_upper_bound. lia.
  - eauto.
  - destruct (IH (n / 10)) as (d & s & Hd & E). cbn [format_dec] in E. rewrite E.
    cbn. eauto.
Qed.

Lemma ParseUint_loop_format maxVal f n s :
  n < 10 ^ N.of_nat f → n ≤ maxVal →
  ParseUint_loop maxVal 0 (format_dec f n ++ s) = ParseUint_loop maxVal n s.
Proof.
  revert n s. induction f as [|f IH]; intros n s Hf Hm.
  { change (10 ^ N.of_nat 0) with 1 in Hf. assert (n = 0) as -> by lia. done. }
  rewrite Nat2N.inj_succ, N.pow_succ_r' in Hf. cbn [format_dec].
  destruct (N.ltb_spec n 10) as [H|H].
  - cbn [app ParseUint_loop]. rewrite digit_value_digit by done.
    rewrite N.mul_0_l, N.add_0_l.
    by rewrite (proj2 (N.ltb_ge maxVal n) Hm).
  - rewrite <-app_assoc, IH.
    + cbn [app ParseUint_loop]. rewrite digit_value_digit by (apply N.mod_upper_bound; lia).
      replace (n / 10 * 10 + n mod 10) with n
        by (rewrite N.mul_comm; apply N.div_mod; lia).
      by rewrite (proj2 (N.ltb_ge maxVal n) Hm).
    + apply N.Div0.div_lt_upper_bound; lia.
    + etrans; [|apply Hm]. apply N.Div0.div_le_upper_bound; lia.
Qed.

(** Parsing the decimal rendering of [n]. *)
Lemma ParseUint_Sprintf n : n < 2 ^ 32 → ParseUint (Sprintf_d n) 32 = (n, ENil).
Proof.
  intros Hn. unfold Sprintf_d, ParseUint. destruct (format_dec_head (N.to_nat (N.size n)) n)
    as (d & s & Hd & E). rewrite E, <-E.
  rewrite <-(app_nil_r (format_dec _ _)), ParseUint_loop_format; [done| |lia].
  rewrite Nat2N.inj_succ, N2Nat.id. eapply N.lt_le_trans; [apply size_bound|].
  etrans; [apply (N.pow_le_mono_l 2 10); lia|]. apply N.pow_le_mono_r; lia.
Qed.

Lemma ParseInt_Sprintf n :
  n < 2 ^ 32 →
  ParseInt (Sprintf_d n) 32 =
    if n <? 2 ^ 31 then (Z.of_N n, ENil)
    else (Z.of_N (2 ^ 31 - 1), NumError #"ParseInt" (Sprintf_d n) ErrRange).
Proof.
  intros Hn.
  pose proof (ParseUint_Sprintf n Hn) as HP.
  revert HP. unfold Sprintf_d.
  destruct (format_dec_head (N.to_nat (N.size n)) n) as (d & s & Hd & ->).
  intros HP. unfold ParseInt. rewrite split_sign_digit, HP by done.
  cbn [is_nil negb andb]. change (2 ^ (32 - 1)) with (2 ^ 31).
  destruct (N.leb_spec (2 ^ 31) n) as [H|H].
  - by rewrite (proj2 (N.ltb_ge n (2 ^ 31))).
  - by rewrite (proj2 (N.ltb_lt n (2 ^ 31))).
Qed.

Lemma hex_value_high b : hex_value (hex_digit (Byte.to_N b / 16)) = Some (Byte.to_N b / 16).
Proof. by destruct b. Qed.
Lemma hex_value_low b : hex_value (hex_digit (Byte.to_N b mod 16)) = Some (Byte.to_N b mod 16).
Proof. by destruct b. Qed.

Lemma Decode_Encode b : DecodeString (EncodeToString b) = (b, ENil).
Proof.
  induction b as [|x b IH]; [done|]. cbn [EncodeToString DecodeString].
  rewrite hex_value_high, hex_value_low, IH. do 2 f_equal.
  rewrite N.mul_comm, <-N.div_mod by lia. apply byte_to_N_of_N.
Qed.

Lemma EncodeToString_inj a b : EncodeToString a = EncodeToString b → a = b.
Proof.
  intros H. apply (f_equal DecodeString) in H. rewrite !Decode_Encode in H. by simplify_eq.
Qed.

Lemma length_big_Bytes n k : (length (big_Bytes n) ≤ k)%nat ↔ n < 256 ^ N.of_nat k.
Proof.
  unfold big_Bytes. rewrite length_be_split.
  replace (256 ^ N.of_nat k) with (2 ^ (8 * N.of_nat k)) by (by rewrite N.pow_mul_r).
  rewrite size_le. split; intros H.
  - pose proof (N.div_mod (N.size n + 7) 8). pose proof (N.mod_upper_bound (N.size n + 7) 8). lia.
  - assert ((N.size n + 7) / 8 < N.of_nat k + 1); [|lia].
    apply N.Div0.div_lt_upper_bound. lia.
Qed.

Lemma be_value_big_Bytes n : be_value (big_Bytes n) = n.
Proof.
  unfold big_Bytes. rewrite be_value_split. apply N.mod_small.
  rewrite <-(length_be_split (N.to_nat _) n) at 1.
  by apply (length_big_Bytes n (length (big_Bytes n))).
Qed.

(** The representation is canonical: no leading zero byte. *)
Lemma big_Bytes_head n b : big_Bytes n ≠ x00 :: b.
Proof.
  intros E. pose proof (be_value_big_Bytes n) as V. rewrite E, be_value_cons in V.
  assert (n < 256 ^ N.of_nat (length b)) as H.
  { rewrite <-V. cbn [Byte.to_N]. pose proof (be_value_bound b). lia. }
  apply length_big_Bytes in H. rewrite E in H. cbn in H. lia.
Qed.

Lemma big_Bytes_exact k n :
  n < 256 ^ N.of_nat k → (k = 0%nat ∨ 256 ^ N.of_nat (k - 1) ≤ n) → big_Bytes n = be_split k n.
Proof.
  intros H Hl. apply length_big_Bytes in H as H'.
  apply be_value_inj.
  - rewrite length_be_split. destruct (decide (k ≤ length (big_Bytes n))%nat); [lia|].
    assert (length (big_Bytes n) ≤ k - 1)%nat as Hk by lia. apply length_big_Bytes in Hk. lia.
  - rewrite be_value_big_Bytes, be_value_split, N.mod_small; done.
Qed.

End StdFacts.
Import StdFacts.

(** ** Lemmas on keys *)

Lemma same_type_refl k : same_type k k = true.
Proof. by destruct k. Qed.

Lemma Equals_spec k o : Equals k o = bool_decide (o = Some k).
Proof.
  destruct k, o as [[]|]; cbn; try (by rewrite bool_decide_eq_false_2); try done.
  - apply eq_true_iff_eq. rewrite N.eqb_eq, bool_decide_eq_true. naive_solver.
  - by apply bool_decide_ext; naive_solver.
  - by apply bool_decide_ext; naive_solver.
Qed.

Lemma Bytes_inj k k' :
  same_type k k' = true → key_wf k → key_wf k' → Bytes k = Bytes k' → k = k'.
Proof.
  destruct k as [u| |], k' as [u'| |]; cbn; try done; intros _ W W' E; f_equal; try done.
  unfold Uint32Key_Bytes in E. apply (f_equal be_value) in E.
  rewrite !be_value_split in E. change (256 ^ N.of_nat 4) with (2 ^ 32) in E.
  rewrite !N.mod_small in E by done. done.
Qed.

Lemma Uint32_be_value u : u < 2 ^ 32 → be_value (Uint32Key_Bytes u) = u.
Proof.
  intros H. unfold Uint32Key_Bytes. rewrite be_value_split.
  change (256 ^ N.of_nat 4) with (2 ^ 32). by apply N.mod_small.
Qed.

Lemma FromBytes_Bytes k0 k :
  same_type k0 k = true → key_wf k → FromBytes k0 (Bytes k) = (Some k, ENil).
Proof.
  destruct k0, k; cbn; try done; intros _ W.
  - unfold Uint32Key_FromBytes. by rewrite Uint32_be_value.
  - unfold HashKey_FromBytes, HashKey_Bytes. by rewrite W.
Qed.

Lemma FromBytes_inv k i k' e :
  FromBytes k i = (Some k', e) →
  e = ENil ∧ same_type k k' = true ∧ key_wf k' ∧ Bytes k' = i.
Proof.
  destruct k; cbn; unfold Uint32Key_FromBytes, HashKey_FromBytes, BytesKey_FromBytes;
    try case_bool_decide as Hl; cbn; intros [= <- <-]; split_and!; try done.
  - cbn. pose proof (be_value_bound i). by rewrite Hl in H.
  - cbn. unfold Uint32Key_Bytes. rewrite <-Hl. apply be_split_value.
Qed.

Lemma FromBytes_fail k i e :
  FromBytes k i = (None, e) → e ≠ ENil ∧ is_database_error e = false.
Proof.
  destruct k; cbn; unfold Uint32Key_FromBytes, HashKey_FromBytes, BytesKey_FromBytes;
    try case_bool_decide; cbn; by intros [= <-].
Qed.

Lemma DecodeString_error i b e :
  DecodeString i = (b, e) → is_database_error e = false.
Proof.
  revert b e. induction i as [|p|p q i IH] using list_pair_ind; intros b e; cbn.
  - by intros [= <- <-].
  - destruct (hex_value p); by intros [= <- <-].
  - destruct (hex_value p), (hex_value q); try by intros [= <- <-].
    destruct (DecodeString i) as [d e'] eqn:E. intros [= <- <-]. by eapply IH.
Qed.

Lemma ParseUint_loop_error s a n e :
  a < 2 ^ 32 → ParseUint_loop (2 ^ 32 - 1) a s = (n, e) →
  (e = ENil ∧ n < 2 ^ 32) ∨ (e = ErrRange ∧ n = 2 ^ 32 - 1) ∨ (e = ErrSyntax ∧ n = 0).
Proof.
  revert a. induction s as [|c s IH]; intros a Ha; cbn [ParseUint_loop].
  - intros [= <- <-]. auto.
  - destruct (digit_value c) as [d|]; [|intros [= <- <-]; auto].
    destruct (N.ltb_spec (2 ^ 32 - 1) (a * 10 + d)); [intros [= <- <-]; auto|].
    apply IH. lia.
Qed.

Lemma ParseUint_error s n e :
  ParseUint s 32 = (n, e) →
  (e = ENil ∧ n < 2 ^ 32) ∨ (e = ErrRange ∧ n = 2 ^ 32 - 1) ∨ (e = ErrSyntax ∧ n = 0).
Proof.
  destruct s; [intros [= <- <-]; auto|]. by apply ParseUint_loop_error.
Qed.

Lemma ParseInt_range s z :
  ParseInt s 32 = (z, ENil) → (- 2 ^ 31 ≤ z < 2 ^ 31)%Z.
Proof.
  unfold ParseInt. destruct s as [|c s]; [done|].
  destruct (split_sign _) as [neg s']. destruct (ParseUint s' 32) as [un e] eqn:E.
  apply ParseUint_error in E as [[-> H]|[[-> ->]|[-> ->]]]; cbn [is_nil negb andb];
    change (2 ^ (32 - 1)) with 2147483648; try done.
  - destruct neg, (N.leb_spec 2147483648 un), (N.ltb_spec 2147483648 un); cbn [negb andb];
      intros [=]; lia.
  - by destruct neg.
Qed.

Lemma ParseInt_error s z e :
  ParseInt s 32 = (z, e) → is_database_error e = false.
Proof.
  unfold ParseInt. destruct s as [|c s]; [by intros [= <- <-]|].
  destruct (split_sign _) as [neg s']. destruct (ParseUint s' 32) as [un e'] eqn:E.
  apply ParseUint_error in E as [[-> H]|[[-> ->]|[-> ->]]]; cbn [is_nil negb andb];
    repeat case_match; by intros [= <- <-].
Qed.

Lemma FromString_inv k i k' e :
  FromString k i = (Some k', e) → e = ENil ∧ same_type k k' = true ∧ key_wf k'.
Proof.
  destruct k as [u|s|b]; cbn.
  - unfold Uint32Key_FromString. destruct (ParseInt i 32) as [z err] eqn:E.
    destruct (is_nil err) eqn:N; cbn; [|done]. apply is_nil_true in N as ->.
    destruct (z <? 0)%Z eqn:L; [done|]. intros [= <- <-]. split_and!; [done..|].
    cbn. pose proof (Z.mod_pos_bound z (2 ^ 32)). lia.
  - unfold HashKey_FromString. destruct (DecodeString i) as [d err].
    destruct (is_nil err); cbn; [|done]. intros H.
    apply (FromBytes_inv (HashKey s)) in H as (? & ? & ? & _). done.
  - unfold BytesKey_FromString. destruct (DecodeString i) as [d err].
    destruct (is_nil err); cbn; [|done]. intros H.
    apply (FromBytes_inv (BytesKey b)) in H as (? & ? & ? & _). done.
Qed.

Lemma FromString_fail k i e :
  FromString k i = (None, e) → e ≠ ENil ∧ is_database_error e = false.
Proof.
  assert (HE : ∀ err, is_database_error err = false →
    string_parse_error k err ≠ ENil ∧ is_database_error (string_parse_error k err) = false).
  { intros err H. split; [done|]. unfold is_database_error, string_parse_error.
    by rewrite errors_Is_Errorf. }
  destruct k as [u|s|b]; cbn.
  - unfold Uint32Key_FromString. destruct (ParseInt i 32) as [z err] eqn:E.
    apply ParseInt_error in E. repeat case_match; intros [= <-]; auto.
  - unfold HashKey_FromString. destruct (DecodeString i) as [d err] eqn:E.
    apply DecodeString_error in E. case_match; [intros [= <-]; auto|].
    apply (FromBytes_fail (HashKey s)).
  - unfold BytesKey_FromString. destruct (DecodeString i) as [d err] eqn:E.
    apply DecodeString_error in E. case_match; [intros [= <-]; auto|done].
Qed.

Lemma FromString_String_eq k0 k :
  same_type k0 k = true → key_wf k →
  FromString k0 (String k) =
    match k with
    | Uint32Key u =>
        if u <? 2 ^ 31 then (Some k, ENil)
        else (None, string_parse_error k0 (NumError #"ParseInt" (String k) ErrRange))
    | _ => (Some k, ENil)
    end.
Proof.
  destruct k0 as [u0|s0|b0], k as [u|s|b]; cbn [same_type key_wf FromString String]; try done; intros _ W.
  - unfold Uint32Key_FromString, Uint32Key_String. rewrite ParseInt_Sprintf by done.
    destruct (N.ltb_spec u (2 ^ 31)); cbn [is_nil negb]; [|done].
    rewrite (proj2 (Z.ltb_ge (Z.of_N u) 0)) by lia.
    rewrite Z.mod_small by lia. by rewrite N2Z.id.
  - unfold HashKey_FromString, HashKey_String. rewrite Decode_Encode.
    unfold HashKey_FromBytes. by rewrite W.
  - unfold BytesKey_FromString, BytesKey_String. by rewrite Decode_Encode.
Qed.

Lemma String_inj k k' :
  same_type k k' = true → key_wf k → key_wf k' → String k = String k' → k = k'.
Proof.
  destruct k as [u| |], k' as [u'| |]; cbn [same_type key_wf String]; try done; intros _ W W' E; f_equal;
    try by apply EncodeToString_inj.
  assert (HS : ∀ n, n < 2 ^ 32 → (ParseUint (Uint32Key_String n) 32).1 = n).
  { clear. intros n Hn. unfold Uint32Key_String. by rewrite ParseUint_Sprintf. }
  by rewrite <-(HS u W), <-(HS u' W'), E.
Qed.
(** ** Properties *)

(** the three representations identify a key: for two keys of one type, [Equals],
    equality of the values, equality of [Bytes] and equality of [String] coincide. *)
Theorem key_identity (k k' : Key)
    (Ht : same_type k k' = true) (W : key_wf k) (W' : key_wf k') :
  (Equals k (Some k') = true ↔ k = k') ∧
  (Bytes k = Bytes k' ↔ k = k') ∧
  (String k = String k' ↔ k = k').
Proof.
  rewrite Equals_spec, bool_decide_eq_true. split_and!.
  - naive_solver.
  - split; [by apply Bytes_inj|by intros ->].
  - split; [by apply String_inj|by intros ->].
Qed.

Lemma key_identity_witness :
  (same_type (Uint32Key 7) (Uint32Key 8) = true ∧ key_wf (Uint32Key 7)) ∧
  (Bytes (Uint32Key 7) = Bytes (Uint32Key 8) ↔ Uint32Key 7 = Uint32Key 8).
Proof.
  split; [split; reflexivity|].
  apply (key_identity (Uint32Key 7) (Uint32Key 8)); reflexivity.
Defined.

(** [FromBytes] parses exactly the images of [Bytes]: it succeeds, without error and
    with a well-formed key of the receiver's type whose bytes are the input, or it fails
    with a nil key and an error that is no database error, and then no key of the type
    has those bytes. *)
Theorem FromBytes_exact (k : Key) (i : bytes) :
  match FromBytes k i with
  | (Some k', e) => e = ENil ∧ same_type k k' = true ∧ key_wf k' ∧ Bytes k' = i
  | (None, e) => e ≠ ENil ∧ is_database_error e = false ∧
      ∀ k', same_type k k' = true → key_wf k' → Bytes k' ≠ i
  end.
Proof.
  destruct (FromBytes k i) as [[k'|] e] eqn:E.
  - by apply FromBytes_inv.
  - destruct (FromBytes_fail k i e E). split_and!; [done|done|].
    intros k' Ht W <-. rewrite FromBytes_Bytes in E by done. done.
Qed.

(** C38: the textual round trip. [FromString] inverts [String] on every hash key and every
    byte key, and on the 32-bit keys below 2^31 only: the larger half is refused with a
    range error, because the text is parsed as a signed 32-bit integer. *)
Theorem FromString_String (k0 k : Key) (Ht : same_type k0 k = true) (W : key_wf k) :
  FromString k0 (String k) =
    match k with
    | Uint32Key u =>
        if u <? 2 ^ 31 then (Some k, ENil)
        else (None, string_parse_error k0 (NumError #"ParseInt" (String k) ErrRange))
    | _ => (Some k, ENil)
    end.
Proof. by apply FromString_String_eq. Qed.

Lemma FromString_String_witness :
  (same_type (Uint32Key 0) (Uint32Key 4294967295) = true ∧ key_wf (Uint32Key 4294967295)) ∧
  (FromString (Uint32Key 0) (String (Uint32Key 4294967295))).1 = None.
Proof.
  split; [split; reflexivity|].
  rewrite (FromString_String (Uint32Key 0) (Uint32Key 4294967295)); reflexivity.
Defined.

(** Whatever the text, [FromString] yields either a well-formed key of the receiver's
    type and no error, or a nil key and an error; the error is never a database error
    (it is "the result of invalid input", redis.go). *)
Theorem FromString_type (k : Key) (i : bytes) :
  match FromString k i with
  | (Some k', e) => e = ENil ∧ same_type k k' = true ∧ key_wf k'
  | (None, e) => e ≠ ENil ∧ is_database_error e = false
  end.
Proof.
  destruct (FromString k i) as [[k'|] e] eqn:E;
    [by apply FromString_inv in E|by apply FromString_fail in E].
Qed.

Lemma Uint32_Compare u v :
  u < 2 ^ 32 → v < 2 ^ 32 → bytes_Compare (Uint32Key_Bytes u) (Uint32Key_Bytes v) = (u ?= v).
Proof.
  intros Hu Hv. rewrite bytes_Compare_value.
  - by rewrite !Uint32_be_value.
  - unfold Uint32Key_Bytes. by rewrite !length_be_split.
Qed.

(** on 32-bit keys the byte order is the numeric order, and [Next] is the immediate
    successor in it (no key of the type lies between), up to the wrap-around at 2^32 - 1:
    what makes [Next] usable to recognise gaps in a byte-ordered enumeration. *)
Theorem Uint32Key_Next_successor (u v : N) (Hu : u < 2 ^ 32) (Hv : v < 2 ^ 32) :
  bytes_Compare (Uint32Key_Bytes u) (Uint32Key_Bytes v) = (u ?= v) ∧
  (u = 2 ^ 32 - 1 → Uint32Key_Next u = Uint32Key 0) ∧
  (u ≠ 2 ^ 32 - 1 →
     key_wf (Uint32Key_Next u) ∧
     bytes_lt (Uint32Key_Bytes u) (Bytes (Uint32Key_Next u)) ∧
     (bytes_lt (Uint32Key_Bytes u) (Uint32Key_Bytes v) →
      bytes_le (Bytes (Uint32Key_Next u)) (Uint32Key_Bytes v))).
Proof.
  split; [by apply Uint32_Compare|]. unfold Uint32Key_Next. split; [by intros ->|].
  intros Hne. rewrite N.mod_small by lia. cbn [Bytes key_wf].
  unfold bytes_lt, bytes_le. rewrite !Uint32_Compare by lia.
  rewrite !N.compare_lt_iff, N.compare_le_iff. lia.
Qed.

Lemma Uint32Key_Next_successor_witness :
  (255 < 2 ^ 32 ∧ 256 < 2 ^ 32) ∧
  bytes_Compare (Uint32Key_Bytes 255) (Uint32Key_Bytes 256) = Lt.
Proof.
  split; [split; reflexivity|].
  rewrite (proj1 (Uint32Key_Next_successor 255 256 eq_refl eq_refl)). reflexivity.
Defined.

(** C39: [HashKey.Next] is the 256-bit successor only when no leading byte has to be zero:
    it panics when the successor starts with a zero byte, and from the largest hash it
    goes to 01 00 .. 00 rather than to zero. *)
Theorem HashKey_Next_cases (s : bytes) (W : key_wf (HashKey s)) :
  HashKey_Next s =
    if be_value s + 1 <? 256 ^ 31 then None
    else if be_value s + 1 <? 256 ^ 32 then Some (HashKey (be_split 32 (be_value s + 1)))
    else Some (HashKey (x01 :: replicate 31 x00)).
Proof.
  cbn in W. pose proof (be_value_bound s) as Hb. rewrite W in Hb.
  change (256 ^ N.of_nat 32) with (256 ^ 32) in Hb. unfold HashKey_Next.
  set (n := be_value s + 1) in *.
  pose proof (length_big_Bytes n 31) as L31. change (256 ^ N.of_nat 31) with (256 ^ 31) in L31.
  destruct (N.ltb_spec n (256 ^ 31)) as [H1|H1].
  { by rewrite (proj2 (Nat.ltb_lt _ 32)) by (apply L31 in H1; lia). }
  rewrite (proj2 (Nat.ltb_ge _ 32)) by (destruct (decide (length (big_Bytes n) ≤ 31)%nat) as [L|];
    [apply L31 in L; lia|lia]).
  destruct (N.ltb_spec n (256 ^ 32)) as [H2|H2].
  - rewrite (big_Bytes_exact 32 n) by (try right; done).
    by rewrite take_ge by (rewrite length_be_split; lia).
  - assert (n = 256 ^ 32) as -> by (unfold n in *; lia). by vm_compute.
Qed.

Lemma HashKey_Next_cases_witness :
  key_wf (HashKey (replicate 32 x00)) ∧ HashKey_Next (replicate 32 x00) = None.
Proof.
  split; [reflexivity|].
  rewrite (HashKey_Next_cases (replicate 32 x00) eq_refl). reflexivity.
Defined.

(** C37: keys are well-typed. Whatever the input, parsing a text or bytes yields either a
    well-formed key of the receiver's type and no error, or a nil key and an error that is no
    database error; and [Next] of a well-formed key, when it does not panic, is a well-formed
    key of the same type. *)
Theorem keys_well_typed (k : Key) (W : key_wf k) :
  (∀ i, match FromString k i with
        | (Some k', e) => e = ENil ∧ same_type k k' = true ∧ key_wf k'
        | (None, e) => e ≠ ENil ∧ is_database_error e = false
        end) ∧
  (∀ i, match FromBytes k i with
        | (Some k', e) => e = ENil ∧ same_type k k' = true ∧ key_wf k' ∧ Bytes k' = i
        | (None, e) => e ≠ ENil ∧ is_database_error e = false
        end) ∧
  (∀ n, Next k = Some n → same_type k n = true ∧ key_wf n).
Proof.
  split_and!.
  - apply FromString_type.
  - intros i. destruct (FromBytes k i) as [[k'|] e] eqn:E;
      [by apply FromBytes_inv|by apply FromBytes_fail in E].
  - intros n. destruct k as [u|s|b]; cbn.
    + intros [= <-]. split; [done|]. apply N.mod_upper_bound. lia.
    + unfold HashKey_Next. destruct (Nat.ltb_spec (length (big_Bytes (be_value s + 1))) 32); [done|].
      intros [= <-]. split; [done|]. cbn. rewrite length_take. lia.
    + by intros [= <-].
Qed.

Lemma keys_well_typed_witness :
  key_wf (Uint32Key 4294967295) ∧ Next (Uint32Key 4294967295) = Some (Uint32Key 0) ∧
  key_wf (Uint32Key 0).
Proof.
  split; [reflexivity|]. split; [reflexivity|].
  exact (proj2 (proj2 (proj2 (keys_well_typed (Uint32Key 4294967295) eq_refl)) (Uint32Key 0) eq_refl)).
Defined.

Lemma BytesKey_Next_value b : be_value (Bytes (BytesKey_Next b)) = be_value b + 1.
Proof. apply be_value_big_Bytes. Qed.

Lemma BytesKey_Next_head b : head (Bytes (BytesKey_Next b)) ≠ Some x00.
Proof.
  cbn. unfold BytesKey_Bytes. destruct (big_Bytes _) as [|x r] eqn:E; [done|].
  intros [= ->]. by apply big_Bytes_head in E.
Qed.

(** Without carry out of the first byte the successor has the same length. *)
Lemma BytesKey_Next_no_carry x r :
  x ≠ x00 → be_value (x :: r) + 1 < 256 ^ N.of_nat (length (x :: r)) →
  Bytes (BytesKey_Next (x :: r)) = be_split (length (x :: r)) (be_value (x :: r) + 1).
Proof.
  intros Hx Hlt. apply big_Bytes_exact; [done|]. right.
  rewrite be_value_cons. cbn [length]. rewrite Nat.sub_succ, Nat.sub_0_r.
  assert (Byte.to_N x ≠ 0) by (by destruct x). nia.
Qed.

(** The largest byte string of a length starts with 255. *)
Lemma all_ones_head x r :
  be_value (x :: r) + 1 = 256 ^ N.of_nat (length (x :: r)) → Byte.to_N x = 255.
Proof.
  rewrite be_value_cons. cbn [length]. rewrite Nat2N.inj_succ, N.pow_succ_r'.
  pose proof (be_value_bound r). pose proof (byte_bound x). nia.
Qed.

Lemma BytesKey_Next_carry x r :
  be_value (x :: r) + 1 = 256 ^ N.of_nat (length (x :: r)) →
  Bytes (BytesKey_Next (x :: r)) = x01 :: replicate (length (x :: r)) x00.
Proof.
  intros E. cbn [BytesKey_Next Bytes]. unfold BytesKey_Bytes. rewrite E.
  set (m := length (x :: r)).
  assert (V : be_value (x01 :: replicate m x00) = 256 ^ N.of_nat m).
  { rewrite be_value_cons, length_replicate.
    assert (Z : be_value (replicate m x00) = 0).
    { clear. induction m as [|m IH]; [done|]. cbn [replicate]. by rewrite be_value_cons, IH. }
    rewrite Z. cbn [Byte.to_N]. lia. }
  rewrite (big_Bytes_exact (S m)).
  - rewrite <-V. replace (S m) with (length (x01 :: replicate m x00)) at 1
      by (cbn [length]; by rewrite length_replicate).
    apply be_split_value.
  - rewrite Nat2N.inj_succ, N.pow_succ_r'. pose proof (N.pow_nonzero 256 (N.of_nat m)). lia.
  - right. by rewrite Nat.sub_succ, Nat.sub_0_r.
Qed.

(** C40: [BytesKey.Next] adds one to the big-endian number the bytes denote and drops
    leading zeros. The result is larger in the byte order exactly when the bytes are not all
    255 (or there are none). When moreover the first byte is not zero, the result has the length
    of the key, and no key of that length lies between the two: among the keys of one length it
    is the next one. Keys of other lengths may lie between ([01 00] between [01] and [02]), and
    across a carry out of the first byte [Next] goes backwards. *)
Theorem BytesKey_Next_order (b : bytes) :
  let b' := Bytes (BytesKey_Next b) in
  be_value b' = be_value b + 1 ∧ head b' ≠ Some x00 ∧
  (bytes_lt b b' ↔ b = [] ∨ be_value b + 1 ≠ 256 ^ N.of_nat (length b)) ∧
  (head b ≠ Some x00 → b ≠ [] → be_value b + 1 ≠ 256 ^ N.of_nat (length b) →
   length b' = length b ∧ ∀ c, length c = length b → bytes_lt b c → bytes_le b' c).
Proof.
  intros b'. split_and!; [apply BytesKey_Next_value|apply BytesKey_Next_head| |].
  - destruct b as [|x r]; [split; [by left|done]|].
    pose proof (be_value_bound (x :: r)) as Hb.
    destruct (decide (be_value (x :: r) + 1 = 256 ^ N.of_nat (length (x :: r)))) as [E|E].
    + unfold b', bytes_lt. rewrite BytesKey_Next_carry by done. apply all_ones_head in E as Hx.
      cbn [bytes_Compare]. rewrite Hx. cbn. split; [done|]. by intros [?|?].
    + split; [by right|]. intros _. destruct (decide (x = x00)) as [->|Hx].
      * pose proof (BytesKey_Next_head (x00 :: r)) as Hh.
        pose proof (BytesKey_Next_value (x00 :: r)) as Hv. fold b' in Hh, Hv.
        destruct b' as [|y s]; [change (be_value []) with 0 in Hv; lia|]. unfold bytes_lt. cbn [bytes_Compare].
        assert (Byte.to_N y ≠ 0) as Hy by (destruct y; try done).
        by rewrite (proj2 (N.compare_lt_iff (Byte.to_N x00) (Byte.to_N y)))
          by (cbn [Byte.to_N]; lia).
      * unfold b', bytes_lt. rewrite bytes_Compare_value.
        -- rewrite BytesKey_Next_value. apply N.compare_lt_iff. lia.
        -- rewrite BytesKey_Next_no_carry by (done || lia). by rewrite length_be_split.
  - destruct b as [|x r]; [done|]. intros Hx _ E.
    pose proof (be_value_bound (x :: r)) as Hb.
    enough (HL : length b' = length (x :: r)).
    { split; [done|]. intros c Hc. unfold bytes_lt, bytes_le.
      rewrite !bytes_Compare_value, N.compare_lt_iff, N.compare_le_iff by congruence.
      unfold b'. rewrite BytesKey_Next_value. lia. }
    unfold b'. rewrite BytesKey_Next_no_carry; [apply length_be_split|by intros ->|].
    cbn [length] in *. lia.
Qed.
