(* ===== verification/Go.v ===== *)
(** The effects of the program's Go code: a state-passing monad whose computations
    return, panic or hang, the outside world (clock and application state), and
    [context.Context]. *)
From S2P Require Import Prelude Errors.

(** How an invocation ends: with a value; with a panic; [Blocked] on a lock or channel
    for ever; or [NoFuel], the artefact of a loop cut off by the model's fuel. *)
Inductive outcome (A : Type) : Type :=
  | Return (a : A)
  | Panic
  | Blocked
  | NoFuel.
Arguments Return {A} a.
Arguments Panic {A}.
Arguments Blocked {A}.
Arguments NoFuel {A}.

(** What lies outside the library: the clock, in nanoseconds, and the state of the
    application (everything its callbacks, options and other goroutines act on). *)
Record World (W : Type) := mkWorld { now : Z; app : W }.
Arguments mkWorld {W} now app.
Arguments now {W} w.
Arguments app {W} w.

(** The state a computation of a backend runs in. *)
Record St (B W : Type) := mkSt { back : B; world : World W }.
Arguments mkSt {B W} back world.
Arguments back {B W} s.
Arguments world {B W} s.

(** The state-passing monad over the backend's state [B] and application state [W]. *)
Definition M (B W A : Type) : Type := St B W → outcome A * St B W.

#[global] Instance M_ret {B W} : MRet (M B W) := λ A a s, (Return a, s).
#[global] Instance M_bind {B W} : MBind (M B W) := λ A A' f m s,
  match m s with
  | (Return a, s') => f a s'
  | (Panic, s') => (Panic, s')
  | (Blocked, s') => (Blocked, s')
  | (NoFuel, s') => (NoFuel, s')
  end.

Section ops.
Context {B W : Type}.

Definition panic {A} : M B W A := λ s, (Panic, s).
Definition block {A} : M B W A := λ s, (Blocked, s).
Definition out_of_fuel {A} : M B W A := λ s, (NoFuel, s).
Definition get_back : M B W B := λ s, (Return (back s), s).
Definition put_back (b : B) : M B W () := λ s, (Return (), mkSt b (world s)).
Definition get_world : M B W (World W) := λ s, (Return (world s), s).
Definition put_world (w : World W) : M B W () := λ s, (Return (), mkSt (back s) w).

(** A call into the backend's library: a function of the library's state. *)
Definition lib {A} (f : B → A * B) : M B W A := λ s,
  let '(a, b) := f (back s) in (Return a, mkSt b (world s)).

(** A panicking expression as a computation. *)
Definition must {A} (o : option A) : M B W A :=
  match o with Some a => mret a | None => panic end.

(** [defer cleanup]: run when [m] returns or panics. *)
Definition defer {A} (cleanup : M B W ()) (m : M B W A) : M B W A := λ s,
  match m s with
  | (Return a, s') => (_ ← cleanup; mret a) s'
  | (Panic, s') => (_ ← cleanup; panic) s'
  | r => r
  end.
End ops.

(** ** Laws of the monad *)
Section laws.
Context {B W : Type}.
Implicit Types s : St B W.

Lemma bind_ret {A A'} (a : A) (f : A → M B W A') s : (mret a ≫= f) s = f a s.
Proof. done. Qed.

Lemma bind_Return {A A'} (m : M B W A) (f : A → M B W A') s a s' :
  m s = (Return a, s') → (m ≫= f) s = f a s'.
Proof. intros E. unfold mbind, M_bind. by rewrite E. Qed.

Lemma bind_ext {A A'} (m : M B W A) (f g : A → M B W A') s :
  (∀ a s', f a s' = g a s') → (m ≫= f) s = (m ≫= g) s.
Proof. intros E. unfold mbind, M_bind. by destruct (m s) as [[] ?]. Qed.

(** Two continuations agree if they do on the results that occur. *)
Lemma bind_ext_at {A A'} (m : M B W A) (f g : A → M B W A') s :
  (∀ a s', m s = (Return a, s') → f a s' = g a s') → (m ≫= f) s = (m ≫= g) s.
Proof. intros E. unfold mbind, M_bind. destruct (m s) as [[] ?]; auto. Qed.

Lemma bind_assoc {A A' A''} (m : M B W A) (f : A → M B W A') (g : A' → M B W A'') s :
  ((m ≫= f) ≫= g) s = (m ≫= (λ a, f a ≫= g)) s.
Proof. unfold mbind, M_bind. by destruct (m s) as [[] ?]. Qed.

Lemma bind_inv {A A'} (m : M B W A) (f : A → M B W A') s b s' :
  (m ≫= f) s = (Return b, s') → ∃ a s1, m s = (Return a, s1) ∧ f a s1 = (Return b, s').
Proof.
  unfold mbind, M_bind. destruct (m s) as [[a| | |] s1]; try done. eauto.
Qed.
End laws.

(** ** Frame conditions: relations every run of a computation respects *)
Section keeps.
Context {B W : Type} (R : relation (St B W)) `{!PreOrder R}.

(** However [m] ends, the final state is related to the initial one. *)
Definition keeps {A} (m : M B W A) : Prop := ∀ s, R s (m s).2.

Lemma keeps_ret {A} (a : A) : keeps (mret a).
Proof. intros s. cbn. done. Qed.

Lemma keeps_bind {A A'} (m : M B W A) (f : A → M B W A') :
  keeps m → (∀ a, keeps (f a)) → keeps (m ≫= f).
Proof.
  intros Hm Hf s. specialize (Hm s). unfold mbind, M_bind.
  destruct (m s) as [[a| | |] s']; cbn in *; try done. etrans; [done|apply Hf].
Qed.

Lemma keeps_get_back : keeps get_back.
Proof. intros s. cbn. done. Qed.
Lemma keeps_get_world : keeps get_world.
Proof. intros s. cbn. done. Qed.
Lemma keeps_panic {A} : keeps (@panic B W A).
Proof. intros s. cbn. done. Qed.
Lemma keeps_block {A} : keeps (@block B W A).
Proof. intros s. cbn. done. Qed.
Lemma keeps_out_of_fuel {A} : keeps (@out_of_fuel B W A).
Proof. intros s. cbn. done. Qed.
Lemma keeps_must {A} (o : option A) : keeps (must o).
Proof. destruct o; [apply keeps_ret|apply keeps_panic]. Qed.

Lemma keeps_defer {A} (c : M B W ()) (m : M B W A) :
  keeps c → keeps m → keeps (defer c m).
Proof.
  intros Hc Hm s. specialize (Hm s). unfold defer.
  destruct (m s) as [[a| | |] s']; cbn in *; try done;
    (etrans; [exact Hm|]; apply keeps_bind; [done|intros; first [apply keeps_ret|apply keeps_panic]]).
Qed.
End keeps.
Create HintDb keeps.
#[export] Hint Resolve keeps_ret keeps_bind keeps_get_back keeps_get_world keeps_panic
  keeps_block keeps_out_of_fuel keeps_must keeps_defer : keeps.

(** ** Contexts *)

Section context.
Context {W : Type}.

(** [context.Context]: [Deadline] ([None]: no deadline) and [Err], whose value depends
    on the clock and on what the application has cancelled. [Done] is closed exactly
    when [Err] is not nil. *)
Record Context := mkContext { Deadline : option Z; Err : World W → error }.

Definition Background : Context := mkContext None (λ _, ENil).

(** [context.WithTimeout(parent, d)] created at time [t]. *)
Definition WithTimeout (parent : Context) (t d : Z) : Context :=
  let deadline := match Deadline parent with
                  | Some p => Z.min p (t + d)
                  | None => (t + d)%Z
                  end in
  mkContext (Some deadline)
    (λ w, if is_nil (Err parent w)
          then if (deadline <=? now w)%Z then DeadlineExceeded else ENil
          else Err parent w).

(** The environment between two observations of a context: time passes, and other
    goroutines act on the application state. *)
Class Env := tick : World W → World W.

(** A context that is over stays over. (Which of two causes a derived context reports,
    when both apply, is not fixed: [WithTimeout] above prefers its parent's.) *)
Definition sticky `{Env} (ctx : Context) : Prop :=
  ∀ w, Err ctx w ≠ ENil → Err ctx (tick w) ≠ ENil.

(** The clock does not run backwards. *)
Definition clock_forward `{Env} : Prop := ∀ w, (now w ≤ now (tick w))%Z.

Lemma WithTimeout_sticky `{Env} ctx t d :
  clock_forward → sticky ctx → sticky (WithTimeout ctx t d).
Proof.
  intros Hc Hs w. cbn. specialize (Hc w). specialize (Hs w).
  destruct (is_nil (Err ctx w)) eqn:E, (is_nil (Err ctx (tick w))) eqn:E2.
  - destruct (Z.leb_spec (match Deadline ctx with Some p => p `min` (t + d) | None => t + d end)
      (now w)); [|done]. intros _. by rewrite (proj2 (Z.leb_le _ _)) by lia.
  - intros _. by apply is_nil_false.
  - apply is_nil_false in E. apply Hs in E. by apply is_nil_true in E2.
  - intros _. by apply is_nil_false.
Qed.

(** [ctx.Err()], after the environment has moved on. *)
Definition ctx_Err {B} `{Env} (ctx : Context) : M B W error := λ s,
  let w := tick (world s) in (Return (Err ctx w), mkSt (back s) w).

Lemma ctx_Err_run {B} `{Env} (ctx : Context) (s : St B W) :
  ctx_Err ctx s = (Return (Err ctx (tick (world s))), mkSt (back s) (tick (world s))).
Proof. done. Qed.
End context.
Arguments Context : clear implicits.
Arguments Env : clear implicits.
Arguments mkContext {W} _ _.
