(* ===== verification/Store.v ===== *)
(** store.go: the interfaces of the library as records of operations, transaction
    options, configuration, and the two readers/writers that need no database. *)
From S2P Require Import Prelude Errors Keys Go.

(** ** Configuration *)

Section config.
Context {Logger : Type}.

Record Config := mkConfig {
  Log : option Logger;
  NoSync : bool;
  LockAcquireTimeout : Z
}.

Definition Option : Type := Config → Config.

(** Durations are in nanoseconds. *)
Definition Second : Z := 1000000000.
Definition DefaultTransactionTimeout : Z := 30 * Second.
Definition defaultLockAcquisitionTimeout : Z := 3 * Second.

Definition DefaultConfig (StandardLogger : Logger) : Config :=
  mkConfig (Some StandardLogger) false defaultLockAcquisitionTimeout.

Definition WithLockAcquireTimeout (value : Z) : Option :=
  λ config, mkConfig (Log config) (NoSync config) value.
Definition WithNoSync : Option :=
  λ config, mkConfig (Log config) true (LockAcquireTimeout config).
Definition WithLogger (log : option Logger) : Option :=
  λ config, mkConfig log (NoSync config) (LockAcquireTimeout config).

(** The loop at the head of every constructor: [for _, opt := range opts { opt(&cfg) }]. *)
Definition apply_options (cfg : Config) (opts : list Option) : Config :=
  foldl (λ c opt, opt c) cfg opts.
End config.
Arguments Config : clear implicits.
Arguments Option : clear implicits.

Record ShelfStats := mkShelfStats { NumEntries : N; ShelfSize : N }.

(** ** Interfaces *)

Section interfaces.
Context {B W : Type}.
Abbreviation M := (M B W).

(** [CallerFn]: called for each pair of an iteration. *)
Definition CallerFn : Type := Key → bytes → M error.

(** [Reader] and [Writer]. A Go slice result that may be nil is an option. *)
Record Reader := mkReader {
  Empty : M (bool * error);
  Get : Key → M (option bytes * error);
  Iterate : CallerFn → Key → M error;
  Range : Key → Key → CallerFn → bool → M error;
  Stats : M ShelfStats
}.

Record Writer := mkWriter {
  as_reader :> Reader;
  Put : Key → bytes → M error;
  Delete : Key → M error
}.

(** [ReadTx] and [WriteTx], without the accessors [Store] and [Unwrap] that hand out
    the enclosing store and the library's own transaction object. *)
Record ReadTx := mkReadTx { GetShelfReader : bytes → M Reader }.
Record WriteTx := mkWriteTx {
  as_readtx :> ReadTx;
  GetShelfWriter : bytes → M Writer
}.

(** ** Transaction options *)

(** [TxOption] is [interface{}]: any other value is accepted and ignored. *)
Inductive TxOption : Type :=
  | WriteLockOption
  | AfterCommitOption (fn : M ())
  | OnRollbackOption (fn : M ())
  | OtherOption.

Definition WithWriteLock : TxOption := WriteLockOption.
Definition AfterCommit (fn : M ()) : TxOption := AfterCommitOption fn.
Definition OnRollback (fn : M ()) : TxOption := OnRollbackOption fn.

Fixpoint WriteLockOption_Enabled (opts : list TxOption) : bool :=
  match opts with
  | [] => false
  | WriteLockOption :: _ => true
  | _ :: opts' => WriteLockOption_Enabled opts'
  end.

Fixpoint AfterCommitOption_Invoke (opts : list TxOption) : M () :=
  match opts with
  | [] => mret ()
  | AfterCommitOption fn :: opts' => _ ← fn; AfterCommitOption_Invoke opts'
  | _ :: opts' => AfterCommitOption_Invoke opts'
  end.

Fixpoint OnRollbackOption_Invoke (opts : list TxOption) : M () :=
  match opts with
  | [] => mret ()
  | OnRollbackOption fn :: opts' => _ ← fn; OnRollbackOption_Invoke opts'
  | _ :: opts' => OnRollbackOption_Invoke opts'
  end.

(** The [KVStore] interface. *)
Record KVStore := mkKVStore {
  Close : Context W → M error;
  Write : Context W → (WriteTx → M error) → list TxOption → M error;
  Read : Context W → (ReadTx → M error) → M error;
  WriteShelf : Context W → bytes → (Writer → M error) → M error;
  ReadShelf : Context W → bytes → (Reader → M error) → M error
}.

(** ** [NilReader] and [errWriter] *)

Definition NilReader_Empty : M (bool * error) := mret (true, ENil).
Definition NilReader_Get (_ : Key) : M (option bytes * error) := mret (None, ErrKeyNotFound).
Definition NilReader_Iterate (_ : CallerFn) (_ : Key) : M error := mret ENil.
Definition NilReader_Range (_ to : Key) (_ : CallerFn) (_ : bool) : M error := mret ENil.
Definition NilReader_Stats : M ShelfStats := mret (mkShelfStats 0 0).
Definition NilReader : Reader :=
  mkReader NilReader_Empty NilReader_Get NilReader_Iterate NilReader_Range NilReader_Stats.

Definition errWriter_Empty (err : error) : M (bool * error) := mret (false, err).
Definition errWriter_Get (err : error) (_ : Key) : M (option bytes * error) := mret (None, err).
Definition errWriter_Iterate (err : error) (_ : CallerFn) (_ : Key) : M error := mret err.
Definition errWriter_Range (err : error) (_ _ : Key) (_ : CallerFn) (_ : bool) : M error :=
  mret err.
Definition errWriter_Stats (_ : error) : M ShelfStats := mret (mkShelfStats 0 0).
Definition errWriter_Put (err : error) (_ : Key) (_ : bytes) : M error := mret err.
Definition errWriter_Delete (err : error) (_ : Key) : M error := mret err.
Definition errWriter (err : error) : Writer :=
  mkWriter
    (mkReader (errWriter_Empty err) (errWriter_Get err) (errWriter_Iterate err)
       (errWriter_Range err) (errWriter_Stats err))
    (errWriter_Put err) (errWriter_Delete err).

Definition NewErrorWriter (err : error) : Writer := errWriter (DatabaseError err).
End interfaces.
Arguments CallerFn : clear implicits.
Arguments Reader : clear implicits.
Arguments Writer : clear implicits.
Arguments ReadTx : clear implicits.
Arguments WriteTx : clear implicits.
Arguments TxOption : clear implicits.
Arguments KVStore : clear implicits.

(** ** Properties *)

Section facts.
Context {B W : Type}.
Implicit Types (opts : list (TxOption B W)) (s : St B W).

(** The functions registered with [AfterCommit], and with [OnRollback], in order. *)
Definition after_commit_fns opts : list (M B W ()) :=
  omap (λ o, match o with AfterCommitOption fn => Some fn | _ => None end) opts.
Definition on_rollback_fns opts : list (M B W ()) :=
  omap (λ o, match o with OnRollbackOption fn => Some fn | _ => None end) opts.

(** Calls one function after the other. *)
Definition call_all (fns : list (M B W ())) : M B W () :=
  foldr (λ fn k, _ ← fn; k) (mret ()) fns.

Lemma call_all_app l1 l2 s : call_all (l1 ++ l2) s = (_ ← call_all l1; call_all l2) s.
Proof.
  revert s. induction l1 as [|f l1 IH]; intros s; [done|].
  change (call_all ((f :: l1) ++ l2)) with (f ≫= λ _, call_all (l1 ++ l2)).
  change (call_all (f :: l1)) with (f ≫= λ _, call_all l1).
  rewrite bind_assoc. by apply bind_ext.
Qed.

Lemma AfterCommit_Invoke_eq opts : AfterCommitOption_Invoke opts = call_all (after_commit_fns opts).
Proof. induction opts as [|[] opts IH]; cbn; rewrite ?IH; done. Qed.

Lemma OnRollback_Invoke_eq opts : OnRollbackOption_Invoke opts = call_all (on_rollback_fns opts).
Proof. induction opts as [|[] opts IH]; cbn; rewrite ?IH; done. Qed.

(** The option list: [WithWriteLock] is seen wherever it stands; the [AfterCommit]
    functions are called all, in the order given, and nothing else is, and the same for
    the [OnRollback] functions. *)
Theorem TxOptions_spec opts s :
  (WriteLockOption_Enabled opts = true ↔ In WriteLockOption opts) ∧
  AfterCommitOption_Invoke opts s = call_all (after_commit_fns opts) s ∧
  OnRollbackOption_Invoke opts s = call_all (on_rollback_fns opts) s.
Proof.
  split_and!; [|by rewrite AfterCommit_Invoke_eq|by rewrite OnRollback_Invoke_eq].
  induction opts as [|o opts IH]; [done|]. destruct o; cbn; rewrite ?IH;
    intuition (try discriminate; auto).
Qed.

(** The reader of a missing shelf is an empty shelf and the writer of a shelf that
    could not be opened fails on every operation with one database error; neither
    touches the store nor calls the callback. *)
Theorem NilReader_NewErrorWriter_spec (err : error) (k k' : Key) (v : bytes)
    (cb : CallerFn B W) (stopAtNil : bool) s :
  (Empty (@NilReader B W) s = (Return (true, ENil), s) ∧
   Get NilReader k s = (Return (None, ErrKeyNotFound), s) ∧
   Iterate NilReader cb k s = (Return ENil, s) ∧
   Range NilReader k k' cb stopAtNil s = (Return ENil, s)) ∧
  let w := @NewErrorWriter B W err in
  ∃ e, is_database_error e = true ∧ (err ≠ ENil → errors_Is e err = true) ∧
    Empty w s = (Return (false, e), s) ∧
    Get w k s = (Return (None, e), s) ∧
    Iterate w cb k s = (Return e, s) ∧
    Range w k k' cb stopAtNil s = (Return e, s) ∧
    Put w k v s = (Return e, s) ∧
    Delete w k s = (Return e, s).
Proof.
  split; [done|]. exists (DatabaseError err). split; [apply DatabaseError_database|].
  split; [|done]. intros He. unfold DatabaseError. case_match; [apply errors_Is_refl|].
  rewrite errors_Is_ErrDatabase by done. by rewrite errors_Is_refl, orb_true_r.
Qed.
End facts.
