(* ===== verification/Lock.v ===== *)
(** util/mutex.go: [ContextRWLocker], and [lockWithCancel] as an interleaving of the
    calling goroutine, the locking goroutine and the environment. *)
From S2P Require Import Prelude Errors Go.

(** ** [sync.RWMutex] *)

(** A writer may hold the lock, or a number of readers. *)
Record RWMutex := mkRWMutex { writer : bool; readers : nat }.

#[global] Instance RWMutex_eq_dec : EqDecision RWMutex.
Proof. solve_decision. Defined.

Definition unlocked : RWMutex := mkRWMutex false 0.

(** The acquiring operations give [None] while the caller has to wait; the releasing ones
    give [None] for the fatal error of unlocking what is not locked. *)
Definition mux_Lock (m : RWMutex) : option RWMutex :=
  if writer m then None else if (readers m =? 0)%nat then Some (mkRWMutex true 0) else None.
Definition mux_RLock (m : RWMutex) : option RWMutex :=
  if writer m then None else Some (mkRWMutex false (S (readers m))).
Definition mux_Unlock (m : RWMutex) : option RWMutex :=
  if writer m then Some (mkRWMutex false (readers m)) else None.
Definition mux_RUnlock (m : RWMutex) : option RWMutex :=
  match readers m with O => None | S n => Some (mkRWMutex (writer m) n) end.
Definition mux_TryLock (m : RWMutex) : bool * RWMutex :=
  match mux_Lock m with Some m' => (true, m') | None => (false, m) end.
Definition mux_TryRLock (m : RWMutex) : bool * RWMutex :=
  match mux_RLock m with Some m' => (true, m') | None => (false, m) end.

(** ** [lockWithCancel] *)

(** The two goroutines that share the mutex [m], the flag [expired] and the channel
    [locked]. *)
Inductive tid := TCaller | TLocker.

(** Where the calling goroutine is: in the [select]; past the receive from [ctx.Done()],
    about to call [m.Lock()]; inside the critical section; with the result computed and
    the deferred [m.Unlock()] pending; returned. *)
Inductive caller_pc :=
  | C_select
  | C_cancelled
  | C_critical
  | C_deferred (result : error)
  | C_return (result : error).

(** Where the locking goroutine is: in [fnLock()]; before [m.Lock()]; before the test of
    [expired]; before [fnUnlock()]; in the send [locked <- true]; before the deferred
    [m.Unlock()]; ended. *)
Inductive locker_pc :=
  | L_lock
  | L_mutex
  | L_check
  | L_unlock
  | L_send
  | L_deferred
  | L_done.

#[global] Instance tid_eq_dec : EqDecision tid.
Proof. solve_decision. Defined.
#[global] Instance caller_pc_eq_dec : EqDecision caller_pc.
Proof. solve_decision. Defined.
#[global] Instance locker_pc_eq_dec : EqDecision locker_pc.
Proof. solve_decision. Defined.

Section machine.
Context {W : Type} `{!Env W}.

Record lock_state := mkLS {
  mux : RWMutex;            (** the lock being acquired *)
  others : RWMutex;         (** the part of it that other goroutines hold (ghost) *)
  m_owner : option tid;     (** the mutex [m] *)
  expired : bool;           (** [expired.Load() != nil] *)
  caller : caller_pc;
  locker : locker_pc;
  clock : World W           (** what [ctx] observes *)
}.

Definition set_caller (c : caller_pc) (s : lock_state) : lock_state :=
  mkLS (mux s) (others s) (m_owner s) (expired s) c (locker s) (clock s).
Definition set_locker (l : locker_pc) (s : lock_state) : lock_state :=
  mkLS (mux s) (others s) (m_owner s) (expired s) (caller s) l (clock s).
Definition set_owner (o : option tid) (s : lock_state) : lock_state :=
  mkLS (mux s) (others s) o (expired s) (caller s) (locker s) (clock s).
Definition set_mux (m : RWMutex) (s : lock_state) : lock_state :=
  mkLS m (others s) (m_owner s) (expired s) (caller s) (locker s) (clock s).
Definition set_expired (s : lock_state) : lock_state :=
  mkLS (mux s) (others s) (m_owner s) true (caller s) (locker s) (clock s).
Definition set_clock (w : World W) (s : lock_state) : lock_state :=
  mkLS (mux s) (others s) (m_owner s) (expired s) (caller s) (locker s) w.

(** Who moves: the environment (time passes; another goroutine acquires or releases the
    lock), the caller, the locking goroutine, or both at once on the channel. *)
Inductive choice :=
  | E_tick | E_Lock | E_RLock | E_Unlock | E_RUnlock
  | Ch_caller | Ch_locker | Ch_rendezvous.

Context (ctx : Context W) (fnLock fnUnlock : RWMutex → option RWMutex).

(** The next action of the calling goroutine on its own. *)
Definition caller_step (s : lock_state) : option lock_state :=
  match caller s with
  | C_select =>
      (* case <-ctx.Done() *)
      if is_nil (Err ctx (clock s)) then None else Some (set_caller C_cancelled s)
  | C_cancelled =>
      (* m.Lock() *)
      match m_owner s with
      | None => Some (set_caller C_critical (set_owner (Some TCaller) s))
      | Some _ => None
      end
  | C_critical =>
      (* expired.Store(true); return stoabs.DatabaseError(ctx.Err()) *)
      Some (set_caller (C_deferred (DatabaseError (Err ctx (clock s)))) (set_expired s))
  | C_deferred e =>
      (* defer m.Unlock() *)
      Some (set_caller (C_return e) (set_owner None s))
  | C_return _ => None
  end.

(** The next action of the locking goroutine on its own. *)
Definition locker_step (s : lock_state) : option lock_state :=
  match locker s with
  | L_lock =>
      match fnLock (mux s) with
      | Some m => Some (set_locker L_mutex (set_mux m s))
      | None => None
      end
  | L_mutex =>
      match m_owner s with
      | None => Some (set_locker L_check (set_owner (Some TLocker) s))
      | Some _ => None
      end
  | L_check => Some (set_locker (if expired s then L_unlock else L_send) s)
  | L_unlock =>
      match fnUnlock (mux s) with
      | Some m => Some (set_locker L_deferred (set_mux m s))
      | None => None
      end
  | L_send => None
  | L_deferred => Some (set_locker L_done (set_owner None s))
  | L_done => None
  end.

(** [locked <- true] meets [case <-locked]: the channel has no buffer. *)
Definition rendezvous (s : lock_state) : option lock_state :=
  match caller s, locker s with
  | C_select, L_send => Some (set_locker L_deferred (set_caller (C_return ENil) s))
  | _, _ => None
  end.

(** Another goroutine changes its own holding of the lock by [f]. *)
Definition env_step (f : RWMutex → option RWMutex) (s : lock_state) : option lock_state :=
  match f (mux s), f (others s) with
  | Some m, Some o => Some (mkLS m o (m_owner s) (expired s) (caller s) (locker s) (clock s))
  | _, _ => None
  end.

Definition exec (c : choice) (s : lock_state) : option lock_state :=
  match c with
  | E_tick => Some (set_clock (tick (clock s)) s)
  | E_Lock => env_step mux_Lock s
  | E_RLock => env_step mux_RLock s
  | E_Unlock => env_step mux_Unlock s
  | E_RUnlock => env_step mux_RUnlock s
  | Ch_caller => caller_step s
  | Ch_locker => locker_step s
  | Ch_rendezvous => rendezvous s
  end.

Definition init_state (m : RWMutex) (w : World W) : lock_state :=
  mkLS m m None false C_select L_lock w.

(** Executing a schedule; a choice that is not enabled is passed over. *)
Definition run_schedule (sched : list choice) (s : lock_state) : lock_state :=
  foldl (λ s c, default s (exec c s)) s sched.
End machine.
Arguments lock_state : clear implicits.

(** How the scheduler and the other goroutines behave while a lock is awaited. *)
Class Scheduler (W : Type) := lock_schedule : World W → list choice.

(** A backend whose state has a [ContextRWLocker]. *)
Class HasMux (B : Type) := {
  get_mux : B → RWMutex;
  put_mux : RWMutex → B → B;
  get_put_mux : ∀ m b, get_mux (put_mux m b) = m;
  put_get_mux : ∀ b, put_mux (get_mux b) b = b;
  put_put_mux : ∀ m m' b, put_mux m (put_mux m' b) = put_mux m b
}.

Section locker.
Context {B W : Type} `{!Env W, !Scheduler W, !HasMux B}.

(** What is left of the locking goroutine after the caller has given up. *)
Definition settle : list choice := [Ch_locker; Ch_locker; Ch_locker; Ch_locker].

(** [lockWithCancel] as seen by its caller, along the schedule of [lock_schedule]. When
    the caller gives up, the locking goroutine, if it has the lock already, is run to its
    end before the caller's next operation. A caller that the schedule does not
    let return hangs. *)
Definition lockWithCancel (ctx : Context W)
    (fnLock fnUnlock : RWMutex → option RWMutex) : M B W error := λ s,
  let st := run_schedule ctx fnLock fnUnlock (lock_schedule (world s))
              (init_state (get_mux (back s)) (world s)) in
  let result e st := (Return e, mkSt (put_mux (mux st) (back s)) (clock st)) in
  match caller st with
  | C_return ENil => result ENil st
  | C_return e =>
      result e (if bool_decide (locker st = L_lock) then st
                else run_schedule ctx fnLock fnUnlock settle st)
  | _ => (Blocked, mkSt (put_mux (mux st) (back s)) (clock st))
  end.

(** The methods of [ContextRWLocker]. *)
Definition LockContext (ctx : Context W) : M B W error :=
  lockWithCancel ctx mux_Lock mux_Unlock.
Definition RLockContext (ctx : Context W) : M B W error :=
  lockWithCancel ctx mux_RLock mux_RUnlock.

Definition on_mux (f : RWMutex → option RWMutex) (fail : M B W ()) : M B W () := λ s,
  match f (get_mux (back s)) with
  | Some m => (Return (), mkSt (put_mux m (back s)) (world s))
  | None => fail s
  end.
Definition try_mux (f : RWMutex → bool * RWMutex) : M B W bool := λ s,
  let '(ok, m) := f (get_mux (back s)) in (Return ok, mkSt (put_mux m (back s)) (world s)).

Definition Lock : M B W () := on_mux mux_Lock block.
Definition RLock : M B W () := on_mux mux_RLock block.
Definition TryLock : M B W bool := try_mux mux_TryLock.
Definition TryRLock : M B W bool := try_mux mux_TryRLock.
Definition Unlock : M B W () := on_mux mux_Unlock panic.
Definition RUnlock : M B W () := on_mux mux_RUnlock panic.

(** [sync.Locker], and [RLocker]: a locker that takes and gives back a read lock. *)
Record Locker := mkLocker { Locker_Lock : M B W (); Locker_Unlock : M B W () }.
Definition RLocker : Locker := mkLocker RLock RUnlock.

(** The interface [RWLocker], and the locker as one. *)
Record RWLocker := mkRWLocker {
  RW_Locker : Locker;
  RW_RLock : M B W ();
  RW_TryRLock : M B W bool;
  RW_RUnlock : M B W ();
  RW_TryLock : M B W bool;
  RW_RLocker : Locker
}.
Definition as_RWLocker : RWLocker :=
  mkRWLocker (mkLocker Lock Unlock) RLock TryRLock RUnlock TryLock RLocker.
End locker.

(** ** Invariant *)

(** What [lockWithCancel] needs of the pair of functions it is given: [hold o m] says that
    [m] is the lock when the others hold [o] of it and this call one hold more. *)
Class LockPair (fnLock fnUnlock : RWMutex → option RWMutex) (hold : RWMutex → RWMutex → Prop) := {
  lock_hold : ∀ o m, fnLock o = Some m → hold o m;
  hold_unlock : ∀ o m, hold o m → fnUnlock m = Some o;
  hold_env : ∀ f o m o' m', In f [mux_Lock; mux_RLock; mux_Unlock; mux_RUnlock] →
    hold o m → f m = Some m' → f o = Some o' → hold o' m';
  env_free : ∀ f o m o', In f [mux_Lock; mux_RLock; mux_Unlock; mux_RUnlock] →
    f o = Some m → f o = Some o' → m = o'
}.

Definition write_hold (o m : RWMutex) : Prop := o = unlocked ∧ m = mkRWMutex true 0.
Definition read_hold (o m : RWMutex) : Prop :=
  writer o = false ∧ m = mkRWMutex false (S (readers o)).

Ltac mux_cases :=
  unfold mux_Lock, mux_RLock, mux_Unlock, mux_RUnlock, write_hold, read_hold, unlocked in *;
  cbn in *; repeat (case_match; cbn in *); intuition (simplify_eq/=; try done).

#[export] Instance write_pair : LockPair mux_Lock mux_Unlock write_hold.
Proof.
  split.
  - intros [[] [|n]] m; mux_cases.
  - intros o m [-> ->]. done.
  - intros f o m o' m' Hf [-> ->]. cbn in Hf. destruct_or! Hf; subst; mux_cases.
  - intros; congruence.
Qed.

#[export] Instance read_pair : LockPair mux_RLock mux_RUnlock read_hold.
Proof.
  split.
  - intros [[] n] m; mux_cases.
  - intros [[] n] m [[=] ->]. done.
  - intros f [[] n] m o' m' Hf [[=] ->]. cbn in Hf.
    destruct_or! Hf; subst; destruct n; mux_cases.
  - intros; congruence.
Qed.

Section invariant.
Context {W : Type} `{!Env W} (ctx : Context W) (ctx_sticky : sticky ctx).
Context {fnLock fnUnlock : RWMutex → option RWMutex} {hold : RWMutex → RWMutex → Prop}
  `{!LockPair fnLock fnUnlock hold}.
Abbreviation exec := (exec ctx fnLock fnUnlock).
Implicit Types s : lock_state W.

(** The states an invocation goes through. *)
Inductive reachable (m0 : RWMutex) (w0 : World W) : lock_state W → Prop :=
  | reachable_init : reachable m0 w0 (init_state m0 w0)
  | reachable_step c s s' :
      reachable m0 w0 s → exec c s = Some s' → reachable m0 w0 s'.

Definition returned_ok (c : caller_pc) : bool :=
  match c with C_return e => is_nil e | _ => false end.

(** Whether this invocation holds the lock. *)
Definition held (c : caller_pc) (l : locker_pc) : bool :=
  match l with
  | L_lock => false
  | L_mutex | L_check | L_unlock | L_send => true
  | L_deferred | L_done => returned_ok c
  end.

Definition owner_of (c : caller_pc) (l : locker_pc) : option tid :=
  match c, l with
  | (C_critical | C_deferred _), _ => Some TCaller
  | _, (L_check | L_unlock | L_send | L_deferred) => Some TLocker
  | _, _ => None
  end.

Definition expired_of (c : caller_pc) : bool :=
  match c with C_deferred _ => true | C_return e => negb (is_nil e) | _ => false end.

(** The combinations of program counters that occur. *)
Definition compatible (c : caller_pc) (l : locker_pc) : bool :=
  match c, l with
  | (C_select | C_cancelled), (L_lock | L_mutex | L_check | L_send) => true
  | (C_critical | C_deferred _), (L_lock | L_mutex) => true
  | C_return e, (L_lock | L_mutex | L_check | L_unlock) => negb (is_nil e)
  | C_return _, (L_deferred | L_done) => true
  | _, _ => false
  end.

(** The error the caller has or will return. *)
Definition result_ok (s : lock_state W) : Prop :=
  match caller s with
  | C_select => True
  | C_cancelled | C_critical => Err ctx (clock s) ≠ ENil
  | C_deferred e => ∃ w, Err ctx w ≠ ENil ∧ e = DatabaseError (Err ctx w)
  | C_return e => e ≠ ENil → ∃ w, Err ctx w ≠ ENil ∧ e = DatabaseError (Err ctx w)
  end.

Record inv (s : lock_state W) : Prop := {
  inv_mux : if held (caller s) (locker s) then hold (others s) (mux s)
            else mux s = others s;
  inv_owner : m_owner s = owner_of (caller s) (locker s);
  inv_expired : expired s = expired_of (caller s);
  inv_pcs : compatible (caller s) (locker s) = true;
  inv_result : result_ok s
}.

Lemma inv_init m w : inv (init_state m w).
Proof. by split. Qed.

Lemma inv_env f s s' :
  In f [mux_Lock; mux_RLock; mux_Unlock; mux_RUnlock] →
  inv s → env_step f s = Some s' → inv s'.
Proof.
  intros Hf [Hm Ho He Hp Hr]. unfold env_step.
  destruct (f (mux s)) eqn:E1; [|done]. destruct (f (others s)) eqn:E2; [|done].
  intros [= <-]. split; try done. cbn. destruct (held _ _).
  - by eapply hold_env.
  - rewrite Hm in E1. by eapply env_free.
Qed.

Lemma inv_tick s : inv s → inv (set_clock (tick (clock s)) s).
Proof.
  intros [Hm Ho He Hp Hr]. split; try done. unfold result_ok in *. cbn.
  destruct (caller s); try done; by apply ctx_sticky.
Qed.

Lemma inv_caller s s' : inv s → caller_step ctx s = Some s' → inv s'.
Proof.
  intros [Hm Ho He Hp Hr]. unfold caller_step, result_ok in *.
  destruct (caller s) as [| | |e|e] eqn:Ec; cbn in *; try done.
  - destruct (is_nil (Err ctx (clock s))) eqn:En; [done|]. intros [= <-].
    apply is_nil_false in En. split; cbn; try done; by destruct (locker s).
  - destruct (m_owner s); [done|]. intros [= <-]. split; cbn; try done;
      by destruct (locker s).
  - intros [= <-]. split; cbn; try done; [by destruct (locker s)..|]. unfold result_ok. cbn. eauto.
  - intros [= <-]. destruct Hr as (w & Hn & ->).
    pose proof (DatabaseError_not_nil (Err ctx w)) as Hd. apply is_nil_false in Hd.
    split; cbn; rewrite ?Hd; try done; [by destruct (locker s)..|]. unfold result_ok. cbn. eauto.
Qed.

Lemma inv_locker s s' : inv s → locker_step fnLock fnUnlock s = Some s' → inv s'.
Proof.
  intros [Hm Ho He Hp Hr]. unfold locker_step, result_ok in *.
  destruct (locker s) eqn:El; cbn in *; try done.
  - destruct (fnLock (mux s)) eqn:E; [|done]. intros [= <-]. rewrite Hm in E.
    apply lock_hold in E. split; cbn; try done; by destruct (caller s).
  - destruct (m_owner s) eqn:Em; [done|]. intros [= <-].
    split; cbn; try done; by destruct (caller s).
  - intros [= <-]. split; cbn; try done; rewrite ?He; destruct (caller s) as [| | | |[]]; done.
  - apply hold_unlock in Hm. rewrite Hm. intros [= <-].
    split; cbn; try done; destruct (caller s) as [| | | |[]]; done.
  - intros [= <-]. split; cbn; try done; destruct (caller s) as [| | | |[]]; done.
Qed.

Lemma inv_rendezvous s s' : inv s → rendezvous s = Some s' → inv s'.
Proof.
  intros [Hm Ho He Hp Hr]. unfold rendezvous.
  destruct (caller s) eqn:Ec, (locker s) eqn:El; cbn in *; try done.
  intros [= <-]. split; cbn; try done.
Qed.

Lemma inv_exec c s s' : inv s → exec c s = Some s' → inv s'.
Proof.
  intros HI. destruct c; cbn [exec Lock.exec]; intros E;
    try (eapply inv_env; [|done|done]; cbn; tauto).
  - simplify_eq. by apply inv_tick.
  - by eapply inv_caller.
  - by eapply inv_locker.
  - by eapply inv_rendezvous.
Qed.

Lemma inv_reachable m w s : reachable m w s → inv s.
Proof. induction 1; [apply inv_init|by eapply inv_exec]. Qed.

Lemma reachable_run m w s sched :
  reachable m w s → reachable m w (run_schedule ctx fnLock fnUnlock sched s).
Proof.
  revert s. induction sched as [|c sched IH]; intros s Hs; [done|].
  cbn. apply IH. destruct (exec c s) eqn:E; [|done]. by eapply reachable_step.
Qed.
(** ** Consequences *)

(** An abandoned locking goroutine that is past [fnLock] gives the lock back. *)
Lemma settle_gives_back s e :
  inv s → caller s = C_return e → e ≠ ENil → locker s ≠ L_lock →
  let s' := run_schedule ctx fnLock fnUnlock settle s in
  locker s' = L_done ∧ mux s' = others s ∧ others s' = others s ∧
  caller s' = C_return e ∧ clock s' = clock s.
Proof.
  intros [Hm Ho He Hp Hr] Hc Hne Hl. apply is_nil_false in Hne.
  destruct s as [m o ow ex c l w]; cbn in *; subst. cbn in *. rewrite Hne in *. cbn in *.
  destruct l; cbn in *; rewrite ?Hne in *; try done; try apply hold_unlock in Hm; unfold run_schedule, settle;
    cbn; repeat (rewrite ?Hm, ?Hne; cbn); done.
Qed.

(** C19: what the caller of [lockWithCancel] may rely on, in every interleaving. If it
    returned nil, this call, and no one else in its name, holds the lock. If it returned
    an error, that is the database error of the expired context, and the lock, if the
    locking goroutine has it at all, is on its way back: running that goroutine to its
    end leaves exactly what the others hold, without any further action of the caller. *)
Theorem lockWithCancel_safe m0 w0 s e
    (Hs : reachable m0 w0 s) (Hc : caller s = C_return e) :
  (e = ENil → hold (others s) (mux s)) ∧
  (e ≠ ENil →
    (∃ w, Err ctx w ≠ ENil ∧ e = DatabaseError (Err ctx w)) ∧ is_database_error e = true ∧
    (locker s = L_lock → mux s = others s) ∧
    (locker s ≠ L_lock →
      let s' := run_schedule ctx fnLock fnUnlock settle s in
      locker s' = L_done ∧ mux s' = others s ∧ others s' = others s)).
Proof.
  apply inv_reachable in Hs as HI. pose proof HI as [Hm Ho He Hp Hr]. split.
  - intros ->. rewrite Hc in Hm, Hp. by destruct (locker s).
  - intros Hne. unfold result_ok in Hr. rewrite Hc in Hr, Hm. destruct (Hr Hne) as (w & Hw & E).
    split_and!; [eauto|rewrite E; apply DatabaseError_database|by intros Hl; rewrite Hl in Hm|].
    intros Hl s'. by destruct (settle_gives_back s e HI Hc Hne Hl) as (? & ? & ? & _).
Qed.

(** The caller has taken the receive from [ctx.Done()] and waits for [m], which the
    locking goroutine holds while it waits for the caller to receive from [locked]. *)
Definition deadlock s : Prop :=
  caller s = C_cancelled ∧ locker s = L_send ∧ m_owner s = Some TLocker.

Lemma deadlock_step c s s' : deadlock s → exec c s = Some s' → deadlock s'.
Proof.
  intros (Hc & Hl & Ho). unfold Lock.exec, env_step, caller_step, locker_step, rendezvous.
  rewrite Hc, Hl, Ho. destruct c; cbn; intros; repeat case_match; by simplify_eq/=.
Qed.

Lemma deadlock_run sched s : deadlock s → deadlock (run_schedule ctx fnLock fnUnlock sched s).
Proof.
  revert s. induction sched as [|c sched IH]; intros s Hd; [done|]. cbn. apply IH.
  destruct (exec c s) eqn:E; [by eapply deadlock_step|done].
Qed.

(** C20: the deadlock. Whenever the lock is free and the context has expired, there is
    an interleaving after which, whatever happens next, the call does not return and
    the lock stays taken: the locking goroutine sends on the unbuffered channel while it
    holds [m], the caller left the [select] and wants [m]. *)
Theorem lockWithCancel_deadlock m0 w0 m
    (Hfree : fnLock m0 = Some m) (Hexp : Err ctx w0 ≠ ENil) :
  ∃ s, reachable m0 w0 s ∧
    ∀ sched, let s' := run_schedule ctx fnLock fnUnlock sched s in
      deadlock s' ∧ hold (others s') (mux s').
Proof.
  set (sched := [Ch_locker; Ch_locker; Ch_locker; Ch_caller]).
  pose proof (reachable_run m0 w0 (init_state m0 w0) sched (reachable_init m0 w0)) as HR.
  exists (run_schedule ctx fnLock fnUnlock sched (init_state m0 w0)). split; [done|].
  intros sched' s'. assert (deadlock s') as Hd.
  { apply deadlock_run. unfold run_schedule, sched, deadlock. cbn. rewrite Hfree. cbn.
    apply is_nil_false in Hexp. by rewrite Hexp. }
  split; [done|]. destruct Hd as (Hc & Hl & _).
  pose proof (inv_reachable _ _ _ (reachable_run _ _ _ sched' HR)) as HI.
  apply inv_mux in HI. fold s' in HI. by rewrite Hc, Hl in HI.
Qed.

(** progress. If neither goroutine of a reachable state can move, alone or together,
    then the call is over and the locking goroutine has ended; or the locking goroutine
    waits for the lock, the caller being in the [select] of a context that has not
    expired or back with an error; or it is the deadlock above. *)
Theorem lockWithCancel_stuck m0 w0 s (Hs : reachable m0 w0 s)
    (H1 : exec Ch_caller s = None) (H2 : exec Ch_locker s = None)
    (H3 : exec Ch_rendezvous s = None) :
  (∃ e, caller s = C_return e ∧ locker s = L_done) ∨
  (locker s = L_lock ∧ fnLock (mux s) = None ∧
    ((caller s = C_select ∧ Err ctx (clock s) = ENil) ∨
     ∃ e, caller s = C_return e ∧ e ≠ ENil)) ∨
  deadlock s.
Proof.
  apply inv_reachable in Hs as [Hm Ho He Hp Hr]. unfold deadlock.
  cbn in H1, H2, H3. unfold caller_step, locker_step, rendezvous in *.
  destruct (caller s) as [| | |e|e] eqn:Ec, (locker s) eqn:El; cbn in *; try done;
    try (rewrite Ho in *; done); try rewrite ?(hold_unlock _ _ Hm) in *; try done;
    try (by left; eauto); try (by right; right; eauto).
  - right; left. destruct (fnLock (mux s)); [done|]. split_and!; [done..|]. left.
    split; [done|]. destruct (is_nil (Err ctx (clock s))) eqn:En; [|done].
    by apply is_nil_true.
  - right; left. destruct (fnLock (mux s)); [done|]. split_and!; [done..|]. right.
    exists e. split; [done|]. apply negb_true_iff in Hp. by apply is_nil_false.
Qed.
End invariant.

(** ** The locker in the monad *)

(** A move that does not change what the other goroutines hold. *)
Definition quiet (c : choice) : bool :=
  match c with E_Lock | E_RLock | E_Unlock | E_RUnlock => false | _ => true end.

(** No other goroutine touches the lock while this one waits for it. *)
Definition undisturbed (W : Type) `{!Scheduler W} : Prop :=
  ∀ w : World W, forallb quiet (lock_schedule w) = true.

Section locker_facts.
Context {B W : Type} `{!Env W, !Scheduler W, !HasMux B}.
Context (ctx : Context W) (ctx_sticky : sticky ctx).
Context {fnLock fnUnlock : RWMutex → option RWMutex} {hold : RWMutex → RWMutex → Prop}
  `{!LockPair fnLock fnUnlock hold}.

Lemma exec_quiet_others c (s s' : lock_state W) :
  quiet c = true → exec ctx fnLock fnUnlock c s = Some s' → others s' = others s.
Proof.
  destruct c; cbn; try done; intros _;
    unfold caller_step, locker_step, rendezvous; intros; repeat case_match; by simplify_eq/=.
Qed.

Lemma run_quiet_others sched (s : lock_state W) :
  forallb quiet sched = true →
  others (run_schedule ctx fnLock fnUnlock sched s) = others s.
Proof.
  revert s. induction sched as [|c sched IH]; intros s; [done|].
  cbn [forallb]. intros [Hc Hs]%andb_true_iff. etrans; [by apply (IH (default s (exec ctx fnLock fnUnlock c s)))|].
  destruct (exec _ _ _ c s) eqn:E; [by eapply exec_quiet_others|done].
Qed.

(** The possible results of [lockWithCancel], [o] being what the others hold after it. *)
Inductive lock_result (o : RWMutex) (s : St B W) : outcome error * St B W → Prop :=
  | lock_taken m w : hold o m →
      lock_result o s (Return ENil, mkSt (put_mux m (back s)) w)
  | lock_expired w w' : Err ctx w ≠ ENil →
      lock_result o s (Return (DatabaseError (Err ctx w)), mkSt (put_mux o (back s)) w')
  | lock_hangs m w : hold o m ∨ m = o →
      lock_result o s (Blocked, mkSt (put_mux m (back s)) w).

Lemma lockWithCancel_cases (s : St B W) :
  ∃ o, lock_result o s (lockWithCancel ctx fnLock fnUnlock s) ∧
       (undisturbed W → o = get_mux (back s)).
Proof.
  unfold lockWithCancel. set (s0 := init_state _ _).
  set (st := run_schedule _ _ _ _ s0).
  assert (HI : inv ctx (hold := hold) st).
  { eapply (inv_reachable ctx ctx_sticky). apply reachable_run, reachable_init. }
  assert (Hq : undisturbed W → others st = get_mux (back s)).
  { intros Hu. unfold st. by rewrite run_quiet_others by apply Hu. }
  exists (others st). split; [|done]. clearbody st.
  pose proof HI as [Hm Ho He Hp Hr].
  destruct (caller st) as [| | |e|e] eqn:Ec;
    try (apply lock_hangs; case_match; [by left|by right]). unfold result_ok in Hr.
  rewrite Ec in Hr. destruct (decide (e = ENil)) as [->|Hne].
  { apply lock_taken. by destruct (locker st). }
  destruct (Hr Hne) as (w & Hx & Hde). 
  assert (HG : ∀ b, bool_decide (locker st = L_lock) = b →
    let st' := if b then st else run_schedule ctx fnLock fnUnlock settle st in
    mux st' = others st ∧ clock st' = clock st).
  { intros b Hb. destruct b; cbn.
    - apply bool_decide_eq_true in Hb. by rewrite Hb in Hm.
    - apply bool_decide_eq_false in Hb.
      by destruct (settle_gives_back ctx st e HI Ec Hne Hb) as (_ & ? & _ & _ & ?). }
  destruct (HG _ eq_refl) as [Hmx Hcl]. 
  assert (HE : lock_result (others st) s
    (Return e, mkSt (put_mux (others st) (back s)) (clock st))).
  { rewrite Hde. apply lock_expired. exact Hx. }
  destruct e; try done; by rewrite Hmx, Hcl.
Qed.
End locker_facts.

(** ** Instances *)

Module LockExamples.
#[local] Instance still : Env () := λ w, w.
Definition cancelled : Context () := mkContext None (λ _, Canceled).
Definition w0 : World () := mkWorld 0 ().

Lemma cancelled_sticky : sticky cancelled.
Proof. intros w. done. Qed.
Lemma background_sticky : sticky (@Background ()).
Proof. intros w. done. Qed.

(** An uncontended acquisition, and one given up while a writer holds the lock. *)
Definition acquire : list choice := [Ch_locker; Ch_locker; Ch_locker; Ch_rendezvous; Ch_locker].
Definition gives_up : list choice := [Ch_caller; Ch_caller; Ch_caller; Ch_caller].

Lemma lockWithCancel_safe_witness :
  let s := run_schedule Background mux_Lock mux_Unlock acquire (init_state unlocked w0) in
  caller s = C_return ENil ∧ write_hold (others s) (mux s).
Proof.
  intros s. split; [reflexivity|].
  refine (proj1 (lockWithCancel_safe Background background_sticky
    (hold := write_hold) unlocked w0 s ENil _ eq_refl) eq_refl).
  apply reachable_run, reachable_init.
Defined.

Lemma lockWithCancel_deadlock_witness :
  (mux_Lock unlocked = Some (mkRWMutex true 0) ∧ Err cancelled w0 ≠ ENil) ∧
  ∃ s, reachable cancelled (fnLock := mux_Lock) (fnUnlock := mux_Unlock) unlocked w0 s ∧
    ∀ sched, let s' := run_schedule cancelled mux_Lock mux_Unlock sched s in
      deadlock s' ∧ write_hold (others s') (mux s').
Proof.
  split; [split; [reflexivity|discriminate]|].
  apply (lockWithCancel_deadlock cancelled cancelled_sticky (hold := write_hold)
    unlocked w0 (mkRWMutex true 0)); [reflexivity|discriminate].
Defined.

Lemma lockWithCancel_stuck_witness :
  let s := run_schedule cancelled mux_Lock mux_Unlock gives_up
             (init_state (mkRWMutex true 0) w0) in
  exec cancelled mux_Lock mux_Unlock Ch_locker s = None ∧
  ((∃ e, caller s = C_return e ∧ locker s = L_done) ∨
   (locker s = L_lock ∧ mux_Lock (mux s) = None ∧
     ((caller s = C_select ∧ Err cancelled (clock s) = ENil) ∨
      ∃ e, caller s = C_return e ∧ e ≠ ENil)) ∨ deadlock s).
Proof.
  intros s. split; [reflexivity|].
  apply (lockWithCancel_stuck cancelled cancelled_sticky (hold := write_hold)
    (mkRWMutex true 0) w0 s); [|reflexivity..].
  apply reachable_run, reachable_init.
Defined.
End LockExamples.
