(* ===== verification/Timeout.v ===== *)
(** util/util.go: [CallWithTimeout] as an interleaving of the calling goroutine and the
    goroutine that runs the function. *)
From S2P Require Import Prelude Errors Go.

(** The calling goroutine: in the [select]; past the receive from [ctx.Done()], with
    [timeoutCallback()] still to be called; with the callback called; returned. *)
Inductive call_pc :=
  | T_select
  | T_cancelled
  | T_called
  | T_return (result : error).

(** The goroutine running [fn]: before the call; in the send [closeError <- fn()]; ended;
    or dead in a call that panicked or hangs. *)
Inductive worker_pc :=
  | K_call
  | K_send (result : error)
  | K_done
  | K_failed.

(** The calls made: [fn] with its result, [timeoutCallback]. *)
Inductive call_event :=
  | Ev_fn (result : error)
  | Ev_timeoutCallback.

Section machine.
Context {B W : Type} `{!Env W}.

Record call_state := mkCS {
  store : St B W;          (** what [fn] and [timeoutCallback] act on *)
  call : call_pc;
  worker : worker_pc;
  trace : list call_event  (** the calls that have returned (ghost), newest first *)
}.

(** Who moves: time; the caller; the worker; both on the channel [closeError]. *)
Inductive call_choice := K_tick | K_caller | K_worker | K_rendezvous.

Context (ctx : Context W) (fn : M B W error) (timeoutCallback : M B W ()).

Definition call_exec (c : call_choice) (s : call_state) : option call_state :=
  match c with
  | K_tick =>
      Some (mkCS (mkSt (back (store s)) (tick (world (store s)))) (call s) (worker s) (trace s))
  | K_caller =>
      match call s with
      | T_select =>
          (* case <-ctx.Done() *)
          if is_nil (Err ctx (world (store s))) then None
          else Some (mkCS (store s) T_cancelled (worker s) (trace s))
      | T_cancelled =>
          match timeoutCallback (store s) with
          | (Return _, s') => Some (mkCS s' T_called (worker s) (Ev_timeoutCallback :: trace s))
          | _ => None
          end
      | T_called =>
          (* return stoabs.DatabaseError(ctx.Err()) *)
          Some (mkCS (store s) (T_return (DatabaseError (Err ctx (world (store s)))))
                  (worker s) (trace s))
      | T_return _ => None
      end
  | K_worker =>
      match worker s with
      | K_call =>
          match fn (store s) with
          | (Return e, s') => Some (mkCS s' (call s) (K_send e) (Ev_fn e :: trace s))
          | (_, s') => Some (mkCS s' (call s) K_failed (trace s))
          end
      | _ => None
      end
  | K_rendezvous =>
      match call s, worker s with
      | T_select, K_send e => Some (mkCS (store s) (T_return e) K_done (trace s))
      | _, _ => None
      end
  end.

Definition call_run (sched : list call_choice) (s : call_state) : call_state :=
  foldl (λ s c, default s (call_exec c s)) s sched.

Definition call_init (s : St B W) : call_state := mkCS s T_select K_call [].
End machine.
Arguments call_state : clear implicits.

(** How the scheduler interleaves the two goroutines of a call. *)
Class CallScheduler (W : Type) := call_schedule : World W → list call_choice.

(** [CallWithTimeout] along the schedule of [call_schedule]; a caller that it does not let
    return hangs. *)
Definition CallWithTimeout {B W} `{!Env W, !CallScheduler W} (ctx : Context W)
    (fn : M B W error) (timeoutCallback : M B W ()) : M B W error := λ s,
  let st := call_run ctx fn timeoutCallback (call_schedule (world s)) (call_init s) in
  match call st with
  | T_return e => (Return e, store st)
  | _ => (Blocked, store st)
  end.

Section facts.
Context {B W : Type} `{!Env W} (ctx : Context W) (fn : M B W error)
  (timeoutCallback : M B W ()).
Abbreviation exec := (call_exec ctx fn timeoutCallback).

Inductive call_reachable (s0 : St B W) : call_state B W → Prop :=
  | call_reachable_init : call_reachable s0 (call_init s0)
  | call_reachable_step c s s' :
      call_reachable s0 s → exec c s = Some s' → call_reachable s0 s'.

Lemma call_reachable_run s0 s sched :
  call_reachable s0 s → call_reachable s0 (call_run ctx fn timeoutCallback sched s).
Proof.
  revert s. induction sched as [|c sched IH]; intros s Hs; [done|].
  cbn. apply IH. destruct (exec c s) eqn:E; [|done]. by eapply call_reachable_step.
Qed.

(** The results of the completed calls of [fn], and the number of calls of the callback. *)
Fixpoint fn_results (l : list call_event) : list error :=
  match l with
  | [] => []
  | Ev_fn r :: l' => r :: fn_results l'
  | Ev_timeoutCallback :: l' => fn_results l'
  end.
Fixpoint timeouts (l : list call_event) : nat :=
  match l with
  | [] => 0
  | Ev_fn _ :: l' => timeouts l'
  | Ev_timeoutCallback :: l' => S (timeouts l')
  end.

Definition call_inv (s : call_state B W) : Prop :=
  match worker s, call s with
  | K_done, T_return e => fn_results (trace s) = [e]
  | K_done, _ => False
  | K_send e, _ => fn_results (trace s) = [e]
  | _, _ => fn_results (trace s) = []
  end ∧
  match call s with
  | T_select | T_cancelled => timeouts (trace s) = 0
  | T_called => timeouts (trace s) = 1
  | T_return e =>
      (worker s = K_done ∧ timeouts (trace s) = 0) ∨
      (worker s ≠ K_done ∧ timeouts (trace s) = 1 ∧ ∃ w, e = DatabaseError (Err ctx w))
  end.

Lemma call_inv_step c s s' : call_inv s → exec c s = Some s' → call_inv s'.
Proof.
  intros [Hw Hc] E. destruct s as [st cl wk tr]; cbn in *.
  destruct c; cbn in E; repeat (case_match; simplify_eq/=); unfold call_inv; cbn;
    rewrite ?Hw, ?Hc; try destruct wk; try destruct cl; cbn in *;
    rewrite ?Hw, ?Hc; intuition (eauto; congruence).
Qed.

Lemma call_inv_reachable s0 s : call_reachable s0 s → call_inv s.
Proof. induction 1; [done|by eapply call_inv_step]. Qed.

(** C34: what [CallWithTimeout] returns, in every interleaving: either the result of the
    one call of [fn], whose goroutine has ended, the callback not having been called; or
    the database error of the context, the callback having been called once, and [fn] at
    most once. *)
Theorem CallWithTimeout_result s0 s e
    (Hs : call_reachable s0 s) (Hc : call s = T_return e) :
  (worker s = K_done ∧ fn_results (trace s) = [e] ∧ timeouts (trace s) = 0) ∨
  (is_database_error e = true ∧ (∃ w, e = DatabaseError (Err ctx w)) ∧
   length (fn_results (trace s)) ≤ 1 ∧ timeouts (trace s) = 1).
Proof.
  apply call_inv_reachable in Hs as [Hw H]. rewrite Hc in Hw, H.
  destruct H as [(Hk & Ht)|(Hk & Ht & w & ->)].
  - left. by rewrite Hk in Hw.
  - right. split_and!; [apply DatabaseError_database|eauto| |done].
    destruct (worker s); try done; rewrite Hw; cbn; lia.
Qed.

(** C35: the goroutine leak. Once the context has won, the goroutine that runs [fn] never
    ends: when [fn] returns, nobody receives from the unbuffered [closeError]. *)
Theorem CallWithTimeout_leak s sched
    (Hc : call s ≠ T_select) (Hw : worker s ≠ K_done) :
  worker (call_run ctx fn timeoutCallback sched s) ≠ K_done.
Proof.
  revert s Hc Hw. induction sched as [|c sched IH]; intros s Hc Hw; [done|].
  apply (IH (default s (exec c s))); destruct (exec c s) as [s'|] eqn:E; try done;
    destruct s as [st cl wk tr], c; cbn in *; simplify_eq/=; repeat (case_match; simplify_eq/=); congruence.
Qed.
End facts.

(** A relation that [fn], the callback and the environment respect is respected by the
    call. *)
Lemma keeps_CallWithTimeout {B W} `{!Env W, !CallScheduler W} (R : relation (St B W))
    `{!PreOrder R} ctx (fn : M B W error) cb :
  keeps R fn → keeps R cb → (∀ s, R s (mkSt (back s) (tick (world s)))) →
  keeps R (CallWithTimeout ctx fn cb).
Proof.
  intros Hfn Hcb Hw s. unfold CallWithTimeout.
  set (st0 := call_init s). set (st := call_run _ _ _ _ st0).
  assert (HR : R s (store st)).
  { subst st. generalize (call_schedule (world s)). intros sched.
    assert (H0 : R s (store st0)) by reflexivity. revert H0. generalize st0. clear st0.
    induction sched as [|c sched IH]; intros st H0; [done|]. cbn. apply IH.
    destruct (call_exec ctx fn cb c st) as [st'|] eqn:E; [|done]. cbn.
    destruct c; cbn in E.
    - injection E as <-. cbn. etrans; [exact H0|apply Hw].
    - destruct (call st); [by case_match; simplify_eq/=| |by simplify_eq/=|done].
      specialize (Hcb (store st)). destruct (cb (store st)) as [[] s']; simplify_eq/=. by etrans.
    - destruct (worker st); try done. specialize (Hfn (store st)).
      destruct (fn (store st)) as [[] s']; simplify_eq/=; by etrans.
    - by destruct (call st), (worker st); simplify_eq/=. }
  by destruct (call st).
Qed.

(** What holds whenever [fn] has returned, and cannot be undone by the callback or by the
    environment, holds when the call returns, unless the context has won. *)
Lemma CallWithTimeout_post {B W} `{!Env W, !CallScheduler W} (P : St B W → Prop) ctx
    (fn : M B W error) cb s e s' :
  (∀ s1 e1 s2, fn s1 = (Return e1, s2) → P s2) →
  (∀ s1 o s2, P s1 → cb s1 = (o, s2) → P s2) → (∀ s1 w, P s1 → P (mkSt (back s1) w)) →
  CallWithTimeout ctx fn cb s = (Return e, s') →
  P s' ∨ ∃ w, e = DatabaseError (Err ctx w).
Proof.
  intros Hfn Hcb Hw. unfold CallWithTimeout.
  set (st := call_run _ _ _ _ (call_init s)).
  assert (HR : call_reachable ctx fn cb s st) by apply call_reachable_run, call_reachable_init.
  clearbody st.
  assert (HP : match worker st with K_send _ | K_done => P (store st) | _ => True end).
  { induction HR as [|c s1 s2 _ IH E]; [done|]. destruct s1 as [st1 cl wk tr].
    destruct c; cbn in *; repeat (case_match; simplify_eq/=); eauto. }
  pose proof (call_inv_reachable ctx fn cb s st HR) as [_ HI].
  destruct (call st) as [| | |e'] eqn:Ec; try done. intros [= <- <-].
  destruct HI as [[Hk _]|(_ & _ & Hc)]; [left; by rewrite Hk in HP|by right].
Qed.

(** ** Instances *)

Module TimeoutExamples.
#[local] Instance still : Env () := λ w, w.
Definition s0 : St () () := mkSt () (mkWorld 0 ()).
Definition fails : M () () error := mret (errorString 900 #"custom error").
Definition nothing : M () () () := mret ().
Definition cancelled : Context () := mkContext None (λ _, Canceled).

Lemma CallWithTimeout_result_witness :
  let s := call_run Background fails nothing [K_worker; K_rendezvous] (call_init s0) in
  let e := errorString 900 #"custom error" in
  call s = T_return e ∧
  ((worker s = K_done ∧ fn_results (trace s) = [e] ∧ timeouts (trace s) = 0) ∨
   (is_database_error e = true ∧ (∃ w, e = DatabaseError (Err (@Background ()) w)) ∧
    length (fn_results (trace s)) ≤ 1 ∧ timeouts (trace s) = 1)).
Proof.
  intros s e. split; [reflexivity|].
  apply (CallWithTimeout_result Background fails nothing s0 s e); [|reflexivity].
  apply call_reachable_run, call_reachable_init.
Defined.

Lemma CallWithTimeout_leak_witness :
  let s := call_run cancelled fails nothing [K_caller; K_caller; K_caller] (call_init s0) in
  (call s ≠ T_select ∧ worker s ≠ K_done) ∧
  worker (call_run cancelled fails nothing [K_worker; K_rendezvous; K_worker] s) ≠ K_done.
Proof.
  intros s. split; [split; discriminate|].
  apply (CallWithTimeout_leak cancelled fails nothing s); discriminate.
Defined.
End TimeoutExamples.
