(* ===== verification/Shelf.v ===== *)
(** The contents of a shelf as the reference model of all backends: key/value pairs
    strictly sorted by key in the order of [bytes.Compare]. *)
From S2P Require Import Prelude.

Abbreviation items := (list (bytes * bytes)).

(** ** Operations *)

Fixpoint items_lookup (k : bytes) (l : items) : option bytes :=
  match l with
  | [] => None
  | (k', v) :: l' => if bool_decide (k = k') then Some v else items_lookup k l'
  end.

Fixpoint items_insert (k v : bytes) (l : items) : items :=
  match l with
  | [] => [(k, v)]
  | (k', v') :: l' =>
      match bytes_Compare k k' with
      | Lt => (k, v) :: (k', v') :: l'
      | Eq => (k, v) :: l'
      | Gt => (k', v') :: items_insert k v l'
      end
  end.

Fixpoint items_delete (k : bytes) (l : items) : items :=
  match l with
  | [] => []
  | (k', v') :: l' => if bool_decide (k = k') then l' else (k', v') :: items_delete k l'
  end.

(** The pairs from the first key that is at least [k]. *)
Fixpoint items_from (k : bytes) (l : items) : items :=
  match l with
  | [] => []
  | (k', v') :: l' => if bytes_ltb k' k then items_from k l' else (k', v') :: l'
  end.

(** The pairs before the first key that is at least [k]. *)
Fixpoint items_before (k : bytes) (l : items) : items :=
  match l with
  | [] => []
  | (k', v') :: l' => if bytes_ltb k' k then (k', v') :: items_before k l' else []
  end.

(** The pairs with a key in the half-open interval. *)
Definition items_range (from to : bytes) (l : items) : items :=
  items_before to (items_from from l).

(** ** The invariant *)

Definition key_lt (a b : bytes * bytes) : Prop := bytes_lt a.1 b.1.
#[global] Instance key_lt_trans : Transitive key_lt.
Proof. intros a b c. unfold key_lt. apply bytes_lt_trans. Qed.

Abbreviation sorted := (StronglySorted key_lt).

Lemma sorted_nil : sorted [].
Proof. constructor. Qed.

Lemma sorted_cons_iff x l : sorted (x :: l) ↔ sorted l ∧ Forall (key_lt x) l.
Proof. split; [by inversion 1|]. by intros []; constructor. Qed.

Lemma sorted_suffix l1 l2 : sorted (l1 ++ l2) → sorted l2.
Proof. induction l1; [done|]. cbn. rewrite sorted_cons_iff. naive_solver. Qed.

Lemma items_insert_Forall P k v l : P (k, v) → Forall P l → Forall P (items_insert k v l).
Proof.
  intros HP. induction l as [|[k' v'] l IH]; cbn; intros Hl; [by repeat constructor|].
  inversion Hl; subst. destruct (bytes_Compare k k'); repeat constructor; auto.
Qed.

Lemma items_insert_sorted k v l : sorted l → sorted (items_insert k v l).
Proof.
  induction l as [|[k' v'] l IH]; cbn; [by repeat constructor|].
  rewrite sorted_cons_iff. intros [Hs Hf]. destruct (bytes_Compare k k') eqn:E.
  - apply bytes_Compare_eq in E as ->. rewrite sorted_cons_iff. split; [done|].
    exact Hf.
  - rewrite !sorted_cons_iff. split_and!; [done|done|]. constructor; [done|].
    eapply Forall_impl; [exact Hf|]. intros x. unfold key_lt. cbn. intros ?.
    eapply bytes_lt_trans; [exact E|done].
  - rewrite sorted_cons_iff. split; [auto|]. apply items_insert_Forall; [|done].
    unfold key_lt, bytes_lt. cbn. by rewrite bytes_Compare_antisym, E.
Qed.

Lemma items_delete_incl k l : Forall (λ x, x ∈ l) (items_delete k l).
Proof.
  induction l as [|[k' v'] l IH]; cbn; [done|]. case_bool_decide.
  - apply Forall_forall. intros. by right.
  - constructor; [by left|]. eapply Forall_impl; [exact IH|]. intros. by right.
Qed.

Lemma items_delete_sorted k l : sorted l → sorted (items_delete k l).
Proof.
  induction l as [|[k' v'] l IH]; cbn; [done|]. rewrite sorted_cons_iff. intros [Hs Hf].
  case_bool_decide; [done|]. rewrite sorted_cons_iff. split; [auto|].
  rewrite Forall_forall in Hf. pose proof (items_delete_incl k l) as Hi.
  eapply Forall_impl; [exact Hi|]. auto.
Qed.

(** ** Lookup *)

Lemma items_lookup_lt k l : Forall (λ x, bytes_lt k x.1) l → items_lookup k l = None.
Proof.
  induction 1 as [|[k' v'] l Hx _ IH]; cbn; [done|]. rewrite bool_decide_eq_false_2; [done|].
  intros ->. by apply bytes_lt_irrefl in Hx.
Qed.

Lemma items_lookup_elem k v l : items_lookup k l = Some v → (k, v) ∈ l.
Proof.
  induction l as [|[k' v'] l IH]; cbn; [done|]. case_bool_decide; intros; simplify_eq.
  - by left.
  - right. auto.
Qed.

Lemma elem_items_lookup k v l : sorted l → (k, v) ∈ l → items_lookup k l = Some v.
Proof.
  induction l as [|[k' v'] l IH]; cbn; [by intros _ []%not_elem_of_nil|].
  rewrite sorted_cons_iff, elem_of_cons. intros [Hs Hf] [[= -> ->]|Hin].
  - by rewrite bool_decide_eq_true_2.
  - rewrite bool_decide_eq_false_2; [auto|]. intros ->.
    rewrite Forall_forall in Hf. apply Hf in Hin. by apply bytes_lt_irrefl in Hin.
Qed.

Lemma items_lookup_insert k v j l :
  items_lookup j (items_insert k v l) = if bool_decide (j = k) then Some v else items_lookup j l.
Proof.
  induction l as [|[k' v'] l IH]; cbn; [done|].
  destruct (bytes_Compare k k') eqn:E; cbn; [|done|].
  - apply bytes_Compare_eq in E as ->. by case_bool_decide.
  - rewrite IH. destruct (decide (j = k)) as [->|Hj].
    + rewrite (bool_decide_eq_false_2 (k = k')), !bool_decide_eq_true_2 by
        (done || intros ->; by rewrite bytes_Compare_refl in E). done.
    + by rewrite !(bool_decide_eq_false_2 (j = k)).
Qed.

Lemma items_lookup_delete k j l :
  sorted l →
  items_lookup j (items_delete k l) = if bool_decide (j = k) then None else items_lookup j l.
Proof.
  induction l as [|[k' v'] l IH]; cbn; [by case_bool_decide|].
  rewrite sorted_cons_iff. intros [Hs Hf]. destruct (bool_decide (k = k')) eqn:E.
  - apply bool_decide_eq_true in E as <-. case_bool_decide; [subst|done].
    by apply items_lookup_lt.
  - cbn. rewrite IH by done. apply bool_decide_eq_false in E.
    case_bool_decide as H1; [|done]. subst j. by rewrite bool_decide_eq_false_2.
Qed.

(** ** Intervals *)

Lemma items_from_suffix k l : ∃ l1, l = l1 ++ items_from k l ∧ Forall (λ x, bytes_lt x.1 k) l1.
Proof.
  induction l as [|[k' v'] l (l1 & E & H)]; cbn; [by exists []|].
  destruct (bytes_ltb k' k) eqn:B; [|by exists []].
  exists ((k', v') :: l1). cbn. split; [by f_equal|]. constructor; [|done].
  by apply bytes_ltb_lt.
Qed.

Lemma items_from_sorted k l : sorted l → sorted (items_from k l).
Proof.
  destruct (items_from_suffix k l) as (l1 & E & _). rewrite E at 1. apply sorted_suffix.
Qed.

Lemma items_before_prefix k l : ∃ l2, l = items_before k l ++ l2.
Proof.
  induction l as [|[k' v'] l [l2 E]]; cbn; [by exists []|].
  destruct (bytes_ltb k' k); [|by exists ((k', v') :: l)].
  exists l2. cbn. by rewrite <-E.
Qed.

Lemma elem_items_from x k l : sorted l → x ∈ items_from k l ↔ x ∈ l ∧ bytes_le k x.1.
Proof.
  induction l as [|[k' v'] l IH]; cbn; [set_solver|].
  rewrite sorted_cons_iff. intros [Hs Hf]. destruct (bytes_ltb k' k) eqn:B.
  - rewrite IH by done. apply bytes_ltb_lt in B. rewrite elem_of_cons. split; [naive_solver|].
    intros [[->|?] Hle]; [|done]. cbn in Hle. by apply bytes_nlt_le in Hle.
  - apply bytes_ltb_ge in B. split; [|naive_solver]. intros Hx. split; [done|].
    apply elem_of_cons in Hx as [->|Hx]; [done|]. rewrite Forall_forall in Hf.
    apply Hf in Hx. etrans; [exact B|]. by apply bytes_lt_le.
Qed.

Lemma elem_items_before x k l : sorted l → x ∈ items_before k l ↔ x ∈ l ∧ bytes_lt x.1 k.
Proof.
  induction l as [|[k' v'] l IH]; cbn; [set_solver|].
  rewrite sorted_cons_iff. intros [Hs Hf]. destruct (bytes_ltb k' k) eqn:B.
  - rewrite !elem_of_cons, IH by done. apply bytes_ltb_lt in B. naive_solver.
  - apply bytes_ltb_ge in B. split; [by intros []%not_elem_of_nil|].
    intros [Hx Hlt]. exfalso. apply elem_of_cons in Hx as [->|Hx].
    + by apply bytes_nlt_le in B.
    + rewrite Forall_forall in Hf. apply Hf in Hx.
      apply (bytes_lt_irrefl k). eapply bytes_le_lt_trans; [exact B|].
      eapply bytes_lt_trans; [exact Hx|done].
Qed.

Lemma elem_items_range x from to l :
  sorted l → x ∈ items_range from to l ↔ x ∈ l ∧ bytes_le from x.1 ∧ bytes_lt x.1 to.
Proof.
  intros Hs. unfold items_range.
  rewrite elem_items_before, elem_items_from by auto using items_from_sorted. tauto.
Qed.

Lemma length_items_from k l : length (items_from k l) ≤ length l.
Proof. destruct (items_from_suffix k l) as (l1 & E & _). rewrite E at 2. rewrite length_app. lia. Qed.

Lemma length_items_range from to l : length (items_range from to l) ≤ length l.
Proof.
  unfold items_range. etrans; [|apply (length_items_from from)].
  destruct (items_before_prefix to (items_from from l)) as [l2 E]. rewrite E at 2.
  rewrite length_app. lia.
Qed.

Create HintDb shelf.
#[export] Hint Resolve sorted_nil items_insert_sorted items_delete_sorted
  items_from_sorted : shelf.
