(* ===== verification/Prefix.v ===== *)
(** A shelf as the slice of a flat, sorted key space: the pairs whose keys start with the
    shelf's name. *)
From S2P Require Import Prelude Shelf.

(** The pairs of shelf [n], their keys without the prefix. *)
Fixpoint shelf_view (n : bytes) (l : items) : items :=
  match l with
  | [] => []
  | (k, v) :: l' =>
      if HasPrefix k n then (drop (length n) k, v) :: shelf_view n l' else shelf_view n l'
  end.

Lemma view_nil l : shelf_view [] l = l.
Proof. induction l as [|[k v] l IH]; [done|]. cbn. by rewrite drop_0, IH. Qed.

(** The longest prefix of [l] whose pairs satisfy [p]. *)
Fixpoint take_while (p : bytes * bytes → bool) (l : items) : items :=
  match l with
  | [] => []
  | x :: l' => if p x then x :: take_while p l' else []
  end.

Definition unprefixed (n : bytes) (x : bytes * bytes) : bytes * bytes :=
  (drop (length n) x.1, x.2).

(** [n] is not a prefix of [m] and [m] is not one of [n]. *)
Definition unrelated (n m : bytes) : Prop := HasPrefix n m = false ∧ HasPrefix m n = false.

(** ** Prefixes and order *)

Lemma drop_prefix (n k : bytes) : drop (length n) (n ++ k) = k.
Proof. by rewrite drop_app_length. Qed.

Lemma HasPrefix_false s p : HasPrefix s p = false ↔ ∀ r, s ≠ p ++ r.
Proof.
  destruct (HasPrefix s p) eqn:E; split; try done.
  - intros H. apply HasPrefix_spec in E as [r E]. by destruct (H r).
  - intros _ r ->. by rewrite HasPrefix_app in E.
Qed.

Lemma prefix_le (n k : bytes) : bytes_le n (n ++ k).
Proof.
  unfold bytes_le. rewrite <-(app_nil_r n) at 1. rewrite bytes_Compare_app. by destruct k.
Qed.

Lemma bytes_lt_app n a b : bytes_lt (n ++ a) (n ++ b) ↔ bytes_lt a b.
Proof. unfold bytes_lt. by rewrite bytes_Compare_app. Qed.

(** A key above the prefix that does not start with it is above all keys that do. *)
Lemma above_prefix (n k k' : bytes) :
  bytes_le n k → HasPrefix k n = false → bytes_lt k k' → HasPrefix k' n = false.
Proof.
  intros Hle Hn Hlt. apply HasPrefix_false. intros r ->. rewrite HasPrefix_false in Hn.
  apply bytes_le_iff in Hle as [Hle| <-]; [|by destruct (Hn []); rewrite app_nil_r].
  revert k r Hle Hn Hlt. unfold bytes_lt.
  induction n as [|x n IH]; intros [|y k] r; cbn; try done; [by intros _ H; destruct (H (y :: k))|].
  destruct (N.compare_spec (Byte.to_N x) (Byte.to_N y)) as [E|E|E]; try done.
  - apply byte_to_N_inj in E as ->. rewrite N.compare_refl. intros H1 Hn.
    apply IH; [done|]. intros q ->. by destruct (Hn q).
  - intros _ _. by destruct (N.compare_spec (Byte.to_N y) (Byte.to_N x)); try lia.
Qed.

Lemma unrelated_app n m k : unrelated n m → HasPrefix (n ++ k) m = false.
Proof.
  intros [H1 H2]. apply HasPrefix_false. intros r E. rewrite HasPrefix_false in H1, H2.
  apply app_eq_inv in E as [(q & -> & _)|(q & -> & _)]; [by destruct (H1 q)|by destruct (H2 q)].
Qed.

(** ** The view and the operations *)

Lemma items_insert_first k x l : Forall (λ y, bytes_lt k y.1) l → items_insert k x l = (k, x) :: l.
Proof. intros [|[k' v'] ? H ?]; [done|]. cbn in *. by rewrite H. Qed.

Lemma view_above n k l : Forall (key_lt k) l → ∀ r, k.1 = n ++ r →
  Forall (λ y, bytes_lt r y.1) (shelf_view n l).
Proof.
  intros Hl r E. induction Hl as [|[k' v'] l Hk _ IH]; [constructor|]. cbn.
  destruct (HasPrefix k' n) eqn:E'; [|done]. constructor; [|done].
  apply HasPrefix_spec in E' as [r' ->]. cbn. rewrite drop_prefix.
  unfold key_lt in Hk. cbn in Hk. by rewrite E, bytes_lt_app in Hk.
Qed.

Lemma view_sorted n l : sorted l → sorted (shelf_view n l).
Proof.
  induction l as [|[k v] l IH]; cbn; [done|]. rewrite sorted_cons_iff. intros [Hs Hf].
  destruct (HasPrefix k n) eqn:E; [|auto]. rewrite sorted_cons_iff. split; [auto|].
  apply HasPrefix_spec in E as [r ->]. rewrite drop_prefix. by eapply view_above.
Qed.

Lemma view_lookup n k l : items_lookup k (shelf_view n l) = items_lookup (n ++ k) l.
Proof.
  induction l as [|[k' v] l IH]; [done|]. cbn. destruct (HasPrefix k' n) eqn:E.
  - apply HasPrefix_spec in E as [r ->]. rewrite drop_prefix. cbn. rewrite IH.
    by rewrite (bool_decide_ext (n ++ k = n ++ r) (k = r)) by (split; [apply app_inv_head|by intros ->]).
  - rewrite bool_decide_eq_false_2; [done|]. intros <-. by rewrite HasPrefix_app in E.
Qed.

Lemma view_insert n k x l :
  sorted l → shelf_view n (items_insert (n ++ k) x l) = items_insert k x (shelf_view n l).
Proof.
  induction l as [|[k' v] l IH]; [by cbn; rewrite HasPrefix_app, drop_prefix|].
  rewrite sorted_cons_iff. intros [Hs Hf]. cbn.
  destruct (bytes_Compare (n ++ k) k') eqn:E.
  - apply bytes_Compare_eq in E as <-. cbn. rewrite HasPrefix_app, drop_prefix. cbn.
    by rewrite bytes_Compare_refl.
  - cbn. rewrite HasPrefix_app, drop_prefix. destruct (HasPrefix k' n) eqn:E'.
    + apply HasPrefix_spec in E' as [r ->]. rewrite drop_prefix. cbn.
      by rewrite bytes_Compare_app in E; rewrite E.
    + rewrite items_insert_first; [done|]. eapply (view_above n (n ++ k, x)); [|done].
      eapply Forall_impl; [exact Hf|]. intros y. unfold key_lt. cbn. intros ?.
      by eapply bytes_lt_trans.
  - cbn. destruct (HasPrefix k' n) eqn:E'; [|auto].
    apply HasPrefix_spec in E' as [r ->]. rewrite drop_prefix. cbn.
    rewrite bytes_Compare_app in E. rewrite E, IH by done. done.
Qed.

Lemma view_delete n k l : shelf_view n (items_delete (n ++ k) l) = items_delete k (shelf_view n l).
Proof.
  induction l as [|[k' v] l IH]; [done|]. cbn. case_bool_decide as Hk.
  - subst. rewrite HasPrefix_app, drop_prefix. cbn. by rewrite bool_decide_eq_true_2.
  - cbn. destruct (HasPrefix k' n) eqn:E'; [|done].
    apply HasPrefix_spec in E' as [r ->]. rewrite drop_prefix. cbn.
    rewrite bool_decide_eq_false_2 by congruence. by rewrite IH.
Qed.

(** Writing a key that does not start with [m] does not change shelf [m]. *)
Lemma view_insert_other m k x l :
  HasPrefix k m = false → shelf_view m (items_insert k x l) = shelf_view m l.
Proof.
  intros E. induction l as [|[k' v] l IH]; cbn; [by rewrite E|].
  destruct (bytes_Compare k k') eqn:E'; cbn; rewrite ?E, ?IH; try done.
  apply bytes_Compare_eq in E' as <-. by rewrite E.
Qed.

Lemma view_delete_other m k l :
  HasPrefix k m = false → shelf_view m (items_delete k l) = shelf_view m l.
Proof.
  intros E. induction l as [|[k' v] l IH]; cbn; [done|].
  case_bool_decide as Hk; cbn; [by subst; rewrite E|by rewrite IH].
Qed.

(** ** The view and the cursor *)

Lemma items_from_above k l : Forall (λ x, bytes_le k x.1) l → items_from k l = l.
Proof.
  intros [|[k' v] ? H ?]; [done|]. cbn in *. apply bytes_ltb_ge in H. by rewrite H.
Qed.

Lemma view_all_above n k l :
  bytes_le n k.1 → HasPrefix k.1 n = false → Forall (key_lt k) l → shelf_view n l = [].
Proof.
  intros Hle Hn Hl. induction Hl as [|[k' v'] l Hk _ IH]; [done|]. cbn.
  by rewrite (above_prefix n k.1 k').
Qed.

Lemma sorted_above k l x : sorted (x :: l) → bytes_le k x.1 → Forall (λ y, bytes_le k y.1) l.
Proof.
  rewrite sorted_cons_iff. intros [_ Hf] Hle. eapply Forall_impl; [exact Hf|].
  intros y Hy. etrans; [exact Hle|]. by apply bytes_lt_le.
Qed.

(** From [n] on, the pairs of shelf [n] come first. *)
Lemma take_prefix_view n l :
  sorted l →
  unprefixed n <$> take_while (λ x, HasPrefix x.1 n) (items_from n l) = shelf_view n l.
Proof.
  induction l as [|[k v] l IH]; [done|]. intros Hs. pose proof Hs as Hs'.
  apply sorted_cons_iff in Hs as [Hs Hf]. cbn. destruct (bytes_ltb k n) eqn:E.
  - rewrite IH by done. destruct (HasPrefix k n) eqn:E'; [|done].
    apply HasPrefix_spec in E' as [r ->]. apply bytes_ltb_lt, bytes_nlt_le in E; [done|].
    apply prefix_le.
  - apply bytes_ltb_ge in E. cbn. destruct (HasPrefix k n) eqn:E'.
    + cbn. f_equal. rewrite <-IH by done. rewrite items_from_above; [done|].
      by eapply sorted_above.
    + symmetry. by apply (view_all_above n (k, v)).
Qed.

Lemma view_from n f l : sorted l → shelf_view n (items_from (n ++ f) l) = items_from f (shelf_view n l).
Proof.
  induction l as [|[k v] l IH]; [done|]. intros Hs.
  pose proof Hs as [Hs' Hf]%sorted_cons_iff. cbn. destruct (bytes_ltb k (n ++ f)) eqn:E.
  - rewrite IH by done. destruct (HasPrefix k n) eqn:E'; [|done].
    apply HasPrefix_spec in E' as [r ->]. rewrite drop_prefix. cbn.
    unfold bytes_ltb in *. rewrite bytes_Compare_app in E. by rewrite E.
  - cbn. destruct (HasPrefix k n) eqn:E'.
    + apply HasPrefix_spec in E' as [r ->]. rewrite drop_prefix. cbn.
      unfold bytes_ltb in *. rewrite bytes_Compare_app in E. by rewrite E.
    + rewrite items_from_above; [done|].
      apply bytes_ltb_ge in E. rewrite (view_all_above n (k, v)); [done| |done|done].
      etrans; [apply prefix_le|exact E].
Qed.

Lemma take_before_view n u l :
  sorted l → Forall (λ x, bytes_le n x.1) l →
  unprefixed n <$> take_while (λ x, HasPrefix x.1 n && bytes_ltb x.1 (n ++ u)) l =
    items_before u (shelf_view n l).
Proof.
  induction l as [|[k v] l IH]; [done|]. intros Hs Ha. inversion Ha as [|? ? Hk Ha']; subst.
  pose proof Hs as [Hs' Hf]%sorted_cons_iff. cbn in *. destruct (HasPrefix k n) eqn:E.
  - cbn. apply HasPrefix_spec in E as [r ->]. rewrite drop_prefix.
    unfold bytes_ltb in *. rewrite bytes_Compare_app. destruct (bytes_Compare r u); cbn; [done| |done].
    unfold unprefixed at 1. cbn. rewrite drop_prefix. f_equal. by rewrite <-IH.
  - cbn. by rewrite (view_all_above n (k, v)).
Qed.

(** The loop of a range over [n ++ f, n ++ u) within the prefix [n]. *)
Lemma take_range_view n f u l :
  sorted l →
  unprefixed n <$> take_while (λ x, HasPrefix x.1 n && bytes_ltb x.1 (n ++ u))
                     (items_from (n ++ f) l) =
    items_range f u (shelf_view n l).
Proof.
  intros Hs. unfold items_range. rewrite <-view_from by done.
  apply take_before_view; [by apply items_from_sorted|].
  apply Forall_forall. intros x Hx. apply elem_items_from in Hx as [_ Hx]; [|done].
  etrans; [apply prefix_le|exact Hx].
Qed.
