(* ===== verification/Pending.v ===== *)
(** The writes a transaction has buffered, and what they make of the pairs of a database. *)
From S2P Require Import Prelude Shelf Prefix.

(** A key with its new value, or [None] for a deletion. *)
Abbreviation write := (bytes * option bytes)%type.

Definition apply_write (l : items) (w : write) : items :=
  match w.2 with
  | Some x => items_insert w.1 x l
  | None => items_delete w.1 l
  end.
Definition apply_writes (ws : list write) (l : items) : items := foldl apply_write l ws.

Lemma apply_writes_snoc ws w l :
  apply_writes (ws ++ [w]) l = apply_write (apply_writes ws l) w.
Proof. apply foldl_snoc. Qed.

Lemma apply_write_sorted l w : sorted l → sorted (apply_write l w).
Proof. unfold apply_write. destruct w.2; auto with shelf. Qed.
Lemma apply_writes_sorted ws l : sorted l → sorted (apply_writes ws l).
Proof. revert l. induction ws as [|w ws IH]; intros l Hl; [done|]. by apply IH, apply_write_sorted. Qed.
#[export] Hint Resolve apply_write_sorted apply_writes_sorted : shelf.

Lemma lookup_apply_write k w l :
  sorted l →
  items_lookup k (apply_write l w) = if bool_decide (k = w.1) then w.2 else items_lookup k l.
Proof.
  intros Hl. unfold apply_write. destruct w as [j [x|]]; cbn.
  - apply items_lookup_insert.
  - by apply items_lookup_delete.
Qed.

(** Two databases agree on a key after the same writes if they did before, or the key is
    one of those written. *)
Lemma lookup_apply_writes k ws l l' :
  sorted l → sorted l' → k ∈ ws.*1 ∨ items_lookup k l = items_lookup k l' →
  items_lookup k (apply_writes ws l) = items_lookup k (apply_writes ws l').
Proof.
  intros Hl Hl'. induction ws as [|w ws IH] using rev_ind; intros Hk.
  - destruct Hk as [[]%not_elem_of_nil|Hk]. exact Hk.
  - rewrite !apply_writes_snoc, !lookup_apply_write by auto with shelf.
    case_bool_decide as Hw; [done|]. apply IH. destruct Hk as [Hk|Hk]; [left|by right].
    rewrite fmap_app, elem_of_app in Hk. destruct Hk as [Hk|Hk]; [done|].
    by apply list_elem_of_singleton in Hk.
Qed.

(** *** Writes to some shelves *)

(** All keys are of the shelves [names]. *)
Definition writes_in (names : bytes → Prop) (ws : list write) : Prop :=
  Forall (λ w : write, ∃ n k, names n ∧ w.1 = n ++ k) ws.

Lemma writes_in_snoc (names : bytes → Prop) n ws k o :
  names n → writes_in names ws → writes_in names (ws ++ [(n ++ k, o)]).
Proof. intros Hn Hw. apply Forall_app. split; [done|]. repeat constructor. by exists n, k. Qed.

Lemma view_apply_write_other n m k o l :
  unrelated n m → shelf_view m (apply_write l (n ++ k, o)) = shelf_view m l.
Proof.
  intros Hu. destruct o as [x|].
  - by apply view_insert_other, unrelated_app.
  - by apply view_delete_other, unrelated_app.
Qed.

Lemma view_apply_other (names : bytes → Prop) m ws l :
  writes_in names ws → (∀ n, names n → unrelated n m) →
  shelf_view m (apply_writes ws l) = shelf_view m l.
Proof.
  intros Hw Hu. revert l. induction Hw as [|[j o] ws (n & k & Hn & Ek) _ IH]; intros l; [done|].
  change (apply_writes ((j, o) :: ws) l) with (apply_writes ws (apply_write l (j, o))).
  rewrite IH. cbn in Ek. subst j. apply view_apply_write_other. auto.
Qed.
