(* ===== verification/Walk.v ===== *)
(** The abstract iterations the readers promise: a walk over a list of key/value pairs
    that checks the context, parses the key and calls back, in this order, for each pair. *)
From S2P Require Import Prelude Errors Keys Go Store Shelf.

Section walk.
Context {B W : Type} `{!Env W} (ctx : Context W).
Abbreviation M := (M B W).

(** One check for cancellation: go on with [k], or stop with the context's error. *)
Definition check_ctx (k : M error) : M error :=
  e ← ctx_Err ctx;
  if negb (is_nil e) then e ← ctx_Err ctx; mret (DatabaseError e) else k.

(** The visit of one pair: go on with [k] of the parsed key, or stop with an error. *)
Definition visit (keyType : Key) (callback : CallerFn B W) (x : bytes * bytes)
    (k : Key → M error) : M error :=
  let '(key, err) := FromBytes keyType x.1 in
  if negb (is_nil err) then mret err else
  key ← must key;
  err ← callback key x.2;
  if negb (is_nil err) then mret err else k key.

(** Visits all pairs of [l] in order, then continues with [k]. *)
Fixpoint walk (keyType : Key) (callback : CallerFn B W) (l : items) (k : M error) : M error :=
  match l with
  | [] => k
  | x :: l' => check_ctx (visit keyType callback x (λ _, walk keyType callback l' k))
  end.

(** [l] is walked as far as its keys follow each other without a gap. *)
Definition follows (keyType : Key) (a b : bytes * bytes) : bool :=
  match FromBytes keyType a.1, FromBytes keyType b.1 with
  | (Some ka, _), (Some kb, _) =>
      match Next ka with Some n => Equals n (Some kb) | None => false end
  | _, _ => false
  end.

(** The longest prefix of [l] in which each key is the [Next] of the one before. *)
Fixpoint run_from (keyType : Key) (prev : bytes * bytes) (l : items) : items * items :=
  match l with
  | [] => ([], [])
  | x :: l' =>
      if follows keyType prev x then
        let '(p, r) := run_from keyType x l' in (x :: p, r)
      else ([], l)
  end.
Definition gapless (keyType : Key) (l : items) : items * items :=
  match l with
  | [] => ([], [])
  | x :: l' => let '(p, r) := run_from keyType x l' in (x :: p, r)
  end.

(** The walk of [Range] with [stopAtNil]: the gapless prefix; when more follows, the
    context is checked once more before the gap is noticed. *)
Definition walk_gapless (keyType : Key) (callback : CallerFn B W) (l : items) : M error :=
  let '(p, r) := gapless keyType l in
  walk keyType callback p
    (match r with [] => mret ENil | _ :: _ => check_ctx (mret ENil) end).

(** All keys of [l] can be parsed as keys of [keyType]'s type and have a successor. *)
Definition walkable (keyType : Key) (x : bytes * bytes) : Prop :=
  ∃ k n, FromBytes keyType x.1 = (Some k, ENil) ∧ Next k = Some n.

Lemma gapless_app keyType l : l = (gapless keyType l).1 ++ (gapless keyType l).2.
Proof.
  assert (H : ∀ x l, l = (run_from keyType x l).1 ++ (run_from keyType x l).2).
  { intros x l0. revert x. induction l0 as [|y l0 IH]; intros x; [done|]. cbn.
    case_match; [|done]. specialize (IH y). destruct (run_from _ _ _); cbn in *. by rewrite <-IH. }
  destruct l as [|x l]; [done|]. cbn. specialize (H x l).
  destruct (run_from _ _ _); cbn in *. by rewrite <-H.
Qed.

(** *** Walks that are neither cancelled nor stopped *)

(** The callback applied to each pair in turn. *)
Fixpoint call_each (keyType : Key) (callback : CallerFn B W) (l : items) : M () :=
  match l with
  | [] => mret ()
  | x :: l' =>
      _ ← ctx_Err ctx;
      key ← must (FromBytes keyType x.1).1;
      _ ← callback key x.2;
      call_each keyType callback l'
  end.

Lemma check_ctx_live (k : M error) s :
  Err ctx (tick (world s)) = ENil →
  check_ctx k s = k (mkSt (back s) (tick (world s))).
Proof. intros E. unfold check_ctx, mbind, M_bind, ctx_Err. cbn. by rewrite E. Qed.

Lemma check_ctx_expired (k : M error) s :
  sticky ctx → Err ctx (tick (world s)) ≠ ENil →
  ∃ e s', check_ctx k s = (Return e, s') ∧ is_database_error e = true ∧ back s' = back s.
Proof.
  intros Hs E. apply Hs in E as E'. unfold check_ctx, mbind, M_bind, ctx_Err. cbn.
  apply is_nil_false in E. rewrite E. cbn. eexists _, _. split_and!; [done| |done].
  apply DatabaseError_database.
Qed.

(** If the context lives on, every key parses and the callback never fails, the walk
    calls it once for each pair, in order, and goes on. *)
Lemma walk_complete keyType callback l k s :
  (∀ w, Err ctx w = ENil) →
  Forall (λ x, ∃ key, FromBytes keyType x.1 = (Some key, ENil)) l →
  (∀ key v s, ∃ s', callback key v s = (Return ENil, s')) →
  walk keyType callback l k s = (_ ← call_each keyType callback l; k) s.
Proof.
  intros Hctx Hl Hcb. revert s. induction Hl as [|x l [key E] _ IH]; intros s; [done|].
  cbn [walk call_each]. rewrite check_ctx_live by done. unfold visit. rewrite E. cbn [is_nil negb].
  unfold must, mbind, M_bind, ctx_Err. cbn. destruct (Hcb key x.2 (mkSt (back s) (tick (world s))))
    as [s' Es]. rewrite Es. cbn. rewrite IH. done.
Qed.
End walk.
