(* ===== verification/Client.v ===== *)
(** Client programs of a [Writer], and the abstract key-value store they are written for:
    what a backend promises to them. *)
From S2P Require Import Prelude Errors Keys Go Store Shelf.

(** A callback that works on one shelf: a program of single-key operations that goes on
    according to their results and finally returns an error or nil. *)
Inductive client :=
  | c_return (e : error)
  | c_put (k : Key) (v : bytes) (next : error → client)
  | c_delete (k : Key) (next : error → client)
  | c_get (k : Key) (next : option bytes * error → client)
  | c_empty (next : bool * error → client).

(** The program run on a writer. *)
Fixpoint run_client {B W} (w : Writer B W) (c : client) : M B W error :=
  match c with
  | c_return e => mret e
  | c_put k v next => e ← Put w k v; run_client w (next e)
  | c_delete k next => e ← Delete w k; run_client w (next e)
  | c_get k next => r ← Get w k; run_client w (next r)
  | c_empty next => r ← Empty w; run_client w (next r)
  end.

(** The reference result of [Get]. *)
Definition get_result (k : Key) (it : items) : option bytes * error :=
  match items_lookup (Bytes k) it with
  | Some v => (Some v, ENil)
  | None => (None, ErrKeyNotFound)
  end.

(** What [Empty] says of a shelf that holds [it]: whether that is nothing. A store may promise
    so only as long as the shelf holds what it held when the transaction began, [stale]. *)
Definition empty_answer (stale : option items) (it : items) (b : bool) : Prop :=
  stale = None ∨ stale = Some it → b = bool_decide (it = []).

Lemma empty_answer_exact stale it : empty_answer stale it (bool_decide (it = [])).
Proof. by intros _. Qed.
Lemma empty_answer_None it b : empty_answer None it b ↔ b = bool_decide (it = []).
Proof. split; [intros H; apply H; by left|by intros -> _]. Qed.

Section client_spec.
(** The errors with which a write, and a read, may fail; and, if the store promises nothing of
    [Empty] for a shelf that the transaction has changed, what it held at the begin. *)
Context (write_fails read_fails : error → Prop) (stale : option items).

(** The abstract store: the shelf is a sorted list of pairs; every operation acts on it
    as the reference operation does, or fails without effect.
    [client_spec c it e it']: on [it], [c] may return [e] and leave [it']. *)
Inductive client_spec : client → items → error → items → Prop :=
  | spec_return e it : client_spec (c_return e) it e it
  | spec_put k v next it e it' :
      client_spec (next ENil) (items_insert (Bytes k) v it) e it' →
      client_spec (c_put k v next) it e it'
  | spec_put_fails k v next it err e it' :
      err ≠ ENil → write_fails err → client_spec (next err) it e it' →
      client_spec (c_put k v next) it e it'
  | spec_delete k next it e it' :
      client_spec (next ENil) (items_delete (Bytes k) it) e it' →
      client_spec (c_delete k next) it e it'
  | spec_delete_fails k next it err e it' :
      err ≠ ENil → write_fails err → client_spec (next err) it e it' →
      client_spec (c_delete k next) it e it'
  | spec_get k next it e it' :
      client_spec (next (get_result k it)) it e it' →
      client_spec (c_get k next) it e it'
  | spec_get_fails k next it err e it' :
      err ≠ ENil → read_fails err → client_spec (next (None, err)) it e it' →
      client_spec (c_get k next) it e it'
  | spec_empty next it b e it' :
      empty_answer stale it b → client_spec (next (b, ENil)) it e it' →
      client_spec (c_empty next) it e it'.

(** The interface between a backend and its clients: in states where the writer is backed
    by the pairs [it], each operation acts as the reference does, or fails as the abstract
    store may, and [frame] relates the states before and after. *)
Class Backed {B W} (w : Writer B W) (backed : St B W → items → Prop)
    (frame : St B W → St B W → Prop) := {
  frame_preorder : PreOrder frame;
  backed_get k it s : backed s it → ∃ r s',
    Get w k s = (Return r, s') ∧ backed s' it ∧ frame s s' ∧
    (r = get_result k it ∨ ∃ err, err ≠ ENil ∧ read_fails err ∧ r = (None, err));
  backed_empty it s : backed s it → ∃ b s',
    Empty w s = (Return (b, ENil), s') ∧ backed s' it ∧ frame s s' ∧ empty_answer stale it b;
  backed_put k x it s : backed s it → ∃ e s',
    Put w k x s = (Return e, s') ∧ frame s s' ∧
    ((e = ENil ∧ backed s' (items_insert (Bytes k) x it)) ∨
     (e ≠ ENil ∧ write_fails e ∧ backed s' it));
  backed_delete k it s : backed s it → ∃ e s',
    Delete w k s = (Return e, s') ∧ frame s s' ∧
    ((e = ENil ∧ backed s' (items_delete (Bytes k) it)) ∨
     (e ≠ ENil ∧ write_fails e ∧ backed s' it))
}.

(** A backed writer runs every client program to its end, as the abstract store allows. *)
Lemma run_client_refines {B W} (w : Writer B W) backed frame `{!Backed w backed frame} c it s :
  backed s it →
  ∃ e s' it', run_client w c s = (Return e, s') ∧ client_spec c it e it' ∧ backed s' it' ∧
    frame s s'.
Proof.
  pose proof (frame_preorder (Backed := Backed0)) as HP.
  assert (HK : ∀ c' it1 it2 e s s1, frame s s1 →
    (∃ e2 s2 it', run_client w c' s1 = (Return e2, s2) ∧ client_spec c' it1 e2 it' ∧
      backed s2 it' ∧ frame s1 s2) →
    (∀ e2 it', client_spec c' it1 e2 it' → client_spec e it2 e2 it') →
    ∃ e2 s2 it', run_client w c' s1 = (Return e2, s2) ∧ client_spec e it2 e2 it' ∧
      backed s2 it' ∧ frame s s2).
  { intros c' it1 it2 e s0 s1 Hf (e2 & s2 & it' & E & Hs & Hb & Hf2) Hc.
    exists e2, s2, it'. split_and!; [done|by apply Hc|done|by etrans]. }
  revert it s. induction c as [e|k v next IH|k next IH|k next IH|next IH]; intros it s Hb;
    cbn [run_client].
  - exists e, s, it. split_and!; [done|constructor|done|reflexivity].
  - destruct (backed_put k v it s Hb) as (err & s1 & E & Hf & Hc); rewrite (bind_Return _ _ _ _ _ E).
    destruct Hc as [[-> Hb1]|(Hn & Hd & Hb1)]; (eapply HK; [exact Hf|by apply IH|]);
      intros; by econstructor.
  - destruct (backed_delete k it s Hb) as (err & s1 & E & Hf & Hc); rewrite (bind_Return _ _ _ _ _ E).
    destruct Hc as [[-> Hb1]|(Hn & Hd & Hb1)]; (eapply HK; [exact Hf|by apply IH|]);
      intros; by econstructor.
  - destruct (backed_get k it s Hb) as (r & s1 & E & Hb1 & Hf & Hc); rewrite (bind_Return _ _ _ _ _ E).
    destruct Hc as [->|(err & Hn & Hd & ->)]; (eapply HK; [exact Hf|by apply IH|]);
      intros; by econstructor.
  - destruct (backed_empty it s Hb) as (b & s1 & E & Hb1 & Hf & Ha); rewrite (bind_Return _ _ _ _ _ E).
    eapply HK; [exact Hf|by apply IH|]. intros. by econstructor.
Qed.
End client_spec.

(** Client programs keep the pairs sorted. *)
Lemma client_spec_sorted wf rf st c it e it' :
  client_spec wf rf st c it e it' → sorted it → sorted it'.
Proof. induction 1; auto with shelf. Qed.

(** A writer on which everything fails runs every program without touching the state. *)
Lemma run_client_errWriter {B W} err c (s : St B W) :
  ∃ e, run_client (NewErrorWriter err) c s = (Return e, s).
Proof.
  induction c as [e|k v next IH|k next IH|k next IH|next IH]; [by exists e|..];
    destruct (IH (DatabaseError err)) || destruct (IH (None, DatabaseError err)) ||
    destruct (IH (false, DatabaseError err)); eauto.
Qed.

(** What a program returns when every operation fails with [err]. *)
Fixpoint result_on_error (err : error) (c : client) : error :=
  match c with
  | c_return e => e
  | c_put k v next => result_on_error err (next err)
  | c_delete k next => result_on_error err (next err)
  | c_get k next => result_on_error err (next (None, err))
  | c_empty next => result_on_error err (next (false, err))
  end.

Lemma run_client_on_error {B W} err c (s : St B W) :
  run_client (NewErrorWriter err) c s = (Return (result_on_error (DatabaseError err) c), s).
Proof.
  by induction c as [e|k v next IH|k next IH|k next IH|next IH]; [|exact (IH _)..].
Qed.

(** A program that returns nil although its shelf could not be opened. *)
Definition ignores_errors (c : client) : Prop :=
  ∃ err, is_database_error err = true ∧ result_on_error err c = ENil.

(** ** Queries: programs of a [Reader] *)

Inductive query :=
  | q_return (e : error)
  | q_get (k : Key) (next : option bytes * error → query)
  | q_empty (next : bool * error → query).

Fixpoint run_query {B W} (r : Reader B W) (q : query) : M B W error :=
  match q with
  | q_return e => mret e
  | q_get k next => x ← Get r k; run_query r (next x)
  | q_empty next => x ← Empty r; run_query r (next x)
  end.

(** What a query may return when the shelf holds the pairs [it]. *)
Inductive query_spec (read_fails : error → Prop) (it : items) : query → error → Prop :=
  | qs_return e : query_spec read_fails it (q_return e) e
  | qs_get k next e :
      query_spec read_fails it (next (get_result k it)) e → query_spec read_fails it (q_get k next) e
  | qs_get_fails k next err e :
      err ≠ ENil → read_fails err → query_spec read_fails it (next (None, err)) e →
      query_spec read_fails it (q_get k next) e
  | qs_empty next e :
      query_spec read_fails it (next (bool_decide (it = []), ENil)) e →
      query_spec read_fails it (q_empty next) e.

(** The interface between a backend and its queries: what a reader promises in states where
    it serves the pairs [it]. *)
Class Serves (read_fails : error → Prop) {B W} (r : Reader B W) (serving : St B W → items → Prop)
    (frame : St B W → St B W → Prop) := {
  serves_preorder : PreOrder frame;
  serves_get k it s : serving s it → ∃ x s',
    Get r k s = (Return x, s') ∧ serving s' it ∧ frame s s' ∧
    (x = get_result k it ∨ ∃ err, err ≠ ENil ∧ read_fails err ∧ x = (None, err));
  serves_empty it s : serving s it → ∃ s',
    Empty r s = (Return (bool_decide (it = []), ENil), s') ∧ serving s' it ∧ frame s s'
}.

(** A backed writer is a reader that serves the same pairs. *)
#[global] Instance Backed_Serves wf rf {B W} (w : Writer B W) backed frame :
  Backed wf rf None w backed frame → Serves rf w backed frame.
Proof.
  intros [HP HG HE _ _]. split; [done|done|]. intros it s Hs.
  destruct (HE it s Hs) as (b & s' & E & Hb & Hf & ->%empty_answer_None). by exists s'.
Qed.

Lemma run_query_refines rf {B W} (r : Reader B W) serving frame `{!Serves rf r serving frame}
    q it s :
  serving s it →
  ∃ e s', run_query r q s = (Return e, s') ∧ query_spec rf it q e ∧ serving s' it ∧ frame s s'.
Proof.
  pose proof (serves_preorder (Serves := Serves0)) as HP. revert s.
  induction q as [e|k next IH|next IH]; intros s Hs; cbn [run_query].
  - exists e, s. split_and!; [done|constructor|done|reflexivity].
  - destruct (serves_get k it s Hs) as (x & s1 & E & Hs1 & Hf & HC).
    rewrite (bind_Return _ _ _ _ _ E). destruct (IH x s1 Hs1) as (e & s2 & E2 & Hq & Hs2 & Hf2).
    exists e, s2. split_and!; [done| |done|by etrans].
    destruct HC as [->|(err & Hn & Hr & ->)]; by econstructor.
  - destruct (serves_empty it s Hs) as (s1 & E & Hs1 & Hf).
    rewrite (bind_Return _ _ _ _ _ E). destruct (IH (bool_decide (it = []), ENil) s1 Hs1)
      as (e & s2 & E2 & Hq & Hs2 & Hf2).
    exists e, s2. split_and!; [done| |done|by etrans]. by econstructor.
Qed.

(** ** One operation at a time *)

(** The next operation of a program: it is over with a result, or goes on. *)
Definition client_step {B W} (w : Writer B W) (c : client) : M B W (error + client) :=
  match c with
  | c_return e => mret (inl e)
  | c_put k v next => e ← Put w k v; mret (inr (next e))
  | c_delete k next => e ← Delete w k; mret (inr (next e))
  | c_get k next => r ← Get w k; mret (inr (next r))
  | c_empty next => r ← Empty w; mret (inr (next r))
  end.

Definition query_step {B W} (r : Reader B W) (q : query) : M B W (error + query) :=
  match q with
  | q_return e => mret (inl e)
  | q_get k next => x ← Get r k; mret (inr (next x))
  | q_empty next => x ← Empty r; mret (inr (next x))
  end.

Lemma run_client_step {B W} (w : Writer B W) c (s : St B W) :
  run_client w c s =
    (x ← client_step w c; match x with inl e => mret e | inr c' => run_client w c' end) s.
Proof.
  destruct c; cbn [run_client client_step]; rewrite ?bind_assoc; try done;
    by apply bind_ext.
Qed.

Lemma run_query_step {B W} (r : Reader B W) q (s : St B W) :
  run_query r q s =
    (x ← query_step r q; match x with inl e => mret e | inr q' => run_query r q' end) s.
Proof.
  destruct q; cbn [run_query query_step]; rewrite ?bind_assoc; try done; by apply bind_ext.
Qed.

(** What one operation of a program does on a backed writer: the rest of the program, run
    from the new pairs, completes a run of the program. *)
Lemma client_step_refines wf rf st {B W} (w : Writer B W) backed frame
    `{!Backed wf rf st w backed frame} c it s :
  backed s it →
  ∃ x s' it', client_step w c s = (Return x, s') ∧ backed s' it' ∧ frame s s' ∧
    match x with
    | inl e => client_spec wf rf st c it e it'
    | inr c' => ∀ e it'', client_spec wf rf st c' it' e it'' → client_spec wf rf st c it e it''
    end.
Proof.
  pose proof (frame_preorder wf rf st (Backed := Backed0)) as HP. intros Hb.
  destruct c as [e|k v next|k next|k next|next]; cbn [client_step].
  - exists (inl e), s, it. split_and!; [done|done|reflexivity|constructor].
  - destruct (backed_put wf rf st k v it s Hb) as (err & s1 & E & Hf & Hc); rewrite (bind_Return _ _ _ _ _ E).
    destruct Hc as [[-> Hb1]|(Hn & Hd & Hb1)]; eexists _, _, _; (split_and!; [done..|]);
      intros; by econstructor.
  - destruct (backed_delete wf rf st k it s Hb) as (err & s1 & E & Hf & Hc); rewrite (bind_Return _ _ _ _ _ E).
    destruct Hc as [[-> Hb1]|(Hn & Hd & Hb1)]; eexists _, _, _; (split_and!; [done..|]);
      intros; by econstructor.
  - destruct (backed_get wf rf st k it s Hb) as (r & s1 & E & Hb1 & Hf & Hc); rewrite (bind_Return _ _ _ _ _ E).
    destruct Hc as [->|(err & Hn & Hd & ->)]; eexists _, _, _; (split_and!; [done..|]);
      intros; by econstructor.
  - destruct (backed_empty wf rf st it s Hb) as (b & s1 & E & Hb1 & Hf & Ha); rewrite (bind_Return _ _ _ _ _ E).
    eexists _, _, _; (split_and!; [done..|]). intros; by econstructor.
Qed.

Lemma query_step_refines rf {B W} (r : Reader B W) serving frame `{!Serves rf r serving frame}
    q it s :
  serving s it →
  ∃ x s', query_step r q s = (Return x, s') ∧ serving s' it ∧ frame s s' ∧
    match x with
    | inl e => query_spec rf it q e
    | inr q' => ∀ e, query_spec rf it q' e → query_spec rf it q e
    end.
Proof.
  pose proof (serves_preorder (Serves := Serves0)) as HP. intros Hs.
  destruct q as [e|k next|next]; cbn [query_step].
  - exists (inl e), s. split_and!; [done|done|reflexivity|constructor].
  - destruct (serves_get k it s Hs) as (x & s1 & E & Hs1 & Hf & HC).
    rewrite (bind_Return _ _ _ _ _ E). eexists _, _. split_and!; [done..|].
    destruct HC as [->|(err & Hn & Hr & ->)]; intros; by econstructor.
  - destruct (serves_empty it s Hs) as (s1 & E & Hs1 & Hf).
    rewrite (bind_Return _ _ _ _ _ E). eexists _, _. split_and!; [done..|].
    intros; by econstructor.
Qed.

(** On a writer that always fails, an operation does not touch the state, and the rest of
    the program has the result of the whole. *)
Lemma client_step_errWriter {B W} err c (s : St B W) :
  ∃ x, client_step (NewErrorWriter err) c s = (Return x, s) ∧
    ∀ s' : St B W, run_client (NewErrorWriter err) c s' =
      match x with inl e => (Return e, s') | inr c' => run_client (NewErrorWriter err) c' s' end.
Proof. destruct c; by eexists. Qed.

(** ** What an operation of a program leaves alone *)

Section keeps.
Context {B W : Type} (R : relation (St B W)) `{!PreOrder R}.

(** Each operation of the writer, and of the reader, keeps [R]. *)
Definition reader_keeps (r : Reader B W) : Prop := (∀ k, keeps R (Get r k)) ∧ keeps R (Empty r).
Definition writer_keeps (w : Writer B W) : Prop :=
  (∀ k v, keeps R (Put w k v)) ∧ (∀ k, keeps R (Delete w k)) ∧ reader_keeps w.

Lemma keeps_client_step w c : writer_keeps w → keeps R (client_step w c).
Proof.
  intros (HP & HD & HG & HE). destruct c; cbn [client_step];
    [apply keeps_ret, _|apply keeps_bind; [apply _|auto|intros; apply keeps_ret, _]..].
Qed.
Lemma keeps_query_step r q : reader_keeps r → keeps R (query_step r q).
Proof.
  intros (HG & HE). destruct q; cbn [query_step];
    [apply keeps_ret, _|apply keeps_bind; [apply _|auto|intros; apply keeps_ret, _]..].
Qed.
Lemma keeps_run_client w c : writer_keeps w → keeps R (run_client w c).
Proof.
  intros (HP & HD & HG & HE). induction c; cbn [run_client];
    [apply keeps_ret, _|apply keeps_bind; [apply _|auto|auto]..].
Qed.
Lemma keeps_run_query r q : reader_keeps r → keeps R (run_query r q).
Proof.
  intros (HG & HE). induction q; cbn [run_query];
    [apply keeps_ret, _|apply keeps_bind; [apply _|auto|auto]..].
Qed.
Lemma errWriter_keeps err : writer_keeps (NewErrorWriter err).
Proof. unfold writer_keeps, reader_keeps. split_and!; intros; apply keeps_ret, _. Qed.
Lemma NilReader_keeps : reader_keeps NilReader.
Proof. split; intros; apply keeps_ret, _. Qed.
End keeps.
