(* ===== verification/Program.v ===== *)
(** Programs of a [WriteTx] and of a [ReadTx], which work on several shelves in one
    transaction, and what a backend promises to them. *)
From S2P Require Import Prelude Errors Keys Go Store Shelf Client.

(** The pairs of every shelf; a shelf that does not exist has none. *)
Definition shelves : Type := bytes → items.
Definition set_shelf (n : bytes) (it : items) (σ : shelves) : shelves :=
  λ m, if bool_decide (m = n) then it else σ m.

(** The same pairs in the shelves [names]. *)
Definition same_on (names : bytes → Prop) (σ1 σ2 : shelves) : Prop := ∀ n, names n → σ1 n = σ2 n.
#[global] Instance same_on_equivalence names : Equivalence (same_on names).
Proof.
  split.
  - by intros σ n.
  - intros σ1 σ2 H n Hn. symmetry. auto.
  - intros σ1 σ2 σ3 H1 H2 n Hn. by rewrite H1, H2.
Qed.
#[global] Instance set_shelf_proper names n it :
  Proper (same_on names ==> same_on names) (set_shelf n it).
Proof. intros σ1 σ2 H m Hm. unfold set_shelf. case_bool_decide; auto. Qed.

(** ** Programs *)

(** A callback of [Write]: single-key operations on shelves, given by their names. *)
Inductive program :=
  | p_return (e : error)
  | p_put (n : bytes) (k : Key) (v : bytes) (next : error → program)
  | p_delete (n : bytes) (k : Key) (next : error → program)
  | p_get (n : bytes) (k : Key) (next : option bytes * error → program)
  | p_empty (n : bytes) (next : bool * error → program).

(** A callback of [Read]. *)
Inductive inquiry :=
  | i_return (e : error)
  | i_get (n : bytes) (k : Key) (next : option bytes * error → inquiry)
  | i_empty (n : bytes) (next : bool * error → inquiry).

(** The shelves a program, and an inquiry, uses are among [names]. *)
Fixpoint program_on (names : bytes → Prop) (p : program) : Prop :=
  match p with
  | p_return _ => True
  | p_put n _ _ next | p_delete n _ next => names n ∧ ∀ e, program_on names (next e)
  | p_get n _ next => names n ∧ ∀ x, program_on names (next x)
  | p_empty n next => names n ∧ ∀ x, program_on names (next x)
  end.
Fixpoint inquiry_on (names : bytes → Prop) (i : inquiry) : Prop :=
  match i with
  | i_return _ => True
  | i_get n _ next => names n ∧ ∀ x, inquiry_on names (next x)
  | i_empty n next => names n ∧ ∀ x, inquiry_on names (next x)
  end.

Section run.
Context {B W : Type}.
Abbreviation M := (M B W).

(** The writer of a shelf is asked for when it is first used, and kept. *)
Definition writer_of (t : WriteTx B W) (ws : gmap bytes (Writer B W)) (n : bytes) :
    M (Writer B W * gmap bytes (Writer B W)) :=
  match ws !! n with
  | Some w => mret (w, ws)
  | None => w ← GetShelfWriter t n; mret (w, <[n := w]> ws)
  end.

Fixpoint run_program (t : WriteTx B W) (ws : gmap bytes (Writer B W)) (p : program) : M error :=
  match p with
  | p_return e => mret e
  | p_put n k v next =>
      x ← writer_of t ws n; e ← Put x.1 k v; run_program t x.2 (next e)
  | p_delete n k next =>
      x ← writer_of t ws n; e ← Delete x.1 k; run_program t x.2 (next e)
  | p_get n k next =>
      x ← writer_of t ws n; r ← Get (as_reader x.1) k; run_program t x.2 (next r)
  | p_empty n next =>
      x ← writer_of t ws n; r ← Empty (as_reader x.1); run_program t x.2 (next r)
  end.

Definition reader_of (t : ReadTx B W) (rs : gmap bytes (Reader B W)) (n : bytes) :
    M (Reader B W * gmap bytes (Reader B W)) :=
  match rs !! n with
  | Some r => mret (r, rs)
  | None => r ← GetShelfReader t n; mret (r, <[n := r]> rs)
  end.

Fixpoint run_inquiry (t : ReadTx B W) (rs : gmap bytes (Reader B W)) (i : inquiry) : M error :=
  match i with
  | i_return e => mret e
  | i_get n k next => x ← reader_of t rs n; r ← Get x.1 k; run_inquiry t x.2 (next r)
  | i_empty n next => x ← reader_of t rs n; r ← Empty x.1; run_inquiry t x.2 (next r)
  end.
End run.

(** ** One operation at a time *)

Section operations.
Context {B W : Type}.
Implicit Types (t : WriteTx B W) (r : ReadTx B W).
Abbreviation M := (M B W).
Abbreviation writers := (gmap bytes (Writer B W)).
Abbreviation readers := (gmap bytes (Reader B W)).

(** The next operation of a program is on the shelf [n]: if the program has no writer of it
    yet, it asks for one. *)
Definition on_writer t (ws : writers) (n : bytes) (p : program) (op : Writer B W → M program) :
    M (error + writers * program) :=
  match ws !! n with
  | Some w => p' ← op w; mret (inr (ws, p'))
  | None => w ← GetShelfWriter t n; mret (inr (<[n := w]> ws, p))
  end.

Definition program_step t (ws : writers) (p : program) : M (error + writers * program) :=
  match p with
  | p_return e => mret (inl e)
  | p_put n k v next => on_writer t ws n p (λ w, e ← Put w k v; mret (next e))
  | p_delete n k next => on_writer t ws n p (λ w, e ← Delete w k; mret (next e))
  | p_get n k next => on_writer t ws n p (λ w, r ← Get (as_reader w) k; mret (next r))
  | p_empty n next => on_writer t ws n p (λ w, r ← Empty (as_reader w); mret (next r))
  end.

Definition on_reader r (rs : readers) (n : bytes) (i : inquiry) (op : Reader B W → M inquiry) :
    M (error + readers * inquiry) :=
  match rs !! n with
  | Some x => i' ← op x; mret (inr (rs, i'))
  | None => x ← GetShelfReader r n; mret (inr (<[n := x]> rs, i))
  end.

Definition inquiry_step r (rs : readers) (i : inquiry) : M (error + readers * inquiry) :=
  match i with
  | i_return e => mret (inl e)
  | i_get n k next => on_reader r rs n i (λ x, y ← Get x k; mret (next y))
  | i_empty n next => on_reader r rs n i (λ x, y ← Empty x; mret (next y))
  end.

(** The shelf of a program's next operation. *)
Definition program_shelf (p : program) : option bytes :=
  match p with
  | p_return _ => None
  | p_put n _ _ _ | p_delete n _ _ | p_get n _ _ | p_empty n _ => Some n
  end.

(** The operations, one after the other, are the program. *)
Lemma run_program_step t ws p s :
  run_program t ws p s =
    (x ← program_step t ws p;
     match x with inl e => mret e | inr (ws', p') => run_program t ws' p' end) s.
Proof.
  destruct p as [e|n k v next|n k next|n k next|n next]; [done|..];
    cbn [run_program program_step]; unfold writer_of, on_writer;
    destruct (ws !! n) as [w|] eqn:Ew; rewrite ?bind_ret, !bind_assoc;
    apply bind_ext; intros x s1; rewrite ?bind_ret; cbn [run_program fst snd]; try done;
    unfold writer_of; by rewrite lookup_insert_eq, bind_ret.
Qed.

Lemma run_inquiry_step r rs i s :
  run_inquiry r rs i s =
    (x ← inquiry_step r rs i;
     match x with inl e => mret e | inr (rs', i') => run_inquiry r rs' i' end) s.
Proof.
  destruct i as [e|n k next|n next]; [done|..];
    cbn [run_inquiry inquiry_step]; unfold reader_of, on_reader;
    destruct (rs !! n) as [w|] eqn:Ew; rewrite ?bind_ret, !bind_assoc;
    apply bind_ext; intros x s1; rewrite ?bind_ret; cbn [run_inquiry fst snd]; try done;
    unfold reader_of; by rewrite lookup_insert_eq, bind_ret.
Qed.

(** What holds of a program if it holds of what its next operation leaves, holds of all. *)
Lemma program_step_ind t (P : writers → program → Prop) :
  (∀ ws p, (∀ s ws' p' s', program_step t ws p s = (Return (inr (ws', p')), s') → P ws' p') →
     P ws p) →
  ∀ ws p, P ws p.
Proof.
  intros HP ws p.
  assert (HO : ∀ n p op, (∀ ws, program_step t ws p = on_writer t ws n p op) →
    (∀ w s p' s' ws, op w s = (Return p', s') → P ws p') → ∀ ws, P ws p).
  { intros n q op Eq IH. assert (HK : ∀ ws, is_Some (ws !! n) → P ws q).
    { intros ws1 [w Ew]. apply HP. intros s ws' p' s' E. rewrite Eq in E. unfold on_writer in E.
      rewrite Ew in E. apply bind_inv in E as (a & s1 & E & [= <- <- _]). by eapply IH. }
    intros ws1. apply HP. intros s ws' p' s' E. rewrite Eq in E. unfold on_writer in E.
    destruct (ws1 !! n) as [w|]; apply bind_inv in E as (a & s1 & E & [= <- <- _]); [by eapply IH|].
    apply HK. by rewrite lookup_insert_eq. }
  revert ws. induction p as [e|n k v next IH|n k next IH|n k next IH|n next IH]; intros ws.
  1: by apply HP.
  all: eapply HO; [by intros|]; intros w s p' s' ws' E;
    apply bind_inv in E as (a & s1 & _ & [= <- _]); apply IH.
Qed.

Lemma inquiry_step_ind r (P : readers → inquiry → Prop) :
  (∀ rs i, (∀ s rs' i' s', inquiry_step r rs i s = (Return (inr (rs', i')), s') → P rs' i') →
     P rs i) →
  ∀ rs i, P rs i.
Proof.
  intros HP rs i.
  assert (HO : ∀ n i op, (∀ rs, inquiry_step r rs i = on_reader r rs n i op) →
    (∀ w s i' s' rs, op w s = (Return i', s') → P rs i') → ∀ rs, P rs i).
  { intros n q op Eq IH. assert (HK : ∀ rs, is_Some (rs !! n) → P rs q).
    { intros rs1 [w Ew]. apply HP. intros s rs' i' s' E. rewrite Eq in E. unfold on_reader in E.
      rewrite Ew in E. apply bind_inv in E as (a & s1 & E & [= <- <- _]). by eapply IH. }
    intros rs1. apply HP. intros s rs' i' s' E. rewrite Eq in E. unfold on_reader in E.
    destruct (rs1 !! n) as [w|]; apply bind_inv in E as (a & s1 & E & [= <- <- _]); [by eapply IH|].
    apply HK. by rewrite lookup_insert_eq. }
  revert rs. induction i as [e|n k next IH|n next IH]; intros rs.
  1: by apply HP.
  all: eapply HO; [by intros|]; intros w s i' s' rs' E;
    apply bind_inv in E as (a & s1 & _ & [= <- _]); apply IH.
Qed.

(** What an operation leaves alone: what the opening of shelves does, and the operations of
    the writers and readers at hand. *)
Section keeps.
Context (R : relation (St B W)) `{!PreOrder R}.

Lemma keeps_program_step t ws p :
  (∀ n, keeps R (GetShelfWriter t n)) → (∀ n w, ws !! n = Some w → writer_keeps R w) →
  keeps R (program_step t ws p).
Proof.
  intros Ho Hw.
  assert (HO : ∀ n op, (∀ w, writer_keeps R w → keeps R (op w)) → keeps R (on_writer t ws n p op)).
  { intros n op Hop. unfold on_writer. destruct (ws !! n) as [w|] eqn:Ew;
      (apply keeps_bind; [apply _|eauto|]); intros; apply keeps_ret, _. }
  destruct p; cbn [program_step]; [apply keeps_ret, _|..];
    apply HO; intros w (HP & HD & HG & HE); (apply keeps_bind; [apply _|auto|]);
    intros; apply keeps_ret, _.
Qed.

Lemma keeps_inquiry_step r rs i :
  (∀ n, keeps R (GetShelfReader r n)) → (∀ n x, rs !! n = Some x → reader_keeps R x) →
  keeps R (inquiry_step r rs i).
Proof.
  intros Ho Hw.
  assert (HO : ∀ n op, (∀ x, reader_keeps R x → keeps R (op x)) → keeps R (on_reader r rs n i op)).
  { intros n op Hop. unfold on_reader. destruct (rs !! n) as [x|] eqn:Ex;
      (apply keeps_bind; [apply _|eauto|]); intros; apply keeps_ret, _. }
  destruct i; cbn [inquiry_step]; [apply keeps_ret, _|..];
    apply HO; intros x (HG & HE); (apply keeps_bind; [apply _|auto|]);
    intros; apply keeps_ret, _.
Qed.
End keeps.
End operations.

Lemma program_on_all p : program_on (λ _, True) p.
Proof. induction p; cbn; auto. Qed.
Lemma inquiry_on_all i : inquiry_on (λ _, True) i.
Proof. induction i; cbn; auto. Qed.

(** ** The abstract store *)

Section spec.
(** The errors with which a shelf may fail to open, a write, and a read; and, if the store
    promises nothing of [Empty] for a shelf that the transaction has changed, the shelves at its
    begin. *)
Context (open_fails write_fails read_fails : error → Prop) (stale : option shelves).

(** The shelves a transaction has used: opened, or failing with an error. *)
Abbreviation handles := (gmap bytes (option error)).

(** The use of the shelf [n]: it has been used before; it is opened; it fails to open. *)
Inductive uses (n : bytes) (h : handles) : handles → option error → Prop :=
  | uses_known r : h !! n = Some r → uses n h h r
  | uses_opened : h !! n = None → uses n h (<[n := None]> h) None
  | uses_failed err :
      h !! n = None → open_fails err → uses n h (<[n := Some err]> h) (Some err).

(** The results of the operations on a shelf that holds [it]; a write makes of it [it']. *)
Definition writes (r : option error) (it new : items) (e : error) (it' : items) : Prop :=
  match r with
  | Some err => e = err ∧ it' = it
  | None => (e = ENil ∧ it' = new) ∨ (e ≠ ENil ∧ write_fails e ∧ it' = it)
  end.
Definition gets (r : option error) (k : Key) (it : items) (x : option bytes * error) : Prop :=
  match r with
  | Some err => x = (None, err)
  | None => x = get_result k it ∨ ∃ err, err ≠ ENil ∧ read_fails err ∧ x = (None, err)
  end.
Definition empties (n : bytes) (r : option error) (it : items) (x : bool * error) : Prop :=
  match r with
  | Some err => x = (false, err)
  | None => ∃ b, x = (b, ENil) ∧ empty_answer ((λ σ, σ n) <$> stale) it b
  end.

(** On the shelves [σ], a program may return [e] and leave [σ']. *)
Inductive program_spec : handles → shelves → program → error → shelves → Prop :=
  | ps_return h σ e : program_spec h σ (p_return e) e σ
  | ps_put n k v next h σ h' r e it e' σ' :
      uses n h h' r → writes r (σ n) (items_insert (Bytes k) v (σ n)) e it →
      program_spec h' (set_shelf n it σ) (next e) e' σ' →
      program_spec h σ (p_put n k v next) e' σ'
  | ps_delete n k next h σ h' r e it e' σ' :
      uses n h h' r → writes r (σ n) (items_delete (Bytes k) (σ n)) e it →
      program_spec h' (set_shelf n it σ) (next e) e' σ' →
      program_spec h σ (p_delete n k next) e' σ'
  | ps_get n k next h σ h' r x e' σ' :
      uses n h h' r → gets r k (σ n) x → program_spec h' σ (next x) e' σ' →
      program_spec h σ (p_get n k next) e' σ'
  | ps_empty n next h σ h' r x e' σ' :
      uses n h h' r → empties n r (σ n) x → program_spec h' σ (next x) e' σ' →
      program_spec h σ (p_empty n next) e' σ'.

(** What an inquiry may return: a shelf that does not exist reads as an empty one. *)
Inductive inquiry_spec (σ : shelves) : inquiry → error → Prop :=
  | is_return e : inquiry_spec σ (i_return e) e
  | is_get n k next x e :
      gets None k (σ n) x → inquiry_spec σ (next x) e → inquiry_spec σ (i_get n k next) e
  | is_empty n next e :
      inquiry_spec σ (next (bool_decide (σ n = []), ENil)) e →
      inquiry_spec σ (i_empty n next) e.

(** A shelf that has been used is used again as it was. *)
Lemma program_spec_used n p h σ h' r e σ' :
  uses n h h' r → program_shelf p = Some n → program_spec h' σ p e σ' → program_spec h σ p e σ'.
Proof.
  intros Hu Hn Hp.
  assert (HK : ∀ h2 r', uses n h' h2 r' → h2 = h' ∧ r' = r).
  { assert (E : h' !! n = Some r) by (destruct Hu; by rewrite ?lookup_insert_eq).
    intros h2 r' H2. destruct H2; by simplify_eq. }
  inversion Hp; subst; cbn in Hn; simplify_eq;
    match goal with H : uses _ h' _ _ |- _ => apply HK in H as [-> ->] end; by econstructor.
Qed.

(** ** The interfaces *)

(** What the transaction handed to a callback of [Write] promises for the shelves [names] in
    states in which it is [backed] by [σ]: a writer it hands out for a shelf is a [handle], and
    stays one while the transaction is used. *)
Class OpensTx {B W} (t : WriteTx B W) (names : bytes → Prop) (backed : St B W → shelves → Prop)
    (handle : St B W → bytes → option error → Writer B W → Prop)
    (frame : St B W → St B W → Prop) := {
  openstx_preorder : PreOrder frame;
  openstx_handle n r w s s' : frame s s' → handle s n r w → handle s' n r w;
  openstx_open n σ s : names n → backed s σ → ∃ w r s',
    GetShelfWriter t n s = (Return w, s') ∧ backed s' σ ∧ frame s s' ∧ handle s' n r w ∧
    ∀ err, r = Some err → open_fails err
}.

(** And what the operations of its writers do. *)
Class BackedTx {B W} (t : WriteTx B W) (names : bytes → Prop) (backed : St B W → shelves → Prop)
    (handle : St B W → bytes → option error → Writer B W → Prop)
    (frame : St B W → St B W → Prop) := {
  #[global] backedtx_opens :: OpensTx t names backed handle frame;
  backedtx_get n r w k σ s : names n → backed s σ → handle s n r w → ∃ x s',
    Get w k s = (Return x, s') ∧ backed s' σ ∧ frame s s' ∧ gets r k (σ n) x;
  backedtx_empty n r w σ s : names n → backed s σ → handle s n r w → ∃ x s',
    Empty w s = (Return x, s') ∧ backed s' σ ∧ frame s s' ∧ empties n r (σ n) x;
  backedtx_put n r w k v σ s : names n → backed s σ → handle s n r w → ∃ e it s',
    Put w k v s = (Return e, s') ∧ backed s' (set_shelf n it σ) ∧ frame s s' ∧
    writes r (σ n) (items_insert (Bytes k) v (σ n)) e it;
  backedtx_delete n r w k σ s : names n → backed s σ → handle s n r w → ∃ e it s',
    Delete w k s = (Return e, s') ∧ backed s' (set_shelf n it σ) ∧ frame s s' ∧
    writes r (σ n) (items_delete (Bytes k) (σ n)) e it
}.

(** What the transaction of a callback of [Read] promises while it shows [σ]. *)
Class ServesTx {B W} (t : ReadTx B W) (names : bytes → Prop) (serving : St B W → shelves → Prop)
    (handle : bytes → Reader B W → Prop) (frame : St B W → St B W → Prop) := {
  servestx_preorder : PreOrder frame;
  servestx_open n σ s : names n → serving s σ → ∃ r s',
    GetShelfReader t n s = (Return r, s') ∧ serving s' σ ∧ frame s s' ∧ handle n r;
  servestx_get n r k σ s : names n → serving s σ → handle n r → ∃ x s',
    Get r k s = (Return x, s') ∧ serving s' σ ∧ frame s s' ∧ gets None k (σ n) x;
  servestx_empty n r σ s : names n → serving s σ → handle n r → ∃ s',
    Empty r s = (Return (bool_decide (σ n = []), ENil), s') ∧ serving s' σ ∧ frame s s'
}.

(** ** Refinement *)

Section opens.
Context {B W : Type} (t : WriteTx B W) names backed handle frame `{!OpensTx t names backed handle frame}.
Implicit Types (s : St B W) (ws : gmap bytes (Writer B W)).
#[local] Existing Instance openstx_preorder.

(** The writers a program has kept are those of the abstract store's handles. *)
Definition kept s ws (h : handles) : Prop :=
  (∀ n w, ws !! n = Some w → ∃ r, h !! n = Some r ∧ handle s n r w) ∧
  (∀ n, ws !! n = None → h !! n = None).

Lemma kept_frame s s' ws h : frame s s' → kept s ws h → kept s' ws h.
Proof.
  intros Hf [H1 H2]. split; [|done]. intros n w Hw. destruct (H1 n w Hw) as (r & Hr & Hh).
  exists r. split; [done|]. by eapply openstx_handle.
Qed.

Lemma kept_insert s ws h n w r :
  kept s ws h → handle s n r w → kept s (<[n := w]> ws) (<[n := r]> h).
Proof.
  intros [H1 H2] Hh. split; intros m.
  - intros w' Hw. destruct (decide (m = n)) as [->|Hne].
    + rewrite lookup_insert_eq in Hw. injection Hw as <-. exists r. by rewrite lookup_insert_eq.
    + rewrite lookup_insert_ne in Hw by done. rewrite (lookup_insert_ne h) by done. by apply H1.
  - destruct (decide (m = n)) as [->|Hne]; [by rewrite lookup_insert_eq|].
    rewrite lookup_insert_ne by done. rewrite (lookup_insert_ne h) by done. apply H2.
Qed.

Lemma writer_of_spec n σ s ws h :
  names n → backed s σ → kept s ws h →
  ∃ w ws' h' r s', writer_of t ws n s = (Return (w, ws'), s') ∧ uses n h h' r ∧
    backed s' σ ∧ frame s s' ∧ kept s' ws' h' ∧ handle s' n r w.
Proof.
  intros Hn Hb Hk. unfold writer_of. destruct (ws !! n) as [w|] eqn:Ew.
  - destruct (proj1 Hk n w Ew) as (r & Hr & Hh). exists w, ws, h, r, s.
    split_and!; [done|by apply uses_known|done|reflexivity|done|done].
  - destruct (openstx_open n σ s Hn Hb) as (w & r & s' & E & Hb' & Hf & Hh & Hr).
    rewrite (bind_Return _ _ _ _ _ E). exists w, (<[n := w]> ws), (<[n := r]> h), r, s'.
    apply (proj2 Hk) in Ew. split_and!; [done| |done|done| |done].
    + destruct r as [err|]; [apply uses_failed; auto|by apply uses_opened].
    + apply kept_insert; [|done]. by eapply kept_frame.
Qed.

Lemma kept_none s : kept s ∅ ∅.
Proof. by split; intros n; rewrite lookup_empty. Qed.
(** An operation on the shelf [n], which the program [p] comes to. *)
Lemma on_writer_refines n p ws h σ s op :
  program_on names p → program_shelf p = Some n → names n → backed s σ → kept s ws h →
  (∀ w r, handle s n r w → ∃ p' s' σ', op w s = (Return p', s') ∧ frame s s' ∧ backed s' σ' ∧
     program_on names p' ∧ ∀ h' e σ'', uses n h h' r → program_spec h' σ' p' e σ'' →
       program_spec h σ p e σ'') →
  ∃ ws' p' s', on_writer t ws n p op s = (Return (inr (ws', p')), s') ∧ frame s s' ∧
    program_on names p' ∧ ∃ h' σ', backed s' σ' ∧ kept s' ws' h' ∧
      ∀ e σ'', program_spec h' σ' p' e σ'' → program_spec h σ p e σ''.
Proof.
  intros Hp Ep Hn Hb Hk Hop. unfold on_writer. destruct (ws !! n) as [w|] eqn:Ew.
  - destruct (proj1 Hk n w Ew) as (r & Hr & Hh).
    destruct (Hop w r Hh) as (p' & s' & σ' & E & Hf & Hb' & Hp' & Hs).
    rewrite (bind_Return _ _ _ _ _ E). exists ws, p', s'. split_and!; [done..|].
    exists h, σ'. split_and!; [done|by eapply kept_frame|]. intros e σ''. by apply Hs, uses_known.
  - destruct (openstx_open n σ s Hn Hb) as (w & r & s' & E & Hb' & Hf & Hh & Hr).
    rewrite (bind_Return _ _ _ _ _ E). exists (<[n := w]> ws), p, s'. split_and!; [done..|].
    apply (proj2 Hk) in Ew. exists (<[n := r]> h), σ. split_and!; [done| |].
    + apply kept_insert; [|done]. by eapply kept_frame.
    + intros e σ''. apply (program_spec_used n p h σ _ r); [|done].
      destruct r as [err|]; [apply uses_failed; auto|by apply uses_opened].
Qed.
End opens.

Section backed.
Context {B W : Type} (t : WriteTx B W) names backed handle frame `{!BackedTx t names backed handle frame}.
Implicit Types (s : St B W) (ws : gmap bytes (Writer B W)).
#[local] Existing Instance openstx_preorder.
Abbreviation kept := (kept handle).

(** After an operation the rest of the program runs, by the induction hypothesis. *)
Ltac go_on HK IH Hnext :=
  erewrite bind_Return by eassumption;
  edestruct HK as (? & ? & ? & ? & ? & ? & ?);
    [..|eexists _, _, _; split_and!; [eassumption|econstructor; eassumption|eassumption..]];
    [eassumption|eassumption|eassumption|intros; apply IH; auto|eassumption].

(** Any program runs to its end, as the abstract store allows. *)
Lemma run_program_refines p ws h σ s :
  program_on names p → backed s σ → kept s ws h →
  ∃ e σ' s', run_program t ws p s = (Return e, s') ∧ program_spec h σ p e σ' ∧
    backed s' σ' ∧ frame s s'.
Proof.
  assert (HK : ∀ p' ws1 h1 σ1 s0 s1 s2, frame s0 s1 → frame s1 s2 → kept s1 ws1 h1 →
    (∀ ws h σ s, backed s σ → kept s ws h → ∃ e σ' s', run_program t ws p' s = (Return e, s') ∧
      program_spec h σ p' e σ' ∧ backed s' σ' ∧ frame s s') → backed s2 σ1 →
    ∃ e σ' s', run_program t ws1 p' s2 = (Return e, s') ∧ program_spec h1 σ1 p' e σ' ∧
      backed s' σ' ∧ frame s0 s').
  { intros p' ws1 h1 σ1 s0 s1 s2 H01 H12 Hk IH Hb.
    destruct (IH ws1 h1 σ1 s2 Hb (kept_frame _ _ _ _ _ _ _ _ _ H12 Hk)) as (e & σ' & s' & E & Hp & Hb' & Hf).
    exists e, σ', s'. split_and!; [done..|]. etrans; [exact H01|]. by etrans. }
  revert ws h σ s.
  induction p as [e|n k v next IH|n k next IH|n k next IH|n next IH]; intros ws h σ s Hn Hb Hk;
    cbn [run_program];
    [exists e, σ, s; split_and!; [done|constructor|done|reflexivity]|..];
    destruct Hn as [Hn Hnext]; destruct (writer_of_spec _ _ _ _ _ n σ s ws h Hn Hb Hk)
      as (w & ws1 & h1 & r & s1 & E & Hu & Hb1 & Hf & Hk1 & Hh);
    rewrite (bind_Return _ _ _ _ _ E); cbn [fst snd].
  - destruct (backedtx_put n r w k v σ s1 Hn Hb1 Hh) as (e & it & s2 & E2 & Hb2 & Hf2 & HC). go_on HK IH Hnext.
  - destruct (backedtx_delete n r w k σ s1 Hn Hb1 Hh) as (e & it & s2 & E2 & Hb2 & Hf2 & HC). go_on HK IH Hnext.
  - destruct (backedtx_get n r w k σ s1 Hn Hb1 Hh) as (x & s2 & E2 & Hb2 & Hf2 & HC). go_on HK IH Hnext.
  - destruct (backedtx_empty n r w σ s1 Hn Hb1 Hh) as (x & s2 & E2 & Hb2 & Hf2 & HC). go_on HK IH Hnext.
Qed.
(** What one operation of a program does: the rest of the program, run from what it leaves,
    completes a run of the program. *)
Lemma program_step_refines p ws h σ s :
  program_on names p → backed s σ → kept s ws h →
  ∃ x s', program_step t ws p s = (Return x, s') ∧ frame s s' ∧
    match x with
    | inl e => backed s' σ ∧ program_spec h σ p e σ
    | inr (ws', p') => program_on names p' ∧ ∃ h' σ', backed s' σ' ∧ kept s' ws' h' ∧
        ∀ e σ'', program_spec h' σ' p' e σ'' → program_spec h σ p e σ''
    end.
Proof.
  intros Hn Hb Hk.
  pose proof (λ n op Ep Hnn, on_writer_refines t names backed handle frame n p ws h σ s op Hn Ep Hnn Hb Hk) as HO.
  destruct p as [e|n k v next|n k next|n k next|n next]; cbn [program_step];
    [exists (inl e), s; split_and!; [done|reflexivity|done|apply ps_return]|..];
    destruct Hn as [Hn Hnext];
    (edestruct (HO n) as (ws' & p' & s' & E & HC);
      [done|done| |by exists (inr (ws', p')), s']);
    intros w r Hh.
  - destruct (backedtx_put n r w k v σ s Hn Hb Hh) as (e & it & s2 & E2 & Hb2 & Hf2 & HC).
    rewrite (bind_Return _ _ _ _ _ E2). eexists _, s2, _. split_and!; [done..|]. intros; by econstructor.
  - destruct (backedtx_delete n r w k σ s Hn Hb Hh) as (e & it & s2 & E2 & Hb2 & Hf2 & HC).
    rewrite (bind_Return _ _ _ _ _ E2). eexists _, s2, _. split_and!; [done..|]. intros; by econstructor.
  - destruct (backedtx_get n r w k σ s Hn Hb Hh) as (x & s2 & E2 & Hb2 & Hf2 & HC).
    rewrite (bind_Return _ _ _ _ _ E2). eexists _, s2, _. split_and!; [done..|]. intros; by econstructor.
  - destruct (backedtx_empty n r w σ s Hn Hb Hh) as (x & s2 & E2 & Hb2 & Hf2 & HC).
    rewrite (bind_Return _ _ _ _ _ E2). eexists _, s2, _. split_and!; [done..|]. intros; by econstructor.
Qed.
End backed.

Section serving.
Context {B W : Type} (t : ReadTx B W) names serving handle frame `{!ServesTx t names serving handle frame}.
Implicit Types (s : St B W) (rs : gmap bytes (Reader B W)).
#[local] Existing Instance servestx_preorder.

Definition kept_readers rs : Prop := ∀ n r, rs !! n = Some r → handle n r.

Lemma reader_of_spec n σ s rs :
  names n → serving s σ → kept_readers rs →
  ∃ r rs' s', reader_of t rs n s = (Return (r, rs'), s') ∧ serving s' σ ∧ frame s s' ∧
    kept_readers rs' ∧ handle n r.
Proof.
  intros Hn Hs Hk. unfold reader_of. destruct (rs !! n) as [r|] eqn:Er.
  - exists r, rs, s. split_and!; [done|done|reflexivity|done|by apply Hk].
  - destruct (servestx_open n σ s Hn Hs) as (r & s' & E & Hs' & Hf & Hh).
    rewrite (bind_Return _ _ _ _ _ E). exists r, (<[n := r]> rs), s'. split_and!; [done..| |done].
    intros m r'. rewrite lookup_insert_Some. intros [[<- <-]|[_ Hr]]; [done|by apply Hk].
Qed.

Lemma run_inquiry_refines i rs σ s :
  inquiry_on names i → serving s σ → kept_readers rs →
  ∃ e s', run_inquiry t rs i s = (Return e, s') ∧ inquiry_spec σ i e ∧ serving s' σ ∧ frame s s'.
Proof.
  revert rs s. induction i as [e|n k next IH|n next IH]; intros rs s Hn Hs Hk; cbn [run_inquiry];
    [exists e, s; split_and!; [done|constructor|done|reflexivity]|..];
    destruct Hn as [Hn Hnext]; destruct (reader_of_spec n σ s rs Hn Hs Hk) as (r & rs1 & s1 & E & Hs1 & Hf & Hk1 & Hh);
    rewrite (bind_Return _ _ _ _ _ E); cbn [fst snd].
  - destruct (servestx_get n r k σ s1 Hn Hs1 Hh) as (x & s2 & E2 & Hs2 & Hf2 & HC).
    rewrite (bind_Return _ _ _ _ _ E2).
    destruct (IH x rs1 s2 (Hnext _) Hs2 Hk1) as (e & s3 & E3 & Hi & Hs3 & Hf3).
    exists e, s3. split_and!; [done|by econstructor|done|]. etrans; [exact Hf|]. by etrans.
  - destruct (servestx_empty n r σ s1 Hn Hs1 Hh) as (s2 & E2 & Hs2 & Hf2).
    rewrite (bind_Return _ _ _ _ _ E2).
    destruct (IH (bool_decide (σ n = []), ENil) rs1 s2 (Hnext _) Hs2 Hk1) as (e & s3 & E3 & Hi & Hs3 & Hf3).
    exists e, s3. split_and!; [done|by econstructor|done|]. etrans; [exact Hf|]. by etrans.
Qed.

Lemma inquiry_step_refines i rs σ s :
  inquiry_on names i → serving s σ → kept_readers rs →
  ∃ x s', inquiry_step t rs i s = (Return x, s') ∧ serving s' σ ∧ frame s s' ∧
    match x with
    | inl e => inquiry_spec σ i e
    | inr (rs', i') => inquiry_on names i' ∧ kept_readers rs' ∧
        ∀ e, inquiry_spec σ i' e → inquiry_spec σ i e
    end.
Proof.
  intros Hn Hs Hk.
  assert (HO : ∀ n op, names n →
    (∀ r, handle n r → ∃ i' s', op r s = (Return i', s') ∧ frame s s' ∧ serving s' σ ∧
       inquiry_on names i' ∧ ∀ e, inquiry_spec σ i' e → inquiry_spec σ i e) →
    ∃ x s', on_reader t rs n i op s = (Return (inr x), s') ∧ serving s' σ ∧ frame s s' ∧
      inquiry_on names x.2 ∧ kept_readers x.1 ∧ ∀ e, inquiry_spec σ x.2 e → inquiry_spec σ i e).
  { intros n op Hnn Hop. unfold on_reader. destruct (rs !! n) as [r|] eqn:Er.
    - destruct (Hop r (Hk n r Er)) as (i' & s' & E & Hf & Hs' & Hi' & Hsp).
      rewrite (bind_Return _ _ _ _ _ E). by exists (rs, i'), s'.
    - destruct (servestx_open n σ s Hnn Hs) as (r & s' & E & Hs' & Hf & Hh).
      rewrite (bind_Return _ _ _ _ _ E). exists (<[n := r]> rs, i), s'. split_and!; [done..| |done].
      intros m r'. cbn [fst]. rewrite lookup_insert_Some. intros [[<- <-]|[_ Hr]]; [done|by apply Hk]. }
  destruct i as [e|n k next|n next]; cbn [inquiry_step];
    [exists (inl e), s; split_and!; [done|done|reflexivity|constructor]|..];
    destruct Hn as [Hn Hnext];
    (edestruct (HO n) as ([rs' i'] & s' & E & HC); [done| |exists (inr (rs', i')), s'; done]);
    intros r Hh.
  - destruct (servestx_get n r k σ s Hn Hs Hh) as (x & s2 & E2 & Hs2 & Hf2 & HC).
    rewrite (bind_Return _ _ _ _ _ E2). eexists _, s2. split_and!; [done..|]. intros; by econstructor.
  - destruct (servestx_empty n r σ s Hn Hs Hh) as (s2 & E2 & Hs2 & Hf2).
    rewrite (bind_Return _ _ _ _ _ E2). eexists _, s2. split_and!; [done..|]. intros; by econstructor.
Qed.

Lemma kept_readers_none : kept_readers ∅.
Proof. intros n r. by rewrite lookup_empty. Qed.
End serving.
End spec.

(** Programs keep the pairs of every shelf sorted. *)
Lemma program_spec_sorted opf wf rf st h σ p e σ' :
  program_spec opf wf rf st h σ p e σ' → (∀ n, sorted (σ n)) → ∀ n, sorted (σ' n).
Proof.
  assert (HW : ∀ r it new e it', writes wf r it new e it' → sorted it → sorted new → sorted it').
  { intros [err|] it new e0 it'; cbn; [by intros [_ ->]|by intros [[_ ->]|(_ & _ & ->)]]. }
  assert (HS : ∀ n it σ, (∀ m, sorted (σ m)) → sorted it → ∀ m, sorted (set_shelf n it σ m)).
  { intros n it σ0 Hs Hi m. unfold set_shelf. by case_bool_decide. }
  induction 1 as [|? ? ? ? ? ? ? ? ? ? ? ? ? Hw _ IH|? ? ? ? ? ? ? ? ? ? ? ? Hw _ IH| |]; auto;
    intros Hs; apply IH, HS, (HW _ _ _ _ _ Hw); auto with shelf.
Qed.

(** What a program does depends on the shelves it uses only. *)
Lemma program_spec_same names opf wf rf st h σ1 p e σ1' σ2 :
  program_spec opf wf rf st h σ1 p e σ1' → program_on names p → same_on names σ1 σ2 →
  ∃ σ2', program_spec opf wf rf st h σ2 p e σ2' ∧ same_on names σ1' σ2'.
Proof.
  intros Hp. revert σ2.
  induction Hp as [h σ e|n k v next h σ h' r e it e' σ' Hu Hw _ IH|n k next h σ h' r e it e' σ' Hu Hw _ IH
    |n k next h σ h' r x e' σ' Hu Hx _ IH|n next h σ h' r x e' σ' Hu Hx _ IH]; intros σ2 Hn Hs;
    [exists σ2; split; [constructor|done]|..];
    destruct Hn as [Hn Hnext]; rewrite (Hs n Hn) in *.
  1, 2: destruct (IH (set_shelf n it σ2)) as (σ2' & H1 & H2); [auto|by rewrite Hs|];
    exists σ2'; split; [by econstructor|done].
  all: destruct (IH σ2) as (σ2' & H1 & H2); [auto|done|];
    exists σ2'; split; [by econstructor|done].
Qed.
