(* ===== verification/Contract.v ===== *)
(** The contract of a [KVStore] with its clients: an abstract store, the calls that are made
    to it one after the other, and the interface a backend has to satisfy. *)
From S2P Require Import Prelude Errors Keys Go Store Shelf Client Program.

(** ** The abstract store *)

(** A call that runs a program: on one shelf, or in a transaction on several. *)
Inductive call :=
  | Call_write (name : bytes) (c : client)
  | Call_read (name : bytes) (q : query)
  | Call_transact (p : program)
  | Call_inquire (i : inquiry).

(** The end of a transaction, as its options see it. *)
Inductive decision := Refused | Committed | Undone.

Section spec.
(** How the opening of a shelf, writes and reads may fail; whether [Empty] is exact in a
    transaction that has changed the shelf; and whether a failed commit may have been
    executed. *)
Context (open_fails write_fails read_fails : error → Prop) (exact uncertain : bool).
Definition begun {A} (a : A) : option A := if exact then None else Some a.
Abbreviation client_spec it := (client_spec write_fails read_fails (begun it)).
Abbreviation query_spec := (query_spec read_fails).
Abbreviation program_spec σ := (program_spec open_fails write_fails read_fails (begun σ) ∅ σ).
Abbreviation inquiry_spec := (inquiry_spec read_fails).

(** A transaction on the shelves [σ]: how it ends, which results it may have, and the
    shelves it leaves. It is refused; it is committed; the program returns an error; it
    succeeds but is not committed; or it has been committed although that seemed to fail. *)
Inductive transaction_spec (p : program) (σ : shelves) :
    decision → (error → Prop) → shelves → Prop :=
  | ts_refused :
      transaction_spec p σ Refused (λ e, e ≠ ENil ∧ is_database_error e = true) σ
  | ts_committed σ' :
      program_spec σ p ENil σ' → transaction_spec p σ Committed (λ e, e = ENil) σ'
  | ts_rolled_back e0 σ1 :
      program_spec σ p e0 σ1 → e0 ≠ ENil → transaction_spec p σ Undone (λ e, e = e0) σ
  | ts_failed σ1 :
      program_spec σ p ENil σ1 →
      transaction_spec p σ Undone (λ e, e ≠ ENil ∧ is_database_error e = true) σ
  | ts_unknown σ' :
      uncertain = true → program_spec σ p ENil σ' →
      transaction_spec p σ Undone (λ e, e ≠ ENil ∧ errors_Is e ErrCommitFailed = true) σ'.

(** [call_spec a σ e σ']: on the shelves [σ] the call [a] may return [e] and leave [σ']. *)
Inductive call_spec : call → shelves → error → shelves → Prop :=
  | call_committed n c σ it :
      client_spec (σ n) c (σ n) ENil it → call_spec (Call_write n c) σ ENil (set_shelf n it σ)
  | call_ignored n c σ : ignores_errors c → call_spec (Call_write n c) σ ENil σ
  | call_failed n c σ e : e ≠ ENil → call_spec (Call_write n c) σ e σ
  | call_unknown n c σ e it :
      uncertain = true → errors_Is e ErrCommitFailed = true → client_spec (σ n) c (σ n) ENil it →
      call_spec (Call_write n c) σ e (set_shelf n it σ)
  | call_read n q σ e :
      query_spec (σ n) q e ∨ is_database_error e = true → call_spec (Call_read n q) σ e σ
  | call_transacted p σ d P e σ' :
      transaction_spec p σ d P σ' → P e →
      call_spec (Call_transact p) σ e σ'
  | call_inquired i σ e :
      inquiry_spec σ i e ∨ is_database_error e = true → call_spec (Call_inquire i) σ e σ.

(** The calls [l], one after the other, with their results. *)
Inductive history_spec : list call → shelves → list error → shelves → Prop :=
  | history_nil σ : history_spec [] σ [] σ
  | history_cons a l σ e σ1 es σ2 :
      call_spec a σ e σ1 → history_spec l σ1 es σ2 → history_spec (a :: l) σ (e :: es) σ2.
End spec.

(** ** The interface *)

Section contract.
Context {B W : Type} `{!Env W}.
Implicit Types (st : KVStore B W) (s : St B W).
Abbreviation M := (M B W).

Definition run_call st (ctx : Context W) (a : call) : M error :=
  match a with
  | Call_write n c => WriteShelf st ctx n (λ w, run_client w c)
  | Call_read n q => ReadShelf st ctx n (λ r, run_query r q)
  | Call_transact p => Write st ctx (λ t, run_program t ∅ p) []
  | Call_inquire i => Read st ctx (λ t, run_inquiry t ∅ i)
  end.

Fixpoint run_history st (ctx : Context W) (l : list call) : M (list error) :=
  match l with
  | [] => mret []
  | a :: l' => e ← run_call st ctx a; es ← run_history st ctx l'; mret (e :: es)
  end.

(** What a store promises for the calls it [permits]: from a state that is [holding] the
    shelves, a call does what the specification allows, and the new state holds the new
    shelves; or, if the store [waits] for locks, it may not come back. *)
Class Conforms st (ctx : Context W) (permits : call → Prop) (holding : St B W → shelves → Prop)
    (open_fails write_fails read_fails : error → Prop) (exact uncertain waits : bool) : Prop := {
  conforms a s σ :
    permits a → holding s σ →
    (waits = true ∧ (run_call st ctx a s).1 = Blocked) ∨
    ∃ e s' σ', run_call st ctx a s = (Return e, s') ∧
      call_spec open_fails write_fails read_fails exact uncertain a σ e σ' ∧ holding s' σ';
  holding_sorted n c s σ : permits (Call_write n c) → holding s σ → sorted (σ n)
}.

(** *** Options *)

(** The functions given as options that are called at the end of a transaction. *)
Definition called_fns (d : decision) (opts : list (TxOption B W)) : list (M ()) :=
  match d with
  | Refused => []
  | Committed => after_commit_fns opts
  | Undone => on_rollback_fns opts
  end.

(** The call that ended with [r] has called [fns], one after the other, from the state [s],
    and has done nothing afterwards that could be told from what the store holds. If they
    returned its result is as [P] says. *)
Definition ends_with (holding : St B W → shelves → Prop) (fns : list (M ())) (P : error → Prop)
    s (r : outcome error * St B W) : Prop :=
  match call_all fns s with
  | (Return _, s2) =>
      ∃ e s3, r = (Return e, s3) ∧ P e ∧ ∀ σ, holding s2 σ → holding s3 σ
  | _ => ∀ e, r.1 ≠ Return e
  end.

(** The usual end: the functions, then the result. *)
Lemma ends_with_result holding fns (P : error → Prop) s e :
  P e → ends_with holding fns P s ((_ ← call_all fns; mret e) s).
Proof.
  intros HP. unfold ends_with, mbind, M_bind. destruct (call_all fns s) as [[[]| | |] s2]; try done.
  by exists e, s2.
Qed.

(** A transaction with options: unless it waits for a lock for ever, it ends as specified, and
    when the functions are called the store is holding what the transaction leaves. *)
Definition runs_transaction st (ctx : Context W) (holding : St B W → shelves → Prop)
    (open_fails write_fails read_fails : error → Prop) (exact uncertain waits : bool)
    (p : program) (opts : list (TxOption B W)) s σ : Prop :=
  let r := Write st ctx (λ t, run_program t ∅ p) opts s in
  (waits = true ∧ r.1 = Blocked) ∨
  ∃ d P σ' s1,
    transaction_spec open_fails write_fails read_fails exact uncertain p σ d P σ' ∧ holding s1 σ' ∧
    ends_with holding (called_fns d opts) P s1 r.

(** What a store promises for transactions with options, whose functions are [polite]: they may
    use the store, too. *)
Class Transacts st (ctx : Context W) (permits : program → Prop) (polite : M () → Prop)
    (holding : St B W → shelves → Prop)
    (open_fails write_fails read_fails : error → Prop) (exact uncertain waits : bool) : Prop :=
  transacts p opts s σ :
    permits p → Forall polite (after_commit_fns opts) → Forall polite (on_rollback_fns opts) →
    holding s σ →
    runs_transaction st ctx holding open_fails write_fails read_fails exact uncertain waits
      p opts s σ.

(** Without options. *)
Lemma transacts_plain st ctx permits polite holding opf wf rf exact uncertain waits
    `{!Transacts st ctx permits polite holding opf wf rf exact uncertain waits} p s σ :
  permits p → holding s σ →
  (waits = true ∧ (run_call st ctx (Call_transact p) s).1 = Blocked) ∨
  ∃ e s' σ', run_call st ctx (Call_transact p) s = (Return e, s') ∧
    call_spec opf wf rf exact uncertain (Call_transact p) σ e σ' ∧ holding s' σ'.
Proof.
  intros Hp Hs. cbn [run_call].
  destruct (transacts p [] s σ Hp) as [Hb|(d & P & σ' & s1 & HT & Hs1 & HE)]; [done..|by left|right].
  assert (called_fns d [] = []) as Ed by (by destruct d). rewrite Ed in HE.
  destruct HE as (e & s3 & E & HP & Hk). exists e, s3, σ'.
  split_and!; [done|by eapply call_transacted|by apply Hk].
Qed.

(** *** Reading what was written *)

(** A program that writes the value [w] under [k], or deletes [k]; a query for [k]; and its
    answer. *)
Definition c_write (k : Key) (w : option bytes) : client :=
  match w with Some v => c_put k v c_return | None => c_delete k c_return end.
Definition q_ask (k : Key) (f : option bytes * error → error) : query :=
  q_get k (λ r, q_return (f r)).
Definition answer (w : option bytes) : option bytes * error :=
  match w with Some v => (Some v, ENil) | None => (None, ErrKeyNotFound) end.

(** A program, and a call, that does not write to the shelf [n]. *)
Fixpoint program_leaves (n : bytes) (p : program) : Prop :=
  match p with
  | p_return _ => True
  | p_put m _ _ next | p_delete m _ next => m ≠ n ∧ ∀ e, program_leaves n (next e)
  | p_get _ _ next => ∀ x, program_leaves n (next x)
  | p_empty _ next => ∀ x, program_leaves n (next x)
  end.
Definition leaves (n : bytes) (a : call) : Prop :=
  match a with
  | Call_write m _ => m ≠ n
  | Call_transact p => program_leaves n p
  | Call_read _ _ | Call_inquire _ => True
  end.

Lemma program_leaves_shelf opf wf rf stale h n σ p e σ' :
  program_spec opf wf rf stale h σ p e σ' → program_leaves n p → σ' n = σ n.
Proof.
  assert (HS : ∀ m it σ1, m ≠ n → set_shelf m it σ1 n = σ1 n).
  { intros m it σ1 Hm. unfold set_shelf. by rewrite bool_decide_eq_false_2 by auto. }
  induction 1 as [|? ? ? ? ? ? ? ? ? ? ? ? ? ? _ IH|? ? ? ? ? ? ? ? ? ? ? ? ? _ IH| |];
    cbn [program_leaves]; [done|intros [Hm Hn]; rewrite IH by done; by apply HS..|auto|auto].
Qed.

Lemma transaction_leaves opf wf rf exact uncertain n σ p d P σ' :
  transaction_spec opf wf rf exact uncertain p σ d P σ' → program_leaves n p → σ' n = σ n.
Proof. destruct 1; intros Hn; try done; by eapply program_leaves_shelf. Qed.

Lemma call_leaves opf wf rf exact uncertain n a σ e σ' :
  call_spec opf wf rf exact uncertain a σ e σ' → leaves n a → σ' n = σ n.
Proof.
  destruct 1; cbn; intros Hn; try done; [..|by eapply transaction_leaves];
    unfold set_shelf; by rewrite bool_decide_eq_false_2 by auto.
Qed.

(** The write has its effect when it returns nil. *)
Lemma call_write_effect opf wf rf exact uncertain n k w σ σ' :
  call_spec opf wf rf exact uncertain (Call_write n (c_write k w)) σ ENil σ' → sorted (σ n) →
  get_result k (σ' n) = answer w.
Proof.
  intros HC Hs. remember ENil as e eqn:Ee. remember (Call_write n (c_write k w)) as a eqn:Ea.
  destruct HC as [n' c σ it HC|n' c σ (err & Hd & Hi)|n' c σ e He|n' c σ e it _ Hu HC| | |];
    simplify_eq.
  - unfold set_shelf. rewrite bool_decide_eq_true_2 by done. unfold get_result.
    destruct w as [v|]; inversion HC as [|? ? ? ? ? ? HR|? ? ? ? ? ? ? ? ? HR|? ? ? ? ? HR
      |? ? ? ? ? ? ? ? HR| | |]; subst; inversion HR; subst; try done.
    + by rewrite items_lookup_insert, bool_decide_eq_true_2.
    + by rewrite items_lookup_delete, bool_decide_eq_true_2.
  - exfalso. by destruct w; cbn in Hi; subst err.
Qed.

Lemma call_read_answer opf wf rf exact uncertain n k f σ e σ' :
  call_spec opf wf rf exact uncertain (Call_read n (q_ask k f)) σ e σ' →
  e = f (get_result k (σ n)) ∨ (∃ err, err ≠ ENil ∧ rf err ∧ e = f (None, err)) ∨
  is_database_error e = true.
Proof.
  intros HC. inversion HC as [| | | |n' q σ0 e0 [HQ|Hd]| |]; subst; [|by right; right].
  inversion HQ as [|? ? ? HR|? ? err ? Hn Hf HR|]; subst; inversion HR; subst; [by left|right; left].
  by exists err.
Qed.

Lemma history_read opf wf rf exact uncertain n k f l σ es σ' :
  history_spec opf wf rf exact uncertain (l ++ [Call_read n (q_ask k f)]) σ es σ' → Forall (leaves n) l →
  ∃ e, last es = Some e ∧
    (e = f (get_result k (σ n)) ∨ (∃ err, err ≠ ENil ∧ rf err ∧ e = f (None, err)) ∨
     is_database_error e = true).
Proof.
  intros HH Hl. revert σ es HH. induction Hl as [|a l Ha _ IH]; intros σ es HH; cbn in HH;
    inversion HH as [|? ? ? e σ1 es1 ? HC HH1]; subst.
  - inversion HH1; subst. exists e. split; [done|]. by eapply call_read_answer.
  - destruct (IH σ1 es1 HH1) as (e1 & E1 & H1). exists e1.
    rewrite (call_leaves _ _ _ _ _ _ _ _ _ _ HC Ha) in H1. split; [|done].
    destruct es1; [done|exact E1].
Qed.

Section clients.
Context st ctx permits holding opf wf rf exact uncertain waits
  `{!Conforms st ctx permits holding opf wf rf exact uncertain waits}.

Lemma run_history_refines l s σ :
  Forall permits l → holding s σ →
  (waits = true ∧ (run_history st ctx l s).1 = Blocked) ∨
  ∃ es s' σ', run_history st ctx l s = (Return es, s') ∧
    history_spec opf wf rf exact uncertain l σ es σ' ∧ holding s' σ'.
Proof.
  intros Hl. revert s σ. induction Hl as [|a l Ha _ IH]; intros s σ Hs; cbn [run_history].
  { right. exists [], s, σ. split_and!; [done|constructor|done]. }
  destruct (conforms a s σ Ha Hs) as [[Hw Hb]|(e & s1 & σ1 & E & Hc & Hs1)].
  - left. split; [done|]. unfold mbind, M_bind.
    destruct (run_call st ctx a s) as [o s1]. cbn in Hb. by subst o.
  - rewrite (bind_Return _ _ _ _ _ E).
    destruct (IH s1 σ1 Hs1) as [[Hw Hb]|(es & s2 & σ2 & E2 & Hh & Hs2)].
    + left. split; [done|]. unfold mbind, M_bind.
      destruct (run_history st ctx l s1) as [o s2]. cbn in Hb. by subst o.
    + right. rewrite (bind_Return _ _ _ _ _ E2). exists (e :: es), s2, σ2.
      split_and!; [done|by econstructor|done].
Qed.

(** Reading what was written: after a [Put] or [Delete] of a key for which [WriteShelf]
    returned nil, and any calls that do not write to that shelf, a [Get] of the key answers
    with the value put, or [ErrKeyNotFound] after the [Delete], unless the read itself fails. *)
Lemma answer_after_write n k w f l s σ es s'
    (Hl : Forall permits (Call_write n (c_write k w) :: l ++ [Call_read n (q_ask k f)]))
    (Hs : holding s σ) (Hn : Forall (leaves n) l)
    (HR : run_history st ctx (Call_write n (c_write k w) :: l ++ [Call_read n (q_ask k f)]) s =
            (Return (ENil :: es), s')) :
  ∃ e, last es = Some e ∧
    (e = f (answer w) ∨ (∃ err, err ≠ ENil ∧ rf err ∧ e = f (None, err)) ∨
     is_database_error e = true).
Proof.
  destruct (run_history_refines _ s σ Hl Hs) as [[_ HB]|(es' & s1 & σ' & E & HH & _)];
    rewrite HR in *; [done|]. injection E as <- <-.
  inversion HH as [|? ? ? e σ1 es1 ? HC HH1]; subst. apply Forall_cons in Hl as [Hp _].
  rewrite <-(call_write_effect _ _ _ _ _ _ _ _ _ _ HC) by (by eapply holding_sorted).
  by eapply history_read.
Qed.
End clients.
End contract.

(** ** A scenario *)

Module Scenario.
Definition k : Key := Uint32Key 7.
Definition shelf_name : bytes := #"inventory".
Definition archive_name : bytes := #"archive".

(** Puts the key if it is not there yet. *)
Definition create : client :=
  c_get k (λ r, if is_nil r.2 then c_return (errorfText #"exists") else c_put k #"a" c_return).
(** Puts another value, and then changes its mind. *)
Definition change_mind : client := c_put k #"b" (λ _, c_return Canceled).
(** Moves the pair to the other shelf. *)
Definition move : program :=
  p_get shelf_name k (λ r,
    if is_nil r.2 then
      p_put archive_name k (default [] r.1) (λ e,
        if is_nil e then p_delete shelf_name k p_return else p_return e)
    else p_return r.2).
Definition show (r : option bytes * error) : error := errorfText (default #"none" r.1).
(** Shows both shelves. *)
Definition look : inquiry :=
  i_get shelf_name k (λ r, i_get archive_name k (λ r',
    i_return (errorfText (default #"none" r.1 ++ #" / " ++ default #"none" r'.1)))).

Definition calls : list call :=
  [Call_write shelf_name create; Call_write shelf_name change_mind; Call_read shelf_name (q_ask k show);
   Call_write shelf_name create; Call_inquire look; Call_transact move; Call_inquire look;
   Call_transact move; Call_write archive_name (c_write k None); Call_inquire look].
Definition results : list error :=
  [ENil; Canceled; errorfText #"a"; errorfText #"exists"; errorfText #"a / none"; ENil;
   errorfText #"none / a"; ErrKeyNotFound; ENil; errorfText #"none / none"].
End Scenario.
