(* ===== verification/Interleave.v ===== *)
(** Goroutines as sequences of phases: a goroutine on its own, several of them interleaved
    phase by phase on one state, and the serial executions they are compared with. *)
From S2P Require Import Prelude Errors Go.

(** ** A goroutine on its own *)

Section alone.
Context {B W Ph : Type} (step : Ph → M B W Ph).
Abbreviation M := (M B W).

Fixpoint run_phases (n : nat) (ph : Ph) : M Ph :=
  match n with
  | O => mret ph
  | S n' => ph' ← step ph; run_phases n' ph'
  end.

(** From some number of phases on, the goroutine that is in [ph] has come to [r]. *)
Definition runs_to (ph : Ph) (s : St B W) (r : outcome Ph * St B W) : Prop :=
  ∃ n, ∀ n', n ≤ n' → run_phases n' ph s = r.

Lemma runs_done ph s : step ph s = (Return ph, s) → runs_to ph s (Return ph, s).
Proof.
  intros E. exists 0. intros n _. induction n as [|n IH]; [done|]. cbn [run_phases].
  by rewrite (bind_Return _ _ _ _ _ E).
Qed.

(** One phase. *)
Lemma runs_next ph s r :
  (∀ ph' s', step ph s = (Return ph', s') → runs_to ph' s' r) →
  (∀ o s', step ph s = (o, s') → (∀ ph', o ≠ Return ph') →
     r = (match o with Panic => Panic | NoFuel => NoFuel | _ => Blocked end, s')) →
  runs_to ph s r.
Proof.
  intros Hr Hc. destruct (step ph s) as [o s'] eqn:E. destruct o as [ph'| | |].
  { destruct (Hr ph' s' eq_refl) as [n Hn]. exists (S n). intros [|n'] Hle; [lia|].
    cbn [run_phases]. rewrite (bind_Return _ _ _ _ _ E). apply Hn. lia. }
  all: exists 1; intros [|n'] Hle; [lia|]; cbn [run_phases]; unfold mbind, M_bind; rewrite E;
    by rewrite (Hc _ s' eq_refl).
Qed.

Lemma runs_one ph s ph' s' r :
  step ph s = (Return ph', s') → runs_to ph' s' r → runs_to ph s r.
Proof.
  intros E Hr. apply runs_next; rewrite E; [by intros ? ? [= <- <-]|].
  intros o s1 [= <- <-] Ho. by destruct (Ho ph').
Qed.

(** One phase, whose action is [m], and then the phases that follow. *)
Lemma runs_step {A} ph s (m : M A) (f : A → Ph) (k : A → M Ph) :
  step ph s = (a ← m; mret (f a)) s →
  (∀ a s', m s = (Return a, s') → runs_to (f a) s' (k a s')) →
  runs_to ph s ((m ≫= k) s).
Proof.
  intros E Hk. unfold mbind, M_bind in *.
  apply runs_next; destruct (m s) as [[a| | |] s'] eqn:Em; rewrite E; try done.
  - intros ph' s1 [= <- <-]. by apply Hk.
  - intros o s1 [= <- <-] Ho. by destruct (Ho (f a)).
  - by intros o s1 [= <- <-].
  - by intros o s1 [= <- <-].
  - by intros o s1 [= <- <-].
Qed.

Lemma runs_eq ph s r r' : r = r' → runs_to ph s r → runs_to ph s r'.
Proof. by intros ->. Qed.
End alone.

(** ** Several goroutines *)

Record conc (B W Ph : Type) := mkConc { shared : St B W; phases : list Ph }.
Arguments mkConc {B W Ph} shared phases.
Arguments shared {B W Ph} c.
Arguments phases {B W Ph} c.

Section interleaving.
Context {B W Task Ph : Type} `{!Env W}.
(** The next phase of a goroutine; the phase of a goroutine that does not come back from the
    phase it is in, if it may be left there; and what the goroutines do. *)
Context (thread_step : Task → Ph → M B W Ph) (stuck : Ph → St B W → St B W → option Ph)
  (tasks : list Task).
Abbreviation conc := (conc B W Ph).

(** One goroutine goes through one phase; or does not come back from it; or the world
    moves on. *)
Inductive conc_step (c : conc) : conc → Prop :=
  | cs_thread i p ph ph' s' :
      tasks !! i = Some p → phases c !! i = Some ph →
      thread_step p ph (shared c) = (Return ph', s') →
      conc_step c (mkConc s' (<[i := ph']> (phases c)))
  | cs_stuck i p ph ph' s' :
      tasks !! i = Some p → phases c !! i = Some ph →
      thread_step p ph (shared c) = (Blocked, s') →
      stuck ph (shared c) s' = Some ph' →
      conc_step c (mkConc s' (<[i := ph']> (phases c)))
  | cs_tick :
      conc_step c (mkConc (mkSt (back (shared c)) (tick (world (shared c)))) (phases c)).

(** The step of goroutine [i], and a run in which the goroutines of [sched] move in turn. *)
Definition conc_exec (i : nat) (c : conc) : option conc :=
  match tasks !! i, phases c !! i with
  | Some p, Some ph =>
      match thread_step p ph (shared c) with
      | (Return ph', s') => Some (mkConc s' (<[i := ph']> (phases c)))
      | (Blocked, s') =>
          (λ ph', mkConc s' (<[i := ph']> (phases c))) <$> stuck ph (shared c) s'
      | _ => None
      end
  | _, _ => None
  end.
Definition conc_run (sched : list nat) (c : conc) : conc :=
  foldl (λ c i, default c (conc_exec i c)) c sched.

Lemma conc_exec_step i c c' : conc_exec i c = Some c' → conc_step c c'.
Proof.
  unfold conc_exec. destruct (tasks !! i) as [p|] eqn:Ep; [|done].
  destruct (phases c !! i) as [ph|] eqn:Eh; [|done].
  destruct (thread_step p ph (shared c)) as [[ph'| | |] s'] eqn:E; try done.
  - intros [= <-]. by eapply cs_thread.
  - intros (ph' & Es & ->)%fmap_Some. by eapply cs_stuck.
Qed.

Lemma conc_run_steps sched c : rtc conc_step c (conc_run sched c).
Proof.
  revert c. induction sched as [|i sched IH]; intros c; [done|]. cbn.
  destruct (conc_exec i c) as [c'|] eqn:E; cbn; [|apply IH].
  eapply rtc_l; [by eapply conc_exec_step|apply IH].
Qed.

(** All goroutines are in the phase [start]. *)
Definition conc_init (start : Ph) (s : St B W) : conc :=
  mkConc s (replicate (length tasks) start).

Lemma conc_init_lookup start s i ph :
  phases (conc_init start s) !! i = Some ph → ph = start.
Proof. intros H. by apply lookup_replicate in H as [-> _]. Qed.

(** ** One task after the other *)

(** What a task may return, and leave, when it has the data for itself. *)
Context {D : Type} (task_spec : Task → D → error → D → Prop).

(** The tasks of [l] run one after the other, with the results given there. *)
Inductive serial (d : D) : list (nat * error) → D → Prop :=
  | serial_nil : serial d [] d
  | serial_snoc l d1 i p e d2 :
      serial d l d1 → tasks !! i = Some p → task_spec p d1 e d2 → serial d (l ++ [(i, e)]) d2.
End interleaving.
