(* ===== verification/Bbolt.v ===== *)
(** bbolt/bbolt.go: the store backed by a bbolt database. The bbolt library is a
    parameter, [BoltLib]; what the store relies on of it is [BoltSpec]. *)
From S2P Require Import Prelude Errors Keys Go Store Lock Timeout Shelf.

(** ** The library *)

(** The bbolt calls the store makes, as functions of the state [DB] of the library (the
    file and the transactions open on it); the calls that only read it return no new
    state. A transaction, bucket or cursor is a handle.
    [First], [Seek] and [Next] answer with the pair found, or [None] for a nil key. *)
Class BoltLib := {
  DB : Type;
  Tx : Type;
  Bucket : Type;
  Cursor : Type;
  ErrDatabaseNotOpen : error;
  db_Begin : bool → DB → (Tx * error) * DB;
  db_Close : DB → error * DB;
  tx_Commit : Tx → DB → error * DB;
  tx_Rollback : Tx → DB → error * DB;
  tx_Bucket : Tx → bytes → DB → option Bucket;
  tx_CreateBucketIfNotExists : Tx → bytes → DB → (Bucket * error) * DB;
  tx_Size : Tx → DB → N;
  bkt_Tx : Bucket → Tx;
  bkt_Get : Bucket → bytes → DB → option bytes;
  bkt_Put : Bucket → bytes → bytes → DB → error * DB;
  bkt_Delete : Bucket → bytes → DB → error * DB;
  bkt_KeyN : Bucket → DB → N;
  bkt_Cursor : Bucket → Cursor;
  cur_First : Cursor → DB → option (bytes * bytes) * Cursor;
  cur_Seek : Cursor → bytes → DB → option (bytes * bytes) * Cursor;
  cur_Next : Cursor → DB → option (bytes * bytes) * Cursor
}.

(** [store]: the database handle's state and the lock. [cfg] and [log] do not change. *)
Record store `{BoltLib} := mkStore { db : DB; lock : RWMutex }.

#[global] Instance store_HasMux `{BoltLib} : HasMux store.
Proof.
  refine {| get_mux := lock; put_mux := λ m s, mkStore _ (db s) m |}; [done|by intros []|done].
Defined.

Section bbolt.
Context `{BL : BoltLib} {Logger W : Type} `{!Env W, !Scheduler W, !CallScheduler W}.
(** The configuration, and the bound on the turns of a cursor loop. *)
Context (cfg : Config Logger) (fuel : nat).
Abbreviation M := (M store W).

(** A call into bbolt. *)
Definition bolt {A} (f : DB → A * DB) : M A :=
  lib (λ s, let '(a, d) := f (db s) in (a, mkStore _ d (lock s))).

Definition bolt_read {A} (f : DB → A) : M A := bolt (λ d, (f d, d)).

(** *** bboltShelf *)

(** [bboltShelf]: the bucket and the context of the transaction. *)
Record bboltShelf := mkShelf { bucket : Bucket; shelf_ctx : Context W }.

Definition bboltShelf_Stats (t : bboltShelf) : M ShelfStats :=
  keyN ← bolt_read (bkt_KeyN (bucket t));
  size ← bolt_read (tx_Size (bkt_Tx (bucket t)));
  mret (mkShelfStats keyN size).

Definition bboltShelf_Empty (t : bboltShelf) : M (bool * error) :=
  stats ← bboltShelf_Stats t;
  mret ((NumEntries stats =? 0)%N, ENil).

Definition bboltShelf_Get (t : bboltShelf) (key : Key) : M (option bytes * error) :=
  value ← bolt_read (bkt_Get (bucket t) (Bytes key));
  match value with
  | None => mret (None, ErrKeyNotFound)
  | Some value => mret (Some value, ENil)
  end.

Definition bboltShelf_Put (t : bboltShelf) (key : Key) (value : bytes) : M error :=
  err ← bolt (bkt_Put (bucket t) (Bytes key) value);
  if negb (is_nil err) then mret (DatabaseError err) else mret ENil.

Definition bboltShelf_Delete (t : bboltShelf) (key : Key) : M error :=
  err ← bolt (bkt_Delete (bucket t) (Bytes key));
  if negb (is_nil err) then mret (DatabaseError err) else mret ENil.

(** The loop of [Iterate], entered with the cursor at [kv]. *)
Fixpoint iterate_loop (fuel : nat) (t : bboltShelf) (callback : CallerFn store W)
    (keyType : Key) (cursor : Cursor) (kv : option (bytes * bytes)) : M error :=
  match kv with
  | None => mret ENil
  | Some (k, v) =>
      match fuel with
      | O => out_of_fuel
      | S fuel' =>
          e ← ctx_Err (shelf_ctx t);
          if negb (is_nil e) then
            e ← ctx_Err (shelf_ctx t); mret (DatabaseError e)
          else
            let '(key, err) := FromBytes keyType k in
            if negb (is_nil err) then mret err else
            key ← must key;
            err ← callback key v;
            if negb (is_nil err) then mret err else
            next ← bolt_read (cur_Next cursor);
            iterate_loop fuel' t callback keyType next.2 next.1
      end
  end.

Definition bboltShelf_Iterate (t : bboltShelf) (callback : CallerFn store W)
    (keyType : Key) : M error :=
  let cursor := bkt_Cursor (bucket t) in
  first ← bolt_read (cur_First cursor);
  iterate_loop fuel t callback keyType first.2 first.1.

(** [stopAtNil && prevKey != nil && !prevKey.Next().Equals(key)]. *)
Definition gap_found (stopAtNil : bool) (prevKey : option Key) (key : Key) : M bool :=
  match stopAtNil, prevKey with
  | true, Some prevKey =>
      next ← must (Next prevKey);
      mret (negb (Equals next (Some key)))
  | _, _ => mret false
  end.

(** The loop of [Range]. *)
Fixpoint range_loop (fuel : nat) (t : bboltShelf) (from to : Key)
    (callback : CallerFn store W) (stopAtNil : bool)
    (cursor : Cursor) (kv : option (bytes * bytes)) (prevKey : option Key) : M error :=
  match kv with
  | None => mret ENil
  | Some (k, v) =>
      if negb (bytes_ltb k (Bytes to)) then mret ENil else
      match fuel with
      | O => out_of_fuel
      | S fuel' =>
          e ← ctx_Err (shelf_ctx t);
          if negb (is_nil e) then
            e ← ctx_Err (shelf_ctx t); mret (DatabaseError e)
          else
            let '(key, err) := FromBytes from k in
            if negb (is_nil err) then mret err else
            key ← must key;
            gap ← gap_found stopAtNil prevKey key;
            if (gap : bool) then mret ENil else
            err ← callback key v;
            if negb (is_nil err) then mret err else
            next ← bolt_read (cur_Next cursor);
            range_loop fuel' t from to callback stopAtNil next.2 next.1 (Some key)
      end
  end.

Definition bboltShelf_Range (t : bboltShelf) (from to : Key) (callback : CallerFn store W)
    (stopAtNil : bool) : M error :=
  let cursor := bkt_Cursor (bucket t) in
  first ← bolt_read (cur_Seek cursor (Bytes from));
  range_loop fuel t from to callback stopAtNil first.2 first.1 None.

Definition as_Reader (t : bboltShelf) : Reader store W :=
  mkReader (bboltShelf_Empty t) (bboltShelf_Get t) (bboltShelf_Iterate t)
    (bboltShelf_Range t) (bboltShelf_Stats t).
Definition as_Writer (t : bboltShelf) : Writer store W :=
  mkWriter (as_Reader t) (bboltShelf_Put t) (bboltShelf_Delete t).

(** *** bboltTx *)

Record bboltTx := mkTx { tx : Tx; tx_ctx : Context W }.

Definition bboltTx_Unwrap (b : bboltTx) : Tx := tx b.

Definition getBucket (b : bboltTx) (shelfName : bytes) : M (Reader store W) :=
  bucket ← bolt_read (tx_Bucket (tx b) shelfName);
  match bucket with
  | None => mret NilReader
  | Some bucket => mret (as_Reader (mkShelf bucket (tx_ctx b)))
  end.

Definition bboltTx_GetShelfReader (b : bboltTx) (shelfName : bytes) : M (Reader store W) :=
  getBucket b shelfName.

Definition bboltTx_GetShelfWriter (b : bboltTx) (shelfName : bytes) : M (Writer store W) :=
  r ← bolt (tx_CreateBucketIfNotExists (tx b) shelfName);
  let '(bucket, err) := r in
  if negb (is_nil err) then mret (NewErrorWriter err)
  else mret (as_Writer (mkShelf bucket (tx_ctx b))).

Definition as_ReadTx (b : bboltTx) : ReadTx store W :=
  mkReadTx (bboltTx_GetShelfReader b).
Definition as_WriteTx (b : bboltTx) : WriteTx store W :=
  mkWriteTx (as_ReadTx b) (bboltTx_GetShelfWriter b).

(** *** store *)

(** [rollbackTX]: an error is only logged. *)
Definition rollbackTX (dbTX : Tx) : M () :=
  _ ← bolt (tx_Rollback dbTX);
  mret ().

(** The last part of [doTX], from [fn]'s return on. *)
Definition finishTX (ctx : Context W) (dbTX : Tx) (writable : bool)
    (opts : list (TxOption store W)) (unlock : M ()) (appError : error) : M error :=
  if negb writable then
    _ ← rollbackTX dbTX;
    _ ← unlock;
    mret appError
  else if negb (is_nil appError) then
    _ ← rollbackTX dbTX;
    _ ← unlock;
    _ ← OnRollbackOption_Invoke opts;
    mret appError
  else
    e ← ctx_Err ctx;
    err ← (if negb (is_nil e) then
             err ← ctx_Err ctx;
             _ ← rollbackTX dbTX;
             mret err
           else bolt (tx_Commit dbTX));
    if negb (is_nil err) then
      _ ← unlock;
      _ ← OnRollbackOption_Invoke opts;
      mret (WrapError ErrCommitFailed err)
    else
      _ ← unlock;
      _ ← AfterCommitOption_Invoke opts;
      mret ENil.

Definition doTX (ctx : Context W) (fn : Tx → M error) (writable : bool)
    (opts : list (TxOption store W)) : M error :=
  w ← get_world;
  let lockCtx := WithTimeout ctx (now w) (LockAcquireTimeout cfg) in
  err ← (if writable then LockContext lockCtx else RLockContext lockCtx);
  if negb (is_nil err) then
    mret (Errorf (if writable then #"unable to obtain BBolt write lock"
                  else #"unable to obtain BBolt read lock") err)
  else
    let unlock := if writable then Unlock else RUnlock in
    r ← bolt (db_Begin writable);
    let '(dbTX, err) := r in
    if negb (is_nil err) then
      _ ← unlock;
      if bool_decide (err = ErrDatabaseNotOpen) then mret ErrStoreIsClosed
      else mret (DatabaseError err)
    else
      appError ← fn dbTX;
      finishTX ctx dbTX writable opts unlock appError.

Definition store_Close (ctx : Context W) : M error :=
  err ← CallWithTimeout ctx (bolt db_Close) (mret ());
  if negb (is_nil err) then mret (DatabaseError err) else mret ENil.

Definition store_Write (ctx : Context W) (fn : WriteTx store W → M error)
    (opts : list (TxOption store W)) : M error :=
  doTX ctx (λ t, fn (as_WriteTx (mkTx t ctx))) true opts.

Definition store_Read (ctx : Context W) (fn : ReadTx store W → M error) : M error :=
  doTX ctx (λ t, fn (as_ReadTx (mkTx t ctx))) false [].

Definition store_WriteShelf (ctx : Context W) (shelfName : bytes)
    (fn : Writer store W → M error) : M error :=
  doTX ctx (λ t, shelf ← bboltTx_GetShelfWriter (mkTx t ctx) shelfName; fn shelf) true [].

Definition store_ReadShelf (ctx : Context W) (shelfName : bytes)
    (fn : Reader store W → M error) : M error :=
  doTX ctx (λ t, shelf ← bboltTx_GetShelfReader (mkTx t ctx) shelfName; fn shelf) false [].

(** [Wrap]: the store, with a fresh lock, as a [KVStore]. *)
Definition Wrap_state (d : DB) : store := mkStore _ d unlocked.
Definition Wrap : KVStore store W :=
  mkKVStore store_Close store_Write store_Read store_WriteShelf store_ReadShelf.

(** [Store]: the store on which the transaction was started. *)
Definition bboltTx_Store (b : bboltTx) : KVStore store W := Wrap.
End bbolt.
