(* ===== verification/BboltSpec.v ===== *)
(** What bbolt/bbolt.go relies on of the bbolt library, as laws over a logical view of its
    state, and an in-memory library that satisfies them. *)
From S2P Require Import Prelude Errors Keys Go Store Lock Timeout Shelf Bbolt.

(** The buckets of a database, by name. *)
Abbreviation shelves := (gmap bytes items).

(** The documented behaviour of bbolt. [committed]: what a new transaction sees.
    [tx_state]: of an open transaction, whether it is writable, and what it sees.
    [cur_rest]: the pairs from the cursor's position on. A bucket handle belongs to a
    transaction and has a name; keys are enumerated in byte order. The statistics of a bucket
    count its keys; nothing is promised of them in a write transaction that has changed the
    bucket, since they are gathered from the pages of the file. *)
Class BoltSpec `{BL : BoltLib} := {
  committed : DB → shelves;
  tx_state : DB → Tx → option (bool * shelves);
  bkt_name : Bucket → bytes;
  cur_bucket : Cursor → Bucket;
  cur_rest : Cursor → items;

  spec_Begin d w :
    let '((t, e), d') := db_Begin w d in
    committed d' = committed d ∧
    (e = ENil → tx_state d' t = Some (w, committed d));
  spec_Commit d t v : tx_state d t = Some (true, v) →
    let '(e, d') := tx_Commit t d in
    committed d' = if is_nil e then v else committed d;
  spec_Rollback d t : committed (tx_Rollback t d).2 = committed d;
  spec_Close d : committed (db_Close d).2 = committed d;

  spec_Bucket d t w v n : tx_state d t = Some (w, v) →
    match v !! n with
    | Some _ => ∃ b, tx_Bucket t n d = Some b ∧ bkt_Tx b = t ∧ bkt_name b = n
    | None => tx_Bucket t n d = None
    end;
  spec_CreateBucket d t v n : tx_state d t = Some (true, v) →
    let '((b, e), d') := tx_CreateBucketIfNotExists t n d in
    committed d' = committed d ∧
    if is_nil e
    then bkt_Tx b = t ∧ bkt_name b = n ∧
         tx_state d' t = Some (true, <[n := default [] (v !! n)]> v)
    else tx_state d' t = Some (true, v);

  spec_Get d b w v it k :
    tx_state d (bkt_Tx b) = Some (w, v) → v !! bkt_name b = Some it →
    bkt_Get b k d = items_lookup k it;
  spec_KeyN d b w v it :
    tx_state d (bkt_Tx b) = Some (w, v) → v !! bkt_name b = Some it →
    w = false ∨ default [] (committed d !! bkt_name b) = it →
    bkt_KeyN b d = N.of_nat (length it);
  spec_Put d b v it k x :
    tx_state d (bkt_Tx b) = Some (true, v) → v !! bkt_name b = Some it →
    let '(e, d') := bkt_Put b k x d in
    committed d' = committed d ∧
    tx_state d' (bkt_Tx b) =
      Some (true, if is_nil e then <[bkt_name b := items_insert k x it]> v else v);
  spec_Delete d b v it k :
    tx_state d (bkt_Tx b) = Some (true, v) → v !! bkt_name b = Some it →
    let '(e, d') := bkt_Delete b k d in
    committed d' = committed d ∧
    tx_state d' (bkt_Tx b) =
      Some (true, if is_nil e then <[bkt_name b := items_delete k it]> v else v);

  spec_First d b w v it :
    tx_state d (bkt_Tx b) = Some (w, v) → v !! bkt_name b = Some it →
    let '(kv, c) := cur_First (bkt_Cursor b) d in
    kv = head it ∧ cur_bucket c = b ∧ cur_rest c = it;
  spec_Seek d b w v it k :
    tx_state d (bkt_Tx b) = Some (w, v) → v !! bkt_name b = Some it →
    let '(kv, c) := cur_Seek (bkt_Cursor b) k d in
    kv = head (items_from k it) ∧ cur_bucket c = b ∧ cur_rest c = items_from k it;
  spec_Next d c w v it x l :
    tx_state d (bkt_Tx (cur_bucket c)) = Some (w, v) →
    v !! bkt_name (cur_bucket c) = Some it → cur_rest c = x :: l → suffix (x :: l) it →
    let '(kv, c') := cur_Next c d in
    kv = head l ∧ cur_bucket c' = cur_bucket c ∧ cur_rest c' = l
}.

(** Transactions that are open at the same time: a call on one of them does not change what
    another one sees, and [Begin] makes a new one. *)
Class BoltConcSpec `{BS : BoltSpec} : Prop := {
  frame_Begin w d :
    let '((t, e), d') := db_Begin w d in
    (e = ENil → tx_state d t = None) ∧
    (∀ t', e ≠ ENil ∨ t' ≠ t → tx_state d' t' = tx_state d t');
  frame_Commit t d t' : t' ≠ t → tx_state (tx_Commit t d).2 t' = tx_state d t';
  frame_Rollback t d t' : t' ≠ t → tx_state (tx_Rollback t d).2 t' = tx_state d t';
  frame_CreateBucket t n d t' :
    t' ≠ t → tx_state (tx_CreateBucketIfNotExists t n d).2 t' = tx_state d t';
  frame_Put b k x d t' : t' ≠ bkt_Tx b → tx_state (bkt_Put b k x d).2 t' = tx_state d t';
  frame_Delete b k d t' : t' ≠ bkt_Tx b → tx_state (bkt_Delete b k d).2 t' = tx_state d t'
}.

(** ** An in-memory library *)

Module BoltMem.

(** A transaction is numbered; a bucket is a transaction and a name; a cursor holds the
    pairs that follow. Each failing call of the real library can be provoked: Begin fails
    when the database is closed, Put and Delete on an empty key, CreateBucketIfNotExists
    on an empty name, Commit when [fail_commit] is set. The statistics of a bucket in a write
    transaction are those of the committed bucket. *)
Record mem := mkMem {
  content : shelves;
  open_txs : gmap N (bool * shelves);
  next_tx : N;
  closed : bool;
  fail_commit : bool
}.

Definition set_tx (t : N) (x : bool * shelves) (d : mem) : mem :=
  mkMem (content d) (<[t := x]> (open_txs d)) (next_tx d) (closed d) (fail_commit d).
Definition end_tx (t : N) (c : shelves) (d : mem) : mem :=
  mkMem c (delete t (open_txs d)) (next_tx d) (closed d) (fail_commit d).

(** A number that no open transaction has. *)
Definition new_tx (d : mem) : N :=
  foldr (λ x n, N.max (N.succ x.1) n) (next_tx d) (map_to_list (open_txs d)).

Lemma new_tx_fresh d : open_txs d !! new_tx d = None.
Proof.
  destruct (open_txs d !! new_tx d) as [x|] eqn:E; [exfalso|done].
  apply elem_of_map_to_list in E. unfold new_tx in E at 1.
  assert (H : ∀ t (x : bool * shelves) l, (t, x) ∈ l →
    (t < foldr (λ y n, N.max (N.succ y.1) n) (next_tx d) l)%N).
  { intros t y l. induction l as [|z l IH]; [by intros ?%not_elem_of_nil|].
    intros [<-|Hin]%elem_of_cons; cbn; [lia|]. apply IH in Hin. lia. }
  apply H in E. unfold new_tx in E. lia.
Qed.

Definition NotOpen : error := errorString 200 #"database not open".
Definition TxClosed : error := errorString 201 #"tx closed".
Definition KeyRequired : error := errorString 202 #"key required".
Definition CommitFailure : error := errorString 203 #"write error".
Definition BucketNameRequired : error := errorString 204 #"bucket name required".

Definition bucket_items (b : N * bytes) (d : mem) : option items :=
  match open_txs d !! b.1 with Some (_, v) => v !! b.2 | None => None end.

Definition update (b : N * bytes) (k : bytes) (f : items → items) (d : mem) : error * mem :=
  match k, open_txs d !! b.1 with
  | [], _ => (KeyRequired, d)
  | _, Some (true, v) =>
      match v !! b.2 with
      | Some it => (ENil, set_tx b.1 (true, <[b.2 := f it]> v) d)
      | None => (TxClosed, d)
      end
  | _, _ => (TxClosed, d)
  end.

#[export] Instance lib : BoltLib := {|
  DB := mem;
  Tx := N;
  Bucket := N * bytes;
  Cursor := (N * bytes) * items;
  ErrDatabaseNotOpen := NotOpen;
  db_Begin w d :=
    let t := new_tx d in
    if closed d then ((t, NotOpen), d)
    else ((t, ENil),
          mkMem (content d) (<[t := (w, content d)]> (open_txs d)) (N.succ t)
            (closed d) (fail_commit d));
  db_Close d := (ENil, mkMem (content d) (open_txs d) (next_tx d) true (fail_commit d));
  tx_Commit t d :=
    match open_txs d !! t with
    | Some (true, v) =>
        if fail_commit d then (CommitFailure, end_tx t (content d) d) else (ENil, end_tx t v d)
    | _ => (TxClosed, d)
    end;
  tx_Rollback t d :=
    match open_txs d !! t with
    | Some _ => (ENil, end_tx t (content d) d)
    | None => (TxClosed, d)
    end;
  tx_Bucket t n d := match bucket_items (t, n) d with Some _ => Some (t, n) | None => None end;
  tx_CreateBucketIfNotExists t n d :=
    match n, open_txs d !! t with
    | [], _ => (((t, n), BucketNameRequired), d)
    | _, Some (true, v) =>
        (((t, n), ENil), set_tx t (true, <[n := default [] (v !! n)]> v) d)
    | _, _ => (((t, n), TxClosed), d)
    end;
  tx_Size t d := 4096%N;
  bkt_Tx := fst;
  bkt_Get b k d := it ← bucket_items b d; items_lookup k it;
  bkt_Put b k x d := update b k (items_insert k x) d;
  bkt_Delete b k d := update b k (items_delete k) d;
  bkt_KeyN b d :=
    N.of_nat (length (match open_txs d !! b.1 with
                      | Some (false, v) => default [] (v !! b.2)
                      | _ => default [] (content d !! b.2)
                      end));
  bkt_Cursor b := (b, []);
  cur_First c d := let it := default [] (bucket_items c.1 d) in (head it, (c.1, it));
  cur_Seek c k d :=
    let it := items_from k (default [] (bucket_items c.1 d)) in (head it, (c.1, it));
  cur_Next c d := let it := tail c.2 in (head it, (c.1, it))
|}.

Definition empty_db : mem := mkMem ∅ ∅ 0 false false.

Lemma bucket_items_open t n d w v :
  open_txs d !! t = Some (w, v) → bucket_items (t, n) d = v !! n.
Proof. intros E. unfold bucket_items. cbn. by rewrite E. Qed.

Lemma update_spec b k f d v it :
  open_txs d !! b.1 = Some (true, v) → v !! b.2 = Some it →
  let '(e, d') := update b k f d in
  content d' = content d ∧
  open_txs d' !! b.1 = Some (true, if is_nil e then <[b.2 := f it]> v else v).
Proof.
  intros E1 E2. unfold update. destruct k; [done|]. rewrite E1, E2. cbn.
  by rewrite lookup_insert_eq.
Qed.

#[export] Instance spec : BoltSpec.
Proof.
  refine {|
    committed := content : DB → shelves;
    tx_state := λ (d : mem) (t : N), open_txs d !! t;
    bkt_name := snd : Bucket → bytes;
    cur_bucket := fst : Cursor → Bucket;
    cur_rest := snd : Cursor → items
  |}.
  - intros d w. cbn. destruct (closed d); cbn; [done|]. by rewrite lookup_insert_eq.
  - intros d t v E. cbn in *. rewrite E. by destruct (fail_commit d).
  - intros d t. cbn in *. by destruct (open_txs d !! t).
  - done.
  - intros d t w v n E. cbn in *. rewrite (bucket_items_open t n d w v E).
    destruct (v !! n); [by eexists|done].
  - intros d t v n E. cbn in *. destruct n; [done|]. rewrite E. cbn.
    by rewrite lookup_insert_eq.
  - intros d [t n] w v it k E E2. cbn in *. by rewrite (bucket_items_open t n d w v E), E2.
  - intros d [t n] w v it E E2 Hf. cbn in *. rewrite E. destruct w; [|by rewrite E2].
    by destruct Hf as [?| ->].
  - intros. by apply update_spec.
  - intros. by apply update_spec.
  - intros d [t n] w v it E E2. cbn in *. by rewrite (bucket_items_open t n d w v E), E2.
  - intros d [t n] w v it k E E2. cbn in *. by rewrite (bucket_items_open t n d w v E), E2.
  - intros d [[t n] r] w v it x l E E2 Er _. cbn in *. by subst.
Defined.

Lemma update_frame b k f (d : mem) t : t ≠ b.1 → open_txs (update b k f d).2 !! t = open_txs d !! t.
Proof.
  intros Ht. unfold update. destruct k; [done|]. destruct (open_txs d !! b.1) as [[[] v]|]; try done.
  destruct (v !! b.2); [|done]. cbn. by rewrite lookup_insert_ne.
Qed.

#[export] Instance conc_spec : BoltConcSpec.
Proof.
  split.
  - intros w d. cbn. destruct (closed d); cbn.
    + split; [done|]. intros t' _. done.
    + split; [intros _; apply new_tx_fresh|]. intros t' [?|Ht]; [done|]. by rewrite lookup_insert_ne.
  - intros t d t' Ht. cbn in *. destruct (open_txs d !! t) as [[[] v]|]; try done.
    destruct (fail_commit d); cbn; by rewrite lookup_delete_ne.
  - intros t d t' Ht. cbn in *. destruct (open_txs d !! t) as [x|]; [|done]. cbn.
    by rewrite lookup_delete_ne.
  - intros t n d t' Ht. cbn in *. destruct n; [done|]. destruct (open_txs d !! t) as [[[] v]|]; try done.
    cbn. by rewrite lookup_insert_ne.
  - intros. by apply update_frame.
  - intros. by apply update_frame.
Qed.

End BoltMem.
