(* ===== verification/BboltFacts.v ===== *)
(** The theorems on bbolt/bbolt.go: iteration, the shelf operations, and the transaction
    protocol of [doTX], for any library with the documented behaviour. *)
From S2P Require Import Prelude Errors Keys Go Store Lock Timeout Shelf Walk Bbolt BboltSpec.

Section facts.
Context `{BS : BoltSpec} {Logger W : Type} `{!Env W, !Scheduler W, !CallScheduler W}.
Implicit Types (s : St store W).
Abbreviation shelf := (bboltShelf (W := W)).

(** What transaction [t] sees. *)
Definition view_of (t : Tx) s : option (bool * shelves) := tx_state (db (back s)) t.

Definition same_view (t : Tx) s s' : Prop := view_of t s' = view_of t s.
#[global] Instance same_view_preorder t : PreOrder (same_view t).
Proof. split; unfold same_view; [done|]. intros s1 s2 s3 H1 H2. by rewrite H2. Qed.

(** The shelf handle [t] denotes the pairs [it] in state [s]. *)
Definition shelf_at (t : shelf) s (it : items) : Prop :=
  ∃ w v, view_of (bkt_Tx (bucket t)) s = Some (w, v) ∧ v !! bkt_name (bucket t) = Some it.

Lemma shelf_at_view (t : shelf) s s' it :
  same_view (bkt_Tx (bucket t)) s s' → shelf_at t s it → shelf_at t s' it.
Proof. intros E (w & v & H1 & H2). exists w, v. by rewrite E. Qed.

(** A cursor of [t]'s bucket standing before the pairs [l]. *)
Definition cursor_at (t : shelf) (c : Cursor) (l : items) : Prop :=
  cur_bucket c = bucket t ∧ cur_rest c = l.

Lemma cursor_next (t : shelf) s c it x l :
  shelf_at t s it → cursor_at t c (x :: l) → suffix (x :: l) it →
  ∃ c', bolt_read (cur_Next c) s = (Return (head l, c'), s) ∧ cursor_at t c' l.
Proof.
  intros (w & v & H1 & H2) [Hb Hr] Hs.
  pose proof (spec_Next (db (back s)) c w v it x l) as HN. rewrite Hb in HN.
  specialize (HN H1 H2 Hr Hs). destruct (cur_Next c (db (back s))) as [kv c'] eqn:E.
  destruct HN as (-> & Hb' & Hr'). exists c'. split; [|done].
  unfold bolt_read, bolt, lib. rewrite E. by destruct s as [[]].
Qed.

Section walks.
Context (t : shelf) (callback : CallerFn store W) (it : items).
Hypothesis callback_reads : ∀ key v, keeps (same_view (bkt_Tx (bucket t))) (callback key v).

Lemma shelf_at_callback key v s s' r :
  callback key v s = (r, s') → shelf_at t s it → shelf_at t s' it.
Proof.
  intros E. apply shelf_at_view. pose proof (callback_reads key v s) as H. by rewrite E in H.
Qed.

Lemma shelf_at_tick s s' (ctx : Context W) e :
  ctx_Err ctx s = (Return e, s') → shelf_at t s it → shelf_at t s' it.
Proof. unfold ctx_Err. intros [= <- <-]. by apply shelf_at_view. Qed.

Lemma bbolt_iterate_loop_walk keyType l n c s :
  length l ≤ n → shelf_at t s it → cursor_at t c l → suffix l it →
  iterate_loop n t callback keyType c (head l) s =
    walk (shelf_ctx t) keyType callback l (mret ENil) s.
Proof.
  revert n c s. induction l as [|[k v] l IH]; intros n c s Hn Hs Hc Hsuf; [by destruct n|].
  destruct n as [|n]; [cbn in Hn; lia|]. cbn [iterate_loop walk head].
  unfold check_ctx, visit. cbn [fst snd]. apply bind_ext_at. intros e s1 E1.
  eapply shelf_at_tick in E1; [|done]. destruct (negb (is_nil e)); [done|].
  destruct (FromBytes keyType k) as [ok err]. destruct (negb (is_nil err)); [done|].
  apply bind_ext_at. intros key s2 E2.
  assert (s2 = s1) as -> by (by destruct ok; injection E2).
  apply bind_ext_at. intros e' s3 E3. eapply shelf_at_callback in E3; [|done].
  destruct (negb (is_nil e')); [done|].
  destruct (cursor_next t s3 c it _ l E3 Hc Hsuf) as (c' & Ec & Hc').
  rewrite (bind_Return _ _ _ _ _ Ec). apply IH; [cbn in Hn; lia|done|done|].
  by eapply suffix_cons_l.
Qed.

(** [Range]'s loop is a walk over the pairs before [to], with the gap check. *)
Fixpoint walk_range (from : Key) (stopAtNil : bool) (prev : option Key) (l : items) :
    M store W error :=
  match l with
  | [] => mret ENil
  | (k, v) :: l' =>
      check_ctx (shelf_ctx t)
        (let '(key, err) := FromBytes from k in
         if negb (is_nil err) then mret err else
         key ← must key;
         gap ← gap_found stopAtNil prev key;
         if (gap : bool) then mret ENil else
         err ← callback key v;
         if negb (is_nil err) then mret err else
         walk_range from stopAtNil (Some key) l')
  end.

Lemma bbolt_range_loop_walk from to stopAtNil l n c prev s :
  length l ≤ n → shelf_at t s it → cursor_at t c l → suffix l it →
  range_loop n t from to callback stopAtNil c (head l) prev s =
    walk_range from stopAtNil prev (items_before (Bytes to) l) s.
Proof.
  revert n c prev s. induction l as [|[k v] l IH]; intros n c prev s Hn Hs Hc Hsuf;
    [by destruct n|].
  destruct n as [|n]; [cbn in Hn; lia|]. cbn [range_loop items_before head].
  destruct (bytes_ltb k (Bytes to)); cbn [negb]; [|done]. cbn [walk_range].
  unfold check_ctx. apply bind_ext_at. intros e s1 E1.
  eapply shelf_at_tick in E1; [|done]. destruct (negb (is_nil e)); [done|].
  destruct (FromBytes from k) as [ok err]. destruct (negb (is_nil err)); [done|].
  apply bind_ext_at. intros key s2 E2.
  assert (s2 = s1) as -> by (by destruct ok; injection E2).
  apply bind_ext_at. intros gap s2 E4.
  assert (s2 = s1) as ->.
  { destruct stopAtNil, prev as [pk|]; try by injection E4.
    cbn in E4. destruct (Next pk); by injection E4. }
  destruct gap; [done|].
  apply bind_ext_at. intros e' s3 E3. eapply shelf_at_callback in E3; [|done].
  destruct (negb (is_nil e')); [done|].
  destruct (cursor_next t s3 c it _ l E3 Hc Hsuf) as (c' & Ec & Hc').
  rewrite (bind_Return _ _ _ _ _ Ec). apply IH; [cbn in Hn; lia|done|done|].
  by eapply suffix_cons_l.
Qed.

Lemma walk_range_all from l prev s :
  walk_range from false prev l s = walk (shelf_ctx t) from callback l (mret ENil) s.
Proof.
  revert prev s. induction l as [|[k v] l IH]; intros prev s; [done|].
  cbn [walk_range walk]. unfold check_ctx, visit. cbn [fst snd].
  apply bind_ext. intros e s1. destruct (negb (is_nil e)); [done|].
  destruct (FromBytes from k) as [ok err]. destruct (negb (is_nil err)); [done|].
  apply bind_ext. intros key s2. cbn [gap_found]. rewrite bind_ret.
  apply bind_ext. intros e' s3. destruct (negb (is_nil e')); [done|]. apply IH.
Qed.
End walks.
(** *** Range with stopAtNil *)

Lemma gap_found_next ka n kb s :
  Next ka = Some n →
  gap_found true (Some ka) kb s = (Return (negb (Equals n (Some kb))), s).
Proof. intros En. unfold gap_found. by rewrite En. Qed.

Lemma walk_range_run (t : shelf) callback from x kx l s :
  Forall (walkable from) (x :: l) → (FromBytes from x.1).1 = Some kx →
  walk_range t callback from true (Some kx) l s =
    (let '(p, r) := run_from from x l in
     walk (shelf_ctx t) from callback p
       (match r with [] => mret ENil | _ :: _ => check_ctx (shelf_ctx t) (mret ENil) end)) s.
Proof.
  revert x kx s. induction l as [|[k v] l IH]; intros x kx s Hw Ex; [done|].
  inversion Hw as [|? ? (kx' & n & Ex' & En) Hw']; subst.
  rewrite Ex' in Ex. injection Ex as ->.
  pose proof Hw' as Hw''. inversion Hw'' as [|? ? (ky & ny & Ey & _) _]; subst.
  cbn [run_from walk_range]. unfold follows at 1. cbn [fst] in *. rewrite Ex', Ey, En.
  destruct (Equals n (Some ky)) eqn:Eq.
  - specialize (IH (k, v) ky). cbn [fst] in IH. rewrite Ey in IH.
    destruct (run_from from (k, v) l) as [p r] eqn:Er. cbn [walk].
    unfold check_ctx, visit. cbn [fst snd]. rewrite Ey.
    apply bind_ext. intros e s1. destruct (negb (is_nil e)); [done|]. cbn [is_nil negb must].
    rewrite !bind_ret. rewrite (bind_Return _ _ _ _ _ (gap_found_next _ _ _ _ En)), Eq.
    cbn [negb].
    apply bind_ext. intros e' s2. destruct (negb (is_nil e')); [done|]. by apply IH.
  - unfold check_ctx. apply bind_ext. intros e s1. destruct (negb (is_nil e)); [done|].
    cbn [is_nil negb must].
    by rewrite bind_ret, (bind_Return _ _ _ _ _ (gap_found_next _ _ _ _ En)), Eq.
Qed.

Lemma walk_range_gapless (t : shelf) callback from l s :
  Forall (walkable from) l →
  walk_range t callback from true None l s = walk_gapless (shelf_ctx t) from callback l s.
Proof.
  destruct l as [|[k v] l]; [done|]. intros Hw.
  pose proof Hw as Hw'. inversion Hw' as [|? ? (kx & n & Ex & _) _]; subst.
  unfold walk_gapless. cbn [gapless]. pose proof (walk_range_run t callback from (k, v) kx l) as HR.
  cbn [fst] in *. rewrite Ex in HR. destruct (run_from from (k, v) l) as [p r].
  cbn [walk walk_range]. unfold check_ctx, visit. cbn [fst snd]. rewrite Ex.
  apply bind_ext. intros e s1. destruct (negb (is_nil e)); [done|]. cbn [is_nil negb must].
  rewrite !bind_ret. cbn [gap_found]. rewrite bind_ret.
  apply bind_ext. intros e' s2. destruct (negb (is_nil e')); [done|]. by apply HR.
Qed.

(** ** Properties of the shelf *)

(** [Iterate] walks over all pairs of the shelf, in byte order of the keys, and
    ends with their number of turns: cancellation is checked before each pair, and the
    first error (of the context, of a key that does not parse, of the callback) stops
    the walk and is returned. *)
Theorem bbolt_Iterate_walk (t : shelf) callback keyType it fuel s
    (Hcb : ∀ key v, keeps (same_view (bkt_Tx (bucket t))) (callback key v))
    (Hs : shelf_at t s it) (Hfuel : length it ≤ fuel) :
  bboltShelf_Iterate fuel t callback keyType s =
    walk (shelf_ctx t) keyType callback it (mret ENil) s.
Proof.
  unfold bboltShelf_Iterate. pose proof Hs as (w & v & H1 & H2).
  pose proof (spec_First (db (back s)) (bucket t) w v it H1 H2) as HF.
  unfold bolt_read, bolt, lib. destruct (cur_First _ _) as [kv c] eqn:E.
  destruct HF as (-> & Hb & Hr). unfold mbind, M_bind. rewrite E.
  replace (mkSt _ (world s)) with s by (by destruct s as [[]]). cbn [fst snd].
  by apply (bbolt_iterate_loop_walk t callback it Hcb).
Qed.

(** C17: [Range] walks over exactly the pairs with a key in [from, to), in byte order;
    with [stopAtNil], when the keys parse and have successors, over the longest
    prefix of them in which each key is the [Next] of the one before. *)
Theorem bbolt_Range_walk (t : shelf) callback from to it fuel s
    (Hcb : ∀ key v, keeps (same_view (bkt_Tx (bucket t))) (callback key v))
    (Hs : shelf_at t s it) (Hfuel : length it ≤ fuel) :
  let l := items_range (Bytes from) (Bytes to) it in
  (sorted it → ∀ x, x ∈ l ↔ x ∈ it ∧ bytes_le (Bytes from) x.1 ∧ bytes_lt x.1 (Bytes to)) ∧
  bboltShelf_Range fuel t from to callback false s =
    walk (shelf_ctx t) from callback l (mret ENil) s ∧
  (Forall (walkable from) l →
   bboltShelf_Range fuel t from to callback true s =
     walk_gapless (shelf_ctx t) from callback l s).
Proof.
  intros l. split; [by intros; apply elem_items_range|].
  assert (HR : ∀ stopAtNil, bboltShelf_Range fuel t from to callback stopAtNil s =
    walk_range t callback from stopAtNil None l s).
  { intros stopAtNil. unfold bboltShelf_Range. pose proof Hs as (w & v & H1 & H2).
    pose proof (spec_Seek (db (back s)) (bucket t) w v it (Bytes from) H1 H2) as HF.
    unfold bolt_read, bolt, lib. destruct (cur_Seek _ _ _) as [kv c] eqn:E.
    destruct HF as (-> & Hb & Hr). unfold mbind, M_bind. rewrite E.
    replace (mkSt _ (world s)) with s by (by destruct s as [[]]). cbn [fst snd].
    destruct (items_from_suffix (Bytes from) it) as (l1 & El & _).
    apply (bbolt_range_loop_walk t callback it Hcb); [|done|done|by exists l1].
    etrans; [|exact Hfuel]. rewrite El at 2. rewrite length_app. lia. }
  split; [rewrite HR; apply walk_range_all|].
  intros Hw. rewrite HR. by apply walk_range_gapless.
Qed.

(** Nothing but the transaction's own view has changed. *)
Definition only_view s s' : Prop :=
  committed (db (back s')) = committed (db (back s)) ∧ lock (back s') = lock (back s) ∧
  world s' = world s.
#[global] Instance only_view_preorder : PreOrder only_view.
Proof.
  split; [done|]. intros s1 s2 s3 (?&?&?) (?&?&?). unfold only_view. split_and!; congruence.
Qed.

(** [t]'s transaction is writable and sees [v], and [t]'s shelf in it the pairs [it]. *)
Definition writable_at (t : shelf) s (v : shelves) (it : items) : Prop :=
  view_of (bkt_Tx (bucket t)) s = Some (true, v) ∧ v !! bkt_name (bucket t) = Some it.

(** A write that changes the pairs by [f], or fails: its result and its effect. *)
Definition write_result (t : shelf) s (v : shelves) (it : items) (m : M store W error) : Prop :=
  ∃ e s', m s = (Return e, s') ∧ only_view s s' ∧
    ((e = ENil ∧ writable_at t s' (<[bkt_name (bucket t) := it]> v) it) ∨
     (e ≠ ENil ∧ is_database_error e = true ∧
      view_of (bkt_Tx (bucket t)) s' = Some (true, v))).

Lemma bolt_write_spec (t : shelf) s v it (op : DB → error * DB) :
  view_of (bkt_Tx (bucket t)) s = Some (true, v) →
  (let '(e, d') := op (db (back s)) in
   committed d' = committed (db (back s)) ∧
   tx_state d' (bkt_Tx (bucket t)) =
     Some (true, if is_nil e then <[bkt_name (bucket t) := it]> v else v)) →
  write_result t s v it
    (err ← bolt op; if negb (is_nil err) then mret (DatabaseError err) else mret ENil).
Proof.
  intros H1 Hop. unfold write_result, bolt, lib, mbind, M_bind.
  destruct (op (db (back s))) as [e d']. destruct Hop as [Hc Hv].
  destruct (is_nil e) eqn:En; cbn;
    eexists _, (mkSt (mkStore _ d' (lock (back s))) (world s)); (split; [done|]);
    (split; [done|]).
  - left. split; [done|]. split; [done|]. apply lookup_insert_eq.
  - right. split_and!; [apply DatabaseError_not_nil|apply DatabaseError_database|done].
Qed.

(** The operations that only read the transaction. [Empty] asks for the statistics of the
    bucket, and tells whether the shelf is empty unless a write transaction has changed it. *)
Lemma shelf_get (t : shelf) (k : Key) it s :
  shelf_at t s it →
  bboltShelf_Get t k s =
    (Return (match items_lookup (Bytes k) it with
             | Some x => (Some x, ENil) | None => (None, ErrKeyNotFound) end), s).
Proof.
  intros (w & v & H1 & H2). unfold bboltShelf_Get, bolt_read, bolt, lib, mbind, M_bind.
  rewrite (spec_Get _ _ _ _ _ _ H1 H2).
  replace (mkSt _ (world s)) with s by (by destruct s as [[]]).
  by destruct (items_lookup (Bytes k) it).
Qed.

Lemma shelf_empty (t : shelf) w v it s :
  view_of (bkt_Tx (bucket t)) s = Some (w, v) → v !! bkt_name (bucket t) = Some it →
  ∃ b, bboltShelf_Empty t s = (Return (b, ENil), s) ∧
    (w = false ∨ default [] (committed (db (back s)) !! bkt_name (bucket t)) = it →
     b = bool_decide (it = [])).
Proof.
  intros H1 H2. exists (bkt_KeyN (bucket t) (db (back s)) =? 0)%N. split.
  - unfold bboltShelf_Empty, bboltShelf_Stats, bolt_read, bolt, lib, mbind, M_bind. cbn.
    by destruct s as [[]].
  - intros Hf. rewrite (spec_KeyN _ _ _ _ _ H1 H2 Hf). by destruct it.
Qed.

Lemma shelf_ops (t : shelf) (k : Key) (x : bytes) v it s :
  writable_at t s v it →
  bboltShelf_Get t k s =
    (Return (match items_lookup (Bytes k) it with
             | Some x => (Some x, ENil) | None => (None, ErrKeyNotFound) end), s) ∧
  write_result t s v (items_insert (Bytes k) x it) (bboltShelf_Put t k x) ∧
  write_result t s v (items_delete (Bytes k) it) (bboltShelf_Delete t k).
Proof.
  intros [H1 H2]. split_and!; [apply shelf_get; by exists true, v|..].
  - apply bolt_write_spec; [done|]. by apply (spec_Put _ (bucket t) v it).
  - apply bolt_write_spec; [done|]. by apply (spec_Delete _ (bucket t) v it).
Qed.

(** C18: the single-key operations of a shelf implement the reference operations on its
    sorted pairs, within the transaction: [Get] reads what [Put] and [Delete] have written
    before in the same transaction; a failed write changes nothing and is a database error; no
    operation touches another shelf, the committed data or the lock. *)
Theorem bbolt_shelf_ops (t : shelf) (k : Key) (x : bytes) v it s (Hs : writable_at t s v it) :
  bboltShelf_Get t k s =
    (Return (match items_lookup (Bytes k) it with
             | Some x => (Some x, ENil) | None => (None, ErrKeyNotFound) end), s) ∧
  write_result t s v (items_insert (Bytes k) x it) (bboltShelf_Put t k x) ∧
  write_result t s v (items_delete (Bytes k) it) (bboltShelf_Delete t k).
Proof.
  by apply shelf_ops.
Qed.
End facts.
