(* ===== verification/BboltTx.v ===== *)
(** The transaction protocol of bbolt/bbolt.go's [doTX], as a specification of its
    outcomes and the proof that the code refines it. *)
From S2P Require Import Prelude Errors Keys Go Store Lock Timeout Shelf Walk Bbolt BboltSpec.
From S2P Require Import BboltFacts Client.

Section protocol.
Context `{BS : BoltSpec} {Logger W : Type} `{!Env W, !Scheduler W, !CallScheduler W}.
Context (cfg : Config Logger).
Implicit Types (s : St store W).
Abbreviation M := (M store W).

Definition data s : shelves := committed (db (back s)).
Definition held_lock s : RWMutex := lock (back s).

(** The committed data and the lock are those of [s]. *)
Definition restored s s' : Prop := data s' = data s ∧ held_lock s' = held_lock s.

(** ** Specification *)

(** A callback that uses the store through its transaction only: it commits nothing,
    leaves the lock alone and the transaction open. *)
Definition well_behaved (writable : bool) (fn : Tx → M error) : Prop :=
  ∀ t s v, view_of t s = Some (writable, v) →
    let s' := (fn t s).2 in
    restored s s' ∧ ∃ v', view_of t s' = Some (writable, v').

(** [fn] ran to its end once, in a transaction that saw the committed data of [s], and
    left the transaction's view [v] and its result [e] in [s1]. *)
Definition ran s (writable : bool) (fn : Tx → M error) (e : error) (v : shelves) s1 : Prop :=
  ∃ t s0, view_of t s0 = Some (writable, data s) ∧ data s0 = data s ∧
    fn t s0 = (Return e, s1) ∧ view_of t s1 = Some (writable, v).

(** The outcomes of a write transaction. *)
Inductive write_outcome (fn : Tx → M error) (opts : list (TxOption store W)) s :
    outcome error * St store W → Prop :=
  | wo_hangs s' : data s' = data s → write_outcome fn opts s (Blocked, s')
  | wo_not_started e s' :
      e ≠ ENil → is_database_error e = true → restored s s' →
      write_outcome fn opts s (Return e, s')
  | wo_crashed o s' t s0 :
      view_of t s0 = Some (true, data s) → fn t s0 = (o, s') → (∀ e, o ≠ Return e) →
      data s' = data s → write_outcome fn opts s (o, s')
  | wo_rolled_back e v s1 s2 :
      ran s true fn e v s1 → e ≠ ENil → restored s s2 →
      write_outcome fn opts s ((_ ← OnRollbackOption_Invoke opts; mret e) s2)
  | wo_commit_failed c v s1 s2 :
      ran s true fn ENil v s1 → c ≠ ENil → restored s s2 →
      write_outcome fn opts s
        ((_ ← OnRollbackOption_Invoke opts; mret (WrapError ErrCommitFailed c)) s2)
  | wo_committed v s1 s2 :
      ran s true fn ENil v s1 → data s2 = v → held_lock s2 = held_lock s →
      write_outcome fn opts s ((_ ← AfterCommitOption_Invoke opts; mret ENil) s2).

(** The outcomes of a read transaction. *)
Inductive read_outcome (fn : Tx → M error) s : outcome error * St store W → Prop :=
  | ro_hangs s' : data s' = data s → read_outcome fn s (Blocked, s')
  | ro_not_started e s' :
      e ≠ ENil → is_database_error e = true → restored s s' → read_outcome fn s (Return e, s')
  | ro_crashed o s' t s0 :
      view_of t s0 = Some (false, data s) → fn t s0 = (o, s') → (∀ e, o ≠ Return e) →
      data s' = data s → read_outcome fn s (o, s')
  | ro_done e v s1 s2 :
      ran s false fn e v s1 → restored s s2 → read_outcome fn s (Return e, s2).

(** ** Refinement *)

Hypothesis no_interference : undisturbed W.
Hypothesis forward : clock_forward (W := W).

Lemma Errorf_database text e : is_database_error (Errorf text e) = is_database_error e.
Proof. apply errors_Is_Errorf; done. Qed.

(** The lock phase. *)
Definition acquire (writable : bool) (ctx : Context W) : M error :=
  if writable then LockContext ctx else RLockContext ctx.
Definition lock_held (writable : bool) (o m : RWMutex) : Prop :=
  if writable then write_hold o m else read_hold o m.
Definition unlock_of (writable : bool) : M () := if writable then Unlock else RUnlock.

Lemma acquire_result writable ctx s :
  sticky ctx →
  lock_result ctx (hold := lock_held writable) (held_lock s) s (acquire writable ctx s).
Proof.
  intros Hst. unfold acquire, LockContext, RLockContext. destruct writable;
    [destruct (lockWithCancel_cases ctx Hst (hold := write_hold) s) as (o & HR & Ho)
    |destruct (lockWithCancel_cases ctx Hst (hold := read_hold) s) as (o & HR & Ho)];
    rewrite (Ho no_interference) in HR; exact HR.
Qed.

Lemma acquire_cases writable ctx s :
  sticky ctx →
  (∃ m s1, acquire writable ctx s = (Return ENil, s1) ∧ lock_held writable (held_lock s) m ∧
     db (back s1) = db (back s) ∧ held_lock s1 = m) ∨
  (∃ e s1, acquire writable ctx s = (Return e, s1) ∧ e ≠ ENil ∧ is_database_error e = true ∧
     db (back s1) = db (back s) ∧ held_lock s1 = held_lock s) ∨
  (∃ s1, acquire writable ctx s = (Blocked, s1) ∧ db (back s1) = db (back s) ∧
     (lock_held writable (held_lock s) (held_lock s1) ∨ held_lock s1 = held_lock s)).
Proof.
  intros Hst. destruct (acquire_result writable ctx s Hst) as [m w Hh|w w' Hw|m w Hm].
  - left. eauto 6.
  - right; left. eexists _, _. split_and!; [done|apply DatabaseError_not_nil
      |apply DatabaseError_database|done|done].
  - right; right. by eexists _.
Qed.

Lemma bbolt_unlock_spec writable s o :
  lock_held writable o (held_lock s) →
  unlock_of writable s = (Return (), mkSt (mkStore _ (db (back s)) o) (world s)).
Proof.
  unfold unlock_of, Unlock, RUnlock, on_mux, held_lock, lock_held.
  destruct writable; intros Hh; cbn; apply hold_unlock in Hh; by rewrite Hh.
Qed.

Lemma rollbackTX_spec t s :
  ∃ s', rollbackTX t s = (Return (), s') ∧ restored s s' ∧ world s' = world s.
Proof.
  unfold rollbackTX, bolt, lib, mbind, M_bind.
  pose proof (spec_Rollback (db (back s)) t) as HR.
  destruct (tx_Rollback t (db (back s))) as [e d']. cbn in *. by eexists.
Qed.

Lemma rollback_unlock {A} writable t s o (k : M A) :
  lock_held writable o (held_lock s) →
  ∃ s', (_ ← rollbackTX t; _ ← unlock_of writable; k) s = k s' ∧
    data s' = data s ∧ held_lock s' = o.
Proof.
  intros Hh. destruct (rollbackTX_spec t s) as (s1 & E & [Hd Hl] & _).
  rewrite (bind_Return _ _ _ _ _ E). rewrite <-Hl in Hh.
  rewrite (bind_Return _ _ _ _ _ (bbolt_unlock_spec writable s1 o Hh)).
  eexists. split; [done|]. by rewrite <-Hd.
Qed.

(** The commit phase of a write transaction whose callback succeeded. *)
Lemma bbolt_commit_phase ctx t s o v :
  sticky ctx → view_of t s = Some (true, v) → lock_held true o (held_lock s) →
  ∃ err s',
    (e ← ctx_Err ctx;
     if negb (is_nil e) then err ← ctx_Err ctx; _ ← rollbackTX t; mret err
     else bolt (tx_Commit t)) s = (Return err, s') ∧
    data s' = (if is_nil err then v else data s) ∧ held_lock s' = held_lock s.
Proof.
  intros Hst Hv Hh. rewrite (bind_Return _ _ _ _ _ (ctx_Err_run ctx s)).
  set (s1 := mkSt (back s) (tick (world s))).
  destruct (is_nil (Err ctx (tick (world s)))) eqn:En; cbn [negb].
  - unfold bolt, lib. pose proof (spec_Commit (db (back s1)) t v Hv) as HC.
    destruct (tx_Commit t (db (back s1))) as [e d']. by eexists e, _.
  - rewrite (bind_Return _ _ _ _ _ (ctx_Err_run ctx s1)).
    set (s2 := mkSt (back s1) (tick (world s1))).
    destruct (rollbackTX_spec t s2) as (s3 & E & [Hd Hl] & _).
    rewrite (bind_Return _ _ _ _ _ E). eexists _, s3. split; [done|].
    assert (is_nil (Err ctx (tick (world s1))) = false) as ->; [|done].
    by apply is_nil_false, Hst, is_nil_false.
Qed.

Lemma bbolt_finish_write ctx t opts fn s s0 s1 app v :
  sticky ctx → view_of t s0 = Some (true, data s) → data s0 = data s →
  fn t s0 = (Return app, s1) →
  view_of t s1 = Some (true, v) → lock_held true (held_lock s) (held_lock s1) →
  data s1 = data s →
  write_outcome fn opts s (finishTX ctx t true opts (unlock_of true) app s1).
Proof.
  intros Hst Hv0 Hd0 Hfn Hv Hh Hd. assert (Hran : ran s true fn app v s1) by (by exists t, s0).
  unfold finishTX. cbn [negb]. destruct (is_nil app) eqn:En; cbn [negb].
  - apply is_nil_true in En as ->.
    destruct (bbolt_commit_phase ctx t s1 (held_lock s) v Hst Hv Hh) as (err & s2 & E & Hd2 & Hl2).
    rewrite <-bind_assoc. rewrite (bind_Return _ _ _ _ _ E).
    rewrite <-Hl2 in Hh. destruct (is_nil err) eqn:Ee; cbn [negb];
      rewrite (bind_Return _ _ _ _ _ (bbolt_unlock_spec true s2 (held_lock s) Hh)).
    + by eapply wo_committed.
    + eapply wo_commit_failed; [done|by apply is_nil_false|]. split; [|done].
      cbn. etrans; [exact Hd2|done].
  - destruct (rollback_unlock true t s1 (held_lock s)
      (_ ← OnRollbackOption_Invoke opts; mret app) Hh) as (s2 & -> & Hd2 & Hl2).
    eapply wo_rolled_back; [done|by apply is_nil_false|]. split; [congruence|done].
Qed.

(** Before the callback: the call waits for ever, or fails, or a transaction is begun, with the
    lock held; whatever the callback is. *)
Lemma doTX_start writable ctx s :
  sticky ctx →
  (∃ s', data s' = data s ∧ ∀ fn opts, doTX cfg ctx fn writable opts s = (Blocked, s')) ∨
  (∃ e s', e ≠ ENil ∧ is_database_error e = true ∧ restored s s' ∧
     ∀ fn opts, doTX cfg ctx fn writable opts s = (Return e, s')) ∨
  (∃ t s0, view_of t s0 = Some (writable, data s) ∧ data s0 = data s ∧
     lock_held writable (held_lock s) (held_lock s0) ∧
     ∀ fn opts, doTX cfg ctx fn writable opts s =
       (app ← fn t; finishTX ctx t writable opts (unlock_of writable) app) s0).
Proof.
  intros Hst. set (lockCtx := WithTimeout ctx (now (world s)) (LockAcquireTimeout cfg)).
  assert (EA : ∀ fn opts, doTX cfg ctx fn writable opts s =
    (err ← acquire writable lockCtx;
     if negb (is_nil err) then
       mret (Errorf (if writable then #"unable to obtain BBolt write lock"
                     else #"unable to obtain BBolt read lock") err)
     else
       r ← bolt (db_Begin writable);
       let '(dbTX, err) := r in
       if negb (is_nil err) then
         _ ← unlock_of writable;
         if bool_decide (err = ErrDatabaseNotOpen) then mret ErrStoreIsClosed
         else mret (DatabaseError err)
       else app ← fn dbTX; finishTX ctx dbTX writable opts (unlock_of writable) app) s)
    by (intros; exact (bind_Return get_world _ s (world s) s eq_refl)).
  destruct (acquire_cases writable lockCtx s (WithTimeout_sticky _ _ _ forward Hst))
    as [(m & s1 & E & Hh & Hdb & Hl)|[(e & s1 & E & He & Hde & Hdb & Hl)|(s1 & E & Hdb & _)]].
  - pose proof (spec_Begin (db (back s1)) writable) as HB.
    destruct (db_Begin writable (db (back s1))) as [[t e] d'] eqn:EB. destruct HB as [Hc Ht].
    set (s2 := mkSt (mkStore _ d' (lock (back s1))) (world s1)).
    assert (ES : bolt (db_Begin writable) s1 = (Return (t, e), s2))
      by (unfold bolt, lib; by rewrite EB).
    assert (Hd2 : data s2 = data s) by (unfold data; cbn; by rewrite Hc, Hdb).
    assert (Hl2 : held_lock s2 = m) by exact Hl. rewrite <-Hl2 in Hh.
    right. destruct (is_nil e) eqn:Ee.
    + right. apply is_nil_true in Ee as ->. exists t, s2. split_and!; [|done|done|].
      * unfold view_of. cbn. rewrite Ht by done. unfold data. by rewrite Hdb.
      * intros fn opts. rewrite EA, (bind_Return _ _ _ _ _ E). cbn [is_nil negb].
        by rewrite (bind_Return _ _ _ _ _ ES).
    + left. pose proof (bbolt_unlock_spec writable s2 (held_lock s) Hh) as Eu.
      assert (HR : restored s (mkSt (mkStore _ (db (back s2)) (held_lock s)) (world s2)))
        by done.
      eexists (if bool_decide (e = ErrDatabaseNotOpen) then ErrStoreIsClosed else DatabaseError e), _.
      split; [|split; [|split; [exact HR|]]].
      * destruct (bool_decide _); [apply DatabaseError_not_nil..].
      * destruct (bool_decide _); apply DatabaseError_database.
      * intros fn opts. rewrite EA, (bind_Return _ _ _ _ _ E). cbn [is_nil negb].
        rewrite (bind_Return _ _ _ _ _ ES), Ee. cbn [negb].
        rewrite (bind_Return _ _ _ _ _ Eu). by destruct (bool_decide _).
  - right; left. apply is_nil_false in He.
    exists (Errorf (if writable then #"unable to obtain BBolt write lock"
                    else #"unable to obtain BBolt read lock") e), s1.
    split_and!; [done|by rewrite Errorf_database|by split; [unfold data; rewrite Hdb|]|].
    intros fn opts. rewrite EA, (bind_Return _ _ _ _ _ E), He. reflexivity.
  - left. exists s1. split; [unfold data; by rewrite Hdb|]. intros fn opts.
    rewrite EA. unfold mbind, M_bind. by rewrite E.
Qed.

Lemma bbolt_write_protocol_lemma ctx fn opts s :
  sticky ctx → well_behaved true fn →
  write_outcome fn opts s (doTX cfg ctx fn true opts s).
Proof.
  intros Hst Hfn.
  destruct (doTX_start true ctx s Hst)
    as [(s' & Hd & E)|[(e & s' & He & Hde & Hr & E)|(t & s0 & Hv & Hd & Hh & E)]]; rewrite E; clear E.
  - by apply wo_hangs.
  - by apply wo_not_started.
  - destruct (Hfn t s0 (data s) Hv) as [[Hd1 Hl1] [v Hv1]].
    unfold mbind at 1, M_bind at 1. destruct (fn t s0) as [o s1] eqn:E. cbn in *.
    assert (Hd' : data s1 = data s) by congruence.
    destruct o as [app| | |]; try by eapply wo_crashed.
    eapply bbolt_finish_write; try done. by rewrite Hl1.
Qed.

(** C2: a write transaction refines the protocol. In every run one of these happens: the
    call hangs on the lock (as Lock.v shows that it can); it fails with a
    database error before [fn] is called, and nothing has changed; [fn] crashes; [fn] returns
    an error, or succeeds but the commit fails or the context has expired, and then the
    committed data is what it was, the lock is released, and after that the [OnRollback]
    functions are called and the error (of [fn]; wrapped in [ErrCommitFailed]) is returned; or
    the committed data is exactly what the transaction saw when [fn] returned, the lock is
    released, and after that the [AfterCommit] functions are called and nil is returned. *)
Theorem bbolt_write_protocol ctx fn opts s
    (Hst : sticky ctx) (Hfn : well_behaved true fn) :
  write_outcome fn opts s (doTX cfg ctx fn true opts s).
Proof.
  by apply bbolt_write_protocol_lemma.
Qed.

Lemma bbolt_read_protocol_lemma ctx fn s :
  sticky ctx → well_behaved false fn →
  read_outcome fn s (doTX cfg ctx fn false [] s).
Proof.
  intros Hst Hfn.
  destruct (doTX_start false ctx s Hst)
    as [(s' & Hd & E)|[(e & s' & He & Hde & Hr & E)|(t & s0 & Hv & Hd & Hh & E)]]; rewrite E; clear E.
  - by apply ro_hangs.
  - by apply ro_not_started.
  - destruct (Hfn t s0 (data s) Hv) as [[Hd1 Hl1] [v Hv1]].
    unfold mbind at 1, M_bind at 1. destruct (fn t s0) as [o s1] eqn:E. cbn in *.
    assert (Hd' : data s1 = data s) by congruence.
    destruct o as [app| | |]; try by eapply ro_crashed.
    change (read_outcome fn s (finishTX ctx t false [] (unlock_of false) app s1)).
    unfold finishTX. cbn [negb]. rewrite <-Hl1 in Hh.
    destruct (rollback_unlock false t s1 (held_lock s) (mret app) Hh) as (s2 & -> & Hd2 & Hl2).
    eapply ro_done; [by exists t, s0|]. split; [congruence|done].
Qed.

(** C11: a read transaction returns what [fn] returned, whatever that is, with the
    committed data untouched and the read lock released; or it fails before [fn] is called,
    hangs on the lock, or crashes with [fn]. *)
Theorem bbolt_read_protocol ctx fn s
    (Hst : sticky ctx) (Hfn : well_behaved false fn) :
  read_outcome fn s (doTX cfg ctx fn false [] s).
Proof. by apply bbolt_read_protocol_lemma. Qed.

(** ** Clients *)

(** The shelf of [t] holds [it], the other shelves of its transaction are [v]'s, and the
    committed data is [d]. *)
Definition backed (t : bboltShelf (W := W)) (d v : shelves) s (it : items) : Prop :=
  writable_at t s (<[bkt_name (bucket t) := it]> v) it ∧ data s = d.

(** Failed writes are database errors; reads do not fail. *)
Definition bbolt_write_fails (e : error) : Prop := is_database_error e = true.
Definition bbolt_read_fails (e : error) : Prop := False.
(** For programs on a shelf that had the pairs [it] when the transaction began: what [Empty]
    answers once the shelf has others is left open. *)
Abbreviation client_spec it := (client_spec bbolt_write_fails bbolt_read_fails (Some it)).

(** The bbolt shelf keeps the abstract store's promise to its clients. *)
#[global] Instance bbolt_Backed fuel t d v :
  Backed bbolt_write_fails bbolt_read_fails (Some (default [] (d !! bkt_name (bucket t))))
    (as_Writer fuel t) (backed t d v) only_view.
Proof.
  assert (HW : ∀ it it' s (m : M error), write_result t s (<[bkt_name (bucket t):=it]> v) it' m →
    backed t d v s it → ∃ e s', m s = (Return e, s') ∧ only_view s s' ∧
      ((e = ENil ∧ backed t d v s' it') ∨
       (e ≠ ENil ∧ is_database_error e = true ∧ backed t d v s' it))).
  { intros it it' s m (e & s' & E & Hf & HC) [[H1 H2] Hc]. exists e, s'. split_and!; [done|done|].
    assert (Hc' : data s' = d) by (by rewrite <-Hc; apply Hf).
    destruct HC as [[-> [Hv Hn]]|(Hn & Hd & Hv)]; [left|right].
    - split; [done|]. split; [|done]. by rewrite insert_insert_eq in Hv, Hn.
    - by split_and!. }
  split.
  - apply _.
  - intros k it s Hb. eexists _, s. split_and!; [|done|done|by left].
    by apply (shelf_ops t k []  _ _ _ (proj1 Hb)).
  - intros it s Hb. pose proof Hb as [[H1 H2] Hc]. destruct (shelf_empty t _ _ _ _ H1 H2) as (b & E & Ha).
    exists b, s. split_and!; [done..|]. intros [?|[= He]]; [done|]. apply Ha. right. by rewrite <-Hc in He.
  - intros k x it s Hb. eapply HW; [|done]. by apply (shelf_ops t k x _ _ _ (proj1 Hb)).
  - intros k it s Hb. eapply HW; [|done]. by apply (shelf_ops t k [] _ _ _ (proj1 Hb)).
Qed.

(** The reader [r] that [GetShelfReader] made for the shelf [name] in transaction [t]. *)
Definition reads_from (fuel : nat) (t : Tx) (name : bytes) (r : Reader store W) (v : shelves) s
    (it : items) : Prop :=
  view_of t s = Some (false, v) ∧ it = default [] (v !! name) ∧
  ((v !! name = None ∧ r = NilReader) ∨
   ∃ b ctx, v !! name = Some it ∧ r = as_Reader fuel (mkShelf b ctx) ∧
     bkt_Tx b = t ∧ bkt_name b = name).

(** A reader of a transaction serves the pairs it was made for, and changes nothing. *)
#[global] Instance bbolt_Serves (fuel : nat) t name r v it :
  Serves bbolt_read_fails r (λ s it', it' = it ∧ reads_from fuel t name r v s it) eq.
Proof.
  assert (HR : ∀ k s, reads_from fuel t name r v s it →
    Get r k s = (Return (get_result k it), s) ∧
    Empty r s = (Return (bool_decide (it = []), ENil), s)).
  { intros k s (Hv & -> & [[En ->]|(b & ctx & En & -> & Ht & Hn)]); [by rewrite En|].
    rewrite En. cbn in *.
    assert (Hv' : view_of (bkt_Tx (bucket (mkShelf (W := W) b ctx))) s = Some (false, v)) by (cbn; by rewrite Ht).
    assert (En' : v !! bkt_name (bucket (mkShelf (W := W) b ctx)) = Some (default [] (v !! name)))
      by (cbn; by rewrite Hn).
    rewrite En in En'. split; [apply (shelf_get (mkShelf b ctx) k); by exists false, v|].
    destruct (shelf_empty (mkShelf b ctx) _ _ _ _ Hv' En') as (e & -> & ->); [|by left]. done. }
  split; [apply _|..].
  - intros k it' s [-> Hs]. destruct (HR k s Hs) as [-> _]. eexists _, s. split_and!; auto.
  - intros it' s [-> Hs]. destruct (HR (BytesKey []) s Hs) as [_ ->]. by eexists s.
Qed.

(** A query run on a shelf of a read transaction [t]. *)
Abbreviation query_spec := (query_spec bbolt_read_fails).
Definition query_callback fuel ctx name q : Tx → M error := λ t,
  shelf ← bboltTx_GetShelfReader fuel (mkTx t ctx) name; run_query shelf q.

Lemma query_callback_run fuel ctx name q t s v :
  view_of t s = Some (false, v) →
  ∃ e, query_callback fuel ctx name q t s = (Return e, s) ∧
    query_spec (default [] (v !! name)) q e.
Proof.
  intros Hv. unfold query_callback, bboltTx_GetShelfReader, getBucket. cbn [tx tx_ctx].
  pose proof (spec_Bucket (db (back s)) t false v name Hv) as HB.
  assert (ES : bolt_read (tx_Bucket t name) s = (Return (tx_Bucket t name (db (back s))), s))
    by (unfold bolt_read, bolt, lib; by destruct s as [[]]).
  rewrite bind_assoc, (bind_Return _ _ _ _ _ ES).
  assert (HR : ∀ r : Reader store W, reads_from fuel t name r v s (default [] (v !! name)) →
    ∃ e, run_query r q s = (Return e, s) ∧ query_spec (default [] (v !! name)) q e).
  { intros r Hr. destruct (run_query_refines _ r _ _ q _ s (conj eq_refl Hr))
      as (e & s' & E & Hq & _ & <-). eauto. }
  destruct (v !! name) as [it|] eqn:Ed;
    [destruct HB as (b & Eb & Ht & Hn); rewrite Eb|rewrite HB]; apply HR.
  - split_and!; [done|by rewrite Ed|]. right. exists b, ctx. by rewrite Ed.
  - split_and!; [done|by rewrite Ed|]. by left.
Qed.

(** A client program run on a shelf of a fresh write transaction [t]: either it ran as
    the abstract store allows on the shelf's pairs, and the transaction now sees the
    result; or the shelf could not be opened and nothing has changed. *)
Definition client_callback fuel ctx name c : Tx → M error := λ t,
  shelf ← bboltTx_GetShelfWriter fuel (mkTx t ctx) name; run_client shelf c.

Lemma client_callback_spec fuel ctx name c t s v :
  view_of t s = Some (true, v) →
  ∃ e s', client_callback fuel ctx name c t s = (Return e, s') ∧ restored s s' ∧
    ((∃ it, client_spec (default [] (data s !! name)) c (default [] (v !! name)) e it ∧
      view_of t s' = Some (true, <[name := it]> v)) ∨
     ((∃ err, err ≠ ENil ∧ run_client (NewErrorWriter err) c s' = (Return e, s')) ∧
      view_of t s' = Some (true, v))).
Proof.
  intros Hv. unfold client_callback, bboltTx_GetShelfWriter.
  pose proof (spec_CreateBucket (db (back s)) t v name Hv) as HC. cbn [tx].
  destruct (tx_CreateBucketIfNotExists t name (db (back s))) as [[b err] d'] eqn:EC.
  destruct HC as [Hd HC]. rewrite bind_assoc.
  set (s1 := mkSt (mkStore _ d' (lock (back s))) (world s)).
  assert (ES : bolt (tx_CreateBucketIfNotExists t name) s = (Return (b, err), s1))
    by (unfold bolt, lib; by rewrite EC).
  rewrite (bind_Return _ _ _ _ _ ES). destruct (is_nil err) eqn:En; cbn [negb]; rewrite bind_ret.
  - destruct HC as (Ht & Hn & Hv1).
    assert (Hb : backed (mkShelf b ctx) (data s) v s1 (default [] (v !! name))).
    { unfold backed, writable_at. cbn. rewrite Ht, Hn. split_and!; [done|apply lookup_insert_eq|done]. }
    destruct (run_client_refines _ _ _ (as_Writer fuel (mkShelf b ctx)) _ _ c _ _ Hb)
      as (e & s2 & it & E & Hs & [[Hb2 _] _] & (Hf & Hl & _)).
    cbn in Hs. rewrite Hn in Hs.
    exists e, s2. split; [exact E|]. split; [split; [by etrans|done]|].
    left. exists it. split; [done|]. cbn in Hb2. by rewrite Ht, Hn in Hb2.
  - destruct (run_client_errWriter err c s1) as [e E]. exists e, s1.
    split; [exact E|]. split; [by split|]. right. split; [|done].
    exists err. split; [by apply is_nil_false|done].
Qed.

Lemma client_well_behaved fuel ctx name c : well_behaved true (client_callback fuel ctx name c).
Proof.
  intros t s v Hv. destruct (client_callback_spec fuel ctx name c t s v Hv)
    as (e & s' & -> & Hr & HC). cbn. split; [done|].
  destruct HC as [(it & _ & H)|[_ H]]; eauto.
Qed.

(** The ends of a [WriteShelf] with a client program. *)
Lemma bbolt_WriteShelf_cases fuel ctx name c s :
  sticky ctx →
  (∃ s', store_WriteShelf cfg fuel ctx name (λ w, run_client w c) s = (Blocked, s') ∧
     data s' = data s) ∨
  (∃ e s', store_WriteShelf cfg fuel ctx name (λ w, run_client w c) s = (Return e, s') ∧
     held_lock s' = held_lock s ∧ (e ≠ ENil → data s' = data s) ∧
     (e = ENil →
       (∃ it, client_spec (default [] (data s !! name)) c (default [] (data s !! name)) ENil it ∧
              data s' = <[name := it]> (data s)) ∨
       (data s' = data s ∧
        ∃ err s1, err ≠ ENil ∧ run_client (NewErrorWriter err) c s1 = (Return ENil, s1)))).
Proof.
  intros Hst.
  change (store_WriteShelf cfg fuel ctx name (λ w, run_client w c) s)
    with (doTX cfg ctx (client_callback fuel ctx name c) true [] s).
  destruct (bbolt_write_protocol_lemma ctx (client_callback fuel ctx name c) [] s Hst
    (client_well_behaved fuel ctx name c)) as [s2 Hd|e0 s2 He Hd [H1 H2]|o s2 t s0 Hv E Hne Hd
    |e0 v s1 s2 Hran He [H1 H2]|c0 v s1 s2 Hran He [H1 H2]
    |v s1 s2 (t & s0 & Hv & Hd0 & E & Hv1) Hd Hl]; [left|right..].
  - by exists s2.
  - by exists e0, s2.
  - destruct (client_callback_spec fuel ctx name c t s0 _ Hv) as (e & s3 & E' & _).
    rewrite E in E'. injection E' as -> ->. by destruct (Hne e).
  - by exists e0, s2.
  - by eexists _, s2.
  - exists ENil, s2. split_and!; [done|done|done|]. intros _.
    destruct (client_callback_spec fuel ctx name c t s0 _ Hv) as (e & s3 & E' & Hr & HC).
    rewrite E in E'. injection E' as <- <-. rewrite Hv1 in HC. rewrite Hd0 in HC.
    destruct HC as [(it & Hs & [= ->])|((err & Hn & Hrun) & [= ->])]; [left|right]; eauto.
Qed.

(** C1: atomicity and functional correctness for clients. When [WriteShelf] returns nil
    after running a client program on a shelf, the committed data of the shelf is what
    the abstract store gets when the program runs on the shelf's previous pairs (empty
    for a new shelf) and returns nil, where [Empty] may answer anything once the program has
    changed the shelf, and every other shelf is unchanged; the one other way
    to return nil is a program that ignores that its shelf could not be opened, and changes
    nothing. When [WriteShelf] returns an error nothing has changed. In both cases the lock
    is as before. *)
Theorem bbolt_WriteShelf_atomic fuel ctx name c s e s'
    (Hst : sticky ctx)
    (HR : store_WriteShelf cfg fuel ctx name (λ w, run_client w c) s = (Return e, s')) :
  held_lock s' = held_lock s ∧
  (e ≠ ENil → data s' = data s) ∧
  (e = ENil →
    (∃ it, client_spec (default [] (data s !! name)) c (default [] (data s !! name)) ENil it ∧
           data s' = <[name := it]> (data s)) ∨
    (data s' = data s ∧
     ∃ err s1, err ≠ ENil ∧ run_client (NewErrorWriter err) c s1 = (Return ENil, s1))).
Proof.
  destruct (bbolt_WriteShelf_cases fuel ctx name c s Hst)
    as [(s1 & E & _)|(e1 & s1 & E & H)]; rewrite HR in E; [done|]. by injection E as -> ->.
Qed.
End protocol.
