(* ===== verification/BboltProgram.v ===== *)
(** Programs on several shelves in a transaction of bbolt/bbolt.go: [Write], with its options,
    and [Read]. *)
From S2P Require Import Prelude Errors Keys Go Store Lock Timeout Shelf Client Program Contract.
From S2P Require Import Bbolt BboltSpec BboltFacts BboltTx.

Section programs.
Context `{BS : BoltSpec} {Logger W : Type} `{!Env W, !Scheduler W, !CallScheduler W}.
Context (cfg : Config Logger) (fuel : nat).
Implicit Types (s : St store W) (t : Tx) (v : BboltSpec.shelves) (σ : Program.shelves).
Abbreviation M := (M store W).

(** A shelf that cannot be opened fails with a database error. *)
Definition bbolt_open_fails (e : error) : Prop := is_database_error e = true.
(** For programs in a transaction that began with the shelves [σ]. *)
Abbreviation program_spec σ :=
  (program_spec bbolt_open_fails bbolt_write_fails bbolt_read_fails (Some σ) ∅).
Abbreviation inquiry_spec := (inquiry_spec bbolt_read_fails).

(** ** Write transactions *)

(** The buckets of [v] hold the shelves [σ]. *)
Definition views v σ : Prop := ∀ n, default [] (v !! n) = σ n.

Lemma views_insert v σ n it : views v σ → views (<[n := it]> v) (set_shelf n it σ).
Proof.
  intros Hv m. unfold set_shelf. case_bool_decide as Hm.
  - subst m. by rewrite lookup_insert_eq.
  - by rewrite lookup_insert_ne by auto.
Qed.
Lemma views_same v σ n : views v σ → views v (set_shelf n (σ n) σ).
Proof. intros Hv m. unfold set_shelf. case_bool_decide; [by subst|done]. Qed.

(** The transaction sees the shelves [σ]; the committed ones are [σ0]. *)
Definition seen σ0 t s σ : Prop :=
  (∃ v, view_of t s = Some (true, v) ∧ views v σ) ∧ views (data s) σ0.

(** [b]'s bucket exists in the transaction [t]. *)
Definition bucket_in t s (n : bytes) (b : Bucket) : Prop :=
  bkt_Tx b = t ∧ bkt_name b = n ∧ ∃ v, view_of t s = Some (true, v) ∧ is_Some (v !! n).

(** A writer [t] has handed out: of a bucket, or one that fails. *)
Definition writer_in t s (n : bytes) (r : option error) (w : Writer store W) : Prop :=
  match r with
  | None => ∃ b ctx, w = as_Writer fuel (mkShelf b ctx) ∧ bucket_in t s n b
  | Some err => ∃ e, w = NewErrorWriter e ∧ err = DatabaseError e
  end.

(** The transaction is used: nothing else changes, and its buckets stay. *)
Definition used t s s' : Prop :=
  only_view s s' ∧ ∀ n b, bucket_in t s n b → bucket_in t s' n b.
#[global] Instance used_preorder t : PreOrder (used t).
Proof.
  split; [by intros s|]. intros s1 s2 s3 [H1 H2] [H3 H4]. split; [by etrans|auto].
Qed.

Lemma used_write t s s' v v' :
  only_view s s' → view_of t s = Some (true, v) → view_of t s' = Some (true, v') →
  (∀ m, is_Some (v !! m) → is_Some (v' !! m)) → used t s s'.
Proof.
  intros Hf Hv Hv' Hm. split; [done|]. intros m b (Ht & Hn & v0 & E & Hs).
  split_and!; [done|done|]. exists v'. split; [done|]. apply Hm. congruence.
Qed.

Lemma write_used t s n b ctx σ0 σ v f m :
  bkt_Tx b = t → bkt_name b = n → view_of t s = Some (true, v) → views v σ →
  v !! n = Some (σ n) → views (data s) σ0 →
  write_result (mkShelf b ctx) s v (f (σ n)) m →
  ∃ e it s', m s = (Return e, s') ∧ seen σ0 t s' (set_shelf n it σ) ∧ used t s s' ∧
    writes bbolt_write_fails None (σ n) (f (σ n)) e it.
Proof.
  intros <- <- Hv Hσ Hb H0 (e & s' & E & Hf & HC). exists e. cbn in HC.
  assert (H0' : views (data s') σ0) by (unfold data; by rewrite (proj1 Hf)).
  destruct HC as [(-> & Hv' & _)|(Hn & Hd & Hv')].
  - exists (f (σ (bkt_name b))), s'. split_and!; [done| | |by left].
    2:{ eapply used_write; [done..|]. intros m' Hm. rewrite lookup_insert_is_Some'. by right. }
    split; [|done]. eexists. split; [exact Hv'|]. by apply views_insert.
  - exists (σ (bkt_name b)), s'. split_and!; [done| |by eapply used_write|by right].
    split; [|done]. eexists. split; [exact Hv'|]. by apply views_same.
Qed.

#[global] Instance bbolt_BackedTx ctx t σ0 :
  BackedTx bbolt_open_fails bbolt_write_fails bbolt_read_fails (Some σ0)
    (as_WriteTx fuel (mkTx t ctx)) (λ _, True) (seen σ0 t) (writer_in t) (used t).
Proof.
  assert (HB : ∀ n σ s b, seen σ0 t s σ → bucket_in t s n b →
    ∃ v, view_of t s = Some (true, v) ∧ views v σ ∧ v !! n = Some (σ n) ∧
      ∀ ctx, writable_at (mkShelf b ctx) s v (σ n)).
  { intros n σ s b [(v & Hv & Hσ) _] (<- & <- & v' & Hv' & [it Hit]). simplify_eq.
    assert (Es : v !! bkt_name b = Some (σ (bkt_name b))) by (rewrite <-Hσ, Hit; done).
    exists v. split_and!; [done..|]. intros c. by split. }
  split; [split|..].
  - apply _.
  - intros n [err|] w s s' [_ Hf]; [done|]. intros (b & c & -> & Hb). exists b, c. auto.
  - intros n σ s _ [(v & Hv & Hσ) H0]. cbn [GetShelfWriter as_WriteTx]. unfold bboltTx_GetShelfWriter. cbn [tx tx_ctx].
    pose proof (spec_CreateBucket (db (back s)) t v n Hv) as HC.
    destruct (tx_CreateBucketIfNotExists t n (db (back s))) as [[b err] d'] eqn:EC.
    set (s1 := mkSt (mkStore _ d' (lock (back s))) (world s)).
    assert (ES : bolt (tx_CreateBucketIfNotExists t n) s = (Return (b, err), s1))
      by (unfold bolt, lib; by rewrite EC).
    rewrite (bind_Return _ _ _ _ _ ES). destruct HC as [Hd HC].
    destruct (is_nil err) eqn:En; cbn [negb].
    + destruct HC as (Ht & Hn & Hv1). exists (as_Writer fuel (mkShelf b ctx)), None, s1.
      split_and!; [done|..].
      * split; [|intros m; unfold data; cbn; rewrite Hd; apply H0].
        eexists. split; [exact Hv1|]. intros m. rewrite <-Hσ.
        destruct (decide (m = n)) as [->|Hm]; [by rewrite lookup_insert_eq|by rewrite lookup_insert_ne].
      * eapply used_write; [by split_and!|exact Hv|exact Hv1|]. intros m Hm.
        destruct (decide (m = n)) as [->|?]; [by rewrite lookup_insert_eq|by rewrite lookup_insert_ne].
      * exists b, ctx. split; [done|]. split_and!; [done|done|]. eexists. split; [exact Hv1|].
        by rewrite lookup_insert_eq.
      * done.
    + exists (NewErrorWriter err), (Some (DatabaseError err)), s1. split_and!; [done| | | |].
      * split; [by exists v|]. intros m. unfold data. cbn. rewrite Hd. apply H0.
      * by eapply used_write; [|exact Hv|exact HC|].
      * by exists err.
      * intros e [= <-]. apply DatabaseError_database.
  - intros n [err|] w k σ s _ Hs; cbn; [intros (e & -> & ->)|intros (b & c & -> & Hb)].
    + by exists (None, DatabaseError e), s.
    + destruct (HB n σ s b Hs Hb) as (v & _ & _ & _ & Hw). eexists _, s.
      split_and!; [by apply (shelf_ops (mkShelf b c) k [] v (σ n))|done..|by left].
  - intros n [err|] w σ s _ Hs; cbn; [intros (e & -> & ->)|intros (b & c & -> & Hb)].
    + by exists (false, DatabaseError e), s.
    + destruct (HB n σ s b Hs Hb) as (v & Hv & _ & E & _). pose proof Hb as (Ht & Hn & _).
      destruct (shelf_empty (mkShelf b c) true v (σ n) s) as (x & Ex & Ha); [by cbn; rewrite Ht|by cbn; rewrite Hn|].
      exists (x, ENil), s. split_and!; [exact Ex|done|done|]. exists x. split; [done|].
      intros [?|[= H0]]; [done|]. apply Ha. right. cbn. rewrite Hn, <-H0. apply Hs.
  - intros n [err|] w k x σ s _ Hs; cbn; [intros (e & -> & ->)|intros (b & c & -> & Hb)].
    + exists (DatabaseError e), (σ n), s. split_and!; [done| |done..].
      destruct Hs as [(v & Hv & Hσ) H0]. split; [|done]. exists v. split; [done|]. by apply views_same.
    + destruct (HB n σ s b Hs Hb) as (v & Hv & Hσ & E & Hw). pose proof Hb as (Ht & Hn & _).
      eapply (write_used t s n b c σ0 σ v (items_insert (Bytes k) x)); try done; [apply Hs|].
      by apply (shelf_ops (mkShelf b c) k x v (σ n)).
  - intros n [err|] w k σ s _ Hs; cbn; [intros (e & -> & ->)|intros (b & c & -> & Hb)].
    + exists (DatabaseError e), (σ n), s. split_and!; [done| |done..].
      destruct Hs as [(v & Hv & Hσ) H0]. split; [|done]. exists v. split; [done|]. by apply views_same.
    + destruct (HB n σ s b Hs Hb) as (v & Hv & Hσ & E & Hw). pose proof Hb as (Ht & Hn & _).
      eapply (write_used t s n b c σ0 σ v (items_delete (Bytes k))); try done; [apply Hs|].
      by apply (shelf_ops (mkShelf b c) k [] v (σ n)).
Qed.

(** The callback of a [Write] with a program. *)
Definition program_callback ctx p : Tx → M error := λ t,
  run_program (as_WriteTx fuel (mkTx t ctx)) ∅ p.

Lemma bbolt_program_run ctx p t s v σ σ0 :
  view_of t s = Some (true, v) → views v σ → views (data s) σ0 →
  ∃ e s' σ' v', program_callback ctx p t s = (Return e, s') ∧ program_spec σ0 σ p e σ' ∧
    restored s s' ∧ view_of t s' = Some (true, v') ∧ views v' σ'.
Proof.
  intros Hv Hσ H0. destruct (run_program_refines _ _ _ (Some σ0) (as_WriteTx fuel (mkTx t ctx))
    (λ _, True) (seen σ0 t) (writer_in t) (used t) p ∅ ∅ σ s)
    as (e & σ' & s' & E & Hp & [(v' & Hv' & Hσ') _] & (Hd & Hl & _) & _).
  - apply program_on_all.
  - split; [by exists v|done].
  - apply kept_none.
  - by exists e, s', σ', v'.
Qed.

Lemma bbolt_program_well_behaved ctx p : well_behaved true (program_callback ctx p).
Proof.
  intros t s v Hv. destruct (bbolt_program_run ctx p t s v (λ n, default [] (v !! n))
    (λ n, default [] (data s !! n)) Hv) as (e & s' & σ' & v' & E & _ & Hr & Hv' & _); [done..|]. rewrite E. split; [done|]. by exists v'.
Qed.

(** ** Read transactions *)

(** The reader of a shelf in a transaction that sees [v]. *)
Definition reader_in t v (n : bytes) (r : Reader store W) : Prop :=
  (v !! n = None ∧ r = NilReader) ∨
  ∃ b ctx, is_Some (v !! n) ∧ r = as_Reader fuel (mkShelf b ctx) ∧ bkt_Tx b = t ∧ bkt_name b = n.

#[global] Instance bbolt_ServesTx ctx t v :
  ServesTx bbolt_read_fails (as_ReadTx fuel (mkTx t ctx)) (λ _, True)
    (λ s σ, view_of t s = Some (false, v) ∧ views v σ) (reader_in t v) eq.
Proof.
  assert (HR : ∀ n r s, view_of t s = Some (false, v) → reader_in t v n r →
    reads_from fuel t n r v s (default [] (v !! n))).
  { intros n r s Hv Hr. split_and!; [done|done|].
    destruct Hr as [Hr|(b & c & [it Hit] & Hr)]; [by left|right]. exists b, c. by rewrite Hit. }
  split.
  - apply _.
  - intros n σ s _ [Hv Hσ]. cbn [GetShelfReader as_ReadTx]. unfold bboltTx_GetShelfReader, getBucket.
    cbn [tx tx_ctx]. pose proof (spec_Bucket (db (back s)) t false v n Hv) as HB.
    assert (ES : bolt_read (tx_Bucket t n) s = (Return (tx_Bucket t n (db (back s))), s))
      by (unfold bolt_read, bolt, lib; by destruct s as [[]]).
    rewrite (bind_Return _ _ _ _ _ ES). unfold reader_in. destruct (v !! n) as [it|].
    + destruct HB as (b & Eb & Ht & Hn). rewrite Eb. eexists _, s. split_and!; [done..|].
      right. exists b, ctx. by split_and!.
    + rewrite HB. eexists _, s. split_and!; [done..|]. by left.
  - intros n r k σ s _ [Hv Hσ] Hr.
    destruct (serves_get (Serves := bbolt_Serves fuel t n r v (default [] (v !! n))) k
      (default [] (v !! n)) s) as (x & s' & E & _ & <- & HC); [auto|]. rewrite Hσ in HC.
    exists x, s. by split_and!.
  - intros n r σ s _ [Hv Hσ] Hr.
    destruct (serves_empty (Serves := bbolt_Serves fuel t n r v (default [] (v !! n)))
      (default [] (v !! n)) s) as (s' & E & _ & <-); [auto|]. rewrite Hσ in E.
    exists s. by split_and!.
Qed.

Definition inquiry_callback ctx i : Tx → M error := λ t,
  run_inquiry (as_ReadTx fuel (mkTx t ctx)) ∅ i.

Lemma bbolt_inquiry_run ctx i t s v σ :
  view_of t s = Some (false, v) → views v σ →
  ∃ e, inquiry_callback ctx i t s = (Return e, s) ∧ inquiry_spec σ i e.
Proof.
  intros Hv Hσ. destruct (run_inquiry_refines _ (as_ReadTx fuel (mkTx t ctx)) _ _ _ _ i ∅ σ s
    (inquiry_on_all i) (conj Hv Hσ) (kept_readers_none _)) as (e & s' & E & Hi & _ & <-). by exists e.
Qed.

(** ** Calls *)

Hypothesis no_interference : undisturbed W.
Hypothesis forward : clock_forward (W := W).

(** The committed shelves, sorted as bbolt keeps them. *)
Definition bbolt_holding s σ : Prop :=
  ∀ n, default [] (data s !! n) = σ n ∧ sorted (σ n).

Lemma holding_data s s' σ : data s' = data s → bbolt_holding s σ → bbolt_holding s' σ.
Proof. unfold bbolt_holding. by intros ->. Qed.

#[global] Instance bbolt_Transacts ctx (Hst : sticky ctx) :
  Transacts (Wrap cfg fuel) ctx (λ _, True) (λ _, True) bbolt_holding
    bbolt_open_fails bbolt_write_fails bbolt_read_fails false false true.
Proof.
  intros p opts s σ _ _ _ Hσ. unfold runs_transaction. cbn [Write Wrap]. cbv zeta.
  change (store_Write cfg fuel ctx _ opts) with (doTX cfg ctx (program_callback ctx p) true opts).
  assert (HV : views (data s) σ) by (intros n; apply Hσ).
  assert (HR : ∀ e v s1, ran s true (program_callback ctx p) e v s1 →
    ∃ σ', program_spec σ σ p e σ' ∧ views v σ').
  { intros e v s1 (t & s0 & Hv & Hd0 & E & Hv1).
    destruct (bbolt_program_run ctx p t s0 _ σ σ Hv HV) as (e' & s' & σ' & v' & E' & Hp & _ & Hv' & Hσ');
      [by rewrite Hd0|].
    rewrite E in E'. injection E' as <- <-. rewrite Hv1 in Hv'. injection Hv' as <-. by exists σ'. }
  destruct (bbolt_write_protocol_lemma cfg no_interference forward ctx (program_callback ctx p) opts s
    Hst (bbolt_program_well_behaved ctx p)) as [s' Hd|e s' He Hdb [Hd _]|o s' t s0 Hv E Hne Hd
    |e v s1 s2 Hran He [Hd _]|c v s1 s2 Hran Hc [Hd _]|v s1 s2 Hran Hd _]; [by left|right..].
  - eexists Refused, _, σ, s'. split; [constructor|]. split; [by eapply holding_data|].
    by exists e, s'.
  - exfalso. destruct (bbolt_program_run ctx p t s0 _ σ (λ n, default [] (data s0 !! n)) Hv HV)
      as (e & s1 & _ & _ & E' & _); [done|].
    rewrite E in E'. injection E' as -> ->. by destruct (Hne e).
  - destruct (HR _ _ _ Hran) as (σ' & Hp & _). eexists Undone, _, σ, s2.
    split; [by eapply ts_rolled_back|]. split; [by eapply holding_data|].
    rewrite OnRollback_Invoke_eq. by apply ends_with_result.
  - destruct (HR _ _ _ Hran) as (σ' & Hp & _). eexists Undone, _, σ, s2.
    split; [by eapply ts_failed|]. split; [by eapply holding_data|].
    rewrite OnRollback_Invoke_eq. apply ends_with_result.
    split; [done|apply commit_failed_database].
  - destruct (HR _ _ _ Hran) as (σ' & Hp & Hv). eexists Committed, _, σ', s2.
    split; [by apply ts_committed|].
    rewrite AfterCommit_Invoke_eq. split; [|by apply ends_with_result].
    intros n. rewrite Hd. split; [apply Hv|].
    revert n. eapply program_spec_sorted; [exact Hp|]. intros n. apply Hσ.
Qed.

Lemma bbolt_Read_cases ctx i s σ :
  sticky ctx → views (data s) σ →
  (∃ s', store_Read cfg fuel ctx (λ x, run_inquiry x ∅ i) s = (Blocked, s')) ∨
  (∃ e s', store_Read cfg fuel ctx (λ x, run_inquiry x ∅ i) s = (Return e, s') ∧ data s' = data s ∧
     (inquiry_spec σ i e ∨ is_database_error e = true)).
Proof.
  intros Hst HV.
  change (store_Read cfg fuel ctx (λ x, run_inquiry x ∅ i) s)
    with (doTX cfg ctx (inquiry_callback ctx i) false [] s).
  assert (Hfn : well_behaved false (inquiry_callback ctx i)).
  { intros t s0 v Hv. destruct (bbolt_inquiry_run ctx i t s0 v (λ n, default [] (v !! n)) Hv)
      as (e & E & _); [done|]. rewrite E. split; [done|]. eauto. }
  destruct (bbolt_read_protocol_lemma cfg no_interference forward ctx (inquiry_callback ctx i) s Hst Hfn)
    as [s' Hd|e s' He Hdb [Hd _]|o s' t s0 Hv E Hne Hd|e v s1 s2 (t & s0 & Hv & _ & E & _) [Hd _]].
  - left. eauto.
  - right. exists e, s'. auto.
  - destruct (bbolt_inquiry_run ctx i t s0 _ σ Hv HV) as (e & E' & _).
    rewrite E in E'. injection E' as -> _. by destruct (Hne e).
  - right. exists e, s2. split_and!; [done|done|left].
    destruct (bbolt_inquiry_run ctx i t s0 _ σ Hv HV) as (e' & E' & Hi).
    rewrite E in E'. by injection E' as <- _.
Qed.
End programs.
