(* ===== verification/BboltContract.v ===== *)
(** The bbolt store keeps the contract of a [KVStore]. *)
From S2P Require Import Prelude Errors Keys Go Store Lock Timeout Shelf Client Program Contract.
From S2P Require Import Bbolt BboltSpec BboltFacts BboltTx BboltProgram.

Section contract.
Context `{BS : BoltSpec} {Logger W : Type} `{!Env W, !Scheduler W, !CallScheduler W}.
Context (cfg : Config Logger).
Implicit Types (s : St store W) (σ : Program.shelves).

Hypothesis no_interference : undisturbed W.
Hypothesis forward : clock_forward (W := W).

Lemma bbolt_ReadShelf_cases fuel ctx name q s :
  sticky ctx →
  (∃ s', store_ReadShelf cfg fuel ctx name (λ r, run_query r q) s = (Blocked, s')) ∨
  (∃ e s', store_ReadShelf cfg fuel ctx name (λ r, run_query r q) s = (Return e, s') ∧
     data s' = data s ∧
     (query_spec bbolt_read_fails (default [] (data s !! name)) q e ∨ is_database_error e = true)).
Proof.
  intros Hst.
  change (store_ReadShelf cfg fuel ctx name (λ r, run_query r q) s)
    with (doTX cfg ctx (query_callback fuel ctx name q) false [] s).
  assert (Hfn : well_behaved false (query_callback (W := W) fuel ctx name q)).
  { intros t s0 v Hv.
    destruct (query_callback_run fuel ctx name q t s0 v Hv) as (e & E & _).
    rewrite E. split; [done|]. eauto. }
  destruct (bbolt_read_protocol_lemma cfg no_interference forward ctx
    (query_callback fuel ctx name q) s Hst Hfn)
    as [s' Hd|e s' He Hdb [Hd _]|o s' t s0 Hv E Hne Hd|e v s1 s2 (t & s0 & Hv & _ & E & _) [Hd _]].
  - left. by exists s'.
  - right. exists e, s'. split_and!; [done|done|by right].
  - destruct (query_callback_run fuel ctx name q t s0 _ Hv) as (e & E' & _).
    rewrite E in E'. injection E' as -> _. by destruct (Hne e).
  - right. exists e, s2. split_and!; [done|done|left].
    destruct (query_callback_run fuel ctx name q t s0 _ Hv) as (e' & E' & Hq).
    rewrite E in E'. by injection E' as <- _.
Qed.

#[global] Instance bbolt_Conforms fuel ctx (Hst : sticky ctx) :
  Conforms (Wrap cfg fuel) ctx (λ _, True) bbolt_holding
    bbolt_open_fails bbolt_write_fails bbolt_read_fails false false true.
Proof.
  split; [|intros n c s σ _ Hσ; apply Hσ].
  intros [n c|n q|p|i] s σ _ Hσ; cbn [run_call WriteShelf ReadShelf Read Wrap].
  - destruct (bbolt_WriteShelf_cases cfg no_interference forward fuel ctx n c s Hst)
      as [(s' & E & _)|(e & s' & E & _ & Hfail & Hok)]; [left; by rewrite E|right].
    destruct (is_nil e) eqn:En.
    + apply is_nil_true in En as ->.
      destruct (Hok eq_refl) as [(it & Hsp & Hd)|(Hd & err & s1 & Herr & Hrun)].
      * exists ENil, s', (set_shelf n it σ). destruct (Hσ n) as [En Hs]. rewrite En in Hsp.
        split_and!; [done|by apply call_committed|]. intros m. rewrite Hd. unfold set_shelf.
        case_bool_decide as Hm.
        -- subst m. rewrite lookup_insert_eq. split; [done|].
           eapply client_spec_sorted; [exact Hsp|exact Hs].
        -- rewrite lookup_insert_ne by done. apply Hσ.
      * exists ENil, s', σ. split_and!; [done| |intros m; rewrite Hd; apply Hσ].
        apply call_ignored. exists (DatabaseError err).
        split; [apply DatabaseError_database|]. rewrite run_client_on_error in Hrun. congruence.
    + apply is_nil_false in En. exists e, s', σ.
      split_and!; [done|by apply call_failed|]. intros m. rewrite (Hfail En). apply Hσ.
  - destruct (bbolt_ReadShelf_cases fuel ctx n q s Hst) as [[s' E]|(e & s' & E & Hd & Hq)];
      [left; by rewrite E|right].
    exists e, s', σ. destruct (Hσ n) as [En _]. rewrite En in Hq.
    split_and!; [done|by apply call_read|]. by eapply holding_data.
  - by apply (transacts_plain _ _ _ _ _ _ _ _ _ _ _
      (Transacts0 := bbolt_Transacts cfg fuel no_interference forward ctx Hst) p s σ).
  - destruct (bbolt_Read_cases cfg fuel no_interference forward ctx i s σ Hst)
      as [[s' E]|(e & s' & E & Hd & Hi)]; [intros n; apply Hσ|left; by rewrite E|right].
    exists e, s', σ. split_and!; [done|by apply call_inquired|]. by eapply holding_data.
Qed.
End contract.
