(* ===== verification/BboltExamples.v ===== *)
(** The theorems on the bbolt store at concrete inputs, with the in-memory library of
    BboltSpec.v: a store with one shelf "s" of three uint32 keys, 1, 2 and 4. *)
From S2P Require Import Prelude Errors Keys Go Store Lock Timeout Shelf Walk Client Program Contract.
From S2P Require Import Bbolt BboltSpec BboltFacts BboltTx BboltProgram BboltContract.
Import BoltMem.

(** Time stands still, the lock is free, and a call is not overtaken by its timeout. *)
#[local] Instance still : Env () := λ w, w.
#[local] Instance uncontended : Scheduler () :=
  λ _, [Ch_locker; Ch_locker; Ch_locker; Ch_rendezvous; Ch_locker].
#[local] Instance prompt : CallScheduler () := λ _, [K_worker; K_rendezvous].

Definition config : Config () := DefaultConfig ().
Definition key (n : N) : Key := Uint32Key n.
Definition three : items :=
  [(Bytes (key 1), #"one"); (Bytes (key 2), #"two"); (Bytes (key 4), #"four")].
Definition content3 : shelves := {[ #"s" := three ]}.
Definition w0 : World () := mkWorld 0 ().
Definition closed_state : St store () :=
  mkSt (mkStore _ (mkMem content3 ∅ 1 true false : DB) unlocked) w0.
Definition start : St store () :=
  mkSt (mkStore _ (mkMem content3 ∅ 1 false false : DB) unlocked) w0.
(** The state inside write transaction 0. *)
Definition inside : St store () :=
  mkSt (mkStore _ (mkMem content3 {[ 0%N := (true, content3) ]} 1 false false : DB)
          (mkRWMutex true 0)) w0.
Definition shelf0 : bboltShelf (W := ()) := mkShelf ((0%N, #"s") : Bucket) Background.
Definition accept : CallerFn store () := λ _ _, mret ENil.

Lemma bbolt_background_sticky : sticky (@Background ()).
Proof. intros w. done. Qed.
Lemma bbolt_forward : clock_forward (W := ()).
Proof. intros w. unfold tick, still. lia. Qed.
Lemma no_others : undisturbed ().
Proof. intros w. reflexivity. Qed.

Lemma inside_writable : writable_at shelf0 inside content3 three.
Proof. split; reflexivity. Qed.
Lemma inside_shelf_at : shelf_at shelf0 inside three.
Proof. exists true, content3. apply inside_writable. Qed.

Lemma bbolt_Iterate_walk_witness :
  shelf_at shelf0 inside three ∧
  bboltShelf_Iterate 3 shelf0 accept (key 0) inside =
    walk Background (key 0) accept three (mret ENil) inside.
Proof.
  split; [exact inside_shelf_at|].
  apply (bbolt_Iterate_walk shelf0 accept (key 0) three 3 inside);
    [intros k v s; reflexivity|exact inside_shelf_at|cbn; lia].
Defined.

Lemma bbolt_Range_walk_witness :
  shelf_at shelf0 inside three ∧
  let l := items_range (Bytes (key 1)) (Bytes (key 9)) three in
  (sorted three → ∀ x, x ∈ l ↔ x ∈ three ∧ bytes_le (Bytes (key 1)) x.1 ∧
     bytes_lt x.1 (Bytes (key 9))) ∧
  bboltShelf_Range 3 shelf0 (key 1) (key 9) accept false inside =
    walk Background (key 1) accept l (mret ENil) inside ∧
  (Forall (walkable (key 1)) l →
   bboltShelf_Range 3 shelf0 (key 1) (key 9) accept true inside =
     walk_gapless Background (key 1) accept l inside).
Proof.
  split; [exact inside_shelf_at|].
  apply (bbolt_Range_walk shelf0 accept (key 1) (key 9) three 3 inside);
    [intros k v s; reflexivity|exact inside_shelf_at|cbn; lia].
Defined.

Lemma bbolt_shelf_ops_witness :
  writable_at shelf0 inside content3 three ∧
  bboltShelf_Get shelf0 (key 2) inside = (Return (Some #"two", ENil), inside) ∧
  write_result shelf0 inside content3 (items_insert (Bytes (key 2)) #"2" three)
    (bboltShelf_Put shelf0 (key 2) #"2") ∧
  write_result shelf0 inside content3 (items_delete (Bytes (key 2)) three)
    (bboltShelf_Delete shelf0 (key 2)).
Proof.
  split; [exact inside_writable|].
  exact (bbolt_shelf_ops shelf0 (key 2) #"2" content3 three inside inside_writable).
Defined.

(** A callback that does nothing, and a client that replaces a pair if it is there. *)
Definition idle : Tx → M store () error := λ _, mret ENil.
Lemma bbolt_idle_well_behaved writable : well_behaved writable idle.
Proof. intros t s v Hv. split; [done|]. by exists v. Qed.

Definition replace : client :=
  c_get (key 2) (λ r, match r with
                      | (Some _, _) => c_put (key 2) #"2" c_return
                      | (None, e) => c_return e
                      end).

Lemma bbolt_write_protocol_witness :
  (undisturbed () ∧ sticky (@Background ()) ∧ well_behaved true idle) ∧
  write_outcome idle [] start (doTX config Background idle true [] start).
Proof.
  split; [split_and!; [exact no_others|exact bbolt_background_sticky|exact (bbolt_idle_well_behaved true)]|].
  exact (bbolt_write_protocol config no_others bbolt_forward Background idle [] start bbolt_background_sticky
    (bbolt_idle_well_behaved true)).
Defined.

Lemma bbolt_read_protocol_witness :
  well_behaved false idle ∧
  read_outcome idle start (doTX config Background idle false [] start).
Proof.
  split; [exact (bbolt_idle_well_behaved false)|].
  exact (bbolt_read_protocol config no_others bbolt_forward Background idle start bbolt_background_sticky
    (bbolt_idle_well_behaved false)).
Defined.

Lemma bbolt_WriteShelf_atomic_witness :
  ∃ s', store_WriteShelf config 0 Background #"s" (λ w, run_client w replace) start =
    (Return ENil, s') ∧
  held_lock s' = held_lock start ∧
  (ENil ≠ ENil → data s' = data start) ∧
  (ENil = ENil →
    (∃ it, client_spec bbolt_write_fails bbolt_read_fails (Some (default [] (data start !! #"s")))
             replace (default [] (data start !! #"s")) ENil it ∧
           data s' = <[#"s" := it]> (data start)) ∨
    (data s' = data start ∧
     ∃ err (s1 : St store ()), err ≠ ENil ∧
       run_client (NewErrorWriter err) replace s1 = (Return ENil, s1))).
Proof.
  eexists. match goal with |- ?A ∧ ?B => assert (HR : A); [|split; [exact HR|]] end.
  - apply pair_of_fst. vm_compute. reflexivity.
  - exact (bbolt_WriteShelf_atomic config no_others bbolt_forward 0 Background #"s" replace start ENil _
      bbolt_background_sticky HR).
Defined.

Definition after_replace :=
  store_WriteShelf config 0 Background #"s" (λ w, run_client w replace) start.

(** Runs: a range with a gap, an aborted write, a closed database. *)
Example bbolt_range_runs :
  bboltShelf_Range 3 shelf0 (key 1) (key 9) (λ k _, mret (errorfText (String k))) false inside =
    (Return (errorfText #"1"), inside) ∧
  (bboltShelf_Range 3 shelf0 (key 1) (key 9)
    (λ k _, mret (if Equals k (Some (key 4)) then Canceled else ENil)) true inside).1 =
    Return ENil ∧
  (bboltShelf_Range 3 shelf0 (key 1) (key 9)
    (λ k _, mret (if Equals k (Some (key 4)) then Canceled else ENil)) false inside).1 =
    Return Canceled.
Proof. repeat split. Qed.

Example bbolt_write_runs :
  (default [] (data after_replace.2 !! #"s")) =
    [(Bytes (key 1), #"one"); (Bytes (key 2), #"2"); (Bytes (key 4), #"four")] ∧
  (store_WriteShelf config 0 Background #"s" (λ w, _ ← Delete w (key 1); mret Canceled) start).1 =
    Return Canceled ∧
  data (store_WriteShelf config 0 Background #"s" (λ w, _ ← Delete w (key 1); mret Canceled)
    start).2 = content3 ∧
  (store_ReadShelf config 0 Background #"s" (λ r, mret ENil) closed_state).1 =
    Return ErrStoreIsClosed.
Proof. repeat split. Qed.

(** ** [Empty] in a write transaction *)

(** Puts a pair if the shelf is empty, or deletes one, and then tells what [Empty] says. *)
Definition tell : bool * error → client := λ x, c_return (errorfText (if x.1 then #"empty" else #"not empty")).
Definition put_and_ask : client := c_put (key 7) #"seven" (λ _, c_empty tell).
Definition ask_and_put : client :=
  c_empty (λ x, if x.1 then c_put (key 7) #"seven" c_return else c_return Canceled).

(** The writes of the transaction are not counted: after a [Put] into a new shelf [Empty] says
    that it is empty. Before the first write it tells the truth. *)
Example bbolt_Empty_stale :
  (store_WriteShelf config 0 Background #"new" (λ w, run_client w put_and_ask) start).1 =
    Return (errorfText #"empty") ∧
  (store_WriteShelf config 0 Background #"new" (λ w, run_client w ask_and_put) start).1 = Return ENil ∧
  (store_WriteShelf config 0 Background #"s" (λ w, run_client w ask_and_put) start).1 = Return Canceled.
Proof. repeat split. Qed.

(** ** The contract, on an empty store *)

Definition empty_store : St store () := mkSt (mkStore _ (empty_db : DB) unlocked) w0.
Lemma bbolt_empty_store_holds : bbolt_holding empty_store (λ _, []).
Proof. intros n. split; [reflexivity|constructor]. Qed.

Example bbolt_scenario :
  (run_history (Wrap config 9) Background Scenario.calls empty_store).1 = Return Scenario.results.
Proof. vm_compute. reflexivity. Qed.
