(* ===== verification/BboltNested.v ===== *)
(** Calls of the store from within the callback of a write transaction on it, which
    bbolt/bbolt.go never lets through. *)
From S2P Require Import Prelude Errors Keys Go Store Lock Timeout Shelf Bbolt BboltSpec.
From S2P Require Import BboltFacts BboltTx BboltExamples.

Section nested.
Context `{BS : BoltSpec} {Logger W : Type} `{!Env W, !Scheduler W, !CallScheduler W}.
Context (cfg : Config Logger) (fuel : nat).
Implicit Types (s : St store W).
Abbreviation M := (M store W).

(** A call of a transaction on a store. *)
Inductive nested_call :=
  | N_Write (fn : WriteTx store W → M error) (opts : list (TxOption store W))
  | N_Read (fn : ReadTx store W → M error)
  | N_WriteShelf (n : bytes) (fn : Writer store W → M error)
  | N_ReadShelf (n : bytes) (fn : Reader store W → M error).

Definition run_nested (st : KVStore store W) (ctx : Context W) (a : nested_call) : M error :=
  match a with
  | N_Write fn opts => Write st ctx fn opts
  | N_Read fn => Read st ctx fn
  | N_WriteShelf n fn => WriteShelf st ctx n fn
  | N_ReadShelf n fn => ReadShelf st ctx n fn
  end.

Definition writes_store (a : nested_call) : bool :=
  match a with N_Write _ _ | N_WriteShelf _ _ => true | N_Read _ | N_ReadShelf _ _ => false end.

Hypothesis no_interference : undisturbed W.
Hypothesis forward : clock_forward (W := W).

(** A transaction that cannot get the lock: it is told so when the time is up, or waits for
    ever; the data is left alone. *)
Inductive locked_out s : outcome error * St store W → Prop :=
  | locked_out_error e s' :
      e ≠ ENil → is_database_error e = true → restored s s' → locked_out s (Return e, s')
  | locked_out_waits s' : data s' = data s → locked_out s (Blocked, s').

Lemma doTX_locked_out writable ctx s :
  sticky ctx → (∀ m, ¬ lock_held writable (held_lock s) m) →
  ∃ r, locked_out s r ∧ ∀ fn opts, doTX cfg ctx fn writable opts s = r.
Proof.
  intros Hst Hno. destruct (doTX_start cfg no_interference forward writable ctx s Hst)
    as [(s' & Hd & E)|[(e & s' & He & Hde & Hr & E)|(t & s0 & _ & _ & Hh & _)]].
  - eexists. split; [by apply locked_out_waits|exact E].
  - eexists. split; [by apply locked_out_error|exact E].
  - by destruct (Hno (held_lock s0)).
Qed.

(** While a writer holds the lock, nobody else gets it. *)
Lemma write_locked_excludes writable m o :
  lock_held true o m → ∀ m', ¬ lock_held writable m m'.
Proof. intros [-> ->] m'. destruct writable; by intros [Hm _]. Qed.

Lemma run_nested_locked_out t ctx a s o :
  sticky ctx → lock_held true o (held_lock s) →
  ∃ r, locked_out s r ∧
    ∀ a', writes_store a' = writes_store a → run_nested (bboltTx_Store cfg fuel t) ctx a' s = r.
Proof.
  intros Hst Hh.
  destruct (doTX_locked_out (writes_store a) ctx s Hst (write_locked_excludes _ _ _ Hh)) as (r & Hr & E).
  exists r. split; [done|]. intros a' Ha. rewrite <-Ha in E.
  destruct a'; cbn in *; apply E.
Qed.

(** A callback that does [fn], makes the call [a] of its transaction's [Store], and goes on
    with [k]. *)
Definition nesting (ctx ctx' : Context W) (fn : Tx → M ()) (a : nested_call)
    (k : Tx → error → M error) (t : Tx) : M error :=
  _ ← fn t;
  e ← run_nested (bboltTx_Store cfg fuel (mkTx t ctx)) ctx' a;
  k t e.

Lemma nesting_locked_out ctx ctx' fn a a' k k' t s o :
  sticky ctx' → (∀ t s, held_lock (fn t s).2 = held_lock s) → writes_store a' = writes_store a →
  (∀ t e s, e ≠ ENil → is_database_error e = true → k t e s = k' t e s) →
  lock_held true o (held_lock s) → nesting ctx ctx' fn a k t s = nesting ctx ctx' fn a' k' t s.
Proof.
  intros Hst Hfn Ha Hk Hh. unfold nesting. specialize (Hfn t s).
  apply bind_ext_at. intros [] s1 E1. rewrite E1 in Hfn. cbn in Hfn. rewrite <-Hfn in Hh.
  destruct (run_nested_locked_out (mkTx t ctx) ctx' a s1 o Hst Hh) as (r & Hr & E).
  unfold mbind, M_bind. rewrite !E by done. destruct Hr as [e s' He Hd _|]; [by apply Hk|done].
Qed.

(** C21: a call of the store from within a write transaction on it is never let through,
    neither for reading nor for writing: the function it is given is not called, and if the
    call returns it is with a database error. That is: for a callback that makes a call [a] of
    the transaction's [Store] and goes on with [k], neither what [a] would do nor what [k]
    would do with any other result makes a difference. *)
Theorem bbolt_nested_call ctx ctx' (fn : Tx → M ()) (a a' : nested_call)
    (k k' : Tx → error → M error) opts s
    (Hst : sticky ctx) (Hst' : sticky ctx')
    (Hfn : ∀ t s, held_lock (fn t s).2 = held_lock s)
    (Ha : writes_store a' = writes_store a)
    (Hk : ∀ t e s, e ≠ ENil → is_database_error e = true → k t e s = k' t e s) :
  doTX cfg ctx (nesting ctx ctx' fn a k) true opts s =
  doTX cfg ctx (nesting ctx ctx' fn a' k') true opts s.
Proof.
  destruct (doTX_start cfg no_interference forward true ctx s Hst)
    as [(s' & _ & E)|[(e & s' & _ & _ & _ & E)|(t & s0 & _ & _ & Hh & E)]]; rewrite !E; [done..|].
  unfold mbind, M_bind. by rewrite (nesting_locked_out ctx ctx' fn a a' k k' t s0 _ Hst' Hfn Ha Hk Hh).
Qed.
End nested.

(** ** A run *)

Module NestedExamples.
Import BoltMem.

(** Every look at the clock takes ten seconds; a lock that is free is taken, and one that is not
    is waited for until the time is up. *)
#[local] Instance slow : Env () := λ w, mkWorld (now w + 10 * Second) (app w).
#[local] Instance patient : Scheduler () :=
  λ _, [Ch_locker; Ch_locker; Ch_locker; Ch_rendezvous; Ch_locker; E_tick;
        Ch_caller; Ch_caller; Ch_caller; Ch_caller].
#[local] Instance prompt : CallScheduler () := λ _, [K_worker; K_rendezvous].

Definition start : St store () := BboltExamples.start.
Lemma patient_quiet : undisturbed ().
Proof. intros w. reflexivity. Qed.
Lemma slow_forward : clock_forward (W := ()).
Proof. intros w. unfold tick, slow. cbn. unfold Second. lia. Qed.
Lemma slow_sticky : sticky (W := ()) Background.
Proof. by intros w. Qed.

(** Two calls that must not be made, and a callback that ends with the result of its call. *)
Definition crash : nested_call (W := ()) := N_ReadShelf #"s" (λ _, panic).
Definition answer : nested_call (W := ()) := N_ReadShelf #"s" (λ _, mret ENil).
Definition pass (_ : Tx) (e : error) : M store () error := mret e.

Example bbolt_nested_runs :
  ∀ a, a ∈ [crash; answer; N_WriteShelf #"t" (λ _, mret ENil)] →
    ∃ e, (doTX BboltExamples.config Background
      (nesting BboltExamples.config 9 Background Background (λ _, mret ()) a pass) true [] start).1 =
        Return e ∧ errors_Is e DeadlineExceeded = true ∧ is_database_error e = true.
Proof.
  intros a. rewrite !elem_of_cons, elem_of_nil.
  intros [-> | [-> | [-> | []]]]; eexists; (split; [vm_compute; reflexivity|by split]).
Qed.

Lemma bbolt_nested_call_witness :
  sticky (W := ()) Background ∧
  doTX BboltExamples.config Background
    (nesting BboltExamples.config 9 Background Background (λ _, mret ()) answer
       (λ _ e, if is_nil e then panic else mret e)) true [] start =
  doTX BboltExamples.config Background
    (nesting BboltExamples.config 9 Background Background (λ _, mret ()) crash pass) true [] start.
Proof.
  split; [exact slow_sticky|].
  apply (bbolt_nested_call BboltExamples.config 9 patient_quiet slow_forward Background Background
    (λ _, mret ()) answer crash (λ _ e, if is_nil e then panic else mret e) pass [] start
    slow_sticky slow_sticky); [done|done|].
  intros t e s He _. apply is_nil_false in He. by rewrite He.
Defined.
End NestedExamples.
