(* ===== verification/BboltClose.v ===== *)
(** [Close] of bbolt/bbolt.go, and what a closed store answers. *)
From S2P Require Import Prelude Errors Keys Go Store Lock Timeout Shelf Bbolt BboltSpec.
From S2P Require Import BboltFacts BboltTx BboltExamples.

(** A bbolt database that has been closed, or whose [Close] has begun, opens no
    transaction. *)
Class BoltCloseSpec `{BS : BoltSpec} := {
  db_closed : DB → Prop;
  closed_Begin d w : db_closed d →
    let '((t, e), d') := db_Begin w d in e = ErrDatabaseNotOpen ∧ db_closed d';
  closed_Close d : db_closed (db_Close d).2;
  NotOpen_not_nil : ErrDatabaseNotOpen ≠ ENil
}.

Section closing.
Context `{BC : BoltCloseSpec} {Logger W : Type} `{!Env W, !Scheduler W, !CallScheduler W}.
Context (cfg : Config Logger).
Implicit Types (s : St store W).
Abbreviation M := (M store W).

Definition is_closed s : Prop := db_closed (db (back s)).

Hypothesis no_interference : undisturbed W.
Hypothesis forward : clock_forward (W := W).

(** ** Refused calls *)

(** How a transaction on a closed store ends: with [ErrStoreIsClosed]; with the error of the
    lock, which was not obtained in time; or waiting for the lock. The data is left alone, the
    lock is given back, and the store is still closed. *)
Inductive refusal (writable : bool) (ctx : Context W) s : outcome error * St store W → Prop :=
  | refused_closed s' :
      restored s s' → is_closed s' → refusal writable ctx s (Return ErrStoreIsClosed, s')
  | refused_lock w s' :
      let e := Err (WithTimeout ctx (now (world s)) (LockAcquireTimeout cfg)) w in
      e ≠ ENil → restored s s' → is_closed s' →
      refusal writable ctx s
        (Return (Errorf (if writable then #"unable to obtain BBolt write lock"
                         else #"unable to obtain BBolt read lock") (DatabaseError e)), s')
  | refused_hangs s' :
      data s' = data s → is_closed s' → refusal writable ctx s (Blocked, s').

Lemma doTX_refused writable ctx s :
  sticky ctx → is_closed s →
  ∃ r, refusal writable ctx s r ∧ ∀ fn opts, doTX cfg ctx fn writable opts s = r.
Proof.
  intros Hst Hc. unfold doTX.
  set (lockCtx := WithTimeout ctx (now (world s)) (LockAcquireTimeout cfg)).
  pose proof (acquire_result no_interference writable lockCtx s
    (WithTimeout_sticky _ _ _ forward Hst)) as HR.
  destruct (acquire writable lockCtx s) as [o s1] eqn:E. unfold acquire in E.
  inversion HR as [m w Hh|w w' Hw|m w Hm]; subst.
  - pose proof (closed_Begin (db (back s)) writable Hc) as HB.
    pose proof (spec_Begin (db (back s)) writable) as HS.
    destruct (db_Begin writable (db (back s))) as [[t e] d'] eqn:EB. destruct HB as [-> Hc'], HS as [Hd _].
    set (s2 := mkSt (mkStore _ d' m) w).
    pose proof (bbolt_unlock_spec writable s2 (held_lock s) Hh) as Eu.
    exists (Return ErrStoreIsClosed, mkSt (mkStore _ d' (held_lock s)) w). split.
    + by apply refused_closed.
    + intros fn opts. rewrite (bind_Return get_world _ s (world s) s eq_refl).
      rewrite (bind_Return _ _ _ _ _ E). cbn [is_nil negb].
      rewrite (bind_Return _ _ _ (t, ErrDatabaseNotOpen) s2)
        by (unfold bolt, lib; cbn; by rewrite EB).
      rewrite (proj2 (is_nil_false _) NotOpen_not_nil).
      cbn [negb]. fold (unlock_of (W := W) writable). rewrite (bind_Return _ _ _ _ _ Eu).
      by rewrite bool_decide_true.
  - eexists. split; [apply (refused_lock _ _ _ w (mkSt (mkStore _ (db (back s)) (held_lock s)) w')); done|].
    intros fn opts.
    rewrite (bind_Return get_world _ s (world s) s eq_refl). rewrite (bind_Return _ _ _ _ _ E).
    by rewrite (proj2 (is_nil_false _) (DatabaseError_not_nil _)).
  - eexists (Blocked, mkSt (mkStore _ (db (back s)) m) w). split; [by apply refused_hangs|].
    intros fn opts.
    rewrite (bind_Return get_world _ s (world s) s eq_refl). fold lockCtx. unfold mbind, M_bind. by rewrite E.
Qed.

(** ** Closing *)

(** What a call of [Close] keeps, however it ends. *)
Definition close_keeps s s' : Prop := restored s s' ∧ (is_closed s → is_closed s').
#[global] Instance close_keeps_preorder : PreOrder close_keeps.
Proof.
  split; [done|]. intros s1 s2 s3 [[Hd Hl] Hc] [[Hd2 Hl2] Hc2].
  split; [split; congruence|auto].
Qed.

Lemma db_Close_run s :
  bolt (W := W) db_Close s = (Return (db_Close (db (back s))).1,
    mkSt (mkStore _ (db_Close (db (back s))).2 (lock (back s))) (world s)).
Proof. unfold bolt, lib. by destruct (db_Close (db (back s))). Qed.

Lemma db_Close_keeps : keeps close_keeps (bolt (W := W) db_Close).
Proof.
  intros s. rewrite db_Close_run. split; [split; [apply spec_Close|done]|].
  intros _. apply closed_Close.
Qed.

Lemma store_Close_keeps ctx : keeps close_keeps (store_Close (W := W) ctx).
Proof.
  apply keeps_bind; [apply _|apply keeps_CallWithTimeout|].
  - apply _.
  - apply db_Close_keeps.
  - by intros s.
  - by intros s.
  - intros e. by case_match; intros s.
Qed.

Lemma db_Close_call ctx s s' :
  CallWithTimeout ctx (bolt db_Close) (mret ()) s = (Return ENil, s') → is_closed s'.
Proof.
  intros E. apply (CallWithTimeout_post is_closed) in E as [Hc|[w Hw]].
  - done.
  - by destruct (DatabaseError_not_nil (Err ctx w)).
  - intros s1 e1 s2. rewrite db_Close_run. intros [= _ <-]. apply closed_Close.
  - by intros s1 o s2 Hc [= _ <-].
  - done.
Qed.

(** C33: on a closed store no operation calls the application: whatever function it is given, it
    ends the same way, with [ErrStoreIsClosed], or with the database error that the lock was
    not obtained in time, or waiting for the lock; the lock is given back, the data is untouched
    and the store stays closed. [Close] leaves the lock and the data as they are however it ends,
    and reopens nothing; when it returns nil the store is closed, and any other result is a
    database error. *)
Theorem bbolt_closed fuel ctx s (Hst : sticky ctx) :
  (is_closed s →
    (∃ r, refusal true ctx s r ∧
      (∀ fn opts, store_Write cfg fuel ctx fn opts s = r) ∧
      (∀ n fn, store_WriteShelf cfg fuel ctx n fn s = r)) ∧
    (∃ r, refusal false ctx s r ∧
      (∀ fn, store_Read cfg fuel ctx fn s = r) ∧
      (∀ n fn, store_ReadShelf cfg fuel ctx n fn s = r))) ∧
  (∀ o s', store_Close ctx s = (o, s') →
    close_keeps s s' ∧ (o = Return ENil → is_closed s') ∧
    (∀ e, o = Return e → e ≠ ENil → is_database_error e = true)).
Proof.
  split.
  - intros Hc. split;
      [destruct (doTX_refused true ctx s Hst Hc) as (r & Hr & E)
      |destruct (doTX_refused false ctx s Hst Hc) as (r & Hr & E)];
      exists r; split; try exact Hr; split; intros; apply E.
  - intros o s' E. pose proof (store_Close_keeps ctx s) as HK. rewrite E in HK.
    split; [exact HK|]. unfold store_Close, mbind, M_bind in E.
    destruct (CallWithTimeout ctx (bolt db_Close) (mret ()) s) as [[err| | |] s1] eqn:EC;
      [|by simplify_eq..].
    destruct (is_nil err) eqn:En; cbn in E; injection E as <- <-.
    + apply is_nil_true in En as ->. split; [|by intros ? [= <-]]. intros _.
      by eapply db_Close_call.
    + split; [intros [= HD]; by destruct (DatabaseError_not_nil err)|].
      intros ? [= <-] _. apply DatabaseError_database.
Qed.
End closing.

(** ** Instances: the store of BboltExamples.v, closed *)

Module CloseExamples.
Import BoltMem.
#[local] Existing Instances BboltExamples.still BboltExamples.uncontended BboltExamples.prompt.

Definition mem_closed (d : mem) : Prop := closed d = true.

#[export] Instance close_spec : BoltCloseSpec.
Proof.
  refine {| db_closed := mem_closed : DB → Prop |}.
  - intros d w Hc. cbn in *. by rewrite Hc.
  - done.
  - done.
Defined.

(** The store after a [Close] that returned nil. *)
Definition after_close : St store () := (store_Close Background start).2.

Lemma bbolt_closed_witness :
  (sticky (@Background ()) ∧ store_Close Background start = (Return ENil, after_close)) ∧
  is_closed after_close ∧
  ∃ r, refusal config true Background after_close r ∧
    (∀ fn opts, store_Write config 0 Background fn opts after_close = r) ∧
    (∀ n fn, store_WriteShelf config 0 Background n fn after_close = r).
Proof.
  assert (E : store_Close Background start = (Return ENil, after_close)) by reflexivity.
  pose proof (λ s, bbolt_closed config no_others bbolt_forward 0 Background s
    bbolt_background_sticky) as H.
  pose proof (proj1 (proj2 (proj2 (H start) _ _ E)) eq_refl) as Hc.
  split; [by split; [apply bbolt_background_sticky|]|]. split; [exact Hc|].
  exact (proj1 (proj1 (H after_close) Hc)).
Defined.

(** Runs: a closed store does not run a function that would panic, and may be
    closed again. *)
Example bbolt_close_runs :
  (store_Write config 0 Background (λ _, panic) [] after_close).1 = Return ErrStoreIsClosed ∧
  (store_ReadShelf config 0 Background #"s" (λ _, panic) after_close).1 =
    Return ErrStoreIsClosed ∧
  (store_Close Background after_close).1 = Return ENil.
Proof. repeat split. Qed.
End CloseExamples.
