(* ===== verification/BboltOpen.v ===== *)
(** bbolt/bbolt.go: the constructors. [createBBoltStore] is an interleaving of the goroutine
    that opens the database and the goroutine that warns while the file is locked. *)
From S2P Require Import Prelude Errors Go Store Files Lock Bbolt BboltSpec.

(** [bbolt.Options]: the fields the code sets, and the others. *)
Record Options (other : Type) := mkOptions {
  opt_NoSync : bool;
  opt_NoFreelistSync : bool;
  opt_NoGrowSync : bool;
  opt_other : other
}.
Arguments mkOptions {other} _ _ _ _.
Arguments opt_NoSync {other} o.
Arguments opt_NoFreelistSync {other} o.
Arguments opt_NoGrowSync {other} o.
Arguments opt_other {other} o.

(** [bbolt.Open]: [None] while it waits for the lock on the file, which another process
    holds. *)
Class BoltOpenLib `{BL : BoltLib} `{OS} := {
  other_options : Type;
  DefaultOptions : Options other_options;
  bbolt_Open : bytes → N → Options other_options → FS → option ((DB * error) * FS)
}.

Section open.
Context `{BO : BoltOpenLib}.

Definition file_mode : N := 416.  (* 0640 *)

(** *** createBBoltStore *)

(** The opening goroutine: before [os.MkdirAll]; before the ticker and the second goroutine
    are started; in [bbolt.Open]; before [done <- true]; returned. *)
Inductive opener_pc :=
  | O_mkdir
  | O_start
  | O_open
  | O_send (d : DB) (err : error)
  | O_return (r : option store * error).

(** The warning goroutine: not started; in the [select]; about to warn; ended. *)
Inductive warner_pc := G_none | G_select | G_warn | G_done.

Record open_state := mkOpen {
  fs : FS;
  opener : opener_pc;
  warner : warner_pc;
  done_ch : list bool;      (** the channel [done], with room for one value *)
  ticker_C : bool;          (** a tick waits in [ticker.C] *)
  ticker_running : bool;
  warnings : nat            (** the warnings logged (ghost) *)
}.

(** Who moves: another process changes the file system; the ticker ticks; the opener; the
    warner takes the case [<-done], the case [<-ticker.C], or logs its warning. *)
Inductive open_choice :=
  | E_fs (fs' : FS)
  | E_ticker
  | Ch_opener
  | Ch_done
  | Ch_ticker
  | Ch_warn.

Definition set_fs (f : FS) (s : open_state) : open_state :=
  mkOpen f (opener s) (warner s) (done_ch s) (ticker_C s) (ticker_running s) (warnings s).
Definition set_opener (o : opener_pc) (s : open_state) : open_state :=
  mkOpen (fs s) o (warner s) (done_ch s) (ticker_C s) (ticker_running s) (warnings s).
Definition set_warner (g : warner_pc) (s : open_state) : open_state :=
  mkOpen (fs s) (opener s) g (done_ch s) (ticker_C s) (ticker_running s) (warnings s).
Definition set_done (l : list bool) (s : open_state) : open_state :=
  mkOpen (fs s) (opener s) (warner s) l (ticker_C s) (ticker_running s) (warnings s).
Definition set_ticker (c running : bool) (s : open_state) : open_state :=
  mkOpen (fs s) (opener s) (warner s) (done_ch s) c running (warnings s).
Definition add_warning (s : open_state) : open_state :=
  mkOpen (fs s) (opener s) (warner s) (done_ch s) (ticker_C s) (ticker_running s) (S (warnings s)).

Context (filePath : bytes) (options : Options other_options).

(** [Wrap(db, cfg)], or the error of [bbolt.Open]. *)
Definition open_result (d : DB) (err : error) : option store * error :=
  if negb (is_nil err) then (None, DatabaseError err) else (Some (Wrap_state d), ENil).

(** The next action of the opening goroutine. *)
Definition opener_step (s : open_state) : option open_state :=
  match opener s with
  | O_mkdir =>
      let '(err, f) := os_MkdirAll (path_Dir filePath) ModePerm (fs s) in
      let s := set_fs f s in
      Some (if negb (is_nil err) then set_opener (O_return (None, DatabaseError err)) s
            else set_opener O_start s)
  | O_start =>
      (* done := make(chan bool, 1); ticker := time.NewTicker(fileTimeout); go func() ... *)
      Some (set_opener O_open (set_warner G_select (set_ticker false true s)))
  | O_open =>
      match bbolt_Open filePath file_mode options (fs s) with
      | Some ((d, err), f) => Some (set_opener (O_send d err) (set_fs f s))
      | None => None
      end
  | O_send d err =>
      (* done <- true: waits while the buffer is full *)
      match done_ch s with
      | [] => Some (set_opener (O_return (open_result d err)) (set_done [true] s))
      | _ :: _ => None
      end
  | O_return _ => None
  end.

Definition open_exec (c : open_choice) (s : open_state) : option open_state :=
  match c with
  | E_fs f => Some (set_fs f s)
  | E_ticker => if ticker_running s then Some (set_ticker true true s) else None
  | Ch_opener => opener_step s
  | Ch_done =>
      match warner s, done_ch s with
      | G_select, _ :: l => Some (set_warner G_done (set_ticker (ticker_C s) false (set_done l s)))
      | _, _ => None
      end
  | Ch_ticker =>
      match warner s, ticker_C s with
      | G_select, true => Some (set_warner G_warn (set_ticker false (ticker_running s) s))
      | _, _ => None
      end
  | Ch_warn =>
      match warner s with
      | G_warn => Some (set_warner G_select (add_warning s))
      | _ => None
      end
  end.

Definition open_init (f : FS) : open_state := mkOpen f O_mkdir G_none [] false false 0.

Definition open_run (sched : list open_choice) (s : open_state) : open_state :=
  foldl (λ s c, default s (open_exec c s)) s sched.

(** What its caller sees of [createBBoltStore] along a schedule: the result, or [None]
    when it does not come back. *)
Definition createBBoltStore (sched : list open_choice) (f : FS) :
    option (option store * error) * FS :=
  let s := open_run sched (open_init f) in
  (match opener s with O_return r => Some r | _ => None end, fs s).
End open.
Arguments open_state {BL H}.
Arguments open_choice {H}.

Section create.
Context `{BO : BoltOpenLib} {Logger : Type}.

(** The options for bbolt. *)
Definition bbolt_options (cfg : Config Logger) : Options other_options :=
  if NoSync cfg then mkOptions true true true (opt_other DefaultOptions)
  else DefaultOptions.

(** [CreateBBoltStore]: the store's configuration and the result of [createBBoltStore]. *)
Definition CreateBBoltStore (StandardLogger : Logger) (filePath : bytes)
    (opts : list (Option Logger)) (sched : list open_choice) (f : FS) :
    (Config Logger * option (option store * error)) * FS :=
  let cfg := apply_options (DefaultConfig StandardLogger) opts in
  let '(r, f) := createBBoltStore filePath (bbolt_options cfg) sched f in
  ((cfg, r), f).
End create.

(** ** Properties *)

Section facts.
Context `{BO : BoltOpenLib}.
Context (filePath : bytes) (options : Options other_options).
Abbreviation exec := (open_exec filePath options).
Implicit Types s : open_state.

Inductive open_reachable (f0 : FS) : open_state → Prop :=
  | open_reachable_init : open_reachable f0 (open_init f0)
  | open_reachable_step c s s' :
      open_reachable f0 s → exec c s = Some s' → open_reachable f0 s'.

Lemma open_reachable_run f0 sched s :
  open_reachable f0 s → open_reachable f0 (open_run filePath options sched s).
Proof.
  revert s. induction sched as [|c sched IH]; intros s Hs; [done|].
  cbn. apply IH. destruct (exec c s) eqn:E; [|done]. by eapply open_reachable_step.
Qed.

(** The answer of [bbolt.Open]. *)
Definition opened_with (d : DB) (err : error) : Prop :=
  ∃ f f', bbolt_Open filePath file_mode options f = Some ((d, err), f').
Definition dir_made (err : error) : Prop :=
  ∃ f, (os_MkdirAll (path_Dir filePath) ModePerm f).1 = err.

(** The warner runs: its ticker does, and the value it waits for has not been taken. *)
Definition warner_lives s : Prop :=
  (warner s = G_select ∨ warner s = G_warn) ∧ ticker_running s = true.

(** Where the two goroutines are, and what they have done. *)
Definition open_inv s : Prop :=
  match opener s with
  | O_mkdir => warner s = G_none ∧ done_ch s = [] ∧ warnings s = 0
  | O_start => warner s = G_none ∧ done_ch s = [] ∧ warnings s = 0 ∧ dir_made ENil
  | O_open => warner_lives s ∧ done_ch s = [] ∧ dir_made ENil
  | O_send d err => warner_lives s ∧ done_ch s = [] ∧ dir_made ENil ∧ opened_with d err
  | O_return r =>
      (∃ err, err ≠ ENil ∧ dir_made err ∧ r = (None, DatabaseError err) ∧
         warner s = G_none ∧ done_ch s = [] ∧ ticker_running s = false ∧ warnings s = 0) ∨
      (dir_made ENil ∧ (∃ d err, opened_with d err ∧ r = open_result d err) ∧
         (warner_lives s ∧ done_ch s = [true] ∨
          warner s = G_done ∧ done_ch s = [] ∧ ticker_running s = false))
  end ∧
  (warner s = G_none → ticker_running s = false).

Lemma open_inv_opener s s' : open_inv s → opener_step filePath options s = Some s' → open_inv s'.
Proof.
  intros [HI Ht]. unfold open_inv, opener_step, warner_lives in *.
  destruct (opener s) as [| | |d err|r] eqn:Eo; try done.
  - destruct (os_MkdirAll _ _ _) as [err f] eqn:EM.
    assert (HM : dir_made err) by (exists (fs s); by rewrite EM).
    destruct HI as (Hg & Hd & Hw). destruct (is_nil err) eqn:En; cbn; intros [= <-]; cbn.
    + apply is_nil_true in En as ->. by split.
    + apply is_nil_false in En. split; [|done]. left. exists err. by split_and!; auto.
  - intros [= <-]. cbn. destruct HI as (_ & Hd & _ & HM). by split; [auto|].
  - destruct (bbolt_Open _ _ _ _) as [[[d err] f]|] eqn:EO; [|done]. intros [= <-]. cbn.
    destruct HI as (Hl & Hd & HM). split; [|by destruct Hl as [[-> | ->] _]].
    do 3 (split; [done|]). by eexists _, _.
  - destruct (done_ch s); [|done]. intros [= <-]. cbn. destruct HI as (Hl & Hd & HM & HO).
    split; [|by destruct Hl as [[-> | ->] _]]. right. split_and!; eauto.
Qed.

Lemma open_inv_step c s s' : open_inv s → exec c s = Some s' → open_inv s'.
Proof.
  intros HI. destruct c; cbn.
  - intros [= <-]. exact HI.
  - destruct (ticker_running s) eqn:Er; [|done]. intros [= <-]. destruct HI as [HI Ht].
    unfold open_inv, warner_lives in *. cbn. rewrite Er in *. split; [|exact Ht].
    by destruct (opener s).
  - by apply open_inv_opener.
  - destruct (warner s) eqn:Eg, (done_ch s) as [|b l] eqn:Ed; try done. intros [= <-].
    destruct HI as [HI Ht]. unfold open_inv, warner_lives in *. cbn. rewrite Eg, Ed in *.
    split; [|done]. destruct (opener s); naive_solver.
  - destruct (warner s) eqn:Eg, (ticker_C s); try done. intros [= <-].
    destruct HI as [HI Ht]. unfold open_inv, warner_lives in *. cbn. rewrite Eg in *.
    split; [|done]. destruct (opener s); naive_solver.
  - destruct (warner s) eqn:Eg; try done. intros [= <-].
    destruct HI as [HI Ht]. unfold open_inv, warner_lives in *. cbn. rewrite Eg in *.
    split; [|done]. destruct (opener s); naive_solver.
Qed.

Lemma open_inv_reachable f0 s : open_reachable f0 s → open_inv s.
Proof. induction 1; [by split|by eapply open_inv_step]. Qed.

(** C32: the result of [createBBoltStore], in every interleaving with the warner, the ticker
    and other processes: a database error of [os.MkdirAll] for the file's directory, and
    then neither ticker nor goroutine have been started and nothing is opened; or, the
    directory having been made, what [bbolt.Open] answers for the file with mode 0640: a
    database error of its error, or a store on the database with its lock free. *)
Theorem createBBoltStore_result f0 s r
    (Hs : open_reachable f0 s) (Hr : opener s = O_return r) :
  (∃ err, err ≠ ENil ∧ dir_made err ∧ r = (None, DatabaseError err) ∧
     warner s = G_none ∧ ticker_running s = false ∧ warnings s = 0) ∨
  (dir_made ENil ∧ ∃ d err, opened_with d err ∧
     (err ≠ ENil → r = (None, DatabaseError err)) ∧
     (err = ENil → r = (Some (mkStore _ d unlocked), ENil))).
Proof.
  apply open_inv_reachable in Hs as [HI _]. rewrite Hr in HI.
  destruct HI as [(err & He & HM & -> & Hg & _ & Ht & Hw)|(HM & (d & err & HO & ->) & _)].
  - left. exists err. by split_and!.
  - right. split; [done|]. exists d, err. split; [done|]. unfold open_result.
    split; [|by intros ->]. intros He. apply is_nil_false in He. by rewrite He.
Qed.

(** the warning goroutine. While [bbolt.Open] waits it lives; the opener's send on
    [done] never waits; and once the opener has returned, the goroutine has ended with its
    ticker stopped, or it will take the value that lies in [done]: at its next [select] it
    can, and then it has ended, with no further step of the opener. *)
Theorem createBBoltStore_warner f0 s (Hs : open_reachable f0 s) :
  (opener s = O_open → warner_lives s) ∧
  (∀ d err, opener s = O_send d err → is_Some (exec Ch_opener s)) ∧
  (∀ r, opener s = O_return r → warner s ≠ G_none →
    (warner s = G_done ∧ ticker_running s = false) ∨
    (let s' := open_run filePath options [Ch_warn; Ch_done] s in
     warner s' = G_done ∧ ticker_running s' = false ∧ opener s' = opener s)).
Proof.
  apply open_inv_reachable in Hs as [HI _]. split_and!.
  - intros Ho. rewrite Ho in HI. tauto.
  - intros d err Ho. rewrite Ho in HI. destruct HI as (_ & Hd & _). cbn.
    unfold opener_step. rewrite Ho, Hd. by eexists.
  - intros r Ho Hg. rewrite Ho in HI.
    destruct HI as [(? & ? & ? & ? & ? & _)|(_ & _ & [[[Hl Ht] Hd]|(? & ? & ?)])]; [done| |by left].
    right. unfold open_run. cbn. destruct Hl as [Eg|Eg]; rewrite !Eg; cbn;
      unfold open_exec; cbn; rewrite ?Eg, ?Hd; cbn; by split_and!.
Qed.
End facts.

(** ** Instances *)

Module OpenExamples.
Import BoltMem.

(** A file system: whether it can be written, and whether another process holds the
    database file. *)
Record disk := mkDisk { writable : bool; in_use : bool }.

Definition PathError : error := errorString 500 #"mkdir: read-only file system".

#[local] Instance mem_os : OS := {|
  FS := disk;
  os_MkdirAll _ _ f := (if writable f then ENil else PathError, f)
|}.
#[local] Instance mem_open : BoltOpenLib := {|
  other_options := ();
  DefaultOptions := mkOptions false false false ();
  bbolt_Open _ _ _ f :=
    if in_use f then None else Some ((empty_db : DB, ENil), mkDisk (writable f) true)
|}.

Definition file : bytes := #"/data/store/shelf.db".
Definition free_disk : FS := mkDisk true false.
Definition busy_disk : FS := mkDisk true true.
Definition read_only_disk : FS := mkDisk false true.

(** Another process holds the file for a while: one warning, then the store. *)
Definition waits_for_file : list open_choice :=
  [Ch_opener; Ch_opener; Ch_opener; E_ticker; Ch_ticker; Ch_warn; E_fs free_disk;
   Ch_opener; Ch_opener; Ch_done].

Example CreateBBoltStore_runs :
  (CreateBBoltStore () file [WithNoSync] waits_for_file busy_disk).1 =
    (mkConfig (Some ()) true (3 * Second), Some (Some (mkStore _ (empty_db : DB) unlocked), ENil)) ∧
  warnings (open_run file (bbolt_options (DefaultConfig ())) waits_for_file
    (open_init busy_disk)) = 1 ∧
  (CreateBBoltStore () file [] waits_for_file read_only_disk).1.2 =
    Some (None, DatabaseError PathError) ∧
  path_Dir file = #"/data/store".
Proof. repeat split. Qed.

Lemma createBBoltStore_result_witness :
  let s := open_run file DefaultOptions waits_for_file (open_init busy_disk) in
  let r := (Some (mkStore _ (empty_db : DB) unlocked), ENil) in
  opener s = O_return r ∧
  ((∃ err, err ≠ ENil ∧ dir_made file err ∧ r = (None, DatabaseError err) ∧
      warner s = G_none ∧ ticker_running s = false ∧ warnings s = 0) ∨
   (dir_made file ENil ∧ ∃ d err, opened_with file DefaultOptions d err ∧
      (err ≠ ENil → r = (None, DatabaseError err)) ∧
      (err = ENil → r = (Some (mkStore _ d unlocked), ENil)))).
Proof.
  intros s r. split; [reflexivity|].
  apply (createBBoltStore_result file DefaultOptions busy_disk s r); [|reflexivity].
  apply open_reachable_run, open_reachable_init.
Defined.

Lemma createBBoltStore_warner_witness :
  let s := open_run file DefaultOptions (take 9 waits_for_file) (open_init busy_disk) in
  warner s = G_select ∧
  (opener s = O_open → warner_lives s) ∧
  (∀ d err, opener s = O_send d err →
    is_Some (open_exec file DefaultOptions Ch_opener s)) ∧
  (∀ r, opener s = O_return r → warner s ≠ G_none →
    (warner s = G_done ∧ ticker_running s = false) ∨
    (let s' := open_run file DefaultOptions [Ch_warn; Ch_done] s in
     warner s' = G_done ∧ ticker_running s' = false ∧ opener s' = opener s)).
Proof.
  intros s. split; [reflexivity|].
  apply (createBBoltStore_warner file DefaultOptions busy_disk s).
  apply open_reachable_run, open_reachable_init.
Defined.
End OpenExamples.
