(* ===== verification/BboltConc.v ===== *)
(** Several goroutines on one bbolt store: [Write], [Read], [WriteShelf] and [ReadShelf] cut
    into phases that other goroutines may come between, and the proof that a goroutine left
    alone runs exactly the code of Bbolt.v. *)
From S2P Require Import Prelude Errors Keys Go Store Lock Timeout Shelf Client Program Bbolt.
From S2P Require Import BboltSpec BboltTx Interleave.

Section conc.
Context `{BL : BoltLib} {Logger W : Type} `{!Env W, !Scheduler W, !CallScheduler W}.
Context (cfg : Config Logger) (fuel : nat).
Abbreviation M := (M store W).

(** What a goroutine does: a call of [WriteShelf] with a program, of [ReadShelf] with a
    query, or of [Write] or [Read] with a program on several shelves. A locking goroutine that [lockWithCancel] has left behind takes the lock some
    time and gives it back. *)
Inductive task :=
  | T_write (ctx : Context W) (name : bytes) (c : client)
  | T_read (ctx : Context W) (name : bytes) (q : query)
  | T_transact (ctx : Context W) (pr : program)
  | T_inquire (ctx : Context W) (i : inquiry)
  | T_leftover (writable : bool).

(** Where it is: before [LockContext] or [RLockContext]; before [Begin]; before the callback,
    and the shelf of [WriteShelf] or [ReadShelf], is opened; in the callback, before its next
    operation, with the writers or readers it has asked for; before commit or rollback; before the lock is released;
    returned. [Ph_stuck]: it will not return from the call it is in, with or without the
    lock. *)
Inductive phase :=
  | Ph_lock
  | Ph_begin
  | Ph_open (t : Tx)
  | Ph_write (t : Tx) (w : Writer store W) (c : client)
  | Ph_read (t : Tx) (r : Reader store W) (q : query)
  | Ph_transact (t : Tx) (ws : gmap bytes (Writer store W)) (pr : program)
  | Ph_inquire (t : Tx) (rs : gmap bytes (Reader store W)) (i : inquiry)
  | Ph_finish (t : Tx) (appError : error)
  | Ph_unlock (result : error)
  | Ph_done (result : error)
  | Ph_stuck (held : bool).

Definition task_writable (p : task) : bool :=
  match p with
  | T_write _ _ _ | T_transact _ _ => true
  | T_read _ _ _ | T_inquire _ _ => false
  | T_leftover w => w
  end.
Definition task_ctx (p : task) : Context W :=
  match p with
  | T_write ctx _ _ | T_read ctx _ _ | T_transact ctx _ | T_inquire ctx _ => ctx
  | T_leftover _ => Background
  end.

(** The lock phase of [doTX]. *)
Definition lock_phase (p : task) : M phase :=
  match p with
  | T_leftover writable =>
      _ ← (if writable then Lock else RLock); mret (Ph_unlock ENil)
  | _ =>
      r ← (w ← get_world;
           acquire (task_writable p) (WithTimeout (task_ctx p) (now w) (LockAcquireTimeout cfg)));
      mret (if negb (is_nil r) then
              Ph_done (Errorf (if task_writable p then #"unable to obtain BBolt write lock"
                               else #"unable to obtain BBolt read lock") r)
            else Ph_begin)
  end.

(** The part of [finishTX] before the lock is released, for a call without options. *)
Definition end_tx (ctx : Context W) (dbTX : Tx) (writable : bool) (appError : error) : M error :=
  if negb writable || negb (is_nil appError) then
    _ ← rollbackTX dbTX;
    mret appError
  else
    e ← ctx_Err ctx;
    err ← (if negb (is_nil e) then
             err ← ctx_Err ctx;
             _ ← rollbackTX dbTX;
             mret err
           else bolt (tx_Commit dbTX));
    mret (if is_nil err then ENil else WrapError ErrCommitFailed err).

(** The next phase of a goroutine. *)
Definition thread_step (p : task) (ph : phase) : M phase :=
  match ph with
  | Ph_lock => lock_phase p
  | Ph_begin =>
      r ← bolt (db_Begin (task_writable p));
      mret (if negb (is_nil r.2) then
              Ph_unlock (if bool_decide (r.2 = ErrDatabaseNotOpen) then ErrStoreIsClosed
                         else DatabaseError r.2)
            else Ph_open r.1)
  | Ph_open t =>
      match p with
      | T_write ctx name c =>
          w ← bboltTx_GetShelfWriter fuel (mkTx t ctx) name; mret (Ph_write t w c)
      | T_read ctx name q =>
          r ← bboltTx_GetShelfReader fuel (mkTx t ctx) name; mret (Ph_read t r q)
      | T_transact _ pr => mret (Ph_transact t ∅ pr)
      | T_inquire _ i => mret (Ph_inquire t ∅ i)
      | T_leftover _ => panic
      end
  | Ph_write t w c =>
      x ← client_step w c;
      mret (match x with inl e => Ph_finish t e | inr c' => Ph_write t w c' end)
  | Ph_read t r q =>
      x ← query_step r q;
      mret (match x with inl e => Ph_finish t e | inr q' => Ph_read t r q' end)
  | Ph_transact t ws pr =>
      x ← program_step (as_WriteTx fuel (mkTx t (task_ctx p))) ws pr;
      mret (match x with inl e => Ph_finish t e | inr (ws', pr') => Ph_transact t ws' pr' end)
  | Ph_inquire t rs i =>
      x ← inquiry_step (as_ReadTx fuel (mkTx t (task_ctx p))) rs i;
      mret (match x with inl e => Ph_finish t e | inr (rs', i') => Ph_inquire t rs' i' end)
  | Ph_finish t e => r ← end_tx (task_ctx p) t (task_writable p) e; mret (Ph_unlock r)
  | Ph_unlock r => _ ← unlock_of (task_writable p); mret (Ph_done r)
  | Ph_done r => mret (Ph_done r)
  | Ph_stuck h => block
  end.

(** ** A goroutine on its own *)

(** From some number of phases on, [p] in phase [ph] has come to [r]. *)
Abbreviation runs_to p := (runs_to (thread_step p)).

Definition after_end (p : task) (r : error) : M phase :=
  _ ← unlock_of (task_writable p); mret (Ph_done r).
Definition after_app (p : task) (t : Tx) (e : error) : M phase :=
  r ← end_tx (task_ctx p) t (task_writable p) e; after_end p r.

Lemma runs_unlock p r s : runs_to p (Ph_unlock r) s (after_end p r s).
Proof.
  unfold after_end. apply (runs_step (thread_step p) (Ph_unlock r) s _ (λ _, Ph_done r)); [done|].
  intros [] s' _. by apply runs_done.
Qed.

Lemma runs_finish p t e s : runs_to p (Ph_finish t e) s (after_app p t e s).
Proof.
  unfold after_app. apply (runs_step (thread_step p) (Ph_finish t e) s _ Ph_unlock); [done|].
  intros r s' _. apply runs_unlock.
Qed.

Lemma runs_write p t w c s :
  runs_to p (Ph_write t w c) s ((e ← run_client w c; after_app p t e) s).
Proof.
  assert (HS : ∀ c s, (∀ x s', client_step w c s = (Return (inr x), s') →
      runs_to p (Ph_write t w x) s' ((e ← run_client w x; after_app p t e) s')) →
    runs_to p (Ph_write t w c) s ((e ← run_client w c; after_app p t e) s)).
  { intros c' s0 IH. eapply runs_eq; [symmetry; etrans; [unfold mbind at 1, M_bind at 1;
      rewrite run_client_step; reflexivity|]; apply (bind_assoc (client_step w c'))|].
    apply (runs_step (thread_step p) (Ph_write t w c') s0 (client_step w c')
      (λ x, match x with inl e => Ph_finish t e | inr c' => Ph_write t w c' end)); [done|].
    intros [e|x] s' E; [rewrite bind_ret; apply runs_finish|by apply IH]. }
  revert s. induction c as [e|k v next IH|k next IH|k next IH|next IH]; intros s; apply HS;
    intros x s' E; cbn in E; [done|..]; apply bind_inv in E as (a & s1 & _ & [= <- _]); apply IH.
Qed.

Lemma runs_read p t r q s :
  runs_to p (Ph_read t r q) s ((e ← run_query r q; after_app p t e) s).
Proof.
  assert (HS : ∀ q s, (∀ x s', query_step r q s = (Return (inr x), s') →
      runs_to p (Ph_read t r x) s' ((e ← run_query r x; after_app p t e) s')) →
    runs_to p (Ph_read t r q) s ((e ← run_query r q; after_app p t e) s)).
  { intros q' s0 IH. eapply runs_eq; [symmetry; etrans; [unfold mbind at 1, M_bind at 1;
      rewrite run_query_step; reflexivity|]; apply (bind_assoc (query_step r q'))|].
    apply (runs_step (thread_step p) (Ph_read t r q') s0 (query_step r q')
      (λ x, match x with inl e => Ph_finish t e | inr q' => Ph_read t r q' end)); [done|].
    intros [e|x] s' E; [rewrite bind_ret; apply runs_finish|by apply IH]. }
  revert s. induction q as [e|k next IH|next IH]; intros s; apply HS;
    intros x s' E; cbn in E; [done|..]; apply bind_inv in E as (a & s1 & _ & [= <- _]); apply IH.
Qed.

Lemma runs_transact p t ws pr s :
  runs_to p (Ph_transact t ws pr) s
    ((e ← run_program (as_WriteTx fuel (mkTx t (task_ctx p))) ws pr; after_app p t e) s).
Proof.
  revert ws pr s. apply (program_step_ind (as_WriteTx fuel (mkTx t (task_ctx p)))
    (λ ws pr, ∀ s, runs_to p (Ph_transact t ws pr) s
      ((e ← run_program (as_WriteTx fuel (mkTx t (task_ctx p))) ws pr; after_app p t e) s))).
  intros ws pr IH s. eapply runs_eq; [symmetry; etrans; [unfold mbind at 1, M_bind at 1;
    rewrite run_program_step; reflexivity|]; apply (bind_assoc (program_step _ ws pr))|].
  apply (runs_step (thread_step p) _ s _ (λ x, match x with
    | inl e => Ph_finish t e | inr (ws', pr') => Ph_transact t ws' pr' end)); [done|].
  intros [e|[ws' pr']] s' E; [rewrite bind_ret; apply runs_finish|by eapply IH].
Qed.

Lemma runs_inquire p t rs i s :
  runs_to p (Ph_inquire t rs i) s
    ((e ← run_inquiry (as_ReadTx fuel (mkTx t (task_ctx p))) rs i; after_app p t e) s).
Proof.
  revert rs i s. apply (inquiry_step_ind (as_ReadTx fuel (mkTx t (task_ctx p)))
    (λ rs i, ∀ s, runs_to p (Ph_inquire t rs i) s
      ((e ← run_inquiry (as_ReadTx fuel (mkTx t (task_ctx p))) rs i; after_app p t e) s))).
  intros rs i IH s. eapply runs_eq; [symmetry; etrans; [unfold mbind at 1, M_bind at 1;
    rewrite run_inquiry_step; reflexivity|]; apply (bind_assoc (inquiry_step _ rs i))|].
  apply (runs_step (thread_step p) _ s _ (λ x, match x with
    | inl e => Ph_finish t e | inr (rs', i') => Ph_inquire t rs' i' end)); [done|].
  intros [e|[rs' i']] s' E; [rewrite bind_ret; apply runs_finish|by eapply IH].
Qed.

(** [finishTX] without options is [end_tx] and the release of the lock. *)
Lemma finishTX_split ctx t writable unlock e s :
  finishTX ctx t writable [] unlock e s =
    (r ← end_tx ctx t writable e; _ ← unlock; mret r) s.
Proof.
  unfold finishTX, end_tx. destruct writable; cbn [negb orb];
    [destruct (is_nil e); cbn [negb]|]; rewrite ?bind_assoc;
    apply bind_ext; intros a s1; [|done..].
  rewrite bind_assoc. apply bind_ext. intros err s2.
  rewrite bind_ret. destruct (is_nil err); cbn [negb]; by apply bind_ext.
Qed.

(** The rest of [doTX] from [Begin] on, [fn] being the callback. *)
Lemma runs_begin p (fn : Tx → M error) s :
  (∀ t s', runs_to p (Ph_open t) s' ((e ← fn t; after_app p t e) s')) →
  runs_to p Ph_begin s
    ((r ← bolt (db_Begin (task_writable p));
      let '(t, err) := r in
      if negb (is_nil err) then
        after_end p (if bool_decide (err = ErrDatabaseNotOpen) then ErrStoreIsClosed
                     else DatabaseError err)
      else e ← fn t; after_app p t e) s).
Proof.
  intros Hfn. apply (runs_step (thread_step p) Ph_begin s _ (λ r, if negb (is_nil r.2) then
      Ph_unlock (if bool_decide (r.2 = ErrDatabaseNotOpen) then ErrStoreIsClosed
                 else DatabaseError r.2) else Ph_open r.1)); [done|].
  intros [t err] s' _. cbn [fst snd]. destruct (negb (is_nil err)); [apply runs_unlock|apply Hfn].
Qed.

Lemma doTX_split ctx fn writable s :
  doTX cfg ctx fn writable [] s =
    (r ← (w ← get_world; acquire writable (WithTimeout ctx (now w) (LockAcquireTimeout cfg)));
     if negb (is_nil r) then
       mret (Errorf (if writable then #"unable to obtain BBolt write lock"
                     else #"unable to obtain BBolt read lock") r)
     else
       r ← bolt (db_Begin writable);
       let '(t, err) := r in
       if negb (is_nil err) then
         _ ← unlock_of writable;
         mret (if bool_decide (err = ErrDatabaseNotOpen) then ErrStoreIsClosed
               else DatabaseError err)
       else
         e ← fn t; r ← end_tx ctx t writable e; _ ← unlock_of writable; mret r) s.
Proof.
  unfold doTX. rewrite bind_assoc. apply bind_ext. intros w s1.
  apply bind_ext. intros r s2. destruct (negb (is_nil r)); [done|].
  apply bind_ext. intros [t err] s3. destruct (negb (is_nil err)).
  - apply bind_ext. intros [] s4. by case_bool_decide.
  - apply bind_ext. intros e s4. apply finishTX_split.
Qed.

(** The calls of the goroutines, without options. *)
Definition task_call (p : task) : M error :=
  match p with
  | T_write ctx name c => store_WriteShelf cfg fuel ctx name (λ w, run_client w c)
  | T_read ctx name q => store_ReadShelf cfg fuel ctx name (λ r, run_query r q)
  | T_transact ctx pr => store_Write cfg fuel ctx (λ t, run_program t ∅ pr) []
  | T_inquire ctx i => store_Read cfg fuel ctx (λ t, run_inquiry t ∅ i)
  | T_leftover writable =>
      _ ← (if writable then Lock else RLock);
      _ ← (if writable then Unlock else RUnlock); mret ENil
  end.

Lemma runs_doTX p fn s :
  (∀ w, p ≠ T_leftover w) →
  (∀ t s', runs_to p (Ph_open t) s' ((e ← fn t; after_app p t e) s')) →
  runs_to p Ph_lock s
    ((e ← doTX cfg (task_ctx p) fn (task_writable p) []; mret (Ph_done e)) s).
Proof.
  intros Hp Hfn. eapply runs_eq; [symmetry; etrans; [unfold mbind at 1, M_bind at 1;
    rewrite doTX_split; reflexivity|apply (bind_assoc (get_world ≫= _))]|].
  apply (runs_step (thread_step p) Ph_lock s _ (λ r, if negb (is_nil r) then
      Ph_done (Errorf (if task_writable p then #"unable to obtain BBolt write lock"
                       else #"unable to obtain BBolt read lock") r) else Ph_begin)).
  { destruct p; try done. by destruct (Hp writable). }
  intros r s1 _. destruct (negb (is_nil r)); [by apply runs_done|].
  eapply runs_eq; [|by apply (runs_begin p fn s1)].
  symmetry. rewrite bind_assoc. apply bind_ext. intros [t err] s2.
  unfold after_app, after_end. destruct (negb (is_nil err)).
  - rewrite bind_assoc. by apply bind_ext.
  - rewrite bind_assoc. apply bind_ext. intros e s3. rewrite bind_assoc. apply bind_ext.
    intros r' s4. rewrite bind_assoc. by apply bind_ext.
Qed.

(** The phases are the code: a goroutine that is left alone comes, from some number of
    phases on, to exactly the outcome and state of its call. *)
Lemma bbolt_phases_call p s :
  runs_to p Ph_lock s ((e ← task_call p; mret (Ph_done e)) s).
Proof.
  destruct p as [ctx name c|ctx name q|ctx pr|ctx i|writable]; cbn [task_call].
  - apply runs_doTX; [done|]. intros t s1.
    eapply runs_eq; [symmetry; apply bind_assoc|].
    apply (runs_step (thread_step _) _ s1 _ (λ w, Ph_write t w c)); [done|].
    intros w s2 _. apply runs_write.
  - apply runs_doTX; [done|]. intros t s1.
    eapply runs_eq; [symmetry; apply bind_assoc|].
    apply (runs_step (thread_step _) _ s1 _ (λ r, Ph_read t r q)); [done|].
    intros r s2 _. apply runs_read.
  - apply runs_doTX; [done|]. intros t s1. eapply runs_one; [done|apply runs_transact].
  - apply runs_doTX; [done|]. intros t s1. eapply runs_one; [done|apply runs_inquire].
  - eapply runs_eq; [symmetry; apply bind_assoc|].
    apply (runs_step (thread_step _) _ s _ (λ _, Ph_unlock ENil)); [done|].
    intros [] s1 _. eapply runs_eq; [|apply runs_unlock]. unfold after_end, unlock_of. cbn.
    rewrite bind_assoc. by apply bind_ext.
Qed.
End conc.
