(* ===== verification/BboltSteps.v ===== *)
(** The phases of goroutines on one bbolt store: the specification of the calls, the invariant
    of one goroutine, and what each phase does to it and to the others. BboltSerial.v puts
    the goroutines together. *)
From S2P Require Import Prelude Errors Keys Go Store Lock Timeout Shelf Client Program Bbolt.
From S2P Require Import BboltSpec BboltFacts BboltTx BboltProgram Interleave BboltConc.

(** ** Phases *)

(** Whether a goroutine holds the store's lock in a phase, its transaction, its result. *)
Definition holds `{BL : BoltLib} {W} (ph : phase (W := W)) : bool :=
  match ph with Ph_lock | Ph_done _ => false | Ph_stuck h => h | _ => true end.
Definition phase_tx `{BL : BoltLib} {W} (ph : phase (W := W)) : option Tx :=
  match ph with
  | Ph_open t | Ph_write t _ _ | Ph_read t _ _ | Ph_transact t _ _ | Ph_inquire t _ _
  | Ph_finish t _ => Some t
  | _ => None
  end.
Definition finished `{BL : BoltLib} {W} (ph : phase (W := W)) : option error :=
  match ph with Ph_unlock e | Ph_done e => Some e | _ => None end.

Section steps.
Context `{BC : BoltConcSpec} {Logger W : Type} `{!Env W, !Scheduler W, !CallScheduler W}.
Context (cfg : Config Logger) (fuel : nat) (tasks : list (task (W := W))).
Implicit Types (s : St store W) (p : task (W := W)) (ph : phase (W := W)).
Abbreviation M := (M store W).

Abbreviation conc := (conc store W (phase (W := W))).

(** A goroutine may not come back from taking the lock, having it or not. *)
Definition stuck ph s s' : option (phase (W := W)) :=
  match ph with
  | Ph_lock => Some (Ph_stuck (bool_decide (held_lock s' ≠ held_lock s)))
  | _ => None
  end.
Abbreviation conc_step := (conc_step (thread_step cfg fuel) stuck tasks).
Abbreviation conc_init := (conc_init tasks Ph_lock).

(** ** Specification: one task after the other *)

(** Programs in a transaction that began with the pairs [it], or the shelves [σ]. *)
Abbreviation client_spec it := (client_spec bbolt_write_fails bbolt_read_fails (Some it)).
Abbreviation query_spec := (query_spec bbolt_read_fails).
Abbreviation program_spec σ :=
  (program_spec bbolt_open_fails bbolt_write_fails bbolt_read_fails (Some σ)).
Abbreviation inquiry_spec := (inquiry_spec bbolt_read_fails).

(** The shelves the buckets [d] hold. *)
Definition shelves_of (d : shelves) : Program.shelves := λ n, default [] (d !! n).

(** A program ignores that its shelf could not be opened. *)
Definition on_error_writer (c : client) (e : error) : Prop :=
  ∃ err, err ≠ ENil ∧ ∀ s, run_client (NewErrorWriter err) c s = (Return e, s).

(** What a task may return, and leave, when it has the data [d] for itself. *)
Inductive task_spec : task (W := W) → shelves → error → shelves → Prop :=
  | ts_committed ctx name c d it :
      client_spec (default [] (d !! name)) c (default [] (d !! name)) ENil it →
      task_spec (T_write ctx name c) d ENil (<[name := it]> d)
  | ts_ignored ctx name c d :
      on_error_writer c ENil → task_spec (T_write ctx name c) d ENil d
  | ts_failed ctx name c d e :
      e ≠ ENil →
      (∃ it, client_spec (default [] (d !! name)) c (default [] (d !! name)) e it) ∨
        on_error_writer c e ∨
        is_database_error e = true →
      task_spec (T_write ctx name c) d e d
  | ts_read ctx name q d e :
      query_spec (default [] (d !! name)) q e ∨ is_database_error e = true →
      task_spec (T_read ctx name q) d e d
  | ts_transacted ctx pr d d' σ' :
      program_spec (shelves_of d) ∅ (shelves_of d) pr ENil σ' → views d' σ' →
      task_spec (T_transact ctx pr) d ENil d'
  | ts_undone ctx pr d e :
      e ≠ ENil →
      (∃ σ', program_spec (shelves_of d) ∅ (shelves_of d) pr e σ') ∨ is_database_error e = true →
      task_spec (T_transact ctx pr) d e d
  | ts_inquired ctx i d e :
      inquiry_spec (shelves_of d) i e ∨ is_database_error e = true →
      task_spec (T_inquire ctx i) d e d
  | ts_leftover w d : task_spec (T_leftover w) d ENil d.

Abbreviation serial := (serial tasks task_spec).

(** ** The invariant of one goroutine *)

Definition is_call p : Prop := match p with T_leftover _ => False | _ => True end.

(** The callback of [p] has returned [e] and its transaction holds the outcome. *)
Definition app_ok p (t : Tx) (e : error) s : Prop :=
  match p with
  | T_write _ name c =>
      (∃ it, client_spec (default [] (data s !! name)) c (default [] (data s !! name)) e it ∧
         view_of t s = Some (true, <[name := it]> (data s))) ∨
      (view_of t s = Some (true, data s) ∧ on_error_writer c e)
  | T_read _ name q =>
      view_of t s = Some (false, data s) ∧ query_spec (default [] (data s !! name)) q e
  | T_transact _ pr =>
      ∃ v σ', view_of t s = Some (true, v) ∧ views v σ' ∧
        program_spec (shelves_of (data s)) ∅ (shelves_of (data s)) pr e σ'
  | T_inquire _ i =>
      view_of t s = Some (false, data s) ∧ inquiry_spec (shelves_of (data s)) i e
  | T_leftover _ => False
  end.

(** The writer [w] that [GetShelfWriter] made, with the rest [c'] of the program [c]. *)
Definition writes_to (t : Tx) (name : bytes) (w : Writer store W) (c c' : client) s : Prop :=
  (∃ b ctx it, w = as_Writer fuel (mkShelf b ctx) ∧ bkt_Tx b = t ∧ bkt_name b = name ∧
     backed (mkShelf b ctx) (data s) (data s) s it ∧
     ∀ e it', client_spec (default [] (data s !! name)) c' it e it' →
       client_spec (default [] (data s !! name)) c (default [] (data s !! name)) e it') ∨
  (∃ err, err ≠ ENil ∧ w = NewErrorWriter err ∧ view_of t s = Some (true, data s) ∧
     ∀ s', run_client (NewErrorWriter err) c s' =
       (run_client (NewErrorWriter err) c' s' : outcome error * St store W)).

(** The rest [pr'] of the program [pr] with the writers [ws], the rest [i'] of the inquiry [i]
    with the readers [rs]. *)
Definition transacting (t : Tx) ws (pr pr' : program) s : Prop :=
  ∃ h σ, seen (shelves_of (data s)) t s σ ∧ kept (writer_in fuel t) s ws h ∧
    ∀ e σ', program_spec (shelves_of (data s)) h σ pr' e σ' →
      program_spec (shelves_of (data s)) ∅ (shelves_of (data s)) pr e σ'.
Definition inquiring (t : Tx) rs (i i' : inquiry) s : Prop :=
  view_of t s = Some (false, data s) ∧ kept_readers (reader_in fuel t (data s)) rs ∧
  ∀ e, inquiry_spec (shelves_of (data s)) i' e → inquiry_spec (shelves_of (data s)) i e.

Definition thread_ok p ph s : Prop :=
  match ph with
  | Ph_lock | Ph_unlock _ | Ph_done _ | Ph_stuck _ => True
  | Ph_begin => is_call p
  | Ph_open t => is_call p ∧ view_of t s = Some (task_writable p, data s)
  | Ph_write t w c' =>
      match p with T_write _ name c => writes_to t name w c c' s | _ => False end
  | Ph_read t r q' =>
      match p with
      | T_read _ name q =>
          ∃ it, reads_from fuel t name r (data s) s it ∧ ∀ e, query_spec it q' e → query_spec it q e
      | _ => False
      end
  | Ph_transact t ws pr' =>
      match p with T_transact _ pr => transacting t ws pr pr' s | _ => False end
  | Ph_inquire t rs i' =>
      match p with T_inquire _ i => inquiring t rs i i' s | _ => False end
  | Ph_finish t e => app_ok p t e s
  end.

Lemma transacting_frame t ws pr pr' s s' :
  data s' = data s → view_of t s' = view_of t s → transacting t ws pr pr' s →
  transacting t ws pr pr' s'.
Proof.
  intros Hd Hv (h & σ & [(v & Hv1 & Hσ) _] & Hk & Hsp). exists h, σ. split_and!.
  - split; [|done]. exists v. by rewrite Hv.
  - destruct Hk as [H1 H2]. split; [|done]. intros n w Hw. destruct (H1 n w Hw) as (r & Hr & Hh).
    exists r. split; [done|]. destruct r as [err|]; [done|].
    destruct Hh as (b & ctx & -> & Hb). exists b, ctx. split; [done|].
    unfold bucket_in. by rewrite Hv.
  - by rewrite Hd.
Qed.

(** A goroutine's invariant speaks of the committed data and its own transaction only. *)
Lemma thread_ok_frame p ph s s' :
  data s' = data s → (∀ t, phase_tx ph = Some t → view_of t s' = view_of t s) →
  thread_ok p ph s → thread_ok p ph s'.
Proof.
  intros Hd Hv. destruct ph as [| |t|t w c|t r q|t ws pr|t rs i|t e|r|r|h]; cbn in *; try done;
    specialize (Hv t eq_refl).
  - by rewrite Hd, Hv.
  - destruct p as [ctx name c'| | | |]; try done. unfold writes_to, backed, writable_at.
    intros [(b & ctx' & it & -> & Ht & Hn & [[H1 H2] _] & Hc)|(err & He & -> & H1 & Hc)];
      [left|right].
    + exists b, ctx', it. cbn in *. rewrite Ht in *. rewrite Hv, Hd. by split_and!.
    + exists err. rewrite Hv, Hd. by split_and!.
  - destruct p as [|ctx name q'| | |]; try done. unfold reads_from. by rewrite Hd, Hv.
  - destruct p; try done. by apply transacting_frame.
  - destruct p; try done. unfold inquiring. by rewrite Hd, Hv.
  - unfold app_ok. by rewrite Hd, Hv.
Qed.

Lemma thread_ok_open p ph s t :
  thread_ok p ph s → phase_tx ph = Some t → is_Some (view_of t s).
Proof.
  destruct ph as [| |t'|t' w c|t' r q|t' ws pr|t' rs i|t' e|r|r|h]; cbn; try done;
    intros HT [= ->].
  - destruct HT as [_ ->]. eauto.
  - destruct p as [ctx name c'| | | |]; try done.
    destruct HT as [(b & ctx' & it & _ & Ht & _ & [[H _] _] & _)|(err & _ & _ & -> & _)]; [|eauto].
    cbn in H. rewrite Ht in H. rewrite H. eauto.
  - destruct p; try done. destruct HT as (it & [-> _] & _). eauto.
  - destruct p; try done. destruct HT as (h & σ & [(v & -> & _) _] & _). eauto.
  - destruct p; try done. destruct HT as [-> _]. eauto.
  - destruct p; try done; [destruct HT as [(it & _ & ->)|[-> _]]|destruct HT as [-> _]
      |destruct HT as (v & σ & -> & _)|destruct HT as [-> _]]; eauto.
Qed.

(** ** What one phase does *)

(** The effect of a goroutine's phase on the lock, the data, and the transactions. *)
Record step_ok p ph ph' s s' : Prop := {
  so_lock :
    (holds ph' = holds ph ∧ held_lock s' = held_lock s) ∨
    (holds ph = false ∧ holds ph' = true ∧
       lock_held (task_writable p) (held_lock s) (held_lock s')) ∨
    (holds ph = true ∧ holds ph' = false ∧
       lock_held (task_writable p) (held_lock s') (held_lock s));
  so_log :
    (finished ph' = finished ph ∧ data s' = data s) ∨
    (∃ e, finished ph = None ∧ finished ph' = Some e ∧ task_spec p (data s) e (data s') ∧
       (data s' = data s ∨ (holds ph = true ∧ task_writable p = true)));
  so_frame : ∀ t x, phase_tx ph ≠ Some t → view_of t s = Some x → view_of t s' = Some x;
  so_new : ∀ t, phase_tx ph' = Some t → phase_tx ph = Some t ∨ view_of t s = None;
  so_ok : thread_ok p ph' s'
}.

(** A phase that only moves within the transaction [t]. *)
Definition only_tx (t : Tx) s s' : Prop :=
  data s' = data s ∧ held_lock s' = held_lock s ∧ ∀ t', t' ≠ t → view_of t' s' = view_of t' s.

#[local] Instance only_tx_preorder t : PreOrder (only_tx t).
Proof.
  split; [done|]. intros s1 s2 s3 (H1 & H2 & H3) (H4 & H5 & H6).
  split_and!; [congruence..|]. intros t' Ht. by rewrite H6, H3.
Qed.

Lemma step_ok_within p ph ph' t s s' :
  phase_tx ph = Some t → phase_tx ph' = Some t → only_tx t s s' → thread_ok p ph' s' →
  holds ph = true → holds ph' = true → finished ph = None → finished ph' = None →
  step_ok p ph ph' s s'.
Proof.
  intros H1 H2 (Hd & Hl & Hv) Hok Hh1 Hh2 Hf1 Hf2. split; try done.
  - left. by rewrite Hh1, Hh2.
  - left. by rewrite Hf1, Hf2.
  - intros t' x Ht' <-. apply Hv. congruence.
  - intros t' Ht'. left. congruence.
Qed.

(** *** The callback *)

Definition others_view (t : Tx) s s' : Prop := ∀ t', t' ≠ t → view_of t' s' = view_of t' s.

#[local] Instance others_view_preorder t : PreOrder (others_view t).
Proof. split; [done|]. intros s1 s2 s3 H1 H2 t' Ht. by rewrite H2, H1. Qed.

Lemma keeps_bolt {A} t (f : DB → A * DB) :
  (∀ d t', t' ≠ t → tx_state (f d).2 t' = tx_state d t') → keeps (others_view t) (bolt f).
Proof.
  intros Hf s t' Ht. unfold bolt, lib, view_of. specialize (Hf (db (back s)) t' Ht).
  by destruct (f (db (back s))).
Qed.
Lemma keeps_bolt_read {A} t (f : DB → A) : keeps (others_view t) (bolt_read f).
Proof. by apply keeps_bolt. Qed.

Lemma bucket_ops_others b ctx :
  writer_keeps (others_view (bkt_Tx b)) (as_Writer fuel (mkShelf b ctx)).
Proof.
  assert (HW : ∀ f : DB → error * DB,
    (∀ d t', t' ≠ bkt_Tx b → tx_state (f d).2 t' = tx_state d t') →
    keeps (others_view (bkt_Tx b))
      (err ← bolt f; if negb (is_nil err) then mret (DatabaseError err) else mret ENil)).
  { intros f Hf. apply keeps_bind; [apply _|by apply keeps_bolt|].
    intros e. destruct (negb (is_nil e)); apply keeps_ret, _. }
  split; [|split; [|split]].
  - intros k v. apply HW. intros d t' Ht. by apply frame_Put.
  - intros k. apply HW. intros d t' Ht. by apply frame_Delete.
  - intros k. apply keeps_bind; [apply _|apply keeps_bolt_read|]. intros []; apply keeps_ret, _.
  - apply keeps_bind; [apply _| |intros; apply keeps_ret, _].
    apply keeps_bind; [apply _|apply keeps_bolt_read|]. intros n.
    apply keeps_bind; [apply _|apply keeps_bolt_read|]. intros; apply keeps_ret, _.
Qed.

Lemma program_step_others ctx t ws h pr s :
  kept (writer_in fuel t) s ws h →
  others_view t s (program_step (as_WriteTx fuel (mkTx t ctx)) ws pr s).2.
Proof.
  intros [Hk _]. refine (keeps_program_step (others_view t) _ ws pr _ _ s).
  - intros n. apply keeps_bind; [apply _| |].
    + apply keeps_bolt. intros d t' Ht. by apply frame_CreateBucket.
    + intros [b err]. destruct (negb (is_nil err)); apply keeps_ret, _.
  - intros n w Ew. destruct (Hk n w Ew) as ([err|] & _ & Hh).
    + destruct Hh as (e & -> & _). apply errWriter_keeps, _.
    + destruct Hh as (b & c & -> & <- & _). apply bucket_ops_others.
Qed.

Lemma step_write ctx name c t w c' s ph' s' :
  writes_to t name w c c' s →
  thread_step cfg fuel (T_write ctx name c) (Ph_write t w c') s = (Return ph', s') →
  step_ok (T_write ctx name c) (Ph_write t w c') ph' s s'.
Proof.
  intros HW E. cbn in E. destruct HW as [(b & ctx' & it & -> & Ht & Hn & Hb & Hc)
    |(err & He & -> & Hv & Hc)].
  - destruct (client_step_refines _ _ _ (as_Writer fuel (mkShelf b ctx')) _ _ c' it s Hb)
      as (x & s1 & it1 & E1 & [[Hb1 Hb2] _] & (Hf & Hl & _) & Hx).
    pose proof (keeps_client_step _ _ c' (bucket_ops_others b ctx') s) as Ho. rewrite E1 in Ho. cbn in Ho.
    rewrite (bind_Return _ _ _ _ _ E1) in E. injection E as <- <-.
    assert (Hot : only_tx t s s1) by (split_and!; [exact Hf|exact Hl|by rewrite <-Ht]).
    cbn in Hb1, Hb2, Hx. rewrite Ht in Hb1. rewrite Hn in Hb1, Hx.
    assert (Hd : data s1 = data s) by apply Hot.
    destruct x as [e|c1]; apply (step_ok_within _ _ _ t); try done; cbn.
    + left. exists it1. rewrite Hd. auto.
    + left. exists b, ctx', it1. rewrite Hd. split_and!; try done; [|naive_solver].
      split; [|exact Hd]. split; cbn; [by rewrite Ht, Hn|exact Hb2].
  - destruct (client_step_errWriter err c' s) as (x & E1 & Hx).
    rewrite (bind_Return _ _ _ _ _ E1) in E. injection E as <- <-.
    destruct x as [e|c1]; apply (step_ok_within _ _ _ t); try done; cbn.
    + right. split; [done|]. exists err. split; [done|]. intros s'. by rewrite Hc, Hx.
    + right. exists err. split_and!; try done. intros s'. by rewrite Hc, Hx.
Qed.

Lemma step_read ctx name q t r q' s ph' s' :
  thread_ok (T_read ctx name q) (Ph_read t r q') s →
  thread_step cfg fuel (T_read ctx name q) (Ph_read t r q') s = (Return ph', s') →
  step_ok (T_read ctx name q) (Ph_read t r q') ph' s s'.
Proof.
  intros (it & Hr & Hq) E. cbn in E.
  destruct (query_step_refines _ r _ _ (Serves0 := bbolt_Serves fuel t name r (data s) it) q' it s (conj eq_refl Hr)) as (x & s1 & E1 & _ & <- & Hx).
  rewrite (bind_Return _ _ _ _ _ E1) in E. injection E as <- <-.
  destruct x as [e|q1]; apply (step_ok_within _ _ _ t); try done; cbn.
  - destruct Hr as (Hv & -> & _). auto.
  - exists it. auto.
Qed.

Lemma step_transact ctx pr t ws pr' s ph' s' :
  transacting t ws pr pr' s →
  thread_step cfg fuel (T_transact ctx pr) (Ph_transact t ws pr') s = (Return ph', s') →
  step_ok (T_transact ctx pr) (Ph_transact t ws pr') ph' s s'.
Proof.
  intros (h & σ & Hs & Hk & Hsp) E. cbn [thread_step task_ctx] in E.
  destruct (program_step_refines _ _ _ _ (as_WriteTx fuel (mkTx t ctx)) (λ _, True)
    (seen (shelves_of (data s)) t) (writer_in fuel t) (used t) pr' ws h σ s (program_on_all pr') Hs Hk) as (x & s1 & E1 & [(Hc & Hl & _) _] & Hx).
  pose proof (program_step_others ctx t ws h pr' s Hk) as Ho. rewrite E1 in Ho. cbn [snd] in Ho.
  rewrite (bind_Return _ _ _ _ _ E1) in E. injection E as <- <-.
  assert (Hd : data s1 = data s) by exact Hc.
  assert (Hot : only_tx t s s1) by (split_and!; [exact Hd|unfold held_lock; by rewrite Hl|exact Ho]).
  destruct x as [e|[ws1 pr1]]; apply (step_ok_within _ _ _ t); try done; cbn; rewrite ?Hd.
  - destruct Hx as [[(v & Hv & Hσ) _] Hp]. exists v, σ. auto.
  - destruct Hx as (_ & h1 & σ1 & Hs1 & Hk1 & Hx). exists h1, σ1. rewrite Hd. auto.
Qed.

Lemma step_inquire ctx i t rs i' s ph' s' :
  inquiring t rs i i' s →
  thread_step cfg fuel (T_inquire ctx i) (Ph_inquire t rs i') s = (Return ph', s') →
  step_ok (T_inquire ctx i) (Ph_inquire t rs i') ph' s s'.
Proof.
  intros (Hv & Hk & Hsp) E. cbn [thread_step task_ctx] in E.
  destruct (inquiry_step_refines _ (as_ReadTx fuel (mkTx t ctx)) (λ _, True) _ _ _ i' rs
    (shelves_of (data s)) s (inquiry_on_all i') (conj Hv (λ n, eq_refl)) Hk) as (x & s1 & E1 & _ & <- & Hx).
  rewrite (bind_Return _ _ _ _ _ E1) in E. injection E as <- <-.
  destruct x as [e|[rs1 i1]]; apply (step_ok_within _ _ _ t); try done; cbn.
  - auto.
  - destruct Hx as (_ & Hk1 & Hx). split_and!; auto.
Qed.

(** *** The lock, and the transaction's begin and end *)

Hypothesis no_interference : undisturbed W.
Hypothesis forward : clock_forward (W := W).

Lemma db_view t s s' : db (back s') = db (back s) → view_of t s' = view_of t s.
Proof. unfold view_of. by intros ->. Qed.
Lemma db_data s s' : db (back s') = db (back s) → data s' = data s.
Proof. unfold data. by intros ->. Qed.

(** A phase of the lock, which does not touch the database. *)
Lemma step_ok_lock p ph ph' s s' :
  db (back s') = db (back s) → phase_tx ph = None → phase_tx ph' = None → thread_ok p ph' s' →
  ((holds ph' = holds ph ∧ held_lock s' = held_lock s) ∨
   (holds ph = false ∧ holds ph' = true ∧
      lock_held (task_writable p) (held_lock s) (held_lock s')) ∨
   (holds ph = true ∧ holds ph' = false ∧
      lock_held (task_writable p) (held_lock s') (held_lock s))) →
  (finished ph' = finished ph ∨
   ∃ e, finished ph = None ∧ finished ph' = Some e ∧ task_spec p (data s) e (data s)) →
  step_ok p ph ph' s s'.
Proof.
  intros Hdb H1 H2 Hok Hl Hf. pose proof (db_data s s' Hdb) as Hd. split; try done.
  - destruct Hf as [?|(e & ? & ? & ?)]; [by left|right]. exists e. rewrite Hd. auto.
  - intros t x _ <-. by apply db_view.
  - intros t. by rewrite H2.
Qed.

(** A failure before the callback is allowed for every call. *)
Lemma task_spec_fails p d e :
  is_call p → e ≠ ENil → is_database_error e = true → task_spec p d e d.
Proof.
  destruct p; intros Hc He Hd; [apply ts_failed|apply ts_read|apply ts_undone|apply ts_inquired|done];
    auto.
Qed.

Definition lock_input p s : Context W :=
  WithTimeout (task_ctx p) (now (world s)) (LockAcquireTimeout cfg).

Lemma lock_phase_call p s :
  is_call p →
  lock_phase cfg p s =
    (r ← acquire (task_writable p) (lock_input p s);
     mret (if negb (is_nil r) then
             Ph_done (Errorf (if task_writable p then #"unable to obtain BBolt write lock"
                              else #"unable to obtain BBolt read lock") r)
           else Ph_begin)) s.
Proof. by destruct p. Qed.

Lemma step_lock p s ph' s' :
  sticky (task_ctx p) → thread_step cfg fuel p Ph_lock s = (Return ph', s') →
  step_ok p Ph_lock ph' s s'.
Proof.
  intros Hst E. cbn [thread_step] in E.
  destruct p as [ctx name c|ctx name q|ctx pr|ctx i|w] eqn:Ep.
  5: { cbn in E. apply bind_inv in E as ([] & s1 & E1 & [= <- <-]).
    assert (H : db (back s1) = db (back s) ∧ lock_held w (held_lock s) (held_lock s1)).
    { destruct w; unfold Lock, RLock, on_mux in E1; cbn in E1.
      - destruct (mux_Lock (lock (back s))) eqn:EL; [|done]. injection E1 as <-.
        split; [done|]. by apply lock_hold.
      - destruct (mux_RLock (lock (back s))) eqn:EL; [|done]. injection E1 as <-.
        split; [done|]. by apply lock_hold. }
    destruct H as [Hdb Hh]. apply step_ok_lock; try done; [by right; left|].
    right. exists ENil. split_and!; [done|done|constructor]. }
  all: rewrite <-Ep in *; assert (Hc : is_call p) by (by subst p);
    rewrite (lock_phase_call p s Hc) in E;
    assert (Hst' : sticky (lock_input p s)) by (by apply WithTimeout_sticky);
    clear Ep; destruct (acquire_cases no_interference (task_writable p) _ s Hst')
      as [(m & s1 & E1 & Hh & Hdb & Hl)|[(e & s1 & E1 & He & Hde & Hdb & Hl)|(s1 & E1 & _)]].
  1,4,7,10: rewrite (bind_Return _ _ _ _ _ E1) in E; cbn [is_nil negb] in E; injection E as <- <-;
    apply step_ok_lock; try done; [|by left]; right; left; by rewrite Hl.
  1,3,5,7: rewrite (bind_Return _ _ _ _ _ E1) in E; apply is_nil_false in He as Hn;
    rewrite Hn in E; cbn [negb] in E; injection E as <- <-;
    apply step_ok_lock; try done; [by left|]; right; eexists; split_and!; [done|done|];
    apply task_spec_fails; [done|done|by rewrite Errorf_database].
  all: unfold mbind, M_bind in E; rewrite E1 in E; done.
Qed.

Lemma step_begin p s ph' s' :
  is_call p → thread_step cfg fuel p Ph_begin s = (Return ph', s') →
  step_ok p Ph_begin ph' s s'.
Proof.
  intros Hc E. cbn [thread_step] in E.
  pose proof (spec_Begin (db (back s)) (task_writable p)) as HB.
  pose proof (frame_Begin (task_writable p) (db (back s))) as HF.
  destruct (db_Begin (task_writable p) (db (back s))) as [[t err] d'] eqn:EB.
  destruct HB as [Hd Hv], HF as [Hnew Hfr].
  set (s1 := mkSt (mkStore _ d' (lock (back s))) (world s)).
  assert (ES : bolt (db_Begin (task_writable p)) s = (Return (t, err), s1))
    by (unfold bolt, lib; by rewrite EB).
  rewrite (bind_Return _ _ _ _ _ ES) in E. cbn [fst snd] in E.
  destruct (is_nil err) eqn:En; cbn [negb] in E; injection E as <- <-.
  - apply is_nil_true in En as ->.
    assert (Hd1 : data s1 = data s) by exact Hd.
    split; [by left|by left| | |]; cbn [thread_ok phase_tx].
    3: { split; [done|]. rewrite Hd1. unfold view_of. cbn. by apply Hv. }
    + intros t' x _ Hx. unfold view_of in *. cbn. rewrite Hfr; [done|]. right.
      intros ->. by rewrite Hnew in Hx.
    + intros t' [= <-]. right. by apply Hnew.
  - apply is_nil_false in En. assert (Hd1 : data s1 = data s) by exact Hd.
    split; [by left| | |done|done]; cbn [phase_tx].
    + right. eexists. split_and!; [done|done| |by left]. rewrite Hd1.
      apply task_spec_fails; [done|..]; case_bool_decide; try done;
        [apply DatabaseError_not_nil|apply DatabaseError_database].
    + intros t' x _ <-. unfold view_of. cbn. apply Hfr. by left.
Qed.

Lemma step_open p t s ph' s' :
  thread_ok p (Ph_open t) s → thread_step cfg fuel p (Ph_open t) s = (Return ph', s') →
  step_ok p (Ph_open t) ph' s s'.
Proof.
  intros [Hc Hv] E. cbn [thread_step] in E.
  destruct p as [ctx name c|ctx name q|ctx pr|ctx i|w]; [| | | |done].
  - unfold bboltTx_GetShelfWriter in E. cbn [tx tx_ctx task_writable] in *.
    pose proof (spec_CreateBucket (db (back s)) t (data s) name Hv) as HC.
    pose proof (frame_CreateBucket t name (db (back s))) as HF.
    destruct (tx_CreateBucketIfNotExists t name (db (back s))) as [[b err] d'] eqn:EC.
    destruct HC as [Hd HC]. set (s1 := mkSt (mkStore _ d' (lock (back s))) (world s)).
    assert (ES : bolt (tx_CreateBucketIfNotExists t name) s = (Return (b, err), s1))
      by (unfold bolt, lib; by rewrite EC).
    assert (Hd1 : data s1 = data s) by exact Hd.
    rewrite bind_assoc, (bind_Return _ _ _ _ _ ES) in E.
    destruct (is_nil err) eqn:En; cbn [negb] in E; injection E as <- <-;
      apply (step_ok_within _ _ _ t); try done; cbn.
    + destruct HC as (Ht & Hn & Hv1). left.
      exists b, ctx, (default [] (data s !! name)). rewrite Hd1. split_and!; try done.
      split; [|exact Hd1]. split; cbn; [by rewrite Ht, Hn|]. by rewrite Hn, lookup_insert_eq.
    + right. exists err. rewrite Hd1. split_and!; try done. by apply is_nil_false.
  - unfold bboltTx_GetShelfReader, getBucket in E. cbn [tx tx_ctx task_writable] in *.
    pose proof (spec_Bucket (db (back s)) t false (data s) name Hv) as HB.
    assert (ES : bolt_read (tx_Bucket t name) s = (Return (tx_Bucket t name (db (back s))), s))
      by (unfold bolt_read, bolt, lib; by destruct s as [[]]).
    rewrite bind_assoc, (bind_Return _ _ _ _ _ ES) in E.
    destruct (data s !! name) as [it|] eqn:Ed;
      [destruct HB as (b & Eb & Ht & Hn); rewrite Eb in E|rewrite HB in E];
      injection E as <- <-; apply (step_ok_within _ _ _ t); try done; cbn.
    + exists it. split; [|done]. split_and!; [done|by rewrite Ed|]. right. exists b, ctx. by rewrite Ed.
    + exists []. split; [|done]. split_and!; [done|by rewrite Ed|]. by left.
  - injection E as <- <-. apply (step_ok_within _ _ _ t); try done. cbn.
    exists ∅, (shelves_of (data s)). split_and!; [|apply kept_none|done].
    split; [by exists (data s)|done].
  - injection E as <- <-. by apply (step_ok_within _ _ _ t).
Qed.

(** Commit or rollback. *)
Lemma end_tx_spec p t e s :
  is_call p → sticky (task_ctx p) → app_ok p t e s →
  ∃ r s', end_tx (task_ctx p) t (task_writable p) e s = (Return r, s') ∧
    held_lock s' = held_lock s ∧ others_view t s s' ∧ task_spec p (data s) r (data s') ∧
    (data s' = data s ∨ task_writable p = true).
Proof.
  intros Hc Hst Happ. unfold end_tx.
  assert (HR : ∀ s, ∃ s', rollbackTX t s = (Return (), s') ∧ restored s s' ∧ others_view t s s').
  { intros s0. destruct (rollbackTX_spec t s0) as (s1 & E & Hr & _). exists s1.
    split_and!; [done|done|]. assert (HK : keeps (others_view t) (rollbackTX t)).
    { apply keeps_bind; [apply _| |intros; apply keeps_ret, _]. apply keeps_bolt.
      intros d t' Ht. by apply frame_Rollback. }
    specialize (HK s0). by rewrite E in HK. }
  assert (HE : e ≠ ENil ∨ task_writable p = false → task_spec p (data s) e (data s)).
  { intros Hne. destruct p as [ctx name c|ctx name q|ctx pr|ctx i|]; [| | | |done].
    - destruct Hne as [Hne|?]; [|done]. apply ts_failed; [done|].
      destruct Happ as [(it & H & _)|[_ H]]; eauto.
    - apply ts_read. left. by destruct Happ.
    - destruct Hne as [Hne|?]; [|done]. apply ts_undone; [done|].
      destruct Happ as (v & σ' & _ & _ & H). eauto.
    - apply ts_inquired. left. by destruct Happ. }
  destruct (negb (task_writable p) || negb (is_nil e)) eqn:Eb.
  - destruct (HR s) as (s1 & E & [Hd Hl] & Ho). rewrite (bind_Return _ _ _ _ _ E).
    exists e, s1. split_and!; [done|done|done| |by left]. rewrite Hd. apply HE.
    apply orb_true_iff in Eb as [Eb|Eb]; apply negb_true_iff in Eb; [by right|left].
    by apply is_nil_false.
  - apply orb_false_iff in Eb as [Ew En]. apply negb_false_iff in Ew, En.
    apply is_nil_true in En as ->. rewrite (bind_Return _ _ _ _ _ (ctx_Err_run _ s)).
    set (s1 := mkSt (back s) (tick (world s))).
    assert (HF : ∀ c s', c ≠ ENil → data s' = data s →
      task_spec p (data s) (if is_nil c then ENil else WrapError ErrCommitFailed c) (data s')).
    { intros c s' Hn ->. apply is_nil_false in Hn. rewrite Hn.
      apply task_spec_fails; [done|done|apply commit_failed_database]. }
    destruct (is_nil (Err _ (tick (world s)))) eqn:Ee; cbn [negb].
    + assert (HC : ∃ v, view_of t s = Some (true, v) ∧ task_spec p (data s) ENil v).
      { destruct p as [ctx name c| |ctx pr| |]; try done.
        - destruct Happ as [(it & H & Hv)|[Hv H]]; eexists; (split; [exact Hv|]); by constructor.
        - destruct Happ as (v & σ' & Hv & Hσ & H). exists v. split; [done|]. by eapply ts_transacted. }
      destruct HC as (v & Hv & Hsp). pose proof (spec_Commit (db (back s1)) t v Hv) as HC.
      pose proof (frame_Commit t (db (back s1))) as HF'. unfold bolt, lib, mbind, M_bind.
      destruct (tx_Commit t (db (back s1))) as [c' d'] eqn:EC. eexists _, _.
      split_and!; [done|done|exact HF'| |by right].
      destruct (is_nil c') eqn:En'; [by rewrite <-HC in Hsp|].
      pose proof (HF c' (mkSt (mkStore _ d' (lock (back s))) (world s))) as HX.
      rewrite En' in HX. apply HX; [by apply is_nil_false|exact HC].
    + rewrite bind_assoc, (bind_Return _ _ _ _ _ (ctx_Err_run _ s1)).
      set (s2 := mkSt (back s1) (tick (world s1))).
      destruct (HR s2) as (s3 & E & [Hd Hl] & Ho). rewrite bind_assoc, (bind_Return _ _ _ _ _ E).
      eexists _, s3. split_and!; [done|done|exact Ho| |by left].
      apply HF; [|exact Hd]. apply (Hst (tick (world s))). by apply is_nil_false.
Qed.

Lemma step_finish p t e s ph' s' :
  sticky (task_ctx p) → thread_ok p (Ph_finish t e) s →
  thread_step cfg fuel p (Ph_finish t e) s = (Return ph', s') →
  step_ok p (Ph_finish t e) ph' s s'.
Proof.
  intros Hst Happ E. cbn [thread_step thread_ok] in *.
  assert (Hc : is_call p) by (by destruct p).
  destruct (end_tx_spec p t e s Hc Hst Happ) as (r & s1 & E1 & Hl & Ho & Hsp & Hd).
  rewrite (bind_Return _ _ _ _ _ E1) in E. injection E as <- <-.
  split; try done; [by left| |]; cbn.
  - right. exists r. split_and!; try done. destruct Hd; auto.
  - intros t' x Ht' <-. apply Ho. congruence.
Qed.

Lemma step_unlock p r s o ph' s' :
  lock_held (task_writable p) o (held_lock s) →
  thread_step cfg fuel p (Ph_unlock r) s = (Return ph', s') →
  step_ok p (Ph_unlock r) ph' s s'.
Proof.
  intros Hh E. cbn [thread_step] in E.
  rewrite (bind_Return _ _ _ _ _ (bbolt_unlock_spec _ s o Hh)) in E. injection E as <- <-.
  apply step_ok_lock; try done; [by right; right|by left].
Qed.

Lemma thread_step_ok p ph s ph' s' :
  sticky (task_ctx p) → thread_ok p ph s →
  (holds ph = true → ∃ o, lock_held (task_writable p) o (held_lock s)) →
  thread_step cfg fuel p ph s = (Return ph', s') → step_ok p ph ph' s s'.
Proof.
  intros Hst Hok Hh E. destruct ph as [| |t|t w c|t r q|t ws pr|t rs i|t e|r|r|h].
  - by apply step_lock.
  - by apply step_begin.
  - by apply step_open.
  - destruct p; try done. by apply step_write.
  - destruct p; try done. by apply step_read.
  - destruct p; try done. by apply step_transact.
  - destruct p; try done. by apply step_inquire.
  - by apply step_finish.
  - destruct (Hh eq_refl) as [o Ho]. by eapply step_unlock.
  - injection E as <- <-. by apply step_ok_lock; try done; left.
  - done.
Qed.

(** Not coming back from the lock: with the lock or without it. *)
Lemma lock_blocked p s s' :
  sticky (task_ctx p) → thread_step cfg fuel p Ph_lock s = (Blocked, s') →
  step_ok p Ph_lock (Ph_stuck (bool_decide (held_lock s' ≠ held_lock s))) s s'.
Proof.
  intros Hst E. cbn [thread_step] in E.
  assert (HB : db (back s') = db (back s) ∧
    (lock_held (task_writable p) (held_lock s) (held_lock s') ∨ held_lock s' = held_lock s)).
  { destruct p as [ctx name c|ctx name q|ctx pr|ctx i|w] eqn:Ep.
    5: { cbn in E. unfold Lock, RLock, on_mux, mbind, M_bind in E. destruct w; cbn in E;
      [destruct (mux_Lock (lock (back s)))|destruct (mux_RLock (lock (back s)))]; try done;
      injection E as <-; auto. }
    all: rewrite <-Ep in *; assert (Hc : is_call p) by (by subst p);
      rewrite (lock_phase_call p s Hc) in E;
      assert (Hst' : sticky (lock_input p s)) by (by apply WithTimeout_sticky);
      clear Ep; destruct (acquire_cases no_interference (task_writable p) _ s Hst')
        as [(m & s1 & E1 & _)|[(e & s1 & E1 & _)|(s1 & E1 & Hdb & Hl)]];
      unfold mbind, M_bind in E; rewrite E1 in E; cbn in E; by simplify_eq. }
  destruct HB as [Hdb Hl]. apply step_ok_lock; try done; [|by left]. cbn.
  case_bool_decide as Hn; [right; left|left].
  - destruct Hl as [Hl|Hl]; [done|]. by destruct Hn.
  - destruct (decide (held_lock s' = held_lock s)) as [E'|E']; [done|by destruct Hn].
Qed.
End steps.
