(* ===== verification/BboltSerial.v ===== *)
(** Goroutines on one bbolt store, interleaved phase by phase: the store is strictly
    serialisable. *)
From S2P Require Import Prelude Errors Keys Go Store Lock Timeout Shelf Client Bbolt BboltSpec.
From S2P Require Import BboltFacts BboltTx Interleave BboltConc BboltSteps.

Section interleaving.
Context `{BC : BoltConcSpec} {Logger W : Type} `{!Env W, !Scheduler W, !CallScheduler W}.
Context (cfg : Config Logger) (fuel : nat) (tasks : list (task (W := W))).
Hypothesis no_interference : undisturbed W.
Hypothesis forward : clock_forward (W := W).
Implicit Types (s : St store W) (p : task (W := W)) (ph : phase (W := W)).
Abbreviation conc := (conc store W (phase (W := W))).
Abbreviation conc_step := (conc_step (thread_step cfg fuel) stuck tasks).
Abbreviation conc_init := (conc_init tasks Ph_lock).
Abbreviation serial := (serial tasks task_spec).
Abbreviation thread_ok := (thread_ok fuel).
Abbreviation step_ok := (step_ok fuel).

(** ** The invariant of the store *)

(** The number of goroutines that hold the lock. *)
Fixpoint holders (l : list (phase (W := W))) : nat :=
  match l with
  | [] => 0
  | ph :: l' => Nat.b2n (holds ph) + holders l'
  end.

Lemma holders_insert l i ph ph' :
  l !! i = Some ph →
  holders (<[i := ph']> l) + Nat.b2n (holds ph) =
  holders l + Nat.b2n (holds ph').
Proof.
  revert i. induction l as [|x l IH]; intros [|i] E; try done; cbn in *.
  - injection E as ->. lia.
  - rewrite <-!Nat.add_assoc. f_equal. by apply IH.
Qed.

Lemma holders_zero l i ph : holders l = 0 → l !! i = Some ph → holds ph = false.
Proof.
  intros H0 E. pose proof (holders_insert l i ph ph E) as HI.
  rewrite H0 in HI. pose proof (holders_insert l i ph Ph_lock E) as HI2. cbn in HI2.
  rewrite H0 in HI2. destruct (holds ph); [cbn in HI2; lia|done].
Qed.

Lemma holders_one l i j ph ph' :
  holders l = 1 → l !! i = Some ph → holds ph = true → l !! j = Some ph' → j ≠ i →
  holds ph' = false.
Proof.
  intros H1 Ei Hh Ej Hne. pose proof (holders_insert l i ph Ph_lock Ei) as HI.
  rewrite Hh in HI. cbn in HI. apply (holders_zero (<[i := Ph_lock]> l) j); [lia|].
  by rewrite list_lookup_insert_ne.
Qed.

Lemma not_holding_ok p ph s : holds ph = false → thread_ok p ph s.
Proof. by destruct ph. Qed.

(** The lock is held as the goroutines' phases say, by one writer or by readers; each
    goroutine's invariant holds; no two have the same transaction; and the committed data
    is what the finished tasks make of [d0] when they run one after the other in the order
    of [l]. *)
Record inv (d0 : shelves) (c : conc) (l : list (nat * error)) : Prop := {
  inv_len : length (phases c) = length tasks;
  inv_count : holders (phases c) =
    if writer (held_lock (shared c)) then 1 else readers (held_lock (shared c));
  inv_writer : writer (held_lock (shared c)) = true → readers (held_lock (shared c)) = 0;
  inv_kind : ∀ i p ph, tasks !! i = Some p → phases c !! i = Some ph → holds ph = true →
    task_writable p = writer (held_lock (shared c));
  inv_ok : ∀ i p ph, tasks !! i = Some p → phases c !! i = Some ph → thread_ok p ph (shared c);
  inv_tx : ∀ i j ph ph' t, phases c !! i = Some ph → phases c !! j = Some ph' →
    phase_tx ph = Some t → phase_tx ph' = Some t → i = j;
  inv_serial : serial d0 l (data (shared c));
  inv_log : ∀ i e, (i, e) ∈ l ↔ ∃ ph, phases c !! i = Some ph ∧ finished ph = Some e;
  inv_nodup : NoDup l.*1
}.

(** *** Preservation *)

Section step.
Context (d0 : shelves) (c : conc) (l : list (nat * error)) (HI : inv d0 c l).
Context (i : nat) (p : task (W := W)) (ph ph' : phase (W := W)) (s' : St store W).
Context (Hp : tasks !! i = Some p) (Hph : phases c !! i = Some ph)
  (HS : step_ok p ph ph' (shared c) s').
Abbreviation c' := (mkConc s' (<[i := ph']> (phases c))).

Lemma lookup_self : phases c' !! i = Some ph'.
Proof. apply list_lookup_insert_eq. by eapply lookup_lt_Some. Qed.
Lemma lookup_other j : j ≠ i → phases c' !! j = phases c !! j.
Proof. intros Hj. by apply list_lookup_insert_ne. Qed.

(** The lock after the step. *)
Lemma step_lock_state :
  (holders (phases c') = if writer (held_lock s') then 1 else readers (held_lock s')) ∧
  (writer (held_lock s') = true → readers (held_lock s') = 0) ∧
  (holds ph' = true → task_writable p = writer (held_lock s')) ∧
  (∀ j q x, j ≠ i → tasks !! j = Some q → phases c !! j = Some x → holds x = true →
     task_writable q = writer (held_lock s')).
Proof.
  pose proof (holders_insert (phases c) i ph ph' Hph) as HH. cbn [phases].
  generalize dependent (holders (<[i := ph']> (phases c))). intros n HH.
  pose proof (inv_count _ _ _ HI) as Hc. pose proof (inv_writer _ _ _ HI) as Hw.
  pose proof (inv_kind _ _ _ HI) as Hk.
  destruct (so_lock _ _ _ _ _ _ HS) as [[Eh El]|[(E1 & E2 & Hl)|(E1 & E2 & Hl)]].
  - rewrite Eh, El in *. split; [lia|]. split_and!; eauto.
  - rewrite E1, E2 in HH. cbn in HH. unfold lock_held in Hl.
    destruct (task_writable p); destruct Hl as [H1 H2]; rewrite H2; rewrite H1 in *; cbn in *.
    + split; [lia|]. split_and!; [done|done|]. intros j q x Hj Hq Hx Hhx.
      rewrite (holders_zero (phases c) j x) in Hhx; [done|lia|done].
    + split; [lia|]. split_and!; [done|done|eauto].
  - rewrite E1, E2 in HH. cbn in HH. unfold lock_held in Hl.
    destruct (task_writable p); destruct Hl as [H1 H2]; rewrite H2 in *; rewrite H1; cbn in *.
    + split; [lia|]. split_and!; [done|by rewrite E2|]. intros j q x Hj Hq Hx Hhx.
      rewrite (holders_one (phases c) i j ph x) in Hhx; done.
    + split; [lia|]. split_and!; [done|by rewrite E2|eauto].
Qed.

(** The other goroutines' invariants. *)
Lemma step_others j q x :
  j ≠ i → tasks !! j = Some q → phases c !! j = Some x → thread_ok q x s'.
Proof.
  intros Hj Hq Hx. pose proof (inv_ok _ _ _ HI j q x Hq Hx) as Hok.
  assert (Hd : data s' = data (shared c) ∨ (holds ph = true ∧ task_writable p = true))
    by (destruct (so_log _ _ _ _ _ _ HS) as [[_ ?]|(e & _ & _ & _ & ?)]; auto).
  destruct Hd as [Hd|[Hh Hw]].
  - apply (thread_ok_frame fuel q x (shared c)); [done| |done]. intros t Ht.
    destruct (thread_ok_open fuel q x (shared c) t Hok Ht) as [v Hv]. rewrite Hv.
    apply (so_frame _ _ _ _ _ _ HS); [|done]. intros Ht'.
    destruct Hj. by eapply (inv_tx _ _ _ HI j i).
  - apply not_holding_ok. apply (holders_one (phases c) i j ph x); try done.
    rewrite (inv_count _ _ _ HI), <-(inv_kind _ _ _ HI i p ph), Hw; done.
Qed.

(** The transactions. *)
Lemma step_tx j x t :
  j ≠ i → phases c !! j = Some x → phase_tx x = Some t → phase_tx ph' = Some t → False.
Proof.
  intros Hj Hx Hxt Ht. assert (is_Some (tasks !! j)) as [q Hq].
  { apply lookup_lt_is_Some. rewrite <-(inv_len _ _ _ HI). by eapply lookup_lt_Some. }
  destruct (so_new _ _ _ _ _ _ HS t Ht) as [Ht'|Hn].
  - destruct Hj. by eapply (inv_tx _ _ _ HI j i).
  - destruct (thread_ok_open fuel q x (shared c) t) as [v Hv]; [by eapply inv_ok|done|]. congruence.
Qed.

(** The tasks that finish. *)
Lemma step_logged :
  ∃ l', serial d0 (l ++ l') (data s') ∧ NoDup (l ++ l').*1 ∧
    ∀ j e, (j, e) ∈ l ++ l' ↔ ∃ x, phases c' !! j = Some x ∧ finished x = Some e.
Proof.
  assert (HL : ∀ j e, j ≠ i → (j, e) ∈ l ↔ ∃ x, phases c' !! j = Some x ∧ finished x = Some e).
  { intros j e Hj. rewrite (inv_log _ _ _ HI), lookup_other; done. }
  assert (HLi : ∀ e, (i, e) ∈ l ↔ finished ph = Some e).
  { intros e. rewrite (inv_log _ _ _ HI), Hph. naive_solver. }
  destruct (so_log _ _ _ _ _ _ HS) as [[Ef Hd]|(e & E1 & E2 & Hsp & _)].
  - exists []. rewrite app_nil_r. split_and!; [rewrite Hd; apply HI|apply HI|].
    intros j e. destruct (decide (j = i)) as [->|Hj]; [|by apply HL].
    rewrite HLi, lookup_self, <-Ef. naive_solver.
  - exists [(i, e)]. split_and!.
    + econstructor; [apply HI|done|done].
    + rewrite fmap_app. apply NoDup_app. split_and!; [apply HI| |apply NoDup_singleton].
      intros j Hj Hj'. apply list_elem_of_fmap in Hj as ([j1 e1] & Ej & Hin).
      apply list_elem_of_singleton in Hj'. cbn in Ej, Hj'. subst j j1.
      apply HLi in Hin. congruence.
    + intros j e'. rewrite elem_of_app, list_elem_of_singleton.
      destruct (decide (j = i)) as [->|Hj].
      * rewrite HLi, lookup_self, E1. naive_solver.
      * rewrite HL by done. naive_solver.
Qed.

Lemma inv_thread : ∃ l', inv d0 c' (l ++ l').
Proof.
  destruct step_logged as (l' & H1 & H2 & H3). exists l'.
  destruct step_lock_state as (L1 & L2 & L3 & L4). split; try done; cbn [shared] in *.
  - cbn. rewrite length_insert. apply HI.
  - intros j q x Hq Hx. destruct (decide (j = i)) as [->|Hj].
    + rewrite lookup_self in Hx. injection Hx as <-. rewrite Hp in Hq. injection Hq as <-. done.
    + rewrite lookup_other in Hx by done. by eapply L4.
  - intros j q x Hq Hx. destruct (decide (j = i)) as [->|Hj].
    + rewrite lookup_self in Hx. injection Hx as <-. rewrite Hp in Hq. injection Hq as <-.
      apply HS.
    + rewrite lookup_other in Hx by done. by eapply step_others.
  - intros j k x y t Hx Hy Hxt Hyt.
    destruct (decide (j = i)) as [->|Hj], (decide (k = i)) as [->|Hk]; try done.
    + rewrite lookup_self in Hx. rewrite lookup_other in Hy by done. injection Hx as <-.
      destruct (step_tx k y t); done.
    + rewrite lookup_self in Hy. rewrite lookup_other in Hx by done. injection Hy as <-.
      destruct (step_tx j x t); done.
    + rewrite lookup_other in Hx, Hy by done. by eapply (inv_tx _ _ _ HI).
Qed.
End step.

Hypothesis tasks_sticky : Forall (λ p, sticky (task_ctx p)) tasks.

Lemma inv_step d0 c c1 l : inv d0 c l → conc_step c c1 → ∃ l', inv d0 c1 (l ++ l').
Proof.
  intros HI Hstep. rewrite Forall_lookup in tasks_sticky.
  destruct Hstep as [i p ph ph' s' Hp Hph E|i p ph ph' s' Hp Hph E Es|].
  - eapply inv_thread; [done..|]. apply (thread_step_ok cfg fuel no_interference forward); [by eapply tasks_sticky|by eapply inv_ok| |done].
    intros Hh. pose proof (inv_kind _ _ _ HI i p ph Hp Hph Hh) as Hk.
    pose proof (inv_count _ _ _ HI) as Hc. pose proof (inv_writer _ _ _ HI) as Hw.
    destruct (held_lock (shared c)) as [w n]. cbn in *. rewrite Hk. destruct w; cbn.
    + exists unlocked. split; [done|]. by rewrite Hw.
    + destruct n as [|n]; [|by exists (mkRWMutex false n)].
      by rewrite (holders_zero (phases c) i ph) in Hh.
  - destruct ph; try done. injection Es as <-.
    eapply inv_thread; [done..|]. by eapply (lock_blocked cfg fuel no_interference forward), E; eapply tasks_sticky.
  - exists []. rewrite app_nil_r. destruct HI. by split.
Qed.

Lemma inv_steps d0 c c1 l : inv d0 c l → rtc conc_step c c1 → ∃ l', inv d0 c1 (l ++ l').
Proof.
  intros HI Hs. revert l HI. induction Hs as [c|c c1 c2 H1 _ IH]; intros l HI.
  - exists []. by rewrite app_nil_r.
  - destruct (inv_step _ _ _ _ HI H1) as [l1 HI1]. destruct (IH _ HI1) as [l2 HI2].
    exists (l1 ++ l2). by rewrite app_assoc.
Qed.

Lemma conc_inv_init s : held_lock s = unlocked → inv (data s) (conc_init s) [].
Proof.
  intros Hl. pose proof (conc_init_lookup tasks (Ph_lock (W := W)) s) as HP.
  unfold Interleave.conc_init in *. split; cbn [shared phases] in *; rewrite ?Hl; try done.
  - apply length_replicate.
  - cbn. clear. by induction (length tasks).
  - by intros i p ph _ ->%HP.
  - by intros i p ph _ ->%HP.
  - by intros i j ph ph' t ->%HP ->%HP.
  - constructor.
  - intros i e. split; [by intros ?%not_elem_of_nil|]. by intros (ph & ->%HP & ?).
  - constructor.
Qed.

(** C4: mutual exclusion, as an invariant of every interleaving of calls on one store:
    while a writer is between taking and releasing the lock nobody else is, readers may be
    there together, and the lock says who is; no two transactions are confused. *)
Theorem bbolt_exclusion s c
    (Hl : held_lock s = unlocked) (Hs : rtc conc_step (conc_init s) c) :
  (∀ i j p q ph ph', i ≠ j → tasks !! i = Some p → tasks !! j = Some q →
     phases c !! i = Some ph → phases c !! j = Some ph' → holds ph = true → holds ph' = true →
     task_writable p = false ∧ task_writable q = false ∧
     (∀ t, phase_tx ph = Some t → phase_tx ph' ≠ Some t)) ∧
  (held_lock (shared c) = mkRWMutex true 0 ∧ holders (phases c) = 1 ∨
   held_lock (shared c) = mkRWMutex false (holders (phases c))).
Proof.
  destruct (inv_steps _ _ _ _ (conc_inv_init s Hl) Hs) as [l HI].
  pose proof (inv_count _ _ _ HI) as Hc. pose proof (inv_writer _ _ _ HI) as Hw. split.
  - intros i j p q ph ph' Hij Hp Hq Hi Hj H1 H2.
    rewrite (inv_kind _ _ _ HI i p ph Hp Hi H1), (inv_kind _ _ _ HI j q ph' Hq Hj H2).
    destruct (writer (held_lock (shared c))).
    + rewrite (holders_one (phases c) i j ph ph') in H2; done.
    + split_and!; [done|done|]. intros t Ht Ht'. by destruct Hij, (inv_tx _ _ _ HI i j ph ph' t).
  - destruct (held_lock (shared c)) as [[] n]; cbn in *; [left|right].
    + by rewrite Hw.
    + by rewrite Hc.
Qed.

(** C3: strict serialisability. In every interleaving of calls of [Write], [Read],
    [WriteShelf] and [ReadShelf], with any client programs, the committed data is what the calls
    that have come to their result make of the initial data when they run one after the other,
    each with exactly the result it has: a call that has returned is in that order, a call in it
    is at its end, and what happens later only comes after what has returned before. What
    [Empty] answers on a shelf that its own transaction has changed is left open. *)
Theorem bbolt_serializable s c1 c2
    (Hl : held_lock s = unlocked)
    (H1 : rtc conc_step (conc_init s) c1) (H2 : rtc conc_step c1 c2) :
  ∃ l1 l2, NoDup (l1 ++ l2).*1 ∧
    (serial (data s) l1 (data (shared c1)) ∧
     ∀ i e, (i, e) ∈ l1 ↔ ∃ ph, phases c1 !! i = Some ph ∧ finished ph = Some e) ∧
    (serial (data s) (l1 ++ l2) (data (shared c2)) ∧
     ∀ i e, (i, e) ∈ l1 ++ l2 ↔ ∃ ph, phases c2 !! i = Some ph ∧ finished ph = Some e).
Proof.
  destruct (inv_steps _ _ _ _ (conc_inv_init s Hl) H1) as [l1 HI1].
  destruct (inv_steps _ _ _ _ HI1 H2) as [l2 HI2]. exists l1, l2.
  split_and!; [apply HI2|apply HI1|apply HI1|apply HI2|apply HI2].
Qed.
End interleaving.
