(* ===== verification/BboltConcExamples.v ===== *)
(** Interleaved calls on one bbolt store at concrete inputs: two increments of a counter,
    a reader, and a writer and a reader of two shelves. *)
From S2P Require Import Prelude Errors Keys Go Store Lock Timeout Shelf Client Program Bbolt.
From S2P Require Import BboltSpec BboltFacts BboltTx BboltExamples Interleave BboltConc.
From S2P Require Import BboltSteps BboltSerial.
Import BoltMem.

#[local] Instance still : Env () := λ w, w.
#[local] Instance uncontended : Scheduler () :=
  λ _, [Ch_locker; Ch_locker; Ch_locker; Ch_rendezvous; Ch_locker].
#[local] Instance prompt : CallScheduler () := λ _, [K_worker; K_rendezvous].

(** Reads a counter in unary notation and writes it back with one stroke more. *)
Definition counter : Key := key 7.
Definition increment : client :=
  c_get counter (λ r, c_put counter (default [] r.1 ++ #"|") c_return).
Definition read_counter : query :=
  q_get counter (λ r, q_return (errorfText (default #"none" r.1))).

(** Copies the counter to another shelf, and compares the two. *)
Definition copy_counter : program :=
  p_get #"s" counter (λ r, p_put #"t" counter (default [] r.1) p_return).
Definition compare_counters : inquiry :=
  i_get #"s" counter (λ r, i_get #"t" counter (λ r',
    i_return (errorfText (default #"none" r.1 ++ #"," ++ default #"none" r'.1)))).

Definition tasks : list (task (W := ())) :=
  [T_write Background #"s" increment; T_write Background #"s" increment;
   T_read Background #"s" read_counter; T_transact Background copy_counter;
   T_inquire Background compare_counters].

Abbreviation conc := (conc store () (phase (W := ()))).
Abbreviation step := (thread_step config 0).
Abbreviation init := (conc_init tasks Ph_lock start).
Definition run (sched : list nat) : conc := conc_run step stuck tasks sched init.

(** The first writer begins; the second and the reader come in between, and have to wait:
    they are stuck for this scheduler, which does not let them try again. *)
Definition overlapping : list nat := [0; 0; 0; 1; 2; 0; 0; 0; 0; 0].
(** One writer after the other, and the two readers, together, in between. *)
Definition alternating : list nat :=
  replicate 8 1 ++ replicate 10 3 ++
  [2; 4; 2; 4; 2; 4; 4; 4; 2; 4; 2; 4; 4; 2; 4; 2; 4] ++ replicate 9 0.

Definition counter_value (c : conc) : option bytes :=
  items_lookup (Bytes counter) (default [] (data (shared c) !! #"s")).
Definition results (c : conc) : list (option error) := finished <$> phases c.

Example bbolt_interleavings :
  counter_value (run overlapping) = Some #"|" ∧
  results (run overlapping) = [Some ENil; None; None; None; None] ∧
  counter_value (run alternating) = Some #"||" ∧
  results (run alternating) =
    [Some ENil; Some ENil; Some (errorfText #"|"); Some ENil; Some (errorfText #"|,|")].
Proof. vm_compute. repeat split. Qed.

Lemma tasks_are_sticky : Forall (λ p, sticky (task_ctx p)) tasks.
Proof. repeat constructor; exact bbolt_background_sticky. Qed.

Lemma bbolt_exclusion_witness :
  rtc (conc_step step stuck tasks) init (run overlapping) ∧
  ((∀ i j p q ph ph', i ≠ j → tasks !! i = Some p → tasks !! j = Some q →
     phases (run overlapping) !! i = Some ph → phases (run overlapping) !! j = Some ph' →
     holds ph = true → holds ph' = true →
     task_writable p = false ∧ task_writable q = false ∧
     (∀ t, phase_tx ph = Some t → phase_tx ph' ≠ Some t)) ∧
   (held_lock (shared (run overlapping)) = mkRWMutex true 0 ∧
      holders (phases (run overlapping)) = 1 ∨
    held_lock (shared (run overlapping)) =
      mkRWMutex false (holders (phases (run overlapping))))).
Proof.
  split; [apply conc_run_steps|].
  exact (bbolt_exclusion config 0 tasks no_others bbolt_forward tasks_are_sticky start
    (run overlapping) eq_refl (conc_run_steps step stuck tasks overlapping init)).
Defined.

Lemma bbolt_serializable_witness :
  let c1 := run (take 14 alternating) in
  let c2 := conc_run step stuck tasks (drop 14 alternating) c1 in
  ∃ l1 l2, NoDup (l1 ++ l2).*1 ∧
    (serial tasks task_spec (data start) l1 (data (shared c1)) ∧
     ∀ i e, (i, e) ∈ l1 ↔ ∃ ph, phases c1 !! i = Some ph ∧ finished ph = Some e) ∧
    (serial tasks task_spec (data start) (l1 ++ l2) (data (shared c2)) ∧
     ∀ i e, (i, e) ∈ l1 ++ l2 ↔ ∃ ph, phases c2 !! i = Some ph ∧ finished ph = Some e).
Proof.
  intros c1 c2.
  exact (bbolt_serializable config 0 tasks no_others bbolt_forward tasks_are_sticky start c1 c2
    eq_refl (conc_run_steps step stuck tasks (take 14 alternating) init)
    (conc_run_steps step stuck tasks (drop 14 alternating) c1)).
Defined.
