(* ===== verification/Badger.v ===== *)
(** badger/badger.go: the store backed by a Badger database. The Badger library is a
    parameter, [BadgerLib]; what the store relies on of it is [BadgerSpec]. *)
From S2P Require Import Prelude Errors Keys Go Store Lock Timeout.

(** ** The library *)

(** [badger.TableInfo], the fields the store reads. *)
Record TableInfo := mkTableInfo {
  Left : bytes;
  Right : bytes;
  OnDiskSize : N;
  KeyCount : N
}.

(** The Badger calls the store makes, as functions of the state [DB] of the library: the
    files and the transactions and iterators open on them. Transactions, iterators and
    items are handles. A result [None] is a panic: Badger panics when a transaction is
    ended under an open iterator, or an iterator is opened on an ended transaction or
    closed database.
    [item_Key] is read in the state it is used in: the slice Badger hands out belongs to
    the item, and the item to the iterator, which may use it again. *)
Class BadgerLib := {
  DB : Type;
  Txn : Type;
  Iterator : Type;
  Item : Type;
  badger_ErrKeyNotFound : error;
  db_NewTransaction : bool → DB → Txn * DB;
  db_Close : DB → error * DB;
  db_Tables : DB → list TableInfo;
  txn_Get : Txn → bytes → DB → (Item * error) * DB;
  txn_Set : Txn → bytes → bytes → DB → error * DB;
  txn_Delete : Txn → bytes → DB → error * DB;
  txn_NewIterator : Txn → DB → option Iterator * DB;
  txn_Discard : Txn → DB → option () * DB;
  txn_Commit : Txn → DB → option error * DB;
  it_Seek : Iterator → bytes → DB → () * DB;
  it_ValidForPrefix : Iterator → bytes → DB → bool;
  it_Item : Iterator → DB → Item;
  it_Next : Iterator → DB → () * DB;
  it_Close : Iterator → DB → () * DB;
  item_Key : Item → DB → bytes;
  item_Value : Item → DB → bytes * error;
  item_ValueCopy : Item → DB → option bytes * error
}.

(** The mutable fields of a [tx] object: the iterators it has opened and its mutex. *)
Record tx_object `{BadgerLib} := mkTxObject { iterators : list Iterator; mutex : RWMutex }.

(** [store]: the database, and the [tx] objects allocated so far. [log] does not change. *)
Record store `{BadgerLib} := mkStore { db : DB; txs : list tx_object }.

Section badger.
Context `{BL : BadgerLib} {W : Type} `{!Env W, !CallScheduler W}.
(** The bound on the turns of an iterator loop. *)
Context (fuel : nat).
Abbreviation M := (M store W).

(** A call into Badger, one that only reads, and one that may panic. *)
Definition badger {A} (f : DB → A * DB) : M A :=
  lib (λ s, let '(a, d) := f (db s) in (a, mkStore _ d (txs s))).
Definition badger_read {A} (f : DB → A) : M A := badger (λ d, (f d, d)).
Definition badger_must {A} (f : DB → option A * DB) : M A := o ← badger f; must o.

(** *** tx *)

(** A pointer to a [tx]: its two constant fields and the address of the mutable ones. *)
Record tx := mkTx { tx_ctx : Context W; badgerTx : Txn; address : nat }.

Definition get_tx (b : tx) : M tx_object :=
  s ← get_back; must (txs s !! address b).
Definition put_tx (b : tx) (o : tx_object) : M () :=
  s ← get_back; put_back (mkStore _ (db s) (<[address b := o]> (txs s))).

(** An operation of [b.mutex]; one that is not possible now blocks, or ([Unlock] of an
    unlocked mutex) kills the program. *)
Definition on_mutex (b : tx) (f : RWMutex → option RWMutex) (fail : M ()) : M () :=
  o ← get_tx b;
  match f (mutex o) with
  | Some m => put_tx b (mkTxObject _ (iterators o) m)
  | None => fail
  end.
Definition mutex_Lock (b : tx) : M () := on_mutex b mux_Lock block.
Definition mutex_Unlock (b : tx) : M () := on_mutex b mux_Unlock panic.
Definition mutex_RLock (b : tx) : M () := on_mutex b mux_RLock block.
Definition mutex_RUnlock (b : tx) : M () := on_mutex b mux_RUnlock panic.

Definition newIterator (b : tx) : M Iterator :=
  _ ← mutex_Lock b;
  defer (mutex_Unlock b)
    (iterator ← badger_must (txn_NewIterator (badgerTx b));
     o ← get_tx b;
     _ ← put_tx b (mkTxObject _ (iterators o ++ [iterator]) (mutex o));
     mret iterator).

(** [for _, it := range b.iterators { it.Close() }]. *)
Fixpoint close_iterators (its : list Iterator) : M () :=
  match its with
  | [] => mret ()
  | it :: its' => _ ← badger (it_Close it); close_iterators its'
  end.

Definition rollback (b : tx) : M () :=
  _ ← mutex_Lock b;
  defer (mutex_Unlock b)
    (o ← get_tx b;
     _ ← close_iterators (iterators o);
     badger_must (txn_Discard (badgerTx b))).

Definition commit (b : tx) : M error :=
  _ ← mutex_Lock b;
  defer (mutex_Unlock b)
    (o ← get_tx b;
     _ ← close_iterators (iterators o);
     badger_must (txn_Commit (badgerTx b))).

Definition tx_Unwrap (b : tx) : Txn := badgerTx b.

(** *** badgerShelf *)

(** [badgerShelf]: the context [ctx] is the transaction's in every shelf the code makes,
    and kept apart as in the code. *)
Record badgerShelf := mkShelf { shelf_ctx : Context W; name : bytes; shelf_tx : tx }.

Definition badgerShelf_key (t : badgerShelf) (key : Key) : Key :=
  BytesKey (name t ++ Bytes key).

Definition badgerShelf_Empty (t : badgerShelf) : M (bool * error) :=
  it ← newIterator (shelf_tx t);
  _ ← mutex_RLock (shelf_tx t);
  defer (mutex_RUnlock (shelf_tx t))
    (let prefix := name t in
     _ ← badger (it_Seek it prefix);
     valid ← badger_read (it_ValidForPrefix it prefix);
     mret (negb valid, ENil)).

Definition badgerShelf_Get (t : badgerShelf) (key : Key) : M (option bytes * error) :=
  r ← badger (txn_Get (badgerTx (shelf_tx t)) (Bytes (badgerShelf_key t key)));
  let '(item, err) := r in
  if negb (is_nil err) then
    if errors_Is err badger_ErrKeyNotFound then mret (None, ErrKeyNotFound)
    else mret (None, err)
  else badger_read (item_ValueCopy item).

Definition badgerShelf_Put (t : badgerShelf) (key : Key) (value : bytes) : M error :=
  badger (txn_Set (badgerTx (shelf_tx t)) (Bytes (badgerShelf_key t key)) value).

Definition badgerShelf_Delete (t : badgerShelf) (key : Key) : M error :=
  badger (txn_Delete (badgerTx (shelf_tx t)) (Bytes (badgerShelf_key t key))).

(** The sums are of Go's 64-bit [uint]. *)
Definition uint_add (a b : N) : N := ((a + b) mod 2 ^ 64)%N.
Definition badgerShelf_Stats (t : badgerShelf) : M ShelfStats :=
  tables ← badger_read db_Tables;
  let prefix := name t in
  let '(onDiskSize, keyCount) :=
    foldl (λ '(onDiskSize, keyCount) ti,
      if HasPrefix (Left ti) prefix && HasPrefix (Right ti) prefix
      then (uint_add onDiskSize (OnDiskSize ti), uint_add keyCount (KeyCount ti))
      else (onDiskSize, keyCount)) (0%N, 0%N) tables in
  mret (mkShelfStats keyCount onDiskSize).

(** [item.Value(func(v []byte) error { ... })] with the closure of both loops: parse the
    key without the shelf's prefix, then call back. *)
Definition visit_item (item : Item) (prefix k : bytes) (callback : CallerFn store W)
    (keyType : Key) : M error :=
  r ← badger_read (item_Value item);
  let '(v, err) := r in
  if negb (is_nil err) then mret err else
  let '(kt, err) := FromBytes keyType (drop (length prefix) k) in
  if negb (is_nil err) then mret err else
  kt ← must kt;
  callback kt v.

(** The end of both iterations: [if ctx.Err() != nil { return ... }; return nil]. *)
Definition ctx_result (ctx : Context W) : M error :=
  e ← ctx_Err ctx;
  if negb (is_nil e) then e ← ctx_Err ctx; mret (DatabaseError e) else mret ENil.

(** The loop of [Iterate]. *)
Fixpoint iterate_loop (fuel : nat) (t : badgerShelf) (callback : CallerFn store W)
    (keyType : Key) (it : Iterator) : M error :=
  let prefix := name t in
  valid ← badger_read (it_ValidForPrefix it prefix);
  if negb valid then ctx_result (shelf_ctx t) else
  match fuel with
  | O => out_of_fuel
  | S fuel' =>
      e ← ctx_Err (shelf_ctx t);
      if negb (is_nil e) then ctx_result (shelf_ctx t) else
      item ← badger_read (it_Item it);
      k ← badger_read (item_Key item);
      err ← visit_item item prefix k callback keyType;
      if negb (is_nil err) then mret err else
      _ ← badger (it_Next it);
      iterate_loop fuel' t callback keyType it
  end.

Definition badgerShelf_Iterate (t : badgerShelf) (callback : CallerFn store W)
    (keyType : Key) : M error :=
  it ← newIterator (shelf_tx t);
  _ ← mutex_RLock (shelf_tx t);
  defer (mutex_RUnlock (shelf_tx t))
    (_ ← badger (it_Seek it (name t));
     iterate_loop fuel t callback keyType it).

(** [prevKey]: a [BytesKey] made by [from.FromBytes(k)] is the slice [k] itself, which
    is the item's; the other types copy it. *)
Definition prev_key (prev : option (Key * Item)) (d : DB) : option Key :=
  match prev with
  | Some (BytesKey _, item) => Some (BytesKey (item_Key item d))
  | Some (key, _) => Some key
  | None => None
  end.

(** [stopAtNil && prevKey != nil && !prevKey.Next().Equals(key)]. *)
Definition gap_found (stopAtNil : bool) (prev : option (Key * Item)) (key : option Key) :
    M bool :=
  if negb stopAtNil then mret false else
  prevKey ← badger_read (prev_key prev);
  match prevKey with
  | Some prevKey => next ← must (Next prevKey); mret (negb (Equals next key))
  | None => mret false
  end.

(** The loop of [Range]. *)
Fixpoint range_loop (fuel : nat) (t : badgerShelf) (from : Key) (fin : bytes)
    (callback : CallerFn store W) (stopAtNil : bool) (it : Iterator)
    (prev : option (Key * Item)) : M error :=
  let prefix := name t in
  valid ← badger_read (it_ValidForPrefix it prefix);
  if negb valid then ctx_result (tx_ctx (shelf_tx t)) else
  item ← badger_read (it_Item it);
  k ← badger_read (item_Key item);
  if negb (bytes_ltb k fin) then ctx_result (tx_ctx (shelf_tx t)) else
  match fuel with
  | O => out_of_fuel
  | S fuel' =>
      e ← ctx_Err (tx_ctx (shelf_tx t));
      if negb (is_nil e) then ctx_result (tx_ctx (shelf_tx t)) else
      item ← badger_read (it_Item it);
      k ← badger_read (item_Key item);
      let '(key, _) := FromBytes from k in
      gap ← gap_found stopAtNil prev key;
      if (gap : bool) then mret ENil else
      err ← visit_item item prefix k callback from;
      if negb (is_nil err) then mret err else
      _ ← badger (it_Next it);
      range_loop fuel' t from fin callback stopAtNil it
        ((λ key, (key, item)) <$> key)
  end.

Definition badgerShelf_Range (t : badgerShelf) (from to : Key) (callback : CallerFn store W)
    (stopAtNil : bool) : M error :=
  it ← newIterator (shelf_tx t);
  _ ← mutex_RLock (shelf_tx t);
  defer (mutex_RUnlock (shelf_tx t))
    (let start := name t ++ Bytes from in
     let fin := name t ++ Bytes to in
     _ ← badger (it_Seek it start);
     range_loop fuel t from fin callback stopAtNil it None).

Definition as_Reader (t : badgerShelf) : Reader store W :=
  mkReader (badgerShelf_Empty t) (badgerShelf_Get t) (badgerShelf_Iterate t)
    (badgerShelf_Range t) (badgerShelf_Stats t).
Definition as_Writer (t : badgerShelf) : Writer store W :=
  mkWriter (as_Reader t) (badgerShelf_Put t) (badgerShelf_Delete t).

Definition getBucket (b : tx) (shelfName : bytes) : Reader store W :=
  as_Reader (mkShelf (tx_ctx b) shelfName b).
Definition tx_GetShelfReader (b : tx) (shelfName : bytes) : Reader store W :=
  getBucket b shelfName.
Definition tx_GetShelfWriter (b : tx) (shelfName : bytes) : Writer store W :=
  as_Writer (mkShelf (tx_ctx b) shelfName b).

Definition as_ReadTx (b : tx) : ReadTx store W :=
  mkReadTx (λ shelfName, mret (tx_GetShelfReader b shelfName)).
Definition as_WriteTx (b : tx) : WriteTx store W :=
  mkWriteTx (as_ReadTx b) (λ shelfName, mret (tx_GetShelfWriter b shelfName)).

(** *** store *)

(** [&tx{badgerTx: b.db.NewTransaction(writable), ctx: ctx, store: b}]. *)
Definition new_tx (ctx : Context W) (writable : bool) : M tx :=
  t ← badger (db_NewTransaction writable);
  s ← get_back;
  _ ← put_back (mkStore _ (db s) (txs s ++ [mkTxObject _ [] unlocked]));
  mret (mkTx ctx t (length (txs s))).

(** [doTX] after the [defer tx.rollback()]. *)
Definition run_tx (ctx : Context W) (fn : tx → M error) (writable : bool)
    (opts : list (TxOption store W)) (tx : tx) : M error :=
  appError ← fn tx;
  if negb writable then
    _ ← rollback tx;
    mret appError
  else if is_nil appError then
    e ← ctx_Err ctx;
    err ← (if negb (is_nil e) then
             err ← ctx_Err ctx;
             _ ← rollback tx;
             mret err
           else if writable then commit tx else mret ENil);
    if negb (is_nil err) then
      _ ← OnRollbackOption_Invoke opts;
      mret (WrapError ErrCommitFailed err)
    else
      _ ← AfterCommitOption_Invoke opts;
      mret ENil
  else
    _ ← rollback tx;
    _ ← OnRollbackOption_Invoke opts;
    mret appError.

Definition doTX (ctx : Context W) (fn : tx → M error) (writable : bool)
    (opts : list (TxOption store W)) : M error :=
  tx ← new_tx ctx writable;
  defer (rollback tx) (run_tx ctx fn writable opts tx).

Definition store_Close (ctx : Context W) : M error :=
  CallWithTimeout ctx (badger db_Close) (mret ()).

Definition store_Write (ctx : Context W) (fn : WriteTx store W → M error)
    (opts : list (TxOption store W)) : M error :=
  doTX ctx (λ tx, fn (as_WriteTx tx)) true opts.

Definition store_Read (ctx : Context W) (fn : ReadTx store W → M error) : M error :=
  doTX ctx (λ tx, fn (as_ReadTx tx)) false [].

Definition store_WriteShelf (ctx : Context W) (shelfName : bytes)
    (fn : Writer store W → M error) : M error :=
  doTX ctx (λ tx, fn (tx_GetShelfWriter tx shelfName)) true [].

Definition store_ReadShelf (ctx : Context W) (shelfName : bytes)
    (fn : Reader store W → M error) : M error :=
  doTX ctx (λ tx, fn (tx_GetShelfReader tx shelfName)) false [].

(** [Wrap]: the store as a [KVStore]. *)
Definition Wrap_state (d : DB) : store := mkStore _ d [].
Definition Wrap : KVStore store W :=
  mkKVStore store_Close store_Write store_Read store_WriteShelf store_ReadShelf.

(** [Store]: the store on which the transaction was started. *)
Definition tx_Store (b : tx) : KVStore store W := Wrap.
End badger.
