(* ===== verification/BadgerSpec.v ===== *)
(** What badger/badger.go relies on of the Badger library, as laws over a logical view of
    its state, and an in-memory library that satisfies them. *)
From S2P Require Import Prelude Errors Keys Go Store Lock Timeout Shelf Prefix Pending Badger.

(** What Badger knows of a transaction: whether it is writable; the pairs that were committed
    when it was made; the writes it has buffered; and the keys it has read from the
    database, which Badger tracks to detect conflicts. *)
Record txn_view := mkView {
  tv_write : bool;
  tv_base : items;
  tv_pending : list write;
  tv_reads : list bytes
}.

(** What the transaction sees: the database at its start, and its own writes. *)
Definition view_pairs (i : txn_view) : items := apply_writes (tv_pending i) (tv_base i).
Definition add_write (w : write) (i : txn_view) : txn_view :=
  mkView (tv_write i) (tv_base i) (tv_pending i ++ [w]) (tv_reads i).
Definition add_read (k : bytes) (i : txn_view) : txn_view :=
  mkView (tv_write i) (tv_base i) (tv_pending i) (k :: tv_reads i).

(** The same view, but that more keys may be tracked. *)
Definition sim_view (i i' : txn_view) : Prop :=
  tv_write i' = tv_write i ∧ tv_base i' = tv_base i ∧ tv_pending i' = tv_pending i ∧
  tv_reads i ⊆ tv_reads i'.
#[global] Instance sim_view_preorder : PreOrder sim_view.
Proof.
  split; [done|]. intros i1 i2 i3 (?&?&?&?) (?&?&?&?). split_and!; [congruence..|set_solver].
Qed.
Lemma sim_add_read k i : sim_view i (add_read k i).
Proof. split_and!; try done. cbn. set_solver. Qed.

(** A logical view of Badger's state. [committed]: the pairs a new transaction sees.
    [db_open]: the database has not been closed.
    [txn_info]: a transaction that has not ended. [txn_made]: a transaction that has been
    made, ended or not. [it_open]: an iterator that has been opened on a transaction and
    not closed. [it_pairs]: the pairs an iterator enumerates, in byte order; [it_rest]:
    those from its position on. *)
Class BadgerView `{BL : BadgerLib} := {
  committed : DB → items;
  db_open : DB → bool;
  txn_info : DB → Txn → option txn_view;
  txn_made : DB → Txn → Prop;
  it_open : DB → Txn → Iterator → Prop;
  it_pairs : DB → Iterator → items;
  it_rest : DB → Iterator → items
}.

(** Of a transaction that has not ended, whether it is writable, and what it sees. *)
Definition txn_state `{BadgerView} (d : DB) (t : Txn) : option (bool * items) :=
  (λ i, (tv_write i, view_pairs i)) <$> txn_info d t.

(** Nothing has changed for the transaction [t], but positions of its iterators and the keys
    it has read. *)
Definition same_txn `{BadgerView} (d d' : DB) (t : Txn) : Prop :=
  (txn_made d t → txn_made d' t) ∧ option_Forall2 sim_view (txn_info d t) (txn_info d' t) ∧
  ∀ it, it_open d' t it → it_open d t it.
(** Nothing has changed for the transactions other than [t], and the database has not been
    closed. *)
Definition elsewhere `{BadgerView} (t : Txn) (d d' : DB) : Prop :=
  db_open d' = db_open d ∧ ∀ t', t' ≠ t → same_txn d d' t'.
(** Nothing has changed but that for any transaction; or what they see. *)
Definition same_db `{BadgerView} (d d' : DB) : Prop :=
  committed d' = committed d ∧ db_open d' = db_open d ∧ ∀ t, same_txn d d' t.
Definition same_data `{BadgerView} (d d' : DB) : Prop :=
  committed d' = committed d ∧ (∀ t, txn_state d' t = txn_state d t) ∧
  (∀ t it, it_open d' t it → it_open d t it).
(** A call that belongs to the transaction [t]: it commits nothing, does not concern other
    transactions, and leaves [t] writable or not, with the same base, and no fewer writes
    and tracked keys. *)
Definition within `{BadgerView} (t : Txn) (d d' : DB) : Prop :=
  committed d' = committed d ∧ elsewhere t d d' ∧ (txn_made d t → txn_made d' t) ∧
  ∀ i, txn_info d t = Some i → ∃ i', txn_info d' t = Some i' ∧
    tv_write i' = tv_write i ∧ tv_base i' = tv_base i.

Lemma same_txn_trans `{BadgerView} d1 d2 d3 t :
  same_txn d1 d2 t → same_txn d2 d3 t → same_txn d1 d3 t.
Proof. intros (?&?&?) (?&?&?). split_and!; [auto|by etrans|auto]. Qed.

Lemma same_txn_refl `{BadgerView} d t : same_txn d d t.
Proof. by split_and!. Qed.

Lemma same_txn_eq `{BadgerView} d d' t :
  (txn_made d t → txn_made d' t) → txn_info d' t = txn_info d t →
  (∀ it, it_open d' t it → it_open d t it) → same_txn d d' t.
Proof. intros ? E ?. split_and!; [done|by rewrite E|done]. Qed.

Lemma same_txn_info `{BadgerView} d d' t i :
  same_txn d d' t → txn_info d t = Some i → ∃ i', txn_info d' t = Some i' ∧ sim_view i i'.
Proof. intros (_ & Hi & _) E. rewrite E in Hi. inversion Hi; subst. eauto. Qed.

Lemma same_txn_state `{BadgerView} d d' t : same_txn d d' t → txn_state d' t = txn_state d t.
Proof.
  intros (_ & Hi & _). unfold txn_state. destruct Hi as [i i' (H1 & H2 & H3 & _)|]; [|done].
  cbn. unfold view_pairs. by rewrite H1, H2, H3.
Qed.

#[global] Instance same_data_preorder `{BadgerView} : PreOrder same_data.
Proof.
  split; [done|]. intros d1 d2 d3 (H1 & H2 & H3) (H4 & H5 & H6).
  split_and!; [congruence| |auto]. intros t. by rewrite H5.
Qed.
#[global] Instance within_preorder `{BadgerView} t : PreOrder (within t).
Proof.
  split.
  - intros d. split_and!; [done|split; [done|intros t' _; apply same_txn_refl]|done|].
    intros i E. by exists i.
  - intros d1 d2 d3 (H1 & H2 & H3 & H4) (K1 & K2 & K3 & K4). split_and!; [congruence| |auto|].
    + destruct H2 as [H2 H2'], K2 as [K2 K2']. split; [congruence|].
      intros t' Ht. eapply same_txn_trans; auto.
    + intros i E. destruct (H4 i E) as (i' & E' & Hw & Hb).
      destruct (K4 i' E') as (i2 & E2 & Hw2 & Hb2). exists i2. split_and!; congruence.
Qed.

Lemma same_db_data `{BadgerView} d d' : same_db d d' → same_data d d'.
Proof.
  intros (H1 & _ & H2). split_and!; [done| |]; intros t; [by apply same_txn_state|by apply H2].
Qed.
Lemma same_db_within `{BadgerView} t d d' : same_db d d' → within t d d'.
Proof.
  intros (H1 & Ho & H2). split_and!; [done|split; [done|by intros t' _]|apply H2|]. intros i E.
  destruct (same_txn_info _ _ _ _ (H2 t) E) as (i' & E' & ? & ? & _). eauto.
Qed.

(** The documented behaviour of Badger, in terms of the view: snapshot isolation, with the
    detection of conflicts on commit, when a key the transaction has read is not what it
    was. Values are assumed to be readable: an I/O error while a value is fetched is
    outside these laws. An iterator can be opened on a transaction that has not ended as long
    as the database is open; on a closed one Badger panics. *)
Class BadgerSpec `{BV : BadgerView} : Prop := {
  law_NewTransaction d w :
    let '(t, d') := db_NewTransaction w d in
    committed d' = committed d ∧ ¬ txn_made d t ∧ txn_made d' t ∧
    txn_info d' t = Some (mkView w (committed d) [] []) ∧ (∀ it, ¬ it_open d' t it) ∧
    elsewhere t d d';
  within_Get d t k : within t d (txn_Get t k d).2;
  law_Get d t i k : txn_info d t = Some i →
    let '((item, e), d') := txn_Get t k d in
    same_data d d' ∧ (txn_info d' t = Some i ∨ txn_info d' t = Some (add_read k i)) ∧
    ((e = ENil ∧ ∃ x, items_lookup k (view_pairs i) = Some x ∧ item_ValueCopy item d' = (Some x, ENil)) ∨
     (e ≠ ENil ∧ errors_Is e badger_ErrKeyNotFound = true ∧ items_lookup k (view_pairs i) = None) ∨
     (e ≠ ENil ∧ errors_Is e badger_ErrKeyNotFound = false)) ∧
    (tv_write i = true → errors_Is e badger_ErrKeyNotFound = true ∨ e = ENil →
     k ∈ (tv_pending i).*1 ∨ txn_info d' t = Some (add_read k i));
  within_Set d t k x : within t d (txn_Set t k x d).2;
  law_Set d t i k x : txn_info d t = Some i → tv_write i = true →
    let '(e, d') := txn_Set t k x d in
    txn_info d' t = Some (if is_nil e then add_write (k, Some x) i else i) ∧
    ∀ it, it_open d' t it → it_open d t it;
  within_Delete d t k : within t d (txn_Delete t k d).2;
  law_Delete d t i k : txn_info d t = Some i → tv_write i = true →
    let '(e, d') := txn_Delete t k d in
    txn_info d' t = Some (if is_nil e then add_write (k, None) i else i) ∧
    ∀ it, it_open d' t it → it_open d t it;

  within_NewIterator d t : within t d (txn_NewIterator t d).2;
  law_NewIterator d t i : txn_info d t = Some i →
    match txn_NewIterator t d with
    | (Some it, d') =>
        (∀ t', txn_info d' t' = txn_info d t') ∧ it_pairs d' it = view_pairs i ∧
        ∀ it', it_open d' t it' → it_open d t it' ∨ it' = it
    | (None, d') => db_open d = false ∧ same_db d d'
    end;
  law_Seek d it k :
    let d' := (it_Seek it k d).2 in
    same_db d d' ∧ it_pairs d' it = it_pairs d it ∧
    it_rest d' it = items_from k (it_pairs d it);
  spec_Valid d it p :
    it_ValidForPrefix it p d = match it_rest d it with x :: _ => HasPrefix x.1 p | [] => false end;
  spec_Item d it x l : it_rest d it = x :: l →
    item_Key (it_Item it d) d = x.1 ∧ item_Value (it_Item it d) d = (x.2, ENil);
  law_Next d it x l : it_rest d it = x :: l →
    let d' := (it_Next it d).2 in same_db d d' ∧ it_rest d' it = l;
  law_Close d it :
    let d' := (it_Close it d).2 in
    same_db d d' ∧ ∀ t, ¬ it_open d' t it;

  law_Discard d t : (∀ it, ¬ it_open d t it) →
    ∃ d', txn_Discard t d = (Some (), d') ∧ committed d' = committed d ∧
      (txn_made d t → txn_made d' t) ∧ (∀ it, ¬ it_open d' t it) ∧ elsewhere t d d';
  law_Commit d t i : txn_info d t = Some i → tv_write i = true → (∀ it, ¬ it_open d t it) →
    ∃ e d', txn_Commit t d = (Some e, d') ∧
      committed d' = (if is_nil e then apply_writes (tv_pending i) (committed d) else committed d) ∧
      (e = ENil → tv_pending i ≠ [] → ∀ k, k ∈ tv_reads i →
         items_lookup k (committed d) = items_lookup k (tv_base i)) ∧
      (txn_made d t → txn_made d' t) ∧ (∀ it, ¬ it_open d' t it) ∧ elsewhere t d d'
}.

(** *** The laws in terms of what a transaction sees *)

Section laws.
Context `{BS : BadgerSpec}.

Lemma txn_state_info d t w v :
  txn_state d t = Some (w, v) → ∃ i, txn_info d t = Some i ∧ tv_write i = w ∧ view_pairs i = v.
Proof. unfold txn_state. destruct (txn_info d t) as [i|]; [|done]. intros [= <- <-]. by exists i. Qed.
Lemma info_txn_state d t i : txn_info d t = Some i → txn_state d t = Some (tv_write i, view_pairs i).
Proof. unfold txn_state. by intros ->. Qed.

Lemma view_pairs_add_write w i : view_pairs (add_write w i) = apply_write (view_pairs i) w.
Proof. apply apply_writes_snoc. Qed.

Lemma spec_NewTransaction d w :
  let '(t, d') := db_NewTransaction w d in
  committed d' = committed d ∧ txn_state d' t = Some (w, committed d) ∧ ∀ it, ¬ it_open d' t it.
Proof.
  pose proof (law_NewTransaction d w) as H. destruct (db_NewTransaction w d) as [t d'].
  destruct H as (H1 & _ & _ & H2 & H3 & _). split_and!; [done|by rewrite (info_txn_state _ _ _ H2)|done].
Qed.

Lemma spec_Get d t w v k : txn_state d t = Some (w, v) →
  let '((item, e), d') := txn_Get t k d in
  same_data d d' ∧
  ((e = ENil ∧ ∃ x, items_lookup k v = Some x ∧ item_ValueCopy item d' = (Some x, ENil)) ∨
   (e ≠ ENil ∧ errors_Is e badger_ErrKeyNotFound = true ∧ items_lookup k v = None) ∨
   (e ≠ ENil ∧ errors_Is e badger_ErrKeyNotFound = false)).
Proof.
  intros (i & E & _ & <-)%txn_state_info. pose proof (law_Get d t i k E) as H.
  destruct (txn_Get t k d) as [[item e] d']. by destruct H as (H1 & _ & H3 & _).
Qed.

Lemma spec_Set d t v k x : txn_state d t = Some (true, v) →
  let '(e, d') := txn_Set t k x d in
  committed d' = committed d ∧
  txn_state d' t = Some (true, if is_nil e then items_insert k x v else v) ∧
  ∀ it, it_open d' t it → it_open d t it.
Proof.
  intros (i & E & Hw & <-)%txn_state_info. pose proof (law_Set d t i k x E Hw) as H.
  pose proof (within_Set d t k x) as (Hc & _). destruct (txn_Set t k x d) as [e d'].
  destruct H as [H1 H2]. split_and!; [done| |done]. rewrite (info_txn_state _ _ _ H1).
  destruct (is_nil e); cbn [tv_write add_write]; by rewrite Hw, ?view_pairs_add_write.
Qed.

Lemma spec_Delete d t v k : txn_state d t = Some (true, v) →
  let '(e, d') := txn_Delete t k d in
  committed d' = committed d ∧
  txn_state d' t = Some (true, if is_nil e then items_delete k v else v) ∧
  ∀ it, it_open d' t it → it_open d t it.
Proof.
  intros (i & E & Hw & <-)%txn_state_info. pose proof (law_Delete d t i k E Hw) as H.
  pose proof (within_Delete d t k) as (Hc & _). destruct (txn_Delete t k d) as [e d'].
  destruct H as [H1 H2]. split_and!; [done| |done]. rewrite (info_txn_state _ _ _ H1).
  destruct (is_nil e); cbn [tv_write add_write]; by rewrite Hw, ?view_pairs_add_write.
Qed.

Lemma spec_NewIterator d t w v : txn_state d t = Some (w, v) →
  match txn_NewIterator t d with
  | (Some it, d') =>
      committed d' = committed d ∧ (∀ t', txn_state d' t' = txn_state d t') ∧
      it_pairs d' it = v ∧ ∀ it', it_open d' t it' → it_open d t it' ∨ it' = it
  | (None, d') => db_open d = false ∧ same_db d d'
  end.
Proof.
  intros (i & E & _ & <-)%txn_state_info. pose proof (within_NewIterator d t) as (Hc & _).
  pose proof (law_NewIterator d t i E) as HN.
  destruct (txn_NewIterator t d) as [[it|] d']; [|done]. destruct HN as (H1 & H2 & H3).
  split_and!; [done| |done|done]. intros t'. unfold txn_state. by rewrite H1.
Qed.

Lemma spec_Seek d it k :
  let d' := (it_Seek it k d).2 in
  same_data d d' ∧ it_pairs d' it = it_pairs d it ∧ it_rest d' it = items_from k (it_pairs d it).
Proof. destruct (law_Seek d it k) as (H1 & H2 & H3). split_and!; [by apply same_db_data|done..]. Qed.

Lemma spec_Next d it x l : it_rest d it = x :: l →
  let d' := (it_Next it d).2 in same_data d d' ∧ it_rest d' it = l.
Proof. intros E. destruct (law_Next d it x l E) as (H1 & H2). split; [by apply same_db_data|done]. Qed.
End laws.

(** ** An in-memory library *)

Module BadgerMem.

(** Transactions and iterators are numbered. An iterator holds its transaction, whether
    it is open, all its pairs and those that follow. An item is a pair. A read or write of
    the empty key fails, and Commit when [fail_commit] is set or when a key that the
    transaction has read has changed since it began; ending a transaction under an open
    iterator panics, and so does opening an iterator when the database is [closed]. *)
Record iterator := mkIterator { owner : nat; is_open : bool; all : items; rest : items }.
Record mem := mkMem {
  content : items;
  open_txns : gmap nat txn_view;
  next_txn : nat;
  its : list iterator;
  fail_commit : bool;
  closed : bool
}.

Definition NotFound : error := errorString 300 #"Key not found".
Definition EmptyKey : error := errorString 301 #"Key cannot be empty".
Definition Conflict : error := errorString 302 #"Transaction Conflict. Please retry".
Definition ReadOnly : error := errorString 304 #"No sets or deletes are allowed in a read-only transaction".
Definition Discarded : error := errorString 303 #"This transaction has been discarded. Create a new one".

Definition set_txns (f : gmap nat txn_view → gmap nat txn_view) (d : mem) : mem :=
  mkMem (content d) (f (open_txns d)) (next_txn d) (its d) (fail_commit d) (closed d).
Definition set_its (f : list iterator → list iterator) (d : mem) : mem :=
  mkMem (content d) (open_txns d) (next_txn d) (f (its d)) (fail_commit d) (closed d).
Definition set_content (c : items) (d : mem) : mem :=
  mkMem c (open_txns d) (next_txn d) (its d) (fail_commit d) (closed d).

Definition update (t : nat) (k : bytes) (x : option bytes) (d : mem) : error * mem :=
  match k, open_txns d !! t with
  | [], _ => (EmptyKey, d)
  | _, Some i =>
      if tv_write i then (ENil, set_txns (insert t (add_write (k, x) i)) d) else (ReadOnly, d)
  | _, None => (Discarded, d)
  end.

(** A writable transaction tracks the keys it does not read from its own writes. *)
Definition track (t : nat) (k : bytes) (i : txn_view) (d : mem) : mem :=
  if tv_write i && negb (bool_decide (k ∈ (tv_pending i).*1))
  then set_txns (insert t (add_read k i)) d else d.
(** The key an iterator is moved to is tracked as well. *)
Definition track_seek (t : nat) (k : bytes) (d : mem) : mem :=
  set_txns (alter (λ i, if tv_write i then add_read k i else i) t) d.
Definition conflict (i : txn_view) (d : mem) : bool :=
  existsb (λ k, negb (bool_decide (items_lookup k (content d) = items_lookup k (tv_base i))))
    (tv_reads i).

Definition has_open (t : nat) (d : mem) : bool :=
  existsb (λ i, is_open i && bool_decide (owner i = t)) (its d).

Definition it_rest_of (d : mem) (i : nat) : items := default [] (rest <$> its d !! i).

#[export] Instance lib : BadgerLib := {|
  DB := mem;
  Txn := nat;
  Iterator := nat;
  Item := bytes * bytes;
  badger_ErrKeyNotFound := NotFound;
  db_NewTransaction w d :=
    let t := next_txn d in
    (t, mkMem (content d) (<[t := mkView w (content d) [] []]> (open_txns d)) (S t)
          ((λ i, mkIterator (owner i) (is_open i && bool_decide (owner i ≠ t)) (all i) (rest i)) <$> its d)
          (fail_commit d) (closed d));
  db_Close d :=
    (ENil, mkMem (content d) (open_txns d) (next_txn d) (its d) (fail_commit d) true);
  db_Tables d := [];
  txn_Get t k d :=
    match k, open_txns d !! t with
    | [], _ => ((([], []), EmptyKey), d)
    | _, Some i =>
        match items_lookup k (view_pairs i) with
        | Some x => (((k, x), ENil), track t k i d)
        | None => (((k, []), NotFound), track t k i d)
        end
    | _, None => (((k, []), Discarded), d)
    end;
  txn_Set t k x d := update t k (Some x) d;
  txn_Delete t k d := update t k None d;
  txn_NewIterator t d :=
    match open_txns d !! t with
    | Some i =>
        if closed d then (None, d)
        else (Some (length (its d)), set_its (λ l, l ++ [mkIterator t true (view_pairs i) []]) d)
    | None => (None, d)
    end;
  txn_Discard t d :=
    if has_open t d then (None, d) else (Some (), set_txns (delete t) d);
  txn_Commit t d :=
    if has_open t d then (None, d) else
    match open_txns d !! t with
    | Some i =>
        if bool_decide (tv_pending i = []) then (Some ENil, set_txns (delete t) d)
        else if fail_commit d || conflict i d then (Some Conflict, set_txns (delete t) d)
        else (Some ENil, set_content (apply_writes (tv_pending i) (content d))
                           (set_txns (delete t) d))
    | None => (Some Discarded, d)
    end;
  it_Seek i k d :=
    ((), set_its (alter (λ x, mkIterator (owner x) (is_open x) (all x) (items_from k (all x))) i)
           (match owner <$> its d !! i with Some t => track_seek t k d | None => d end));
  it_ValidForPrefix i p d :=
    match it_rest_of d i with x :: _ => HasPrefix x.1 p | [] => false end;
  it_Item i d := default ([], []) (head (it_rest_of d i));
  it_Next i d :=
    ((), set_its (alter (λ x, mkIterator (owner x) (is_open x) (all x) (tail (rest x))) i) d);
  it_Close i d :=
    ((), set_its (alter (λ x, mkIterator (owner x) false (all x) (rest x)) i) d);
  item_Key x d := x.1;
  item_Value x d := (x.2, ENil);
  item_ValueCopy x d := (Some x.2, ENil)
|}.

Definition mem_open (d : mem) (t i : nat) : Prop :=
  ∃ x, its d !! i = Some x ∧ is_open x = true ∧ owner x = t.

Lemma has_open_false t d : (∀ i, ¬ mem_open d t i) → has_open t d = false.
Proof.
  intros H. apply not_true_iff_false. unfold has_open. rewrite existsb_exists.
  intros (x & Hx & [Ho Hw]%andb_true_iff). apply bool_decide_eq_true in Hw.
  apply list_elem_of_In, list_elem_of_lookup in Hx as [i Hi]. by destruct (H i); exists x.
Qed.

(** An update of an iterator that neither opens it nor moves it to another transaction. *)
Lemma mem_open_alter d t i j f :
  (∀ x, owner (f x) = owner x ∧ (is_open (f x) = true → is_open x = true)) →
  mem_open (set_its (alter f j) d) t i → mem_open d t i.
Proof.
  intros Hf (x & Hx & Ho & Hw). cbn in Hx. destruct (decide (i = j)) as [->|Hij].
  - rewrite list_lookup_alter_eq in Hx. destruct (its d !! j) as [y|] eqn:E; [|done].
    injection Hx as <-. destruct (Hf y) as [E1 E2]. exists y. rewrite <-E1. auto.
  - rewrite list_lookup_alter_ne in Hx by done. by exists x.
Qed.

#[export] Instance view : BadgerView := {|
  committed := content : DB → items;
  db_open := (λ d, negb (closed d)) : DB → bool;
  txn_info := λ (d : mem) (t : nat), open_txns d !! t;
  txn_made := λ (d : mem) (t : nat), t < next_txn d;
  it_open := mem_open;
  it_pairs := λ (d : mem) (i : nat), default [] (all <$> its d !! i);
  it_rest := it_rest_of
|}.

Lemma update_within (t : nat) k x (d : mem) : within (t : Txn) d (update t k x d).2.
Proof.
  unfold update. destruct k as [|c k]; [done|]. destruct (open_txns d !! t) as [i|] eqn:E; [|done].
  destruct (tv_write i); [|done]. split_and!; [done| |done|].
  - split; [done|]. intros t' Ht. apply same_txn_eq; [done| |done]. cbn. by apply lookup_insert_ne.
  - intros i' E'. cbn in *. rewrite E in E'. injection E' as <-.
    eexists. by rewrite lookup_insert_eq.
Qed.

Lemma update_info (t : nat) k x (d : mem) i :
  open_txns d !! t = Some i → tv_write i = true →
  let '(e, d') := update t k x d in
  open_txns d' !! t = Some (if is_nil e then add_write (k, x) i else i) ∧
  ∀ it, mem_open d' t it → mem_open d t it.
Proof.
  intros E Hw. unfold update. destruct k; [done|]. rewrite E, Hw. cbn.
  by rewrite lookup_insert_eq.
Qed.

(** Reading a key changes nothing but the keys that are tracked. *)
Lemma track_cases t k i (d : mem) :
  track t k i d = d ∧ (tv_write i = true → k ∈ (tv_pending i).*1) ∨
  track t k i d = set_txns (insert t (add_read k i)) d.
Proof.
  unfold track. destruct (tv_write i); cbn; [|by left]. case_bool_decide; cbn; [by left|by right].
Qed.

Lemma tracked_within (t : nat) k i (d : mem) :
  open_txns d !! t = Some i → within (t : Txn) d (set_txns (insert t (add_read k i)) d).
Proof.
  intros E. split_and!; [done| |done|].
  - split; [done|]. intros t' Ht. apply same_txn_eq; [done| |done]. cbn. by apply lookup_insert_ne.
  - intros i' E'. cbn in *. rewrite E in E'. injection E' as <-.
    eexists. by rewrite lookup_insert_eq.
Qed.

Lemma get_result_of (t : nat) k (d : mem) i :
  open_txns d !! t = Some i → k ≠ [] →
  txn_Get (t : Txn) k d =
    (match items_lookup k (view_pairs i) with
     | Some x => ((k, x), ENil) | None => ((k, []), NotFound) end, track t k i d).
Proof. intros E Hk. cbn. destruct k; [done|]. rewrite E. by destruct (items_lookup _ _). Qed.

Lemma get_law (t : nat) k (d : mem) i :
  open_txns d !! t = Some i → k ≠ [] →
  same_data d (track t k i d) ∧
  (open_txns (track t k i d) !! t = Some i ∨ open_txns (track t k i d) !! t = Some (add_read k i)) ∧
  (tv_write i = true → k ∈ (tv_pending i).*1 ∨
     open_txns (track t k i d) !! t = Some (add_read k i)).
Proof.
  intros E Hk. destruct (track_cases t k i d) as [[-> Hp]| ->]; [split_and!; [done|by left|intros; left; auto]|].
  cbn. rewrite lookup_insert_eq. split_and!; [|by right|by right]. split_and!; [done| |done].
  intros t'. unfold txn_state. cbn. destruct (decide (t' = t)) as [->|Ht].
  - by rewrite lookup_insert_eq, E.
  - by rewrite lookup_insert_ne.
Qed.

Lemma get_within (t : nat) k (d : mem) : within (t : Txn) d (txn_Get (t : Txn) k d).2.
Proof.
  destruct k as [|c k]; [done|]. destruct (open_txns d !! t) as [i|] eqn:E; [|by cbn; rewrite E].
  rewrite (get_result_of t (c :: k) d i E) by done. cbn [snd].
  destruct (track_cases t (c :: k) i d) as [[-> _]| ->]; [done|by apply tracked_within].
Qed.

Lemma conflict_false i (d : mem) k :
  conflict i d = false → k ∈ tv_reads i →
  items_lookup k (content d) = items_lookup k (tv_base i).
Proof.
  intros Hc Hk. unfold conflict in Hc. apply not_true_iff_false in Hc. rewrite existsb_exists in Hc.
  destruct (decide (items_lookup k (content d) = items_lookup k (tv_base i))) as [E|E]; [done|].
  destruct Hc. exists k. split; [by apply list_elem_of_In|]. by rewrite bool_decide_eq_false_2.
Qed.

(** Ending a transaction. *)
Lemma ended_elsewhere (t : nat) c (d : mem) :
  elsewhere (t : Txn) d (set_content c (set_txns (delete t) d)) ∧
  elsewhere (t : Txn) d (set_txns (delete t) d).
Proof.
  split; (split; [done|]); intros t' Ht; (apply same_txn_eq; [done| |done]); cbn;
    by apply lookup_delete_ne.
Qed.

Lemma track_seek_same t k (d : mem) : same_db d (track_seek t k d).
Proof.
  split_and!; [done..|]. intros t'. split_and!; [done| |done]. cbn.
  destruct (decide (t' = t)) as [->|Ht]; [rewrite lookup_alter_eq|by rewrite lookup_alter_ne].
  destruct (open_txns d !! t) as [i|]; constructor. case_match; [apply sim_add_read|done].
Qed.

(** Moving an iterator. *)
Lemma seek_same i k (d : mem) : same_db d (it_Seek (i : Iterator) k d).2.
Proof.
  cbn. set (d1 := match owner <$> its d !! i with Some t => track_seek t k d | None => d end).
  assert (H1 : same_db d d1) by (unfold d1; case_match; [apply track_seek_same|
    split_and!; [done..|]; intros; apply same_txn_refl]).
  destruct H1 as (H1 & Ho & H2). split_and!; [exact H1|exact Ho|]. intros t. eapply same_txn_trans; [apply H2|].
  apply same_txn_eq; [done|done|]. intros j. by apply mem_open_alter.
Qed.

Lemma seek_its i k (d : mem) :
  its (it_Seek (i : Iterator) k d).2 =
    alter (λ x, mkIterator (owner x) (is_open x) (all x) (items_from k (all x))) i (its d).
Proof. cbn. by case_match. Qed.

#[export] Instance spec : BadgerSpec.
Proof.
  split.
  - intros d w. cbn. split_and!; [done|lia|lia|apply lookup_insert_eq| |].
    + intros it (x & Hx & Ho & Hw). cbn in Hx. rewrite list_lookup_fmap in Hx.
      destruct (its d !! it) as [y|]; [|done]. injection Hx as <-. cbn in *. subst.
      by rewrite bool_decide_eq_false_2, andb_false_r in Ho by auto.
    + split; [done|]. intros t' Ht. apply same_txn_eq; [cbn; lia|by apply lookup_insert_ne|].
      intros it (x & Hx & Ho & Hw). cbn in Hx. rewrite list_lookup_fmap in Hx.
      apply fmap_Some in Hx as (y & Ey & ->). cbn in *.
      apply andb_true_iff in Ho as [Ho _]. by exists y.
  - intros d t k. apply get_within.
  - intros d t i k E. destruct k as [|c k].
    + cbn. split_and!; [done|by left|by right; right|intros _ [He|He]; done].
    + rewrite (get_result_of t (c :: k) d i E) by done.
      destruct (get_law t (c :: k) d i E) as (H1 & H2 & H3); [done|].
      destruct (items_lookup (c :: k) (view_pairs i)) as [x|] eqn:El; split_and!; auto.
      left. split; [done|]. by exists x.
  - intros d t k x. apply update_within.
  - intros d t i k x. apply update_info.
  - intros d t k. apply update_within.
  - intros d t i k. apply update_info.
  - intros d t. cbn. destruct (open_txns d !! (t : nat)) as [i|]; [|reflexivity].
    destruct (closed d); [reflexivity|]. cbn.
    split_and!; [done| |done|by intros i' E; exists i'].
    split; [done|]. intros t' Ht. apply same_txn_eq; [done|done|]. intros j (x & Hx & Ho & Hw). cbn in Hx.
    apply lookup_snoc_Some in Hx as [[_ Hx]|[_ Hx]]; [by exists x|]. subst x. by destruct Ht.
  - intros d t i E. cbn in *. rewrite E. destruct (closed d) eqn:Ec.
    { split; [done|]. split_and!; [done..|]. intros; apply same_txn_refl. }
    cbn. split_and!; [done|by rewrite lookup_app_r, Nat.sub_diag by done|].
    intros j (x & Hx & Ho & Hw). cbn in Hx. apply lookup_snoc_Some in Hx as [[_ Hx]|[-> _]].
    + left. by exists x.
    + by right.
  - intros d i k. change Iterator with nat in i. cbn zeta. split; [apply seek_same|]. unfold it_pairs, it_rest. cbn [view].
    unfold it_rest_of. rewrite seek_its, list_lookup_alter_eq. by destruct (its d !! i).
  - done.
  - intros d i x l E. cbn in *. by rewrite E.
  - intros d i x l E. cbn in *. split.
    + split_and!; [done..|]. intros t. apply same_txn_eq; [done|done|]. intros j.
      by apply mem_open_alter.
    + unfold it_rest_of, set_its in *. cbn. rewrite list_lookup_alter_eq.
      destruct (its d !! i); cbn in *; [by rewrite E|done].
  - intros d i. cbn in *. split.
    + split_and!; [done..|]. intros t. apply same_txn_eq; [done|done|]. intros j.
      by apply mem_open_alter.
    + intros t (x & Hx & Ho & Hw). cbn in Hx. rewrite list_lookup_alter_eq in Hx.
      destruct (its d !! i); [|done]. by injection Hx as <-.
  - intros d t Ho. cbn. rewrite (has_open_false _ _ Ho). eexists. split_and!; [done..|].
    exact (proj2 (ended_elsewhere t [] d)).
  - intros d t i E Hw Ho. cbn in *. rewrite (has_open_false _ _ Ho), E.
    pose proof (λ c, ended_elsewhere t c d) as He.
    case_bool_decide as Hp; [|destruct (fail_commit d || conflict i d) eqn:Ec];
      eexists _, _; (split; [done|]); cbn [is_nil].
    + rewrite Hp. split_and!; [done|by intros _ []|done|done|exact (proj2 (He []))].
    + split_and!; [done|done|done|done|exact (proj2 (He []))].
    + apply orb_false_iff in Ec as [_ Ec].
      split_and!; [done| |done|done|exact (proj1 (He _))].
      intros _ _ k Hk. by apply conflict_false.
Qed.

Definition empty_db : mem := mkMem [] ∅ 0 [] false false.

End BadgerMem.
