(* ===== verification/BadgerFacts.v ===== *)
(** The theorems on badger/badger.go's transactions and shelf operations, for any library
    with the documented behaviour. *)
From S2P Require Import Prelude Errors Keys Go Store Lock Timeout Shelf Prefix Pending Walk Badger.
From S2P Require Import BadgerSpec.

Section facts.
Context `{BS : BadgerSpec} {W : Type} `{!Env W}.
Implicit Types (s : St store W) (b : tx (W := W)) (t : badgerShelf (W := W)).
Abbreviation M := (M store W).

Definition data s : items := committed (db (back s)).
Definition live b s (w : bool) (v : items) : Prop :=
  txn_state (db (back s)) (badgerTx b) = Some (w, v).

(** The database has not been closed. *)
Definition open_db s : bool := db_open (db (back s)).

(** [b]'s object: its mutex is [m], and the list of iterators holds all open ones. *)
Definition object_at b s (m : RWMutex) : Prop :=
  ∃ l, txs (back s) !! address b = Some (mkTxObject _ l m) ∧
    ∀ it, it_open (db (back s)) (badgerTx b) it → it ∈ l.
Definition ready b s : Prop := object_at b s unlocked.

(** A transaction stays ready under operations that open no iterator. *)
Lemma ready_same b s s' :
  ready b s → txs (back s') = txs (back s) →
  (∀ it, it_open (db (back s')) (badgerTx b) it → it_open (db (back s)) (badgerTx b) it) →
  ready b s'.
Proof. intros (l & El & Hc) Ht Ho. exists l. rewrite Ht. split; [done|auto]. Qed.

(** The state with another database. *)
Definition with_db s (d : DB) : St store W := mkSt (mkStore _ d (txs (back s))) (world s).

Lemma with_db_id s : with_db s (db (back s)) = s.
Proof. by destruct s as [[]]. Qed.

Lemma badger_run {A} (f : DB → A * DB) s :
  badger f s = (Return (f (db (back s))).1, with_db s (f (db (back s))).2).
Proof. unfold badger, lib. by destruct (f (db (back s))). Qed.

Lemma badger_read_run {A} (f : DB → A) s :
  badger_read f s = (Return (f (db (back s))), s).
Proof. unfold badger_read. by rewrite badger_run, with_db_id. Qed.

Lemma badger_read_bind {A A'} (f : DB → A) (k : A → M A') s :
  (badger_read f ≫= k) s = k (f (db (back s))) s.
Proof. by rewrite (bind_Return _ _ _ _ _ (badger_read_run f s)). Qed.

(** *** The mutex *)

Definition set_object b s (o : tx_object) : St store W :=
  mkSt (mkStore _ (db (back s)) (<[address b := o]> (txs (back s)))) (world s).

Lemma get_tx_run b s o : txs (back s) !! address b = Some o → get_tx b s = (Return o, s).
Proof. intros E. unfold get_tx, mbind, M_bind, get_back. by rewrite E. Qed.

Lemma on_mutex_run b s f fail l m m' :
  txs (back s) !! address b = Some (mkTxObject _ l m) → f m = Some m' →
  on_mutex b f fail s = (Return (), set_object b s (mkTxObject _ l m')).
Proof.
  intros E Ef. unfold on_mutex. rewrite (bind_Return _ _ _ _ _ (get_tx_run b s _ E)). cbn.
  by rewrite Ef.
Qed.

Lemma on_mutex_stuck b s f fail l m :
  txs (back s) !! address b = Some (mkTxObject _ l m) → f m = None →
  on_mutex b f fail s = fail s.
Proof.
  intros E Ef. unfold on_mutex. rewrite (bind_Return _ _ _ _ _ (get_tx_run b s _ E)). cbn.
  by rewrite Ef.
Qed.

Lemma set_object_lookup b s o o' :
  txs (back s) !! address b = Some o' → txs (back (set_object b s o)) !! address b = Some o.
Proof. intros E. cbn. apply list_lookup_insert_eq. by eapply lookup_lt_Some. Qed.

Lemma set_object_twice b s o o' : set_object b (set_object b s o) o' = set_object b s o'.
Proof. unfold set_object. cbn. by rewrite list_insert_insert_eq. Qed.

(** A computation between [Lock] and the deferred [Unlock]: the object is the one the
    computation leaves. *)
Lemma locked_run {A} b s l (m : M A) a l' s' :
  txs (back s) !! address b = Some (mkTxObject _ l unlocked) →
  m (set_object b s (mkTxObject _ l (mkRWMutex true 0))) = (Return a, s') →
  txs (back s') !! address b = Some (mkTxObject _ l' (mkRWMutex true 0)) →
  (_ ← mutex_Lock b; defer (mutex_Unlock b) m) s =
    (Return a, set_object b s' (mkTxObject _ l' unlocked)).
Proof.
  intros E Em E'. unfold mutex_Lock.
  rewrite (bind_Return _ _ _ _ _ (on_mutex_run b s mux_Lock block l unlocked _ E eq_refl)).
  unfold defer. rewrite Em. unfold mutex_Unlock.
  by rewrite (bind_Return _ _ _ _ _ (on_mutex_run b s' mux_Unlock panic l' _ unlocked E' eq_refl)).
Qed.

Lemma locked_panic {A} b s l (m : M A) l' s' :
  txs (back s) !! address b = Some (mkTxObject _ l unlocked) →
  m (set_object b s (mkTxObject _ l (mkRWMutex true 0))) = (Panic, s') →
  txs (back s') !! address b = Some (mkTxObject _ l' (mkRWMutex true 0)) →
  (_ ← mutex_Lock b; defer (mutex_Unlock b) m) s =
    (Panic, set_object b s' (mkTxObject _ l' unlocked)).
Proof.
  intros E Em E'. unfold mutex_Lock.
  rewrite (bind_Return _ _ _ _ _ (on_mutex_run b s mux_Lock block l unlocked _ E eq_refl)).
  unfold defer. rewrite Em. unfold mutex_Unlock.
  by rewrite (bind_Return _ _ _ _ _ (on_mutex_run b s' mux_Unlock panic l' _ unlocked E' eq_refl)).
Qed.

(** *** Iterators *)

Lemma close_iterators_run l s :
  ∃ d', close_iterators l s = (Return (), with_db s d') ∧
    committed d' = data s ∧ db_open d' = open_db s ∧ (∀ x, same_txn (db (back s)) d' x) ∧
    ∀ x it, it_open d' x it → it_open (db (back s)) x it ∧ it ∉ l.
Proof.
  revert s. induction l as [|it l IH]; intros s.
  - exists (db (back s)). cbn. rewrite with_db_id.
    split_and!; [done|done|done|intros x; apply same_txn_refl|].
    intros x it Ho. split; [done|apply not_elem_of_nil].
  - cbn [close_iterators]. rewrite (bind_Return _ _ _ _ _ (badger_run (it_Close it) s)).
    pose proof (law_Close (db (back s)) it) as [(H1 & Hcl & H2) H3].
    destruct (IH (with_db s (it_Close it (db (back s))).2)) as (d' & E & H4 & Hcl' & H5 & H6).
    exists d'. split; [exact E|].
    split_and!; [by rewrite H4|by rewrite Hcl'|intros x; by eapply same_txn_trans|].
    intros x it' Ho. apply H6 in Ho as [Ho Hn]. split; [by apply H2|].
    apply not_elem_of_cons. split; [|done]. intros ->. by eapply H3.
Qed.

(** [newIterator] opens an iterator on the transaction [b], which sees [v]. *)
Definition iterates b s (w : bool) v : Prop :=
  ∃ it s', newIterator b s = (Return it, s') ∧ ready b s' ∧ live b s' w v ∧
    data s' = data s ∧ world s' = world s ∧ it_pairs (db (back s')) it = v.

(** It does, or the database is closed, [newIterator] panics, and its deferred function
    unlocks the mutex. *)
Lemma newIterator_cases b s w v :
  ready b s → live b s w v →
  iterates b s w v ∨ (open_db s = false ∧ ∃ s', newIterator b s = (Panic, s') ∧ ready b s').
Proof.
  intros (l & El & Hc) Hv.
  pose proof (spec_NewIterator (db (back s)) (badgerTx b) w v Hv) as HN.
  set (o1 := mkTxObject _ l (mkRWMutex true 0)).
  destruct (txn_NewIterator (badgerTx b) (db (back s))) as [[it|] d'] eqn:EN.
  all: set (s1 := with_db (set_object b s o1) d').
  all: assert (Ho1 : txs (back s1) !! address b = Some o1) by (by eapply set_object_lookup).
  2:{ right. destruct HN as (Hcl & _ & _ & Hsd). split; [done|]. eexists. split.
      { unfold newIterator. eapply (locked_panic b s l); [done| |exact Ho1].
        unfold badger_must. rewrite bind_assoc, (bind_Return _ _ _ _ _ (badger_run _ _)).
        change (db (back (set_object b s (mkTxObject _ l (mkRWMutex true 0))))) with (db (back s)).
        rewrite EN. reflexivity. }
      exists l. split; [by eapply set_object_lookup|]. intros it Ho. by apply Hc, Hsd. }
  left. destruct HN as (H1 & H2 & H3 & H4).
  set (o2 := mkTxObject _ (l ++ [it]) (mkRWMutex true 0)).
  assert (Ho2 : txs (back (set_object b s1 o2)) !! address b = Some o2)
    by (by eapply set_object_lookup).
  exists it. eexists. split.
  { unfold newIterator. eapply (locked_run b s l); [done| |exact Ho2].
    unfold badger_must. rewrite bind_assoc, (bind_Return _ _ _ _ _ (badger_run _ _)).
    change (db (back (set_object b s (mkTxObject _ l (mkRWMutex true 0))))) with (db (back s)).
    rewrite EN. cbn [fst snd must]. rewrite bind_ret.
    by rewrite (bind_Return _ _ _ _ _ (get_tx_run b _ o1 Ho1)). }
  split_and!; [|by unfold live; cbn; rewrite H2|done|done|done].
  exists (l ++ [it]). split; [by eapply set_object_lookup|]. cbn. intros it' Ho.
  apply elem_of_app. apply H4 in Ho as [Ho| ->]; [left; auto|right; by left].
Qed.

Lemma newIterator_spec b s w v :
  ready b s → live b s w v → open_db s = true → iterates b s w v.
Proof.
  intros Hr Hv Ho. destruct (newIterator_cases b s w v Hr Hv) as [H|[Hcl _]]; [done|congruence].
Qed.

(** While a reader holds the mutex no iterator can be opened. *)
Definition mutex_at b s (m : RWMutex) : Prop :=
  ∃ l, txs (back s) !! address b = Some (mkTxObject _ l m).

Lemma newIterator_blocks b s m :
  mutex_at b s m → m ≠ unlocked → newIterator b s = (Blocked, s).
Proof.
  intros (l & El) Hm. unfold newIterator, mutex_Lock, mbind at 1, M_bind at 1.
  rewrite (on_mutex_stuck b s mux_Lock block l m El); [done|].
  destruct m as [[] [|n]]; done.
Qed.

(** *** Making a transaction *)

Lemma new_tx_run ctx w s :
  ∃ b s0, new_tx ctx w s = (Return b, s0) ∧ ready b s0 ∧ tx_ctx b = ctx ∧
    txn_info (db (back s0)) (badgerTx b) = Some (mkView w (data s) [] []) ∧
    data s0 = data s ∧ world s0 = world s ∧
    ¬ txn_made (db (back s)) (badgerTx b) ∧ txn_made (db (back s0)) (badgerTx b) ∧
    elsewhere (badgerTx b) (db (back s)) (db (back s0)) ∧
    txs (back s) !! address b = None ∧
    ∀ a, is_Some (txs (back s) !! a) → txs (back s0) !! a = txs (back s) !! a.
Proof.
  unfold new_tx. rewrite (bind_Return _ _ _ _ _ (badger_run _ s)).
  pose proof (law_NewTransaction (db (back s)) w) as HN.
  destruct (db_NewTransaction w (db (back s))) as [t d'] eqn:E.
  destruct HN as (H1 & H2 & H3 & H4 & H5 & H6). eexists _, _. split; [done|]. split_and!; try done.
  - exists []. split; [|intros it Ho; by destruct (H5 it)].
    cbn. by rewrite lookup_app_r, Nat.sub_diag by done.
  - cbn. by apply lookup_ge_None_2.
  - intros a Ha. cbn. apply lookup_app_l. by apply lookup_lt_is_Some.
Qed.

(** *** Ending a transaction *)

(** Closing all iterators of a ready transaction leaves none open. *)
Lemma closed_run b s l :
  txs (back s) !! address b = Some (mkTxObject _ l (mkRWMutex true 0)) →
  (∀ it, it_open (db (back s)) (badgerTx b) it → it ∈ l) →
  ∃ d', (o ← get_tx b; close_iterators (iterators o)) s = (Return (), with_db s d') ∧
    committed d' = data s ∧ db_open d' = open_db s ∧ (∀ x, same_txn (db (back s)) d' x) ∧
    ∀ it, ¬ it_open d' (badgerTx b) it.
Proof.
  intros E Hc. rewrite (bind_Return _ _ _ _ _ (get_tx_run b s _ E)). cbn.
  destruct (close_iterators_run l s) as (d' & -> & H1 & Hop & H2 & H3). exists d'.
  split_and!; [done..|]. intros it Ho. apply H3 in Ho as [Ho Hn]. auto.
Qed.

(** The common part of [rollback] and [commit]: the mutex is taken, the iterators are
    closed, and [f] ends the transaction, without a concern for others. *)
Lemma ending_run {A} b s (f : DB → option A * DB) :
  ready b s →
  (∀ d, (∀ it, ¬ it_open d (badgerTx b) it) → committed d = data s →
     same_txn (db (back s)) d (badgerTx b) →
     ∃ a d', f d = (Some a, d') ∧ ∀ it, ¬ it_open d' (badgerTx b) it) →
  ∃ a s' d, (∀ it, ¬ it_open d (badgerTx b) it) ∧ committed d = data s ∧
    db_open d = open_db s ∧ (∀ x, same_txn (db (back s)) d x) ∧
    f d = (Some a, db (back s')) ∧
    (_ ← mutex_Lock b;
     defer (mutex_Unlock b)
       (o ← get_tx b; _ ← close_iterators (iterators o); badger_must f)) s = (Return a, s') ∧
    ready b s' ∧ world s' = world s ∧
    ∀ a', a' ≠ address b → txs (back s') !! a' = txs (back s) !! a'.
Proof.
  intros (l & El & Hc) Hf. set (o1 := mkTxObject _ l (mkRWMutex true 0)).
  set (s1 := set_object b s o1).
  assert (Ho1 : txs (back s1) !! address b = Some o1) by (by eapply set_object_lookup).
  destruct (closed_run b s1 l Ho1 Hc) as (d1 & E1 & H1 & Hop & H2 & H3).
  destruct (Hf d1 H3 H1 (H2 (badgerTx b))) as (a & d2 & Ef & H4).
  exists a, (set_object b (with_db s1 d2) (mkTxObject _ l unlocked)), d1.
  split_and!; [done|exact H1|exact Hop|exact H2|exact Ef| |exists l; split|done|].
  - apply (locked_run b s l); [done| |exact Ho1]. fold o1 s1. rewrite <-bind_assoc.
    rewrite (bind_Return _ _ _ _ _ E1). unfold badger_must.
    rewrite (bind_Return _ _ _ _ _ (badger_run _ _)). cbn. by rewrite Ef.
  - by eapply set_object_lookup.
  - intros it Ho. cbn in Ho. by destruct (H4 it).
  - intros a' Ha. cbn. by rewrite !list_lookup_insert_ne by done.
Qed.

(** The end of a transaction, as the others see it. *)
Definition apart b s s' : Prop :=
  elsewhere (badgerTx b) (db (back s)) (db (back s')) ∧
  (txn_made (db (back s)) (badgerTx b) → txn_made (db (back s')) (badgerTx b)) ∧
  ∀ a, a ≠ address b → txs (back s') !! a = txs (back s) !! a.

Lemma rollback_apart b s :
  ready b s → ∃ s', rollback b s = (Return (), s') ∧ ready b s' ∧ data s' = data s ∧
    world s' = world s ∧ apart b s s'.
Proof.
  intros Hr. destruct (ending_run b s (txn_Discard (badgerTx b)) Hr)
    as ([] & s' & d & H1 & H2 & Hop & H3 & Ef & E & Hr' & Hw & Ha).
  { intros d Ho _ _. destruct (law_Discard d (badgerTx b) Ho) as (d' & E & _ & _ & Ho' & _). eauto. }
  destruct (law_Discard d (badgerTx b) H1) as (d' & E' & Hc & Hm & _ & He). rewrite E' in Ef.
  injection Ef as ->. exists s'. split_and!; [exact E|done|unfold data in *; congruence|done|].
  split_and!; [| |done].
  - destruct He as [Ho He]. split; [by rewrite Ho|]. intros t Ht.
    eapply same_txn_trans; [apply H3|by apply He].
  - intros ?. by apply Hm, H3.
Qed.

(** Committing: the buffered writes are applied to what is committed now, and if there are
    any, the keys that were read are what they were at the transaction's start. *)
Lemma commit_apart b s i :
  ready b s → txn_info (db (back s)) (badgerTx b) = Some i → tv_write i = true →
  ∃ e s', commit b s = (Return e, s') ∧ ready b s' ∧ world s' = world s ∧ apart b s s' ∧
    data s' = (if is_nil e then apply_writes (tv_pending i) (data s) else data s) ∧
    (e = ENil → tv_pending i ≠ [] → ∀ k, k ∈ tv_reads i →
       items_lookup k (data s) = items_lookup k (tv_base i)).
Proof.
  intros Hr Hi Hw. destruct (ending_run b s (txn_Commit (badgerTx b)) Hr)
    as (e & s' & d & H1 & H2 & Hop & H3 & Ef & E & Hr' & Hwd & Ha).
  { intros d Ho _ Ht. destruct (same_txn_info _ _ _ _ Ht Hi) as (i' & Hi' & Hw' & _).
    rewrite <-Hw' in Hw.
    destruct (law_Commit d (badgerTx b) i' Hi' Hw Ho) as (e & d' & E & _ & _ & _ & Ho' & _). eauto. }
  destruct (same_txn_info _ _ _ _ (H3 (badgerTx b)) Hi) as (i' & Hi' & Hw' & Hb' & Hp' & Hr'').
  rewrite <-Hw' in Hw.
  destruct (law_Commit d (badgerTx b) i' Hi' Hw H1) as (e' & d' & E' & Hc & Hk & Hm & _ & He).
  rewrite Hp' in Hc, Hk. rewrite Hb' in Hk.
  rewrite E' in Ef. injection Ef as -> ->. rewrite H2 in *.
  exists e, s'. split_and!; [exact E|done|done| |exact Hc|auto].
  split_and!; [| |done].
  - destruct He as [Ho He]. split; [by rewrite Ho|]. intros t Ht.
    eapply same_txn_trans; [apply H3|by apply He].
  - intros ?. by apply Hm, H3.
Qed.

(** The transaction saw at its start what is committed now: none has been committed since. *)
Definition fresh b s : Prop :=
  ∃ i, txn_info (db (back s)) (badgerTx b) = Some i ∧ tv_base i = data s.

(** The transaction has been made, and nothing of it is in progress. *)
Definition settled b s : Prop := ready b s ∧ txn_made (db (back s)) (badgerTx b).

Lemma rollback_spec b s :
  settled b s → ∃ s', rollback b s = (Return (), s') ∧ settled b s' ∧ data s' = data s ∧
    open_db s' = open_db s.
Proof.
  intros [Hr Hm]. destruct (rollback_apart b s Hr) as (s' & E & Hr' & Hd & _ & [Ho _] & Hm' & _).
  exists s'. split_and!; [done|by split; [|apply Hm']|done|done].
Qed.

Lemma commit_spec b s v :
  settled b s → live b s true v → fresh b s →
  ∃ e s', commit b s = (Return e, s') ∧ settled b s' ∧ open_db s' = open_db s ∧
    data s' = if is_nil e then v else data s.
Proof.
  intros [Hr Hm] Hv (i & Hi & Hb). unfold live in Hv. rewrite (info_txn_state _ _ _ Hi) in Hv.
  injection Hv as Hw <-.
  destruct (commit_apart b s i Hr Hi Hw) as (e & s' & E & Hr' & _ & ([Ho _] & Hm' & _) & Hd & _).
  exists e, s'. split_and!; [done|by split; [|apply Hm']|done|]. unfold view_pairs. by rewrite Hb.
Qed.
End facts.
