(* ===== verification/BadgerShelf.v ===== *)
(** The theorems on the shelves of badger/badger.go: the single-key operations on the
    slice of the key space a shelf is, and the iterations. *)
From S2P Require Import Prelude Errors Keys Go Store Lock Timeout Shelf Prefix Walk Badger.
From S2P Require Import BadgerSpec BadgerFacts.

Section shelves.
Context `{BS : BadgerSpec} {W : Type} `{!Env W}.
Implicit Types (s : St store W) (t : badgerShelf (W := W)).
Abbreviation M := (M store W).

(** The pairs of [t]'s shelf in the view [v]. *)
Abbreviation pairs t v := (shelf_view (name t) v).

(** *** Single keys *)

(** Everything is as it was, but for the positions of iterators. *)
Definition unmoved s s' : Prop :=
  same_data (db (back s)) (db (back s')) ∧ txs (back s') = txs (back s) ∧ world s' = world s.

Lemma unmoved_tx b s s' w v :
  unmoved s s' → ready b s → live b s w v → ready b s' ∧ live b s' w v.
Proof.
  intros ((_ & Hl & Ho) & Ht & _) Hr Hv. split; [by eapply ready_same; [exact Hr|done|auto]|].
  unfold live. by rewrite Hl.
Qed.

(** A write that changes the shelf's pairs by [f], or fails with [e]. *)
Definition write_result t s (v : items) (f : items → items) (m : M error) : Prop :=
  ∃ e s' v', m s = (Return e, s') ∧ data s' = data s ∧ world s' = world s ∧
    (ready (shelf_tx t) s → ready (shelf_tx t) s') ∧ live (shelf_tx t) s' true v' ∧ sorted v' ∧
    if is_nil e
    then pairs t v' = f (pairs t v) ∧
         ∀ n, unrelated (name t) n → shelf_view n v' = shelf_view n v
    else v' = v.

(** The errors with which Badger answers a call on the key [k] of the shelf. *)
Definition Get_error t k s : error :=
  (txn_Get (badgerTx (shelf_tx t)) (name t ++ Bytes k) (db (back s))).1.2.
Definition Set_error t k x s : error :=
  (txn_Set (badgerTx (shelf_tx t)) (name t ++ Bytes k) x (db (back s))).1.
Definition Delete_error t k s : error :=
  (txn_Delete (badgerTx (shelf_tx t)) (name t ++ Bytes k) (db (back s))).1.

Lemma badger_Get_result t k s w v :
  live (shelf_tx t) s w v →
  ∃ r s', badgerShelf_Get t k s = (Return r, s') ∧ unmoved s s' ∧
    ((∃ x, items_lookup (Bytes k) (pairs t v) = Some x ∧ r = (Some x, ENil)) ∨
     (items_lookup (Bytes k) (pairs t v) = None ∧ r = (None, ErrKeyNotFound)) ∨
     (Get_error t k s ≠ ENil ∧ errors_Is (Get_error t k s) badger_ErrKeyNotFound = false ∧
      r = (None, Get_error t k s))).
Proof.
  intros Hv. unfold badgerShelf_Get.
  change (Bytes (badgerShelf_key t k)) with (name t ++ Bytes k).
  rewrite (bind_Return _ _ _ _ _ (badger_run _ s)).
  pose proof (spec_Get (db (back s)) _ w v (name t ++ Bytes k) Hv) as HG.
  rewrite view_lookup. unfold Get_error.
  destruct (txn_Get (badgerTx (shelf_tx t)) (name t ++ Bytes k) (db (back s)))
    as [[item e] d'] eqn:E. cbn [fst snd]. destruct HG as [Hs HG].
  assert (Hu : unmoved s (with_db s d')) by done.
  destruct HG as [(-> & x & El & Ex)|[(Hn & Hi & El)|(Hn & Hi)]].
  - cbn [is_nil negb]. rewrite badger_read_run. eexists _, _. split; [done|].
    split; [done|]. left. exists x. by cbn; rewrite Ex.
  - apply is_nil_false in Hn. rewrite Hn, Hi. cbn [negb]. eexists _, _.
    split; [done|]. split; [done|]. by right; left.
  - pose proof Hn as Hn'. apply is_nil_false in Hn. rewrite Hn, Hi. cbn [negb].
    eexists _, _. split; [done|]. split; [done|]. right; right. eauto.
Qed.

Lemma badger_Get_spec t k s w v :
  live (shelf_tx t) s w v →
  ∃ r s', badgerShelf_Get t k s = (Return r, s') ∧ unmoved s s' ∧
    ((∃ x, items_lookup (Bytes k) (pairs t v) = Some x ∧ r = (Some x, ENil)) ∨
     (items_lookup (Bytes k) (pairs t v) = None ∧ r = (None, ErrKeyNotFound)) ∨
     (∃ e, e ≠ ENil ∧ errors_Is e badger_ErrKeyNotFound = false ∧ r = (None, e))).
Proof.
  intros Hv. destruct (badger_Get_result t k s w v Hv) as (r & s' & E & Hu & HC).
  exists r, s'. split_and!; [done..|]. destruct HC as [?|[?|?]]; eauto.
Qed.

Lemma badger_write_spec t s v v' f (op : DB → error * DB) :
  (let '(e, d') := op (db (back s)) in
   committed d' = data s ∧
   txn_state d' (badgerTx (shelf_tx t)) = Some (true, if is_nil e then v' else v) ∧
   ∀ it, it_open d' (badgerTx (shelf_tx t)) it →
     it_open (db (back s)) (badgerTx (shelf_tx t)) it) →
  sorted v → sorted v' → pairs t v' = f (pairs t v) →
  (∀ n, unrelated (name t) n → shelf_view n v' = shelf_view n v) →
  write_result t s v f (badger op).
Proof.
  intros Hop H1 H2 H3 H4. unfold write_result. rewrite badger_run.
  destruct (op (db (back s))) as [e d']. destruct Hop as (Hc & Ht & Ho).
  exists e, (with_db s d'), (if is_nil e then v' else v).
  split_and!; try done; [|by destruct (is_nil e)..].
  intros Hr. eapply ready_same; [exact Hr|done|exact Ho].
Qed.

Lemma badger_Put_spec t k x s v :
  live (shelf_tx t) s true v → sorted v →
  write_result t s v (items_insert (Bytes k) x) (badgerShelf_Put t k x).
Proof.
  intros Hv Hs. apply badger_write_spec with (v' := items_insert (name t ++ Bytes k) x v);
    auto using items_insert_sorted, view_insert.
  - by apply (spec_Set (db (back s))).
  - intros n Hn. by apply view_insert_other, unrelated_app.
Qed.

Lemma badger_Delete_spec t k s v :
  live (shelf_tx t) s true v → sorted v →
  write_result t s v (items_delete (Bytes k)) (badgerShelf_Delete t k).
Proof.
  intros Hv Hs. apply badger_write_spec with (v' := items_delete (name t ++ Bytes k) v);
    auto using items_delete_sorted, view_delete.
  - by apply (spec_Delete (db (back s))).
  - intros n Hn. by apply view_delete_other, unrelated_app.
Qed.

(** C22: the single-key operations of a shelf act on the pairs of the shelf as the reference
    operations do and leave every shelf alone whose name is not a prefix or an extension
    of the shelf's. The error of a write is the one of Badger's call, as it is, and with an
    error nothing has changed; [Get] returns Badger's error as it is, too, unless that is its
    [ErrKeyNotFound], for which it returns the store's; then the key is absent. *)
Theorem badger_shelf_ops t (k : Key) (x : bytes) s v
    (Hv : live (shelf_tx t) s true v) (Hs : sorted v) :
  (∃ r s', badgerShelf_Get t k s = (Return r, s') ∧ unmoved s s' ∧
    ((∃ x, items_lookup (Bytes k) (pairs t v) = Some x ∧ r = (Some x, ENil)) ∨
     (items_lookup (Bytes k) (pairs t v) = None ∧ r = (None, ErrKeyNotFound)) ∨
     (Get_error t k s ≠ ENil ∧ errors_Is (Get_error t k s) badger_ErrKeyNotFound = false ∧
      r = (None, Get_error t k s)))) ∧
  ((badgerShelf_Put t k x s).1 = Return (Set_error t k x s) ∧
   write_result t s v (items_insert (Bytes k) x) (badgerShelf_Put t k x)) ∧
  ((badgerShelf_Delete t k s).1 = Return (Delete_error t k s) ∧
   write_result t s v (items_delete (Bytes k)) (badgerShelf_Delete t k)).
Proof.
  split_and!; [by eapply badger_Get_result| |by apply badger_Put_spec| |by apply badger_Delete_spec];
    unfold badgerShelf_Put, badgerShelf_Delete; by rewrite badger_run.
Qed.

(** C13: shelves are not separated. The name of a shelf and its keys are joined without a
    separator, so a shelf whose name extends another's is a part of it: after a successful
    [Put] of key [k] on the shelf [n ++ p], the shelf [n] holds the key [p ++ k]. *)
Theorem badger_shelves_overlap t t' (p : bytes) (k : Key) (x : bytes) s s' v
    (Hn : name t' = name t ++ p) (Hb : shelf_tx t' = shelf_tx t)
    (Hv : live (shelf_tx t) s true v) (Hs : sorted v)
    (HP : badgerShelf_Put t' k x s = (Return ENil, s')) :
  ∃ v', live (shelf_tx t) s' true v' ∧
    items_lookup (p ++ Bytes k) (pairs t v') = Some x ∧
    badgerShelf_key t (BytesKey (p ++ Bytes k)) = badgerShelf_key t' k.
Proof.
  rewrite <-Hb in Hv. destruct (badger_Put_spec t' k x s v Hv Hs)
    as (e & s1 & v' & E & _ & _ & _ & Hv' & _ & HC).
  rewrite HP in E. injection E as <- <-. cbn in HC. destruct HC as [HC _].
  exists v'. split_and!; [by rewrite <-Hb| |].
  - rewrite view_lookup, app_assoc, <-Hn, <-view_lookup, HC, items_lookup_insert.
    by rewrite bool_decide_eq_true_2.
  - unfold badgerShelf_key. rewrite Hn. f_equal. apply app_assoc.
Qed.

(** *** Iterations *)

Definition reading : RWMutex := mkRWMutex false 1.

(** What [Empty], [Iterate] and [Range] do first: open an iterator, take the read lock
    until they return, and move the iterator to [k]. *)
Lemma opened b s w v k :
  iterates b s w v →
  ∃ it s2,
    (∀ A (m : Iterator → M A),
      (it ← newIterator b;
       _ ← mutex_RLock b;
       defer (mutex_RUnlock b) (_ ← badger (it_Seek it k); m it)) s =
      defer (mutex_RUnlock b) (m it) s2) ∧
    object_at b s2 reading ∧ live b s2 w v ∧ data s2 = data s ∧ world s2 = world s ∧
    it_rest (db (back s2)) it = items_from k v.
Proof.
  intros (it & s1 & E1 & (l & El & Hc) & Hv1 & Hd1 & Hw1 & Hp1).
  pose proof (spec_Seek (db (back s1)) it k) as ((Hk1 & Hk2 & Hk3) & Hk4 & Hk5).
  exists it, (with_db (set_object b s1 (mkTxObject _ l reading)) (it_Seek it k (db (back s1))).2).
  split_and!; [|exists l; split|by unfold live; cbn; rewrite Hk2|by rewrite <-Hd1|by rewrite <-Hw1
    |by cbn; rewrite Hk5, Hp1].
  - intros A m. rewrite (bind_Return _ _ _ _ _ E1). unfold mutex_RLock.
    rewrite (bind_Return _ _ _ _ _ (on_mutex_run b s1 mux_RLock block l unlocked _ El eq_refl)).
    unfold defer. by rewrite (bind_Return _ _ _ _ _ (badger_run (it_Seek it k) _)).
  - by eapply set_object_lookup.
  - intros it' Ho. apply Hc. by eapply Hk3.
Qed.

(** [Empty] says whether the shelf is empty, and the transaction is as it was. *)
Definition tells_empty t s w v : Prop :=
  ∃ s', badgerShelf_Empty t s = (Return (bool_decide (pairs t v = []), ENil), s') ∧
    ready (shelf_tx t) s' ∧ live (shelf_tx t) s' w v ∧ data s' = data s ∧ world s' = world s.

Lemma iterates_Empty t s w v : iterates (shelf_tx t) s w v → sorted v → tells_empty t s w v.
Proof.
  intros Hit Hs. destruct (opened (shelf_tx t) s w v (name t) Hit)
    as (it & s2 & E & (l & El & Hc) & Hv2 & Hd & Hw & Hrest).
  exists (set_object (shelf_tx t) s2 (mkTxObject _ l unlocked)).
  split_and!; [|exists l; split; [by eapply set_object_lookup|done]|done|done|done].
  unfold badgerShelf_Empty.
  rewrite (E _ (λ it, valid ← badger_read (it_ValidForPrefix it (name t)); mret (negb valid, ENil))).
  unfold defer. rewrite badger_read_bind, spec_Valid, Hrest. cbn [mret M_ret].
  unfold mutex_RUnlock.
  rewrite (bind_Return _ _ _ _ _ (on_mutex_run (shelf_tx t) s2 mux_RUnlock panic l reading unlocked El eq_refl)).
  repeat f_equal. rewrite <-take_prefix_view by done.
  destruct (items_from (name t) v) as [|x r]; [done|]. cbn.
  by destruct (HasPrefix x.1 (name t)).
Qed.

Lemma badger_Empty_spec t s w v :
  ready (shelf_tx t) s → live (shelf_tx t) s w v → sorted v → open_db s = true →
  tells_empty t s w v.
Proof. intros Hr Hv Hs Ho. by apply iterates_Empty; [apply newIterator_spec|]. Qed.

(** Whether the database is open or not: on a closed one [Empty] may panic, and the mutex of
    the transaction is free. *)
Lemma badger_Empty_cases t s w v :
  ready (shelf_tx t) s → live (shelf_tx t) s w v → sorted v →
  tells_empty t s w v ∨
  (open_db s = false ∧ ∃ s', badgerShelf_Empty t s = (Panic, s') ∧ ready (shelf_tx t) s').
Proof.
  intros Hr Hv Hs. destruct (newIterator_cases (shelf_tx t) s w v Hr Hv)
    as [Hit|(Ho & s' & E & Hr')]; [left; by apply iterates_Empty|right].
  split; [done|]. exists s'. split; [|done]. unfold badgerShelf_Empty, mbind, M_bind. by rewrite E.
Qed.

Section walks.
Context (ctx : Context W) (callback : CallerFn store W) (keyType : Key) (it : Iterator).

(** A walk over pairs as Badger's shelves do it: stopped when the context is over, and
    its error reported at the end whether the walk was stopped or not. The iterator
    moves on after each pair. *)
Fixpoint walk_items (l : items) : M error :=
  match l with
  | [] => ctx_result ctx
  | x :: l' =>
      e ← ctx_Err ctx;
      if negb (is_nil e) then ctx_result ctx
      else visit keyType callback x (λ _, _ ← badger (it_Next it); walk_items l')
  end.

Definition same_rest s s' : Prop :=
  it_rest (db (back s')) it = it_rest (db (back s)) it.

Hypothesis callback_stays : ∀ key x, keeps same_rest (callback key x).

(** One turn of a loop: the visit of the pair the iterator stands at, and the step. *)
Lemma turn t x l s (next : M error) (k : M error) :
  it_rest (db (back s)) it = x :: l →
  (∀ s', it_rest (db (back s')) it = l → (FromBytes keyType (unprefixed (name t) x).1).2 = ENil →
     next s' = k s') →
  (err ← visit_item (it_Item it (db (back s))) (name t) x.1 callback keyType;
   if negb (is_nil err) then mret err else _ ← badger (it_Next it); next) s =
  visit keyType callback (unprefixed (name t) x) (λ _, _ ← badger (it_Next it); k) s.
Proof.
  intros Hr Hk. destruct (spec_Item (db (back s)) it x l Hr) as [_ Hval].
  unfold visit_item, visit. rewrite bind_assoc, badger_read_bind, Hval. cbn [is_nil negb fst snd].
  unfold unprefixed in *. cbn [fst snd] in *.
  destruct (FromBytes keyType (drop (length (name t)) x.1)) as [ok err] eqn:EF.
  destruct (is_nil err) eqn:En; cbn [negb]; [|by rewrite bind_ret, En].
  rewrite bind_assoc. apply bind_ext_at. intros key s1 E1.
  assert (s1 = s) as -> by (by destruct ok; injection E1).
  apply bind_ext_at. intros e' s2 E2. destruct (negb (is_nil e')); [done|].
  rewrite !(bind_Return _ _ _ _ _ (badger_run (it_Next it) s2)).
  pose proof (callback_stays key x.2 s) as Hst. unfold same_rest in Hst.
  rewrite E2 in Hst. cbn in Hst. rewrite Hr in Hst.
  apply Hk; [|by apply is_nil_true]. cbn. by destruct (spec_Next _ _ _ _ Hst).
Qed.

Lemma badger_iterate_loop_walk t n l s :
  shelf_ctx t = ctx → it_rest (db (back s)) it = l →
  length (take_while (λ x, HasPrefix x.1 (name t)) l) ≤ n →
  iterate_loop n t callback keyType it s =
    walk_items (unprefixed (name t) <$> take_while (λ x, HasPrefix x.1 (name t)) l) s.
Proof.
  intros Hctx. revert n s. induction l as [|x l IH]; intros n s Hr Hn; destruct n as [|n];
    cbn [iterate_loop take_while fmap list_fmap walk_items]; rewrite badger_read_bind, spec_Valid, Hr, Hctx;
    [done|done|destruct (HasPrefix x.1 (name t)) eqn:EP; [cbn in Hn; rewrite EP in Hn; cbn in Hn; lia|done]|].
  cbn [take_while] in Hn. destruct (HasPrefix x.1 (name t)) eqn:EP; cbn [negb]; [|done].
  cbn [fmap list_fmap walk_items]. apply bind_ext_at. intros e s1 E1.
  assert (Hr1 : it_rest (db (back s1)) it = x :: l) by (injection E1 as _ <-; exact Hr).
  destruct (negb (is_nil e)); [done|]. rewrite !badger_read_bind.
  destruct (spec_Item (db (back s1)) it x l Hr1) as [Hkey _]. rewrite Hkey.
  apply (turn t x l s1 (iterate_loop n t callback keyType it)); [done|].
  intros s' Hr' _. apply IH; [done|]. cbn in Hn. lia.
Qed.

(** [from] is of a fixed-size type, so the name of the shelf before the key makes the
    whole unparsable. *)
Definition fixed_size (k : Key) : bool :=
  match k with BytesKey _ => false | _ => true end.

Lemma fixed_size_prefixed (n k : bytes) :
  fixed_size keyType = true → n ≠ [] → HasPrefix k n = true →
  (FromBytes keyType (drop (length n) k)).2 = ENil → (FromBytes keyType k).1 = None.
Proof.
  intros Hf Hn [r ->]%HasPrefix_spec. rewrite drop_prefix.
  assert (0 < length n) by (destruct n; cbn; [done|lia]).
  destruct keyType; cbn; unfold Uint32Key_FromBytes, HashKey_FromBytes; try done;
    rewrite length_app; repeat case_bool_decide; cbn; try done; lia.
Qed.

Lemma badger_range_loop_walk t (u : Key) stopAtNil n l s :
  tx_ctx (shelf_tx t) = ctx →
  stopAtNil = false ∨ (fixed_size keyType = true ∧ name t ≠ []) →
  let p := λ x : bytes * bytes, HasPrefix x.1 (name t) && bytes_ltb x.1 (name t ++ Bytes u) in
  ∀ prev, (stopAtNil = true → prev = None) →
  it_rest (db (back s)) it = l → length (take_while p l) ≤ n →
  range_loop n t keyType (name t ++ Bytes u) callback stopAtNil it prev s =
    walk_items (unprefixed (name t) <$> take_while p l) s.
Proof.
  intros Hctx Hstop p. revert n s. induction l as [|x l IH]; intros n s prev Hp Hr Hn.
  { destruct n; cbn [range_loop]; by rewrite badger_read_bind, spec_Valid, Hr, Hctx. }
  destruct (spec_Item (db (back s)) it x l Hr) as [Hkey _].
  assert (HT : take_while p (x :: l) = if p x then x :: take_while p l else []) by done.
  rewrite HT in *. subst p. cbn beta in *. set (p := λ y : bytes * bytes, _ && _) in *.
  destruct n as [|n]; cbn [range_loop]; rewrite badger_read_bind, spec_Valid, Hr, Hctx;
    destruct (HasPrefix x.1 (name t)) eqn:EP; cbn [negb andb]; try done;
    rewrite !badger_read_bind, Hkey; cbn [andb] in *;
    destruct (bytes_ltb x.1 (name t ++ Bytes u)); cbn [negb] in *; try done; [cbn in Hn; lia|].
  cbn [fmap list_fmap walk_items]. apply bind_ext_at. intros e s1 E1.
  assert (Hr1 : it_rest (db (back s1)) it = x :: l) by (injection E1 as _ <-; exact Hr).
  destruct (negb (is_nil e)); [done|]. rewrite !badger_read_bind.
  destruct (spec_Item (db (back s1)) it x l Hr1) as [Hkey1 _]. rewrite Hkey1.
  destruct (FromBytes keyType x.1) as [ok ek] eqn:EF.
  assert (EG : gap_found stopAtNil prev ok s1 = (Return false, s1)).
  { unfold gap_found. destruct stopAtNil; cbn; [|done]. by rewrite Hp, badger_read_bind. }
  rewrite (bind_Return _ _ _ _ _ EG).
  apply (turn t x l s1 (range_loop n t keyType (name t ++ Bytes u) callback stopAtNil it _));
    [done|].
  intros s' Hr' Herr. apply IH; [|done|cbn in Hn; lia]. intros ->.
  destruct Hstop as [?|[Hfix Hne]]; [done|].
  pose proof (fixed_size_prefixed (name t) x.1 Hfix Hne EP Herr) as HN.
  rewrite EF in HN. cbn in HN. by rewrite HN.
Qed.
End walks.

(** The callback moves no iterator. *)
Definition moves_no_iterator (callback : CallerFn store W) : Prop :=
  ∀ it key x, keeps (same_rest it) (callback key x).

(** The state in which the loop of an iteration starts, and the iterator it uses: the
    read lock is held, and the transaction sees what it saw before. *)
Definition entered t s w v (it : Iterator) s2 : Prop :=
  object_at (shelf_tx t) s2 reading ∧ live (shelf_tx t) s2 w v ∧ data s2 = data s ∧
  world s2 = world s.

Lemma badger_Iterate_spec t callback keyType fuel s w v :
  iterates (shelf_tx t) s w v → sorted v → moves_no_iterator callback →
  length (pairs t v) ≤ fuel →
  ∃ it s2, entered t s w v it s2 ∧
    badgerShelf_Iterate fuel t callback keyType s =
      defer (mutex_RUnlock (shelf_tx t))
        (walk_items (shelf_ctx t) callback keyType it (pairs t v)) s2.
Proof.
  intros Hit Hs Hcb Hf. destruct (opened (shelf_tx t) s w v (name t) Hit)
    as (it & s2 & E & Ho & Hv2 & Hd & Hw & Hrest).
  exists it, s2. split; [by split_and!|]. unfold badgerShelf_Iterate.
  rewrite (E _ (iterate_loop fuel t callback keyType)). unfold defer.
  rewrite (badger_iterate_loop_walk (shelf_ctx t) callback keyType it (Hcb it) t fuel _ s2 eq_refl Hrest).
  - by rewrite take_prefix_view.
  - by rewrite <-(length_fmap (unprefixed (name t))), take_prefix_view.
Qed.

Lemma badger_Range_spec t from to callback stopAtNil fuel s w v :
  iterates (shelf_tx t) s w v → sorted v → moves_no_iterator callback →
  length (pairs t v) ≤ fuel →
  stopAtNil = false ∨ (fixed_size from = true ∧ name t ≠ []) →
  ∃ it s2, entered t s w v it s2 ∧
    badgerShelf_Range fuel t from to callback stopAtNil s =
      defer (mutex_RUnlock (shelf_tx t))
        (walk_items (tx_ctx (shelf_tx t)) callback from it
           (items_range (Bytes from) (Bytes to) (pairs t v))) s2.
Proof.
  intros Hit Hs Hcb Hf Hstop.
  destruct (opened (shelf_tx t) s w v (name t ++ Bytes from) Hit)
    as (it & s2 & E & Ho & Hv2 & Hd & Hw & Hrest).
  exists it, s2. split; [by split_and!|]. unfold badgerShelf_Range.
  rewrite (E _ (λ it, range_loop fuel t from (name t ++ Bytes to) callback stopAtNil it None)).
  unfold defer.
  rewrite (badger_range_loop_walk (tx_ctx (shelf_tx t)) callback from it (Hcb it) t to stopAtNil fuel _ s2
    eq_refl Hstop None (λ _, eq_refl) Hrest).
  - by rewrite take_range_view.
  - rewrite <-(length_fmap (unprefixed (name t))), take_range_view by done.
    etrans; [apply length_items_range|done].
Qed.

(** [Iterate] opens an iterator, holds the transaction's read lock until it returns, and
    walks over exactly the pairs of the shelf in byte order of the keys; an error of a key
    that does not parse or of the callback stops it, and so does the end of the context,
    which is reported even when it comes after the last pair. *)
Theorem badger_Iterate_walk t callback keyType fuel s w v
    (Hr : ready (shelf_tx t) s) (Hv : live (shelf_tx t) s w v) (Hs : sorted v)
    (Hop : open_db s = true) (Hcb : moves_no_iterator callback)
    (Hfuel : length (pairs t v) ≤ fuel) :
  ∃ it s2, entered t s w v it s2 ∧
    badgerShelf_Iterate fuel t callback keyType s =
      defer (mutex_RUnlock (shelf_tx t))
        (walk_items (shelf_ctx t) callback keyType it (pairs t v)) s2.
Proof.
  by apply badger_Iterate_spec; [apply newIterator_spec|..].
Qed.

(** C12: [Range] without [stopAtNil], on an open database, opens an iterator, holds the
    transaction's read lock until it returns, and walks over exactly the pairs of the shelf with
    a key in [from, to), in byte order, each once: an error of a key that does not parse or of
    the callback stops the walk, and so does the end of the context, which is reported even when
    it comes after the last pair. *)
Theorem badger_Range_walk t from to callback fuel s w v
    (Hr : ready (shelf_tx t) s) (Hv : live (shelf_tx t) s w v) (Hs : sorted v)
    (Hop : open_db s = true) (Hcb : moves_no_iterator callback)
    (Hfuel : length (pairs t v) ≤ fuel) :
  let l := items_range (Bytes from) (Bytes to) (pairs t v) in
  (∀ x, x ∈ l ↔ x ∈ pairs t v ∧ bytes_le (Bytes from) x.1 ∧ bytes_lt x.1 (Bytes to)) ∧
  ∃ it s2, entered t s w v it s2 ∧
    badgerShelf_Range fuel t from to callback false s =
      defer (mutex_RUnlock (shelf_tx t))
        (walk_items (tx_ctx (shelf_tx t)) callback from it l) s2.
Proof.
  intros l. split; [intros x; by apply elem_items_range, view_sorted|].
  destruct (badger_Range_spec t from to callback false fuel s w v) as (it & s2 & He & E);
    auto using newIterator_spec. by exists it, s2.
Qed.

(** C23: [stopAtNil] has no effect for keys of a fixed size. The gap check parses the whole
    Badger key, name included, as a key of [from]'s type, which fails, and the failure is
    dropped: unless the shelf's name is empty, [Range] does not stop at a gap. *)
Theorem badger_Range_ignores_stopAtNil t from to callback fuel s w v
    (Hr : ready (shelf_tx t) s) (Hv : live (shelf_tx t) s w v) (Hs : sorted v)
    (Hcb : moves_no_iterator callback) (Hfuel : length (pairs t v) ≤ fuel)
    (Hfix : fixed_size from = true) (Hname : name t ≠ []) :
  badgerShelf_Range fuel t from to callback true s =
    badgerShelf_Range fuel t from to callback false s.
Proof.
  unfold badgerShelf_Range.
  destruct (newIterator_cases (shelf_tx t) s w v Hr Hv) as [Hit|(_ & s' & E & _)];
    [|unfold mbind, M_bind; by rewrite E].
  destruct (opened (shelf_tx t) s w v (name t ++ Bytes from) Hit)
    as (it & s2 & E & Ho & Hv2 & Hd & Hw & Hrest).
  rewrite (E _ (λ it, range_loop fuel t from (name t ++ Bytes to) callback true it None)).
  rewrite (E _ (λ it, range_loop fuel t from (name t ++ Bytes to) callback false it None)).
  unfold defer.
  rewrite !(badger_range_loop_walk (tx_ctx (shelf_tx t)) callback from it (Hcb it) t to _ fuel _ s2
    eq_refl (or_intror (conj Hfix Hname)) None (λ _, eq_refl) Hrest); [done|..];
    rewrite <-(length_fmap (unprefixed (name t))), take_range_view by done;
    (etrans; [apply length_items_range|done]).
Qed.

(** *** Nested iterations *)

(** The operations of the shelves of [b] that open an iterator, whatever follows them. *)
Inductive opens_iterator b : M error → Prop :=
  | opens_Empty t (k : bool * error → M error) :
      shelf_tx t = b → opens_iterator b (r ← badgerShelf_Empty t; k r)
  | opens_Iterate n t callback keyType (k : error → M error) :
      shelf_tx t = b → opens_iterator b (e ← badgerShelf_Iterate n t callback keyType; k e)
  | opens_Range n t from to callback stopAtNil (k : error → M error) :
      shelf_tx t = b →
      opens_iterator b (e ← badgerShelf_Range n t from to callback stopAtNil; k e).

Lemma opens_iterator_blocks b m s :
  opens_iterator b m → mutex_at b s reading → m s = (Blocked, s).
Proof.
  intros Ho Hm. destruct Ho as [t k Hb|n t cb kt k Hb|n t from to cb st k Hb];
    unfold badgerShelf_Empty, badgerShelf_Iterate, badgerShelf_Range, mbind, M_bind;
    rewrite Hb; by rewrite (newIterator_blocks b s reading).
Qed.

(** Called while its transaction's mutex is held for reading, the callback comes to such an
    operation, with the mutex still held. *)
Definition comes_to_iterate b (callback : CallerFn store W) : Prop :=
  ∀ key x s, mutex_at b s reading →
    ∃ m s', opens_iterator b m ∧ callback key x s = m s' ∧ mutex_at b s' reading.

Lemma comes_to_iterate_blocks b callback key x s :
  comes_to_iterate b callback → mutex_at b s reading → ∃ s', callback key x s = (Blocked, s').
Proof.
  intros Hcb Hm. destruct (Hcb key x s Hm) as (m & s' & Ho & -> & Hm'). exists s'.
  by eapply opens_iterator_blocks.
Qed.

(** It may read and write before. *)
Lemma comes_after {A} b (first : Key → bytes → M A) (next : Key → bytes → A → M error) :
  (∀ key x s, ∃ a s', first key x s = (Return a, s') ∧ txs (back s') = txs (back s)) →
  (∀ key x a, opens_iterator b (next key x a)) →
  comes_to_iterate b (λ key x, a ← first key x; next key x a).
Proof.
  intros Hf Hn key x s (l & El). destruct (Hf key x s) as (a & s' & E & Ht).
  exists (next key x a), s'. split_and!; [done|by rewrite (bind_Return _ _ _ _ _ E)|].
  exists l. by rewrite Ht.
Qed.

(** The first pair of an iteration is handed to the callback while the mutex is held; a
    callback that blocks there blocks the iteration. *)
Lemma visit_blocks t it callback keyType key x s (next : M error) :
  item_Value (it_Item it (db (back s))) (db (back s)) = (x.2, ENil) →
  FromBytes keyType (unprefixed (name t) x).1 = (Some key, ENil) →
  (∃ s', callback key x.2 s = (Blocked, s')) →
  ∃ s', (err ← visit_item (it_Item it (db (back s))) (name t) x.1 callback keyType;
         if negb (is_nil err) then mret err else next) s = (Blocked, s').
Proof.
  intros Hval Hk (s' & E). exists s'. unfold visit_item.
  rewrite bind_assoc, badger_read_bind, Hval. cbn [is_nil negb fst snd].
  change (drop (length (name t)) x.1) with (unprefixed (name t) x).1. rewrite Hk.
  cbn [is_nil negb must]. unfold mbind, M_bind, mret, M_ret. by rewrite E.
Qed.

Lemma Iterate_blocks t callback keyType key fuel s w v x l :
  iterates (shelf_tx t) s w v → sorted v → pairs t v = x :: l →
  FromBytes keyType x.1 = (Some key, ENil) → Err (shelf_ctx t) (tick (world s)) = ENil →
  0 < fuel → comes_to_iterate (shelf_tx t) callback →
  ∃ s', badgerShelf_Iterate fuel t callback keyType s = (Blocked, s').
Proof.
  intros Hit Hs Hx Hk Hctx Hfuel Hcb.
  destruct (opened (shelf_tx t) s w v (name t) Hit)
    as (it & s2 & E & (lo & El & _) & Hv2 & Hd & Hw & Hrest).
  unfold badgerShelf_Iterate. rewrite (E _ (iterate_loop fuel t callback keyType)). unfold defer.
  pose proof (take_prefix_view (name t) v Hs) as HT. rewrite Hx in HT.
  destruct (items_from (name t) v) as [|y r] eqn:Ef; [done|]. cbn in HT.
  destruct (HasPrefix y.1 (name t)) eqn:EP; [|done]. injection HT as Hy _.
  destruct fuel as [|n]; [lia|].
  cbn [iterate_loop]. rewrite badger_read_bind, spec_Valid, Hrest, EP. cbn [negb].
  rewrite (bind_Return _ _ _ _ _ (ctx_Err_run _ s2)), Hw, Hctx. cbn [is_nil negb].
  set (s3 := mkSt _ _). rewrite !badger_read_bind.
  destruct (spec_Item (db (back s3)) it y r Hrest) as [-> Hval].
  destruct (visit_blocks t it callback keyType key y s3
    (_ ← badger (it_Next it); iterate_loop n t callback keyType it)) as (s' & ->); [done| | |eauto].
  - rewrite <-Hk, <-Hy. done.
  - apply (comes_to_iterate_blocks (shelf_tx t)); [done|by exists lo].
Qed.

Lemma Range_blocks t from to callback stopAtNil key fuel s w v x l :
  iterates (shelf_tx t) s w v → sorted v →
  items_range (Bytes from) (Bytes to) (pairs t v) = x :: l →
  FromBytes from x.1 = (Some key, ENil) → Err (tx_ctx (shelf_tx t)) (tick (world s)) = ENil →
  0 < fuel → comes_to_iterate (shelf_tx t) callback →
  ∃ s', badgerShelf_Range fuel t from to callback stopAtNil s = (Blocked, s').
Proof.
  intros Hit Hs Hx Hk Hctx Hfuel Hcb.
  destruct (opened (shelf_tx t) s w v (name t ++ Bytes from) Hit)
    as (it & s2 & E & (lo & El & _) & Hv2 & Hd & Hw & Hrest).
  unfold badgerShelf_Range.
  rewrite (E _ (λ it, range_loop fuel t from (name t ++ Bytes to) callback stopAtNil it None)).
  unfold defer. pose proof (take_range_view (name t) (Bytes from) (Bytes to) v Hs) as HT.
  rewrite Hx in HT. destruct (items_from (name t ++ Bytes from) v) as [|y r] eqn:Ef; [done|].
  cbn in HT. destruct (HasPrefix y.1 (name t)) eqn:EP; [|done]. cbn [andb] in HT.
  destruct (bytes_ltb y.1 (name t ++ Bytes to)) eqn:EL; [|done]. injection HT as Hy _.
  destruct fuel as [|n]; [lia|].
  cbn [range_loop]. rewrite badger_read_bind, spec_Valid, Hrest, EP. cbn [negb].
  rewrite !badger_read_bind. destruct (spec_Item (db (back s2)) it y r Hrest) as [-> _].
  rewrite EL. cbn [negb].
  rewrite (bind_Return _ _ _ _ _ (ctx_Err_run _ s2)), Hw, Hctx. cbn [is_nil negb].
  set (s3 := mkSt _ _). rewrite !badger_read_bind.
  destruct (spec_Item (db (back s3)) it y r Hrest) as [-> Hval].
  destruct (FromBytes from y.1) as [ok ek].
  assert (EG : gap_found (W := W) stopAtNil None ok s3 = (Return false, s3))
    by (unfold gap_found; destruct stopAtNil; cbn; [by rewrite badger_read_bind|done]).
  rewrite (bind_Return _ _ _ _ _ EG).
  destruct (visit_blocks t it callback from key y s3
    (_ ← badger (it_Next it); range_loop n t from (name t ++ Bytes to) callback stopAtNil it
       ((λ key, (key, it_Item it (db (back s3)))) <$> ok))) as (s' & ->); [done| | |eauto].
  - rewrite <-Hk, <-Hy. done.
  - apply (comes_to_iterate_blocks (shelf_tx t)); [done|by exists lo].
Qed.

(** C24: iterations may not be nested. If the callback of [Iterate] or [Range], whatever it
    does before, comes to an operation of the same transaction that opens an iterator
    ([Empty], [Iterate] or [Range] of any of its shelves), then it waits for ever for the
    mutex that the outer iteration holds: an iteration that reaches a pair, on an open
    database and before the context ends, never returns. *)
Theorem badger_nested_deadlock t callback fuel s w v
    (Hr : ready (shelf_tx t) s) (Hv : live (shelf_tx t) s w v) (Hs : sorted v)
    (Hop : open_db s = true) (Hctx : Err (shelf_ctx t) (tick (world s)) = ENil)
    (Hctx' : Err (tx_ctx (shelf_tx t)) (tick (world s)) = ENil) (Hfuel : 0 < fuel)
    (Hcb : comes_to_iterate (shelf_tx t) callback) :
  (∀ keyType key x l, pairs t v = x :: l → FromBytes keyType x.1 = (Some key, ENil) →
     ∃ s', badgerShelf_Iterate fuel t callback keyType s = (Blocked, s')) ∧
  (∀ from to stopAtNil key x l, items_range (Bytes from) (Bytes to) (pairs t v) = x :: l →
     FromBytes from x.1 = (Some key, ENil) →
     ∃ s', badgerShelf_Range fuel t from to callback stopAtNil s = (Blocked, s')).
Proof.
  pose proof (newIterator_spec (shelf_tx t) s w v Hr Hv Hop) as Hit.
  split; intros; [by eapply Iterate_blocks|by eapply Range_blocks].
Qed.
End shelves.
