(* ===== verification/BadgerFrame.v ===== *)
(** What the operations of a Badger shelf leave alone: the other transactions, the committed
    data, and the snapshot of their own transaction. *)
From S2P Require Import Prelude Errors Keys Go Store Lock Timeout Shelf Badger.
From S2P Require Import BadgerSpec BadgerFacts Client.

Section frame.
Context `{BS : BadgerSpec} {W : Type} `{!Env W}.
Implicit Types (s : St store W) (b : tx (W := W)) (t : badgerShelf (W := W)).
Abbreviation M := (M store W).

(** Everything that has happened was done to the transaction [b] or its object. *)
Definition inside b s s' : Prop :=
  within (badgerTx b) (db (back s)) (db (back s')) ∧
  ∀ a, a ≠ address b → txs (back s') !! a = txs (back s) !! a.

#[global] Instance inside_preorder b : PreOrder (inside b).
Proof.
  split; [done|]. intros s1 s2 s3 [H1 H2] [H3 H4]. split; [by etrans|].
  intros a Ha. by rewrite H4, H2.
Qed.

(** *** Calls *)

Lemma inside_badger {A} b (f : DB → A * DB) :
  (∀ d, within (badgerTx b) d (f d).2) → keeps (inside b) (badger (W := W) f).
Proof. intros Hf s. rewrite badger_run. by split. Qed.

Lemma inside_badger_read {A} b (f : DB → A) : keeps (inside b) (badger_read (W := W) f).
Proof. apply inside_badger. done. Qed.

Lemma inside_badger_must {A} b (f : DB → option A * DB) :
  (∀ d, within (badgerTx b) d (f d).2) → keeps (inside b) (badger_must (W := W) f).
Proof.
  intros Hf. apply keeps_bind; [apply _|by apply inside_badger|]. intros. apply keeps_must, _.
Qed.

Lemma inside_get_tx b : keeps (inside b) (get_tx b).
Proof. apply keeps_bind; [apply _|apply keeps_get_back, _|]. intros. apply keeps_must, _. Qed.

Lemma inside_put_tx b o : keeps (inside b) (put_tx b o).
Proof.
  intros s. unfold put_tx, mbind, M_bind, get_back, put_back. cbn. split; [done|].
  intros a Ha. cbn. by rewrite list_lookup_insert_ne.
Qed.

Lemma inside_on_mutex b f fail : keeps (inside b) fail → keeps (inside b) (on_mutex b f fail).
Proof.
  intros Hf. apply keeps_bind; [apply _|apply inside_get_tx|]. intros o.
  case_match; [apply inside_put_tx|done].
Qed.

Lemma inside_newIterator b : keeps (inside b) (newIterator b).
Proof.
  apply keeps_bind; [apply _|apply inside_on_mutex, keeps_block, _|]. intros _.
  apply keeps_defer; [apply _|apply inside_on_mutex, keeps_panic, _|].
  apply keeps_bind; [apply _|apply inside_badger_must; intros; apply within_NewIterator|].
  intros it. apply keeps_bind; [apply _|apply inside_get_tx|]. intros o.
  apply keeps_bind; [apply _|apply inside_put_tx|]. intros. apply keeps_ret, _.
Qed.

(** *** Operations *)

Lemma inside_Get t k : keeps (inside (shelf_tx t)) (badgerShelf_Get t k).
Proof.
  apply keeps_bind; [apply _|apply inside_badger; intros; apply within_Get|].
  intros [item err]. repeat case_match; [apply keeps_ret, _..|apply inside_badger_read].
Qed.

Lemma inside_Empty t : keeps (inside (shelf_tx t)) (badgerShelf_Empty t).
Proof.
  apply keeps_bind; [apply _|apply inside_newIterator|]. intros it.
  apply keeps_bind; [apply _|apply inside_on_mutex, keeps_block, _|]. intros _.
  apply keeps_defer; [apply _|apply inside_on_mutex, keeps_panic, _|].
  apply keeps_bind; [apply _| |].
  - apply inside_badger. intros d. by apply same_db_within, law_Seek.
  - intros _. apply keeps_bind; [apply _|apply inside_badger_read|]. intros. apply keeps_ret, _.
Qed.

Lemma inside_Put t k x : keeps (inside (shelf_tx t)) (badgerShelf_Put t k x).
Proof. apply inside_badger. intros. apply within_Set. Qed.

Lemma inside_Delete t k : keeps (inside (shelf_tx t)) (badgerShelf_Delete t k).
Proof. apply inside_badger. intros. apply within_Delete. Qed.

Lemma inside_reader fuel t : reader_keeps (inside (shelf_tx t)) (as_Reader fuel t).
Proof. split; [apply inside_Get|apply inside_Empty]. Qed.

Lemma inside_writer fuel t : writer_keeps (inside (shelf_tx t)) (as_Writer fuel t).
Proof.
  split; [|split; [|apply inside_reader]]; intros; [apply inside_Put|apply inside_Delete].
Qed.

(** A transaction stays fresh while nothing happens outside it. *)
Lemma inside_fresh b s s' : inside b s s' → fresh b s → fresh b s'.
Proof.
  intros [(Hc & _ & _ & Hi) _] (i & E & Hb). destruct (Hi i E) as (i' & E' & _ & Hb').
  exists i'. split; [done|]. unfold data in *. congruence.
Qed.

(** Nothing inside a transaction closes the database. *)
Lemma inside_open b s s' : inside b s s' → open_db s' = open_db s.
Proof. by intros [(_ & [Ho _] & _) _]. Qed.

Lemma inside_settled b s s' : inside b s s' → settled b s → ready b s' → settled b s'.
Proof. intros [(_ & _ & Hm & _) _] [_ H] Hr. split; [done|auto]. Qed.
End frame.
