(* ===== verification/BadgerTx.v ===== *)
(** The transaction protocol of badger/badger.go's [doTX], as a specification of its
    outcomes and the proof that the code refines it, and its consequences for clients. *)
From S2P Require Import Prelude Errors Keys Go Store Lock Timeout Shelf Prefix Badger.
From S2P Require Import BadgerSpec BadgerFacts BadgerShelf BadgerFrame Client.

Section protocol.
Context `{BS : BadgerSpec} {W : Type} `{!Env W}.
Implicit Types (s : St store W) (b : tx (W := W)) (opts : list (TxOption store W)).
Abbreviation M := (M store W).

(** ** Specification *)

(** A callback that uses the store through its transaction only: it commits nothing and,
    when it returns or panics, the transaction lives, from the same snapshot, with its mutex
    free and its iterators all listed. *)
Definition well_behaved (writable : bool) (fn : tx → M error) : Prop :=
  ∀ b s v, settled b s → live b s writable v → fresh b s → sorted v →
    let '(o, s') := fn b s in
    data s' = data s ∧
    (o ≠ Blocked → o ≠ NoFuel → settled b s' ∧ fresh b s' ∧ ∃ v', live b s' writable v').

(** The same, of a callback that is called while the database is open, or closed. *)
Definition behaves (o : bool) (writable : bool) (fn : tx → M error) : Prop :=
  ∀ b s v, open_db s = o → settled b s → live b s writable v → fresh b s → sorted v →
    let '(o, s') := fn b s in
    data s' = data s ∧
    (o ≠ Blocked → o ≠ NoFuel → settled b s' ∧ fresh b s' ∧ ∃ v', live b s' writable v').

Lemma well_behaves writable fn : well_behaved writable fn → ∀ o, behaves o writable fn.
Proof. intros Hfn o b s v _. apply Hfn. Qed.

(** [fn] was called once, in a fresh transaction [b] that saw the committed data of [s],
    and ended with [o] in [s1]. *)
Definition called s (writable : bool) (fn : tx → M error) b (o : outcome error) s1 : Prop :=
  ∃ s0, settled b s0 ∧ live b s0 writable (data s) ∧ open_db s0 = open_db s ∧
    fn b s0 = (o, s1) ∧ data s1 = data s.

(** The outcomes of a write transaction. The deferred [rollback] is part of each of those
    in which [fn] returned: it follows the functions of the options. *)
Inductive write_outcome (fn : tx → M error) opts s : outcome error * St store W → Prop :=
  | wo_hangs b o s' : called s true fn b o s' → o = Blocked ∨ o = NoFuel →
      write_outcome fn opts s (o, s')
  | wo_panics b s1 s' : called s true fn b Panic s1 → data s' = data s → settled b s' →
      open_db s' = open_db s1 → write_outcome fn opts s (Panic, s')
  | wo_rolled_back b e s1 s2 :
      called s true fn b (Return e) s1 → e ≠ ENil → data s2 = data s → settled b s2 →
      open_db s2 = open_db s1 →
      write_outcome fn opts s
        (defer (rollback b) (_ ← OnRollbackOption_Invoke opts; mret e) s2)
  | wo_commit_failed b c s1 s2 :
      called s true fn b (Return ENil) s1 → c ≠ ENil → data s2 = data s → settled b s2 →
      open_db s2 = open_db s1 →
      write_outcome fn opts s
        (defer (rollback b)
           (_ ← OnRollbackOption_Invoke opts; mret (WrapError ErrCommitFailed c)) s2)
  | wo_committed b v s1 s2 :
      called s true fn b (Return ENil) s1 → live b s1 true v → data s2 = v → settled b s2 →
      open_db s2 = open_db s1 →
      write_outcome fn opts s
        (defer (rollback b) (_ ← AfterCommitOption_Invoke opts; mret ENil) s2).

(** The outcomes of a read transaction: that of [fn], with nothing changed. *)
Inductive read_outcome (fn : tx → M error) s : outcome error * St store W → Prop :=
  | ro_ends b o s1 s' : called s false fn b o s1 → data s' = data s → settled b s' →
      open_db s' = open_db s1 → read_outcome fn s (o, s')
  | ro_hangs b o s' : called s false fn b o s' → o = Blocked ∨ o = NoFuel →
      read_outcome fn s (o, s').

(** ** Refinement *)

Lemma new_tx_spec ctx writable s :
  ∃ b s0, new_tx ctx writable s = (Return b, s0) ∧ settled b s0 ∧
    live b s0 writable (data s) ∧ fresh b s0 ∧ data s0 = data s ∧ tx_ctx b = ctx ∧
    open_db s0 = open_db s.
Proof.
  destruct (new_tx_run ctx writable s)
    as (b & s0 & E & Hr & Hc & Hi & Hd & _ & _ & Hm & [Ho _] & _).
  exists b, s0. split_and!; [done|by split| | |done|done|done].
  - unfold live. by rewrite (info_txn_state _ _ _ Hi).
  - eexists. split; [exact Hi|]. by rewrite Hd.
Qed.

Lemma defer_at {A} (c : M ()) (m k : M A) s s2 : m s = k s2 → defer c m s = defer c k s2.
Proof. intros E. unfold defer. by rewrite E. Qed.

(** The last, deferred rollback finds nothing to do. *)
Lemma defer_rollback {A} b (m : M A) s a s1 :
  m s = (Return a, s1) → settled b s1 →
  ∃ s', defer (rollback b) m s = (Return a, s') ∧ data s' = data s1 ∧ settled b s' ∧
    open_db s' = open_db s1.
Proof.
  intros E Hr. destruct (rollback_spec b s1 Hr) as (s' & E' & Hr' & Hd & Ho).
  exists s'. unfold defer. rewrite E. by rewrite (bind_Return _ _ _ _ _ E').
Qed.

(** [doTX] without a result of [fn]. *)
Lemma defer_crash b fn ctx writable opts s o s1 :
  fn b s = (o, s1) → (∀ e, o ≠ Return e) →
  defer (rollback b) (run_tx ctx fn writable opts b) s =
    match o with Panic => (_ ← rollback b; panic) s1 | _ => (o, s1) end.
Proof.
  intros E Ho. unfold defer, run_tx, mbind, M_bind. rewrite E. destruct o; try done.
  by destruct (Ho a).
Qed.

Lemma rollback_bind {A} b s (k : M A) :
  settled b s →
  ∃ s', (_ ← rollback b; k) s = k s' ∧ data s' = data s ∧ settled b s' ∧ open_db s' = open_db s.
Proof.
  intros Hr. destruct (rollback_spec b s Hr) as (s' & E & Hr' & Hd & Ho).
  exists s'. by rewrite (bind_Return _ _ _ _ _ E).
Qed.

Lemma badger_commit_phase ctx b s v :
  sticky ctx → settled b s → live b s true v → fresh b s →
  ∃ err s',
    (e ← ctx_Err ctx;
     if negb (is_nil e) then err ← ctx_Err ctx; _ ← rollback b; mret err
     else if true then commit b else mret ENil) s = (Return err, s') ∧
    data s' = (if is_nil err then v else data s) ∧ settled b s' ∧ open_db s' = open_db s.
Proof.
  intros Hst Hr Hv Hf. rewrite (bind_Return _ _ _ _ _ (ctx_Err_run ctx s)).
  set (s1 := mkSt (back s) (tick (world s))).
  destruct (is_nil (Err ctx (tick (world s)))) eqn:En; cbn [negb].
  - destruct (commit_spec b s1 v Hr Hv Hf) as (e & s' & E & Hr' & Ho & Hd). eauto 7.
  - rewrite (bind_Return _ _ _ _ _ (ctx_Err_run ctx s1)).
    set (s2 := mkSt (back s1) (tick (world s1))).
    destruct (rollback_bind b s2 (mret (Err ctx (tick (world s1)))) Hr)
      as (s3 & -> & Hd & Hr3 & Ho).
    eexists _, s3. split; [done|]. split; [|done].
    assert (is_nil (Err ctx (tick (world s1))) = false) as ->; [|exact Hd].
    by apply is_nil_false, Hst, is_nil_false.
Qed.

Lemma badger_write_protocol_lemma ctx fn opts s :
  sticky ctx → behaves (open_db s) true fn → sorted (data s) →
  write_outcome fn opts s (doTX ctx fn true opts s).
Proof.
  intros Hst Hfn Hs. destruct (new_tx_spec ctx true s) as (b & s0 & E0 & Hr0 & Hv0 & Hf0 & Hd0 & _ & Ho0).
  unfold doTX. rewrite (bind_Return _ _ _ _ _ E0). specialize (Hfn b s0 _ Ho0 Hr0 Hv0 Hf0 Hs).
  destruct (fn b s0) as [o s1] eqn:Ef. destruct Hfn as [Hd1 Hfn].
  assert (HC : called s true fn b o s1) by (exists s0; split_and!; [done|done|done|done|congruence]).
  assert (Hd1' : data s1 = data s) by congruence.
  destruct o as [app| | |];
    [|rewrite (defer_crash _ _ _ _ _ _ _ _ Ef) by done..]; 
    [destruct Hfn as (Hr1 & Hf1 & v & Hv1); [done..|]|destruct Hfn as [Hr1 _]; [done..|]| |].
  - destruct (is_nil app) eqn:En.
    + apply is_nil_true in En as ->. destruct (badger_commit_phase ctx b s1 v Hst Hr1 Hv1 Hf1)
        as (err & s2 & E2 & Hd2 & Hr2 & Ho2).
      rewrite (defer_at _ _ (if negb (is_nil err)
        then _ ← OnRollbackOption_Invoke opts; mret (WrapError ErrCommitFailed err)
        else _ ← AfterCommitOption_Invoke opts; mret ENil) s0 s2).
      * destruct (is_nil err) eqn:Ee; cbn [negb].
        -- by eapply wo_committed.
        -- eapply wo_commit_failed; [done|by apply is_nil_false| |done|done]. congruence.
      * unfold run_tx. rewrite (bind_Return _ _ _ _ _ Ef). cbn [negb is_nil].
        rewrite <-bind_assoc. by rewrite (bind_Return _ _ _ _ _ E2).
    + destruct (rollback_bind b s1 (_ ← OnRollbackOption_Invoke opts; mret app) Hr1)
        as (s2 & E2 & Hd2 & Hr2 & Ho2).
      rewrite (defer_at _ _ (_ ← OnRollbackOption_Invoke opts; mret app) s0 s2).
      * eapply wo_rolled_back; [done|by apply is_nil_false| |done|done]. congruence.
      * unfold run_tx. rewrite (bind_Return _ _ _ _ _ Ef). cbn [negb]. rewrite En. exact E2.
  - destruct (rollback_bind b s1 (panic (A := error)) Hr1) as (s2 & -> & Hd2 & Hr2 & Ho2).
    eapply wo_panics; [done| |done|done]. congruence.
  - eapply wo_hangs; [done|by left].
  - eapply wo_hangs; [done|by right].
Qed.

(** C15: a write transaction refines the protocol. There is no lock to wait for and no error
    before [fn] is called: [fn] is called once, in a fresh transaction. If it returns an
    error, or the context has expired or the commit fails after it, the committed data is
    what it was, and then the [OnRollback] functions are called and the error (of [fn];
    wrapped in [ErrCommitFailed]) is returned. Otherwise the committed data is what the
    transaction saw when [fn] returned, and then the [AfterCommit] functions are called and
    nil is returned. In all these cases and when [fn] panics, every iterator is closed
    before the transaction ends. *)
Theorem badger_write_protocol ctx fn opts s
    (Hst : sticky ctx) (Hfn : well_behaved true fn) (Hs : sorted (data s)) :
  write_outcome fn opts s (doTX ctx fn true opts s).
Proof. by apply badger_write_protocol_lemma; [|apply well_behaves|]. Qed.

Lemma badger_read_protocol_lemma ctx fn s :
  behaves (open_db s) false fn → sorted (data s) →
  read_outcome fn s (doTX ctx fn false [] s).
Proof.
  intros Hfn Hs.
  destruct (new_tx_spec ctx false s) as (b & s0 & E0 & Hr0 & Hv0 & Hf0 & Hd0 & _ & Ho0).
  unfold doTX. rewrite (bind_Return _ _ _ _ _ E0). specialize (Hfn b s0 _ Ho0 Hr0 Hv0 Hf0 Hs).
  destruct (fn b s0) as [o s1] eqn:Ef. destruct Hfn as [Hd1 Hfn].
  assert (HC : called s false fn b o s1) by (exists s0; split_and!; [done|done|done|done|congruence]).
  assert (Hd1' : data s1 = data s) by congruence.
  destruct o as [app| | |];
    [|rewrite (defer_crash _ _ _ _ _ _ _ _ Ef) by done..]; 
    [destruct Hfn as [Hr1 _]; [done..|]|destruct Hfn as [Hr1 _]; [done..|]| |].
  - destruct (rollback_bind b s1 (mret app) Hr1) as (s2 & E2 & Hd2 & Hr2 & Ho2).
    destruct (defer_rollback b (run_tx ctx fn false [] b) s0 app s2) as (s' & -> & Hd & Hr' & Ho');
      [|done|eapply ro_ends; [done| |done|]; congruence].
    unfold run_tx. rewrite (bind_Return _ _ _ _ _ Ef). exact E2.
  - destruct (rollback_bind b s1 (panic (A := error)) Hr1) as (s2 & -> & Hd2 & Hr2 & Ho2).
    eapply ro_ends; [done| |done|]; congruence.
  - eapply ro_hangs; [done|by left].
  - eapply ro_hangs; [done|by right].
Qed.

(** a read transaction ends as [fn] does, with the committed data untouched and, unless
    [fn] hangs, the transaction discarded and its iterators closed. *)
Theorem badger_read_protocol ctx fn s (Hfn : well_behaved false fn) (Hs : sorted (data s)) :
  read_outcome fn s (doTX ctx fn false [] s).
Proof. apply badger_read_protocol_lemma; [by apply well_behaves|done]. Qed.

(** ** Clients *)

(** The database is open, the shelf of [t] holds [it], and the shelves whose names are not related to [t]'s hold
    what they do in [v0]. *)
Definition backed t (v0 : items) s (it : items) : Prop :=
  ready (shelf_tx t) s ∧ open_db s = true ∧ ∃ v, live (shelf_tx t) s true v ∧ sorted v ∧
    shelf_view (name t) v = it ∧
    ∀ n, unrelated (name t) n → shelf_view n v = shelf_view n v0.

Definition same_committed s s' : Prop := data s' = data s.
#[global] Instance same_committed_preorder : PreOrder same_committed.
Proof. split; [done|]. intros s1 s2 s3 H1 H2. unfold same_committed in *. congruence. Qed.

(** Writes may fail with any error of Badger's, reads with any but its [ErrKeyNotFound]. *)
Definition badger_write_fails (e : error) : Prop := True.
Definition badger_read_fails (e : error) : Prop := errors_Is e badger_ErrKeyNotFound = false.
Abbreviation client_spec := (client_spec badger_write_fails badger_read_fails None).

Lemma backed_write t v0 it f m s :
  backed t v0 s it → keeps (inside (shelf_tx t)) m →
  (∀ v, live (shelf_tx t) s true v → sorted v → write_result t s v f m) →
  ∃ e s', m s = (Return e, s') ∧ same_committed s s' ∧
    ((e = ENil ∧ backed t v0 s' (f it)) ∨
     (e ≠ ENil ∧ badger_write_fails e ∧ backed t v0 s' it)).
Proof.
  intros (Hr & Hop & v & Hv & Hs & Hp & Hn) Hk HW. specialize (Hk s).
  destruct (HW v Hv Hs) as (e & s' & v' & E & Hd & _ & Hr' & Hv' & Hs' & HC).
  rewrite E in Hk. apply inside_open in Hk. cbn [snd] in Hk. rewrite <-Hk in Hop.
  exists e, s'. split_and!; [done|done|]. destruct (is_nil e) eqn:En.
  - left. apply is_nil_true in En. split; [done|]. split; [by apply Hr'|].
    split; [done|]. exists v'. destruct HC as [-> HC]. split_and!; [done|done|by rewrite Hp|].
    intros n Hu. by rewrite HC, Hn.
  - right. subst v'. split; [by apply is_nil_false|]. split; [done|].
    split; [by apply Hr'|]. split; [done|]. by exists v.
Qed.

#[global] Instance badger_Backed fuel t v0 :
  Backed badger_write_fails badger_read_fails None (as_Writer fuel t) (backed t v0) same_committed.
Proof.
  split.
  - apply _.
  - intros k it s (Hr & Hop & v & Hv & Hs & Hp & Hn). pose proof (inside_Get t k s) as Hin.
    destruct (badger_Get_spec t k s true v Hv) as (r & s' & E & (Hsd & Ht & _) & HC).
    rewrite E in Hin. apply inside_open in Hin.
    destruct Hsd as (H1 & H2 & H3). exists r, s'. split; [exact E|].
    assert (Hb : backed t v0 s' it).
    { split; [eapply ready_same; [exact Hr|done|auto]|]. split; [by rewrite <-Hop|]. exists v. unfold live. by rewrite H2. }
    split_and!; [done|done|]. rewrite Hp in HC. unfold get_result.
    destruct HC as [(x & -> & ->)|[(-> & ->)|(e & He & Hi & ->)]]; [by left..|right; eauto].
  - intros it s (Hr & Hop & v & Hv & Hs & Hp & Hn). pose proof (inside_Empty t s) as Hin.
    destruct (badger_Empty_spec t s true v Hr Hv Hs Hop) as (s' & E & Hr' & Hv' & Hd & _).
    rewrite E in Hin. apply inside_open in Hin. rewrite Hp in E. eexists _, s'.
    split_and!; [exact E|split; [done|split; [by rewrite <-Hop|by exists v]]|done
      |apply empty_answer_exact].
  - intros k x it s Hb. eapply backed_write; [exact Hb|apply inside_Put|]. intros.
    by apply badger_Put_spec.
  - intros k it s Hb. eapply backed_write; [exact Hb|apply inside_Delete|]. intros.
    by apply badger_Delete_spec.
Qed.

Lemma shelf_client fuel name c b s v :
  ready b s → live b s true v → sorted v → open_db s = true →
  ∃ e s' it, run_client (tx_GetShelfWriter fuel b name) c s = (Return e, s') ∧
    client_spec c (shelf_view name v) e it ∧ backed (mkShelf (tx_ctx b) name b) v s' it ∧
    data s' = data s.
Proof.
  intros Hr Hv Hs Hop. set (t := mkShelf (tx_ctx b) name b).
  assert (Hb : backed t v s (shelf_view name v)) by (split_and!; [done|done|]; by exists v).
  destruct (run_client_refines _ _ _ (as_Writer fuel t) _ _ c _ _ Hb)
    as (e & s' & it & E & Hsp & Hb' & Hf).
  by exists e, s', it.
Qed.

Lemma badger_client_behaves fuel n c :
  behaves true true (λ b, run_client (tx_GetShelfWriter fuel b n) c).
Proof.
  intros b s0 v Hop [Hr Hm] Hv Hf Hsv.
  pose proof (keeps_run_client _ _ c (inside_writer fuel (mkShelf (tx_ctx b) n b)) s0) as Hin.
  destruct (shelf_client fuel n c b s0 v Hr Hv Hsv Hop) as (e & s' & it & E & _ & Hb & Hd).
  unfold tx_GetShelfWriter in *. rewrite E in *.
  split; [done|]. destruct Hb as (Hr' & _ & v' & Hv' & _). intros _ _.
  split_and!; [eapply inside_settled; [exact Hin|by split|done]|by eapply inside_fresh|eauto].
Qed.

Lemma badger_WriteShelf_cases fuel ctx n c s :
  sticky ctx → sorted (data s) → open_db s = true →
  ∃ e s', store_WriteShelf fuel ctx n (λ w, run_client w c) s = (Return e, s') ∧
    open_db s' = true ∧
    (e ≠ ENil → data s' = data s) ∧
    (e = ENil →
      client_spec c (shelf_view n (data s)) ENil (shelf_view n (data s')) ∧
      sorted (data s') ∧
      ∀ m, unrelated n m → shelf_view m (data s') = shelf_view m (data s)).
Proof.
  intros Hst Hs Hop.
  set (fn := λ b : tx, run_client (tx_GetShelfWriter fuel b n) c).
  assert (HC : ∀ b o s1, called s true fn b o s1 → ∃ e it, o = Return e ∧
    client_spec c (shelf_view n (data s)) e it ∧ backed (mkShelf (tx_ctx b) n b) (data s) s1 it).
  { intros b o s1 (s0 & [Hr _] & Hv & Ho & E & _). rewrite Hop in Ho.
    destruct (shelf_client fuel n c b s0 _ Hr Hv Hs Ho) as (e & s' & it & E' & Hsp & Hb & _).
    unfold fn in E. rewrite E' in E. injection E as <- <-. eauto. }
  assert (Hfn : behaves (open_db s) true fn) by (rewrite Hop; apply badger_client_behaves).
  pose proof (badger_write_protocol_lemma ctx fn [] s Hst Hfn Hs) as HO.
  change (store_WriteShelf fuel ctx n (λ w, run_client w c) s) with (doTX ctx fn true [] s).
  destruct HO as [b o s' Hc Ho|b s1 s' Hc _ _ _
    |b e s1 s2 Hc He Hd Hr Ho|b e s1 s2 Hc He Hd Hr Ho|b v s1 s2 Hc Hv Hd Hr Ho];
    destruct (HC _ _ _ Hc) as (e' & it & Eo & Hsp & Hb).
  - by destruct Ho; subst.
  - done.
  - destruct (defer_rollback b (_ ← OnRollbackOption_Invoke []; mret e) s2 e s2 eq_refl Hr)
      as (s' & -> & Hd' & _ & Ho').
    exists e, s'. split_and!; [done|by rewrite Ho', Ho; apply Hb|congruence|done].
  - destruct (defer_rollback b (_ ← OnRollbackOption_Invoke []; mret (WrapError ErrCommitFailed e))
      s2 _ s2 eq_refl Hr) as (s' & -> & Hd' & _ & Ho').
    eexists _, s'. split_and!; [done|by rewrite Ho', Ho; apply Hb|congruence|done].
  - destruct (defer_rollback b (_ ← AfterCommitOption_Invoke []; mret ENil) s2 _ s2 eq_refl Hr)
      as (s' & -> & Hd' & _ & Ho').
    exists ENil, s'. split_and!; [done|by rewrite Ho', Ho; apply Hb|done|]. intros _.
    injection Eo as <-. destruct Hb as (_ & _ & v' & Hv' & Hsv & Hp & Hn).
    assert (v' = v) as -> by (unfold live in *; cbn in Hv'; congruence).
    rewrite Hd', Hd. cbn in Hp. by rewrite Hp.
Qed.

(** C14: atomicity and functional correctness for clients. On an open database [WriteShelf]
    with a client program always returns, and the database is still open. With nil, the shelf holds what the abstract store gets when the program
    runs on its previous pairs and returns nil, and the shelves whose names are no prefix or
    extension of the shelf's are unchanged; with an error, nothing has changed. *)
Theorem badger_WriteShelf_atomic fuel ctx n c s (Hst : sticky ctx) (Hs : sorted (data s))
    (Hop : open_db s = true) :
  ∃ e s', store_WriteShelf fuel ctx n (λ w, run_client w c) s = (Return e, s') ∧
    open_db s' = true ∧
    (e ≠ ENil → data s' = data s) ∧
    (e = ENil →
      client_spec c (shelf_view n (data s)) ENil (shelf_view n (data s')) ∧
      sorted (data s') ∧
      ∀ m, unrelated n m → shelf_view m (data s') = shelf_view m (data s)).
Proof. by apply badger_WriteShelf_cases. Qed.

(** *** Readers *)

(** The database is open, and the shelf of [t] shows [it] in its read transaction. *)
Definition shows t (v : items) s (it : items) : Prop :=
  ready (shelf_tx t) s ∧ open_db s = true ∧ live (shelf_tx t) s false v ∧ sorted v ∧ shelf_view (name t) v = it.

#[global] Instance badger_Serves fuel t v :
  Serves badger_read_fails (as_Reader fuel t) (shows t v) same_committed.
Proof.
  split; [apply _|..].
  - intros k it s (Hr & Hop & Hv & Hs & Hp). pose proof (inside_Get t k s) as Hin.
    destruct (badger_Get_spec t k s false v Hv) as (r & s' & E & (Hsd & Ht & _) & HC).
    rewrite E in Hin. apply inside_open in Hin.
    destruct Hsd as (H1 & H2 & H3). exists r, s'. split; [exact E|].
    assert (Hsh : shows t v s' it).
    { split_and!; [eapply ready_same; [exact Hr|done|auto]|by rewrite <-Hop|
        unfold live; by rewrite H2|done|done]. }
    split_and!; [done|done|].
    rewrite Hp in HC. unfold get_result.
    destruct HC as [(x & -> & ->)|[(-> & ->)|(e & He & Hi & ->)]]; [by left..|right; eauto].
  - intros it s (Hr & Hop & Hv & Hs & Hp). pose proof (inside_Empty t s) as Hin.
    destruct (badger_Empty_spec t s false v Hr Hv Hs Hop) as (s' & E & Hr' & Hv' & Hd & _).
    rewrite E in Hin. apply inside_open in Hin. rewrite Hp in E. exists s'.
    split; [done|]. split; [|done]. split_and!; [done|by rewrite <-Hop|done..].
Qed.

(** On an open database [ReadShelf] with a query always returns. *)
Lemma badger_ReadShelf_cases fuel ctx n q s :
  sorted (data s) → open_db s = true →
  ∃ e s', store_ReadShelf fuel ctx n (λ r, run_query r q) s = (Return e, s') ∧
    data s' = data s ∧ open_db s' = true ∧ query_spec badger_read_fails (shelf_view n (data s)) q e.
Proof.
  intros Hs Hop. set (fn := λ b : tx, run_query (tx_GetShelfReader fuel b n) q).
  assert (HQ : ∀ b s0 v, ready b s0 → live b s0 false v → sorted v → open_db s0 = true →
    ∃ e s1, fn b s0 = (Return e, s1) ∧ data s1 = data s0 ∧ open_db s1 = true ∧ ready b s1 ∧ live b s1 false v ∧
      query_spec badger_read_fails (shelf_view n v) q e).
  { intros b s0 v Hr Hv Hsv Ho. set (t := mkShelf (tx_ctx b) n b).
    destruct (run_query_refines _ (as_Reader fuel t) (shows t v) _ q (shelf_view n v) s0)
      as (e & s1 & E & Hq & (Hr1 & Ho1 & Hv1 & _) & Hd); [by split_and!|]. by exists e, s1. }
  assert (Hfn : behaves (open_db s) false fn).
  { rewrite Hop. intros b s0 v Ho [Hr Hm] Hv Hf Hsv.
    pose proof (keeps_run_query _ _ q (inside_reader fuel (mkShelf (tx_ctx b) n b)) s0) as Hin.
    destruct (HQ b s0 v Hr Hv Hsv Ho) as (e & s1 & E & Hd & _ & Hr1 & Hv1 & _).
    unfold fn, tx_GetShelfReader, getBucket in *. rewrite E in *.
    split; [done|]. intros _ _.
    split_and!; [eapply inside_settled; [exact Hin|by split|done]|by eapply inside_fresh|eauto]. }
  change (store_ReadShelf fuel ctx n (λ r, run_query r q) s) with (doTX ctx fn false [] s).
  destruct (badger_read_protocol_lemma ctx fn s Hfn Hs)
    as [b o s1 s' (s0 & [Hr _] & Hv & Ho0 & E & _) Hd _ Ho1
       |b o s' (s0 & [Hr _] & Hv & Ho0 & E & _) Ho]; rewrite Hop in Ho0;
    destruct (HQ b s0 _ Hr Hv Hs Ho0) as (e & s2 & E' & _ & Ho2 & _ & _ & Hq);
    rewrite E in E'; injection E' as -> ->.
  - exists e, s'. split_and!; [done|done|by rewrite Ho1|done].
  - by destruct Ho.
Qed.
End protocol.
