(* ===== verification/BadgerProgram.v ===== *)
(** Programs on several shelves in a transaction of badger/badger.go: [Write], with its options,
    and [Read]. *)
From S2P Require Import Prelude Errors Keys Go Store Lock Timeout Shelf Prefix Client Program Contract.
From S2P Require Import Badger BadgerSpec BadgerFacts BadgerShelf BadgerFrame BadgerTx.

Section programs.
Context `{BS : BadgerSpec} {W : Type} `{!Env W, !CallScheduler W}.
Context (fuel : nat).
Implicit Types (s : St store W) (b : tx (W := W)) (v : items) (σ : shelves).
Abbreviation M := (M store W).

(** The shelves in use: no name is a prefix of another. *)
Context (names : bytes → Prop).
Hypothesis separate : ∀ n m, names n → names m → n ≠ m → unrelated n m.

(** Every shelf can be opened. *)
Definition badger_open_fails (e : error) : Prop := False.
Abbreviation program_spec :=
  (program_spec badger_open_fails badger_write_fails badger_read_fails None ∅).
Abbreviation inquiry_spec := (inquiry_spec badger_read_fails).

(** The pairs under the names in use are the shelves [σ]. *)
Definition views v σ : Prop := sorted v ∧ ∀ n, names n → shelf_view n v = σ n.

Lemma views_write v v' σ n it :
  names n → views v σ → sorted v' → shelf_view n v' = it →
  (∀ m, unrelated n m → shelf_view m v' = shelf_view m v) → views v' (set_shelf n it σ).
Proof.
  intros Hn [_ Hσ] Hs Hit Ho. split; [done|]. intros m Hm. unfold set_shelf.
  case_bool_decide as Hmn; [by subst|]. rewrite Ho by auto. by apply Hσ.
Qed.

(** The transaction [b] of the open database shows the shelves [σ]. *)
Definition seen b (w : bool) s σ : Prop :=
  ready b s ∧ open_db s = true ∧ ∃ v, live b s w v ∧ views v σ.

Definition writer_in b s (n : bytes) (r : option error) (w : Writer store W) : Prop :=
  r = None ∧ w = as_Writer fuel (mkShelf (tx_ctx b) n b).

Lemma write_seen b n s σ f m :
  names n → seen b true s σ → keeps (inside b) m →
  (∀ v, live b s true v → sorted v → write_result (mkShelf (tx_ctx b) n b) s v f m) →
  ∃ e it s', m s = (Return e, s') ∧ seen b true s' (set_shelf n it σ) ∧ inside b s s' ∧
    writes badger_write_fails None (σ n) (f (σ n)) e it.
Proof.
  intros Hn (Hr & Hop & v & Hv & Hσ) Hk HW. specialize (Hk s).
  destruct (HW v Hv (proj1 Hσ)) as (e & s' & v' & E & Hd & _ & Hr' & Hv' & Hs' & HC).
  rewrite E in Hk. pose proof (inside_open _ _ _ Hk) as Ho'. cbn [snd] in Ho'.
  rewrite <-Ho' in Hop. cbn in HC. exists e. destruct (is_nil e) eqn:En.
  - apply is_nil_true in En as ->. destruct HC as [HC Ho].
    exists (f (σ n)), s'. split_and!; [done| |done|by left].
    split; [by apply Hr'|]. split; [done|]. exists v'. split; [done|].
    eapply views_write; [done..| |done].
    by rewrite HC, (proj2 Hσ).
  - apply is_nil_false in En. subst v'. exists (σ n), s'. split_and!; [done| |done|by right].
    split; [by apply Hr'|]. split; [done|]. exists v. split; [done|].
    eapply views_write; [done..|by apply Hσ|done].
Qed.

(** Reading in a transaction, whether it is writable or not. *)
Lemma Get_seen b n w s σ k :
  names n → seen b w s σ →
  ∃ x s', badgerShelf_Get (mkShelf (tx_ctx b) n b) k s = (Return x, s') ∧ seen b w s' σ ∧
    inside b s s' ∧ gets badger_read_fails None k (σ n) x.
Proof.
  intros Hn (Hr & Ho & v & Hv & Hσ). pose proof (inside_Get (mkShelf (tx_ctx b) n b) k s) as Hk.
  destruct (badger_Get_spec (mkShelf (tx_ctx b) n b) k s w v Hv)
    as (x & s' & E & ((_ & H2 & H3) & Ht & _) & HC).
  rewrite E in Hk. pose proof (inside_open _ _ _ Hk) as Ho'. exists x, s'.
  split_and!; [done| |done|].
  - split; [eapply ready_same; [exact Hr|done|auto]|]. split; [by rewrite <-Ho|].
    exists v. unfold live. by rewrite H2.
  - cbn in *. rewrite (proj2 Hσ n Hn) in HC. unfold get_result.
    destruct HC as [(y & -> & ->)|[(-> & ->)|(e & He & Hi & ->)]]; [by left..|right; eauto].
Qed.

Lemma Empty_seen b n w s σ :
  names n → seen b w s σ →
  ∃ s', badgerShelf_Empty (mkShelf (tx_ctx b) n b) s = (Return (bool_decide (σ n = []), ENil), s') ∧
    seen b w s' σ ∧ inside b s s'.
Proof.
  intros Hn (Hr & Ho & v & Hv & Hσ). pose proof (inside_Empty (mkShelf (tx_ctx b) n b) s) as Hk.
  destruct (badger_Empty_spec (mkShelf (tx_ctx b) n b) s w v Hr Hv (proj1 Hσ) Ho)
    as (s' & E & Hr' & Hv' & _ & _).
  rewrite E in Hk. pose proof (inside_open _ _ _ Hk) as Ho'. cbn in E. rewrite (proj2 Hσ n Hn) in E. exists s'.
  split_and!; [done| |done]. split; [done|]. split; [by rewrite <-Ho|]. by exists v.
Qed.

#[global] Instance badger_BackedTx b :
  BackedTx badger_open_fails badger_write_fails badger_read_fails None (as_WriteTx fuel b)
    names (seen b true) (writer_in b) (inside b).
Proof.
  split; [split|..].
  - apply _.
  - by intros n r w s s'.
  - intros n σ s Hn Hs. exists (as_Writer fuel (mkShelf (tx_ctx b) n b)), None, s. by split_and!.
  - intros n r w k σ s Hn Hs [-> ->]. by apply Get_seen.
  - intros n r w σ s Hn Hs [-> ->]. destruct (Empty_seen b n true s σ Hn Hs) as (s' & E & H1 & H2).
    exists (bool_decide (σ n = []), ENil), s'. split_and!; [done..|].
    eexists. split; [done|apply empty_answer_exact].
  - intros n r w k x σ s Hn Hs [-> ->].
    apply (write_seen b n s σ (items_insert (Bytes k) x)); [done|done| |].
    + apply inside_badger. intros. apply within_Set.
    + intros v Hv Hsv. by apply badger_Put_spec.
  - intros n r w k σ s Hn Hs [-> ->].
    apply (write_seen b n s σ (items_delete (Bytes k))); [done|done| |].
    + apply inside_badger. intros. apply within_Delete.
    + intros v Hv Hsv. by apply badger_Delete_spec.
Qed.

#[global] Instance badger_ServesTx b :
  ServesTx badger_read_fails (as_ReadTx fuel b) names (seen b false)
    (λ n r, r = as_Reader fuel (mkShelf (tx_ctx b) n b)) (inside b).
Proof.
  split.
  - apply _.
  - intros n σ s Hn Hs. by eexists _, s.
  - intros n r k σ s Hn Hs ->. by apply Get_seen.
  - intros n r σ s Hn Hs ->. by apply Empty_seen.
Qed.

(** ** Callbacks *)

Definition program_callback p : tx → M error := λ b, run_program (as_WriteTx fuel b) ∅ p.
Definition inquiry_callback i : tx → M error := λ b, run_inquiry (as_ReadTx fuel b) ∅ i.

Lemma badger_program_run p b s v σ :
  program_on names p → ready b s → open_db s = true → live b s true v → views v σ →
  ∃ e s' σ' v', program_callback p b s = (Return e, s') ∧ program_spec σ p e σ' ∧
    inside b s s' ∧ ready b s' ∧ live b s' true v' ∧ views v' σ'.
Proof.
  intros Hp Hr Ho Hv Hσ. destruct (run_program_refines _ _ _ _ (as_WriteTx fuel b) names (seen b true)
    (writer_in b) (inside b) p ∅ ∅ σ s Hp) as (e & σ' & s' & E & Hsp & (Hr' & _ & v' & Hv' & Hσ') & Hi).
  - split_and!; [done|done|]. by exists v.
  - apply kept_none.
  - by exists e, s', σ', v'.
Qed.

Lemma badger_inquiry_run i b s v σ :
  inquiry_on names i → ready b s → open_db s = true → live b s false v → views v σ →
  ∃ e s' v', inquiry_callback i b s = (Return e, s') ∧ inquiry_spec σ i e ∧ inside b s s' ∧
    ready b s' ∧ live b s' false v'.
Proof.
  intros Hi Hr Ho Hv Hσ. destruct (run_inquiry_refines _ (as_ReadTx fuel b) names (seen b false)
    _ (inside b) i ∅ σ s Hi) as (e & s' & E & Hsp & (Hr' & _ & v' & Hv' & _) & Hin).
  - split_and!; [done|done|]. by exists v.
  - apply kept_readers_none.
  - by exists e, s', v'.
Qed.

(** What the shelves in use hold in a view. *)
Definition shelves_in v : shelves := λ n, shelf_view n v.
Lemma views_shelves v : sorted v → views v (shelves_in v).
Proof. by split. Qed.

Lemma badger_program_behaves p : program_on names p → behaves true true (program_callback p).
Proof.
  intros Hp b s v Ho [Hr Hm] Hv Hf Hs.
  destruct (badger_program_run p b s v _ Hp Hr Ho Hv (views_shelves v Hs))
    as (e & s' & σ' & v' & E & _ & Hin & Hr' & Hv' & _).
  rewrite E. split; [apply Hin|]. intros _ _.
  split_and!; [eapply inside_settled; [exact Hin|by split|done]|by eapply inside_fresh|eauto].
Qed.

Lemma inquiry_behaves i : inquiry_on names i → behaves true false (inquiry_callback i).
Proof.
  intros Hi b s v Ho [Hr Hm] Hv Hf Hs.
  destruct (badger_inquiry_run i b s v _ Hi Hr Ho Hv (views_shelves v Hs))
    as (e & s' & v' & E & _ & Hin & Hr' & Hv').
  rewrite E. split; [apply Hin|]. intros _ _.
  split_and!; [eapply inside_settled; [exact Hin|by split|done]|by eapply inside_fresh|eauto].
Qed.

(** ** Calls *)

(** The database is open, and its shelves in use are [σ]. *)
Definition badger_holding s σ : Prop := open_db s = true ∧ views (data s) σ.

(** A function that leaves the transactions alone that have been made before, and does not
    close the store. *)
Definition badger_polite (fn : M ()) : Prop :=
  ∀ b s s', fn s = (Return (), s') → sorted (data s) → open_db s = true → settled b s →
    settled b s' ∧ sorted (data s') ∧ open_db s' = true.

Lemma call_all_polite fns b s s' :
  Forall badger_polite fns → call_all fns s = (Return (), s') → sorted (data s) →
  open_db s = true → settled b s → settled b s' ∧ sorted (data s') ∧ open_db s' = true.
Proof.
  intros Hf. revert s. induction Hf as [|fn fns Hfn _ IH]; intros s; [by intros [= <-] ?|].
  change (call_all (fn :: fns)) with (fn ≫= λ _, call_all fns). unfold mbind, M_bind.
  destruct (fn s) as [[[]| | |] s1] eqn:E; try done. intros E2 Hs Ho Hb.
  destruct (Hfn b s s1 E Hs Ho Hb) as (? & ? & ?). by eapply IH.
Qed.

(** The functions of the options, and the deferred rollback. *)
Lemma ends_with_defer b fns (P : error → Prop) s e :
  Forall badger_polite fns → sorted (data s) → open_db s = true → settled b s → P e →
  ends_with badger_holding fns P s (defer (rollback b) (_ ← call_all fns; mret e) s).
Proof.
  intros Hf Hsd Hop Hs HP. unfold ends_with. destruct (call_all fns s) as [o s2] eqn:E.
  destruct o as [[]| | |].
  - destruct (defer_rollback b (_ ← call_all fns; mret e) s e s2) as (s' & -> & Hd & _ & Ho).
    + by rewrite (bind_Return _ _ _ _ _ E).
    + by apply (call_all_polite fns b s s2).
    + exists e, s'. split_and!; [done|done|]. intros σ. unfold badger_holding.
      by rewrite Hd, Ho.
  - intros e'. unfold defer, mbind, M_bind. rewrite E. by destruct (rollback b s2) as [[| | |] ?].
  - intros e'. unfold defer, mbind, M_bind. by rewrite E.
  - intros e'. unfold defer, mbind, M_bind. by rewrite E.
Qed.

#[global] Instance badger_Transacts ctx (Hst : sticky ctx) :
  Transacts (Wrap fuel) ctx (program_on names) badger_polite badger_holding
    badger_open_fails badger_write_fails badger_read_fails true false false.
Proof.
  intros p opts s σ Hp Hac Hrb [Hop Hσ]. right. cbn [Write Wrap].
  change (store_Write fuel ctx _ opts) with (doTX ctx (program_callback p) true opts).
  assert (HC : ∀ b o s1, called s true (program_callback p) b o s1 → ∃ e σ' v', o = Return e ∧
    program_spec σ p e σ' ∧ open_db s1 = true ∧ live b s1 true v' ∧ views v' σ').
  { intros b o s1 (s0 & [Hr _] & Hv & Ho & E & _). rewrite Hop in Ho.
    destruct (badger_program_run p b s0 _ σ Hp Hr Ho Hv Hσ)
      as (e & s' & σ' & v' & E' & Hsp & Hin & _ & Hv' & Hσ').
    rewrite E in E'. injection E' as -> ->. exists e, σ', v'.
    split_and!; [done|done|by rewrite (inside_open _ _ _ Hin)|done|done]. }
  assert (HH : ∀ s1 s', open_db s1 = true → open_db s' = open_db s1 → data s' = data s →
    badger_holding s' σ).
  { intros s1 s' H1 H2 Hd. unfold badger_holding. by rewrite Hd, H2. }
  assert (Hbh : behaves (open_db s) true (program_callback p))
    by (rewrite Hop; by apply badger_program_behaves).
  destruct (badger_write_protocol_lemma ctx (program_callback p) opts s Hst
    Hbh (proj1 Hσ))
    as [b o s' Hca Ho|b s1 s' Hca _ _ _|b e s1 s2 Hca He Hd Hr Ho2|b e s1 s2 Hca He Hd Hr Ho2
       |b v s1 s2 Hca Hv Hd Hr Ho2];
    destruct (HC _ _ _ Hca) as (e' & σ' & v' & Eo & Hsp & Ho1 & Hv' & Hσ').
  - by destruct Ho; subst.
  - done.
  - injection Eo as <-. eexists Undone, _, σ, s2. split; [by eapply ts_rolled_back|].
    split; [by eapply HH|]. rewrite OnRollback_Invoke_eq.
    apply ends_with_defer; [done|rewrite Hd; apply Hσ|by rewrite Ho2|done..].
  - injection Eo as <-. eexists Undone, _, σ, s2. split; [by eapply ts_failed|].
    split; [by eapply HH|]. rewrite OnRollback_Invoke_eq.
    apply ends_with_defer; [done|rewrite Hd; apply Hσ|by rewrite Ho2|done|].
    split; [done|apply commit_failed_database].
  - injection Eo as <-. eexists Committed, _, σ', s2. split; [by apply ts_committed|].
    assert (v' = v) as -> by (unfold live in *; congruence).
    rewrite AfterCommit_Invoke_eq.
    split; [unfold badger_holding; by rewrite Hd, Ho2|].
    apply ends_with_defer; [done|rewrite Hd; apply Hσ'|by rewrite Ho2|done..].
Qed.

Lemma badger_Read_cases ctx i s σ :
  inquiry_on names i → badger_holding s σ →
  ∃ e s', store_Read fuel ctx (λ t, run_inquiry t ∅ i) s = (Return e, s') ∧ data s' = data s ∧
    open_db s' = true ∧ inquiry_spec σ i e.
Proof.
  intros Hi [Hop Hσ].
  assert (Hbh : behaves (open_db s) false (inquiry_callback i))
    by (rewrite Hop; by apply inquiry_behaves).
  change (store_Read fuel ctx (λ t, run_inquiry t ∅ i) s)
    with (doTX ctx (inquiry_callback i) false [] s).
  destruct (badger_read_protocol_lemma ctx (inquiry_callback i) s Hbh (proj1 Hσ))
    as [b o s1 s' (s0 & [Hr _] & Hv & Ho0 & E & _) Hd _ Ho1
       |b o s' (s0 & [Hr _] & Hv & Ho0 & E & _) Ho]; rewrite Hop in Ho0;
    destruct (badger_inquiry_run i b s0 _ σ Hi Hr Ho0 Hv Hσ) as (e & s2 & v' & E' & Hsp & Hin & _);
    rewrite E in E'; injection E' as -> ->.
  - exists e, s'. split_and!; [done|done| |done]. by rewrite Ho1, (inside_open _ _ _ Hin).
  - by destruct Ho.
Qed.
End programs.
