(* ===== verification/BadgerContract.v ===== *)
(** The Badger store keeps the contract of a [KVStore] while its database is open, on shelves
    with unrelated names. *)
From S2P Require Import Prelude Errors Keys Go Store Lock Timeout Shelf Prefix Client Program Contract.
From S2P Require Import Badger BadgerSpec BadgerFacts BadgerShelf BadgerTx BadgerProgram.

Section contract.
Context `{BS : BadgerSpec} {W : Type} `{!Env W, !CallScheduler W}.
Implicit Types (s : St store W) (σ : shelves).

(** The shelves in use: no name is a prefix of another. *)
Context (names : bytes → Prop).
Hypothesis separate : ∀ n m, names n → names m → n ≠ m → unrelated n m.

Definition badger_permits (a : call) : Prop :=
  match a with
  | Call_write n _ | Call_read n _ => names n
  | Call_transact p => program_on names p
  | Call_inquire i => inquiry_on names i
  end.

#[global] Instance badger_Conforms fuel ctx (Hst : sticky ctx) :
  Conforms (Wrap fuel) ctx badger_permits (badger_holding names)
    badger_open_fails badger_write_fails badger_read_fails true false false.
Proof.
  split; [|intros n c s σ Hn (_ & Hs & Hσ); rewrite <-(Hσ n Hn); by apply view_sorted].
  intros [n c|n q|p|i] s σ Hn HH; pose proof HH as (Hop & Hs & Hσ); [right|right|..|right];
    cbn [run_call WriteShelf ReadShelf Read Wrap].
  - destruct (badger_WriteShelf_cases fuel ctx n c s Hst Hs Hop)
      as (e & s' & E & Hop' & Hfail & Hok).
    rewrite (Hσ n Hn) in Hok. destruct (is_nil e) eqn:En.
    + apply is_nil_true in En as ->. destruct (Hok eq_refl) as (Hsp & Hs' & Ho).
      exists ENil, s', (set_shelf n (shelf_view n (data s')) σ).
      split_and!; [done|by apply call_committed|split; [done|split; [done|]]]. intros m Hm. unfold set_shelf.
      case_bool_decide as Hmn; [by subst|]. rewrite Ho by auto. by apply Hσ.
    + apply is_nil_false in En. exists e, s', σ.
      split_and!; [done|by apply call_failed|].
      unfold badger_holding, views. by rewrite (Hfail En), Hop'.
  - destruct (badger_ReadShelf_cases fuel ctx n q s Hs Hop) as (e & s' & E & Hd & Hop' & Hq).
    rewrite (Hσ n Hn) in Hq. exists e, s', σ.
    split_and!; [done|by apply call_read; left|].
    unfold badger_holding, views. by rewrite Hd, Hop'.
  - by apply (transacts_plain _ _ _ _ _ _ _ _ _ _ _
      (Transacts0 := badger_Transacts fuel names separate ctx Hst) p s σ).
  - destruct (badger_Read_cases fuel names ctx i s σ Hn HH) as (e & s' & E & Hd & Hop' & Hi).
    exists e, s', σ. split_and!; [done|by apply call_inquired; left|].
    unfold badger_holding, views. by rewrite Hd, Hop'.
Qed.
End contract.
