(* ===== verification/BadgerNested.v ===== *)
(** Calls of badger/badger.go's store while other transactions are open, as a function given as
    an option makes them: they leave those transactions alone. *)
From S2P Require Import Prelude Errors Keys Go Store Lock Timeout Shelf Prefix Client Program Contract.
From S2P Require Import Badger BadgerSpec BadgerFacts BadgerShelf BadgerFrame BadgerTx BadgerProgram.

Section nested.
Context `{BS : BadgerSpec} {W : Type} `{!Env W, !CallScheduler W}.
Implicit Types (s : St store W) (b : tx (W := W)).
Abbreviation M := (M store W).

#[local] Instance apart_preorder b : PreOrder (apart b).
Proof.
  split; [by intros s; split_and!; [split; [done|intros t _; apply same_txn_refl]|..]|].
  intros s1 s2 s3 ([H0 H1] & H2 & H3) ([K0 K1] & K2 & K3). split_and!; [|auto|].
  - split; [by rewrite K0|]. intros t Ht. eapply same_txn_trans; auto.
  - intros a Ha. by rewrite K3, H3.
Qed.

Lemma inside_apart b s s' : inside b s s' → apart b s s'.
Proof. intros [(_ & He & Hm & _) Ha]. by split_and!. Qed.

Lemma tick_apart b s w : apart b s (mkSt (back s) w).
Proof. by split_and!; [split; [done|intros t _; apply same_txn_refl]|..]. Qed.

(** Another transaction stays as it is. *)
Lemma apart_settled b b' s s' :
  apart b s s' → badgerTx b' ≠ badgerTx b → address b' ≠ address b → settled b' s → settled b' s'.
Proof.
  intros ([_ He] & _ & Ha) Ht Hb [(l & El & Hl) Hm]. destruct (He _ Ht) as (Hm' & _ & Ho).
  split; [|auto]. exists l. split; [by rewrite Ha|auto].
Qed.

(** A step of the protocol, which leaves the other transactions alone. *)
Definition proceeds {A} b (m : M A) s (P : A → St store W → Prop) : Prop :=
  ∃ a s', m s = (Return a, s') ∧ settled b s' ∧ apart b s s' ∧ P a s'.

Lemma rollback_proceeds b s : settled b s → proceeds b (rollback b) s (λ _ _, True).
Proof.
  intros [Hr Hm]. destruct (rollback_apart b s Hr) as (s' & E & Hr' & _ & _ & Ha).
  exists (), s'. split_and!; [done|split; [done|by apply Ha]|done|done].
Qed.

Lemma commit_proceeds b s v : settled b s → live b s true v → proceeds b (commit b) s (λ _ _, True).
Proof.
  intros [Hr Hm] Hv. unfold live, txn_state in Hv.
  destruct (txn_info (db (back s)) (badgerTx b)) as [i|] eqn:Ei; [|done]. injection Hv as Hw _.
  destruct (commit_apart b s i Hr Ei Hw) as (e & s' & E & Hr' & _ & Ha & _).
  exists e, s'. split_and!; [done|split; [done|by apply Ha]|done|done].
Qed.

Lemma proceeds_bind {A C} b (m : M A) (k : A → M C) s P Q :
  proceeds b m s P → (∀ a s', P a s' → settled b s' → proceeds b (k a) s' Q) →
  proceeds b (m ≫= k) s Q.
Proof.
  intros (a & s1 & E & Hs & Ha & HP) Hk. destruct (Hk a s1 HP Hs) as (c & s2 & E2 & Hs2 & Ha2 & HQ).
  exists c, s2. rewrite (bind_Return _ _ _ _ _ E). split_and!; [done|done|by etrans|done].
Qed.

Lemma proceeds_ret {A} b (a : A) s : settled b s → proceeds b (mret a) s (λ _ _, True).
Proof. intros Hs. exists a, s. split_and!; [done|done|reflexivity|done]. Qed.

Lemma proceeds_ctx b ctx s (P : error → St store W → Prop) :
  settled b s → (∀ e s', back s' = back s → P e s') → proceeds b (ctx_Err ctx) s P.
Proof.
  intros Hs HP. eexists _, _. split; [apply ctx_Err_run|].
  split_and!; [exact Hs|apply tick_apart|by apply HP].
Qed.

Lemma run_tx_proceeds ctx fn writable b s app s1 v :
  fn b s = (Return app, s1) → apart b s s1 → settled b s1 → live b s1 writable v →
  proceeds b (run_tx ctx fn writable [] b) s (λ _ _, True).
Proof.
  intros E Ha Hs Hv. unfold run_tx. eapply proceeds_bind with (P := λ a s', a = app ∧ s' = s1).
  { by exists app, s1. }
  intros _ _ [-> ->] _.
  assert (HR : proceeds b (_ ← rollback b; mret app) s1 (λ _ _, True)).
  { eapply proceeds_bind; [by apply rollback_proceeds|]. intros. by apply proceeds_ret. }
  destruct writable; [|exact HR]. cbn [negb]. destruct (is_nil app); [|exact HR].
  eapply (proceeds_bind _ _ _ _ (λ _ s', live b s' true v)); [apply proceeds_ctx; [done|]|].
  { intros e s' Eb. unfold live. by rewrite Eb. }
  intros e s2 Hv2 Hs2.
  eapply (proceeds_bind _ _ _ _ (λ _ _, True)); [|intros err s3 _ Hs3;
    destruct (negb (is_nil err)); by apply proceeds_ret].
  destruct (negb (is_nil e)); [|by eapply commit_proceeds].
  eapply (proceeds_bind _ _ _ _ (λ _ _, True)); [by apply proceeds_ctx|]. intros err s3 _ Hs3.
  eapply proceeds_bind; [by apply rollback_proceeds|]. intros. by apply proceeds_ret.
Qed.

(** A call without options leaves every transaction alone that has been made before it. *)
Lemma doTX_others ctx fn writable s e s' b' :
  behaves (open_db s) writable fn → (∀ b, keeps (inside b) (fn b)) → sorted (data s) →
  doTX ctx fn writable [] s = (Return e, s') → settled b' s → settled b' s'.
Proof.
  intros Hfn Hin Hs E Hb'.
  destruct (new_tx_run ctx writable s)
    as (b & s0 & E0 & Hr & _ & Hi & Hd & _ & Hn & Hm & [Ho He] & Ht & Hk).
  assert (Hne : badgerTx b' ≠ badgerTx b ∧ address b' ≠ address b).
  { destruct Hb' as [(l & El & _) Hm']. split; [intros Eb; by rewrite Eb in Hm'|].
    intros Eb. congruence. }
  assert (Hb0 : settled b' s0).
  { destruct Hb' as [(l & El & Hl) Hm']. destruct (He _ (proj1 Hne)) as (Hm0 & _ & Hop).
    split; [|auto]. exists l. rewrite Hk by eauto. auto. }
  assert (Hv : live b s0 writable (data s)) by (unfold live; by rewrite (info_txn_state _ _ _ Hi)).
  assert (Hf : fresh b s0) by (eexists; split; [exact Hi|by rewrite Hd]).
  unfold doTX in E. rewrite (bind_Return _ _ _ _ _ E0) in E.
  specialize (Hfn b s0 _ Ho (conj Hr Hm) Hv Hf Hs). specialize (Hin b s0).
  destruct (fn b s0) as [o s1] eqn:Ef. destruct Hfn as [_ Hfn].
  destruct o as [app| | |].
  2-4: exfalso; rewrite (defer_crash _ _ _ _ _ _ _ _ Ef) in E by done; try done.
  2:{ unfold mbind, M_bind in E. by destruct (rollback b s1) as [[| | |] ?]. }
  destruct Hfn as (Hs1 & _ & v & Hv1); [done..|].
  destruct (run_tx_proceeds ctx fn writable b s0 app s1 v Ef (inside_apart _ _ _ Hin) Hs1 Hv1)
    as (a & s2 & E2 & Hs2 & Ha2 & _).
  destruct (rollback_proceeds b s2 Hs2) as ([] & s3 & E3 & _ & Ha3 & _).
  unfold defer in E. rewrite E2, (bind_Return _ _ _ _ _ E3) in E. injection E as _ <-.
  eapply apart_settled; [etrans; [exact Ha2|exact Ha3]|apply Hne..|done].
Qed.

(** ** Functions that use the store *)

(** A function that makes the call [m], and may look at its result. *)
Lemma polite_call (m : M error) (k : error → M ()) :
  (∀ b s e s', m s = (Return e, s') → sorted (data s) → open_db s = true → settled b s →
     settled b s' ∧ sorted (data s') ∧ open_db s' = true) →
  (∀ e, badger_polite (k e)) → badger_polite (e ← m; k e).
Proof.
  intros Hm Hk b s s' E Hs Ho Hb. apply bind_inv in E as (e & s1 & E1 & E2).
  destruct (Hm b s e s1 E1 Hs Ho Hb) as (? & ? & ?). by apply (Hk e b s1).
Qed.

Lemma polite_ret : badger_polite (W := W) (mret ()).
Proof. by intros b s s' [= <-]. Qed.

(** A [WriteShelf] with a program is polite: an option may call it. *)
Lemma polite_WriteShelf fuel ctx n c k :
  sticky ctx → (∀ e, badger_polite (k e)) →
  badger_polite (e ← store_WriteShelf fuel ctx n (λ w, run_client w c); k e).
Proof.
  intros Hst. apply polite_call. intros b s e s' E Hs Ho Hb. split.
  - eapply (doTX_others ctx (λ b, run_client (tx_GetShelfWriter fuel b n) c) true);
      [rewrite Ho; apply badger_client_behaves| |exact Hs|exact E|done].
    intros b0. apply keeps_run_client; [apply _|apply (inside_writer fuel (mkShelf (tx_ctx b0) n b0))].
  - destruct (badger_WriteShelf_cases fuel ctx n c s Hst Hs Ho) as (e' & s1 & E' & Ho' & Hfail & Hok).
    rewrite E in E'. injection E' as <- <-. split; [|done]. destruct (is_nil e) eqn:En.
    + by apply Hok, is_nil_true.
    + by rewrite Hfail by (by apply is_nil_false).
Qed.
End nested.
