(* ===== verification/BadgerExamples.v ===== *)
(** The theorems on the Badger store at concrete inputs, with the in-memory library of
    BadgerSpec.v: a database with a shelf "s" of three uint32 keys, 1, 2 and 4. *)
From S2P Require Import Prelude Errors Keys Go Store Lock Timeout Shelf Prefix Client Program Contract.
From S2P Require Import Badger BadgerSpec BadgerFacts BadgerShelf BadgerTx BadgerProgram BadgerContract.
Import BadgerMem.

(** Time stands still, and a call is not overtaken by its timeout. *)
#[local] Instance still : Env () := λ w, w.
#[local] Instance prompt : CallScheduler () := λ _, [K_worker; K_rendezvous].

Definition key (n : N) : Key := Uint32Key n.
Definition three : items :=
  [(Bytes (key 1), #"one"); (Bytes (key 2), #"two"); (Bytes (key 4), #"four")].
Definition flat : items := (λ x, (#"s" ++ x.1, x.2)) <$> three.
Definition w0 : World () := mkWorld 0 ().
Definition start : St store () := mkSt (mkStore _ (mkMem flat ∅ 0 [] false false : DB) []) w0.
(** The state inside write transaction 0. *)
Definition inside : St store () :=
  mkSt (mkStore _ (mkMem flat {[ 0%nat := mkView true flat [] [] ]} 1 [] false false : DB)
          [mkTxObject _ [] unlocked]) w0.
Definition tx0 : tx (W := ()) := mkTx Background (0%nat : Txn) 0.
Definition shelf_named (n : bytes) : badgerShelf (W := ()) := mkShelf Background n tx0.
Definition shelf0 := shelf_named #"s".
Definition accept : CallerFn store () := λ _ _, mret ENil.

Lemma badger_background_sticky : sticky (@Background ()).
Proof. intros w. done. Qed.
Lemma flat_sorted : sorted flat.
Proof. repeat constructor. Qed.
Lemma inside_ready : ready tx0 inside.
Proof. exists []. split; [reflexivity|]. intros it (x & Hx & _). done. Qed.
Lemma inside_live : live tx0 inside true flat.
Proof. reflexivity. Qed.
Lemma accept_moves_no_iterator : moves_no_iterator accept.
Proof. intros it k x s. reflexivity. Qed.

Lemma badger_shelf_ops_witness :
  live tx0 inside true flat ∧
  (badgerShelf_Delete shelf0 (key 2) inside).1 = Return (Delete_error shelf0 (key 2) inside) ∧
  write_result shelf0 inside flat (items_delete (Bytes (key 2)))
    (badgerShelf_Delete shelf0 (key 2)).
Proof.
  split; [exact inside_live|].
  exact (proj2 (proj2 (badger_shelf_ops shelf0 (key 2) #"2" inside flat inside_live flat_sorted))).
Defined.

(** The shelves "s" and "sub": a key of the second is one of the first. *)
Lemma badger_shelves_overlap_witness :
  ∃ s', badgerShelf_Put (shelf_named #"sub") (BytesKey #"k") #"x" inside = (Return ENil, s') ∧
  ∃ v', live tx0 s' true v' ∧
    items_lookup (#"ub" ++ #"k") (shelf_view #"s" v') = Some #"x" ∧
    badgerShelf_key shelf0 (BytesKey (#"ub" ++ #"k")) =
      badgerShelf_key (shelf_named #"sub") (BytesKey #"k").
Proof.
  eexists. split; [reflexivity|].
  exact (badger_shelves_overlap shelf0 (shelf_named #"sub") #"ub" (BytesKey #"k") #"x" inside _ flat
    eq_refl eq_refl inside_live flat_sorted eq_refl).
Defined.

Lemma badger_Iterate_walk_witness :
  moves_no_iterator accept ∧
  ∃ it s2, entered shelf0 inside true flat it s2 ∧
    badgerShelf_Iterate 3 shelf0 accept (key 0) inside =
      defer (mutex_RUnlock tx0) (walk_items Background accept (key 0) it (shelf_view #"s" flat)) s2.
Proof.
  split; [exact accept_moves_no_iterator|].
  apply (badger_Iterate_walk shelf0 accept (key 0) 3 inside true flat inside_ready inside_live
    flat_sorted eq_refl accept_moves_no_iterator). exact (le_n 3).
Defined.

Lemma badger_Range_walk_witness :
  let l := items_range (Bytes (key 1)) (Bytes (key 9)) (shelf_view #"s" flat) in
  moves_no_iterator accept ∧
  (∀ x, x ∈ l ↔ x ∈ shelf_view #"s" flat ∧ bytes_le (Bytes (key 1)) x.1 ∧
     bytes_lt x.1 (Bytes (key 9))) ∧
  ∃ it s2, entered shelf0 inside true flat it s2 ∧
    badgerShelf_Range 3 shelf0 (key 1) (key 9) accept false inside =
      defer (mutex_RUnlock tx0) (walk_items Background accept (key 1) it l) s2.
Proof.
  intros l. split; [exact accept_moves_no_iterator|].
  apply (badger_Range_walk shelf0 (key 1) (key 9) accept 3 inside true flat inside_ready inside_live
    flat_sorted eq_refl accept_moves_no_iterator). exact (le_n 3).
Defined.

Lemma badger_Range_ignores_stopAtNil_witness :
  moves_no_iterator accept ∧
  badgerShelf_Range 3 shelf0 (key 1) (key 9) accept true inside =
    badgerShelf_Range 3 shelf0 (key 1) (key 9) accept false inside.
Proof.
  split; [exact accept_moves_no_iterator|].
  apply (badger_Range_ignores_stopAtNil shelf0 (key 1) (key 9) accept 3 inside true flat
    inside_ready inside_live flat_sorted accept_moves_no_iterator);
    [exact (le_n 3)|reflexivity|discriminate].
Defined.

(** A callback that looks the key up on another shelf, and then counts that shelf's pairs. *)
Definition look_and_count : CallerFn store () := λ k _,
  r ← badgerShelf_Get (shelf_named #"t") k;
  e ← badgerShelf_Iterate 9 (shelf_named #"t") accept (key 0);
  mret e.

Lemma look_and_count_iterates : comes_to_iterate tx0 look_and_count.
Proof.
  refine (comes_after tx0 (λ k _, badgerShelf_Get (shelf_named #"t") k)
    (λ _ _ _, e ← badgerShelf_Iterate 9 (shelf_named #"t") accept (key 0); mret e) _ _).
  - intros k x s. unfold badgerShelf_Get. rewrite (bind_Return _ _ _ _ _ (badger_run _ s)).
    destruct (txn_Get _ _ _) as [[item err] d']. cbn [fst snd].
    destruct (negb (is_nil err)); [by case_match; eexists _, _|].
    rewrite badger_read_run. by eexists _, _.
  - intros _ _ _. by apply opens_Iterate.
Qed.

Lemma badger_nested_deadlock_witness :
  shelf_view #"s" flat = three ∧ comes_to_iterate tx0 look_and_count ∧
  (∃ s', badgerShelf_Iterate 3 shelf0 look_and_count (key 0) inside = (Blocked, s')) ∧
  (∃ s', badgerShelf_Range 3 shelf0 (key 2) (key 9) look_and_count true inside = (Blocked, s')).
Proof.
  split; [reflexivity|]. split; [exact look_and_count_iterates|].
  destruct (badger_nested_deadlock shelf0 look_and_count 3 inside true flat inside_ready inside_live
    flat_sorted eq_refl eq_refl eq_refl ltac:(repeat constructor) look_and_count_iterates)
    as [H1 H2].
  split; [eapply H1; reflexivity|eapply H2; reflexivity].
Defined.

(** On a closed database [Empty] panics, and the panic leaves [WriteShelf]. *)
Example badger_closed_Empty_panics :
  let closed_store := mkSt (mkStore _ (db_Close (db (back start))).2 []) w0 in
  (store_WriteShelf 0 Background #"s" (λ w, run_client w (c_empty (λ r, c_return r.2))) start).1 =
    Return ENil ∧
  (store_WriteShelf 0 Background #"s" (λ w, run_client w (c_empty (λ r, c_return r.2)))
     closed_store).1 = Panic.
Proof. repeat split. Qed.

(** A callback that does nothing, and a client that replaces a pair if it is there. *)
Definition idle : tx (W := ()) → M store () error := λ _, mret ENil.
Lemma badger_idle_well_behaved writable : well_behaved writable idle.
Proof. intros b s v Hr Hv Hf Hs. split; [done|]. intros _ _. split_and!; [done..|]. by exists v. Qed.

Definition replace : client :=
  c_get (key 2) (λ r, match r with
                      | (Some _, _) => c_put (key 2) #"2" c_return
                      | (None, e) => c_return e
                      end).

Lemma badger_write_protocol_witness :
  well_behaved true idle ∧ write_outcome idle [] start (doTX Background idle true [] start).
Proof.
  split; [exact (badger_idle_well_behaved true)|].
  exact (badger_write_protocol Background idle [] start badger_background_sticky (badger_idle_well_behaved true)
    flat_sorted).
Defined.

Lemma badger_read_protocol_witness :
  well_behaved false idle ∧ read_outcome idle start (doTX Background idle false [] start).
Proof.
  split; [exact (badger_idle_well_behaved false)|].
  exact (badger_read_protocol Background idle start (badger_idle_well_behaved false) flat_sorted).
Defined.

Lemma badger_WriteShelf_atomic_witness :
  sorted (data start) ∧
  ∃ e s', store_WriteShelf 0 Background #"s" (λ w, run_client w replace) start = (Return e, s') ∧
    open_db s' = true ∧
    (e ≠ ENil → data s' = data start) ∧
    (e = ENil →
      client_spec badger_write_fails badger_read_fails None replace (shelf_view #"s" (data start)) ENil
        (shelf_view #"s" (data s')) ∧
      sorted (data s') ∧
      ∀ m, unrelated #"s" m → shelf_view m (data s') = shelf_view m (data start)).
Proof.
  split; [exact flat_sorted|].
  exact (badger_WriteShelf_atomic 0 Background #"s" replace start badger_background_sticky flat_sorted
    eq_refl).
Defined.

(** Runs: a range over a gap with and without [stopAtNil], on a named shelf and on the
    shelf with the empty name; a replacement; an aborted write. *)
Definition fail_at (n : N) : CallerFn store () :=
  λ k _, mret (if Equals k (Some (key n)) then Canceled else ENil).
Definition nameless : St store () :=
  mkSt (mkStore _ (mkMem three {[ 0%nat := mkView true three [] [] ]} 1 [] false false : DB)
          [mkTxObject _ [] unlocked]) w0.

Example badger_range_runs :
  (badgerShelf_Range 3 shelf0 (key 1) (key 9) (fail_at 4) true inside).1 = Return Canceled ∧
  (badgerShelf_Range 3 (shelf_named []) (key 1) (key 9) (fail_at 4) true nameless).1 = Return ENil ∧
  (badgerShelf_Range 3 (shelf_named []) (key 1) (key 9) (fail_at 4) false nameless).1 =
    Return Canceled.
Proof. repeat split. Qed.

Example badger_write_runs :
  (let s' := (store_WriteShelf 0 Background #"s" (λ w, run_client w replace) start).2 in
   shelf_view #"s" (data s') =
     [(Bytes (key 1), #"one"); (Bytes (key 2), #"2"); (Bytes (key 4), #"four")]) ∧
  (let r := store_WriteShelf 0 Background #"s" (λ w, _ ← Delete w (key 1); mret Canceled) start in
   r.1 = Return Canceled ∧ data r.2 = flat).
Proof. repeat split. Qed.

(** ** The contract, on an empty store *)

Definition empty_store : St store () := mkSt (mkStore _ (empty_db : DB) []) w0.
Definition two_names (n : bytes) : Prop := n = Scenario.shelf_name ∨ n = Scenario.archive_name.
Lemma two_names_separate n m : two_names n → two_names m → n ≠ m → unrelated n m.
Proof. by intros [-> | ->] [-> | ->]. Qed.
Lemma badger_empty_store_holds : badger_holding two_names empty_store (λ _, []).
Proof. split; [reflexivity|]. split; [constructor|]. intros n _. reflexivity. Qed.
#[local] Instance store_conforms :
  Conforms (Wrap 9) Background (badger_permits two_names) (badger_holding two_names)
    badger_open_fails badger_write_fails badger_read_fails true false false :=
  badger_Conforms two_names two_names_separate 9 Background badger_background_sticky.

Lemma scenario_on_two_names : Forall (badger_permits two_names) Scenario.calls.
Proof.
  assert (Hm : program_on two_names Scenario.move).
  { split; [by left|]. intros [v e]. cbn. destruct (is_nil e); [|done]. split; [by right|].
    intros e'. destruct (is_nil e'); [|done]. split; [by left|done]. }
  assert (Hl : inquiry_on two_names Scenario.look).
  { split; [by left|]. intros r. split; [by right|done]. }
  unfold Scenario.calls. rewrite !Forall_cons.
  split_and!; first [exact Hm|exact Hl|by constructor|by left|by right].
Qed.

Example badger_scenario :
  (run_history (Wrap 9) Background Scenario.calls empty_store).1 = Return Scenario.results.
Proof. vm_compute. reflexivity. Qed.
