(* ===== verification/BadgerOpen.v ===== *)
(** badger/badger.go: the constructors. *)
From S2P Require Import Prelude Errors Go Store Timeout Files Badger BadgerSpec.

(** The part of Badger that opens databases: its options, a value with functions that
    return a changed copy, and [badger.Open], which fails when another process has the
    database open. *)
Class BadgerOpenLib (Logger : Type) `{BL : BadgerLib} `{OS} := {
  Options : Type;
  badger_DefaultOptions : bytes → Options;
  WithInMemory : bool → Options → Options;
  WithDir : bytes → Options → Options;
  WithValueDir : bytes → Options → Options;
  WithLogger : Logger → Options → Options;
  badger_Open : Options → FS → (DB * error) * FS
}.

Section create.
Context {Logger : Type} `{BO : BadgerOpenLib Logger}.

(** The options for Badger. *)
Definition badger_options (cfg : Config Logger) (filePath : bytes) : Options :=
  let badgerOpts := badger_DefaultOptions filePath in
  let badgerOpts :=
    if NoSync cfg then WithValueDir [] (WithDir [] (WithInMemory true badgerOpts))
    else badgerOpts in
  match Log cfg with
  | Some log => WithLogger log badgerOpts
  | None => badgerOpts
  end.

Definition createBadgerStore (filePath : bytes) (options : Options) (f : FS) :
    (option store * error) * FS :=
  let '(err, f) := os_MkdirAll (path_Dir filePath) ModePerm f in
  if negb (is_nil err) then ((None, err), f) else
  let '((d, err), f) := badger_Open options f in
  if negb (is_nil err) then ((None, err), f)
  else ((Some (Wrap_state d), ENil), f).

Definition CreateBadgerStore (StandardLogger : Logger) (filePath : bytes)
    (opts : list (Option Logger)) (f : FS) : (option store * error) * FS :=
  let cfg := apply_options (DefaultConfig StandardLogger) opts in
  createBadgerStore filePath (badger_options cfg filePath) f.
End create.

(** The documented behaviour of the options: each function changes its own setting. *)
Class BadgerOptionsSpec `{BO : BadgerOpenLib Logger} := {
  opt_InMemory : Options → bool;
  opt_Dir : Options → bytes;
  opt_ValueDir : Options → bytes;
  opt_Logger : Options → option Logger;
  spec_Default p :
    opt_InMemory (badger_DefaultOptions p) = false ∧ opt_Dir (badger_DefaultOptions p) = p ∧
    opt_ValueDir (badger_DefaultOptions p) = p;
  spec_WithInMemory b o :
    opt_InMemory (WithInMemory b o) = b ∧ opt_Dir (WithInMemory b o) = opt_Dir o ∧
    opt_ValueDir (WithInMemory b o) = opt_ValueDir o;
  spec_WithDir p o :
    opt_InMemory (WithDir p o) = opt_InMemory o ∧ opt_Dir (WithDir p o) = p ∧
    opt_ValueDir (WithDir p o) = opt_ValueDir o;
  spec_WithValueDir p o :
    opt_InMemory (WithValueDir p o) = opt_InMemory o ∧ opt_Dir (WithValueDir p o) = opt_Dir o ∧
    opt_ValueDir (WithValueDir p o) = p;
  spec_WithLogger l o :
    opt_InMemory (WithLogger l o) = opt_InMemory o ∧ opt_Dir (WithLogger l o) = opt_Dir o ∧
    opt_ValueDir (WithLogger l o) = opt_ValueDir o ∧ opt_Logger (WithLogger l o) = Some l
}.

Section facts.
Context {Logger : Type} `{BS : BadgerOptionsSpec Logger}.
Implicit Types (cfg : Config Logger).

(** The settings the configuration stands for. *)
Definition options_for cfg (filePath : bytes) (o : Options) : Prop :=
  opt_InMemory o = NoSync cfg ∧
  opt_Dir o = (if NoSync cfg then [] else filePath) ∧
  opt_ValueDir o = (if NoSync cfg then [] else filePath) ∧
  (∀ l, Log cfg = Some l → opt_Logger o = Some l).

Lemma badger_options_spec cfg filePath : options_for cfg filePath (badger_options cfg filePath).
Proof.
  unfold options_for, badger_options. destruct (spec_Default filePath) as (D1 & D2 & D3).
  set (o1 := if NoSync cfg then _ else _).
  assert (H1 : opt_InMemory o1 = NoSync cfg ∧
    opt_Dir o1 = (if NoSync cfg then [] else filePath) ∧
    opt_ValueDir o1 = (if NoSync cfg then [] else filePath)).
  { subst o1. destruct (NoSync cfg); [|done].
    set (m := WithInMemory _ _). destruct (spec_WithInMemory true (badger_DefaultOptions filePath))
      as (M1 & _ & _).
    destruct (spec_WithDir [] m) as (R1 & R2 & _).
    destruct (spec_WithValueDir [] (WithDir [] m)) as (V1 & V2 & V3). by rewrite V1, V2, V3, R1, R2. }
  destruct (Log cfg) as [l|]; [|naive_solver].
  destruct (spec_WithLogger l o1) as (-> & -> & -> & ->). naive_solver.
Qed.

(** [CreateBadgerStore]. The directory of the file is made first; when that fails its
    error is returned as it is and nothing is opened. Otherwise Badger is opened once: on
    the file with the configured logger, or in memory and without directories when
    [WithNoSync] was given; its error is returned as it is, or else the store, with no
    transaction. *)
Theorem CreateBadgerStore_result (std : Logger) filePath opts f
    (cfg := apply_options (DefaultConfig std) opts) :
  let '(err, f1) := os_MkdirAll (path_Dir filePath) ModePerm f in
  if negb (is_nil err) then CreateBadgerStore std filePath opts f = ((None, err), f1)
  else ∃ o, options_for cfg filePath o ∧
    let '((d, err), f2) := badger_Open o f1 in
    CreateBadgerStore std filePath opts f =
      (if is_nil err then (Some (mkStore _ d []), ENil) else (None, err), f2).
Proof.
  unfold CreateBadgerStore, createBadgerStore. fold cfg.
  destruct (os_MkdirAll _ _ f) as [err f1]. destruct (is_nil err); cbn; [|done].
  exists (badger_options cfg filePath). split; [apply badger_options_spec|].
  destruct (badger_Open _ f1) as [[d err2] f2]. by destruct (is_nil err2).
Qed.
End facts.

(** ** Instances *)

Module BadgerOpenExamples.
Import BadgerMem.

(** A file system: whether it can be written, and whether another process has the
    database open. *)
Record disk := mkDisk { writable : bool; in_use : bool }.
Record settings := mkSettings {
  InMemory : bool; Dir : bytes; ValueDir : bytes; Logger : option ()
}.

Definition PathError : error := errorString 510 #"mkdir: read-only file system".
Definition LockError : error := errorString 511 #"Cannot acquire directory lock".

#[local] Instance mem_os : OS := {|
  FS := disk;
  os_MkdirAll _ _ f := (if writable f then ENil else PathError, f)
|}.
#[local] Instance mem_open : BadgerOpenLib () := {|
  Options := settings;
  badger_DefaultOptions p := mkSettings false p p None;
  WithInMemory b o := mkSettings b (Dir o) (ValueDir o) (Logger o);
  WithDir p o := mkSettings (InMemory o) p (ValueDir o) (Logger o);
  WithValueDir p o := mkSettings (InMemory o) (Dir o) p (Logger o);
  BadgerOpen.WithLogger l o := mkSettings (InMemory o) (Dir o) (ValueDir o) (Some l);
  badger_Open o f :=
    if InMemory o then ((empty_db : DB, ENil), f)
    else if in_use f then ((empty_db : DB, LockError), f)
    else ((empty_db : DB, ENil), mkDisk (writable f) true)
|}.
#[local] Instance mem_options : BadgerOptionsSpec (Logger := ()).
Proof.
  refine {| opt_InMemory := InMemory : Options → bool; opt_Dir := Dir : Options → bytes;
    opt_ValueDir := ValueDir : Options → bytes; opt_Logger := Logger : Options → option () |};
    done.
Defined.

Definition file : bytes := #"/data/store/badger".
Definition free_disk : FS := mkDisk true false.
Definition busy_disk : FS := mkDisk true true.
Definition opened_store : option store * error := (Some (mkStore _ (empty_db : DB) []), ENil).

Example CreateBadgerStore_runs :
  (CreateBadgerStore () file [] free_disk).1 = opened_store ∧
  (CreateBadgerStore () file [] busy_disk).1 = (None, LockError) ∧
  (CreateBadgerStore () file [WithNoSync] busy_disk).1 = opened_store ∧
  is_database_error LockError = false.
Proof. repeat split. Qed.

Lemma CreateBadgerStore_result_witness :
  ∃ o : Options, options_for (DefaultConfig ()) file o ∧
    let '((d, err), f2) := badger_Open o busy_disk in
    CreateBadgerStore () file [] busy_disk =
      (if is_nil err then (Some (mkStore _ d []), ENil) else (None, err), f2).
Proof. exact (CreateBadgerStore_result () file [] busy_disk). Defined.
End BadgerOpenExamples.
