(* ===== verification/BadgerConc.v ===== *)
(** Several goroutines on one Badger store: [Write], [Read], [WriteShelf] and [ReadShelf] cut
    into phases that other goroutines may come between, and the proof that a goroutine left
    alone runs exactly the code of Badger.v. *)
From S2P Require Import Prelude Errors Keys Go Store Lock Timeout Client Program Interleave Badger.

Section conc.
Context `{BL : BadgerLib} {W : Type} `{!Env W, !CallScheduler W}.
Context (fuel : nat).
Abbreviation M := (M store W).
Abbreviation tx := (tx (W := W)).

(** What a goroutine does: a call of [WriteShelf] with a program, of [ReadShelf] with a
    query, or of [Write] or [Read] with a program on several shelves. *)
Inductive task :=
  | T_write (ctx : Context W) (name : bytes) (c : client)
  | T_read (ctx : Context W) (name : bytes) (q : query)
  | T_transact (ctx : Context W) (pr : program)
  | T_inquire (ctx : Context W) (i : inquiry).

(** Where it is: before [NewTransaction]; in the callback, before its next operation, with the
    writers or readers it has asked for; before commit or rollback; before
    the deferred rollback, with its result, or [None] when it has panicked; returned. *)
Inductive phase :=
  | Ph_begin
  | Ph_write (b : tx) (w : Writer store W) (c : client)
  | Ph_read (b : tx) (r : Reader store W) (q : query)
  | Ph_transact (b : tx) (ws : gmap bytes (Writer store W)) (pr : program)
  | Ph_inquire (b : tx) (rs : gmap bytes (Reader store W)) (i : inquiry)
  | Ph_finish (b : tx) (appError : error)
  | Ph_cleanup (b : tx) (result : option error)
  | Ph_done (result : error).

Definition task_writable (p : task) : bool :=
  match p with
  | T_write _ _ _ | T_transact _ _ => true
  | T_read _ _ _ | T_inquire _ _ => false
  end.
Definition task_ctx (p : task) : Context W :=
  match p with
  | T_write ctx _ _ | T_read ctx _ _ | T_transact ctx _ | T_inquire ctx _ => ctx
  end.

(** The call of the callback. *)
Definition open_phase (p : task) (b : tx) : phase :=
  match p with
  | T_write _ name c => Ph_write b (tx_GetShelfWriter fuel b name) c
  | T_read _ name q => Ph_read b (tx_GetShelfReader fuel b name) q
  | T_transact _ pr => Ph_transact b ∅ pr
  | T_inquire _ i => Ph_inquire b ∅ i
  end.

(** [run_tx] after the callback, for a call without options. *)
Definition end_tx (ctx : Context W) (b : tx) (writable : bool) (appError : error) : M error :=
  if negb writable then
    _ ← rollback b;
    mret appError
  else if is_nil appError then
    e ← ctx_Err ctx;
    err ← (if negb (is_nil e) then
             err ← ctx_Err ctx;
             _ ← rollback b;
             mret err
           else if writable then commit b else mret ENil);
    mret (if negb (is_nil err) then WrapError ErrCommitFailed err else ENil)
  else
    _ ← rollback b;
    mret appError.

(** A panic before the deferred rollback leads to it. *)
Definition recover {A} (b : tx) (m : M A) (f : A → phase) : M phase := λ s,
  match m s with
  | (Return a, s') => (Return (f a), s')
  | (Panic, s') => (Return (Ph_cleanup b None), s')
  | (Blocked, s') => (Blocked, s')
  | (NoFuel, s') => (NoFuel, s')
  end.

(** The next phase of a goroutine. *)
Definition thread_step (p : task) (ph : phase) : M phase :=
  match ph with
  | Ph_begin => b ← new_tx (task_ctx p) (task_writable p); mret (open_phase p b)
  | Ph_write b w c =>
      recover b (client_step w c)
        (λ x, match x with inl e => Ph_finish b e | inr c' => Ph_write b w c' end)
  | Ph_read b r q =>
      recover b (query_step r q)
        (λ x, match x with inl e => Ph_finish b e | inr q' => Ph_read b r q' end)
  | Ph_transact b ws pr =>
      recover b (program_step (as_WriteTx fuel b) ws pr)
        (λ x, match x with inl e => Ph_finish b e | inr (ws', pr') => Ph_transact b ws' pr' end)
  | Ph_inquire b rs i =>
      recover b (inquiry_step (as_ReadTx fuel b) rs i)
        (λ x, match x with inl e => Ph_finish b e | inr (rs', i') => Ph_inquire b rs' i' end)
  | Ph_finish b e =>
      recover b (end_tx (task_ctx p) b (task_writable p) e) (λ r, Ph_cleanup b (Some r))
  | Ph_cleanup b r =>
      _ ← rollback b;
      match r with Some e => mret (Ph_done e) | None => panic end
  | Ph_done r => mret (Ph_done r)
  end.

(** The calls of the goroutines, without options. *)
Definition task_call (p : task) : M error :=
  match p with
  | T_write ctx name c => store_WriteShelf fuel ctx name (λ w, run_client w c)
  | T_read ctx name q => store_ReadShelf fuel ctx name (λ r, run_query r q)
  | T_transact ctx pr => store_Write fuel ctx (λ t, run_program t ∅ pr) []
  | T_inquire ctx i => store_Read fuel ctx (λ t, run_inquiry t ∅ i)
  end.

(** ** A goroutine on its own *)

Abbreviation runs_to p := (runs_to (thread_step p)).

(** What is left of the call when [m] is the rest of the function after the [defer]. *)
Definition rest (b : tx) (m : M error) : M phase := e ← defer (rollback b) m; mret (Ph_done e).

Lemma runs_cleanup p b e s :
  runs_to p (Ph_cleanup b (Some e)) s ((_ ← rollback b; mret (Ph_done e)) s).
Proof.
  apply (runs_step (thread_step p) _ s (rollback b) (λ _, Ph_done e)); [done|].
  intros a s' _. by apply runs_done.
Qed.

Lemma runs_panic p b s :
  runs_to p (Ph_cleanup b None) s ((_ ← rollback b; panic) s).
Proof.
  apply runs_next; cbn [thread_step]; unfold mbind, M_bind;
    destruct (rollback b s) as [[[]| | |] s1]; try done; by intros o s' [= <- <-].
Qed.

Lemma rest_bind {A} b (m : M A) (k : A → M error) s :
  rest b (m ≫= k) s =
    match m s with
    | (Return a, s') => rest b (k a) s'
    | (Panic, s') => (_ ← rollback b; panic) s'
    | (Blocked, s') => (Blocked, s')
    | (NoFuel, s') => (NoFuel, s')
    end.
Proof.
  unfold rest, defer, mbind, M_bind. destruct (m s) as [[a| | |] s1]; try done.
  by destruct (rollback b s1) as [[[]| | |] s2].
Qed.

(** A part [m] of the function, with what follows it, [k]: a panic of [m] leads to the
    rollback. *)
Lemma runs_recover {A} p ph b s (m : M A) (f : A → phase) (k : A → M error) :
  thread_step p ph s = recover b m f s →
  (∀ a s', m s = (Return a, s') → runs_to p (f a) s' (rest b (k a) s')) →
  runs_to p ph s (rest b (m ≫= k) s).
Proof.
  intros E Hk. unfold recover in E. rewrite rest_bind.
  destruct (m s) as [[a| | |] s1] eqn:Em; apply runs_next; rewrite E; try done.
  - intros ph' s' [= <- <-]. by apply Hk.
  - intros o s' [= <- <-] Ho. by destruct (Ho (f a)).
  - intros ph' s' [= <- <-]. apply runs_panic.
  - intros o s' [= <- <-] Ho. by destruct (Ho (Ph_cleanup b None)).
  - by intros o s' [= <- <-].
  - by intros o s' [= <- <-].
Qed.

(** The end of the function. *)
Lemma runs_result p b e s : runs_to p (Ph_cleanup b (Some e)) s (rest b (mret e) s).
Proof.
  eapply runs_eq; [|apply runs_cleanup]. unfold rest, defer, mbind, M_bind, mret, M_ret.
  by destruct (rollback b s) as [[[]| | |] s2].
Qed.

Lemma badger_runs_finish p b e s :
  runs_to p (Ph_finish b e) s (rest b (end_tx (task_ctx p) b (task_writable p) e ≫= mret) s).
Proof.
  by apply (runs_recover p _ b s _ (λ r, Ph_cleanup b (Some r))); [|intros; apply runs_result].
Qed.

Abbreviation after_app p b := (λ e, end_tx (task_ctx p) b (task_writable p) e ≫= mret).

Lemma rest_eq b (m m' : M error) s : m s = m' s → rest b m s = rest b m' s.
Proof. intros E. unfold rest, defer, mbind, M_bind. by rewrite E. Qed.

Lemma badger_runs_write p b w c s :
  runs_to p (Ph_write b w c) s (rest b (run_client w c ≫= after_app p b) s).
Proof.
  assert (HS : ∀ c s, (∀ x s', client_step w c s = (Return (inr x), s') →
      runs_to p (Ph_write b w x) s' (rest b (run_client w x ≫= after_app p b) s')) →
    runs_to p (Ph_write b w c) s (rest b (run_client w c ≫= after_app p b) s)).
  { intros c' s0 IH. eapply runs_eq; [symmetry; apply rest_eq; unfold mbind at 1, M_bind at 1;
      rewrite run_client_step; exact (bind_assoc (client_step w c') _ (after_app p b) s0)|].
    apply (runs_recover p _ b s0 (client_step w c')
      (λ x, match x with inl e => Ph_finish b e | inr c' => Ph_write b w c' end)); [done|].
    intros [e|x] s' E; [apply badger_runs_finish|by apply IH]. }
  revert s. induction c as [e|k v next IH|k next IH|k next IH|next IH]; intros s; apply HS;
    intros x s' E; cbn in E; [done|..]; apply bind_inv in E as (a & s1 & _ & [= <- _]); apply IH.
Qed.

Lemma badger_runs_read p b r q s :
  runs_to p (Ph_read b r q) s (rest b (run_query r q ≫= after_app p b) s).
Proof.
  assert (HS : ∀ q s, (∀ x s', query_step r q s = (Return (inr x), s') →
      runs_to p (Ph_read b r x) s' (rest b (run_query r x ≫= after_app p b) s')) →
    runs_to p (Ph_read b r q) s (rest b (run_query r q ≫= after_app p b) s)).
  { intros q' s0 IH. eapply runs_eq; [symmetry; apply rest_eq; unfold mbind at 1, M_bind at 1;
      rewrite run_query_step; exact (bind_assoc (query_step r q') _ (after_app p b) s0)|].
    apply (runs_recover p _ b s0 (query_step r q')
      (λ x, match x with inl e => Ph_finish b e | inr q' => Ph_read b r q' end)); [done|].
    intros [e|x] s' E; [apply badger_runs_finish|by apply IH]. }
  revert s. induction q as [e|k next IH|next IH]; intros s; apply HS;
    intros x s' E; cbn in E; [done|..]; apply bind_inv in E as (a & s1 & _ & [= <- _]); apply IH.
Qed.

Lemma badger_runs_transact p b ws pr s :
  runs_to p (Ph_transact b ws pr) s
    (rest b (run_program (as_WriteTx fuel b) ws pr ≫= after_app p b) s).
Proof.
  revert ws pr s. apply (program_step_ind (as_WriteTx fuel b) (λ ws pr, ∀ s,
    runs_to p (Ph_transact b ws pr) s
      (rest b (run_program (as_WriteTx fuel b) ws pr ≫= after_app p b) s))).
  intros ws pr IH s. eapply runs_eq; [symmetry; apply rest_eq; unfold mbind at 1, M_bind at 1;
    rewrite run_program_step; exact (bind_assoc (program_step _ ws pr) _ (after_app p b) s)|].
  apply (runs_recover p _ b s _ (λ x, match x with
    | inl e => Ph_finish b e | inr (ws', pr') => Ph_transact b ws' pr' end)); [done|].
  intros [e|[ws' pr']] s' E; [apply badger_runs_finish|by eapply IH].
Qed.

Lemma badger_runs_inquire p b rs i s :
  runs_to p (Ph_inquire b rs i) s
    (rest b (run_inquiry (as_ReadTx fuel b) rs i ≫= after_app p b) s).
Proof.
  revert rs i s. apply (inquiry_step_ind (as_ReadTx fuel b) (λ rs i, ∀ s,
    runs_to p (Ph_inquire b rs i) s
      (rest b (run_inquiry (as_ReadTx fuel b) rs i ≫= after_app p b) s))).
  intros rs i IH s. eapply runs_eq; [symmetry; apply rest_eq; unfold mbind at 1, M_bind at 1;
    rewrite run_inquiry_step; exact (bind_assoc (inquiry_step _ rs i) _ (after_app p b) s)|].
  apply (runs_recover p _ b s _ (λ x, match x with
    | inl e => Ph_finish b e | inr (rs', i') => Ph_inquire b rs' i' end)); [done|].
  intros [e|[rs' i']] s' E; [apply badger_runs_finish|by eapply IH].
Qed.

(** [run_tx] without options is the callback and [end_tx]. *)
Lemma run_tx_split ctx fn writable b s :
  run_tx ctx fn writable [] b s = (fn b ≫= (λ e, end_tx ctx b writable e ≫= mret)) s.
Proof.
  unfold run_tx, end_tx. apply bind_ext. intros e s1.
  destruct (negb writable); [rewrite bind_assoc; by apply bind_ext|].
  destruct (is_nil e); rewrite bind_assoc; [|by apply bind_ext].
  apply bind_ext. intros x s2. rewrite bind_assoc. apply bind_ext.
  intros err s3. rewrite bind_ret. by destruct (negb (is_nil err)).
Qed.

Lemma badger_runs_doTX p fn s :
  (∀ b s', runs_to p (open_phase p b) s' (rest b (fn b ≫= after_app p b) s')) →
  runs_to p Ph_begin s
    ((e ← doTX (task_ctx p) fn (task_writable p) []; mret (Ph_done e)) s).
Proof.
  intros Hfn. eapply runs_eq; [symmetry; apply bind_assoc|].
  apply (runs_step (thread_step p) Ph_begin s _ (open_phase p)); [done|].
  intros b s1 _. eapply runs_eq; [|apply Hfn]. symmetry.
  exact (rest_eq b _ _ s1 (run_tx_split _ _ _ b s1)).
Qed.

(** The phases are the code: a goroutine that is left alone comes, from some number of
    phases on, to exactly the outcome and state of its call, the deferred rollback and a
    panic on the way included. *)
Lemma badger_phases_call p s :
  runs_to p Ph_begin s ((e ← task_call p; mret (Ph_done e)) s).
Proof.
  destruct p as [ctx name c|ctx name q|ctx pr|ctx i]; apply badger_runs_doTX; intros b s1;
    [apply badger_runs_write|apply badger_runs_read|apply badger_runs_transact
    |apply badger_runs_inquire].
Qed.
End conc.
