(* ===== verification/BadgerTask.v ===== *)
(** Goroutines on one Badger store: the specification of the calls, the invariant of one
    goroutine, and what an operation of a program does to the transaction it is part of. *)
From S2P Require Import Prelude Errors Keys Go Store Lock Timeout Shelf Prefix Pending Client.
From S2P Require Import Program Interleave Badger BadgerSpec BadgerFacts BadgerShelf BadgerFrame.
From S2P Require Import BadgerTx BadgerProgram BadgerConc.

(** The programs whose reads Badger tracks: those that do not call [Empty]. *)
Inductive tracked : client → Prop :=
  | tracked_return e : tracked (c_return e)
  | tracked_put k v next : (∀ e, tracked (next e)) → tracked (c_put k v next)
  | tracked_delete k next : (∀ e, tracked (next e)) → tracked (c_delete k next)
  | tracked_get k next : (∀ r, tracked (next r)) → tracked (c_get k next).

(** Those on the shelves [names]. *)
Inductive tracked_on (names : bytes → Prop) : program → Prop :=
  | tracked_p_return e : tracked_on names (p_return e)
  | tracked_p_put n k v next :
      names n → (∀ e, tracked_on names (next e)) → tracked_on names (p_put n k v next)
  | tracked_p_delete n k next :
      names n → (∀ e, tracked_on names (next e)) → tracked_on names (p_delete n k next)
  | tracked_p_get n k next :
      names n → (∀ r, tracked_on names (next r)) → tracked_on names (p_get n k next).

Lemma tracked_program_on names pr : tracked_on names pr → program_on names pr.
Proof. by induction 1; cbn; auto. Qed.

(** No name is a prefix of another. *)
Definition separate (names : bytes → Prop) : Prop :=
  ∀ n m, names n → names m → n ≠ m → unrelated n m.

(** The reads of a writer are tracked, and its shelves do not overlap. *)
Definition task_tracked `{BL : BadgerLib} {W} (p : task (W := W)) : Prop :=
  match p with
  | T_write _ _ c => tracked c
  | T_transact _ pr => ∃ names, separate names ∧ tracked_on names pr
  | _ => True
  end.

(** What may come of the rest of a callback on a database: its result, and what it leaves in
    the shelves. *)
Abbreviation runs := (items → error → shelves → Prop).

(** The rest [rest'] from the new database completes the rest [rest] from the old. *)
Abbreviation leads rest rest' :=
  (λ d d', ∀ e σ, (rest' : runs) d' e σ → (rest : runs) d e σ).

Definition phase_tx `{BL : BadgerLib} {W} (ph : phase (W := W)) : option (tx (W := W)) :=
  match ph with
  | Ph_write b _ _ | Ph_read b _ _ | Ph_transact b _ _ | Ph_inquire b _ _
  | Ph_finish b _ | Ph_cleanup b _ => Some b
  | _ => None
  end.
Definition finished `{BL : BadgerLib} {W} (ph : phase (W := W)) : option error :=
  match ph with Ph_cleanup _ r => r | Ph_done e => Some e | _ => None end.

Section tasks.
Context `{BS : BadgerSpec} {W : Type} `{!Env W, !CallScheduler W}.
Context (fuel : nat) (tasks : list (task (W := W))).
Implicit Types (s : St store W) (p : task (W := W)) (ph : phase (W := W)) (b : tx (W := W)).
Implicit Types (names : bytes → Prop).
Abbreviation M := (M store W).
Abbreviation conc := (conc store W (phase (W := W))).
Abbreviation conc_step := (conc_step (thread_step fuel) (λ _ _ _, None) tasks).
Abbreviation conc_init := (conc_init tasks Ph_begin).
Abbreviation client_spec := (client_spec badger_write_fails badger_read_fails None).
Abbreviation query_spec := (query_spec badger_read_fails).
Abbreviation program_spec := (program_spec badger_open_fails badger_write_fails badger_read_fails None).
Abbreviation inquiry_spec := (inquiry_spec badger_read_fails).

(** ** Specification *)

(** The shelves [names] hold [σ] in [d'], and those apart from them what they hold in [d]. *)
Definition installed names (d : items) (σ : shelves) (d' : items) : Prop :=
  sorted d' ∧ same_on names (shelves_in d') σ ∧
  ∀ m, (∀ n, names n → unrelated n m) → shelf_view m d' = shelf_view m d.

(** What a task may return, and leave, when it has the database [d] for itself. *)
Inductive task_spec : task (W := W) → items → error → items → Prop :=
  | ts_committed ctx n c d d' :
      client_spec c (shelf_view n d) ENil (shelf_view n d') → sorted d' →
      (∀ m, unrelated n m → shelf_view m d' = shelf_view m d) →
      task_spec (T_write ctx n c) d ENil d'
  | ts_failed ctx n c d e :
      e ≠ ENil → (∃ it, client_spec c (shelf_view n d) e it) ∨ is_database_error e = true →
      task_spec (T_write ctx n c) d e d
  | ts_read ctx n q d e : query_spec (shelf_view n d) q e → task_spec (T_read ctx n q) d e d
  | ts_transacted ctx names pr d d' σ :
      separate names → program_on names pr →
      program_spec ∅ (shelves_in d) pr ENil σ → installed names d σ d' →
      task_spec (T_transact ctx pr) d ENil d'
  | ts_undone ctx pr d e :
      e ≠ ENil → (∃ σ, program_spec ∅ (shelves_in d) pr e σ) ∨ is_database_error e = true →
      task_spec (T_transact ctx pr) d e d
  | ts_inquired ctx i d e :
      inquiry_spec (shelves_in d) i e → task_spec (T_inquire ctx i) d e d.

(** The calls that have installed writes, in order, with their results. *)
Abbreviation log := (list (nat * error)).
Abbreviation serial := (serial tasks task_spec).

(** [d] was the committed data at some time after the calls of [floor]. *)
Definition snapshot (d0 : items) (floor h : log) (d : items) : Prop :=
  ∃ h1, floor `prefix_of` h1 ∧ h1 `prefix_of` h ∧ serial d0 h1 d ∧ sorted d.

(** The call [i] with result [e] is one of the log, or did what it does on a snapshot. *)
Definition explained d0 (floor h : log) (i : nat) p (e : error) : Prop :=
  (i, e) ∈ h ∨ ∃ d, snapshot d0 floor h d ∧ task_spec p d e d.

(** ** The rest of a callback *)

Definition runs_client (n : bytes) (c : client) : runs := λ d e σ,
  client_spec c (shelf_view n d) e (σ n).
Definition runs_program names (h : gmap bytes (option error)) (pr : program) : runs := λ d e σ,
  ∃ σ1, program_spec h (shelves_in d) pr e σ1 ∧ same_on names σ1 σ.
Definition returns names (e : error) : runs := λ d e' σ,
  e' = e ∧ same_on names (shelves_in d) σ.

(** The whole callback of a writer, and the shelves it may use. *)
Definition task_runs names p : runs :=
  match p with
  | T_write _ n c => runs_client n c
  | T_transact _ pr => runs_program names ∅ pr
  | _ => λ _ _ _, False
  end.
Definition covers names p : Prop :=
  match p with
  | T_write _ n _ => ∀ m, names m ↔ m = n
  | T_transact _ pr => separate names ∧ program_on names pr
  | _ => False
  end.

(** The same for a reader, which leaves nothing. *)
Definition task_asks p : items → error → Prop :=
  match p with
  | T_read _ n q => λ d, query_spec (shelf_view n d) q
  | T_inquire _ i => λ d, inquiry_spec (shelves_in d) i
  | _ => λ _ _, False
  end.

Lemma task_commits names p d σ d' :
  covers names p → task_runs names p d ENil σ → installed names d σ d' → task_spec p d ENil d'.
Proof.
  intros Hc Hr (Hs & Hσ & Ho). destruct p as [ctx n c| |ctx pr|]; try done; cbn in *.
  - constructor; [|done|].
    + change (shelf_view n d') with (shelves_in d' n). rewrite Hσ by (by apply Hc). done.
    + intros m Hm. apply Ho. by intros n' ->%Hc.
  - destruct Hc as [Hsep Hon], Hr as (σ1 & Hp & H1). eapply ts_transacted; [done..|].
    split_and!; [done|by rewrite H1|done].
Qed.

Lemma task_fails names p d e σ :
  task_runs names p d e σ → e ≠ ENil → task_spec p d e d.
Proof.
  destruct p as [ctx n c| |ctx pr|]; try done; cbn.
  - intros H He. apply ts_failed; [done|]. left. by eexists.
  - intros (σ1 & H & _) He. apply ts_undone; [done|]. left. by eexists.
Qed.

Lemma task_refused names p d e :
  covers names p → e ≠ ENil → is_database_error e = true → task_spec p d e d.
Proof. destruct p; try done; intros; [apply ts_failed|apply ts_undone]; auto. Qed.

Lemma task_answers p d e : task_asks p d e → task_spec p d e d.
Proof. destruct p; try done; by constructor. Qed.

(** ** The invariant of one goroutine *)

(** The database [d] has the values that the transaction has read. *)
Definition agrees (i : txn_view) (d : items) : Prop :=
  ∀ k, k ∈ tv_reads i → items_lookup k d = items_lookup k (tv_base i).

(** Wherever the reads agree, the rest of the callback, after the writes so far, completes a
    run of the whole. *)
Definition replays (whole rest : runs) (i : txn_view) : Prop :=
  ∀ d, sorted d → agrees i d → ∀ e σ,
    rest (apply_writes (tv_pending i) d) e σ → whole d e σ.

(** [b] is a transaction in use with the view [i], made from a snapshot. *)
Definition in_use d0 (floor h : log) b s (i : txn_view) : Prop :=
  ready b s ∧ txn_made (db (back s)) (badgerTx b) ∧
  txn_info (db (back s)) (badgerTx b) = Some i ∧ snapshot d0 floor h (tv_base i).

Definition writing d0 floor h b s names (whole rest : runs) : Prop :=
  ∃ i, in_use d0 floor h b s i ∧ tv_write i = true ∧ writes_in names (tv_pending i) ∧
    replays whole rest i.
Definition querying d0 floor h b s (whole rest : items → error → Prop) : Prop :=
  ∃ i, in_use d0 floor h b s i ∧ tv_write i = false ∧ view_pairs i = tv_base i ∧
    ∀ e, rest (tv_base i) e → whole (tv_base i) e.

(** A writer in its callback, with the rest [rest] of it. *)
Definition task_writing d0 floor h b s p names rest : Prop :=
  covers names p ∧ writing d0 floor h b s names (task_runs names p) rest.

(** The readers a program has kept. *)
Definition readers_of b (rs : gmap bytes (Reader store W)) : Prop :=
  kept_readers (λ n r, r = as_Reader fuel (mkShelf (tx_ctx b) n b)) rs.

Definition thread_ok d0 floor h (j : nat) p ph s : Prop :=
  match ph with
  | Ph_begin => floor `prefix_of` h ∧ task_tracked p
  | Ph_write b w c' =>
      match p with
      | T_write _ n _ =>
          w = tx_GetShelfWriter fuel b n ∧ tracked c' ∧
          task_writing d0 floor h b s p (λ m, m = n) (runs_client n c')
      | _ => False
      end
  | Ph_read b r q' =>
      match p with
      | T_read _ n _ =>
          r = tx_GetShelfReader fuel b n ∧
          querying d0 floor h b s (task_asks p) (λ d, query_spec (shelf_view n d) q')
      | _ => False
      end
  | Ph_transact b ws pr' =>
      ∃ names hs, tracked_on names pr' ∧ separate names ∧ kept (writer_in fuel b) s ws hs ∧
        task_writing d0 floor h b s p names (runs_program names hs pr')
  | Ph_inquire b rs i' =>
      task_writable p = false ∧ readers_of b rs ∧
      querying d0 floor h b s (task_asks p) (λ d, inquiry_spec (shelves_in d) i')
  | Ph_finish b e =>
      if task_writable p then ∃ names, task_writing d0 floor h b s p names (returns names e)
      else querying d0 floor h b s (task_asks p) (λ _ e', e' = e)
  | Ph_cleanup b (Some e) =>
      ready b s ∧ txn_made (db (back s)) (badgerTx b) ∧ explained d0 floor h j p e
  | Ph_cleanup b None =>
      ready b s ∧ txn_made (db (back s)) (badgerTx b) ∧ open_db s = false
  | Ph_done e => explained d0 floor h j p e
  end.

(** *** Frames *)

(** The step did not touch the transaction [b], nor its object. *)
Definition untouched b s s' : Prop :=
  same_txn (db (back s)) (db (back s')) (badgerTx b) ∧
  txs (back s') !! address b = txs (back s) !! address b.

Lemma untouched_ready b s s' : untouched b s s' → ready b s → ready b s'.
Proof. intros [(_ & _ & Ho) Ht] (l & El & Hc). exists l. rewrite Ht. auto. Qed.

Lemma snapshot_later d0 floor h h' d :
  h `prefix_of` h' → snapshot d0 floor h d → snapshot d0 floor h' d.
Proof. intros Hh (h1 & H1 & H2 & H3). exists h1. split_and!; [done|by etrans|apply H3..]. Qed.

Lemma explained_later d0 floor h h' j p e :
  h `prefix_of` h' → explained d0 floor h j p e → explained d0 floor h' j p e.
Proof.
  intros Hh [Hi|(d & Hd & Hs)].
  - left. destruct Hh as [k ->]. apply elem_of_app. by left.
  - right. exists d. split; [by eapply snapshot_later|done].
Qed.

Lemma in_use_frame d0 floor h h' b s s' i :
  h `prefix_of` h' → untouched b s s' → in_use d0 floor h b s i →
  ∃ i', in_use d0 floor h' b s' i' ∧ sim_view i i'.
Proof.
  intros Hh Hu (Hr & Hm & Hi & Hs).
  destruct (same_txn_info _ _ _ _ (proj1 Hu) Hi) as (i' & Hi' & Hsim). exists i'.
  split; [|done]. split_and!; [by eapply untouched_ready|by apply Hu|done|].
  destruct Hsim as (_ & -> & _). by eapply snapshot_later.
Qed.

Lemma writing_frame d0 floor h h' b s s' names whole rest :
  h `prefix_of` h' → untouched b s s' → writing d0 floor h b s names whole rest →
  writing d0 floor h' b s' names whole rest.
Proof.
  intros Hh Hu (i & Hi & Hw & Hp & Hr).
  destruct (in_use_frame _ _ _ _ _ _ _ _ Hh Hu Hi) as (i' & Hi' & Hw' & Hb' & Hp' & Hr').
  exists i'. split_and!; [done|by rewrite Hw'|by rewrite Hp'|].
  intros d Hd Hg. rewrite Hp'. apply Hr; [done|]. intros k Hk. rewrite <-Hb'. auto.
Qed.

Lemma querying_frame d0 floor h h' b s s' whole rest :
  h `prefix_of` h' → untouched b s s' → querying d0 floor h b s whole rest →
  querying d0 floor h' b s' whole rest.
Proof.
  intros Hh Hu (i & Hi & Hw & Hv & Hq).
  destruct (in_use_frame _ _ _ _ _ _ _ _ Hh Hu Hi) as (i' & Hi' & Hw' & Hb' & Hp' & Hr').
  exists i'. unfold view_pairs in *. rewrite Hw', Hb', Hp'. by split_and!.
Qed.

Lemma task_writing_frame d0 floor h h' b s s' p names rest :
  h `prefix_of` h' → untouched b s s' → task_writing d0 floor h b s p names rest →
  task_writing d0 floor h' b s' p names rest.
Proof. intros Hh Hu [Hc Hw]. split; [done|]. by eapply writing_frame. Qed.

Lemma badger_thread_ok_frame d0 floor h h' j p ph s s' :
  h `prefix_of` h' → open_db s' = open_db s → (∀ b, phase_tx ph = Some b → untouched b s s') →
  thread_ok d0 floor h j p ph s → thread_ok d0 floor h' j p ph s'.
Proof.
  intros Hh Ho Hu. destruct ph as [|b w c'|b r q'|b ws pr|b rs i|b e|b [e|]|e]; cbn; try done;
    try (specialize (Hu b eq_refl)).
  - intros [? ?]. split; [by etrans|done].
  - destruct p; try done. intros (-> & Ht & Hw). split_and!; [done..|]. by eapply task_writing_frame.
  - destruct p; try done. intros (-> & Hq). split; [done|]. by eapply querying_frame.
  - intros (names & hs & Ht & Hs & Hk & Hw). exists names, hs.
    split_and!; [done..|by eapply task_writing_frame].
  - intros (Hw & Hr & Hq). split_and!; [done..|]. by eapply querying_frame.
  - destruct (task_writable p); [intros (names & Hw); exists names; by eapply task_writing_frame
      |by apply querying_frame].
  - intros (Hr & Hm & He).
    split_and!; [by eapply untouched_ready|by apply Hu|by eapply explained_later].
  - intros (Hr & Hm & Hc). rewrite Ho. split_and!; [by eapply untouched_ready|by apply Hu|done].
  - by apply explained_later.
Qed.

(** A transaction in a phase exists, and so does its object. *)
Lemma thread_ok_tx d0 floor h j p ph s b :
  thread_ok d0 floor h j p ph s → phase_tx ph = Some b →
  txn_made (db (back s)) (badgerTx b) ∧ is_Some (txs (back s) !! address b).
Proof.
  assert (HR : ∀ b, ready b s → is_Some (txs (back s) !! address b))
    by (intros b' (l & -> & _); eauto).
  assert (HU : ∀ b i, in_use d0 floor h b s i →
    txn_made (db (back s)) (badgerTx b) ∧ is_Some (txs (back s) !! address b))
    by (intros b' i (Hr & Hm & _); auto).
  destruct ph as [|b' w c'|b' r q'|b' ws pr|b' rs i|b' e|b' [e|]|e]; cbn; try done;
    intros HT [= ->].
  - destruct p; try done. destruct HT as (_ & _ & _ & i & Hi & _). eauto.
  - destruct p; try done. destruct HT as (_ & i & Hi & _). eauto.
  - destruct HT as (? & ? & _ & _ & _ & _ & i & Hi & _). eauto.
  - destruct HT as (_ & _ & j' & Hi & _). eauto.
  - destruct (task_writable p); [destruct HT as (? & _ & i & Hi & _)|destruct HT as (i & Hi & _)]; eauto.
  - destruct HT as (Hr & Hm & _). auto.
  - destruct HT as (Hr & Hm & _). auto.
Qed.

(** ** Operations *)

(** What an operation has done to the transaction's view: wherever the reads agree, the
    database with the writes before it and that with the writes after it are related. *)
Definition advances names (i i' : txn_view) (R : items → items → Prop) : Prop :=
  tv_write i' = true ∧ tv_base i' = tv_base i ∧ writes_in names (tv_pending i') ∧
  ∀ d, sorted d → agrees i' d → agrees i d ∧
    R (apply_writes (tv_pending i) d) (apply_writes (tv_pending i') d).

Lemma advances_impl names i i' (R R' : items → items → Prop) :
  (∀ d d', sorted d → R d d' → R' d d') → advances names i i' R → advances names i i' R'.
Proof.
  intros HR (H1 & H2 & H3 & Ha). split_and!; [done..|]. intros d Hd Hg.
  destruct (Ha d Hd Hg) as [Hg' Hr]. split; [done|]. apply HR; [|done]. auto with shelf.
Qed.

Lemma advances_replays names i i' whole rest rest' :
  advances names i i' (leads rest rest') → replays whole rest i → replays whole rest' i'.
Proof. intros (_ & _ & _ & Ha) Hr d Hs Hg e σ H. destruct (Ha d Hs Hg) as [Hg' Hc]. eauto. Qed.

(** A view that has not changed. *)
Lemma advances_same names i (R : items → items → Prop) :
  tv_write i = true → writes_in names (tv_pending i) → (∀ d, sorted d → R d d) →
  advances names i i R.
Proof. intros Hw Hp HR. split_and!; try done. intros d Hd Hg. split; [done|]. auto with shelf. Qed.

(** What a write, whose effect on the database is [f], does to it, or does not. *)
Definition wrote (e : error) (f : items → items) (d d' : items) : Prop :=
  e = ENil ∧ d' = f d ∨ e ≠ ENil ∧ d' = d.

(** What [Get] finds. *)
Definition got (n : bytes) (k : Key) (r : option bytes * error) (d d' : items) : Prop :=
  d' = d ∧ gets badger_read_fails None k (shelf_view n d) r.

(** The pending writes after an operation of the key [k] of the shelf [n]. *)
Lemma advances_write names n i k o e :
  names n → tv_write i = true → writes_in names (tv_pending i) →
  advances names i (if is_nil e then add_write (n ++ k, o) i else i)
    (wrote e (λ d, apply_write d (n ++ k, o))).
Proof.
  intros Hn Hw Hp. destruct (is_nil e) eqn:En.
  - apply is_nil_true in En as ->. split_and!; [done|done|by apply writes_in_snoc|].
    intros d Hd Hg. split; [done|]. cbn [add_write tv_pending]. rewrite apply_writes_snoc. by left.
  - apply is_nil_false in En. apply advances_same; [done..|]. by right.
Qed.

(** A read of the key [k] of the shelf [n], tracked or of the transaction's own writes. *)
Lemma advances_get names n i i' (k : Key) :
  tv_write i = true → writes_in names (tv_pending i) → sorted (tv_base i) →
  (n ++ Bytes k ∈ (tv_pending i).*1 ∧ i' = i ∨ i' = add_read (n ++ Bytes k) i) →
  advances names i i' (got n k (get_result k (shelf_view n (view_pairs i)))).
Proof.
  intros Hw Hp Hb Hi. assert (tv_write i' = true ∧ tv_base i' = tv_base i ∧
    tv_pending i' = tv_pending i ∧ (∀ j, j ∈ tv_reads i → j ∈ tv_reads i')) as (H1 & H2 & H3 & H4).
  { destruct Hi as [[_ ->]| ->]; cbn; split_and!; auto. intros. by right. }
  split_and!; [done|done|by rewrite H3|]. intros d Hd Hg.
  split; [intros j Hj; rewrite <-H2; auto|]. rewrite H3. split; [done|left].
  unfold get_result. rewrite !view_lookup. unfold view_pairs.
  rewrite (lookup_apply_writes (n ++ Bytes k) (tv_pending i) (tv_base i) d); try done.
  destruct Hi as [[Hk _]| ->]; [by left|right]. symmetry. apply (Hg (n ++ Bytes k)). cbn. by left.
Qed.

(** A read that fails, tracked or not. *)
Lemma advances_get_fails names n i i' (k : Key) e :
  tv_write i = true → writes_in names (tv_pending i) → e ≠ ENil → badger_read_fails e →
  (i' = i ∨ i' = add_read (n ++ Bytes k) i) → advances names i i' (got n k (None, e)).
Proof.
  intros Hw Hp He Hf Hi.
  assert (HG : ∀ d, got n k (None, e) d d) by (intros d; split; [done|right; eauto]).
  destruct Hi as [->| ->]; [by apply advances_same|]. split_and!; [done..|].
  intros d Hd Hg. split; [|apply HG]. intros j Hj. apply Hg. by right.
Qed.

(** The writable transaction [b] with the view [i], and writes to [names] only. *)
Definition tracks b s names (i : txn_view) : Prop :=
  ready b s ∧ txn_info (db (back s)) (badgerTx b) = Some i ∧ tv_write i = true ∧
  writes_in names (tv_pending i) ∧ sorted (tv_base i).

(** An operation returns [r] and does [R] to the database. *)
Definition does {A} b s names (i : txn_view) (m : M A) (R : A → items → items → Prop) : Prop :=
  ∃ r s' i', m s = (Return r, s') ∧ ready b s' ∧
    txn_info (db (back s')) (badgerTx b) = Some i' ∧ advances names i i' (R r).

(** [Get] in a writable transaction. *)
Lemma Get_tracked t k s names i :
  tracks (shelf_tx t) s names i → does (shelf_tx t) s names i (badgerShelf_Get t k) (got (name t) k).
Proof.
  intros (Hr & Hi & Hw & Hp & Hb). unfold does, badgerShelf_Get.
  change (Bytes (badgerShelf_key t k)) with (name t ++ Bytes k).
  rewrite (bind_Return _ _ _ _ _ (badger_run _ s)).
  pose proof (law_Get (db (back s)) _ i (name t ++ Bytes k) Hi) as HG.
  destruct (txn_Get (badgerTx (shelf_tx t)) (name t ++ Bytes k) (db (back s)))
    as [[item e] d'] eqn:E. cbn [fst snd]. destruct HG as (Hs & Hi' & HG & Htr).
  assert (Hr' : ready (shelf_tx t) (with_db s d')) by (eapply ready_same; [exact Hr|done|apply Hs]).
  assert (HI : errors_Is e badger_ErrKeyNotFound = true ∨ e = ENil → ∃ i',
    txn_info d' (badgerTx (shelf_tx t)) = Some i' ∧
    advances names i i' (got (name t) k (get_result k (shelf_view (name t) (view_pairs i))))).
  { intros He. assert (∃ i', txn_info d' (badgerTx (shelf_tx t)) = Some i' ∧
      (name t ++ Bytes k ∈ (tv_pending i).*1 ∧ i' = i ∨ i' = add_read (name t ++ Bytes k) i))
      as (i' & E1 & E2).
    { destruct (Htr Hw He) as [Hk|Hk]; [|eauto]. destruct Hi' as [H|H]; eauto. }
    exists i'. split; [done|]. by apply advances_get. }
  unfold get_result in HI. rewrite view_lookup in HI.
  destruct HG as [(-> & x & El & Ex)|[(Hn & Hf & El)|(Hn & Hf)]].
  - destruct (HI (or_intror eq_refl)) as (i' & E1 & E2). rewrite El, <-Ex in E2.
    cbn [is_nil negb]. rewrite badger_read_run. by eexists _, _, i'.
  - destruct (HI (or_introl Hf)) as (i' & E1 & E2). rewrite El in E2.
    apply is_nil_false in Hn. rewrite Hn, Hf. by eexists _, _, i'.
  - apply is_nil_false in Hn as Hn'. rewrite Hn', Hf. cbn [negb].
    assert (∃ i', txn_info d' (badgerTx (shelf_tx t)) = Some i' ∧
      (i' = i ∨ i' = add_read (name t ++ Bytes k) i)) as (i' & E1 & E2)
      by (destruct Hi'; eauto).
    eexists _, _, i'. split_and!; [done..|]. apply advances_get_fails; try done.
Qed.

(** A write, [op] being the call of Badger that buffers it. *)
Lemma write_tracked t (k : Key) o s names i (op : DB → error * DB) :
  names (name t) → tracks (shelf_tx t) s names i →
  (let '(e, d') := op (db (back s)) in
   txn_info d' (badgerTx (shelf_tx t)) =
     Some (if is_nil e then add_write (name t ++ Bytes k, o) i else i) ∧
   ∀ it, it_open d' (badgerTx (shelf_tx t)) it → it_open (db (back s)) (badgerTx (shelf_tx t)) it) →
  does (shelf_tx t) s names i (badger op) (λ e, wrote e (λ d, apply_write d (name t ++ Bytes k, o))).
Proof.
  intros Hn (Hr & Hi & Hw & Hp & Hb) Hop. unfold does. rewrite badger_run.
  destruct (op (db (back s))) as [e d']. destruct Hop as [H1 H2]. eexists _, _, _.
  split_and!; [done|by eapply ready_same; [exact Hr|done|exact H2]|exact H1|].
  by apply advances_write.
Qed.

Lemma Put_tracked t k v s names i :
  names (name t) → tracks (shelf_tx t) s names i →
  does (shelf_tx t) s names i (badgerShelf_Put t k v)
    (λ e, wrote e (λ d, apply_write d (name t ++ Bytes k, Some v))).
Proof. intros Hn Hi. apply write_tracked; [done..|]. apply law_Set, Hi. apply Hi. Qed.

Lemma Delete_tracked t k s names i :
  names (name t) → tracks (shelf_tx t) s names i →
  does (shelf_tx t) s names i (badgerShelf_Delete t k)
    (λ e, wrote e (λ d, apply_write d (name t ++ Bytes k, None))).
Proof. intros Hn Hi. apply write_tracked; [done..|]. apply law_Delete, Hi. apply Hi. Qed.

(** *** Programs on one shelf *)

(** What a write does to the shelf. *)
Lemma wrote_shelf n k o e d d' :
  sorted d → wrote e (λ d, apply_write d (n ++ k, o)) d d' →
  e = ENil ∧ shelf_view n d' = apply_write (shelf_view n d) (k, o) ∨
  e ≠ ENil ∧ shelf_view n d' = shelf_view n d.
Proof.
  intros Hd [[-> ->]|[He ->]]; [left|by right]. split; [done|].
  destruct o; [by apply view_insert|apply view_delete].
Qed.

(** What an operation of the program [c'] has led to. *)
Definition client_after n i i' c' (x : error + client) : Prop :=
  match x with
  | inl e => advances (λ m, m = n) i i' (leads (runs_client n c') (returns (λ m, m = n) e))
  | inr c1 =>
      tracked c1 ∧ advances (λ m, m = n) i i' (leads (runs_client n c') (runs_client n c1))
  end.

Lemma client_step_tracked t c' s i :
  tracks (shelf_tx t) s (λ m, m = name t) i → tracked c' →
  ∃ x s' i', client_step (as_Writer fuel t) c' s = (Return x, s') ∧ ready (shelf_tx t) s' ∧
    txn_info (db (back s')) (badgerTx (shelf_tx t)) = Some i' ∧
    client_after (name t) i i' c' x.
Proof.
  intros Hi Ht. destruct Ht as [e|k v next Hn|k next Hn|k next Hn]; cbn [client_step].
  - destruct Hi as (Hr & Hi & Hw & Hp & _). exists (inl e), s, i. split_and!; try done.
    apply advances_same; [done..|]. intros d Hd e' σ [-> Hσ]. unfold runs_client.
    rewrite <-(Hσ (name t) eq_refl). constructor.
  - destruct (Put_tracked t k v s _ i eq_refl Hi) as (e & s' & i' & E & Hr' & Hi' & Ha).
    exists (inr (next e)), s', i'. split_and!; [exact (bind_Return _ _ _ _ _ E)|done..|split; [done|]].
    eapply advances_impl, Ha. intros d d' Hd HR e' σ H. unfold runs_client in *.
    apply wrote_shelf in HR as [[-> E1]|[He E1]]; [| |done]; rewrite E1 in H;
      [by constructor|by eapply spec_put_fails].
  - destruct (Delete_tracked t k s _ i eq_refl Hi) as (e & s' & i' & E & Hr' & Hi' & Ha).
    exists (inr (next e)), s', i'. split_and!; [exact (bind_Return _ _ _ _ _ E)|done..|split; [done|]].
    eapply advances_impl, Ha. intros d d' Hd HR e' σ H. unfold runs_client in *.
    apply wrote_shelf in HR as [[-> E1]|[He E1]]; [| |done]; rewrite E1 in H;
      [by constructor|by eapply spec_delete_fails].
  - destruct (Get_tracked t k s _ i Hi) as (r & s' & i' & E & Hr' & Hi' & Ha).
    exists (inr (next r)), s', i'. split_and!; [exact (bind_Return _ _ _ _ _ E)|done..|split; [done|]].
    eapply advances_impl, Ha. intros d d' Hd [-> HG] e' σ H. unfold runs_client in *.
    destruct HG as [->|(err & He & Hf & ->)]; by econstructor.
Qed.

(** *** Programs on several shelves *)

Lemma wrote_shelves names n k o e d d' :
  separate names → names n → sorted d → wrote e (λ d, apply_write d (n ++ k, o)) d d' →
  ∃ it, same_on names (shelves_in d') (set_shelf n it (shelves_in d)) ∧
    writes badger_write_fails None (shelves_in d n) (apply_write (shelves_in d n) (k, o)) e it.
Proof.
  intros Hsep Hn Hd HR. exists (shelf_view n d'). split.
  - intros m Hm. unfold set_shelf, shelves_in. case_bool_decide as Hmn; [by subst|].
    destruct HR as [[_ ->]|[_ ->]]; [|done]. apply view_apply_write_other. auto.
  - apply wrote_shelf in HR as [[-> E]|[He E]]; [left|right|done]; done.
Qed.

(** The rest of a program after a write, and after a read. *)
Lemma leads_write names n k o hs e pr next d d' :
  separate names → names n → program_on names (next e) → sorted d →
  (∀ it σ e' σ', writes badger_write_fails None (σ n) (apply_write (σ n) (k, o)) e it →
     program_spec hs (set_shelf n it σ) (next e) e' σ' → program_spec hs σ pr e' σ') →
  wrote e (λ d, apply_write d (n ++ k, o)) d d' →
  leads (runs_program names hs pr) (runs_program names hs (next e)) d d'.
Proof.
  intros Hsep Hn Hon Hd Hpr HR e' σ (σ1 & H & H1).
  destruct (wrote_shelves names n k o e d d' Hsep Hn Hd HR) as (it & Hs & Hw).
  destruct (program_spec_same names _ _ _ _ _ _ _ _ _ _ H Hon Hs) as (σ2 & H2 & Hs2).
  exists σ2. split; [by eapply Hpr|]. by rewrite <-Hs2.
Qed.

Lemma leads_get names n (k : Key) hs r next d d' :
  hs !! n = Some None → got n k r d d' →
  leads (runs_program names hs (p_get n k next)) (runs_program names hs (next r)) d d'.
Proof.
  intros Hh [-> HG] e σ (σ1 & H & H1). exists σ1. split; [|done].
  eapply ps_get; [by apply uses_known|exact HG|exact H].
Qed.

(** An operation on the shelf [n], which the program [pr] comes to: the program asks for a
    writer of it, or has one, made for it by the transaction. *)
Lemma on_writer_tracked b names n pr ws hs s i op :
  program_shelf pr = Some n → tracked_on names pr → kept (writer_in fuel b) s ws hs →
  tracks b s names i →
  (hs !! n = Some None → ∃ pr1 s' i', op (as_Writer fuel (mkShelf (tx_ctx b) n b)) s = (Return pr1, s') ∧
     ready b s' ∧ txn_info (db (back s')) (badgerTx b) = Some i' ∧ tracked_on names pr1 ∧
     advances names i i' (leads (runs_program names hs pr) (runs_program names hs pr1))) →
  ∃ ws' pr1 s' i' hs', on_writer (as_WriteTx fuel b) ws n pr op s = (Return (inr (ws', pr1)), s') ∧
    ready b s' ∧ txn_info (db (back s')) (badgerTx b) = Some i' ∧ tracked_on names pr1 ∧
    kept (writer_in fuel b) s' ws' hs' ∧
    advances names i i' (leads (runs_program names hs pr) (runs_program names hs' pr1)).
Proof.
  intros Ep Ht Hk Hi Hop. unfold on_writer. destruct (ws !! n) as [w|] eqn:Ew.
  - destruct (proj1 Hk n w Ew) as (r & Hr & -> & ->).
    destruct (Hop Hr) as (pr1 & s' & i' & E & H). rewrite (bind_Return _ _ _ _ _ E).
    exists ws, pr1, s', i', hs. by split_and!; try apply H.
  - destruct Hi as (Hr & Hi & Hw & Hp & _). apply (proj2 Hk) in Ew.
    exists (<[n := tx_GetShelfWriter fuel b n]> ws), pr, s, i, (<[n := None]> hs).
    split_and!; try done.
    + by apply kept_insert.
    + apply advances_same; [done..|]. intros d Hd e σ (σ1 & H & H1). exists σ1. split; [|done].
      eapply program_spec_used; [by apply uses_opened|done|done].
Qed.

Lemma program_step_tracked b names pr ws hs s i :
  separate names → tracked_on names pr → kept (writer_in fuel b) s ws hs → tracks b s names i →
  ∃ x s' i', program_step (as_WriteTx fuel b) ws pr s = (Return x, s') ∧ ready b s' ∧
    txn_info (db (back s')) (badgerTx b) = Some i' ∧
    match x with
    | inl e => advances names i i' (leads (runs_program names hs pr) (returns names e))
    | inr (ws', pr') => tracked_on names pr' ∧ ∃ hs', kept (writer_in fuel b) s' ws' hs' ∧
        advances names i i' (leads (runs_program names hs pr) (runs_program names hs' pr'))
    end.
Proof.
  intros Hsep Ht Hk Hi.
  assert (HO : ∀ n op, program_shelf pr = Some n →
    (hs !! n = Some None → ∃ pr1 s' i', op (as_Writer fuel (mkShelf (tx_ctx b) n b)) s = (Return pr1, s') ∧
       ready b s' ∧ txn_info (db (back s')) (badgerTx b) = Some i' ∧ tracked_on names pr1 ∧
       advances names i i' (leads (runs_program names hs pr) (runs_program names hs pr1))) →
    ∃ x s' i', on_writer (as_WriteTx fuel b) ws n pr op s = (Return (inr x), s') ∧ ready b s' ∧
      txn_info (db (back s')) (badgerTx b) = Some i' ∧ tracked_on names x.2 ∧
      ∃ hs', kept (writer_in fuel b) s' x.1 hs' ∧
        advances names i i' (leads (runs_program names hs pr) (runs_program names hs' x.2))).
  { intros n op Ep Hop.
    destruct (on_writer_tracked b names n pr ws hs s i op Ep Ht Hk Hi Hop)
      as (ws' & pr1 & s' & i' & hs' & E & H1 & H2 & H3 & H4 & H5).
    exists (ws', pr1), s', i'. split_and!; [done..|]. by exists hs'. }
  destruct Ht as [e|n k v next Hn Hnext|n k next Hn Hnext|n k next Hn Hnext]; cbn [program_step].
  { destruct Hi as (Hr & Hi & Hw & Hp & _). exists (inl e), s, i. split_and!; try done.
    apply advances_same; [done..|]. intros d Hd e' σ [-> Hσ]. exists (shelves_in d).
    split; [constructor|done]. }
  all: edestruct (HO n) as ([ws' pr1] & s' & i' & E & H); [done| |by exists (inr (ws', pr1)), s', i'];
    intros Hh; set (t := mkShelf (tx_ctx b) n b).
  - destruct (Put_tracked t k v s names i Hn Hi) as (e & s2 & i2 & E2 & Hr2 & Hi2 & Ha).
    exists (next e), s2, i2. split_and!; [exact (bind_Return _ _ _ _ _ E2)|done|done|done|].
    eapply advances_impl, Ha. intros d d' Hd HR.
    eapply leads_write; [done|done|by apply tracked_program_on|done| |exact HR].
    intros it σ e' σ' Hw H1. eapply ps_put; [by apply uses_known|exact Hw|exact H1].
  - destruct (Delete_tracked t k s names i Hn Hi) as (e & s2 & i2 & E2 & Hr2 & Hi2 & Ha).
    exists (next e), s2, i2. split_and!; [exact (bind_Return _ _ _ _ _ E2)|done|done|done|].
    eapply advances_impl, Ha. intros d d' Hd HR.
    eapply leads_write; [done|done|by apply tracked_program_on|done| |exact HR].
    intros it σ e' σ' Hw H1. eapply ps_delete; [by apply uses_known|exact Hw|exact H1].
  - destruct (Get_tracked t k s names i Hi) as (r & s2 & i2 & E2 & Hr2 & Hi2 & Ha).
    exists (next r), s2, i2. split_and!; [exact (bind_Return _ _ _ _ _ E2)|done|done|done|].
    eapply advances_impl, Ha. intros d d' Hd HR. by apply leads_get.
Qed.

(** The operations of a program, and of an inquiry, stay inside the transaction. *)
Lemma inside_program_step b ws hs pr s :
  kept (writer_in fuel b) s ws hs → inside b s (program_step (as_WriteTx fuel b) ws pr s).2.
Proof.
  intros [Hk _]. refine (keeps_program_step (inside b) _ ws pr _ _ s).
  - intros n. apply keeps_ret, _.
  - intros n w Ew. destruct (Hk n w Ew) as (r & _ & _ & ->). apply (inside_writer fuel (mkShelf _ n b)).
Qed.

Lemma inside_inquiry_step b rs i s :
  readers_of b rs → inside b s (inquiry_step (as_ReadTx fuel b) rs i s).2.
Proof.
  intros Hk. refine (keeps_inquiry_step (inside b) _ rs i _ _ s).
  - intros n. apply keeps_ret, _.
  - intros n r Er. rewrite (Hk n r Er). apply (inside_reader fuel (mkShelf _ n b)).
Qed.
End tasks.
