(* ===== verification/BadgerSteps.v ===== *)
(** The phases of goroutines on one Badger store: what each does to its goroutine and to the
    others. BadgerSerial.v puts the goroutines together. *)
From S2P Require Import Prelude Errors Keys Go Store Lock Timeout Shelf Prefix Pending Client.
From S2P Require Import Program Interleave Badger BadgerSpec BadgerFacts BadgerShelf BadgerFrame.
From S2P Require Import BadgerTx BadgerProgram BadgerConc BadgerTask.

Section steps.
Context `{BS : BadgerSpec} {W : Type} `{!Env W, !CallScheduler W}.
Context (fuel : nat) (tasks : list (task (W := W))).
Implicit Types (s : St store W) (p : task (W := W)) (ph : phase (W := W)) (b : tx (W := W)).
Implicit Types (names : bytes → Prop).
Abbreviation M := (M store W).
Abbreviation query_spec := (query_spec badger_read_fails).
Abbreviation inquiry_spec := (inquiry_spec badger_read_fails).
Abbreviation serial := (serial tasks task_spec).
Abbreviation explained := (explained tasks).
Abbreviation snapshot := (snapshot tasks).
Abbreviation in_use := (in_use tasks).
Abbreviation querying := (querying tasks).
Abbreviation task_writing := (task_writing tasks).
Abbreviation thread_ok := (thread_ok fuel tasks).

(** *** The phases in the callback *)

(** What a phase of the goroutine [j] leads to: it ends with [ph'] and [s'], and the log
    grows to [h'], by the call itself if it has installed its writes. The
    transactions of others are not touched; a new one is not one of theirs. *)
Record step_ok d0 floor h (j : nat) p ph s h' ph' s' : Prop := {
  so_log : h' = h ∧ data s' = data s ∨
    ∃ e, h' = h ++ [(j, e)] ∧ finished ph = None ∧ finished ph' = Some e ∧
      task_spec p (data s) e (data s');
  so_sorted : sorted (data s');
  so_open : open_db s' = open_db s;
  so_ok : thread_ok d0 floor h' j p ph' s';
  so_frame : ∀ b', txn_made (db (back s)) (badgerTx b') → is_Some (txs (back s) !! address b') →
    (∀ b, phase_tx ph = Some b → badgerTx b' ≠ badgerTx b ∧ address b' ≠ address b) →
    untouched b' s s';
  so_new : ∀ b, phase_tx ph' = Some b → phase_tx ph = Some b ∨
    ¬ txn_made (db (back s)) (badgerTx b) ∧ txs (back s) !! address b = None;
  so_finished : ∀ e, finished ph = Some e → finished ph' = Some e
}.

Lemma inside_untouched b b' s s' :
  inside b s s' → badgerTx b' ≠ badgerTx b → address b' ≠ address b → untouched b' s s'.
Proof. intros [(_ & [_ He] & _) Ha] H1 H2. split; [by apply He|by apply Ha]. Qed.

(** A phase within the callback. *)
Lemma step_ok_inside d0 floor h j p ph s ph' s' b :
  phase_tx ph = Some b → phase_tx ph' = Some b → finished ph = None → sorted (data s) →
  inside b s s' → thread_ok d0 floor h j p ph' s' → step_ok d0 floor h j p ph s h ph' s'.
Proof.
  intros H1 H2 Hf Hs Hin Hok. assert (Hd : data s' = data s) by apply Hin.
  split; try done.
  - by left.
  - by rewrite Hd.
  - by eapply inside_open.
  - intros b' _ _ Hb. destruct (Hb b H1). by eapply inside_untouched.
  - intros b' Hb'. left. congruence.
  - intros e. by rewrite Hf.
Qed.

Lemma in_use_inside d0 floor h b s s' i i' :
  in_use d0 floor h b s i → inside b s s' → ready b s' →
  txn_info (db (back s')) (badgerTx b) = Some i' → tv_base i' = tv_base i →
  in_use d0 floor h b s' i'.
Proof.
  intros (_ & Hm & _ & Hs) [(_ & _ & Hmm & _) _] Hr Hi Hb.
  split_and!; [done|by apply Hmm|done|by rewrite Hb].
Qed.

Lemma in_use_sorted d0 floor h b s i : in_use d0 floor h b s i → sorted (tv_base i).
Proof. by intros (_ & _ & _ & h1 & _ & _ & _ & H). Qed.

(** What a goroutine in its callback has come to, from the view [i] it had. *)
Lemma writing_next d0 floor h b s s' names i i' p rest rest' :
  in_use d0 floor h b s i → covers names p → replays (task_runs names p) rest i → inside b s s' →
  ready b s' → txn_info (db (back s')) (badgerTx b) = Some i' →
  advances names i i' (leads rest rest') → task_writing d0 floor h b s' p names rest'.
Proof.
  intros Hu Hc Hrep Hin Hr' Hi' Ha. split; [done|]. exists i'.
  split_and!; [by eapply in_use_inside, Ha|apply Ha|apply Ha|by eapply advances_replays].
Qed.

Lemma in_use_tracks d0 floor h b s names i :
  in_use d0 floor h b s i → tv_write i = true → writes_in names (tv_pending i) →
  tracks b s names i.
Proof. intros Hu Hw Hp. split_and!; try apply Hu; try done. by eapply in_use_sorted. Qed.

Lemma badger_step_write d0 floor h j p b w c' s :
  thread_ok d0 floor h j p (Ph_write b w c') s → sorted (data s) →
  ∃ ph' s', thread_step fuel p (Ph_write b w c') s = (Return ph', s') ∧
    step_ok d0 floor h j p (Ph_write b w c') s h ph' s'.
Proof.
  destruct p as [ctx n c| | |]; try done. intros (-> & Ht & Hc & i & Hu & Hw & Hp & Hrep) Hs.
  set (t := mkShelf (tx_ctx b) n b).
  destruct (client_step_tracked fuel t c' s i) as (x & s' & i' & E & Hr' & Hi' & Ha);
    [by eapply in_use_tracks|done|].
  pose proof (keeps_client_step _ _ c' (inside_writer fuel t) s) as Hin. rewrite E in Hin.
  cbn [thread_step]. unfold recover. change (tx_GetShelfWriter fuel b n) with (as_Writer fuel t).
  rewrite E. eexists _, s'. split; [done|].
  destruct x as [e|c1]; apply (step_ok_inside _ _ _ _ _ _ _ _ _ b); try done; cbn.
  - exists (λ m, m = n). by eapply writing_next.
  - destruct Ha as [Ht1 Ha]. split_and!; [done|done|]. by eapply writing_next.
Qed.

Lemma badger_step_transact d0 floor h j p b ws pr s :
  thread_ok d0 floor h j p (Ph_transact b ws pr) s → sorted (data s) →
  ∃ ph' s', thread_step fuel p (Ph_transact b ws pr) s = (Return ph', s') ∧
    step_ok d0 floor h j p (Ph_transact b ws pr) s h ph' s'.
Proof.
  intros (names & hs & Ht & Hsep & Hk & Hc & i & Hu & Hw & Hp & Hrep) Hs.
  destruct (program_step_tracked fuel b names pr ws hs s i Hsep Ht Hk)
    as (x & s' & i' & E & Hr' & Hi' & Ha); [by eapply in_use_tracks|].
  pose proof (inside_program_step fuel b ws hs pr s Hk) as Hin. rewrite E in Hin.
  cbn [thread_step]. unfold recover. rewrite E. eexists _, s'. split; [done|].
  assert (task_writable p = true) as Hwr by (by destruct p).
  destruct x as [e|[ws1 pr1]]; apply (step_ok_inside _ _ _ _ _ _ _ _ _ b); try done; cbn [thread_ok].
  - rewrite Hwr. exists names. by eapply writing_next.
  - destruct Ha as (Ht1 & hs1 & Hk1 & Ha). exists names, hs1. split_and!; [done..|].
    by eapply writing_next.
Qed.

(** A reader in its callback: the transaction shows the snapshot before and after. *)
Lemma querying_next d0 floor h b s s' i whole (rest rest' : items → error → Prop) :
  in_use d0 floor h b s i → tv_write i = false → view_pairs i = tv_base i →
  (∀ e, rest (tv_base i) e → whole (tv_base i) e) → inside b s s' → ready b s' →
  live b s' false (tv_base i) → (∀ e, rest' (tv_base i) e → rest (tv_base i) e) →
  querying d0 floor h b s' whole rest'.
Proof.
  intros Hu Hw Hvw Hq Hin Hr' Hv' HR. pose proof Hu as (_ & _ & Hi & _).
  pose proof Hin as [(_ & _ & _ & HI) _]. destruct (HI i Hi) as (i' & Hi' & Hw' & Hb').
  exists i'. split_and!; [by eapply in_use_inside|by rewrite Hw'| |].
  - unfold live in Hv'. rewrite (info_txn_state _ _ _ Hi') in Hv'. by injection Hv' as _ ->.
  - rewrite Hb'. auto.
Qed.

Lemma in_use_live d0 floor h b s i :
  in_use d0 floor h b s i → tv_write i = false → view_pairs i = tv_base i →
  live b s false (tv_base i).
Proof. intros (_ & _ & Hi & _) Hw Hvw. unfold live. by rewrite (info_txn_state _ _ _ Hi), Hw, Hvw. Qed.

(** The operations of a reader, whether the database is open or not: on a closed one [Empty]
    may panic. *)
Lemma Get_reads t k s v :
  ready (shelf_tx t) s → live (shelf_tx t) s false v →
  ∃ x s', badgerShelf_Get t k s = (Return x, s') ∧ ready (shelf_tx t) s' ∧
    live (shelf_tx t) s' false v ∧ gets badger_read_fails None k (shelf_view (name t) v) x.
Proof.
  intros Hr Hv. destruct (badger_Get_spec t k s false v Hv) as (x & s' & E & Hu & HC).
  destruct (unmoved_tx _ _ _ _ _ Hu Hr Hv) as [Hr' Hv']. exists x, s'. split_and!; [done..|].
  unfold gets, get_result.
  destruct HC as [(y & -> & ->)|[(-> & ->)|(e & He & Hi & ->)]]; [by left..|right; eauto].
Qed.

(** What a step of a reader in the transaction [b] comes to: [P], with the transaction as it
    was, or a panic on a closed database. *)
Definition reads {A} b s v (m : M A) (P : A → Prop) : Prop :=
  (∃ x s', m s = (Return x, s') ∧ ready b s' ∧ live b s' false v ∧ P x) ∨
  (open_db s = false ∧ ∃ s', m s = (Panic, s') ∧ ready b s').

Lemma reads_bind {A C} b s v (m : M A) (k : A → C) (P : A → Prop) (Q : C → Prop) :
  reads b s v m P → (∀ a, P a → Q (k a)) → reads b s v (a ← m; mret (k a)) Q.
Proof.
  intros [(x & s' & E & Hr & Hv & HP)|(Ho & s' & E & Hr)] HQ; [left; exists (k x), s'|right].
  - rewrite (bind_Return _ _ _ _ _ E). by split_and!; [| | |apply HQ].
  - split; [done|]. exists s'. unfold mbind, M_bind. by rewrite E.
Qed.

Lemma reads_Get t k s v :
  ready (shelf_tx t) s → live (shelf_tx t) s false v →
  reads (shelf_tx t) s v (badgerShelf_Get t k) (gets badger_read_fails None k (shelf_view (name t) v)).
Proof. intros Hr Hv. left. by apply Get_reads. Qed.

Lemma reads_Empty t s v :
  ready (shelf_tx t) s → live (shelf_tx t) s false v → sorted v →
  reads (shelf_tx t) s v (badgerShelf_Empty t)
    (λ x, x = (bool_decide (shelf_view (name t) v = []), ENil)).
Proof.
  intros Hr Hv Hs. destruct (badger_Empty_cases t s false v Hr Hv Hs)
    as [(s' & E & Hr' & Hv' & _)|H]; [left|by right]. by eexists _, s'.
Qed.

Lemma query_step_reads t v q s :
  ready (shelf_tx t) s → live (shelf_tx t) s false v → sorted v →
  reads (shelf_tx t) s v (query_step (as_Reader fuel t) q) (λ x,
    match x with
    | inl e => query_spec (shelf_view (name t) v) q e
    | inr q' => ∀ e, query_spec (shelf_view (name t) v) q' e → query_spec (shelf_view (name t) v) q e
    end).
Proof.
  intros Hr Hv Hs. destruct q as [e|k next|next]; cbn [query_step].
  - left. exists (inl e), s. split_and!; [done..|constructor].
  - eapply reads_bind; [by apply reads_Get|]. intros x [->|(err & Hn & Hf & ->)] e; by econstructor.
  - eapply reads_bind; [by apply reads_Empty|]. intros x -> e; by econstructor.
Qed.

(** What the next operation of [i] leads to. *)
Definition inquiry_after b (v : items) (i : inquiry)
    (x : error + gmap bytes (Reader store W) * inquiry) : Prop :=
  match x with
  | inl e => inquiry_spec (shelves_in v) i e
  | inr (rs', i') => readers_of fuel b rs' ∧
      ∀ e, inquiry_spec (shelves_in v) i' e → inquiry_spec (shelves_in v) i e
  end.

Lemma on_reader_reads b rs n (i : inquiry) v s op :
  ready b s → live b s false v → readers_of fuel b rs →
  reads b s v (op (as_Reader fuel (mkShelf (tx_ctx b) n b)))
    (λ i', ∀ e, inquiry_spec (shelves_in v) i' e → inquiry_spec (shelves_in v) i e) →
  reads b s v (on_reader (as_ReadTx fuel b) rs n i op) (inquiry_after b v i).
Proof.
  intros Hr Hv Hk Hop. unfold on_reader. destruct (rs !! n) as [r|] eqn:Er.
  - rewrite (Hk n r Er). eapply reads_bind; [exact Hop|]. by intros i' Hi.
  - left. exists (inr (<[n := as_Reader fuel (mkShelf (tx_ctx b) n b)]> rs, i)), s.
    split_and!; [done..|split; [|done]]. intros m r'. rewrite lookup_insert_Some.
    intros [[<- <-]|[_ Hr']]; [done|by apply Hk].
Qed.

Lemma inquiry_step_reads b rs i v s :
  ready b s → live b s false v → sorted v → readers_of fuel b rs →
  reads b s v (inquiry_step (as_ReadTx fuel b) rs i) (inquiry_after b v i).
Proof.
  intros Hr Hv Hs Hk. destruct i as [e|n k next|n next]; cbn [inquiry_step].
  - left. exists (inl e), s. split_and!; [done..|constructor].
  - apply on_reader_reads; [done..|]. set (t := mkShelf (tx_ctx b) n b).
    eapply reads_bind; [by apply (reads_Get t)|]. intros x Hx e. by econstructor.
  - apply on_reader_reads; [done..|]. set (t := mkShelf (tx_ctx b) n b).
    eapply reads_bind; [by apply (reads_Empty t)|]. intros x -> e. by constructor.
Qed.

(** A panic within the callback: the deferred rollback is next. *)
Lemma step_ok_panic d0 floor h j p ph s s' b i :
  phase_tx ph = Some b → finished ph = None → sorted (data s) → in_use d0 floor h b s i →
  inside b s s' → ready b s' → open_db s = false →
  step_ok d0 floor h j p ph s h (Ph_cleanup b None) s'.
Proof.
  intros H1 Hf Hs (_ & Hm & _) Hin Hr Ho. apply (step_ok_inside _ _ _ _ _ _ _ _ _ b); try done.
  split_and!; [done|by apply Hin|]. by rewrite (inside_open _ _ _ Hin).
Qed.

Lemma badger_step_read d0 floor h j p b r q' s :
  thread_ok d0 floor h j p (Ph_read b r q') s → sorted (data s) →
  ∃ ph' s', thread_step fuel p (Ph_read b r q') s = (Return ph', s') ∧
    step_ok d0 floor h j p (Ph_read b r q') s h ph' s'.
Proof.
  destruct p as [|ctx n q| |]; try done. intros (-> & i & Hu & Hw & Hvw & Hq) Hs.
  set (t := mkShelf (tx_ctx b) n b).
  pose proof (keeps_query_step _ _ q' (inside_reader fuel t) s) as Hin.
  cbn [thread_step]. unfold recover. change (tx_GetShelfReader fuel b n) with (as_Reader fuel t).
  destruct (query_step_reads t (tv_base i) q' s)
    as [(x & s' & E & Hr' & Hv' & Hx)|(Ho & s' & E & Hr')];
    [apply Hu|by eapply in_use_live|by eapply in_use_sorted|..]; rewrite E in *;
    (eexists _, s'; split; [done|]); [|by eapply step_ok_panic].
  destruct x as [e|q1]; apply (step_ok_inside _ _ _ _ _ _ _ _ _ b); try done; cbn; [|split; [done|]];
    (eapply (querying_next _ _ _ _ _ _ i _ (λ d, query_spec (shelf_view n d) q'));
      [exact Hu|done|done|exact Hq|exact Hin|exact Hr'|exact Hv'|]).
  - by intros e' ->.
  - exact Hx.
Qed.

Lemma badger_step_inquire d0 floor h j p b rs i' s :
  thread_ok d0 floor h j p (Ph_inquire b rs i') s → sorted (data s) →
  ∃ ph' s', thread_step fuel p (Ph_inquire b rs i') s = (Return ph', s') ∧
    step_ok d0 floor h j p (Ph_inquire b rs i') s h ph' s'.
Proof.
  intros (Hwr & Hk & i & Hu & Hw & Hvw & Hq) Hs.
  pose proof (inside_inquiry_step fuel b rs i' s Hk) as Hin. cbn [thread_step]. unfold recover.
  destruct (inquiry_step_reads b rs i' (tv_base i) s)
    as [(x & s' & E & Hr' & Hv' & Hx)|(Ho & s' & E & Hr')];
    [apply Hu|by eapply in_use_live|by eapply in_use_sorted|exact Hk|..]; rewrite E in *;
    (eexists _, s'; split; [done|]); [|by eapply step_ok_panic].
  destruct x as [e|[rs1 i1]]; apply (step_ok_inside _ _ _ _ _ _ _ _ _ b); try done; cbn [thread_ok].
  - rewrite Hwr. eapply (querying_next _ _ _ _ _ _ i _ (λ d, inquiry_spec (shelves_in d) i'));
      [exact Hu|done|done|exact Hq|exact Hin|exact Hr'|exact Hv'|].
    by intros e' ->.
  - destruct Hx as [Hk1 Hx]. split_and!; [done..|].
    by eapply (querying_next _ _ _ _ _ _ i _ (λ d, inquiry_spec (shelves_in d) i'));
      [exact Hu|done|done|exact Hq|exact Hin|exact Hr'|exact Hv'|].
Qed.

(** *** The begin and the end *)

Lemma badger_step_begin d0 floor h j p s :
  thread_ok d0 floor h j p Ph_begin s → serial d0 h (data s) → sorted (data s) →
  ∃ ph' s', thread_step fuel p Ph_begin s = (Return ph', s') ∧
    step_ok d0 floor h j p Ph_begin s h ph' s'.
Proof.
  intros [Hf Hok] Hser Hs. cbn [thread_step].
  destruct (new_tx_run (task_ctx p) (task_writable p) s)
    as (b & s' & E & Hr & Hc & Hi & Hd & _ & Hn & Hm & [Ho He] & Ha & Hk).
  rewrite (bind_Return _ _ _ _ _ E). eexists _, s'. split; [done|].
  assert (Hu : in_use d0 floor h b s' (mkView (task_writable p) (data s) [] [])).
  { split_and!; try done. by exists h. }
  assert (HW : task_writable p = true → ∀ names rest, covers names p →
    (∀ d e σ, rest d e σ → task_runs names p d e σ) → task_writing d0 floor h b s' p names rest).
  { intros Hw names rest Hcv HR. split; [done|]. eexists. split; [exact Hu|]. cbn.
    split_and!; [done|constructor|]. intros d _ _ e σ. apply HR. }
  assert (HQ : task_writable p = false → ∀ rest : items → error → Prop,
    (∀ e, rest (data s) e → task_asks p (data s) e) → querying d0 floor h b s' (task_asks p) rest).
  { intros Hw rest HR. eexists. split; [exact Hu|]. by split_and!. }
  assert (phase_tx (open_phase fuel p b) = Some b ∧ finished (open_phase fuel p b) = None)
    as [Hph Hfin] by (by destruct p).
  split.
  - by left.
  - by rewrite Hd.
  - exact Ho.
  - destruct p as [ctx n c|ctx n q|ctx pr|ctx i]; cbn [thread_ok open_phase].
    + split_and!; [done|done|]. by apply HW.
    + split; [done|]. by apply HQ.
    + destruct Hok as (names & Hsep & Ht). exists names, ∅.
      split_and!; [done|done|apply kept_none|]. apply HW; [done|split; [done|]|done].
      by apply tracked_program_on.
    + split_and!; [done|apply kept_readers_none|]. by apply HQ.
  - intros b' Hm' Ha' _. split; [|by apply Hk]. apply He. intros Eb. rewrite Eb in Hm'. by destruct Hn.
  - intros b' Hb'. right. rewrite Hph in Hb'. by injection Hb' as <-.
  - done.
Qed.

(** Phases that end the transaction [b], or find it ended. *)
Lemma apart_untouched b b' s s' :
  apart b s s' → badgerTx b' ≠ badgerTx b → address b' ≠ address b → untouched b' s s'.
Proof. intros ([_ He] & _ & Ha) H1 H2. split; [by apply He|by apply Ha]. Qed.

Lemma apart_open b s s' : apart b s s' → open_db s' = open_db s.
Proof. by intros ([Ho _] & _). Qed.

Lemma step_cleanup d0 floor h j p b e s :
  thread_ok d0 floor h j p (Ph_cleanup b (Some e)) s → sorted (data s) →
  ∃ ph' s', thread_step fuel p (Ph_cleanup b (Some e)) s = (Return ph', s') ∧
    step_ok d0 floor h j p (Ph_cleanup b (Some e)) s h ph' s'.
Proof.
  intros Hok Hs. destruct Hok as (Hr & Hm & He).
  destruct (rollback_apart b s Hr) as (s' & E & _ & Hd & _ & Ha). cbn [thread_step].
  rewrite (bind_Return _ _ _ _ _ E). eexists _, s'. split; [done|]. split; try done.
  - by left.
  - by rewrite Hd.
  - by eapply apart_open.
  - intros b' _ _ Hb. destruct (Hb b eq_refl). by eapply apart_untouched.
Qed.

(** The end of the function, with the result [r]: either the log is as it was and the
    result explained, or the call has installed its writes. *)
Definition ends d0 floor h (j : nat) p b s (r : error) s' : Prop :=
  ready b s' ∧ apart b s s' ∧
  (data s' = data s ∧ explained d0 floor h j p r ∨
   sorted (data s') ∧ task_spec p (data s) r (data s')).

Lemma step_ok_ends d0 floor h j p b e s r s' :
  txn_made (db (back s)) (badgerTx b) → sorted (data s) → ends d0 floor h j p b s r s' →
  ∃ h', h `prefix_of` h' ∧
    step_ok d0 floor h j p (Ph_finish b e) s h' (Ph_cleanup b (Some r)) s'.
Proof.
  intros Hm Hs (Hr & Ha & HC).
  assert (Hfr : ∀ b', txn_made (db (back s)) (badgerTx b') → is_Some (txs (back s) !! address b') →
    (∀ b0, phase_tx (Ph_finish b e) = Some b0 → badgerTx b' ≠ badgerTx b0 ∧ address b' ≠ address b0) →
    untouched b' s s').
  { intros b' _ _ Hb. destruct (Hb b eq_refl). by eapply apart_untouched. }
  assert (Hm' : txn_made (db (back s')) (badgerTx b)) by (by apply Ha).
  pose proof (apart_open _ _ _ Ha) as Ho. destruct HC as [[Hd He]|[Hs' Hsp]].
  - exists h. split; [done|]. split; try done; [by left|by rewrite Hd|].
    intros b' [= <-]. by left.
  - exists (h ++ [(j, r)]). split; [by apply prefix_app_r|]. split; try done.
    + right. by exists r.
    + split_and!; [done|done|]. left. apply elem_of_app. right. by left.
    + intros b' [= <-]. by left.
Qed.

Lemma end_read d0 floor h j p ctx b e s :
  querying d0 floor h b s (task_asks p) (λ _ e', e' = e) →
  ∃ s', end_tx ctx b false e s = (Return e, s') ∧ ends d0 floor h j p b s e s'.
Proof.
  intros (i & (Hr & _ & _ & Hsn) & _ & _ & Hq). unfold end_tx. cbn [negb].
  destruct (rollback_apart b s Hr) as (s' & E & Hr' & Hd & _ & Ha).
  rewrite (bind_Return _ _ _ _ _ E). exists s'. split; [done|]. split_and!; [done|done|].
  left. split; [done|]. right. exists (tv_base i). split; [done|]. by apply task_answers, Hq.
Qed.

(** What the writes of a program that has succeeded make of a database it agrees with. *)
Lemma writer_commits names p e i d :
  covers names p → sorted d → agrees i d → writes_in names (tv_pending i) →
  replays (task_runs names p) (returns names e) i →
  let d' := apply_writes (tv_pending i) d in
  task_runs names p d e (shelves_in d') ∧ installed names d (shelves_in d') d'.
Proof.
  intros Hc Hd Hg Hw Hrep. cbv zeta. split; [by apply Hrep|].
  split_and!; [auto with shelf|done|]. intros m Hm. by eapply view_apply_other.
Qed.

(** A writer that has not installed anything. *)
Lemma writer_failed d0 floor h j p names b s e :
  task_writing d0 floor h b s p names (returns names e) →
  (e ≠ ENil → explained d0 floor h j p e) ∧
  ∀ r, r ≠ ENil → is_database_error r = true → explained d0 floor h j p r.
Proof.
  intros (Hc & i & Hu & _ & Hw & Hrep). pose proof (in_use_sorted _ _ _ _ _ _ Hu) as Hbs.
  destruct Hu as (_ & _ & _ & Hsn).
  split; intros; right; exists (tv_base i); (split; [done|]).
  - by eapply task_fails; [eapply (writer_commits names p e i (tv_base i))|].
  - by eapply task_refused.
Qed.

Lemma end_commit d0 floor h j p names b s i :
  covers names p → in_use d0 floor h b s i → sorted (data s) → tv_write i = true →
  writes_in names (tv_pending i) → replays (task_runs names p) (returns names ENil) i →
  (∀ r, r ≠ ENil → is_database_error r = true → explained d0 floor h j p r) →
  ∃ err s', commit b s = (Return err, s') ∧
    ends d0 floor h j p b s (if negb (is_nil err) then WrapError ErrCommitFailed err else ENil) s'.
Proof.
  intros Hc Hu Hs Hwr Hp Hrep Hf. pose proof Hu as (Hr & Hm & Hi & Hsn).
  assert (HC : ∀ d, sorted d → agrees i d → sorted (apply_writes (tv_pending i) d) ∧
    task_spec p d ENil (apply_writes (tv_pending i) d)).
  { intros d Hd Hg. destruct (writer_commits names p ENil i d) as [H1 H2]; [done..|].
    split; [apply H2|by eapply task_commits]. }
  destruct (commit_apart b s i Hr Hi Hwr) as (err & s' & E & Hr' & _ & Ha & Hd & Hk).
  exists err, s'. split; [done|]. split_and!; [done|done|].
  destruct (is_nil err) eqn:Ee; cbn [negb].
  - apply is_nil_true in Ee as ->. rewrite Hd.
    destruct (decide (tv_pending i = [])) as [Hnil|Hne]; [left|right; exact (HC _ Hs (Hk eq_refl Hne))].
    rewrite Hnil. split; [done|]. right. exists (tv_base i). split; [done|].
    destruct (HC (tv_base i)) as [_ H]; [by eapply in_use_sorted|by intros k|].
    by rewrite Hnil in H.
  - left. split; [done|]. apply Hf; [done|]. unfold is_database_error. by rewrite errors_Is_step.
Qed.

Lemma end_write d0 floor h j p names ctx b e s :
  sticky ctx → sorted (data s) → task_writing d0 floor h b s p names (returns names e) →
  ∃ r s', end_tx ctx b true e s = (Return r, s') ∧ ends d0 floor h j p b s r s'.
Proof.
  intros Hst Hs Hw. destruct (writer_failed d0 floor h j p names b s e Hw) as [Hf1 Hf2].
  destruct Hw as (Hc & i & Hu & Hwr & Hp & Hrep). pose proof Hu as (Hr & Hm & Hi & Hsn).
  unfold end_tx. cbn [negb]. destruct (is_nil e) eqn:En.
  2: { destruct (rollback_apart b s Hr) as (s' & E & Hr' & Hd & _ & Ha).
    rewrite (bind_Return _ _ _ _ _ E). exists e, s'. split; [done|]. split_and!; [done|done|left].
    split; [done|]. by apply Hf1, is_nil_false. }
  apply is_nil_true in En as ->. rewrite (bind_Return _ _ _ _ _ (ctx_Err_run ctx s)).
  set (s1 := mkSt (back s) (tick (world s))).
  destruct (is_nil (Err ctx (tick (world s)))) eqn:Ec; cbn [negb].
  - destruct (end_commit d0 floor h j p names b s1 i Hc Hu Hs Hwr Hp Hrep Hf2) as (err & s' & E & He).
    rewrite (bind_Return _ _ _ _ _ E). by eexists _, s'.
  - rewrite bind_assoc, (bind_Return _ _ _ _ _ (ctx_Err_run ctx s1)).
    set (s2 := mkSt (back s1) (tick (world s1))).
    destruct (rollback_apart b s2 Hr) as (s' & E & Hr' & Hd & _ & Ha).
    rewrite bind_assoc, (bind_Return _ _ _ _ _ E). eexists _, s'. split; [done|].
    split_and!; [done|exact Ha|]. left. split; [exact Hd|].
    assert (Hn : Err ctx (tick (world s1)) ≠ ENil).
    { apply (Hst (tick (world s))). by apply is_nil_false. }
    apply is_nil_false in Hn. rewrite Hn. cbn [negb]. apply Hf2; [done|].
    unfold is_database_error. by rewrite errors_Is_step.
Qed.

Lemma badger_step_finish d0 floor h j p b e s :
  sticky (task_ctx p) → thread_ok d0 floor h j p (Ph_finish b e) s → sorted (data s) →
  ∃ h' ph' s', h `prefix_of` h' ∧ thread_step fuel p (Ph_finish b e) s = (Return ph', s') ∧
    step_ok d0 floor h j p (Ph_finish b e) s h' ph' s'.
Proof.
  intros Hst Hok Hs.
  assert (∃ r s', end_tx (task_ctx p) b (task_writable p) e s = (Return r, s') ∧
    ends d0 floor h j p b s r s' ∧ txn_made (db (back s)) (badgerTx b)) as (r & s' & E & He & Hm).
  { cbn [thread_ok] in Hok. destruct (task_writable p).
    - destruct Hok as (names & Hok).
      destruct (end_write d0 floor h j p names (task_ctx p) b e s Hst Hs Hok) as (r & s' & E & He).
      destruct Hok as (_ & i & (_ & Hm & _) & _). by exists r, s'.
    - destruct (end_read d0 floor h j p (task_ctx p) b e s Hok) as (s' & E & He).
      destruct Hok as (i & (_ & Hm & _) & _). by exists e, s'. }
  destruct (step_ok_ends d0 floor h j p b e s r s' Hm Hs He) as (h' & Hh & Hso).
  exists h', (Ph_cleanup b (Some r)), s'. split_and!; [done| |done].
  cbn [thread_step]. unfold recover. by rewrite E.
Qed.

(** A goroutine can always take its next step, unless a panic is about to end the program. *)
Lemma badger_thread_step_ok d0 floor h j p ph s :
  sticky (task_ctx p) → thread_ok d0 floor h j p ph s → serial d0 h (data s) → sorted (data s) →
  (∃ b, ph = Ph_cleanup b None) ∨
  ∃ h' ph' s', h `prefix_of` h' ∧ thread_step fuel p ph s = (Return ph', s') ∧
    step_ok d0 floor h j p ph s h' ph' s'.
Proof.
  intros Hst Hok Hser Hs.
  assert (HS : (∃ ph' s', thread_step fuel p ph s = (Return ph', s') ∧
      step_ok d0 floor h j p ph s h ph' s') →
    ∃ h' ph' s', h `prefix_of` h' ∧ thread_step fuel p ph s = (Return ph', s') ∧
      step_ok d0 floor h j p ph s h' ph' s') by (intros (ph' & s' & ? & ?); by exists h, ph', s').
  destruct ph as [|b w c'|b r q'|b ws pr|b rs i|b e|b [e|]|e]; [right..|left; by exists b|right].
  - by apply HS, badger_step_begin.
  - by apply HS, badger_step_write.
  - by apply HS, badger_step_read.
  - by apply HS, badger_step_transact.
  - by apply HS, badger_step_inquire.
  - by apply badger_step_finish.
  - by apply HS, step_cleanup.
  - apply HS. exists (Ph_done e), s. split; [done|]. split; try done. by left.
Qed.
End steps.
