(* ===== verification/BadgerSerial.v ===== *)
(** Goroutines on one Badger store, interleaved phase by phase: none of them can get stuck,
    and the store is serialisable, for programs that read with [Get]. *)
From S2P Require Import Prelude Errors Keys Go Store Lock Timeout Shelf Prefix Pending Client.
From S2P Require Import Program Interleave Badger BadgerSpec BadgerFacts BadgerShelf BadgerFrame.
From S2P Require Import BadgerTx BadgerConc BadgerTask BadgerSteps.

Section serial.
Context `{BS : BadgerSpec} {W : Type} `{!Env W, !CallScheduler W}.
Context (fuel : nat) (tasks : list (task (W := W))).
Implicit Types (s : St store W) (p : task (W := W)) (ph : phase (W := W)) (b : tx (W := W)).
Abbreviation conc := (conc store W (phase (W := W))).
Abbreviation conc_step := (conc_step (thread_step fuel) (λ _ _ _, None) tasks).
Abbreviation conc_init := (conc_init tasks Ph_begin).
Abbreviation log := (list (nat * error)).
Abbreviation serial := (serial tasks task_spec).
Abbreviation thread_ok := (thread_ok fuel tasks).
Abbreviation step_ok := (step_ok fuel tasks).
Abbreviation explained := (explained tasks).

(** ** The invariant of the store *)

(** Each goroutine's invariant holds, each with its own [floor]; no two have the same
    transaction; and the committed data is what the calls of the log [h], all of which have
    come to their results, make of [d0] one after the other. *)
Record inv (d0 : items) (floor : nat → log) (c : conc) (h : log) : Prop := {
  inv_ok : ∀ i p ph, tasks !! i = Some p → phases c !! i = Some ph →
    thread_ok d0 (floor i) h i p ph (shared c);
  inv_tx : ∀ i j p q ph ph' b b', i ≠ j → tasks !! i = Some p → tasks !! j = Some q →
    phases c !! i = Some ph → phases c !! j = Some ph' →
    phase_tx ph = Some b → phase_tx ph' = Some b' →
    badgerTx b ≠ badgerTx b' ∧ address b ≠ address b';
  inv_serial : serial d0 h (data (shared c));
  inv_sorted : sorted (data (shared c));
  inv_log : ∀ i e, (i, e) ∈ h → ∃ ph, phases c !! i = Some ph ∧ finished ph = Some e;
  inv_nodup : NoDup h.*1
}.

Section step.
Context (d0 : items) (floor : nat → log) (c : conc) (h h' : log) (HI : inv d0 floor c h).
Context (i : nat) (p : task (W := W)) (ph ph' : phase (W := W)) (s' : St store W).
Context (Hp : tasks !! i = Some p) (Hph : phases c !! i = Some ph) (Hh : h `prefix_of` h')
  (HS : step_ok d0 (floor i) h i p ph (shared c) h' ph' s').
Abbreviation c' := (mkConc s' (<[i := ph']> (phases c))).

Lemma badger_lookup_self : phases c' !! i = Some ph'.
Proof. apply list_lookup_insert_eq. by eapply lookup_lt_Some. Qed.
Lemma badger_lookup_other j : j ≠ i → phases c' !! j = phases c !! j.
Proof. intros Hj. by apply list_lookup_insert_ne. Qed.

(** The transactions of the others are not touched. *)
Lemma step_untouched j q x b :
  j ≠ i → tasks !! j = Some q → phases c !! j = Some x → phase_tx x = Some b →
  untouched b (shared c) s'.
Proof.
  intros Hj Hq Hx Hb. destruct (thread_ok_tx _ _ _ _ _ _ _ _ _ b (inv_ok _ _ _ _ HI j q x Hq Hx) Hb).
  apply HS; [done|done|]. intros b' Hb'. by eapply (inv_tx _ _ _ _ HI j i).
Qed.

(** A transaction after the step is not one of the others'. *)
Lemma step_apart j q x b b' :
  j ≠ i → tasks !! j = Some q → phases c !! j = Some x → phase_tx x = Some b' →
  phase_tx ph' = Some b → badgerTx b ≠ badgerTx b' ∧ address b ≠ address b'.
Proof.
  intros Hj Hq Hx Hb' Hb. destruct (so_new _ _ _ _ _ _ _ _ _ _ _ _ HS b Hb) as [Hold|[Hn1 Hn2]].
  - by eapply (inv_tx _ _ _ _ HI i j).
  - destruct (thread_ok_tx _ _ _ _ _ _ _ _ _ b' (inv_ok _ _ _ _ HI j q x Hq Hx) Hb') as [Hm [o Ho]].
    split; intros E; rewrite E in *; [done|congruence].
Qed.

Lemma badger_step_logged :
  serial d0 h' (data s') ∧ NoDup h'.*1 ∧
  ∀ j e, (j, e) ∈ h' → ∃ x, phases c' !! j = Some x ∧ finished x = Some e.
Proof.
  assert (HL : ∀ j e, (j, e) ∈ h → ∃ x, phases c' !! j = Some x ∧ finished x = Some e).
  { intros j e Hj. destruct (inv_log _ _ _ _ HI j e Hj) as (x & Hx & Hf).
    destruct (decide (j = i)) as [->|Hne]; [|exists x; by rewrite badger_lookup_other].
    exists ph'. rewrite badger_lookup_self. split; [done|]. apply HS. congruence. }
  destruct (so_log _ _ _ _ _ _ _ _ _ _ _ _ HS) as [[-> Hd]|(e & -> & E1 & E2 & Hsp)].
  - rewrite Hd. split_and!; [apply HI|apply HI|done].
  - split_and!.
    + econstructor; [apply HI|done|done].
    + rewrite fmap_app. apply NoDup_app. split_and!; [apply HI| |apply NoDup_singleton].
      intros j Hj Hj'. apply list_elem_of_fmap in Hj as ([j1 e1] & Ej & Hin).
      apply list_elem_of_singleton in Hj'. cbn in Ej, Hj'. subst j j1.
      destruct (inv_log _ _ _ _ HI i e1 Hin) as (x & Hx & Hf). congruence.
    + intros j e'. rewrite elem_of_app, list_elem_of_singleton. intros [Hj|[= -> ->]]; [by apply HL|].
      exists ph'. by rewrite badger_lookup_self.
Qed.

Lemma badger_inv_thread : inv d0 floor c' h'.
Proof.
  destruct badger_step_logged as (H1 & H2 & H3). split; try done; [| |apply HS].
  - intros j q x Hq Hx. cbn [shared]. destruct (decide (j = i)) as [->|Hj].
    + rewrite badger_lookup_self in Hx. injection Hx as <-. rewrite Hp in Hq. injection Hq as <-. apply HS.
    + rewrite badger_lookup_other in Hx by done.
      apply (badger_thread_ok_frame fuel tasks _ _ h _ _ _ _ (shared c)); [done|apply HS| |by apply HI].
      intros b Hb. by eapply step_untouched.
  - intros j k q r x y b b' Hjk Hq Hr Hx Hy Hb Hb'.
    destruct (decide (j = i)) as [->|Hj], (decide (k = i)) as [->|Hk]; try done.
    + rewrite badger_lookup_self in Hx. rewrite badger_lookup_other in Hy by done. injection Hx as <-.
      by apply (step_apart k r y).
    + rewrite badger_lookup_self in Hy. rewrite badger_lookup_other in Hx by done. injection Hy as <-.
      by destruct (step_apart j q x b' b).
    + rewrite badger_lookup_other in Hx, Hy by done. by eapply (inv_tx _ _ _ _ HI j k).
Qed.
End step.

Hypothesis tasks_sticky : Forall (λ p, sticky (task_ctx p)) tasks.

Lemma inv_progress d0 floor c h i p ph :
  inv d0 floor c h → tasks !! i = Some p → phases c !! i = Some ph →
  (∃ b, ph = Ph_cleanup b None) ∨
  ∃ h' ph' s', h `prefix_of` h' ∧ thread_step fuel p ph (shared c) = (Return ph', s') ∧
    step_ok d0 (floor i) h i p ph (shared c) h' ph' s'.
Proof.
  intros HI Hp Hph. rewrite Forall_lookup in tasks_sticky.
  apply badger_thread_step_ok; [by eapply tasks_sticky|by apply HI|apply HI..].
Qed.

Lemma badger_inv_step d0 floor c c1 h :
  inv d0 floor c h → conc_step c c1 →
  ∃ h', h `prefix_of` h' ∧ inv d0 floor c1 h' ∧ open_db (shared c1) = open_db (shared c).
Proof.
  intros HI Hstep. destruct Hstep as [i p ph ph' s' Hp Hph E|i p ph ph' s' Hp Hph E Es|].
  - destruct (inv_progress d0 floor c h i p ph HI Hp Hph)
      as [[b ->]|(h' & ph1 & s1 & Hh & E1 & HS)].
    { cbn [thread_step] in E. unfold mbind, M_bind in E.
      by destruct (rollback b (shared c)) as [[| | |] ?]. }
    rewrite E in E1. injection E1 as <- <-. exists h'.
    split_and!; [done|by eapply badger_inv_thread|apply HS].
  - done.
  - exists h. split_and!; [done|by destruct HI|done].
Qed.

Lemma badger_inv_steps d0 floor c c1 h :
  inv d0 floor c h → rtc conc_step c c1 →
  ∃ h', h `prefix_of` h' ∧ inv d0 floor c1 h' ∧ open_db (shared c1) = open_db (shared c).
Proof.
  intros HI Hs. revert h HI. induction Hs as [c|c c1 c2 H1 _ IH]; intros h HI; [by exists h|].
  destruct (badger_inv_step _ _ _ _ _ HI H1) as (h1 & Hh1 & HI1 & Ho1).
  destruct (IH _ HI1) as (h2 & Hh2 & HI2 & Ho2).
  exists h2. split_and!; [by etrans|done|congruence].
Qed.

(** The programs of the writers read with [Get], and use shelves that do not overlap. *)
Hypothesis tasks_tracked : Forall task_tracked tasks.

Lemma badger_conc_inv_init s : sorted (data s) → inv (data s) (λ _, []) (conc_init s) [].
Proof.
  intros Hs. pose proof (conc_init_lookup tasks (Ph_begin (W := W)) s) as HP.
  rewrite Forall_lookup in tasks_tracked. split; try done.
  - intros i p ph Hp ->%HP. specialize (tasks_tracked i p Hp).
    split; [apply prefix_nil|exact tasks_tracked].
  - by intros i j p q ph ph' b b' _ _ _ ->%HP ->%HP.
  - constructor.
  - by intros i e ?%not_elem_of_nil.
  - constructor.
Qed.

(** The calls that have not begun may be given the log as their floor. *)
Lemma inv_refloor d0 c h :
  inv d0 (λ _, []) c h →
  inv d0 (λ i, match phases c !! i with Some Ph_begin => h | _ => [] end) c h.
Proof.
  intros [H1 H2 H3 H4 H5 H6]. split; try done. intros i p ph Hp Hph.
  specialize (H1 i p ph Hp Hph). rewrite Hph. destruct ph; try done.
  split; [done|apply H1].
Qed.

(** C6: no goroutine can get stuck. When the calls start on an open database, the contexts
    stay over once they are, and the writers read with [Get] only, from shelves that do not
    overlap, then in every reachable state a call that has not returned can take its next
    step, whatever the others are doing: it neither waits for another nor panics. *)
Theorem badger_progress s c i p ph
    (Hs : sorted (data s)) (Ho : open_db s = true) (Hc : rtc conc_step (conc_init s) c)
    (Hp : tasks !! i = Some p) (Hph : phases c !! i = Some ph) :
  ∃ ph' s', thread_step fuel p ph (shared c) = (Return ph', s').
Proof.
  destruct (badger_inv_steps _ _ _ _ _ (badger_conc_inv_init s Hs) Hc) as (h & _ & HI & Ho').
  destruct (inv_progress _ _ _ _ i p ph HI Hp Hph) as [[b ->]|(h' & ph' & s' & _ & E & _)]; [|eauto].
  destruct (inv_ok _ _ _ _ HI i p _ Hp Hph) as (_ & _ & Hcl). cbn in Ho'. congruence.
Qed.

(** C5: serialisability of the calls of [Write] and [WriteShelf] with programs that read with
    [Get] from shelves that do not overlap, and of [Read] and [ReadShelf]. In every
    interleaving, the committed data is what the calls of a log make of the initial data when they run one after the other, each with exactly the
    result it has; all of them are at their end, and the log only grows. Any other call that
    has come to its result has changed nothing, and did what it does on the data after
    some part of the log: on a part that has all of [h1], if it began after [h1]. *)
Theorem badger_serializable s c1 c2
    (Hs : sorted (data s)) (H1 : rtc conc_step (conc_init s) c1) (H2 : rtc conc_step c1 c2) :
  ∃ h1 h2, h1 `prefix_of` h2 ∧ NoDup h2.*1 ∧
    (serial (data s) h1 (data (shared c1)) ∧
     ∀ i e, (i, e) ∈ h1 → ∃ ph, phases c1 !! i = Some ph ∧ finished ph = Some e) ∧
    (serial (data s) h2 (data (shared c2)) ∧
     ∀ i e, (i, e) ∈ h2 → ∃ ph, phases c2 !! i = Some ph ∧ finished ph = Some e) ∧
    ∀ i p ph e, tasks !! i = Some p → phases c2 !! i = Some ph → finished ph = Some e →
      (i, e) ∈ h2 ∨
      ∃ h d, h `prefix_of` h2 ∧ (phases c1 !! i = Some Ph_begin → h1 `prefix_of` h) ∧
        serial (data s) h d ∧ task_spec p d e d.
Proof.
  destruct (badger_inv_steps _ _ _ _ _ (badger_conc_inv_init s Hs) H1) as (h1 & _ & HI1 & _).
  destruct (badger_inv_steps _ _ _ _ _ (inv_refloor _ _ _ HI1) H2) as (h2 & Hh & HI2 & _).
  exists h1, h2. split_and!; [done|apply HI2|apply HI1|apply HI1|apply HI2|apply HI2|].
  intros i p ph e Hp Hph Hf.
  assert (He : explained (data s) (match phases c1 !! i with Some Ph_begin => h1 | _ => [] end)
    h2 i p e).
  { pose proof (inv_ok _ _ _ _ HI2 i p ph Hp Hph) as Hok.
    destruct ph as [| | | | | |b r|r]; try done; cbn in Hf; simplify_eq; [|done].
    by destruct Hok as (_ & _ & Hok). }
  destruct He as [He|(d & (h & Hfl & Hh2 & Hser & _) & Hsp)]; [by left|right].
  exists h, d. split_and!; [done| |done|done]. intros Hb. by rewrite Hb in Hfl.
Qed.
End serial.
