(* ===== verification/BadgerConcExamples.v ===== *)
(** Interleaved calls on one Badger store at concrete inputs: two increments of a counter, a
    reader, and a writer and a reader of two shelves; and two programs that rely on [Empty], whose conflict Badger does not see. *)
From S2P Require Import Prelude Errors Keys Go Store Lock Timeout Shelf Prefix Pending Client.
From S2P Require Import Program Interleave Badger BadgerSpec BadgerFacts BadgerTx BadgerExamples.
From S2P Require Import BadgerConc BadgerTask BadgerSteps BadgerSerial.
Import BadgerMem.

#[local] Instance still : Env () := λ w, w.
#[local] Instance prompt : CallScheduler () := λ _, [K_worker; K_rendezvous].

(** Reads a counter in unary notation and writes it back with one stroke more. *)
Definition counter : Key := key 7.
Definition increment : client :=
  c_get counter (λ r, c_put counter (default [] r.1 ++ #"|") c_return).
Definition read_counter : query :=
  q_get counter (λ r, q_return (errorfText (default #"none" r.1))).

(** Moves the counter to another shelf, and asks where it is. *)
Definition move_counter : program :=
  p_get #"s" counter (λ r, p_put #"t" counter (default [] r.1) (λ _,
    p_delete #"s" counter p_return)).
Definition find_counter : inquiry :=
  i_get #"s" counter (λ r, i_get #"t" counter (λ r',
    i_return (errorfText (default #"none" r.1 ++ #"," ++ default #"none" r'.1)))).

Definition tasks : list (task (W := ())) :=
  [T_write Background #"s" increment; T_write Background #"s" increment;
   T_read Background #"s" read_counter; T_transact Background move_counter;
   T_inquire Background find_counter].

Abbreviation conc := (conc store () (phase (W := ()))).
Abbreviation step := (thread_step 0).
Abbreviation init := (conc_init tasks Ph_begin start).
Definition run (sched : list nat) : conc := conc_run step (λ _ _ _, None) tasks sched init.

(** Both writers read before the first one commits; the first reader begins before that, too,
    and looks later; the second begins after that, and looks when the counter has moved. *)
Definition overlapping : list nat :=
  [0; 1; 2; 0; 1; 0; 1; 0; 0; 0; 1; 1; 1; 2; 2; 2; 2; 3; 3; 3; 4; 4; 3; 3; 3; 3; 3; 3; 4; 4; 4; 4; 4; 4].
(** One writer after the other, and the readers in between. *)
Definition alternating : list nat :=
  replicate 6 1 ++ replicate 5 2 ++ replicate 9 3 ++ replicate 8 4 ++ replicate 6 0.

Definition counter_value (n : bytes) (c : conc) : option bytes :=
  items_lookup (Bytes counter) (shelf_view n (data (shared c))).
Definition results (c : conc) : list (option error) := finished <$> phases c.

(** The second writer loses and is told so; the readers have seen the data of their begin. *)
Example badger_interleavings :
  counter_value #"s" (run overlapping) = None ∧ counter_value #"t" (run overlapping) = Some #"|" ∧
  results (run overlapping) =
    [Some ENil; Some (WrapError ErrCommitFailed Conflict); Some (errorfText #"none"); Some ENil;
     Some (errorfText #"|,none")] ∧
  counter_value #"s" (run alternating) = Some #"|" ∧
  counter_value #"t" (run alternating) = Some #"|" ∧
  results (run alternating) =
    [Some ENil; Some ENil; Some (errorfText #"|"); Some ENil; Some (errorfText #"none,|")].
Proof. vm_compute. repeat split. Qed.

Lemma increment_tracked : tracked increment.
Proof. constructor. intros r. constructor. intros e. constructor. Qed.
Lemma move_tracked : task_tracked (T_transact (W := ()) Background move_counter).
Proof.
  exists (λ n, n = #"s" ∨ n = #"t"). split.
  - by intros n m [->| ->] [->| ->].
  - constructor; [by left|]. intros r. constructor; [by right|]. intros e.
    constructor; [by left|]. intros e'. constructor.
Qed.
Lemma badger_tasks_tracked : Forall task_tracked tasks.
Proof. repeat constructor; first [exact increment_tracked|exact move_tracked]. Qed.
Lemma badger_tasks_sticky : Forall (λ p, sticky (task_ctx p)) tasks.
Proof. repeat constructor; exact badger_background_sticky. Qed.

Lemma badger_progress_witness :
  (rtc (conc_step step (λ _ _ _, None) tasks) init (run [0; 1; 0])) ∧
  ∃ ph' s', step (T_write Background #"s" increment)
    (default Ph_begin (phases (run [0; 1; 0]) !! 0)) (shared (run [0; 1; 0])) = (Return ph', s').
Proof.
  split; [apply conc_run_steps|].
  exact (badger_progress 0 tasks badger_tasks_sticky badger_tasks_tracked start (run [0; 1; 0]) 0 _ _
    flat_sorted eq_refl (conc_run_steps step (λ _ _ _, None) tasks [0; 1; 0] init) eq_refl eq_refl).
Defined.

Lemma badger_serializable_witness :
  let c1 := run (take 8 overlapping) in
  let c2 := conc_run step (λ _ _ _, None) tasks (drop 8 overlapping) c1 in
  ∃ h1 h2, h1 `prefix_of` h2 ∧ NoDup h2.*1 ∧
    (serial tasks task_spec (data start) h1 (data (shared c1)) ∧
     ∀ i e, (i, e) ∈ h1 → ∃ ph, phases c1 !! i = Some ph ∧ finished ph = Some e) ∧
    (serial tasks task_spec (data start) h2 (data (shared c2)) ∧
     ∀ i e, (i, e) ∈ h2 → ∃ ph, phases c2 !! i = Some ph ∧ finished ph = Some e) ∧
    ∀ i p ph e, tasks !! i = Some p → phases c2 !! i = Some ph → finished ph = Some e →
      (i, e) ∈ h2 ∨
      ∃ h d, h `prefix_of` h2 ∧ (phases c1 !! i = Some Ph_begin → h1 `prefix_of` h) ∧
        serial tasks task_spec (data start) h d ∧ task_spec p d e d.
Proof.
  intros c1 c2.
  exact (badger_serializable 0 tasks badger_tasks_sticky badger_tasks_tracked start c1 c2 flat_sorted
    (conc_run_steps step (λ _ _ _, None) tasks (take 8 overlapping) init)
    (conc_run_steps step (λ _ _ _, None) tasks (drop 8 overlapping) c1)).
Defined.

(** Without the condition on programs the store is not serialisable: two programs that put
    a key of their own into the shelf if it is empty both succeed, which neither order of
    the two would allow. [Empty] moves an iterator to the name of the shelf and reads no
    item, so that Badger tracks no key that the other program writes. *)
Definition claim (k : N) : client :=
  c_empty (λ r, if r.1 then c_put (key k) #"mine" c_return else c_return Canceled).
Definition rivals : list (task (W := ())) :=
  [T_write Background #"t" (claim 1); T_write Background #"t" (claim 2)].
Definition rival_run (sched : list nat) : conc :=
  conc_run step (λ _ _ _, None) rivals sched (conc_init rivals Ph_begin start).

Example badger_empty_skew :
  results (rival_run [0; 1; 0; 1; 0; 1; 0; 1; 0; 1; 0; 1]) = [Some ENil; Some ENil] ∧
  shelf_view #"t" (data (shared (rival_run [0; 1; 0; 1; 0; 1; 0; 1; 0; 1; 0; 1]))) =
    [(Bytes (key 1), #"mine"); (Bytes (key 2), #"mine")] ∧
  results (rival_run [0; 0; 0; 0; 0; 0; 1; 1; 1; 1; 1; 1]) = [Some ENil; Some Canceled].
Proof. vm_compute. repeat split. Qed.
