(* ===== verification/Redis.v ===== *)
(** redis7/redis.go: the store backed by a Redis server. The Redis client and the
    distributed lock are parameters, [RedisLib]; what the store relies on of them is
    [RedisSpec]. *)
From S2P Require Import Prelude Errors Keys Go Store Lock Timeout.

(** ** The libraries *)

(** The calls to go-redis and redsync the store makes, as functions of the state [DB] of
    the two libraries and the server. A call that is given a context may depend on it in
    the world it is made in. Clients, pipelines and distributed mutexes are handles. *)
Class RedisLib (W : Type) := {
  DB : Type;
  Client : Type;
  Pipeliner : Type;
  Mutex : Type;
  redis_Nil : error;
  client_Close : Client → DB → error * DB;
  client_Ping : Client → Context W → World W → DB → error * DB;
  client_Scan : Client → Context W → N → bytes → Z → World W → DB → (list bytes * N * error) * DB;
  client_Get : Client → Context W → bytes → World W → DB → (bytes * error) * DB;
  client_MGet : Client → Context W → list bytes → World W → DB →
    (list (option bytes) * error) * DB;
  client_TxPipeline : Client → DB → Pipeliner * DB;
  pl_Set : Pipeliner → Context W → bytes → bytes → World W → DB → error * DB;
  pl_Del : Pipeliner → Context W → bytes → World W → DB → error * DB;
  pl_Discard : Pipeliner → DB → () * DB;
  pl_Exec : Pipeliner → Context W → World W → DB → error * DB;
  rs_NewMutex : bytes → Z → DB → Mutex * DB;
  mutex_LockContext : Mutex → Context W → World W → DB → error * DB;
  mutex_UnlockContext : Mutex → Context W → World W → DB → (bool * error) * DB
}.

(** [store]: the client ([None]: nil, the store is closed; a call on it panics) and the mutex
    that guards it.
    [prefix], [cfg], [rs] and [log] do not change. *)
Record store `{RedisLib W} := mkStore { db : DB; client : option Client; mux : RWMutex }.

#[global] Instance store_HasMux `{RedisLib W} : HasMux store.
Proof.
  refine {| get_mux := mux; put_mux := λ m s, mkStore _ _ (db s) (client s) m |};
    [done|by intros []|done].
Defined.

Section redis.
Context {Logger W : Type} `{RL : RedisLib W} `{!Env W, !CallScheduler W}.
(** The configuration, the key prefix, and the bound on the turns of a loop. *)
Context (cfg : Config Logger) (prefix : bytes) (fuel : nat).
Abbreviation M := (M store W).

Definition resultCount : nat := 1000.
Definition lockExpiryOffset : Z := 5 * Second.
Definition pingAttempts : nat := 5.
Definition pingTimeout : Z := 3 * Second.
Definition PingAttemptBackoff : Z := 2 * Second.

(** A call to a library, and one that is given a context: the environment moves on. *)
Definition redis {A} (f : DB → A * DB) : M A :=
  lib (λ s, let '(a, d) := f (db s) in (a, mkStore _ _ d (client s) (mux s))).
Definition redis_ctx {A} (f : World W → DB → A * DB) : M A := λ s,
  let w := tick (world s) in redis (f w) (mkSt (back s) w).

(** [time.Sleep(d)]: at least [d] passes. *)
Definition Sleep (d : Z) : M () := λ s,
  let w := tick (world s) in
  (Return (), mkSt (back s) (mkWorld (Z.max (now w) (now (world s) + d)) (app w))).

Definition set_client (c : option Client) : M () :=
  s ← get_back; put_back (mkStore _ _ (db s) c (mux s)).

Definition checkOpen : M error :=
  _ ← RLock;
  defer RUnlock
    (s ← get_back;
     match client s with None => mret ErrStoreIsClosed | Some _ => mret ENil end).

(** *** shelf *)

Record shelf := mkShelf {
  name : bytes;
  reader : option Client;
  writer : option Pipeliner;
  shelf_ctx : Context W
}.

Definition toRedisKey (s : shelf) (key : Key) : bytes :=
  let result := name s ++ #"." ++ String key in
  if 0 <? length prefix then prefix ++ #":" ++ result else result.

Definition fromRedisKey (s : shelf) (key : bytes) (keyType : Key) : option Key * error :=
  let trimmed :=
    if 0 <? length prefix then
      let dbPrefix := prefix ++ #":" in
      if negb (HasPrefix key dbPrefix) then
        inr (errorfText (#"unexpected/missing database name in Redis key (expected=" ++
               dbPrefix ++ #",key=" ++ key ++ #")"))
      else inl (TrimPrefix key dbPrefix)
    else inl key in
  match trimmed with
  | inr err => (None, err)
  | inl key =>
      let shelfPrefix := name s ++ #"." in
      if negb (HasPrefix key shelfPrefix) then
        (None, errorfText (#"unexpected/missing shelf name in Redis key (expected=" ++
                 shelfPrefix ++ #",key=" ++ key ++ #")"))
      else FromString keyType (TrimPrefix key shelfPrefix)
  end.

Definition shelf_Put (s : shelf) (key : Key) (value : bytes) : M error :=
  err ← checkOpen;
  if negb (is_nil err) then mret err else
  writer ← must (writer s);
  err ← redis_ctx (pl_Set writer (shelf_ctx s) (toRedisKey s key) value);
  if negb (is_nil err) then mret (DatabaseError err) else mret ENil.

Definition shelf_Delete (s : shelf) (key : Key) : M error :=
  writer ← must (writer s);
  err ← redis_ctx (pl_Del writer (shelf_ctx s) (toRedisKey s key));
  if negb (is_nil err) then mret (DatabaseError err) else mret ENil.

Definition scan_pattern (s : shelf) : bytes := toRedisKey s (BytesKey []) ++ #"*".

Definition shelf_Empty (s : shelf) : M (bool * error) :=
  reader ← must (reader s);
  r ← redis_ctx (client_Scan reader (shelf_ctx s) 0 (scan_pattern s) (Z.of_nat resultCount));
  let '(keys, cursor, err) := r in
  if negb (is_nil err) then mret (false, err)
  else if length keys =? 0 then mret (true, ENil)
  else mret (false, ENil).

Definition shelf_Get (s : shelf) (key : Key) : M (option bytes * error) :=
  reader ← must (reader s);
  r ← redis_ctx (client_Get reader (shelf_ctx s) (toRedisKey s key));
  let '(result, err) := r in
  if errors_Is err redis_Nil then mret (None, ErrKeyNotFound)
  else if negb (is_nil err) then mret (None, DatabaseError err)
  else mret (Some result, ENil).

(** The loop of [visitKeys] over [values], [keys] being those not yet passed. *)
Fixpoint visit_values (s : shelf) (keys : list bytes) (values : list (option bytes))
    (callback : CallerFn store W) (keyType : Key) (stopAtNil : bool) : M (bool * error) :=
  match values with
  | [] => mret (true, ENil)
  | None :: values' =>
      if stopAtNil then mret (false, ENil)
      else visit_values s (tail keys) values' callback keyType stopAtNil
  | Some value :: values' =>
      k ← must (head keys);
      let '(key, err) := fromRedisKey s k keyType in
      if negb (is_nil err) then mret (false, err) else
      key ← must key;
      err ← callback key value;
      if negb (is_nil err) then mret (false, err)
      else visit_values s (tail keys) values' callback keyType stopAtNil
  end.

Definition visitKeys (s : shelf) (keys : list bytes) (callback : CallerFn store W)
    (keyType : Key) (stopAtNil : bool) : M (bool * error) :=
  reader ← must (reader s);
  r ← redis_ctx (client_MGet reader (shelf_ctx s) keys);
  let '(values, err) := r in
  if negb (is_nil err) then mret (false, DatabaseError err)
  else visit_values s keys values callback keyType stopAtNil.

(** The loop of [Iterate]. *)
Fixpoint iterate_loop (fuel : nat) (s : shelf) (callback : CallerFn store W)
    (keyType : Key) (cursor : N) : M error :=
  match fuel with
  | O => out_of_fuel
  | S fuel' =>
      reader ← must (reader s);
      r ← redis_ctx (client_Scan reader (shelf_ctx s) cursor (scan_pattern s)
                       (Z.of_nat resultCount));
      let '(keys, cursor, err) := r in
      if negb (is_nil err) then mret (DatabaseError err) else
      err ← (if 0 <? length keys then
               r ← visitKeys s keys callback keyType false; mret r.2
             else mret ENil);
      if negb (is_nil err) then mret err else
      if (cursor =? 0)%N then mret ENil
      else iterate_loop fuel' s callback keyType cursor
  end.

Definition shelf_Iterate (s : shelf) (callback : CallerFn store W) (keyType : Key) : M error :=
  iterate_loop fuel s callback keyType 0.

(** The loop of [Range]: [keys] is the page collected so far. The second comparison
    with [to] in the body repeats the loop's condition. *)
Fixpoint range_loop (fuel : nat) (s : shelf) (from to : Key) (callback : CallerFn store W)
    (stopAtNil : bool) (curr : Key) (keys : list bytes) (numKeys : nat) : M error :=
  if Equals curr (Some to) then
    r ← visitKeys s keys callback from stopAtNil; mret r.2
  else
    match fuel with
    | O => out_of_fuel
    | S fuel' =>
        e ← ctx_Err (shelf_ctx s);
        if negb (is_nil e) then
          e ← ctx_Err (shelf_ctx s); mret (DatabaseError e)
        else
          let keys := keys ++ [toRedisKey s curr] in
          if resultCount <=? numKeys then
            r ← visitKeys s keys callback from stopAtNil;
            let '(proceed, err) := r in
            if negb (is_nil err) || negb proceed then mret err else
            next ← must (Next curr);
            range_loop fuel' s from to callback stopAtNil next [] 0
          else
            next ← must (Next curr);
            range_loop fuel' s from to callback stopAtNil next keys (S numKeys)
    end.

Definition shelf_Range (s : shelf) (from to : Key) (callback : CallerFn store W)
    (stopAtNil : bool) : M error :=
  range_loop fuel s from to callback stopAtNil from [] 0.

Definition shelf_Stats (s : shelf) : M ShelfStats := mret (mkShelfStats 0 0).

Definition as_Reader (s : shelf) : Reader store W :=
  mkReader (shelf_Empty s) (shelf_Get s) (shelf_Iterate s) (shelf_Range s) (shelf_Stats s).
Definition as_Writer (s : shelf) : Writer store W :=
  mkWriter (as_Reader s) (shelf_Put s) (shelf_Delete s).

(** *** tx *)

Record tx := mkTx {
  tx_reader : option Client;
  tx_writer : option Pipeliner;
  tx_ctx : Context W
}.

Definition getShelf (ctx : Context W) (shelfName : bytes) (writer : option Pipeliner)
    (reader : option Client) : shelf :=
  mkShelf shelfName reader writer ctx.

Definition tx_GetShelfWriter (t : tx) (shelfName : bytes) : Writer store W :=
  as_Writer (getShelf (tx_ctx t) shelfName (tx_writer t) (tx_reader t)).
Definition tx_GetShelfReader (t : tx) (shelfName : bytes) : Reader store W :=
  as_Reader (getShelf (tx_ctx t) shelfName None (tx_reader t)).
Definition tx_Unwrap (t : tx) : option Pipeliner := tx_writer t.

Definition as_ReadTx (t : tx) : ReadTx store W :=
  mkReadTx (λ shelfName, mret (tx_GetShelfReader t shelfName)).
Definition as_WriteTx (t : tx) : WriteTx store W :=
  mkWriteTx (as_ReadTx t) (λ shelfName, mret (tx_GetShelfWriter t shelfName)).

(** *** store *)

(** The transaction's context: with a deadline. *)
Definition tx_context (ctx : Context W) : M (Context W) :=
  match Deadline ctx with
  | Some _ => mret ctx
  | None => w ← get_world; mret (WithTimeout ctx (now w) DefaultTransactionTimeout)
  end.

(** The distributed write lock, when the option asks for it. *)
Definition acquire_lock (ctx : Context W) (opts : list (TxOption store W)) :
    M (option Mutex * error) :=
  if WriteLockOption_Enabled opts then
    let lockName := #"lock_" ++ prefix in
    let txDeadline := default 0%Z (Deadline ctx) in
    w ← get_world;
    let lockExpiry := (txDeadline + lockExpiryOffset - now w)%Z in
    let lockCtx := WithTimeout ctx (now w) (LockAcquireTimeout cfg) in
    txMutex ← redis (rs_NewMutex lockName lockExpiry);
    err ← redis_ctx (mutex_LockContext txMutex lockCtx);
    mret (Some txMutex, err)
  else mret (None, ENil).

(** The closure [unlock]. *)
Definition unlock (ctx : Context W) (txMutex : option Mutex) : M () :=
  match txMutex with
  | None => mret ()
  | Some txMutex =>
      e ← ctx_Err ctx;
      if errors_Is e DeadlineExceeded then mret ()
      else
        w ← get_world;
        let releaseLockCtx := WithTimeout ctx (now w) (5 * Second) in
        _ ← redis_ctx (mutex_UnlockContext txMutex releaseLockCtx);
        mret ()
  end.

(** The last part of [doTX], from [fn]'s return on. *)
Definition finishTX (ctx : Context W) (pl : Pipeliner) (txMutex : option Mutex)
    (opts : list (TxOption store W)) (appError : error) : M error :=
  if negb (is_nil appError) then
    _ ← redis (pl_Discard pl);
    _ ← unlock ctx txMutex;
    _ ← OnRollbackOption_Invoke opts;
    mret appError
  else
    e ← ctx_Err ctx;
    if negb (is_nil e) then
      _ ← redis (pl_Discard pl);
      _ ← unlock ctx txMutex;
      _ ← OnRollbackOption_Invoke opts;
      e ← ctx_Err ctx;
      mret (DatabaseError e)
    else
      err ← redis_ctx (pl_Exec pl ctx);
      if negb (is_nil err) then
        _ ← unlock ctx txMutex;
        _ ← OnRollbackOption_Invoke opts;
        mret (WrapError ErrCommitFailed err)
      else
        _ ← unlock ctx txMutex;
        _ ← AfterCommitOption_Invoke opts;
        mret ENil.

Definition doTX (ctx : Context W) (fn : Context W → Pipeliner → M error)
    (opts : list (TxOption store W)) : M error :=
  err ← checkOpen;
  if negb (is_nil err) then mret err else
  ctx ← tx_context ctx;
  r ← acquire_lock ctx opts;
  let '(txMutex, err) := r in
  if negb (is_nil err) then
    mret (Errorf #"unable to obtain Redis transaction-level write lock" (DatabaseError err))
  else
    s ← get_back;
    c ← must (client s);
    pl ← redis (client_TxPipeline c);
    appError ← fn ctx pl;
    finishTX ctx pl txMutex opts appError.

Definition store_Close (ctx : Context W) : M error :=
  _ ← Lock;
  defer Unlock
    (s ← get_back;
     match client s with
     | None => mret ENil
     | Some c =>
         err ← CallWithTimeout ctx (redis (client_Close c)) (mret ());
         _ ← set_client None;
         if negb (is_nil err) then mret (DatabaseError err) else mret ENil
     end).

Definition store_Write (ctx : Context W) (fn : WriteTx store W → M error)
    (opts : list (TxOption store W)) : M error :=
  err ← checkOpen;
  if negb (is_nil err) then mret err else
  doTX ctx (λ ctx writer, s ← get_back; fn (as_WriteTx (mkTx (client s) (Some writer) ctx))) opts.

Definition store_Read (ctx : Context W) (fn : ReadTx store W → M error) : M error :=
  err ← checkOpen;
  if negb (is_nil err) then mret err else
  s ← get_back; fn (as_ReadTx (mkTx (client s) None ctx)).

Definition store_WriteShelf (ctx : Context W) (shelfName : bytes)
    (fn : Writer store W → M error) : M error :=
  err ← checkOpen;
  if negb (is_nil err) then mret err else
  doTX ctx (λ ctx tx,
    s ← get_back; fn (as_Writer (getShelf ctx shelfName (Some tx) (client s)))) [].

Definition store_ReadShelf (ctx : Context W) (shelfName : bytes)
    (fn : Reader store W → M error) : M error :=
  err ← checkOpen;
  if negb (is_nil err) then mret err else
  s ← get_back; fn (as_Reader (getShelf ctx shelfName None (client s))).

Definition as_KVStore : KVStore store W :=
  mkKVStore store_Close store_Write store_Read store_WriteShelf store_ReadShelf.

(** [Store]: the store on which the transaction was started. *)
Definition tx_Store (t : tx) : KVStore store W := as_KVStore.

(** The loop of [Wrap] that checks the connection, with [attempts] left. *)
Fixpoint ping_loop (attempts : nat) (c : Client) (err : error) : M error :=
  match attempts with
  | O => mret err
  | S attempts' =>
      w ← get_world;
      let ctx := WithTimeout Background (now w) pingTimeout in
      err ← redis_ctx (client_Ping c ctx);
      if is_nil err then mret err
      else
        _ ← Sleep PingAttemptBackoff;
        ping_loop attempts' c err
  end.

(** [Wrap], on a new store: without a client, which it gets when it answers. *)
Definition Wrap_state (d : DB) : store := mkStore _ _ d None unlocked.
Definition Wrap (c : Client) : M error :=
  err ← ping_loop pingAttempts c ENil;
  if negb (is_nil err) then
    mret (Errorf #"unable to connect to Redis database" (DatabaseError err))
  else
    _ ← set_client (Some c);
    mret ENil.

(** [CreateRedisStore]: the client is made by the library from its own options. *)
Definition CreateRedisStore {ClientOptions : Type}
    (redis_NewClient : ClientOptions → DB → Client * DB) (clientOpts : ClientOptions) : M error :=
  client ← redis (redis_NewClient clientOpts);
  Wrap client.
End redis.
