(* ===== verification/RedisSpec.v ===== *)
(** What redis7/redis.go relies on of go-redis, redsync and the Redis server, as laws over
    a logical view of their state, and an in-memory library that satisfies them. *)
From S2P Require Import Prelude Errors Keys Go Store Lock Timeout Redis.

(** The commands a transaction buffers, and their effect on the data. *)
Inductive cmd := CmdSet (k v : bytes) | CmdDel (k : bytes).

Definition apply_cmd (d : gmap bytes bytes) (c : cmd) : gmap bytes bytes :=
  match c with CmdSet k v => <[k := v]> d | CmdDel k => delete k d end.
Definition apply_cmds (q : list cmd) (d : gmap bytes bytes) : gmap bytes bytes :=
  foldl apply_cmd d q.

Lemma apply_cmds_snoc q c d : apply_cmds (q ++ [c]) d = apply_cmd (apply_cmds q d) c.
Proof. unfold apply_cmds. by rewrite foldl_app. Qed.

(** A logical view: the strings in the database, and the commands buffered by a pipeline. *)
Class RedisView `{RL : RedisLib W} := {
  server : DB → gmap bytes bytes;
  queue : DB → Pipeliner → option (list cmd)
}.

(** Neither the data nor a pipeline has changed. *)
Definition same_server `{RedisView W} (d d' : DB) : Prop :=
  server d' = server d ∧ ∀ p, queue d' p = queue d p.

#[global] Instance same_server_preorder `{RedisView W} : PreOrder same_server.
Proof.
  split; [done|]. intros d1 d2 d3 [H1 H2] [H3 H4]. split; [congruence|].
  intros p. by rewrite H4.
Qed.

(** The documented behaviour. Any call may fail. A failed [Exec] leaves open whether the
    transaction was executed (the answer may have been lost); it is never executed in part.
    [MGet] without keys is refused by the server ("wrong number of arguments"). *)
Class RedisSpec `{RV : RedisView W} : Prop := {
  spec_Nil : redis_Nil ≠ ENil;
  spec_client_Close c d : same_server d (client_Close c d).2;
  spec_Ping c ctx w d : same_server d (client_Ping c ctx w d).2;
  spec_Scan c ctx n p k w d : same_server d (client_Scan c ctx n p k w d).2;
  spec_Get c ctx k w d :
    let '((v, e), d') := client_Get c ctx k w d in
    same_server d d' ∧
    (e = ENil → server d !! k = Some v) ∧
    (errors_Is e redis_Nil = true → server d !! k = None);
  spec_MGet c ctx ks w d :
    let '((vs, e), d') := client_MGet c ctx ks w d in
    same_server d d' ∧
    (e = ENil → vs = (λ k, server d !! k) <$> ks) ∧
    (ks = [] → e ≠ ENil);
  spec_TxPipeline c d :
    let '(p, d') := client_TxPipeline c d in server d' = server d ∧ queue d' p = Some [];
  spec_Set p ctx k v w d q : queue d p = Some q →
    let '(e, d') := pl_Set p ctx k v w d in
    server d' = server d ∧ queue d' p = Some (if is_nil e then q ++ [CmdSet k v] else q);
  spec_Del p ctx k w d q : queue d p = Some q →
    let '(e, d') := pl_Del p ctx k w d in
    server d' = server d ∧ queue d' p = Some (if is_nil e then q ++ [CmdDel k] else q);
  spec_Discard p d : server (pl_Discard p d).2 = server d;
  spec_Exec p ctx w d q : queue d p = Some q →
    let '(e, d') := pl_Exec p ctx w d in
    server d' = apply_cmds q (server d) ∨ (e ≠ ENil ∧ server d' = server d);
  spec_NewMutex n x d : same_server d (rs_NewMutex n x d).2;
  spec_LockContext m ctx w d : same_server d (mutex_LockContext m ctx w d).2;
  spec_UnlockContext m ctx w d : same_server d (mutex_UnlockContext m ctx w d).2
}.

(** ** Scans *)

(** The requests of one iteration so far: [n] successful calls of [Scan], the first with the
    cursor 0, each with the (nonzero) cursor the one before returned, which together returned
    [keys] and last the cursor [next]. Throughout, the server's data was [d]. *)
Inductive scans `{RedisView W} (c : Client) (ctx : Context W) (pattern : bytes) (count : Z)
    (d : gmap bytes bytes) : nat → list bytes → N → Prop :=
  | scans_none : scans c ctx pattern count d 0 [] 0
  | scans_next n keys cursor w db ks next db' :
      scans c ctx pattern count d n keys cursor → (n ≠ 0 → cursor ≠ 0%N) → server db = d →
      client_Scan c ctx cursor pattern count w db = ((ks, next, ENil), db') →
      scans c ctx pattern count d (S n) (keys ++ ks) next.

(** A pattern without special characters stands for itself. *)
Definition plain (p : bytes) : Prop := Forall (λ c, c ∉ #"*?[]\^") p.

(** The documented behaviour of SCAN with MATCH and COUNT, on data that does not change:
    it returns names that match the pattern, of strings or of keys that are not part of the
    data (locks, values of other types); when the iteration is complete it has returned all
    that match, at least once; and it comes to its end. [glob] is the server's
    pattern matching. *)
Class ScanSpec `{RV : RedisView W} := {
  glob : bytes → bytes → bool;
  foreign : DB → bytes → bool;
  scan_bound : gmap bytes bytes → nat;
  glob_star p k : plain p → glob (p ++ #"*") k = HasPrefix k p;
  spec_Scan_match c ctx cursor p n w d ks next e d' :
    client_Scan c ctx cursor p n w d = ((ks, next, e), d') →
    ∀ k, k ∈ ks → glob p k = true ∧ (is_Some (server d !! k) ∨ foreign d k = true);
  spec_Scan_complete c ctx p count d n keys k :
    scans c ctx p count d n keys 0 → n ≠ 0 →
    is_Some (d !! k) → glob p k = true → k ∈ keys;
  spec_Scan_ends c ctx p count d n keys next :
    scans c ctx p count d n keys next → n ≤ scan_bound d
}.

(** ** An in-memory library *)

Module RedisMem.
Section mem.
Context {W : Type}.

(** Pipelines and distributed mutexes are numbered; a mutex has a name and an expiry, and
    [locks] has the mutex that holds each lock and the time at which it expires. A call made
    when its context is over fails with the context's error, and one made after the context's
    deadline with [TimedOut]; [Exec] fails when [fail_exec] is set. Each call of a scan looks
    at [scan_size] keys, at least one: the cursor says how many keys have been looked at. *)
Record mem := mkMem {
  content : gmap bytes bytes;
  pipes : gmap nat (list cmd);
  mutexes : gmap nat (bytes * Z);
  next_handle : nat;
  locks : gmap bytes (nat * Z);
  fail_exec : bool;
  scan_size : nat
}.

Definition Nil : error := errorString 400 #"redis: nil".
Definition WrongArgs : error := errorString 401 #"ERR wrong number of arguments for 'mget' command".
Definition ExecFailure : error := errorString 402 #"connection reset".
Definition LockFailed : error := errorString 403 #"redsync: failed to acquire lock".
Definition NoPipe : error := errorString 404 #"redis: no pipeline".

(** A context's error is passed on, unless it could be taken for the sentinel. *)
Definition TimedOut : error := errorString 405 #"i/o timeout".
Definition ctx_error (e : error) : error := if errors_Is e Nil then TimedOut else e.

Definition past_deadline (ctx : Context W) (w : World W) : bool :=
  match Deadline ctx with Some t => (t <? now w)%Z | None => false end.
Definition guarded {A} (ctx : Context W) (w : World W) (a : error → A) (k : mem → A * mem)
    (d : mem) : A * mem :=
  if negb (is_nil (Err ctx w)) then (a (ctx_error (Err ctx w)), d)
  else if past_deadline ctx w then (a TimedOut, d)
  else k d.

Definition set_pipes (ps : gmap nat (list cmd)) (d : mem) : mem :=
  mkMem (content d) ps (mutexes d) (next_handle d) (locks d) (fail_exec d) (scan_size d).
Definition set_locks (ls : gmap bytes (nat * Z)) (d : mem) : mem :=
  mkMem (content d) (pipes d) (mutexes d) (next_handle d) ls (fail_exec d) (scan_size d).
Definition push (p : nat) (c : cmd) (d : mem) : error * mem :=
  match pipes d !! p with
  | Some q => (ENil, set_pipes (<[p := q ++ [c]]> (pipes d)) d)
  | None => (NoPipe, d)
  end.

Definition new_pipe (d : mem) : nat * mem :=
  (next_handle d, mkMem (content d) (<[next_handle d := []]> (pipes d)) (mutexes d)
                    (S (next_handle d)) (locks d) (fail_exec d) (scan_size d)).
Definition exec (p : nat) (d : mem) : error * mem :=
  if fail_exec d then (ExecFailure, d) else
  match pipes d !! p with
  | Some q => (ENil, mkMem (apply_cmds q (content d)) (<[p := []]> (pipes d)) (mutexes d)
                       (next_handle d) (locks d) (fail_exec d) (scan_size d))
  | None => (NoPipe, d)
  end.

(** A lock that nobody holds, or that has expired, can be taken. *)
Definition new_mutex (n : bytes) (expiry : Z) (d : mem) : nat * mem :=
  (next_handle d, mkMem (content d) (pipes d) (<[next_handle d := (n, expiry)]> (mutexes d))
                    (S (next_handle d)) (locks d) (fail_exec d) (scan_size d)).
Definition taken (n : bytes) (w : World W) (d : mem) : bool :=
  match locks d !! n with Some (_, t) => (now w <=? t)%Z | None => false end.
Definition lock_mutex (m : nat) (w : World W) (d : mem) : error * mem :=
  match mutexes d !! m with
  | Some (n, expiry) =>
      if taken n w d then (LockFailed, d)
      else (ENil, set_locks (<[n := (m, now w + expiry)%Z]> (locks d)) d)
  | None => (LockFailed, d)
  end.
Definition unlock_mutex (m : nat) (d : mem) : (bool * error) * mem :=
  match mutexes d !! m with
  | Some (n, _) =>
      if bool_decide (fst <$> locks d !! n = Some m)
      then ((true, ENil), set_locks (delete n (locks d)) d)
      else ((false, LockFailed), d)
  | None => ((false, LockFailed), d)
  end.

(** Patterns with the characters [*], [?] and [\\]; a bracket never matches. *)
Fixpoint glob_match (p : bytes) : bytes → bool :=
  match p with
  | [] => λ k, bool_decide (k = [])
  | c :: p' =>
      if bool_decide (c = x2a) then
        fix star (k : bytes) : bool :=
          glob_match p' k || match k with [] => false | _ :: k' => star k' end
      else if bool_decide (c = x3f) then
        λ k, match k with [] => false | _ :: k' => glob_match p' k' end
      else if bool_decide (c = x5b) then λ _, false
      else if bool_decide (c = x5c) then
        λ k, match p', k with
             | c' :: p'', x :: k' => bool_decide (x = c') && glob_match p'' k'
             | _, _ => false
             end
      else
        λ k, match k with [] => false | x :: k' => bool_decide (x = c) && glob_match p' k' end
  end.

Definition all_keys (m : gmap bytes bytes) : list bytes := (map_to_list m).*1.
Definition batch_size (d : mem) : nat := Nat.max 1 (scan_size d).

(** The keys a call of SCAN returns, and the next cursor. *)
Definition scan_batch (cursor : nat) (pattern : bytes) (d : mem) : list bytes * N :=
  let keys := all_keys (content d) in
  let next := cursor + batch_size d in
  (filter (λ k, glob_match pattern k = true) (take (batch_size d) (drop cursor keys)),
   if next <? length keys then N.of_nat next else 0%N).

#[export] Instance lib : RedisLib W := {|
  DB := mem;
  Client := ();
  Pipeliner := nat;
  Mutex := nat;
  redis_Nil := Nil;
  client_Close _ d := (ENil, d);
  client_Ping _ ctx w d := guarded ctx w id (λ d, (ENil, d)) d;
  client_Scan _ ctx cursor p _ w d :=
    guarded ctx w (λ e, ([], 0%N, e)) (λ d, ((scan_batch (N.to_nat cursor) p d, ENil), d)) d;
  client_Get _ ctx k w d :=
    guarded ctx w (λ e, ([], e)) (λ d,
      (match content d !! k with Some v => (v, ENil) | None => ([], Nil) end, d)) d;
  client_MGet _ ctx ks w d :=
    guarded ctx w (λ e, ([], e)) (λ d,
      (match ks with [] => ([], WrongArgs) | _ => ((λ k, content d !! k) <$> ks, ENil) end, d)) d;
  client_TxPipeline _ d := new_pipe d;
  pl_Set p _ k v _ d := push p (CmdSet k v) d;
  pl_Del p _ k _ d := push p (CmdDel k) d;
  pl_Discard p d := ((), set_pipes (<[p := []]> (pipes d)) d);
  pl_Exec p ctx w d := guarded ctx w id (exec p) d;
  rs_NewMutex n expiry d := new_mutex n expiry d;
  mutex_LockContext m ctx w d := guarded ctx w id (lock_mutex m w) d;
  mutex_UnlockContext m ctx w d := guarded ctx w (λ e, (false, e)) (unlock_mutex m) d
|}.

#[export] Instance view : RedisView := {|
  server := content : DB → gmap bytes bytes;
  queue := λ (d : mem) (p : nat), pipes d !! p
|}.

Lemma guarded_cases {A} ctx w (a : error → A) k d :
  (Err ctx w = ENil ∧ past_deadline ctx w = false ∧ guarded ctx w a k d = k d) ∨
  (∃ e, e ≠ ENil ∧ errors_Is e Nil = false ∧ guarded ctx w a k d = (a e, d)).
Proof.
  unfold guarded. destruct (is_nil (Err ctx w)) eqn:E; cbn [negb].
  - apply is_nil_true in E. destruct (past_deadline ctx w) eqn:Ed; [right|by left].
    by exists TimedOut.
  - right. apply is_nil_false in E. exists (ctx_error (Err ctx w)). unfold ctx_error.
    by destruct (errors_Is (Err ctx w) Nil) eqn:E'.
Qed.

Lemma push_spec p c d q : pipes d !! p = Some q →
  let '(e, d') := push p c d in
  content d' = content d ∧ pipes d' !! p = Some (if is_nil e then q ++ [c] else q).
Proof. intros E. unfold push. rewrite E. cbn. by rewrite lookup_insert_eq. Qed.

(** Splits on whether the context of a guarded call is over. *)
Ltac split_guard :=
  match goal with
  | |- context [guarded ?ctx ?w ?a ?k ?d] =>
      let e := fresh "e" in
      destruct (guarded_cases ctx w a k d) as [(_ & _ & ->)|(e & ? & ? & ->)]
  end.

#[export] Instance spec : RedisSpec.
Proof.
  split.
  - done.
  - intros. cbn. done.
  - intros. cbn. by split_guard.
  - intros. cbn. by split_guard.
  - intros c ctx k w d. cbn in *. split_guard; [|by split_and!; [|done|intros; congruence]].
    by destruct (content d !! k) eqn:E; split_and!; try done; intros [= <-].
  - intros c ctx ks w d. cbn in *. split_guard; [|done]. by destruct ks.
  - intros c d. cbn in *. by rewrite lookup_insert_eq.
  - intros p ctx k v w d q E. by apply push_spec.
  - intros p ctx k w d q E. by apply push_spec.
  - done.
  - intros p ctx w d q E. cbn in *. split_guard; [|by right]. unfold exec. rewrite E.
    destruct (fail_exec d); [by right|by left].
  - done.
  - intros m ctx w d. cbn in *. split_guard; [|done]. unfold lock_mutex.
    destruct (mutexes d !! m) as [[n x]|]; [|done]. by destruct (taken n w d).
  - intros m ctx w d. cbn in *. split_guard; [|done]. unfold unlock_mutex.
    destruct (mutexes d !! m) as [[n x]|]; [|done].
    by destruct (bool_decide _).
Qed.

(** Scans of the in-memory library. *)

Lemma glob_match_star p k : plain p → glob_match (p ++ #"*") k = HasPrefix k p.
Proof.
  intros Hp. revert k. induction Hp as [|c p Hc _ IH]; intros k.
  - cbn. destruct k as [|x k]; [done|]. cbn. induction k as [|y k IHk]; [done|]. exact IHk.
  - change ((c :: p) ++ #"*") with (c :: (p ++ #"*")). cbn [glob_match HasPrefix].
    rewrite !bool_decide_eq_false_2 by (intros ->; apply Hc; cbn; set_solver).
    destruct k as [|x k]; [done|]. rewrite IH. f_equal. apply bool_decide_ext. naive_solver.
Qed.

Lemma scan_call c ctx cursor p count w db ks next db' :
  client_Scan (RedisLib := lib) c ctx cursor p count w db = ((ks, next, ENil), db') →
  (ks, next) = scan_batch (N.to_nat cursor) p db.
Proof.
  cbn. destruct (guarded_cases ctx w (λ e, ([] : list bytes, 0%N, e))
    (λ d, ((scan_batch (N.to_nat cursor) p d, ENil), d)) db) as [(_ & _ & ->)|(e & He & _ & ->)].
  - congruence.
  - intros E. by injection E as _ _ -> _.
Qed.

(** Until it is complete, an iteration has looked at the keys before the cursor. *)
Lemma scans_seen c ctx p count d n keys next :
  scans (H := view) c ctx p count d n keys next →
  let seen := if decide (n ≠ 0 ∧ next = 0%N) then all_keys d
              else take (N.to_nat next) (all_keys d) in
  (∀ k, k ∈ seen → glob_match p k = true → k ∈ keys) ∧ n ≤ S (length (all_keys d)) ∧
  (n ≠ 0 → next ≠ 0%N → n ≤ N.to_nat next < length (all_keys d)).
Proof.
  induction 1 as [|n keys cursor w db ks next db' Hs IH Hc Hd E]; cbn zeta.
  { rewrite decide_False by (by intros []). cbn. split_and!; [set_solver|lia|done]. }
  cbn zeta in IH. cbn in Hd. apply scan_call in E. unfold scan_batch in E. rewrite Hd in E.
  set (all := all_keys d) in *. set (b := batch_size db) in *. assert (Hb : 1 ≤ b) by (unfold b, batch_size; lia).
  injection E as -> ->. rewrite decide_False in IH by (intros []; by apply Hc).
  destruct IH as (Hk & Hn & Hc').
  assert (Hn' : n ≤ N.to_nat cursor) by (destruct n; [lia|]; apply Hc'; auto).
  assert (Hnl : n ≤ length all) by (destruct n; [lia|]; pose proof (Hc' ltac:(done) ltac:(auto)); lia).
  assert (Hseen : ∀ k, k ∈ take (N.to_nat cursor + b) all → glob_match p k = true →
    k ∈ keys ++ filter (λ k, glob_match p k = true) (take b (drop (N.to_nat cursor) all))).
  { intros k Hin Hm. rewrite <-(take_drop (N.to_nat cursor) (take _ all)) in Hin.
    rewrite take_take, Nat.min_l, skipn_firstn_comm in Hin by lia.
    replace (N.to_nat cursor + b - N.to_nat cursor) with b in Hin by lia.
    apply elem_of_app in Hin as [Hin|Hin]; apply elem_of_app; [left; by apply Hk|right].
    by apply list_elem_of_filter. }
  destruct (Nat.ltb_spec (N.to_nat cursor + b) (length all)) as [Hl|Hl].
  - rewrite decide_False by (intros []; lia). rewrite Nat2N.id. split_and!; [done|lia|lia].
  - rewrite decide_True by done. split_and!; [|lia|done].
    intros k Hin. apply Hseen. by rewrite take_ge.
Qed.

#[export] Instance scan_spec : ScanSpec.
Proof.
  refine {| glob := glob_match; foreign := λ _ _, false;
            scan_bound := λ d, S (length (all_keys d)) |}.
  - apply glob_match_star.
  - intros c ctx cursor p n w d ks next e d' E k Hk. cbn in E.
    destruct (guarded_cases ctx w (λ e, ([] : list bytes, 0%N, e))
      (λ d, ((scan_batch (N.to_nat cursor) p d, ENil), d)) d) as [(_ & _ & E')|(e' & _ & _ & E')];
      rewrite E' in E; injection E as <- _ _ _; [|set_solver].
    apply list_elem_of_filter in Hk as [Hm Hk]. split; [done|]. left. cbn.
    apply elem_of_take in Hk as (i & Hk & _). rewrite lookup_drop in Hk.
    apply list_elem_of_lookup_2, list_elem_of_fmap in Hk as ([k' v] & -> & Hk).
    apply elem_of_map_to_list in Hk. cbn. eauto.
  - intros c ctx p count d n keys k Hs Hn [v Hv] Hm.
    destruct (scans_seen _ _ _ _ _ _ _ _ Hs) as (Hk & _). rewrite decide_True in Hk by done.
    apply Hk; [|done]. apply list_elem_of_fmap. exists (k, v). split; [done|].
    by apply elem_of_map_to_list.
  - intros c ctx p count d n keys next Hs. apply (scans_seen _ _ _ _ _ _ _ _ Hs).
Defined.

Definition empty_db : mem := mkMem ∅ ∅ ∅ 0 ∅ false 10.
End mem.
End RedisMem.
