(* ===== verification/RedisConcSpec.v ===== *)
(** What redis7/redis.go relies on when several goroutines use one store: operations leave
    each other's pipelines and locks alone, and the distributed lock has one holder until it
    expires. With the in-memory library as an instance. *)
From S2P Require Import Prelude Errors Keys Go Store Lock Timeout Redis RedisSpec.

(** A further view: the pipelines and mutexes made so far, the name and expiry a mutex was
    made with, and who holds the lock of a name, and until when. *)
Class LockView `{RV : RedisView W} := {
  pipe_made : DB → Pipeliner → Prop;
  mutex_made : DB → Mutex → Prop;
  mutex_info : DB → Mutex → option (bytes * Z);
  holder : DB → bytes → option (Mutex * Z)
}.

(** Nothing has been forgotten. *)
Definition remembers `{LockView W} (d d' : DB) : Prop :=
  (∀ p, pipe_made d p → pipe_made d' p) ∧ (∀ m, mutex_made d m → mutex_made d' m) ∧
  (∀ m i, mutex_made d m → mutex_info d m = Some i → mutex_info d' m = Some i).

(** An operation that leaves the locks alone, and the pipelines other than [own]. *)
Definition leaves `{LockView W} (own : option Pipeliner) (d d' : DB) : Prop :=
  remembers d d' ∧ (∀ n, holder d' n = holder d n) ∧
  ∀ p, pipe_made d p → Some p ≠ own → queue d' p = queue d p.

Section relations.
Context `{LV : LockView W}.

#[global] Instance remembers_preorder : PreOrder remembers.
Proof.
  split; [by intros d; split_and!|]. intros d1 d2 d3 (H1 & H2 & H3) (H4 & H5 & H6).
  split_and!; eauto.
Qed.
#[global] Instance leaves_preorder own : PreOrder (leaves own).
Proof.
  split; [by intros d; split_and!|]. intros d1 d2 d3 (H1 & H2 & H3) (H4 & H5 & H6).
  split_and!; [by etrans|congruence|]. intros p Hp Hn. rewrite H6; [auto| |done]. by apply H1.
Qed.
End relations.

(** The documented behaviour: what the calls do not touch; new handles are new; the lock of a
    name passes to another mutex only when its holder unlocks it or when it has expired, and
    is held for the expiry its mutex was made with. [law_Exec_late] is the assumption behind
    [lockExpiryOffset]: no transaction takes effect later than this after the deadline of its
    context ("Lock expires 5 seconds after transaction context expires"). *)
Class RedisConcSpec `{LV : LockView W} : Prop := {
  conc_spec :: RedisSpec;
  law_Close c d : leaves None d (client_Close c d).2;
  law_Get c ctx k w d : leaves None d (client_Get c ctx k w d).2;
  law_TxPipeline c d :
    let '(p, d') := client_TxPipeline c d in
    leaves None d d' ∧ ¬ pipe_made d p ∧ pipe_made d' p;
  law_Set p ctx k v w d : leaves (Some p) d (pl_Set p ctx k v w d).2;
  law_Del p ctx k w d : leaves (Some p) d (pl_Del p ctx k w d).2;
  law_Discard p d : leaves (Some p) d (pl_Discard p d).2;
  law_Exec p ctx w d : leaves (Some p) d (pl_Exec p ctx w d).2;
  law_Exec_late p ctx w d q t :
    queue d p = Some q → Deadline ctx = Some t → (t + lockExpiryOffset < now w)%Z →
    let '(e, d') := pl_Exec p ctx w d in server d' = server d ∧ (q ≠ [] → e ≠ ENil);
  law_NewMutex n x d :
    let '(m, d') := rs_NewMutex n x d in
    leaves None d d' ∧ ¬ mutex_made d m ∧ mutex_made d' m ∧ mutex_info d' m = Some (n, x);
  law_LockContext m ctx w d n x :
    mutex_made d m → mutex_info d m = Some (n, x) →
    let '(e, d') := mutex_LockContext m ctx w d in
    remembers d d' ∧
    (∀ n' m' t, holder d n' = Some (m', t) → m' ≠ m → (now w ≤ t)%Z →
       holder d' n' = Some (m', t) ∧ (n' = n → e ≠ ENil)) ∧
    (e = ENil → ∃ t, holder d' n = Some (m, t) ∧ (now w + x ≤ t)%Z);
  law_UnlockContext m ctx w d :
    let '(_, d') := mutex_UnlockContext m ctx w d in
    remembers d d' ∧
    ∀ n m' t, holder d n = Some (m', t) → m' ≠ m → holder d' n = Some (m', t)
}.

(** ** The in-memory library *)

Module RedisConcMem.
Import RedisMem.
Section mem.
Context {W : Type}.

#[export] Instance conc_view : LockView (W := W) (RL := lib) (RV := view) :=
  @Build_LockView W lib view
    (λ (d : mem) (p : nat), p < next_handle d) (λ (d : mem) (m : nat), m < next_handle d)
    (λ (d : mem) (m : nat), mutexes d !! m) (λ (d : mem) n, locks d !! n).

Implicit Type d : DB (W := W) (RedisLib := lib).

Lemma leaves_refl own d : leaves own d d.
Proof. reflexivity. Qed.

Lemma leaves_guarded {A} own (ctx : Context W) w (a : error → A) (k : mem → A * mem) d :
  leaves own d (k d).2 → leaves own d (guarded ctx w a k d).2.
Proof. destruct (guarded_cases ctx w a k d) as [(_ & _ & ->)|(e & _ & _ & ->)]; by intros H. Qed.

Lemma leaves_pipes (p : nat) ps d :
  (∀ p', p' ≠ p → ps !! p' = pipes d !! p') → leaves (Some p) d (set_pipes ps d).
Proof.
  intros Hp. split_and!; [done|done|]. intros p' _ Hn. apply Hp. intros ->. by apply Hn.
Qed.

Lemma leaves_push p c d : leaves (Some p) d (push p c d).2.
Proof.
  cbn in *. unfold push. destruct (pipes d !! p); [|apply leaves_refl]. apply leaves_pipes.
  intros p' Hp. by apply lookup_insert_ne.
Qed.

Lemma leaves_exec p d : leaves (Some p) d (exec p d).2.
Proof.
  cbn in *. unfold exec. destruct (fail_exec d); [apply leaves_refl|].
  destruct (pipes d !! p); [|apply leaves_refl]. split_and!; [done|done|].
  intros p' _ Hn. cbn in *. apply lookup_insert_ne. intros ->. by apply Hn.
Qed.

Lemma taken_by n (w : World W) d m t :
  locks d !! n = Some (m, t) → taken n w d = (now w <=? t)%Z.
Proof. intros E. unfold taken. by rewrite E. Qed.

#[export] Instance conc_laws : RedisConcSpec (W := W) (RL := lib).
Proof.
  split.
  - exact _.
  - intros c d. apply leaves_refl.
  - intros c ctx k w d. by apply leaves_guarded.
  - intros c d. split_and!; [|apply Nat.lt_irrefl|apply Nat.lt_succ_diag_r].
    split_and!; [split_and!; [intros; by apply Nat.lt_lt_succ_r..|done]|done|].
    intros p Hp _. apply lookup_insert_ne, not_eq_sym, Nat.lt_neq, Hp.
  - intros p ctx k v w d. apply leaves_push.
  - intros p ctx k w d. apply leaves_push.
  - intros p d. cbn. apply leaves_pipes. intros p' Hp. by apply lookup_insert_ne.
  - intros p ctx w d. apply leaves_guarded, leaves_exec.
  - intros p ctx w d q t Hq Ht Hl. cbn in *.
    destruct (guarded_cases ctx w id (exec p) d) as [(_ & Hd & _)|(e & He & _ & ->)]; [|done].
    unfold past_deadline in Hd. rewrite Ht in Hd. apply Z.ltb_ge in Hd.
    assert (0 ≤ lockExpiryOffset)%Z by done. lia.
  - intros n x d. split_and!; [|apply Nat.lt_irrefl|apply Nat.lt_succ_diag_r|apply lookup_insert_eq].
    split_and!; [split_and!; [intros; by apply Nat.lt_lt_succ_r..|]|done|done].
    intros m i Hm E. cbn in *. by rewrite lookup_insert_ne by (by apply not_eq_sym, Nat.lt_neq).
  - intros m ctx w d n x _ Hm. cbn in *.
    destruct (guarded_cases ctx w id (lock_mutex m w) d) as [(_ & _ & ->)|(e & He & _ & ->)]; [|done].
    unfold lock_mutex. rewrite Hm. destruct (taken n w d) eqn:Et; [done|].
    split_and!; [done| |].
    + intros n' m' t Hh Hne Ht. cbn. destruct (decide (n' = n)) as [->|Hn].
      * rewrite (taken_by _ _ _ _ _ Hh) in Et. lia.
      * by rewrite lookup_insert_ne.
    + intros _. eexists. cbn. by rewrite lookup_insert_eq.
  - intros m ctx w d. cbn in *.
    destruct (guarded_cases ctx w (λ e, (false, e)) (unlock_mutex m) d)
      as [(_ & _ & ->)|(e & He & _ & ->)]; [|done].
    unfold unlock_mutex. destruct (mutexes d !! m) as [[n x]|]; [|done].
    case_bool_decide as Hb; [|done]. split; [done|]. intros n' m' t Hh Hne. cbn.
    rewrite lookup_delete_ne; [done|]. intros ->. rewrite Hh in Hb. by injection Hb as ->.
Qed.
End mem.
End RedisConcMem.
