(* ===== verification/RedisKeys.v ===== *)
(** The keys of redis7/redis.go in the server's single key space: how shelves and keys are
    encoded, decoded, kept apart and confused. *)
From S2P Require Import Prelude Errors Keys Go Store Lock Timeout Redis.
Import Keys.Std Keys.StdFacts.

(** ** Separators in the texts of keys *)

Definition dot : byte := x2e.

Lemma digit_not_dot d : (d < 10)%N → digit d ≠ dot.
Proof.
  intros Hd. assert (d = 0 ∨ d = 1 ∨ d = 2 ∨ d = 3 ∨ d = 4 ∨ d = 5 ∨ d = 6 ∨ d = 7 ∨
    d = 8 ∨ d = 9)%N as Hc by lia.
  by destruct_or! Hc; subst d.
Qed.

Lemma format_dec_no_dot f n : dot ∉ format_dec f n.
Proof.
  revert n. induction f as [|f IH]; intros n; cbn [format_dec]; [apply not_elem_of_nil|].
  destruct (N.ltb_spec n 10).
  - intros [E|[]%not_elem_of_nil]%elem_of_cons. by apply (digit_not_dot n).
  - intros [Hin|[E|[]%not_elem_of_nil]%elem_of_cons]%elem_of_app; [by apply IH in Hin|].
    symmetry in E. revert E. apply digit_not_dot, N.mod_upper_bound. lia.
Qed.

Lemma hex_digits_not_dot b :
  hex_digit (Byte.to_N b / 16) ≠ dot ∧ hex_digit (Byte.to_N b mod 16) ≠ dot.
Proof. by destruct b. Qed.

Lemma EncodeToString_no_dot b : dot ∉ EncodeToString b.
Proof.
  induction b as [|x b IH]; cbn; [apply not_elem_of_nil|].
  pose proof (hex_digits_not_dot x) as [H1 H2].
  intros [E|[E|Hin]%elem_of_cons]%elem_of_cons; [by apply H1|by apply H2|done].
Qed.

(** The text of a key contains no dot. *)
Lemma String_no_dot k : dot ∉ String k.
Proof. destruct k; [apply format_dec_no_dot|apply EncodeToString_no_dot..]. Qed.

Lemma DecodeString_dot s : dot ∈ s → (DecodeString s).2 ≠ ENil.
Proof.
  induction s as [|p|p q s IH] using list_pair_ind.
  - by intros []%not_elem_of_nil.
  - intros [<-|[]%not_elem_of_nil]%elem_of_cons. done.
  - cbn. intros Hin. destruct (hex_value p) eqn:Ep; [|done]. destruct (hex_value q) eqn:Eq; [|done].
    destruct (DecodeString s) as [d e]. cbn in *. apply IH.
    apply elem_of_cons in Hin as [<-|Hin]; [done|].
    by apply elem_of_cons in Hin as [<-|Hin].
Qed.

Lemma ParseUint_loop_dot maxVal n s : dot ∈ s → (ParseUint_loop maxVal n s).2 ≠ ENil.
Proof.
  revert n. induction s as [|c s IH]; intros n; [by intros []%not_elem_of_nil|]. cbn.
  intros [<-|Hin]%elem_of_cons; [done|]. destruct (digit_value c) as [d|]; [|done].
  case_match; [done|]. by apply IH.
Qed.

Lemma ParseInt_dot s : dot ∈ s → (ParseInt s 32).2 ≠ ENil.
Proof.
  intros Hin. unfold ParseInt. destruct s as [|c s]; [done|].
  assert (Hs : dot ∈ (split_sign (c :: s)).2).
  { apply elem_of_cons in Hin as [<-|Hin]; [by left|].
    destruct c; cbn; try (by right); exact Hin. }
  destruct (split_sign (c :: s)) as [neg s']. cbn in Hs.
  assert (HU : (ParseUint s' 32).2 ≠ ENil).
  { destruct s'; [done|]. by apply ParseUint_loop_dot. }
  destruct (ParseUint s' 32) as [un err] eqn:E. cbn [snd] in HU.
  by apply ParseUint_error in E as [[-> _]|[[-> ->]|[-> ->]]]; destruct neg.
Qed.

(** A text with a dot is no key of any type. *)
Lemma FromString_dot k s : dot ∈ s → (FromString k s).2 ≠ ENil.
Proof.
  intros Hin. destruct k as [u|h|b]; cbn.
  - unfold Uint32Key_FromString. pose proof (ParseInt_dot s Hin) as HP.
    destruct (ParseInt s 32) as [z e]. cbn in HP. apply is_nil_false in HP. by rewrite HP.
  - unfold HashKey_FromString. pose proof (DecodeString_dot s Hin) as HP.
    destruct (DecodeString s) as [d e]. cbn in HP. apply is_nil_false in HP. by rewrite HP.
  - unfold BytesKey_FromString. pose proof (DecodeString_dot s Hin) as HP.
    destruct (DecodeString s) as [d e]. cbn in HP. apply is_nil_false in HP. by rewrite HP.
Qed.

(** Texts without the separator are determined by the joined text. *)
Lemma join_inj (sep : byte) a b a' b' :
  sep ∉ b → sep ∉ b' → a ++ sep :: b = a' ++ sep :: b' → a = a' ∧ b = b'.
Proof.
  intros Hb Hb'. revert a'. induction a as [|x a IH]; intros [|x' a']; cbn.
  - by intros [= ->].
  - intros [= <- ->]. destruct Hb. apply elem_of_app. right. by left.
  - intros [= -> <-]. destruct Hb'. apply elem_of_app. right. by left.
  - intros [= <- E]. by apply IH in E as [-> ->].
Qed.

Section keys.
Context {W : Type} `{RL : RedisLib W} (prefix : bytes).
Implicit Types (s : shelf (W := W)).
Abbreviation toRedisKey := (toRedisKey prefix).
Abbreviation fromRedisKey := (fromRedisKey prefix).

(** What precedes the key in the Redis keys of a shelf. *)
Definition key_prefix s : bytes :=
  (if 0 <? length prefix then prefix ++ #":" else []) ++ name s ++ #".".

Lemma toRedisKey_eq s k : toRedisKey s k = key_prefix s ++ String k.
Proof.
  unfold Redis.toRedisKey, key_prefix. destruct (0 <? length prefix); by rewrite <-!app_assoc.
Qed.

Lemma fromRedisKey_eq s i k : fromRedisKey s (key_prefix s ++ i) k = FromString k i.
Proof.
  unfold Redis.fromRedisKey, key_prefix. destruct (0 <? length prefix).
  - rewrite <-!app_assoc, (app_assoc prefix), HasPrefix_app, TrimPrefix_app. cbn [negb].
    by rewrite (app_assoc (name s) _ i), HasPrefix_app, TrimPrefix_app.
  - rewrite !app_nil_l. by rewrite HasPrefix_app, TrimPrefix_app.
Qed.

(** keys survive the way to the server and back: [fromRedisKey] decodes what
    [toRedisKey] makes of a key, as far as [FromString] reads what [String] writes, which
    for a [Uint32Key] of 2^31 or more it does not. *)
Theorem redis_key_roundtrip s k0 k
    (Ht : same_type k0 k = true) (Hk : key_wf k) :
  fromRedisKey s (toRedisKey s k) k0 =
    match k with
    | Uint32Key u =>
        if (u <? 2 ^ 31)%N then (Some k, ENil)
        else (None, string_parse_error k0 (NumError #"ParseInt" (String k) ErrRange))
    | _ => (Some k, ENil)
    end.
Proof.
  rewrite toRedisKey_eq, fromRedisKey_eq. by apply FromString_String_eq.
Qed.

(** Pairs of a shelf and a key of one type have different Redis keys. *)
Theorem redis_key_injective s s' k k'
    (Ht : same_type k k' = true) (Hk : key_wf k) (Hk' : key_wf k') :
  toRedisKey s k = toRedisKey s' k' ↔ name s = name s' ∧ k = k'.
Proof.
  rewrite !toRedisKey_eq. unfold key_prefix. split.
  - rewrite <-!app_assoc. intros [Hn Hs]%app_inv_head%join_inj; [|apply String_no_dot..].
    split; [done|]. by apply String_inj.
  - intros [E ->]. by rewrite E.
Qed.

(** Shelves are not separated in a scan. The keys of a shelf whose name continues
    another's with a dot start with that one's scan prefix, so they are found when the other
    shelf is iterated or tested for emptiness; and as none of them can be decoded there,
    [Iterate] on it fails. *)
Theorem redis_shelves_overlap s s' (rest : bytes) (k k0 : Key)
    (Hn : name s' = name s ++ #"." ++ rest) :
  HasPrefix (toRedisKey s' k) (toRedisKey s (BytesKey [])) = true ∧
  (fromRedisKey s (toRedisKey s' k) k0).2 ≠ ENil.
Proof.
  assert (E : toRedisKey s' k = key_prefix s ++ rest ++ #"." ++ String k).
  { rewrite toRedisKey_eq. unfold key_prefix. by rewrite Hn, <-!app_assoc. }
  rewrite E. split.
  - rewrite toRedisKey_eq, app_nil_r. apply HasPrefix_app.
  - rewrite fromRedisKey_eq. apply FromString_dot, elem_of_app. right. by left.
Qed.
End keys.
