(* ===== verification/RedisTx.v ===== *)
(** The theorems on redis7/redis.go's shelf operations and transaction protocol, for any
    library with the documented behaviour. *)
From S2P Require Import Prelude Errors Keys Go Store Lock Timeout Redis RedisSpec.

Section protocol.
Context {Logger W : Type} `{RS : RedisSpec W} `{!Env W, !CallScheduler W}.
Context (cfg : Config Logger) (prefix : bytes).
Implicit Types (s : St store W) (opts : list (TxOption store W)) (sh : shelf (W := W)).
Abbreviation M := (M store W).

Definition data s : gmap bytes bytes := server (db (back s)).

(** The store is open and nobody holds its mutex. *)
Definition is_open s : Prop := mux (back s) = unlocked ∧ ∃ c, client (back s) = Some c.

(** Pipeline [pl] has buffered [q], in an open store. *)
Definition buffered (pl : Pipeliner) s (q : list cmd) : Prop :=
  queue (db (back s)) pl = Some q ∧ is_open s.

(** Nothing has changed but the world. *)
Definition calm s s' : Prop :=
  same_server (db (back s)) (db (back s')) ∧ client (back s') = client (back s) ∧
  mux (back s') = mux (back s).
#[global] Instance calm_preorder : PreOrder calm.
Proof.
  split; [by intros s; split_and!|]. intros s1 s2 s3 (H1 & H2 & H3) (H4 & H5 & H6).
  split_and!; [by etrans|congruence..].
Qed.

Lemma calm_data s s' : calm s s' → data s' = data s.
Proof. by intros [[H _] _]. Qed.
Lemma calm_buffered pl s s' q : calm s s' → buffered pl s q → buffered pl s' q.
Proof.
  intros ((_ & Hq) & Hc & Hm) (H1 & H2 & H3). split; [by rewrite Hq|].
  split; [by rewrite Hm|by rewrite Hc].
Qed.
Lemma calm_tick s w : calm s (mkSt (back s) w).
Proof. by split. Qed.

(** *** Calls *)

Definition with_db s (d : DB) : St store W :=
  mkSt (mkStore _ _ d (client (back s)) (mux (back s))) (world s).

Lemma redis_run {A} (f : DB → A * DB) s :
  redis f s = (Return (f (db (back s))).1, with_db s (f (db (back s))).2).
Proof. unfold redis, lib. by destruct (f (db (back s))). Qed.

Definition ticked s : St store W := mkSt (back s) (tick (world s)).

Lemma redis_ctx_run {A} (f : World W → DB → A * DB) s :
  redis_ctx f s =
    (Return (f (tick (world s)) (db (back s))).1,
     with_db (ticked s) (f (tick (world s)) (db (back s))).2).
Proof. unfold redis_ctx. by rewrite redis_run. Qed.

Lemma with_db_calm s d : same_server (db (back s)) d → calm s (with_db (ticked s) d).
Proof. intros H. by split. Qed.

Lemma checkOpen_run s :
  mux (back s) = unlocked →
  checkOpen s = (Return (match client (back s) with None => ErrStoreIsClosed | Some _ => ENil end), s).
Proof.
  intros Hm. unfold checkOpen, RLock, RUnlock, on_mux, defer, mbind, M_bind. cbn. rewrite Hm. cbn.
  destruct s as [[d c m] w]. cbn in *. subst m. by destruct c.
Qed.

Lemma checkOpen_open s : is_open s → checkOpen s = (Return ENil, s).
Proof. intros [Hm [c Hc]]. by rewrite checkOpen_run, Hc. Qed.

(** *** Shelf operations *)

(** A write is buffered, or fails with a database error. *)
Definition write_result pl s (q : list cmd) (c : cmd) (m : M error) : Prop :=
  ∃ e s', m s = (Return e, s') ∧ data s' = data s ∧
    if is_nil e then buffered pl s' (q ++ [c])
    else is_database_error e = true ∧ buffered pl s' q.

Lemma pl_write pl s q c (f : World W → DB → error * DB) :
  buffered pl s q →
  (∀ w, let '(e, d') := f w (db (back s)) in
    server d' = data s ∧ queue d' pl = Some (if is_nil e then q ++ [c] else q)) →
  write_result pl s q c
    (err ← redis_ctx f; if negb (is_nil err) then mret (DatabaseError err) else mret ENil).
Proof.
  intros (Hq & Ho) Hf. specialize (Hf (tick (world s))). unfold write_result.
  rewrite (bind_Return _ _ _ _ _ (redis_ctx_run f s)).
  destruct (f (tick (world s)) (db (back s))) as [e d'] eqn:E. destruct Hf as [Hd Hq'].
  cbn [fst snd]. destruct (is_nil e) eqn:En; cbn [negb]; eexists _, _; (split; [done|]);
    (split; [done|]).
  - done.
  - rewrite (proj2 (is_nil_false _) (DatabaseError_not_nil e)).
    split; [apply DatabaseError_database|done].
Qed.

Lemma redis_Put_spec sh pl k x s q :
  buffered pl s q → writer sh = Some pl →
  write_result pl s q (CmdSet (toRedisKey prefix sh k) x) (shelf_Put prefix sh k x).
Proof.
  intros Hb Hw. unfold shelf_Put, write_result. pose proof Hb as [_ Ho].
  rewrite (bind_Return _ _ _ _ _ (checkOpen_open s Ho)). cbn [is_nil negb].
  rewrite Hw. cbn [must]. rewrite bind_ret. apply pl_write; [done|]. intros w. apply spec_Set, Hb.
Qed.

Lemma redis_Delete_spec sh pl k s q :
  buffered pl s q → writer sh = Some pl →
  write_result pl s q (CmdDel (toRedisKey prefix sh k)) (shelf_Delete prefix sh k).
Proof.
  intros Hb Hw. unfold shelf_Delete, write_result. rewrite Hw. cbn [must]. rewrite bind_ret.
  apply pl_write; [done|]. intros w. apply spec_Del, Hb.
Qed.

Lemma redis_Get_spec sh c k s :
  reader sh = Some c →
  ∃ r s', shelf_Get prefix sh k s = (Return r, s') ∧ calm s s' ∧
    ((∃ v, data s !! toRedisKey prefix sh k = Some v ∧ r = (Some v, ENil)) ∨
     (data s !! toRedisKey prefix sh k = None ∧ r = (None, ErrKeyNotFound)) ∨
     (∃ e, is_database_error e = true ∧ r = (None, e))).
Proof.
  intros Hr. unfold shelf_Get. rewrite Hr. cbn [must]. rewrite bind_ret.
  rewrite (bind_Return _ _ _ _ _ (redis_ctx_run _ s)).
  pose proof (spec_Get c (shelf_ctx sh) (toRedisKey prefix sh k) (tick (world s)) (db (back s))) as HG.
  destruct (client_Get c _ _ _ _) as [[v e] d'] eqn:E. destruct HG as (Hs & Hok & Hnil).
  cbn [fst snd]. destruct (errors_Is e redis_Nil) eqn:EI.
  { eexists _, _. split; [done|]. split; [by apply with_db_calm|]. right; left. auto. }
  destruct (is_nil e) eqn:En; cbn [negb]; eexists _, _; (split; [done|]);
    (split; [by apply with_db_calm|]).
  - left. exists v. apply is_nil_true in En. auto.
  - right; right. eexists. split; [|done]. apply DatabaseError_database.
Qed.

Lemma redis_Empty_calm sh c s :
  reader sh = Some c → ∃ r s', shelf_Empty prefix sh s = (Return r, s') ∧ calm s s'.
Proof.
  intros Hr. unfold shelf_Empty. rewrite Hr. cbn [must]. rewrite bind_ret.
  rewrite (bind_Return _ _ _ _ _ (redis_ctx_run _ s)).
  pose proof (spec_Scan c (shelf_ctx sh) 0 (scan_pattern prefix sh) (Z.of_nat resultCount)
    (tick (world s)) (db (back s))) as Hsv.
  destruct (client_Scan c _ _ _ _ _ _) as [[[ks next0] e] d']. cbn [fst snd] in *.
  destruct (negb (is_nil e)), (length ks =? 0); eexists _, _; (split; [done|]);
    by apply with_db_calm.
Qed.

(** The operations of a shelf within a write transaction. [Put] and [Delete] append one
    command to the transaction's pipeline and leave the server alone; a failure is a
    database error and appends nothing. [Get] reads the server: a value, [ErrKeyNotFound],
    or a database error. *)
Theorem redis_shelf_ops sh pl c k x s q
    (Hb : buffered pl s q) (Hw : writer sh = Some pl) (Hr : reader sh = Some c) :
  write_result pl s q (CmdSet (toRedisKey prefix sh k) x) (shelf_Put prefix sh k x) ∧
  write_result pl s q (CmdDel (toRedisKey prefix sh k)) (shelf_Delete prefix sh k) ∧
  ∃ r s', shelf_Get prefix sh k s = (Return r, s') ∧ calm s s' ∧
    ((∃ v, data s !! toRedisKey prefix sh k = Some v ∧ r = (Some v, ENil)) ∨
     (data s !! toRedisKey prefix sh k = None ∧ r = (None, ErrKeyNotFound)) ∨
     (∃ e, is_database_error e = true ∧ r = (None, e))).
Proof.
  split_and!; [by apply redis_Put_spec|by apply redis_Delete_spec|by eapply redis_Get_spec].
Qed.

(** A transaction does not see its own writes: what [Get] returns after a [Put] of the
    same key is what the server held before, or a failure. *)
Theorem redis_reads_committed sh pl c k x s q
    (Hb : buffered pl s q) (Hw : writer sh = Some pl) (Hr : reader sh = Some c) :
  ∃ r s', (_ ← shelf_Put prefix sh k x; shelf_Get prefix sh k) s = (Return r, s') ∧
    data s' = data s ∧
    ((∃ v, data s !! toRedisKey prefix sh k = Some v ∧ r = (Some v, ENil)) ∨
     (data s !! toRedisKey prefix sh k = None ∧ r = (None, ErrKeyNotFound)) ∨
     (∃ e, is_database_error e = true ∧ r = (None, e))).
Proof.
  destruct (redis_Put_spec sh pl k x s q Hb Hw) as (e & s1 & E & Hd & _).
  rewrite (bind_Return _ _ _ _ _ E). rewrite <-Hd.
  destruct (redis_Get_spec sh c k s1 Hr) as (r & s2 & E2 & Hc & HC).
  exists r, s2. split; [exact E2|]. split; [by apply calm_data|exact HC].
Qed.

(** ** The write transaction: specification *)

(** A callback that uses the store through its pipeline and for reading only. *)
Definition well_behaved (fn : Context W → Pipeliner → M error) : Prop :=
  ∀ ctx pl s q, buffered pl s q →
    let '(o, s') := fn ctx pl s in
    data s' = data s ∧ (∀ e, o = Return e → ∃ q', buffered pl s' q').

(** [fn] was called once, with an empty pipeline and a context that has a deadline and is
    [ctx] or ends no later, and ended with [o] in [s1]. *)
Definition called s (ctx : Context W) fn (ctx' : Context W) (pl : Pipeliner)
    (o : outcome error) s1 : Prop :=
  ∃ s0, buffered pl s0 [] ∧ data s0 = data s ∧ fn ctx' pl s0 = (o, s1) ∧ data s1 = data s ∧
    Deadline ctx' ≠ None ∧ sticky ctx' ∧ ∀ w, Err ctx w ≠ ENil → Err ctx' w ≠ ENil.

(** The outcomes of a write transaction. *)
Inductive write_outcome (ctx : Context W) fn opts s : outcome error * St store W → Prop :=
  | wo_closed : client (back s) = None →
      write_outcome ctx fn opts s (Return ErrStoreIsClosed, s)
  | wo_not_locked e s' : WriteLockOption_Enabled opts = true →
      e ≠ ENil → is_database_error e = true → calm s s' →
      write_outcome ctx fn opts s (Return e, s')
  | wo_crashed ctx' pl o s' : called s ctx fn ctx' pl o s' → (∀ e, o ≠ Return e) →
      write_outcome ctx fn opts s (o, s')
  | wo_rolled_back ctx' pl e s1 s2 :
      called s ctx fn ctx' pl (Return e) s1 → e ≠ ENil → data s2 = data s → is_open s2 →
      write_outcome ctx fn opts s ((_ ← OnRollbackOption_Invoke opts; mret e) s2)
  | wo_expired ctx' pl s1 s2 :
      called s ctx fn ctx' pl (Return ENil) s1 → Err ctx' (tick (world s1)) ≠ ENil →
      data s2 = data s → is_open s2 →
      write_outcome ctx fn opts s
        ((_ ← OnRollbackOption_Invoke opts; e ← ctx_Err ctx'; mret (DatabaseError e)) s2)
  | wo_exec_failed ctx' pl q c s1 s2 :
      called s ctx fn ctx' pl (Return ENil) s1 → buffered pl s1 q → c ≠ ENil →
      data s2 = data s ∨ data s2 = apply_cmds q (data s) → is_open s2 →
      write_outcome ctx fn opts s
        ((_ ← OnRollbackOption_Invoke opts; mret (WrapError ErrCommitFailed c)) s2)
  | wo_committed ctx' pl q s1 s2 :
      called s ctx fn ctx' pl (Return ENil) s1 → buffered pl s1 q →
      data s2 = apply_cmds q (data s) → is_open s2 →
      write_outcome ctx fn opts s ((_ ← AfterCommitOption_Invoke opts; mret ENil) s2).

(** ** Refinement *)

Hypothesis forward : clock_forward (W := W).

Lemma tx_context_spec ctx s :
  sticky ctx →
  ∃ ctx', tx_context ctx s = (Return ctx', s) ∧ Deadline ctx' ≠ None ∧ sticky ctx' ∧
    ∀ w, Err ctx w ≠ ENil → Err ctx' w ≠ ENil.
Proof.
  intros Hst. unfold tx_context. destruct (Deadline ctx) as [d|] eqn:Ed.
  - exists ctx. split_and!; [done|by rewrite Ed|done|done].
  - eexists. split; [done|]. split_and!; [done|by apply WithTimeout_sticky|].
    intros w Hw. cbn. apply is_nil_false in Hw as Hw'. by rewrite Hw'.
Qed.

Lemma acquire_lock_spec ctx opts s :
  ∃ m e s', acquire_lock cfg prefix ctx opts s = (Return (m, e), s') ∧ calm s s' ∧
    (e ≠ ENil → WriteLockOption_Enabled opts = true).
Proof.
  unfold acquire_lock. destruct (WriteLockOption_Enabled opts); [|by exists None, ENil, s].
  rewrite (bind_Return get_world _ s (world s) s eq_refl). cbn zeta.
  rewrite (bind_Return _ _ _ _ _ (redis_run _ s)).
  rewrite (bind_Return _ _ _ _ _ (redis_ctx_run _ _)).
  eexists _, _, _. split; [done|]. split; [|done]. split; [|done].
  etrans; [apply spec_NewMutex|apply spec_LockContext].
Qed.

Lemma redis_unlock_spec ctx m s : ∃ s', unlock ctx m s = (Return (), s') ∧ calm s s'.
Proof.
  destruct m as [m|]; cbn; [|by exists s].
  rewrite (bind_Return _ _ _ _ _ (ctx_Err_run ctx s)).
  destruct (errors_Is _ DeadlineExceeded); [eexists; split; [done|]; apply calm_tick|].
  rewrite (bind_Return get_world _ _ _ _ eq_refl).
  rewrite (bind_Return _ _ _ _ _ (redis_ctx_run _ _)).
  eexists. split; [done|]. split; [|done]. apply spec_UnlockContext.
Qed.

(** The data, and whether the store is open, are as they were. *)
Definition same_store s s' : Prop :=
  data s' = data s ∧ client (back s') = client (back s) ∧ mux (back s') = mux (back s).
#[global] Instance same_store_preorder : PreOrder same_store.
Proof.
  split; [by intros s; split_and!|]. intros s1 s2 s3 (?&?&?) (?&?&?). split_and!; congruence.
Qed.
Lemma calm_same_store s s' : calm s s' → same_store s s'.
Proof. intros H. split; [by apply calm_data|apply H]. Qed.
Lemma same_store_open s s' : same_store s s' → is_open s → is_open s'.
Proof. intros (_ & Hc & Hm) [H1 [c H2]]. split; [congruence|]. exists c. congruence. Qed.

(** [unlock] and what follows, as one step. *)
Lemma unlock_bind {A} ctx m s (k : M A) :
  ∃ s', (_ ← unlock ctx m; k) s = k s' ∧ same_store s s'.
Proof.
  destruct (redis_unlock_spec ctx m s) as (s' & E & Hc). exists s'.
  rewrite (bind_Return _ _ _ _ _ E). split; [done|]. by apply calm_same_store.
Qed.

(** Discarding the pipeline, [unlock], and what follows. *)
Lemma discard_bind {A} pl ctx m s (k : M A) :
  ∃ s', (_ ← redis (pl_Discard pl); _ ← unlock ctx m; k) s = k s' ∧ same_store s s'.
Proof.
  rewrite (bind_Return _ _ _ _ _ (redis_run _ s)).
  destruct (unlock_bind ctx m (with_db s (pl_Discard pl (db (back s))).2) k) as (s' & -> & Hd).
  exists s'. split; [done|]. etrans; [|exact Hd]. split; [apply spec_Discard|done].
Qed.

Lemma redis_finish_write ctx ctx' fn pl m opts s app s1 q :
  called s ctx fn ctx' pl (Return app) s1 → buffered pl s1 q →
  write_outcome ctx fn opts s (finishTX ctx' pl m opts app s1).
Proof.
  intros HC Hb. pose proof HC as (s0 & _ & _ & _ & Hd & _). pose proof Hb as [_ Ho].
  assert (HO : ∀ s', same_store s1 s' → data s' = data s ∧ is_open s').
  { intros s' Hs. split; [|by eapply same_store_open]. rewrite <-Hd. apply Hs. }
  unfold finishTX.
  destruct (is_nil app) eqn:En; cbn [negb].
  - apply is_nil_true in En as ->. rewrite (bind_Return _ _ _ _ _ (ctx_Err_run ctx' s1)).
    set (s2 := mkSt (back s1) (tick (world s1))).
    destruct (is_nil (Err ctx' (tick (world s1)))) eqn:Ee; cbn [negb].
    + rewrite (bind_Return _ _ _ _ _ (redis_ctx_run _ s2)).
      pose proof (spec_Exec pl ctx' (tick (world s2)) (db (back s2)) q (proj1 Hb)) as HE.
      destruct (pl_Exec pl ctx' (tick (world s2)) (db (back s2))) as [e d'] eqn:E.
      cbn [fst snd]. set (s3 := with_db (ticked s2) d').
      assert (Hd3 : data s3 = apply_cmds q (data s) ∨ (e ≠ ENil ∧ data s3 = data s))
        by (rewrite <-Hd; exact HE).
      destruct (is_nil e) eqn:En; cbn [negb].
      * destruct (unlock_bind ctx' m s3 (_ ← AfterCommitOption_Invoke opts; mret ENil))
          as (s4 & -> & Hs4). apply is_nil_true in En as ->.
        eapply wo_committed; [exact HC|exact Hb| |by eapply same_store_open].
        rewrite (proj1 Hs4). by destruct Hd3 as [|[[] _]].
      * destruct (unlock_bind ctx' m s3 (_ ← OnRollbackOption_Invoke opts;
          mret (WrapError ErrCommitFailed e))) as (s4 & -> & Hs4). apply is_nil_false in En.
        eapply wo_exec_failed; [exact HC|exact Hb|exact En| |by eapply same_store_open].
        rewrite (proj1 Hs4). destruct Hd3 as [->|[_ ->]]; auto.
    + destruct (discard_bind pl ctx' m s2 (_ ← OnRollbackOption_Invoke opts;
        e ← ctx_Err ctx'; mret (DatabaseError e))) as (s3 & -> & Hs3).
      destruct (HO s3 Hs3). eapply wo_expired; [exact HC|by apply is_nil_false|done..].
  - destruct (discard_bind pl ctx' m s1 (_ ← OnRollbackOption_Invoke opts; mret app))
      as (s2 & -> & Hs2).
    destruct (HO s2 Hs2). eapply wo_rolled_back; [exact HC|by apply is_nil_false|done..].
Qed.

Lemma redis_write_protocol_lemma ctx fn opts s :
  sticky ctx → well_behaved fn → mux (back s) = unlocked →
  write_outcome ctx fn opts s (doTX cfg prefix ctx fn opts s).
Proof.
  intros Hst Hfn Hm. unfold doTX. rewrite (bind_Return _ _ _ _ _ (checkOpen_run s Hm)).
  destruct (client (back s)) as [c|] eqn:Ec; [|by apply wo_closed]. cbn [is_nil negb].
  destruct (tx_context_spec ctx s Hst) as (ctx' & E & Hdl & Hst' & Hle).
  rewrite (bind_Return _ _ _ _ _ E). clear E.
  destruct (acquire_lock_spec ctx' opts s) as (m & e & s1 & E & Hc1 & He).
  rewrite (bind_Return _ _ _ _ _ E). clear E. destruct (is_nil e) eqn:En; cbn [negb].
  - rewrite (bind_Return get_back _ s1 (back s1) s1 eq_refl).
    pose proof Hc1 as ((Hs1 & _) & Hc1' & Hm1). rewrite Hc1', Ec. cbn [must]. rewrite bind_ret.
    rewrite (bind_Return _ _ _ _ _ (redis_run _ s1)).
    pose proof (spec_TxPipeline c (db (back s1))) as HP.
    destruct (client_TxPipeline c (db (back s1))) as [pl d'] eqn:EP. destruct HP as [Hd' Hq].
    cbn [fst snd]. set (s2 := with_db s1 d').
    assert (Hb : buffered pl s2 []).
    { split; [exact Hq|]. split; [by cbn; rewrite Hm1|]. exists c. by cbn; rewrite Hc1'. }
    assert (Hd2 : data s2 = data s) by (by unfold data; cbn; rewrite Hd').
    specialize (Hfn ctx' pl s2 [] Hb). destruct (fn ctx' pl s2) as [o s3] eqn:Ef.
    destruct Hfn as [Hd3 Hfn].
    assert (HC : called s ctx fn ctx' pl o s3)
      by (exists s2; split_and!; try done; congruence).
    destruct o as [app| | |].
    + rewrite (bind_Return _ _ _ _ _ Ef). destruct (Hfn app eq_refl) as [q Hb3].
      by eapply redis_finish_write.
    + unfold mbind, M_bind. rewrite Ef. by eapply wo_crashed.
    + unfold mbind, M_bind. rewrite Ef. by eapply wo_crashed.
    + unfold mbind, M_bind. rewrite Ef. by eapply wo_crashed.
  - apply is_nil_false in En. apply wo_not_locked; [auto|done| |done].
    unfold is_database_error. rewrite errors_Is_Errorf by done. apply DatabaseError_database.
Qed.

(** C16: a write transaction refines the protocol. On a closed store it returns
    [ErrStoreIsClosed]. If the distributed lock is asked for and not obtained, it returns a
    database error. Otherwise [fn] is called once, with an empty pipeline and a context that
    has a deadline. If [fn] fails or the context is over when it returns, the server's data is
    what it was; if the execution of the pipeline succeeds, it is the result of the buffered
    commands in order; if it fails, it is one of the two, whole. In these cases [OnRollback]
    or [AfterCommit] functions are called after the data has its final state, and the error
    of [fn], a database error of the context, an error wrapped in [ErrCommitFailed], or nil
    is returned. *)
Theorem redis_write_protocol ctx fn opts s
    (Hst : sticky ctx) (Hfn : well_behaved fn) (Hm : mux (back s) = unlocked) :
  write_outcome ctx fn opts s (doTX cfg prefix ctx fn opts s).
Proof. by apply redis_write_protocol_lemma. Qed.

(** ** Closing *)

Lemma checkOpen_closed {A} s (k : error → M A) :
  client (back s) = None → mux (back s) = unlocked →
  (err ← checkOpen; k err) s = k ErrStoreIsClosed s.
Proof.
  intros Hc Hm. pose proof (checkOpen_run s Hm) as E. rewrite Hc in E.
  by rewrite (bind_Return _ _ _ _ _ E).
Qed.

(** [Close] may change everything but the mutex and the data on the server. *)
Definition close_frame s s' : Prop := data s' = data s ∧ mux (back s') = mux (back s).
#[global] Instance close_frame_preorder : PreOrder close_frame.
Proof. split; [done|]. intros s1 s2 s3 [] []. split; congruence. Qed.

(** C31: on a closed store every operation returns [ErrStoreIsClosed] at once, without
    calling the application; [Close] returns nil, and may be called again. On an open store,
    [Close] leaves the store closed whenever it returns, even when the client could not be
    closed in time, with a database error or nil, the mutex free and the data untouched. *)
Theorem redis_closed fuel ctx s (Hm : mux (back s) = unlocked) :
  (client (back s) = None →
    store_Close ctx s = (Return ENil, s) ∧
    (∀ fn opts, store_Write cfg prefix fuel ctx fn opts s = (Return ErrStoreIsClosed, s)) ∧
    (∀ fn, store_Read prefix fuel ctx fn s = (Return ErrStoreIsClosed, s)) ∧
    (∀ n fn, store_WriteShelf cfg prefix fuel ctx n fn s = (Return ErrStoreIsClosed, s)) ∧
    (∀ n fn, store_ReadShelf prefix fuel ctx n fn s = (Return ErrStoreIsClosed, s))) ∧
  (∀ e s', store_Close ctx s = (Return e, s') →
    client (back s') = None ∧ mux (back s') = unlocked ∧ data s' = data s ∧
    (e ≠ ENil → is_database_error e = true)).
Proof.
  assert (HL : Lock s = (Return (), mkSt (mkStore _ _ (db (back s)) (client (back s))
    (mkRWMutex true 0)) (world s))) by (unfold Lock, on_mux; cbn; by rewrite Hm).
  split.
  - intros Hc. split_and!; [|intros; by apply checkOpen_closed..].
    unfold store_Close. rewrite (bind_Return _ _ _ _ _ HL).
    unfold defer, Unlock, on_mux, mbind, M_bind, get_back. cbn. rewrite Hc. cbn.
    destruct s as [[d c m] w]. cbn in *. by subst.
  - intros e s'. unfold store_Close. rewrite (bind_Return _ _ _ _ _ HL).
    set (s1 := mkSt _ _). unfold defer.
    rewrite (bind_Return get_back _ s1 (back s1) s1 eq_refl). cbn [client back s1].
    destruct (client (back s)) as [c|] eqn:Ec; cbn.
    + pose proof (keeps_CallWithTimeout close_frame ctx (redis (client_Close c)) (mret ())) as HK.
      specialize (HK ltac:(intros s2; rewrite redis_run; split; [apply spec_client_Close|done])
        ltac:(by intros s2) ltac:(by intros) s1).
      unfold mbind at 1, M_bind at 1. unfold mbind at 1, M_bind at 1.
      destruct (CallWithTimeout ctx (redis (client_Close c)) (mret ()) s1) as [o s2].
      destruct HK as [Hd Hmx]. cbn in Hd, Hmx. destruct o as [err| | |];
        [|by unfold Unlock, on_mux, mbind, M_bind; cbn; rewrite Hmx|done|done].
      unfold set_client, mbind, M_bind, get_back, put_back. cbn.
      destruct (is_nil err) eqn:En; cbn; unfold Unlock, on_mux; cbn; rewrite Hmx; cbn;
        intros [= <- <-]; cbn; (split_and!; [done|done|exact Hd|]);
        intros He; first [apply DatabaseError_database|by destruct He].
    + unfold Unlock, on_mux, mbind, M_bind. cbn. intros [= <- <-]. by split_and!.
Qed.

(** ** Connecting *)

Lemma ping_loop_spec n c err s :
  ∃ e s', ping_loop n c err s = (Return e, s') ∧ calm s s' ∧
    ((e = ENil ∧ (n = 0 ∧ err = ENil ∨ ∃ ctx w d, (client_Ping c ctx w d).1 = ENil)) ∨
     (e ≠ ENil ∧ (now (world s) + Z.of_nat n * PingAttemptBackoff ≤ now (world s'))%Z)).
Proof.
  revert err s. induction n as [|n IH]; intros err s; cbn [ping_loop].
  - exists err, s. split; [done|]. split; [done|].
    destruct (is_nil err) eqn:En; [apply is_nil_true in En; auto|apply is_nil_false in En].
    right. split; [done|]. cbn. lia.
  - rewrite (bind_Return get_world _ s (world s) s eq_refl). cbn zeta.
    set (ctx := WithTimeout _ _ _). rewrite (bind_Return _ _ _ _ _ (redis_ctx_run _ s)).
    pose proof (spec_Ping c ctx (tick (world s)) (db (back s))) as HP.
    destruct (client_Ping c ctx (tick (world s)) (db (back s))) as [e d'] eqn:E.
    cbn [fst snd] in *. set (s1 := with_db (ticked s) d').
    assert (H1 : calm s s1) by (by apply with_db_calm).
    destruct (is_nil e) eqn:En.
    + exists e, s1. split; [done|]. split; [done|]. left. apply is_nil_true in En as ->.
      split; [done|]. right. exists ctx, (tick (world s)), (db (back s)). by rewrite E.
    + set (s2 := (Sleep PingAttemptBackoff s1).2).
      rewrite (bind_Return (Sleep PingAttemptBackoff) _ s1 () s2 eq_refl).
      destruct (IH e s2) as (e' & s' & -> & H2 & HC). exists e', s'. split; [done|].
      split; [etrans; [exact H1|]; etrans; [|exact H2]; apply (calm_tick s1)|].
      apply is_nil_false in En.
      destruct HC as [(-> & [[_ ->]|HPing])|(Hne & Ht)]; [done|left; auto|right]. split; [done|].
      assert (now (world s1) + PingAttemptBackoff ≤ now (world s2))%Z by (cbn; lia).
      assert (now (world s) ≤ now (world s1))%Z by apply forward. lia.
Qed.

(** connecting. [Wrap] either returns nil, a ping having been answered, and the store is
    open; or, after five pings without an answer and at least ten seconds, a database error,
    and there is no store. *)
Theorem redis_Wrap c s (Hc : client (back s) = None) :
  ∃ e s', Wrap c s = (Return e, s') ∧ data s' = data s ∧ mux (back s') = mux (back s) ∧
    ((e = ENil ∧ client (back s') = Some c ∧ ∃ ctx w d, (client_Ping c ctx w d).1 = ENil) ∨
     (is_database_error e = true ∧ client (back s') = None ∧
      (now (world s) + 10 * Second ≤ now (world s'))%Z)).
Proof.
  unfold Wrap, pingAttempts.
  destruct (ping_loop_spec 5 c ENil s) as (e & s' & E & ((Hd & _) & Hcl & Hm) & HC).
  rewrite (bind_Return _ _ _ _ _ E). destruct HC as [(-> & [[? _]|HP])|(Hne & Ht)]; [done| |].
  - cbn [is_nil negb]. eexists _, _. split; [done|]. split; [exact Hd|]. split; [exact Hm|].
    by left.
  - apply is_nil_false in Hne. rewrite Hne. cbn [negb]. eexists _, s'. split; [done|].
    split; [exact Hd|]. split; [exact Hm|]. right. split_and!.
    + unfold is_database_error. rewrite errors_Is_Errorf by done. apply DatabaseError_database.
    + by rewrite Hcl.
    + unfold PingAttemptBackoff in Ht. lia.
Qed.
End protocol.
