(* ===== verification/RedisRange.v ===== *)
(** The theorems on the iterations of redis7/redis.go: what a page of keys yields, how
    [Range] cuts its interval into pages, and when it returns. *)
From S2P Require Import Prelude Errors Keys Go Store Lock Timeout Walk Redis RedisSpec.
From S2P Require Import RedisKeys RedisTx.
Import Keys.Std Keys.StdFacts.

(** ** The keys of an interval *)

(** [ks] are the keys from [curr] up to, and without, [to], each the [Next] of the one
    before. *)
Inductive path (to : Key) : Key → list Key → Prop :=
  | path_end curr : Equals curr (Some to) = true → path to curr []
  | path_step curr next ks :
      Equals curr (Some to) = false → Next curr = Some next → path to next ks →
      path to curr (curr :: ks).

(** The first [n] keys from [u] on, wrapping around. *)
Fixpoint uint_path (u : N) (n : nat) : list Key :=
  match n with
  | O => []
  | S n' => Uint32Key u :: uint_path ((u + 1) mod 2 ^ 32)%N n'
  end.

Lemma uint_path_spec n u t :
  (u < 2 ^ 32 → t < 2 ^ 32 → N.of_nat n = (t + 2 ^ 32 - u) mod 2 ^ 32 →
   path (Uint32Key t) (Uint32Key u) (uint_path u n))%N.
Proof.
  revert u. induction n as [|n IH]; intros u Hu Ht Hn.
  - constructor. cbn. apply N.eqb_eq. destruct (decide (u ≤ t)%N).
    + replace (t + 2 ^ 32 - u)%N with (t - u + 1 * 2 ^ 32)%N in Hn by lia.
      rewrite N.Div0.mod_add, N.mod_small in Hn; lia.
    + rewrite N.mod_small in Hn; lia.
  - cbn [uint_path].
    assert (Hne : u ≠ t).
    { intros ->. replace (t + 2 ^ 32 - t)%N with (2 ^ 32)%N in Hn by lia.
      rewrite N.Div0.mod_same in Hn. lia. }
    apply path_step with (next := Uint32Key ((u + 1) mod 2 ^ 32)).
    + cbn. by apply N.eqb_neq.
    + done.
    + apply IH; [apply N.mod_upper_bound; lia|done|].
      destruct (decide (u + 1 = 2 ^ 32)%N) as [E|E].
      * rewrite E, N.Div0.mod_same. rewrite N.sub_0_r.
        replace (t + 2 ^ 32)%N with (t + 1 * 2 ^ 32)%N by lia.
        rewrite N.Div0.mod_add, N.mod_small by lia. rewrite N.mod_small in Hn; lia.
      * rewrite (N.mod_small (u + 1)) by lia. destruct (decide (u ≤ t)%N).
        -- replace (t + 2 ^ 32 - u)%N with (t - u + 1 * 2 ^ 32)%N in Hn by lia.
           replace (t + 2 ^ 32 - (u + 1))%N with (t - (u + 1) + 1 * 2 ^ 32)%N by lia.
           rewrite !N.Div0.mod_add in *. rewrite !N.mod_small in *; lia.
        -- rewrite !N.mod_small in *; lia.
Qed.

Lemma length_uint_path u n : length (uint_path u n) = n.
Proof. revert u. induction n; intros u; cbn; auto. Qed.

(** No [Next] of a [BytesKey] begins with a zero byte. *)
Lemma path_zero b f ks : path (BytesKey (x00 :: b)) (BytesKey f) ks → f = x00 :: b.
Proof.
  intros HP. remember (BytesKey f) as curr eqn:Ec. revert f Ec.
  induction HP as [curr HE|curr next ks HE HN HP IH]; intros f ->.
  - rewrite Equals_spec in HE. apply bool_decide_eq_true in HE. by injection HE.
  - cbn in HN. injection HN as <-. specialize (IH _ eq_refl). by apply big_Bytes_head in IH.
Qed.

(** ** Pages *)

Definition page_size : nat := S resultCount.

(** The keys in pages, [page] being the one begun. *)
Fixpoint paginate (page ks : list Key) : list (list Key) :=
  match ks with
  | [] => [page]
  | k :: ks' =>
      if resultCount <=? length page then (page ++ [k]) :: paginate [] ks'
      else paginate (page ++ [k]) ks'
  end.
Definition pages (ks : list Key) : list (list Key) := paginate [] ks.

(** All pages but the last have 1001 keys; the last has fewer, perhaps none. *)
Lemma paginate_spec page ks :
  length page ≤ resultCount →
  ∃ full rest, paginate page ks = full ++ [rest] ∧ mjoin full ++ rest = page ++ ks ∧
    Forall (λ p, length p = page_size) full ∧ length rest ≤ resultCount.
Proof.
  revert page. induction ks as [|k ks IH]; intros page Hp; cbn [paginate].
  - exists [], page. by rewrite app_nil_r.
  - destruct (Nat.leb_spec resultCount (length page)) as [Hle|Hlt].
    + destruct (IH []) as (full & rest & -> & Ec & Hf & Hr); [cbn; lia|].
      exists ((page ++ [k]) :: full), rest. split_and!; [done| | |done].
      * change (mjoin ((page ++ [k]) :: full)) with ((page ++ [k]) ++ mjoin full).
        by rewrite <-app_assoc, Ec, <-app_assoc.
      * constructor; [|done]. rewrite length_app. cbn. unfold page_size. lia.
    + destruct (IH (page ++ [k])) as (full & rest & -> & Ec & Hf & Hr);
        [rewrite length_app; cbn; lia|].
      exists full, rest. rewrite Ec, <-app_assoc. by split_and!.
Qed.

(** The page begun is the beginning of the first page. *)
Lemma paginate_first page ks :
  length page ≤ resultCount → ∃ q l, paginate page ks = (page ++ q) :: l.
Proof.
  revert page. induction ks as [|k ks IH]; intros page Hp; cbn [paginate].
  - exists [], []. by rewrite app_nil_r.
  - destruct (Nat.leb_spec resultCount (length page)); [eauto|].
    destruct (IH (page ++ [k])) as (q & l & E); [rewrite length_app; cbn; lia|].
    rewrite E, <-app_assoc. eauto.
Qed.

Section range.
Context {W : Type} `{RS : RedisSpec W} `{!Env W}.
Context (prefix : bytes) (sh : shelf (W := W)) (callback : CallerFn store W) (from : Key)
  (stopAtNil : bool).
Implicit Types (s : St store W).
Abbreviation M := (M store W).
Abbreviation toRedisKey := (toRedisKey prefix sh).
Abbreviation visitKeys := (visitKeys prefix sh).

(** [n] checks for cancellation. *)
Fixpoint checks (n : nat) (k : M error) : M error :=
  match n with O => k | S n' => check_ctx (shelf_ctx sh) (checks n' k) end.

(** One page after the other: a check for each of its keys (of the first page's, [d] are
    made), then the visit of the page. *)
Fixpoint visit_pages (d : nat) (l : list (list Key)) : M error :=
  match l with
  | [] => mret ENil
  | p :: l' =>
      checks (length p - d)
        (r ← visitKeys (toRedisKey <$> p) callback from stopAtNil;
         let '(proceed, err) := r in
         match l' with
         | [] => mret err
         | _ => if negb (is_nil err) || negb proceed then mret err else visit_pages 0 l'
         end)
  end.

Lemma range_loop_pages to ks curr fuel page s :
  path to curr ks → length ks ≤ fuel → length page ≤ resultCount →
  range_loop prefix fuel sh from to callback stopAtNil curr (toRedisKey <$> page)
    (length page) s =
  visit_pages (length page) (paginate page ks) s.
Proof.
  intros HP. revert fuel page s.
  induction HP as [curr HE|curr next ks HE HN HP IH]; intros fuel page s Hf Hp.
  - destruct fuel; cbn [range_loop paginate visit_pages]; rewrite HE, Nat.sub_diag; cbn [checks];
      apply bind_ext; by intros [].
  - destruct fuel as [|fuel]; [cbn in Hf; lia|]. cbn in Hf.
    cbn [range_loop paginate]. rewrite HE.
    assert (Hmap : (toRedisKey <$> page) ++ [toRedisKey curr] = toRedisKey <$> (page ++ [curr]))
      by (by rewrite fmap_app).
    destruct (Nat.leb_spec resultCount (length page)) as [Hle|Hlt].
    + cbn [visit_pages]. rewrite length_app. cbn [length].
      replace (length page + 1 - length page) with 1 by lia. cbn [checks].
      unfold check_ctx. apply bind_ext. intros e s1. destruct (negb (is_nil e)); [done|].
      rewrite Hmap. apply bind_ext. intros [proceed err] s2.
      destruct (paginate_first [] ks) as (q & l & E); [cbn; lia|].
      destruct (negb (is_nil err) || negb proceed) eqn:Eb; [by rewrite E|].
      rewrite HN. cbn [must]. rewrite bind_ret.
      etrans; [apply (IH fuel [] s2); [lia|cbn; lia]|]. by rewrite E.
    + destruct (paginate_first (page ++ [curr]) ks) as (q & l & E);
        [rewrite length_app; cbn; lia|].
      transitivity (check_ctx (shelf_ctx sh)
        (visit_pages (length (page ++ [curr])) (paginate (page ++ [curr]) ks)) s).
      * unfold check_ctx. apply bind_ext. intros e s1. destruct (negb (is_nil e)); [done|].
        rewrite HN. cbn [must]. rewrite bind_ret, Hmap.
        replace (S (length page)) with (length (page ++ [curr])) by (rewrite length_app; cbn; lia).
        apply IH; [lia|]. rewrite length_app. cbn. lia.
      * rewrite E. cbn [visit_pages]. rewrite !length_app. cbn [length].
        replace (length page + 1 + length q - length page) with
          (S (length page + 1 + length q - (length page + 1))) by lia. done.
Qed.

(** ** One page *)

(** The pairs the database [d] has for the keys, and those before the first key it lacks. *)
Definition present (d : gmap bytes bytes) (ks : list Key) : list (Key * bytes) :=
  omap (λ k, (k,.) <$> d !! toRedisKey k) ks.
Fixpoint until_missing (d : gmap bytes bytes) (ks : list Key) : list (Key * bytes) :=
  match ks with
  | [] => []
  | k :: ks' => match d !! toRedisKey k with
                | Some v => (k, v) :: until_missing d ks'
                | None => []
                end
  end.
Definition none_missing (d : gmap bytes bytes) (ks : list Key) : bool :=
  forallb (λ k, bool_decide (is_Some (d !! toRedisKey k))) ks.

(** The callback on each pair in turn, until it fails. *)
Fixpoint call_pairs (l : list (Key * bytes)) (proceed : bool) : M (bool * error) :=
  match l with
  | [] => mret (proceed, ENil)
  | (k, v) :: l' =>
      err ← callback k v;
      if negb (is_nil err) then mret (false, err) else call_pairs l' proceed
  end.

(** The key comes back from the server as it was sent. *)
Definition readable (k : Key) : Prop :=
  fromRedisKey prefix sh (toRedisKey k) from = (Some k, ENil).

Lemma visit_values_spec (d : gmap bytes bytes) ks s :
  Forall readable ks →
  visit_values prefix sh (toRedisKey <$> ks) ((λ k, d !! k) <$> (toRedisKey <$> ks)) callback from
    stopAtNil s =
  (if stopAtNil then call_pairs (until_missing d ks) (none_missing d ks)
   else call_pairs (present d ks) true) s.
Proof.
  intros Hks. revert s. induction Hks as [|k ks Hk _ IH]; intros s.
  - cbn. by destruct stopAtNil.
  - unfold present, none_missing. cbn [fmap list_fmap visit_values omap list_omap until_missing forallb].
    destruct (d !! toRedisKey k) as [v|]; cbn [head hd tail fmap option_fmap option_map].
    + rewrite bool_decide_eq_true_2 by eauto. cbn [andb must head]. rewrite bind_ret, Hk.
      cbn [is_nil negb must]. rewrite bind_ret. destruct stopAtNil; cbn [call_pairs];
        apply bind_ext; intros err s1; destruct (negb (is_nil err)); (done || apply IH).
    + rewrite bool_decide_eq_false_2 by (by intros [? ?]). cbn [andb].
      destruct stopAtNil; [done|]. apply IH.
Qed.

Lemma visitKeys_cases c keys s :
  reader sh = Some c →
  (∃ e s1, e ≠ ENil ∧ is_database_error e = true ∧ calm s s1 ∧
     visitKeys keys callback from stopAtNil s = (Return (false, e), s1)) ∨
  (keys ≠ [] ∧ ∃ s1, calm s s1 ∧
     visitKeys keys callback from stopAtNil s =
       visit_values prefix sh keys ((λ k, data s !! k) <$> keys) callback from stopAtNil s1).
Proof.
  intros Hr. unfold Redis.visitKeys. rewrite Hr. cbn [must]. rewrite bind_ret.
  rewrite (bind_Return _ _ _ _ _ (redis_ctx_run _ s)).
  pose proof (spec_MGet c (shelf_ctx sh) keys (tick (world s)) (db (back s))) as HM.
  destruct (client_MGet c (shelf_ctx sh) keys (tick (world s)) (db (back s))) as [[vs e] d'] eqn:E.
  destruct HM as (Hs & Hok & Hnil). cbn [fst snd].
  destruct (is_nil e) eqn:En; cbn [negb].
  - right. apply is_nil_true in En. split; [intros Hk; by apply (Hnil Hk)|].
    eexists. split; [by apply with_db_calm|]. by rewrite (Hok En).
  - left. eexists _, _. split_and!; [apply DatabaseError_not_nil|apply DatabaseError_database
      |by apply with_db_calm|done].
Qed.

(** [visitKeys] says to stop without an error only when [stopAtNil] asks for it. *)
Lemma visit_values_proceeds keys vs s r s' :
  stopAtNil = false →
  visit_values prefix sh keys vs callback from stopAtNil s = (Return r, s') → r.2 = ENil → r.1 = true.
Proof.
  intros Hst. revert keys s. induction vs as [|[v|] vs IH]; intros keys s; cbn [visit_values].
  - by intros [= <- <-].
  - intros (k & s1 & _ & H)%bind_inv. destruct (fromRedisKey prefix sh k from) as [ok e].
    destruct (is_nil e) eqn:En; cbn [negb] in H.
    + apply bind_inv in H as (key & s2 & _ & H). apply bind_inv in H as (e' & s3 & _ & H).
      destruct (is_nil e') eqn:En'; cbn [negb] in H; [by eapply IH|].
      injection H as <- <-. cbn. intros ->. done.
    + injection H as <- <-. cbn. intros ->. done.
  - rewrite Hst. intros H. rewrite Hst in IH. by eapply IH.
Qed.

Lemma visitKeys_nil c keys s r s' :
  reader sh = Some c → stopAtNil = false →
  visitKeys keys callback from stopAtNil s = (Return r, s') → r.2 = ENil →
  r.1 = true ∧ keys ≠ [].
Proof.
  intros Hr Hst E Hn. destruct (visitKeys_cases c keys s Hr)
    as [(e & s1 & He & _ & _ & E')|(Hk & s1 & _ & E')]; rewrite E' in E.
  - injection E as <- <-. by cbn in Hn.
  - split; [|done]. by eapply visit_values_proceeds.
Qed.

Lemma range_loop_nil c to fuel curr page s s' :
  reader sh = Some c → stopAtNil = false → length page ≤ resultCount →
  range_loop prefix fuel sh from to callback stopAtNil curr page (length page) s =
    (Return ENil, s') →
  ∃ ks, path to curr ks ∧ (length page + length ks) mod page_size ≠ 0.
Proof.
  intros Hr Hst. revert curr page s. induction fuel as [|fuel IH]; intros curr page s Hp;
    cbn [range_loop]; destruct (Equals curr (Some to)) eqn:HE.
  1,3: intros ([proceed e] & s1 & E & [= He _])%bind_inv; subst e;
    destruct (visitKeys_nil c page s _ s1 Hr Hst E eq_refl) as [_ Hk];
    exists []; split; [by constructor|]; cbn [length]; rewrite Nat.add_0_r, Nat.mod_small;
    [by destruct page|unfold page_size; lia].
  - done.
  - intros (e & s1 & _ & H)%bind_inv. destruct (negb (is_nil e)) eqn:Ee.
    { apply bind_inv in H as (e' & s2 & _ & [= H _]). by destruct (DatabaseError_not_nil e'). }
    destruct (Nat.leb_spec resultCount (length page)) as [Hle|Hlt].
    + apply bind_inv in H as ([proceed e'] & s2 & E & H).
      destruct (is_nil e') eqn:En; cbn [negb orb] in H; [|injection H as -> _; done].
      apply is_nil_true in En as ->.
      destruct (visitKeys_nil c _ s1 _ s2 Hr Hst E eq_refl) as [Hpr _]. cbn in Hpr. subst proceed.
      cbn [negb] in H. apply bind_inv in H as (next & s3 & HN & H).
      destruct (Next curr) as [next'|] eqn:EN; [|done]. injection HN as -> _.
      destruct (IH next [] s3 ltac:(cbn; lia) H) as (ks & HP & Hmod).
      exists (curr :: ks). split; [by eapply path_step|].
      replace (length page + length (curr :: ks)) with (length ks + 1 * page_size)
        by (unfold page_size; cbn [length]; lia).
      by rewrite Nat.Div0.mod_add.
    + apply bind_inv in H as (next & s3 & HN & H).
      destruct (Next curr) as [next'|] eqn:EN; [|done]. injection HN as -> _.
      replace (S (length page)) with (length (page ++ [toRedisKey curr])) in H
        by (rewrite length_app; cbn; lia).
      destruct (IH next (page ++ [toRedisKey curr]) s3) as (ks & HP & Hmod);
        [rewrite length_app; cbn; lia|exact H|].
      exists (curr :: ks). split; [by eapply path_step|].
      rewrite length_app in Hmod. cbn [length] in *. 
      by replace (length page + S (length ks)) with (length page + 1 + length ks) by lia.
Qed.
End range.

(** ** Properties *)

Section properties.
Context {W : Type} `{RS : RedisSpec W} `{!Env W}.
Context (prefix : bytes).
Implicit Types (s : St store W) (sh : shelf (W := W)) (callback : CallerFn store W).

(** what a page yields. [visitKeys] fails with a database error, which it always does
    for no keys at all; or it calls the callback, in the order of the keys, for each key the
    server has, and with [stopAtNil] for those before the first key it lacks, until the
    callback fails; it then says whether to proceed. *)
Theorem redis_visitKeys sh c callback from stopAtNil ks s
    (Hr : reader sh = Some c) (Hks : Forall (readable prefix sh from) ks) :
  let keys := toRedisKey prefix sh <$> ks in
  (∃ e s1, e ≠ ENil ∧ is_database_error e = true ∧ calm s s1 ∧
     visitKeys prefix sh keys callback from stopAtNil s = (Return (false, e), s1)) ∨
  (ks ≠ [] ∧ ∃ s1, calm s s1 ∧
     visitKeys prefix sh keys callback from stopAtNil s =
       (if stopAtNil
        then call_pairs callback (until_missing prefix sh (data s) ks)
               (none_missing prefix sh (data s) ks)
        else call_pairs callback (present prefix sh (data s) ks) true) s1).
Proof.
  intros keys. destruct (visitKeys_cases prefix sh callback from stopAtNil c keys s Hr)
    as [H|(Hk & s1 & Hc & E)]; [by left|right].
  split; [by intros ->|]. exists s1. split; [done|]. rewrite E. by apply visit_values_spec.
Qed.

(** C28: [Range] visits the keys from [from] up to [to], computed with [Next], in pages: with
    as many turns as there are keys, it makes one check for cancellation for each key and
    visits page after page, until a page says not to proceed. All pages but the last have
    1001 keys; together they are the keys, in order. *)
Theorem redis_Range_pages sh from to callback stopAtNil ks fuel s
    (HP : path to from ks) (Hf : length ks ≤ fuel) :
  shelf_Range prefix fuel sh from to callback stopAtNil s =
    visit_pages prefix sh callback from stopAtNil 0 (pages ks) s ∧
  ∃ full rest, pages ks = full ++ [rest] ∧ mjoin full ++ rest = ks ∧
    Forall (λ p, length p = page_size) full ∧ length rest ≤ resultCount.
Proof.
  split; [|by apply paginate_spec; cbn; lia].
  by apply (range_loop_pages prefix sh callback from stopAtNil to ks from fuel []); [..|cbn; lia].
Qed.

(** C30: for [Uint32Key]s, [Range] always comes to its end: the keys it asks for are the
    [n] keys from [from] on, where [n] is the distance from [from] to [to] modulo 2^32. With
    [from <= to] that is the interval; with [to < from] it is not empty but wraps around
    the end of the key space. *)
Theorem redis_Range_uint32 sh (u t : N) callback stopAtNil fuel s
    (Hu : (u < 2 ^ 32)%N) (Ht : (t < 2 ^ 32)%N) :
  let n := N.to_nat ((t + 2 ^ 32 - u) mod 2 ^ 32) in
  n ≤ fuel →
  shelf_Range prefix fuel sh (Uint32Key u) (Uint32Key t) callback stopAtNil s =
    visit_pages prefix sh callback (Uint32Key u) stopAtNil 0 (pages (uint_path u n)) s ∧
  length (uint_path u n) = n ∧ (u ≤ t → N.of_nat n = t - u)%N ∧
  (t < u → N.of_nat n = 2 ^ 32 - (u - t))%N.
Proof.
  intros n Hf. split_and!.
  - apply (range_loop_pages prefix sh callback (Uint32Key u) stopAtNil (Uint32Key t)
      (uint_path u n) (Uint32Key u) fuel []); [|by rewrite length_uint_path|cbn; lia].
    apply uint_path_spec; [done|done|]. unfold n. by rewrite N2Nat.id.
  - apply length_uint_path.
  - intros Hle. unfold n. rewrite N2Nat.id.
    replace (t + 2 ^ 32 - u)%N with (t - u + 1 * 2 ^ 32)%N by lia.
    rewrite N.Div0.mod_add. apply N.mod_small. lia.
  - intros Hlt. unfold n. rewrite N2Nat.id, N.mod_small; lia.
Qed.

(** C29: when [Range] without [stopAtNil] returns nil, [to] is reached from [from] by [Next],
    and the number of keys on the way is not a multiple of 1001. So it never returns nil
    on an empty interval, nor on one that is cut into full pages: the last, empty page is
    refused by the server; nor when [to] is not reached at all. *)
Theorem redis_Range_nil sh c from to callback fuel s s'
    (Hr : reader sh = Some c)
    (H : shelf_Range prefix fuel sh from to callback false s = (Return ENil, s')) :
  ∃ ks, path to from ks ∧ length ks mod page_size ≠ 0.
Proof.
  by apply (range_loop_nil prefix sh callback from false c to fuel from [] s s') in H; [|..|cbn; lia].
Qed.

(** A [BytesKey] that begins with a zero byte is not reached from any other [BytesKey]:
    [Next] drops leading zero bytes. A [Range] up to such a key never returns nil. *)
Theorem redis_Range_unreachable sh c (f b : bytes) callback fuel s e s'
    (Hr : reader sh = Some c) (Hne : f ≠ x00 :: b)
    (H : shelf_Range prefix fuel sh (BytesKey f) (BytesKey (x00 :: b)) callback false s =
           (Return e, s')) :
  e ≠ ENil ∧ ∀ ks, ¬ path (BytesKey (x00 :: b)) (BytesKey f) ks.
Proof.
  assert (HN : ∀ ks, ¬ path (BytesKey (x00 :: b)) (BytesKey f) ks)
    by (intros ks HP; by apply path_zero in HP).
  split; [|exact HN]. intros ->.
  apply (range_loop_nil prefix sh callback (BytesKey f) false c (BytesKey (x00 :: b)) fuel
    (BytesKey f) [] s s') in H; [|done|done|cbn; lia].
  destruct H as (ks & HP & _). by apply (HN ks).
Qed.
End properties.
