(* ===== verification/RedisScan.v ===== *)
(** The theorems on the operations of redis7/redis.go that scan the server: [Iterate] and
    [Empty]. *)
From S2P Require Import Prelude Errors Keys Go Store Lock Redis RedisSpec RedisKeys RedisTx.
From S2P Require Import RedisRange.

(** [fromRedisKey] yields a key, or an error. *)
Lemma fromRedisKey_cases `{RL : RedisLib W} prefix (sh : shelf (W := W)) rk kt :
  (∃ k, fromRedisKey prefix sh rk kt = (Some k, ENil)) ∨
  (∃ e, fromRedisKey prefix sh rk kt = (None, e) ∧ e ≠ ENil).
Proof.
  assert (HF : ∀ i, (∃ k, FromString kt i = (Some k, ENil)) ∨
    (∃ e, FromString kt i = (None, e) ∧ e ≠ ENil)).
  { intros i. destruct (FromString kt i) as [[k|] e] eqn:E.
    - apply FromString_inv in E as (-> & _). eauto.
    - apply FromString_fail in E as [? _]. eauto. }
  unfold fromRedisKey. destruct (0 <? length prefix).
  - destruct (HasPrefix rk _); cbn [negb]; [|right; by eexists].
    destruct (HasPrefix _ _); cbn [negb]; [apply HF|right; by eexists].
  - destruct (HasPrefix _ _); cbn [negb]; [apply HF|right; by eexists].
Qed.

Section iterate.
Context {W : Type} `{RS : RedisSpec W} `{SS : !ScanSpec} `{!Env W}.
Context (prefix : bytes) (sh : shelf (W := W)) (callback : CallerFn store W) (keyType : Key).
Implicit Types (s : St store W) (r : outcome error * St store W).
Abbreviation M := (M store W).
Abbreviation toRedisKey := (toRedisKey prefix sh).
Abbreviation fromRedisKey := (fromRedisKey prefix sh).

(** A visit of the pairs [l], in this order, that ends as [r]: the callback is called for
    each of them, between requests that change nothing; it ends with nil, with the error
    [e] of a failed request or of a key that cannot be parsed, or because the callback fails
    or crashes. *)
Inductive visited : St store W → list (Key * bytes) → outcome error * St store W → Prop :=
  | visited_end s s' : calm s s' → visited s [] (Return ENil, s')
  | visited_fail s s' e :
      calm s s' → e ≠ ENil →
      is_database_error e = true ∨ (∃ rk, is_Some (data s !! rk) ∧ fromRedisKey rk keyType = (None, e)) →
      visited s [] (Return e, s')
  | visited_stop s s1 k v o s' :
      calm s s1 → callback k v s1 = (o, s') → o ≠ Return ENil → visited s [(k, v)] (o, s')
  | visited_next s s1 k v s2 l r :
      calm s s1 → callback k v s1 = (Return ENil, s2) → visited s2 l r →
      visited s ((k, v) :: l) r.

Lemma visited_calm s0 s l r : calm s0 s → visited s l r → visited s0 l r.
Proof.
  intros Hc HV. destruct HV as [s s' H|s s' e H Hn He|s s1 k v o s' H E Ho|s s1 k v s2 l r H E HV].
  - apply visited_end. by etrans.
  - apply visited_fail; [by etrans|done|]. by rewrite <-(calm_data _ _ Hc).
  - eapply visited_stop; [by etrans|done..].
  - eapply visited_next; [by etrans|done..].
Qed.

Lemma visited_app s l s1 l' r :
  visited s l (Return ENil, s1) → visited s1 l' r → visited s (l ++ l') r.
Proof.
  intros HV HV'. remember (Return ENil, s1) as r1 eqn:Er. revert Er.
  induction HV as [s s' H|s s' e H Hn He|s s2 k v o s' H E Ho|s s2 k v s3 l r0 H E HV IH]; intros Er.
  - injection Er as ->. by eapply visited_calm.
  - by injection Er as -> ->.
  - by injection Er as -> ->.
  - cbn. eapply visited_next; [done..|]. by apply IH.
Qed.

(** *** One page of a scan *)

Context (d : gmap bytes bytes).
(** The callback, in a state with the data [d], leaves the data. *)
Hypothesis Hcb : ∀ k v s, data s = d → data (callback k v s).2 = d.

(** The pairs [l] come from the data, under the names [names]. *)
Definition from_data (names : list bytes) (l : list (Key * bytes)) : Prop :=
  ∀ k v, (k, v) ∈ l →
    ∃ rk, rk ∈ names ∧ d !! rk = Some v ∧ fromRedisKey rk keyType = (Some k, ENil).
(** All data under the names [names] can be parsed and is among the pairs [l]. *)
Definition covers (names : list bytes) (l : list (Key * bytes)) : Prop :=
  ∀ rk v, rk ∈ names → d !! rk = Some v →
    ∃ k, fromRedisKey rk keyType = (Some k, ENil) ∧ (k, v) ∈ l.

Lemma covers_app names names' l l' :
  covers names l → covers names' l' → covers (names ++ names') (l ++ l').
Proof.
  intros H1 H2 rk v [Hin|Hin]%elem_of_app Hv;
    [destruct (H1 rk v Hin Hv) as (k & E & Hk)|destruct (H2 rk v Hin Hv) as (k & E & Hk)];
    exists k; (split; [done|]); apply elem_of_app; auto.
Qed.
Lemma from_data_app names names' l l' :
  from_data names l → from_data names' l' → from_data (names ++ names') (l ++ l').
Proof.
  intros H1 H2 k v [Hin|Hin]%elem_of_app;
    [destruct (H1 k v Hin) as (rk & Hrk & E)|destruct (H2 k v Hin) as (rk & Hrk & E)];
    exists rk; (split; [|done]); apply elem_of_app; auto.
Qed.
Lemma from_data_nil names : from_data names [].
Proof. intros k v Hin. by apply elem_of_nil in Hin. Qed.

(** What the visit of the page [names] comes to. *)
Definition page_visit (names : list bytes) (m : M error) s : Prop :=
  ∃ l r, m s = r ∧ visited s l r ∧ from_data names l ∧
    (r.1 = Return ENil → covers names l ∧ data r.2 = d).

Lemma page_visit_eq names (m m' : M error) s :
  m s = m' s → page_visit names m' s → page_visit names m s.
Proof. intros E (l & r & H). exists l, r. by rewrite E. Qed.

Lemma from_data_one rk names k v :
  d !! rk = Some v → fromRedisKey rk keyType = (Some k, ENil) → rk ∈ names →
  from_data names [(k, v)].
Proof. intros Hv Hk Hin k' v' [= -> ->]%list_elem_of_singleton. eauto. Qed.

(** A key that is there: the callback, and then the rest of the page. *)
Lemma page_call rk names k v (m : M error) s :
  data s = d → d !! rk = Some v → fromRedisKey rk keyType = (Some k, ENil) →
  (∀ s', data s' = d → page_visit names m s') →
  page_visit (rk :: names) (err ← callback k v; if negb (is_nil err) then mret err else m) s.
Proof.
  intros Hd Hv Hk IH. specialize (Hcb k v s Hd). unfold page_visit, mbind, M_bind.
  assert (Hone : from_data (rk :: names) [(k, v)])
    by (eapply from_data_one; [done|done|by left]).
  assert (HS : ∀ o s1, callback k v s = (o, s1) → o ≠ Return ENil →
    ∃ l r, (o, s1) = r ∧ visited s l r ∧ from_data (rk :: names) l ∧
      (r.1 = Return ENil → covers (rk :: names) l ∧ data r.2 = d)).
  { intros o s1 E Ho. exists [(k, v)], (o, s1). split; [done|].
    split; [by eapply visited_stop|]. split; [done|]. intros Hr. by destruct Ho. }
  destruct (callback k v s) as [[e| | |] s1] eqn:Ec; cbn [snd] in Hcb; [|by apply HS..].
  destruct (is_nil e) eqn:En; cbn [negb]; [|by apply HS; [|intros [= ->]]].
  apply is_nil_true in En as ->. destruct (IH s1 Hcb) as (l & r & Er & HVis & Hf & HC).
  exists ((k, v) :: l), r. split; [done|]. split; [by eapply visited_next|]. split.
  - apply (from_data_app [rk] names [(k, v)] l); [|done].
    eapply from_data_one; [done|done|by left].
  - intros Hr. destruct (HC Hr) as [HC1 HC2]. split; [|done].
    apply (covers_app [rk] names [(k, v)] l); [|done].
    intros rk' v' ->%list_elem_of_singleton Ev'. exists k. split; [done|].
    rewrite Hv in Ev'. injection Ev' as ->. by left.
Qed.

Lemma page_values names s :
  data s = d →
  page_visit names (r ← visit_values prefix sh names ((λ k, d !! k) <$> names) callback keyType false;
                    mret r.2) s.
Proof.
  revert s. induction names as [|rk names IH]; intros s Hd; cbn [fmap list_fmap visit_values].
  { eexists [], _. split; [done|]. split; [by apply visited_end|]. split; [apply from_data_nil|].
    intros _. split; [|done]. intros rk v Hin. by apply elem_of_nil in Hin. }
  destruct (d !! rk) as [v|] eqn:Ev; cbn [head hd_error tail].
  - destruct (fromRedisKey_cases prefix sh rk keyType) as [[k E]|(e & E & He)].
    + eapply page_visit_eq; [|exact (page_call rk names k v _ s Hd Ev E IH)].
      rewrite bind_assoc. cbn [must]. rewrite bind_ret, E. cbn [is_nil negb must].
      rewrite bind_assoc, bind_ret, bind_assoc. apply bind_ext. intros e s1.
      by destruct (negb (is_nil e)).
    + exists [], (Return e, s). split; [|split; [|split; [apply from_data_nil|]]].
      * rewrite bind_assoc. cbn [must]. rewrite bind_ret, E.
        by rewrite (proj2 (is_nil_false e) He).
      * apply visited_fail; [done|done|]. right. exists rk. split; [|done]. rewrite Hd. eauto.
      * by intros [= ->].
  - destruct (IH s Hd) as (l & r & Er & HVis & Hf & HC). exists l, r. split; [exact Er|].
    split; [done|]. split; [by apply (from_data_app [rk] names [] l); [apply from_data_nil|]|].
    intros Hr. destruct (HC Hr) as [HC1 HC2]. split; [|done].
    apply (covers_app [rk] names [] l); [|done]. intros rk' v' ->%list_elem_of_singleton Ev'.
    by rewrite Ev in Ev'.
Qed.

Lemma page_keys c names s :
  reader sh = Some c → data s = d → 
  page_visit names
    (if 0 <? length names then r ← visitKeys prefix sh names callback keyType false; mret r.2
     else mret ENil) s.
Proof.
  intros Hr Hd. destruct names as [|rk names]; cbn [length Nat.ltb Nat.leb].
  - exact (page_values [] s Hd).
  - destruct (visitKeys_cases prefix sh callback keyType false c (rk :: names) s Hr)
      as [(e & s1 & He & Hdb & Hc & E)|(_ & s1 & Hc & E)].
    + exists [], (Return e, s1). split; [by rewrite (bind_Return _ _ _ _ _ E)|].
      split; [by apply visited_fail; [| |left]|]. split; [apply from_data_nil|by intros [= ->]].
    + rewrite Hd in E. assert (Hd1 : data s1 = d) by (by rewrite (calm_data _ _ Hc)).
      destruct (page_values (rk :: names) s1 Hd1) as (l & r & Er & HVis & Hf & HC).
      exists l, r. split; [|split; [by eapply visited_calm|done]].
      unfold mbind, M_bind in *. by rewrite E.
Qed.
(** *** The loop *)

Abbreviation count := (Z.of_nat resultCount).
Abbreviation pattern := (scan_pattern prefix sh).

(** The pairs [l] come from the data under names that match the shelf's pattern. *)
Definition from_shelf (l : list (Key * bytes)) : Prop :=
  ∀ k v, (k, v) ∈ l →
    ∃ rk, glob pattern rk = true ∧ d !! rk = Some v ∧ fromRedisKey rk keyType = (Some k, ENil).

Lemma iterate_loop_visits c fuel n names cursor s :
  reader sh = Some c → data s = d →
  scans c (shelf_ctx sh) pattern count d n names cursor → (n ≠ 0 → cursor ≠ 0%N) →
  scan_bound d < n + fuel →
  ∃ l r, iterate_loop prefix fuel sh callback keyType cursor s = r ∧ visited s l r ∧
    from_shelf l ∧
    (r.1 = Return ENil → data r.2 = d ∧ ∃ names' n', n' ≠ 0 ∧ covers names' l ∧
       scans c (shelf_ctx sh) pattern count d n' (names ++ names') 0).
Proof.
  intros Hr. revert n names cursor s. induction fuel as [|fuel IH];
    intros n names cursor s Hd HS Hn Hb; [apply spec_Scan_ends in HS; lia|].
  cbn [iterate_loop]. rewrite Hr. cbn [must]. rewrite bind_ret.
  rewrite (bind_Return _ _ _ _ _ (redis_ctx_run _ s)).
  destruct (client_Scan c (shelf_ctx sh) cursor pattern count (tick (world s)) (db (back s)))
    as [[[ks next] e] d'] eqn:E.
  pose proof (spec_Scan c (shelf_ctx sh) cursor pattern count (tick (world s)) (db (back s))) as Hsv.
  rewrite E in Hsv. cbn [fst snd] in *. apply with_db_calm in Hsv.
  set (s1 := with_db (ticked s) d') in *.
  destruct (is_nil e) eqn:En; cbn [negb].
  2: { exists [], (Return (DatabaseError e), s1). split; [done|]. split.
       - apply visited_fail; [done|apply DatabaseError_not_nil|left; apply DatabaseError_database].
       - split; [intros k v Hin; by apply elem_of_nil in Hin|]. intros [= Ee].
         by destruct (DatabaseError_not_nil e). }
  apply is_nil_true in En as ->.
  assert (HS1 : scans c (shelf_ctx sh) pattern count d (S n) (names ++ ks) next)
    by (by eapply scans_next).
  assert (Hd1 : data s1 = d) by (by rewrite (calm_data _ _ Hsv)).
  destruct (page_keys c ks s1 Hr Hd1) as (l & r & Er & HVis & Hf & HC).
  assert (Hfs : from_shelf l).
  { intros k v Hin. destruct (Hf k v Hin) as (rk & Hin' & Hk). exists rk. split; [|done].
    by apply (spec_Scan_match _ _ _ _ _ _ _ _ _ _ _ E). }
  apply (visited_calm s) in HVis; [|done]. unfold mbind at 1, M_bind at 1. rewrite Er.
  destruct r as [[e| | |] s2]; cbn [fst snd] in *;
    [|exists l, (Panic, s2)|exists l, (Blocked, s2)|exists l, (NoFuel, s2)];
    [|by split_and!..].
  destruct (is_nil e) eqn:En; cbn [negb].
  2: { exists l, (Return e, s2). split; [done|]. split; [done|]. split; [done|].
       intros [= ->]. done. }
  apply is_nil_true in En as ->. destruct (HC eq_refl) as [Hcov Hd2].
  destruct (N.eqb_spec next 0) as [->|Hnext].
  - exists l, (Return ENil, s2). split; [done|]. split; [done|]. split; [done|].
    intros _. split; [done|]. by exists ks, (S n).
  - destruct (IH (S n) (names ++ ks) next s2 Hd2 HS1 ltac:(done) ltac:(lia))
      as (l' & r & Er' & HVis' & Hf' & HC').
    exists (l ++ l'), r. split; [done|]. split; [by eapply visited_app|]. split.
    + intros k v [Hin|Hin]%elem_of_app; [by apply Hfs|by apply Hf'].
    + intros Hr'. destruct (HC' Hr') as (Hd' & names' & n' & Hn' & Hcov' & HS').
      split; [done|]. exists (ks ++ names'), n'. rewrite app_assoc.
      by split_and!; [|apply covers_app|].
Qed.
End iterate.

Section properties.
Context {W : Type} `{RS : RedisSpec W} `{SS : !ScanSpec} `{!Env W}.
Context (prefix : bytes).
Implicit Types (s : St store W) (sh : shelf (W := W)) (callback : CallerFn store W).

(** The names that match the pattern of a shelf, when no special character occurs in the
    prefix of its keys: those that begin with it. *)
Lemma glob_shelf sh rk :
  plain (key_prefix prefix sh) →
  glob (scan_pattern prefix sh) rk = HasPrefix rk (key_prefix prefix sh).
Proof.
  intros Hp. unfold scan_pattern. rewrite toRedisKey_eq. cbn [String]. 
  rewrite app_nil_r. by apply glob_star.
Qed.

(** C26: what [Iterate] visits. With as many turns as a scan of the data takes, and one more,
    [Iterate] calls the callback for a list of pairs, one after the other, until the callback
    fails or crashes, a request fails or a name cannot be parsed. Each pair is one of the
    data, under a name that matches the shelf's scan pattern. When it returns nil, every such
    name has been parsed and its pair visited, so every pair stored under a key of [keyType]'s
    type that can be read back, if no special character occurs in the prefix of the shelf's
    keys; a pair may be visited more than once, and the order is open. The callback may do
    anything but change the server's data. *)
Theorem redis_Iterate_visits sh c callback keyType fuel s
    (Hr : reader sh = Some c)
    (Hcb : ∀ k v s', data s' = data s → data (callback k v s').2 = data s)
    (Hf : scan_bound (data s) < fuel) :
  ∃ l r, shelf_Iterate prefix fuel sh callback keyType s = r ∧
    visited prefix sh callback keyType s l r ∧
    from_shelf prefix sh keyType (data s) l ∧
    (r.1 = Return ENil → ∀ rk v,
       glob (scan_pattern prefix sh) rk = true → data s !! rk = Some v →
       ∃ k, fromRedisKey prefix sh rk keyType = (Some k, ENil) ∧ (k, v) ∈ l) ∧
    (r.1 = Return ENil → plain (key_prefix prefix sh) → ∀ k v,
       readable prefix sh keyType k → data s !! toRedisKey prefix sh k = Some v → (k, v) ∈ l).
Proof.
  destruct (iterate_loop_visits prefix sh callback keyType (data s) Hcb c fuel 0 [] 0 s Hr eq_refl
    (scans_none _ _ _ _ _) ltac:(done) Hf) as (l & r & Er & HVis & Hfs & HC).
  assert (HA : r.1 = Return ENil → ∀ rk v,
    glob (scan_pattern prefix sh) rk = true → data s !! rk = Some v →
    ∃ k, fromRedisKey prefix sh rk keyType = (Some k, ENil) ∧ (k, v) ∈ l).
  { intros Hr' rk v Hm Hv. destruct (HC Hr') as (_ & names & n & Hn & Hcov & HS).
    apply (Hcov rk v); [|done]. eapply spec_Scan_complete; [exact HS|done|eauto|done]. }
  exists l, r. split_and!; [done|done|done|done|]. intros Hr' Hp k v Hk Hv.
  destruct (HA Hr' (toRedisKey prefix sh k) v) as (k' & E & Hin); [|done|].
  - rewrite glob_shelf, toRedisKey_eq by done. apply HasPrefix_app.
  - unfold readable in Hk. rewrite Hk in E. by injection E as <-.
Qed.

End properties.
