(* ===== verification/RedisClient.v ===== *)
(** redis7/redis.go and its clients: write transactions buffer their commands, so programs
    that read before they write run as on the abstract store. *)
From S2P Require Import Prelude Errors Keys Go Store Lock Timeout Shelf Client Contract.
From S2P Require Import Redis RedisSpec RedisKeys RedisTx.

(** ** Programs for Redis *)

(** Keys of one type are distinguished by a shelf; a program uses keys of [keyType]'s type,
    does not read what it has written, and does not ask whether the shelf is empty. *)
Definition typed (keyType k : Key) : Prop := same_type keyType k = true ∧ key_wf k.

Fixpoint writes_only (keyType : Key) (c : Client.client) : Prop :=
  match c with
  | c_return e => True
  | c_put k v next => typed keyType k ∧ ∀ e, writes_only keyType (next e)
  | c_delete k next => typed keyType k ∧ ∀ e, writes_only keyType (next e)
  | c_get _ _ | c_empty _ => False
  end.
Fixpoint reads_first (keyType : Key) (c : Client.client) : Prop :=
  match c with
  | c_get k next => typed keyType k ∧ ∀ r, reads_first keyType (next r)
  | c_empty _ => False
  | _ => writes_only keyType c
  end.
Fixpoint gets_only (keyType : Key) (q : query) : Prop :=
  match q with
  | q_return e => True
  | q_get k next => typed keyType k ∧ ∀ r, gets_only keyType (next r)
  | q_empty _ => False
  end.

Section clients.
Context {Logger W : Type} `{RS : RedisSpec W} `{!Env W, !CallScheduler W}.
Context (cfg : Config Logger) (prefix : bytes) (keyType : Key).
Implicit Types (s : St store W) (sh : shelf (W := W)) (d : gmap bytes bytes).
Abbreviation M := (M store W).
Abbreviation typed := (typed keyType).

(** The name of a key of a shelf on the server. *)
Definition redis_name (n : bytes) (k : Key) : bytes :=
  toRedisKey prefix (mkShelf (W := W) n None None Background) k.

Lemma redis_name_eq sh k : toRedisKey prefix sh k = redis_name (name sh) k.
Proof. done. Qed.

Lemma redis_name_inj n n' k k' :
  typed k → typed k' → redis_name n k = redis_name n' k' ↔ n = n' ∧ k = k'.
Proof.
  intros [Ht Hw] [Ht' Hw']. apply redis_key_injective; [|done..]. clear -Ht Ht'. by destruct keyType, k, k'.
Qed.

(** The data [d] holds the pairs [it] for the shelf [n]. *)
Definition represents (n : bytes) d (it : items) : Prop :=
  ∀ k, typed k → d !! redis_name n k = items_lookup (Bytes k) it.

Lemma typed_Bytes k k' : typed k → typed k' → Bytes k' = Bytes k ↔ k' = k.
Proof.
  intros [Ht Hw] [Ht' Hw']. split; [|by intros ->]. apply Bytes_inj; [|done..].
  clear -Ht Ht'. by destruct keyType, k, k'.
Qed.

Lemma represents_insert n d it k v :
  typed k → represents n d it →
  represents n (<[redis_name n k := v]> d) (items_insert (Bytes k) v it).
Proof.
  intros Hk HR k' Hk'. rewrite items_lookup_insert. destruct (decide (k' = k)) as [->|Hne].
  - by rewrite lookup_insert_eq, bool_decide_eq_true_2.
  - rewrite lookup_insert_ne, bool_decide_eq_false_2; [by apply HR| |].
    + by rewrite typed_Bytes.
    + rewrite redis_name_inj by done. by intros [_ ->].
Qed.

Lemma represents_delete n d it k :
  typed k → sorted it → represents n d it →
  represents n (delete (redis_name n k) d) (items_delete (Bytes k) it).
Proof.
  intros Hk Hs HR k' Hk'. rewrite items_lookup_delete by done. destruct (decide (k' = k)) as [->|Hne].
  - by rewrite lookup_delete_eq, bool_decide_eq_true_2.
  - rewrite lookup_delete_ne, bool_decide_eq_false_2; [by apply HR| |].
    + by rewrite typed_Bytes.
    + rewrite redis_name_inj by done. by intros [_ ->].
Qed.

(** A name that is not one of the shelf's keys. *)
Definition outside (n rk : bytes) : Prop := ∀ k, typed k → rk ≠ redis_name n k.

(** *** Programs on a shelf *)

(** Failures are database errors. *)
Definition redis_write_fails (e : error) : Prop := is_database_error e = true.
Definition redis_read_fails (e : error) : Prop := is_database_error e = true.
Abbreviation client_spec := (client_spec redis_write_fails redis_read_fails None).
Abbreviation query_spec := (query_spec redis_read_fails).

(** What has been buffered turns the data into what holds the pairs [it]. *)
Definition buffered_as sh pl s (it : items) : Prop :=
  ∃ q, buffered pl s q ∧ sorted it ∧ represents (name sh) (apply_cmds q (data s)) it ∧
    ∀ rk, outside (name sh) rk → apply_cmds q (data s) !! rk = data s !! rk.

Lemma buffered_as_write sh pl s (m : M error) k c it it' :
  (∀ q, buffered pl s q → write_result pl s q c m) → typed k →
  (∀ d, represents (name sh) d it → represents (name sh) (apply_cmd d c) it') →
  (∀ d rk, rk ≠ redis_name (name sh) k → apply_cmd d c !! rk = d !! rk) → sorted it' →
  buffered_as sh pl s it →
  ∃ e s', m s = (Return e, s') ∧ data s' = data s ∧
    ((e = ENil ∧ buffered_as sh pl s' it') ∨
     (e ≠ ENil ∧ is_database_error e = true ∧ buffered_as sh pl s' it)).
Proof.
  intros Hm Hk Hc Ho Hs' (q & Hq & Hs & HR & Hout).
  destruct (Hm q Hq) as (e & s' & E & Hd & HC). exists e, s'. split_and!; [done|done|].
  destruct (is_nil e) eqn:En.
  - left. apply is_nil_true in En. split; [done|]. exists (q ++ [c]). rewrite Hd, apply_cmds_snoc.
    split_and!; [done|done|by apply Hc|]. intros rk Hrk. rewrite Ho by (by apply Hrk). by apply Hout.
  - right. apply is_nil_false in En. destruct HC as [He Hq']. split_and!; [done|done|].
    exists q. by rewrite Hd.
Qed.

Lemma writes_only_run fuel sh pl c it s :
  writer sh = Some pl → writes_only keyType c → buffered_as sh pl s it →
  ∃ e s' it', run_client (as_Writer prefix fuel sh) c s = (Return e, s') ∧
    client_spec c it e it' ∧ buffered_as sh pl s' it' ∧ data s' = data s.
Proof.
  intros Hw. revert it s.
  induction c as [e|k v next IH|k next IH|k next IH|next IH]; intros it s Hc Hb; [| | |done|done].
  - exists e, s, it. split_and!; [done|constructor|done|done].
  - destruct Hc as [Hk Hc]. pose proof Hb as (q & Hq & Hs & HR & Hout).
    destruct (buffered_as_write sh pl s (shelf_Put prefix sh k v) k
      (CmdSet (toRedisKey prefix sh k) v) it (items_insert (Bytes k) v it))
      as (e & s1 & E & Hd & HC);
      [intros; by apply redis_Put_spec|done|intros; by apply represents_insert| |by auto with shelf|done|].
    { intros d rk Hne. by apply lookup_insert_ne. }
    cbn [run_client]. rewrite (bind_Return _ _ _ _ _ E).
    destruct HC as [[-> Hb1]|(Hn & Hdb & Hb1)];
      [destruct (IH ENil _ s1 (Hc _) Hb1) as (e2 & s2 & it' & E2 & Hsp & Hb2 & Hd2)
      |destruct (IH e _ s1 (Hc _) Hb1) as (e2 & s2 & it' & E2 & Hsp & Hb2 & Hd2)];
      (exists e2, s2, it'; split_and!; [done|by econstructor|done|congruence]).
  - destruct Hc as [Hk Hc]. pose proof Hb as (q & Hq & Hs & HR & Hout).
    destruct (buffered_as_write sh pl s (shelf_Delete prefix sh k) k
      (CmdDel (toRedisKey prefix sh k)) it (items_delete (Bytes k) it))
      as (e & s1 & E & Hd & HC);
      [intros; by apply redis_Delete_spec|done|intros; by apply represents_delete| |by auto with shelf|done|].
    { intros d rk Hne. by apply lookup_delete_ne. }
    cbn [run_client]. rewrite (bind_Return _ _ _ _ _ E).
    destruct HC as [[-> Hb1]|(Hn & Hdb & Hb1)];
      [destruct (IH ENil _ s1 (Hc _) Hb1) as (e2 & s2 & it' & E2 & Hsp & Hb2 & Hd2)
      |destruct (IH e _ s1 (Hc _) Hb1) as (e2 & s2 & it' & E2 & Hsp & Hb2 & Hd2)];
      (exists e2, s2, it'; split_and!; [done|by econstructor|done|congruence]).
Qed.

(** A [Get] answers from the data. *)
Lemma redis_Get_result sh cl k s it :
  reader sh = Some cl → typed k → represents (name sh) (data s) it →
  ∃ r s', shelf_Get prefix sh k s = (Return r, s') ∧ calm s s' ∧
    (r = get_result k it ∨ ∃ err, err ≠ ENil ∧ redis_read_fails err ∧ r = (None, err)).
Proof.
  intros Hr Hk HR. destruct (redis_Get_spec prefix sh cl k s Hr) as (r & s' & E & Hc & HC).
  exists r, s'. split_and!; [done|done|]. specialize (HR k Hk). rewrite redis_name_eq in HC.
  unfold get_result. rewrite <-HR.
  destruct HC as [(v & Hv & ->)|[(Hv & ->)|(e & He & ->)]]; [left; by rewrite Hv..|right].
  exists e. split_and!; [by intros ->|done|done].
Qed.

Lemma reads_first_run fuel sh pl cl c it s :
  writer sh = Some pl → reader sh = Some cl → reads_first keyType c →
  buffered pl s [] → sorted it → represents (name sh) (data s) it →
  ∃ e s' it', run_client (as_Writer prefix fuel sh) c s = (Return e, s') ∧
    client_spec c it e it' ∧ buffered_as sh pl s' it' ∧ data s' = data s.
Proof.
  intros Hw Hr. revert s. induction c as [e|k v next IH|k next IH|k next IH|next IH];
    intros s Hc Hb Hs HR;
    try (apply writes_only_run; [done|exact Hc|by exists []]).
  destruct Hc as [Hk Hc]. destruct (redis_Get_result sh cl k s it Hr Hk HR) as (r & s1 & E & Hcm & HC).
  cbn [run_client]. rewrite (bind_Return _ _ _ _ _ E). pose proof (calm_data _ _ Hcm) as Hd.
  destruct (IH r s1 (Hc r)) as (e & s2 & it' & E2 & Hsp & Hb2 & Hd2);
    [by eapply calm_buffered|done|by rewrite Hd|].
  exists e, s2, it'. split_and!; [done| |done|congruence].
  destruct HC as [->|(err & Hn & Hf & ->)]; by econstructor.
Qed.

Lemma gets_only_run fuel sh cl q it s :
  reader sh = Some cl → gets_only keyType q → represents (name sh) (data s) it →
  ∃ e s', run_query (as_Reader prefix fuel sh) q s = (Return e, s') ∧ query_spec it q e ∧ calm s s'.
Proof.
  intros Hr. revert s. induction q as [e|k next IH|next IH]; intros s Hq HR; [| |done].
  - exists e, s. split_and!; [done|constructor|done].
  - destruct Hq as [Hk Hq]. destruct (redis_Get_result sh cl k s it Hr Hk HR) as (r & s1 & E & Hcm & HC).
    cbn [run_query]. rewrite (bind_Return _ _ _ _ _ E).
    destruct (IH r s1 (Hq r)) as (e & s2 & E2 & Hsp & Hc2); [by rewrite (calm_data _ _ Hcm)|].
    exists e, s2. split_and!; [done| |by etrans].
    destruct HC as [->|(err & Hn & Hf & ->)]; by econstructor.
Qed.
(** Any program leaves the data alone and buffers its writes. *)
Lemma client_buffers fuel sh pl cl c s q :
  writer sh = Some pl → reader sh = Some cl → buffered pl s q →
  ∃ e s' q', run_client (as_Writer prefix fuel sh) c s = (Return e, s') ∧
    data s' = data s ∧ buffered pl s' q'.
Proof.
  intros Hw Hr. revert s q.
  induction c as [e|k v next IH|k next IH|k next IH|next IH]; intros s q Hb; cbn [run_client].
  - by exists e, s, q.
  - destruct (redis_Put_spec prefix sh pl k v s q Hb Hw) as (e & s1 & E & Hd & HC).
    rewrite (bind_Return _ _ _ _ _ E). rewrite <-Hd. destruct (is_nil e); [|destruct HC as [_ HC]];
      eapply IH, HC.
  - destruct (redis_Delete_spec prefix sh pl k s q Hb Hw) as (e & s1 & E & Hd & HC).
    rewrite (bind_Return _ _ _ _ _ E). rewrite <-Hd. destruct (is_nil e); [|destruct HC as [_ HC]];
      eapply IH, HC.
  - destruct (redis_Get_spec prefix sh cl k s Hr) as (r & s1 & E & Hc & _).
    rewrite (bind_Return _ _ _ _ _ E). rewrite <-(calm_data _ _ Hc).
    eapply IH, calm_buffered; done.
  - destruct (redis_Empty_calm prefix sh cl s Hr) as (r & s1 & E & Hc).
    rewrite (bind_Return _ _ _ _ _ E). rewrite <-(calm_data _ _ Hc).
    eapply IH, calm_buffered; done.
Qed.

(** *** Calls *)

Hypothesis forward : clock_forward (W := W).

(** The program of [WriteShelf] in its transaction. *)
Definition shelf_callback fuel n c (ctx : Context W) (pl : Pipeliner) : M error :=
  s ← get_back; run_client (as_Writer prefix fuel (getShelf ctx n (Some pl) (client s))) c.

Lemma shelf_callback_run fuel n c ctx pl s q :
  buffered pl s q →
  ∃ e s' q', shelf_callback fuel n c ctx pl s = (Return e, s') ∧ data s' = data s ∧ buffered pl s' q'.
Proof.
  intros Hb. pose proof Hb as (_ & _ & cl & Hcl). unfold shelf_callback.
  rewrite (bind_Return get_back _ s (back s) s eq_refl), Hcl.
  by apply (client_buffers fuel (getShelf ctx n (Some pl) (Some cl)) pl cl c s q).
Qed.

(** What the transaction has buffered when the program returns nil. *)
Lemma called_committed fuel n c ctx ctx' pl it s s1 q :
  reads_first keyType c → sorted it → represents n (data s) it →
  called s ctx (shelf_callback fuel n c) ctx' pl (Return ENil) s1 → buffered pl s1 q →
  ∃ it', client_spec c it ENil it' ∧ sorted it' ∧ represents n (apply_cmds q (data s)) it' ∧
    ∀ rk, outside n rk → apply_cmds q (data s) !! rk = data s !! rk.
Proof.
  intros Hc Hs HR (s0 & Hb0 & Hd0 & E & Hd1 & _) [Hq _]. pose proof Hb0 as (_ & _ & cl & Hcl).
  unfold shelf_callback in E. rewrite (bind_Return get_back _ s0 (back s0) s0 eq_refl), Hcl in E.
  set (sh := getShelf ctx' n (Some pl) (Some cl)) in E.
  destruct (reads_first_run fuel sh pl cl c it s0) as (e & s' & it' & E' & Hsp & (q' & [Hq' _] & HS) & _);
    [done|done|done|done|done|by rewrite Hd0|].
  rewrite E in E'. injection E' as <- <-. rewrite Hq in Hq'. injection Hq' as <-.
  rewrite Hd1 in HS. exists it'. tauto.
Qed.

(** [WriteShelf] with a program that reads first. *)
Lemma redis_WriteShelf_cases fuel ctx n c it s :
  sticky ctx → is_open s → reads_first keyType c → sorted it → represents n (data s) it →
  ∃ e s', store_WriteShelf cfg prefix fuel ctx n (λ w, run_client w c) s = (Return e, s') ∧
    is_open s' ∧
    ((e ≠ ENil ∧ data s' = data s) ∨
     (∃ it', client_spec c it ENil it' ∧ sorted it' ∧ represents n (data s') it' ∧
        (∀ rk, outside n rk → data s' !! rk = data s !! rk) ∧
        (e = ENil ∨ ∃ err, err ≠ ENil ∧ e = WrapError ErrCommitFailed err))).
Proof.
  intros Hst Ho Hc Hs HR. set (fn := shelf_callback fuel n c).
  assert (Hfn : well_behaved fn).
  { intros ctx0 pl s0 q Hb. destruct (shelf_callback_run fuel n c ctx0 pl s0 q Hb)
      as (e & s' & q' & E & Hd & Hb'). unfold fn. rewrite E. eauto. }
  pose proof (redis_write_protocol_lemma cfg prefix forward ctx fn [] s Hst Hfn (proj1 Ho)) as HW.
  unfold store_WriteShelf. rewrite (bind_Return _ _ _ _ _ (checkOpen_open s Ho)). cbn [is_nil negb].
  change (∃ e s', doTX cfg prefix ctx fn [] s = (Return e, s') ∧ is_open s' ∧
    ((e ≠ ENil ∧ data s' = data s) ∨
     (∃ it', client_spec c it ENil it' ∧ sorted it' ∧ represents n (data s') it' ∧
        (∀ rk, outside n rk → data s' !! rk = data s !! rk) ∧
        (e = ENil ∨ ∃ err, err ≠ ENil ∧ e = WrapError ErrCommitFailed err)))).
  destruct HW as [Hcl|e s' Hen|ctx' pl o s' (s0 & Hb & _ & E & _) Hne|ctx' pl e s1 s2 Hca He Hd HO
    |ctx' pl s1 s2 Hca He Hd HO|ctx' pl q c0 s1 s2 Hca Hb Hc0 Hd HO|ctx' pl q s1 s2 Hca Hb Hd HO].
  - destruct Ho as [_ [cl Hcl']]. congruence.
  - done.
  - destruct (shelf_callback_run fuel n c ctx' pl s0 [] Hb) as (e & s1 & q' & E' & _).
    unfold fn in E. rewrite E in E'. injection E' as -> ->. by destruct (Hne e).
  - exists e, s2. split_and!; [done|done|by left].
  - eexists _, _. split; [done|]. split; [done|]. left. split; [apply DatabaseError_not_nil|done].
  - eexists _, _. split; [done|]. split; [done|]. destruct Hd as [Hd|Hd]; [by left|right].
    destruct (called_committed fuel n c ctx ctx' pl it s s1 q Hc Hs HR Hca Hb)
      as (it' & H1 & H2 & H3 & H4).
    exists it'. cbn. rewrite Hd. split_and!; [done..|]. right. by exists c0.
  - eexists _, _. split; [done|]. split; [done|]. right.
    destruct (called_committed fuel n c ctx ctx' pl it s s1 q Hc Hs HR Hca Hb)
      as (it' & H1 & H2 & H3 & H4).
    exists it'. cbn. rewrite Hd. split_and!; [done..|]. by left.
Qed.

Lemma redis_ReadShelf_run fuel ctx n q it s :
  is_open s → gets_only keyType q → represents n (data s) it →
  ∃ e s', store_ReadShelf prefix fuel ctx n (λ r, run_query r q) s = (Return e, s') ∧
    query_spec it q e ∧ calm s s'.
Proof.
  intros Ho Hq HR. pose proof Ho as [_ [cl Hcl]]. unfold store_ReadShelf.
  rewrite (bind_Return _ _ _ _ _ (checkOpen_open s Ho)). cbn [is_nil negb].
  rewrite (bind_Return get_back _ s (back s) s eq_refl), Hcl.
  by apply (gets_only_run fuel (getShelf ctx n None (Some cl)) cl q it s).
Qed.

(** C25: programs on Redis. [WriteShelf] with a program that uses well-formed keys of one
    type, reads before it writes and does not ask whether the shelf is empty always returns
    on an open store, which stays open. With nil, the shelf holds what the abstract store gets
    when the program runs on the pairs it held before and returns nil, and no other name on the
    server has changed. With an error, nothing has changed, or the error is one of the
    execution of the pipeline, wrapped in [ErrCommitFailed], and the program may have had its
    whole effect. *)
Theorem redis_WriteShelf_atomic fuel ctx n c it s
    (Hst : sticky ctx) (Ho : is_open s) (Hc : reads_first keyType c)
    (Hs : sorted it) (HR : represents n (data s) it) :
  ∃ e s', store_WriteShelf cfg prefix fuel ctx n (λ w, run_client w c) s = (Return e, s') ∧
    is_open s' ∧
    ((e ≠ ENil ∧ data s' = data s) ∨
     (∃ it', client_spec c it ENil it' ∧ sorted it' ∧ represents n (data s') it' ∧
        (∀ rk, outside n rk → data s' !! rk = data s !! rk) ∧
        (e = ENil ∨ ∃ err, err ≠ ENil ∧ e = WrapError ErrCommitFailed err))).
Proof. by apply redis_WriteShelf_cases. Qed.
End clients.
