(* ===== verification/RedisProgram.v ===== *)
(** Programs on several shelves in a transaction of redis7/redis.go: [Write], with its options,
    and [Read]. *)
From S2P Require Import Prelude Errors Keys Go Store Lock Timeout Shelf Client Program Contract.
From S2P Require Import Redis RedisSpec RedisKeys RedisTx RedisClient.

(** Programs that use keys of [keyType]'s type, do not read after they have written, on
    whatever shelf, and do not ask whether a shelf is empty. *)
Fixpoint program_writes (keyType : Key) (p : program) : Prop :=
  match p with
  | p_return e => True
  | p_put _ k _ next | p_delete _ k next => typed keyType k ∧ ∀ e, program_writes keyType (next e)
  | p_get _ _ _ | p_empty _ _ => False
  end.
Fixpoint program_reads_first (keyType : Key) (p : program) : Prop :=
  match p with
  | p_get _ k next => typed keyType k ∧ ∀ x, program_reads_first keyType (next x)
  | p_empty _ _ => False
  | _ => program_writes keyType p
  end.
Fixpoint inquiry_gets (keyType : Key) (i : inquiry) : Prop :=
  match i with
  | i_return e => True
  | i_get _ k next => typed keyType k ∧ ∀ x, inquiry_gets keyType (next x)
  | i_empty _ _ => False
  end.

Section programs.
Context {Logger W : Type} `{RS : RedisSpec W} `{!Env W, !CallScheduler W}.
Context (cfg : Config Logger) (prefix : bytes) (keyType : Key) (fuel : nat).
Implicit Types (s : St store W) (d : gmap bytes bytes) (σ : shelves) (t : tx (W := W)).
Abbreviation M := (M store W).
Abbreviation typed := (typed keyType).
Abbreviation represents := (represents (W := W) prefix keyType).

(** Every shelf can be opened. *)
Definition redis_open_fails (e : error) : Prop := False.
Abbreviation program_spec := (program_spec redis_open_fails redis_write_fails redis_read_fails None).
Abbreviation inquiry_spec := (inquiry_spec redis_read_fails).

(** The data holds the shelves [σ]. *)
Definition holds d σ : Prop := ∀ n, sorted (σ n) ∧ represents n d (σ n).

Lemma holds_insert d σ n k v :
  typed k → holds d σ →
  holds (<[redis_name (W := W) prefix n k := v]> d) (set_shelf n (items_insert (Bytes k) v (σ n)) σ).
Proof.
  intros Hk Hσ m. destruct (Hσ m) as [Hs HR], (Hσ n) as [Hs' HR']. unfold set_shelf.
  case_bool_decide as Hm.
  - subst m. split; [auto with shelf|by apply represents_insert].
  - split; [done|]. intros k' Hk'. rewrite lookup_insert_ne; [by apply HR|].
    rewrite redis_name_inj by done. by intros [<- _].
Qed.

Lemma holds_delete d σ n k :
  typed k → holds d σ →
  holds (delete (redis_name (W := W) prefix n k) d) (set_shelf n (items_delete (Bytes k) (σ n)) σ).
Proof.
  intros Hk Hσ m. destruct (Hσ m) as [Hs HR], (Hσ n) as [Hs' HR']. unfold set_shelf.
  case_bool_decide as Hm.
  - subst m. split; [auto with shelf|by apply represents_delete].
  - split; [done|]. intros k' Hk'. rewrite lookup_delete_ne; [by apply HR|].
    rewrite redis_name_inj by done. by intros [<- _].
Qed.

Lemma holds_same d σ n : holds d σ → holds d (set_shelf n (σ n) σ).
Proof. intros Hσ m. unfold set_shelf. case_bool_decide; [by subst|done]. Qed.

(** ** In a write transaction *)

(** The shelf of a transaction. *)
Abbreviation shelf_of t n := (getShelf (tx_ctx t) n (tx_writer t) (tx_reader t)).

Definition writer_in t s (n : bytes) (r : option error) (w : Writer store W) : Prop :=
  r = None ∧ w = as_Writer prefix fuel (shelf_of t n).

(** A transaction hands out its shelves without looking at the server. *)
#[local] Instance redis_OpensTx t (backed : St store W → shelves → Prop) :
  OpensTx redis_open_fails (as_WriteTx prefix fuel t) (λ _, True) backed (writer_in t) eq.
Proof.
  split; [apply _|by intros n r w s s' <-|]. intros n σ s _ Hs.
  eexists _, None, s. by split_and!.
Qed.
Abbreviation kept t := (kept (writer_in t)).

Lemma writer_of_run t ws h n s :
  kept t s ws h →
  ∃ ws' h', writer_of (as_WriteTx prefix fuel t) ws n s =
      (Return (as_Writer prefix fuel (shelf_of t n), ws'), s) ∧
    uses redis_open_fails n h h' None ∧ ∀ s', kept t s' ws' h'.
Proof.
  intros Hk. destruct (writer_of_spec _ _ (λ _, True) (λ _ _, True) _ _
    (OpensTx0 := redis_OpensTx t (λ _ _, True)) n (λ _, []) s ws h)
    as (w & ws' & h' & r & s' & E & Hu & _ & <- & Hk' & -> & ->); [done..|]. by exists ws', h'.
Qed.

(** What has been buffered turns the data into what holds the shelves. *)
Definition buffered_as (pl : Pipeliner) s σ : Prop :=
  ∃ q, buffered pl s q ∧ holds (apply_cmds q (data s)) σ.

Lemma buffered_write pl s σ n (m : M error) c new :
  buffered_as pl s σ → (∀ q, buffered pl s q → write_result pl s q c m) →
  (∀ d, holds d σ → holds (apply_cmd d c) (set_shelf n new σ)) →
  ∃ e it s', m s = (Return e, s') ∧ data s' = data s ∧ buffered_as pl s' (set_shelf n it σ) ∧
    writes redis_write_fails None (σ n) new e it.
Proof.
  intros (q & Hq & Hσ) Hm Hc. destruct (Hm q Hq) as (e & s' & E & Hd & HC).
  exists e. destruct (is_nil e) eqn:En.
  - apply is_nil_true in En as ->. exists new, s'. split_and!; [done|done| |by left].
    exists (q ++ [c]). rewrite Hd, apply_cmds_snoc. split; [done|by apply Hc].
  - apply is_nil_false in En. destruct HC as [He Hq']. exists (σ n), s'.
    split_and!; [done|done| |by right]. exists q. rewrite Hd. split; [done|by apply holds_same].
Qed.

Lemma program_writes_run t pl p ws h σ s :
  tx_writer t = Some pl → program_writes keyType p → kept t s ws h → buffered_as pl s σ →
  ∃ e s' σ', run_program (as_WriteTx prefix fuel t) ws p s = (Return e, s') ∧
    program_spec h σ p e σ' ∧ buffered_as pl s' σ' ∧ data s' = data s.
Proof.
  intros Hw. revert ws h σ s.
  induction p as [e|n k v next IH|n k next IH|n k next IH|n next IH]; intros ws h σ s Hp Hk Hb;
    cbn [run_program]; [| | |done|done].
  - exists e, s, σ. split_and!; [done|constructor|done|done].
  - destruct Hp as [Ht Hp]. destruct (writer_of_run t ws h n s Hk) as (ws' & h' & E & Hu & Hk').
    rewrite (bind_Return _ _ _ _ _ E). cbn [fst snd Put as_Writer].
    destruct (buffered_write pl s σ n (shelf_Put prefix (shelf_of t n) k v)
      (CmdSet (toRedisKey prefix (shelf_of t n) k) v) (items_insert (Bytes k) v (σ n)))
      as (e & it & s1 & E1 & Hd & Hb1 & HC);
      [done|intros; by apply redis_Put_spec|intros; by apply holds_insert|].
    rewrite (bind_Return _ _ _ _ _ E1).
    destruct (IH e ws' h' _ s1 (Hp e) (Hk' s1) Hb1) as (e2 & s2 & σ' & E2 & Hsp & Hb2 & Hd2).
    exists e2, s2, σ'. split_and!; [done|by econstructor|done|congruence].
  - destruct Hp as [Ht Hp]. destruct (writer_of_run t ws h n s Hk) as (ws' & h' & E & Hu & Hk').
    rewrite (bind_Return _ _ _ _ _ E). cbn [fst snd Delete as_Writer].
    destruct (buffered_write pl s σ n (shelf_Delete prefix (shelf_of t n) k)
      (CmdDel (toRedisKey prefix (shelf_of t n) k)) (items_delete (Bytes k) (σ n)))
      as (e & it & s1 & E1 & Hd & Hb1 & HC);
      [done|intros; by apply redis_Delete_spec|intros; by apply holds_delete|].
    rewrite (bind_Return _ _ _ _ _ E1).
    destruct (IH e ws' h' _ s1 (Hp e) (Hk' s1) Hb1) as (e2 & s2 & σ' & E2 & Hsp & Hb2 & Hd2).
    exists e2, s2, σ'. split_and!; [done|by econstructor|done|congruence].
Qed.

Lemma program_reads_first_run t pl cl p ws h σ s :
  tx_writer t = Some pl → tx_reader t = Some cl → program_reads_first keyType p →
  kept t s ws h → buffered pl s [] → holds (data s) σ →
  ∃ e s' σ', run_program (as_WriteTx prefix fuel t) ws p s = (Return e, s') ∧
    program_spec h σ p e σ' ∧ buffered_as pl s' σ' ∧ data s' = data s.
Proof.
  intros Hw Hr. revert ws h s.
  induction p as [e|n k v next IH|n k next IH|n k next IH|n next IH]; intros ws h s Hp Hk Hb Hσ;
    try (eapply program_writes_run; [done|exact Hp|done|by exists []]).
  destruct Hp as [Ht Hp]. destruct (writer_of_run t ws h n s Hk) as (ws' & h' & E & Hu & Hk').
  cbn [run_program]. rewrite (bind_Return _ _ _ _ _ E). cbn [fst snd].
  destruct (redis_Get_result prefix keyType (shelf_of t n) cl k s (σ n) Hr Ht)
    as (x & s1 & E1 & Hcm & HC); [by apply Hσ|].
  rewrite (bind_Return _ _ _ _ _ E1). pose proof (calm_data _ _ Hcm) as Hd.
  destruct (IH x ws' h' s1 (Hp x) (Hk' s1)) as (e & s2 & σ' & E2 & Hsp & Hb2 & Hd2);
    [by eapply calm_buffered|by rewrite Hd|].
  exists e, s2, σ'. split_and!; [done|by econstructor|done|congruence].
Qed.

(** Any program leaves the data alone and buffers its writes. *)
Lemma program_buffers t pl cl p ws h s q :
  tx_writer t = Some pl → tx_reader t = Some cl → kept t s ws h → buffered pl s q →
  ∃ e s' q', run_program (as_WriteTx prefix fuel t) ws p s = (Return e, s') ∧
    data s' = data s ∧ buffered pl s' q'.
Proof.
  intros Hw Hr. revert ws h s q.
  induction p as [e|n k v next IH|n k next IH|n k next IH|n next IH]; intros ws h s q Hk Hb;
    cbn [run_program]; [by exists e, s, q|..];
    destruct (writer_of_run t ws h n s Hk) as (ws' & h' & E & Hu & Hk');
    rewrite (bind_Return _ _ _ _ _ E); cbn [fst snd].
  - destruct (redis_Put_spec prefix (shelf_of t n) pl k v s q Hb Hw) as (e & s1 & E1 & Hd & HC).
    rewrite (bind_Return _ _ _ _ _ E1). rewrite <-Hd. destruct (is_nil e); [|destruct HC as [_ HC]];
      by eapply IH.
  - destruct (redis_Delete_spec prefix (shelf_of t n) pl k s q Hb Hw) as (e & s1 & E1 & Hd & HC).
    rewrite (bind_Return _ _ _ _ _ E1). rewrite <-Hd. destruct (is_nil e); [|destruct HC as [_ HC]];
      by eapply IH.
  - destruct (redis_Get_spec prefix (shelf_of t n) cl k s Hr) as (r & s1 & E1 & Hc & _).
    rewrite (bind_Return _ _ _ _ _ E1). rewrite <-(calm_data _ _ Hc).
    eapply IH; [done|by eapply calm_buffered].
  - destruct (redis_Empty_calm prefix (shelf_of t n) cl s Hr) as (r & s1 & E1 & Hc).
    rewrite (bind_Return _ _ _ _ _ E1). rewrite <-(calm_data _ _ Hc).
    eapply IH; [done|by eapply calm_buffered].
Qed.

(** The callback of a [Write] with a program. *)
Definition program_callback p (ctx : Context W) (pl : Pipeliner) : M error :=
  s ← get_back; run_program (as_WriteTx prefix fuel (mkTx (client s) (Some pl) ctx)) ∅ p.

Lemma program_callback_buffers p ctx pl s q :
  buffered pl s q →
  ∃ e s' q', program_callback p ctx pl s = (Return e, s') ∧ data s' = data s ∧ buffered pl s' q'.
Proof.
  intros Hb. pose proof Hb as (_ & _ & cl & Hcl). unfold program_callback.
  rewrite (bind_Return get_back _ s (back s) s eq_refl), Hcl.
  by apply (program_buffers (mkTx (Some cl) (Some pl) ctx) pl cl p ∅ ∅ s q), Hb; [| |apply kept_none].
Qed.

Lemma redis_program_run p ctx pl s σ :
  buffered pl s [] → program_reads_first keyType p → holds (data s) σ →
  ∃ e s' σ', program_callback p ctx pl s = (Return e, s') ∧ program_spec ∅ σ p e σ' ∧
    buffered_as pl s' σ' ∧ data s' = data s.
Proof.
  intros Hb Hp Hσ. pose proof Hb as (_ & _ & cl & Hcl). unfold program_callback.
  rewrite (bind_Return get_back _ s (back s) s eq_refl), Hcl.
  by apply (program_reads_first_run (mkTx (Some cl) (Some pl) ctx) pl cl p ∅ ∅ σ s);
    [| | |apply kept_none| |].
Qed.

(** ** In a read transaction *)

Lemma reader_of_run t rs n s :
  (∀ m r, rs !! m = Some r → r = tx_GetShelfReader prefix fuel t m) →
  ∃ rs', reader_of (as_ReadTx prefix fuel t) rs n s =
      (Return (tx_GetShelfReader prefix fuel t n, rs'), s) ∧
    ∀ m r, rs' !! m = Some r → r = tx_GetShelfReader prefix fuel t m.
Proof.
  intros Hk. unfold reader_of. destruct (rs !! n) as [r|] eqn:Er.
  - apply Hk in Er as ->. by exists rs.
  - cbn. eexists. split; [done|]. intros m r.
    rewrite lookup_insert_Some. intros [[<- <-]|[_ Hr]]; [done|by apply Hk].
Qed.

Lemma inquiry_gets_run t cl i rs σ s :
  tx_reader t = Some cl → inquiry_gets keyType i → holds (data s) σ →
  (∀ m r, rs !! m = Some r → r = tx_GetShelfReader prefix fuel t m) →
  ∃ e s', run_inquiry (as_ReadTx prefix fuel t) rs i s = (Return e, s') ∧
    inquiry_spec σ i e ∧ calm s s'.
Proof.
  intros Hr. revert rs s. induction i as [e|n k next IH|n next IH]; intros rs s Hi Hσ Hk; [| |done].
  - exists e, s. split_and!; [done|constructor|done].
  - destruct Hi as [Ht Hi]. destruct (reader_of_run t rs n s Hk) as (rs' & E & Hk').
    cbn [run_inquiry]. rewrite (bind_Return _ _ _ _ _ E). cbn [fst snd].
    destruct (redis_Get_result prefix keyType (getShelf (tx_ctx t) n None (tx_reader t)) cl k s (σ n)
      Hr Ht) as (x & s1 & E1 & Hcm & HC); [by apply Hσ|].
    rewrite (bind_Return _ _ _ _ _ E1).
    destruct (IH x rs' s1 (Hi x)) as (e & s2 & E2 & Hsp & Hc2); [by rewrite (calm_data _ _ Hcm)|done|].
    exists e, s2. split_and!; [done|by econstructor|by etrans].
Qed.

(** ** Calls *)

Hypothesis forward : clock_forward (W := W).

Definition redis_holding s σ : Prop := is_open s ∧ holds (data s) σ.

#[global] Instance redis_Transacts ctx (Hst : sticky ctx) :
  Transacts (as_KVStore cfg prefix fuel) ctx (program_reads_first keyType) (λ _, True)
    redis_holding redis_open_fails redis_write_fails redis_read_fails true true false.
Proof.
  intros p opts s σ Hp _ _ [Ho Hσ]. right. cbn [Write as_KVStore]. unfold store_Write.
  rewrite (bind_Return _ _ _ _ _ (checkOpen_open s Ho)). cbn [is_nil negb].
  change (doTX cfg prefix ctx _ opts s) with (doTX cfg prefix ctx (program_callback p) opts s).
  assert (Hfn : well_behaved (program_callback p)).
  { intros ctx0 pl s0 q Hb. destruct (program_callback_buffers p ctx0 pl s0 q Hb)
      as (e & s' & q' & E & Hd & Hb'). rewrite E. eauto. }
  assert (HC : ∀ ctx' pl o s1, called s ctx (program_callback p) ctx' pl o s1 → ∃ e σ',
    o = Return e ∧ program_spec ∅ σ p e σ' ∧ ∀ q, buffered pl s1 q → holds (apply_cmds q (data s)) σ').
  { intros ctx' pl o s1 (s0 & Hb0 & Hd0 & E & Hd1 & _).
    destruct (redis_program_run p ctx' pl s0 σ Hb0 Hp) as (e & s' & σ' & E' & Hsp & (q' & Hq' & Hh) & _);
      [by rewrite Hd0|].
    rewrite E in E'. injection E' as -> ->. exists e, σ'. split_and!; [done|done|].
    intros q [Hq _]. destruct Hq' as [Hq' _]. rewrite Hq in Hq'. injection Hq' as <-.
    by rewrite Hd1 in Hh. }
  assert (HH : ∀ s', data s' = data s → is_open s' → redis_holding s' σ).
  { intros s' Hd Ho'. split; [done|]. by rewrite Hd. }
  destruct (redis_write_protocol_lemma cfg prefix forward ctx (program_callback p) opts s Hst Hfn (proj1 Ho))
    as [Hcl|e s' _ He Hdb Hcm|ctx' pl o s' Hca Hne|ctx' pl e s1 s2 Hca He Hd Ho2
       |ctx' pl s1 s2 Hca He Hd Ho2|ctx' pl q c s1 s2 Hca Hb Hc Hd Ho2|ctx' pl q s1 s2 Hca Hb Hd Ho2].
  - destruct Ho as [_ [cl Hcl']]. congruence.
  - eexists Refused, _, σ, s'. split; [constructor|].
    split; [apply HH; [by apply calm_data|by eapply same_store_open; [apply calm_same_store|]]|].
    by exists e, s'.
  - destruct (HC _ _ _ _ Hca) as (e & σ' & -> & _). by destruct (Hne e).
  - destruct (HC _ _ _ _ Hca) as (e' & σ' & [= <-] & Hsp & _). eexists Undone, _, σ, s2.
    split; [by eapply ts_rolled_back|]. split; [by apply HH|].
    rewrite OnRollback_Invoke_eq. by apply ends_with_result.
  - destruct (HC _ _ _ _ Hca) as (e' & σ' & [= <-] & Hsp & _). eexists Undone, _, σ, s2.
    split; [by eapply ts_failed|]. split; [by apply HH|].
    rewrite OnRollback_Invoke_eq. unfold ends_with, mbind, M_bind. cbn [called_fns].
    destruct (call_all (on_rollback_fns opts) s2) as [[[]| | |] s3]; try done.
    eexists _, _. split; [done|]. split; [|done].
    split; [apply DatabaseError_not_nil|apply DatabaseError_database].
  - destruct (HC _ _ _ _ Hca) as (e' & σ' & [= <-] & Hsp & Hh).
    destruct Hd as [Hd|Hd]; [eexists Undone, _, σ, s2|eexists Undone, _, σ', s2].
    + split; [by eapply ts_failed|]. split; [by apply HH|].
      rewrite OnRollback_Invoke_eq. apply ends_with_result. split; [done|apply commit_failed_database].
    + split; [by apply ts_unknown|]. split; [split; [done|rewrite Hd; by apply Hh]|].
      rewrite OnRollback_Invoke_eq. apply ends_with_result. split; [done|].
      by rewrite WrapError_Is, errors_Is_refl.
  - destruct (HC _ _ _ _ Hca) as (e' & σ' & [= <-] & Hsp & Hh). eexists Committed, _, σ', s2.
    split; [by apply ts_committed|]. split; [split; [done|rewrite Hd; by apply Hh]|].
    rewrite AfterCommit_Invoke_eq. by apply ends_with_result.
Qed.

Lemma redis_Read_run ctx i s σ :
  inquiry_gets keyType i → redis_holding s σ →
  ∃ e s', store_Read prefix fuel ctx (λ x, run_inquiry x ∅ i) s = (Return e, s') ∧
    inquiry_spec σ i e ∧ redis_holding s' σ.
Proof.
  intros Hi [Ho Hσ]. pose proof Ho as [_ [cl Hcl]]. unfold store_Read.
  rewrite (bind_Return _ _ _ _ _ (checkOpen_open s Ho)). cbn [is_nil negb].
  rewrite (bind_Return get_back _ s (back s) s eq_refl), Hcl.
  destruct (inquiry_gets_run (mkTx (Some cl) None ctx) cl i ∅ σ s) as (e & s' & E & Hsp & Hc);
    [done|done|done|by intros m r; rewrite lookup_empty|].
  exists e, s'. split_and!; [done|done|]. split; [|by rewrite (calm_data _ _ Hc)].
  by eapply same_store_open; [apply calm_same_store|].
Qed.
End programs.
