(* ===== verification/RedisContract.v ===== *)
(** The Redis store keeps the contract of a [KVStore], for programs that read before they write
    and do not call [Empty]. *)
From S2P Require Import Prelude Errors Keys Go Store Lock Timeout Shelf Client Program Contract.
From S2P Require Import Redis RedisSpec RedisKeys RedisTx RedisClient RedisProgram.

Section contract.
Context {Logger W : Type} `{RS : RedisSpec W} `{!Env W, !CallScheduler W}.
Context (cfg : Config Logger) (prefix : bytes) (keyType : Key).
Implicit Types (s : St store W) (σ : shelves).
Hypothesis forward : clock_forward (W := W).
Abbreviation redis_holding := (redis_holding prefix keyType).

Definition redis_permits (a : call) : Prop :=
  match a with
  | Call_write _ c => reads_first keyType c
  | Call_read _ q => gets_only keyType q
  | Call_transact p => program_reads_first keyType p
  | Call_inquire i => inquiry_gets keyType i
  end.

Lemma outside_other n m k :
  typed keyType k → m ≠ n →
  outside (W := W) prefix keyType n (redis_name (W := W) prefix m k).
Proof. intros Hk Hne k' Hk'. rewrite (redis_name_inj _ keyType) by done. by intros [-> _]. Qed.

#[global] Instance redis_Conforms fuel ctx (Hst : sticky ctx) :
  Conforms (as_KVStore cfg prefix fuel) ctx redis_permits redis_holding
    redis_open_fails redis_write_fails redis_read_fails true true false.
Proof.
  split; [|intros n c s σ _ [_ Hσ]; apply Hσ].
  intros [n c|n q|p|i] s σ Hp HH; pose proof HH as [Ho Hσ]; [right|right|..|right];
    cbn [run_call WriteShelf ReadShelf Read as_KVStore].
  - destruct (Hσ n) as [Hs HR].
    destruct (redis_WriteShelf_cases cfg prefix keyType forward fuel ctx n c (σ n) s Hst Ho Hp Hs HR)
      as (e & s' & E & Ho' & [[He Hd]|(it' & Hsp & Hs' & HR' & Hout & He)]).
    + exists e, s', σ. split; [exact E|]. split; [by apply call_failed|].
      split; [done|]. by rewrite Hd.
    + exists e, s', (set_shelf n it' σ). split; [exact E|]. split.
      * destruct He as [->|(err & Hn & ->)]; [by apply call_committed|].
        apply call_unknown; [done| |done]. by rewrite WrapError_Is, errors_Is_refl.
      * split; [done|]. intros m. unfold set_shelf. case_bool_decide as Hm; [by subst|].
        split; [apply Hσ|]. intros k Hk. rewrite Hout by (by apply outside_other).
        by apply Hσ.
  - destruct (Hσ n) as [Hs HR].
    destruct (redis_ReadShelf_run prefix keyType fuel ctx n q (σ n) s Ho Hp HR) as (e & s' & E & Hq & Hc).
    exists e, s', σ. split; [exact E|]. split; [by apply call_read; left|].
    split; [by eapply same_store_open; [apply calm_same_store|]|]. by rewrite (calm_data _ _ Hc).
  - by apply (transacts_plain _ _ _ _ _ _ _ _ _ _ _
      (Transacts0 := redis_Transacts cfg prefix keyType fuel forward ctx Hst) p s σ).
  - destruct (redis_Read_run prefix keyType fuel ctx i s σ Hp HH) as (e & s' & E & Hi & Hs').
    exists e, s', σ. split_and!; [done|by apply call_inquired; left|done].
Qed.
End contract.
