(* ===== verification/RedisExamples.v ===== *)
(** The theorems on the Redis store at concrete inputs, with the in-memory library of
    RedisSpec.v: a server with a shelf "s" of three uint32 keys, 1, 2 and 4. *)
From S2P Require Import Prelude Errors Keys Go Store Lock Timeout Shelf Walk Client Program Contract.
From S2P Require Import Redis RedisSpec RedisKeys RedisTx RedisRange RedisScan RedisClient RedisProgram RedisContract.
Import RedisMem.

(** Time stands still, and a call is not overtaken by its timeout. *)
#[local] Instance still : Env () := λ w, w.
#[local] Instance prompt : CallScheduler () := λ _, [K_worker; K_rendezvous].

Abbreviation store := (Redis.store (W := ())).
Definition config : Config () := DefaultConfig ().
Definition pre : bytes := #"db".
Definition key (n : N) : Key := Uint32Key n.
Definition w0 : World () := mkWorld 0 ().
Definition shelf_named (n : bytes) (pl : option nat) : shelf (W := ()) :=
  mkShelf n (Some () : option Client) (pl : option Pipeliner) Background.
Definition shelf0 := shelf_named #"s" (Some 0).
Definition strings : gmap bytes bytes :=
  list_to_map [(toRedisKey pre shelf0 (key 1), #"one"); (toRedisKey pre shelf0 (key 2), #"two");
               (toRedisKey pre shelf0 (key 4), #"four")].
Definition state_of (m : mem) : St store () :=
  mkSt (mkStore _ _ (m : DB) (Some () : option Client) unlocked) w0.
Definition start : St store () := state_of (mkMem strings ∅ ∅ 0 ∅ false 10).
(** The state inside a write transaction. *)
Definition inside : St store () := state_of (mkMem strings {[ 0 := [] ]} ∅ 1 ∅ false 10).
Definition shut : St store () :=
  mkSt (mkStore _ _ (mkMem strings ∅ ∅ 0 ∅ false 10 : DB) None unlocked) w0.
Definition accept : CallerFn store () := λ _ _, mret ENil.

Lemma redis_background_sticky : sticky (@Background ()).
Proof. intros w. done. Qed.
Lemma redis_forward : clock_forward (W := ()).
Proof. intros w. unfold tick, still. lia. Qed.
Lemma inside_buffered : buffered (0 : Pipeliner) inside [].
Proof. split; [reflexivity|]. split; [reflexivity|]. by exists (). Qed.

Lemma redis_key_roundtrip_witness :
  fromRedisKey pre shelf0 (toRedisKey pre shelf0 (key 7)) (key 0) = (Some (key 7), ENil) ∧
  (fromRedisKey pre shelf0 (toRedisKey pre shelf0 (key 4000000000)) (key 0)).1 = None.
Proof.
  split.
  - rewrite (redis_key_roundtrip pre shelf0 (key 0) (key 7)); reflexivity.
  - rewrite (redis_key_roundtrip pre shelf0 (key 0) (key 4000000000)); reflexivity.
Defined.

Lemma redis_key_injective_witness :
  (same_type (key 1) (key 2) = true ∧ key_wf (key 1) ∧ key_wf (key 2)) ∧
  (toRedisKey pre shelf0 (key 1) = toRedisKey pre shelf0 (key 2) ↔
   name shelf0 = name shelf0 ∧ key 1 = key 2).
Proof.
  split; [repeat split|]. apply (redis_key_injective pre shelf0 shelf0 (key 1) (key 2)); reflexivity.
Defined.

Lemma redis_shelves_overlap_witness :
  let other := shelf_named #"s.t" None in
  HasPrefix (toRedisKey pre other (key 1)) (toRedisKey pre shelf0 (BytesKey [])) = true ∧
  (fromRedisKey pre shelf0 (toRedisKey pre other (key 1)) (key 0)).2 ≠ ENil.
Proof. intros other. exact (redis_shelves_overlap pre shelf0 other #"t" (key 1) (key 0) eq_refl). Defined.

Lemma redis_shelf_ops_witness :
  buffered (0 : Pipeliner) inside [] ∧
  write_result (0 : Pipeliner) inside [] (CmdSet (toRedisKey pre shelf0 (key 2)) #"2")
    (shelf_Put pre shelf0 (key 2) #"2").
Proof.
  split; [exact inside_buffered|].
  exact (proj1 (redis_shelf_ops pre shelf0 (0 : Pipeliner) tt (key 2) #"2" inside []
    inside_buffered eq_refl eq_refl)).
Defined.

Lemma redis_reads_committed_witness :
  buffered (0 : Pipeliner) inside [] ∧
  let k := toRedisKey pre shelf0 (key 2) in
  ∃ r s', (_ ← shelf_Put pre shelf0 (key 2) #"2"; shelf_Get pre shelf0 (key 2)) inside = (Return r, s') ∧
    data s' = data inside ∧
    ((∃ v, data inside !! k = Some v ∧ r = (Some v, ENil)) ∨
     (data inside !! k = None ∧ r = (None, ErrKeyNotFound)) ∨
     (∃ e, is_database_error e = true ∧ r = (None, e))).
Proof.
  split; [exact inside_buffered|].
  exact (redis_reads_committed pre shelf0 (0 : Pipeliner) tt (key 2) #"2" inside []
    inside_buffered eq_refl eq_refl).
Defined.

(** A callback that does nothing. *)
Definition idle : Context () → Pipeliner (W := ()) → M store () error := λ _ _, mret ENil.
Lemma redis_idle_well_behaved : well_behaved idle.
Proof. intros ctx pl s q Hb. split; [done|]. eauto. Qed.

Lemma redis_write_protocol_witness :
  (well_behaved idle ∧ mux (back start) = unlocked) ∧
  write_outcome Background idle [WithWriteLock] start
    (doTX config pre Background idle [WithWriteLock] start).
Proof.
  split; [split; [exact redis_idle_well_behaved|reflexivity]|].
  exact (redis_write_protocol config pre redis_forward Background idle [WithWriteLock] start
    redis_background_sticky redis_idle_well_behaved eq_refl).
Defined.

Lemma redis_closed_witness :
  mux (back shut) = unlocked ∧ client (back shut) = None ∧
  store_Close Background shut = (Return ENil, shut).
Proof.
  split; [reflexivity|]. split; [reflexivity|].
  exact (proj1 (proj1 (redis_closed config pre 0 Background shut eq_refl) eq_refl)).
Defined.

Lemma redis_Wrap_witness :
  client (back shut) = None ∧
  ∃ e s', Wrap tt shut = (Return e, s') ∧ data s' = data shut ∧ mux (back s') = mux (back shut) ∧
    ((e = ENil ∧ client (back s') = Some (tt : Client) ∧
      ∃ ctx w d, (client_Ping (W := ()) tt ctx w d).1 = ENil) ∨
     (is_database_error e = true ∧ client (back s') = None ∧
      (now (world shut) + 10 * Second ≤ now (world s'))%Z)).
Proof.
  split; [reflexivity|]. exact (redis_Wrap redis_forward (tt : Client) shut eq_refl).
Defined.

Definition keys3 : list Key := [key 1; key 2; key 3; key 4].
Lemma keys3_readable : Forall (readable pre shelf0 (key 0)) keys3.
Proof. repeat constructor. Qed.

Lemma redis_visitKeys_witness :
  Forall (readable pre shelf0 (key 0)) keys3 ∧
  let keys := toRedisKey pre shelf0 <$> keys3 in
  ((∃ e s1, e ≠ ENil ∧ is_database_error e = true ∧ calm inside s1 ∧
     visitKeys pre shelf0 keys accept (key 0) true inside = (Return (false, e), s1)) ∨
   (keys3 ≠ [] ∧ ∃ s1, calm inside s1 ∧
     visitKeys pre shelf0 keys accept (key 0) true inside =
       call_pairs accept (until_missing pre shelf0 (data inside) keys3)
         (none_missing pre shelf0 (data inside) keys3) s1)).
Proof.
  split; [exact keys3_readable|].
  exact (redis_visitKeys pre shelf0 tt accept (key 0) true keys3 inside eq_refl
    keys3_readable).
Defined.

Lemma path3 : path (key 5) (key 1) keys3.
Proof. repeat (eapply path_step; [reflexivity..|]). apply path_end. reflexivity. Qed.

Lemma redis_Range_pages_witness :
  path (key 5) (key 1) keys3 ∧
  shelf_Range pre 4 shelf0 (key 1) (key 5) accept false inside =
    visit_pages pre shelf0 accept (key 1) false 0 (pages keys3) inside.
Proof.
  split; [exact path3|].
  exact (proj1 (redis_Range_pages pre shelf0 (key 1) (key 5) accept false keys3 4 inside path3
    (le_n 4))).
Defined.

Lemma redis_Range_uint32_witness :
  shelf_Range pre 4 shelf0 (key 1) (key 5) accept false inside =
    visit_pages pre shelf0 accept (key 1) false 0 (pages (uint_path 1 4)) inside.
Proof.
  exact (proj1 (redis_Range_uint32 pre shelf0 1 5 accept false 4 inside eq_refl eq_refl (le_n 4))).
Defined.

(** Runs. *)
Definition refuses : CallerFn store () := λ _ _, mret Canceled.
Example redis_range_runs :
  (* an interval; one without a key in the shelf; an empty interval *)
  (shelf_Range pre 9 shelf0 (key 1) (key 5) accept false inside).1 = Return ENil ∧
  (shelf_Range pre 9 shelf0 (key 7) (key 9) refuses false inside).1 = Return ENil ∧
  (shelf_Range pre 9 shelf0 (key 1) (key 1) accept false inside).1 =
    Return (DatabaseError WrongArgs) ∧
  (* a gap *)
  (shelf_Range pre 9 shelf0 (key 3) (key 5) refuses true inside).1 = Return ENil ∧
  (shelf_Range pre 9 shelf0 (key 3) (key 5) refuses false inside).1 = Return Canceled.
Proof. repeat split. Qed.

Lemma redis_Range_nil_witness :
  ∃ s', shelf_Range pre 4 shelf0 (key 1) (key 5) accept false inside = (Return ENil, s') ∧
  ∃ ks, path (key 5) (key 1) ks ∧ length ks mod page_size ≠ 0.
Proof.
  eexists. match goal with |- ?A ∧ ?B => assert (HR : A) end.
  { apply pair_of_fst. reflexivity. }
  split; [exact HR|].
  exact (redis_Range_nil pre shelf0 tt (key 1) (key 5) accept 4 inside _ eq_refl HR).
Defined.

(** The context of this shelf is over: the only way a [Range] to [00] from [01] ends. *)
Definition late : shelf (W := ()) :=
  mkShelf #"s" (Some () : option Client) None (mkContext None (λ _, Canceled)).

Lemma redis_Range_unreachable_witness :
  ∃ e s', shelf_Range pre 4 late (BytesKey [x01]) (BytesKey [x00]) accept false inside =
    (Return e, s') ∧
  e ≠ ENil ∧ ∀ ks, ¬ path (BytesKey [x00]) (BytesKey [x01]) ks.
Proof.
  eexists _, _. match goal with |- ?A ∧ ?B => assert (HR : A) end.
  { apply pair_of_fst. reflexivity. }
  split; [exact HR|].
  apply (redis_Range_unreachable pre late tt [x01] [] accept 4 inside _ _ eq_refl
    ltac:(discriminate) HR).
Defined.

Example redis_write_runs :
  (let r := store_WriteShelf config pre 0 Background #"s"
     (λ w, _ ← Put w (key 2) #"2"; _ ← Delete w (key 1); mret ENil) start in
   r.1 = Return ENil ∧
   data r.2 !! toRedisKey pre shelf0 (key 2) = Some #"2" ∧
   data r.2 !! toRedisKey pre shelf0 (key 1) = None) ∧
  (let r := store_WriteShelf config pre 0 Background #"s"
     (λ w, _ ← Put w (key 2) #"2"; mret Canceled) start in
   r.1 = Return Canceled ∧ data r.2 !! toRedisKey pre shelf0 (key 2) = Some #"two").
Proof. repeat split. Qed.

(** ** Scans *)

(** A server that looks at one key per call of SCAN, with a string of another program. *)
Definition scanned : St store () :=
  state_of (mkMem (<[#"other" := #"x"]> strings) ∅ ∅ 0 ∅ false 1).

Lemma scanned_callback (k : Key) (v : bytes) (s : St store ()) :
  data s = data scanned → data (accept k v s).2 = data scanned.
Proof. done. Qed.

Lemma redis_Iterate_visits_witness :
  scan_bound (W := ()) (data scanned) < 6 ∧
  ∃ l r, shelf_Iterate pre 6 shelf0 accept (key 0) scanned = r ∧
    visited pre shelf0 accept (key 0) scanned l r ∧
    from_shelf pre shelf0 (key 0) (data scanned) l ∧
    (r.1 = Return ENil → ∀ rk v,
       glob (W := ()) (scan_pattern pre shelf0) rk = true → data scanned !! rk = Some v →
       ∃ k, fromRedisKey pre shelf0 rk (key 0) = (Some k, ENil) ∧ (k, v) ∈ l) ∧
    (r.1 = Return ENil → plain (key_prefix pre shelf0) → ∀ k v,
       readable pre shelf0 (key 0) k → data scanned !! toRedisKey pre shelf0 k = Some v → (k, v) ∈ l).
Proof.
  assert (HB : scan_bound (W := ()) (data scanned) < 6) by (vm_compute; lia).
  split; [exact HB|].
  exact (redis_Iterate_visits pre shelf0 (tt : Client) accept (key 0) 6 scanned eq_refl
    scanned_callback HB).
Defined.


(** Runs: a shelf with three keys that [Empty] takes to be empty, as the first key the server
    looks at is not one of them; the visit of all its pairs all the same; and a shelf whose
    name is a pattern, which matches the keys of another. *)
Definition starry : shelf (W := ()) := shelf_named #"s*" None.
Example redis_scan_runs :
  (shelf_Empty pre shelf0 scanned).1 = Return (true, ENil) ∧
  (shelf_Iterate pre 6 shelf0 accept (key 0) scanned).1 = Return ENil ∧
  (shelf_Iterate pre 6 shelf0 refuses (key 0) scanned).1 = Return Canceled ∧
  (shelf_Empty pre starry start).1 = Return (false, ENil) ∧
  is_nil (match (shelf_Iterate pre 6 starry accept (key 0) start).1 with
          | Return e => e | _ => ENil end) = false.
Proof. vm_compute. repeat split. Qed.

(** ** The contract, on an empty server *)

Definition empty_store : St store () := state_of empty_db.
Lemma empty_store_open : is_open empty_store.
Proof. split; [reflexivity|]. by exists (). Qed.
Lemma empty_store_represents n : represents (W := ()) pre (key 0) n (data empty_store) [].
Proof. intros k _. reflexivity. Qed.
Lemma redis_empty_store_holds : redis_holding pre (key 0) empty_store (λ _, []).
Proof. split; [exact empty_store_open|]. intros n. split; [constructor|apply empty_store_represents]. Qed.
#[local] Instance store_conforms :
  Conforms (as_KVStore config pre 9) Background (redis_permits (key 0)) (redis_holding pre (key 0))
    redis_open_fails redis_write_fails redis_read_fails true true false :=
  redis_Conforms config pre (key 0) redis_forward 9 Background redis_background_sticky.

Lemma create_reads_first : reads_first (key 0) Scenario.create.
Proof. split; [done|]. intros [v e]. cbn. by destruct (is_nil e). Qed.
Lemma move_reads_first : program_reads_first (key 0) Scenario.move.
Proof.
  split; [done|]. intros [v e]. cbn. destruct (is_nil e); [|done]. split; [done|].
  intros e'. by destruct (is_nil e').
Qed.
Lemma scenario_permitted : Forall (redis_permits (key 0)) Scenario.calls.
Proof.
  unfold Scenario.calls. rewrite !Forall_cons.
  split_and!; first [exact create_reads_first|exact move_reads_first|by constructor|by split_and!
    |split; [done|by intros]].
Qed.

Example redis_scenario :
  (run_history (as_KVStore config pre 9) Background Scenario.calls empty_store).1 =
    Return Scenario.results.
Proof. vm_compute. reflexivity. Qed.

Lemma redis_WriteShelf_atomic_witness :
  reads_first (key 0) Scenario.create ∧
  ∃ e s', store_WriteShelf config pre 9 Background #"s" (λ w, run_client w Scenario.create)
      empty_store = (Return e, s') ∧ is_open s' ∧
    ((e ≠ ENil ∧ data s' = data empty_store) ∨
     (∃ it', client_spec redis_write_fails redis_read_fails None Scenario.create [] ENil it' ∧ sorted it' ∧
        represents (W := ()) pre (key 0) #"s" (data s') it' ∧
        (∀ rk, outside (W := ()) pre (key 0) #"s" rk → data s' !! rk = data empty_store !! rk) ∧
        (e = ENil ∨ ∃ err, err ≠ ENil ∧ e = WrapError ErrCommitFailed err))).
Proof.
  split; [exact create_reads_first|].
  exact (redis_WriteShelf_atomic config pre (key 0) redis_forward 9 Background #"s" Scenario.create []
    empty_store redis_background_sticky empty_store_open create_reads_first sorted_nil
    (empty_store_represents #"s")).
Defined.
