(* ===== verification/RedisConc.v ===== *)
(** Several goroutines on one Redis store: [Write], with and without the distributed write
    lock, [Read], [WriteShelf], [ReadShelf] and [Close] cut into phases that other goroutines may come
    between, and the proof that a goroutine left alone runs exactly the code of Redis.v. *)
From S2P Require Import Prelude Errors Keys Go Store Lock Timeout Client Program Interleave Redis.

Section conc.
Context {Logger W : Type} `{RL : RedisLib W} `{!Env W, !CallScheduler W}.
Context (cfg : Config Logger) (prefix : bytes) (fuel : nat).
Abbreviation M := (M store W).

(** What a goroutine does: a call of [Write], with the option [WithWriteLock] or without, whose
    callback runs a program on any shelves; of [WriteShelf] with a program on one; of
    [ReadShelf] with a query; of [Read] with an inquiry on any shelves; or of [Close]. *)
Inductive task :=
  | T_write (lock : bool) (ctx : Context W) (pr : program)
  | T_shelf (ctx : Context W) (name : bytes) (c : Client.client)
  | T_read (ctx : Context W) (name : bytes) (q : query)
  | T_inquire (ctx : Context W) (i : inquiry)
  | T_close (ctx : Context W).

(** Where it is: before the method looks whether the store is open, or, for [Close], before it
    takes the mutex; before [doTX] looks; before the distributed mutex is made; before it is
    locked; before [TxPipeline]; before the callback begins; in the callback of [Write], or of
    [WriteShelf]; after it; before [Discard]; before [Exec]; before [unlock], with the result, or [None] when the
    result is to be the error of the context; before the callback of a reader begins; in it; with the mutex of the store taken by [Close]; returned. *)
Inductive phase :=
  | Ph_start
  | Ph_check
  | Ph_mutex
  | Ph_acquire (ctx lockCtx : Context W) (txMutex : Mutex)
  | Ph_pipeline (ctx : Context W) (txMutex : option Mutex)
  | Ph_open (ctx : Context W) (txMutex : option Mutex) (pl : Pipeliner)
  | Ph_transact (ctx : Context W) (txMutex : option Mutex) (pl : Pipeliner)
      (t : tx (W := W)) (ws : gmap bytes (Writer store W)) (pr : program)
  | Ph_write (ctx : Context W) (txMutex : option Mutex) (pl : Pipeliner) (w : Writer store W)
      (c : Client.client)
  | Ph_finish (ctx : Context W) (txMutex : option Mutex) (pl : Pipeliner) (appError : error)
  | Ph_discard (ctx : Context W) (txMutex : option Mutex) (pl : Pipeliner)
      (result : option error)
  | Ph_exec (ctx : Context W) (txMutex : option Mutex) (pl : Pipeliner)
  | Ph_unlock (ctx : Context W) (txMutex : option Mutex) (result : option error)
  | Ph_reader
  | Ph_read (r : Reader store W) (q : query)
  | Ph_inquire (t : tx (W := W)) (rs : gmap bytes (Reader store W)) (i : inquiry)
  | Ph_closing
  | Ph_done (result : error).

Definition task_ctx (p : task) : Context W :=
  match p with
  | T_write _ ctx _ | T_shelf ctx _ _ | T_read ctx _ _ | T_inquire ctx _ | T_close ctx => ctx
  end.
Definition task_lock (p : task) : bool :=
  match p with T_write lock _ _ => lock | _ => false end.
(** The options of the call. *)
Definition task_opts (p : task) : list (TxOption store W) :=
  if task_lock p then [WithWriteLock] else [].
Definition task_program (p : task) : program :=
  match p with T_write _ _ pr => pr | _ => p_return ENil end.
Definition task_inquiry (p : task) : inquiry :=
  match p with T_inquire _ i => i | _ => i_return ENil end.

(** The callback begins, with the client [c] of the store. *)
Definition begin_write (p : task) (ctx : Context W) (txMutex : option Mutex) (pl : Pipeliner)
    (c : option Client) : phase :=
  match p with
  | T_shelf _ name cl =>
      Ph_write ctx txMutex pl (as_Writer prefix fuel (getShelf ctx name (Some pl) c)) cl
  | _ => Ph_transact ctx txMutex pl (mkTx c (Some pl) ctx) ∅ (task_program p)
  end.
Definition begin_read (p : task) (c : option Client) : phase :=
  match p with
  | T_read ctx name q => Ph_read (as_Reader prefix fuel (getShelf ctx name None c)) q
  | _ => Ph_inquire (mkTx c None (task_ctx p)) ∅ (task_inquiry p)
  end.

(** [store_Close] with the mutex taken. *)
Definition close_store (ctx : Context W) : M error :=
  defer Unlock
    (s ← get_back;
     match client s with
     | None => mret ENil
     | Some c =>
         err ← CallWithTimeout ctx (redis (client_Close c)) (mret ());
         _ ← set_client None;
         if negb (is_nil err) then mret (DatabaseError err) else mret ENil
     end).

(** What comes when the store is open, or not. *)
Definition open_phase (err : error) (next : phase) : phase :=
  if negb (is_nil err) then Ph_done err else next.

(** The next phase of a goroutine. *)
Definition thread_step (p : task) (ph : phase) : M phase :=
  match ph with
  | Ph_start =>
      match p with
      | T_close _ => _ ← Lock; mret Ph_closing
      | T_read _ _ _ | T_inquire _ _ => err ← checkOpen; mret (open_phase err Ph_reader)
      | _ => err ← checkOpen; mret (open_phase err Ph_check)
      end
  | Ph_check => err ← checkOpen; mret (open_phase err Ph_mutex)
  | Ph_mutex =>
      ctx ← tx_context (task_ctx p);
      if task_lock p then
        w ← get_world;
        txMutex ← redis (rs_NewMutex (#"lock_" ++ prefix)
          (default 0 (Deadline ctx) + lockExpiryOffset - now w)%Z);
        mret (Ph_acquire ctx (WithTimeout ctx (now w) (LockAcquireTimeout cfg)) txMutex)
      else mret (Ph_pipeline ctx None)
  | Ph_acquire ctx lockCtx txMutex =>
      err ← redis_ctx (mutex_LockContext txMutex lockCtx);
      mret (if negb (is_nil err) then
              Ph_done (Errorf #"unable to obtain Redis transaction-level write lock"
                         (DatabaseError err))
            else Ph_pipeline ctx (Some txMutex))
  | Ph_pipeline ctx txMutex =>
      s ← get_back;
      c ← must (client s);
      pl ← redis (client_TxPipeline c);
      mret (Ph_open ctx txMutex pl)
  | Ph_open ctx txMutex pl =>
      s ← get_back; mret (begin_write p ctx txMutex pl (client s))
  | Ph_transact ctx txMutex pl t ws pr =>
      x ← program_step (as_WriteTx prefix fuel t) ws pr;
      mret (match x with
            | inl e => Ph_finish ctx txMutex pl e
            | inr (ws', pr') => Ph_transact ctx txMutex pl t ws' pr'
            end)
  | Ph_write ctx txMutex pl w c =>
      x ← client_step w c;
      mret (match x with
            | inl e => Ph_finish ctx txMutex pl e
            | inr c' => Ph_write ctx txMutex pl w c'
            end)
  | Ph_finish ctx txMutex pl appError =>
      if negb (is_nil appError) then mret (Ph_discard ctx txMutex pl (Some appError))
      else
        e ← ctx_Err ctx;
        mret (if negb (is_nil e) then Ph_discard ctx txMutex pl None else Ph_exec ctx txMutex pl)
  | Ph_discard ctx txMutex pl r =>
      _ ← redis (pl_Discard pl); mret (Ph_unlock ctx txMutex r)
  | Ph_exec ctx txMutex pl =>
      err ← redis_ctx (pl_Exec pl ctx);
      mret (Ph_unlock ctx txMutex
        (Some (if negb (is_nil err) then WrapError ErrCommitFailed err else ENil)))
  | Ph_unlock ctx txMutex r =>
      _ ← unlock ctx txMutex;
      match r with
      | Some e => mret (Ph_done e)
      | None => e ← ctx_Err ctx; mret (Ph_done (DatabaseError e))
      end
  | Ph_reader =>
      s ← get_back; mret (begin_read p (client s))
  | Ph_read r q =>
      x ← query_step r q;
      mret (match x with inl e => Ph_done e | inr q' => Ph_read r q' end)
  | Ph_inquire t rs i =>
      x ← inquiry_step (as_ReadTx prefix fuel t) rs i;
      mret (match x with inl e => Ph_done e | inr (rs', i') => Ph_inquire t rs' i' end)
  | Ph_closing => e ← close_store (task_ctx p); mret (Ph_done e)
  | Ph_done e => mret (Ph_done e)
  end.

(** The calls of the goroutines. *)
Definition task_call (p : task) : M error :=
  match p with
  | T_write _ ctx pr =>
      store_Write cfg prefix fuel ctx (λ t, run_program t ∅ pr) (task_opts p)
  | T_shelf ctx name c => store_WriteShelf cfg prefix fuel ctx name (λ w, run_client w c)
  | T_read ctx name q => store_ReadShelf prefix fuel ctx name (λ r, run_query r q)
  | T_inquire ctx i => store_Read prefix fuel ctx (λ t, run_inquiry t ∅ i)
  | T_close ctx => store_Close ctx
  end.

(** ** A goroutine on its own *)

Abbreviation runs_to p := (runs_to (thread_step p)).
Abbreviation ended m := (e ← m; mret (Ph_done e)).

Lemma redis_runs_unlock p ctx m r s :
  runs_to p (Ph_unlock ctx m r) s
    (ended (_ ← unlock ctx m;
           match r with Some e => mret e | None => e ← ctx_Err ctx; mret (DatabaseError e) end) s).
Proof.
  eapply runs_eq; [symmetry; apply bind_assoc|].
  destruct r as [e|].
  - apply (runs_step (thread_step p) _ s _ (λ _, Ph_done e)); [done|].
    intros [] s' _. by apply runs_done.
  - apply runs_next; cbn [thread_step]; unfold mbind, M_bind;
      destruct (unlock ctx m s) as [[[]| | |] s1]; try done; cbn.
    + intros ph' s' [= <- <-]. by apply runs_done.
    + intros o s' [= <- <-] Ho. by destruct (Ho (Ph_done (DatabaseError (Err ctx (tick (world s1)))))).
    + by intros o s' [= <- <-].
    + by intros o s' [= <- <-].
    + by intros o s' [= <- <-].
Qed.

Lemma runs_discard p ctx m pl r s :
  runs_to p (Ph_discard ctx m pl r) s
    (ended (_ ← redis (pl_Discard pl); _ ← unlock ctx m;
           match r with Some e => mret e | None => e ← ctx_Err ctx; mret (DatabaseError e) end) s).
Proof.
  eapply runs_eq; [symmetry; apply bind_assoc|].
  apply (runs_step (thread_step p) _ s _ (λ _, Ph_unlock ctx m r)); [done|].
  intros [] s' _. apply redis_runs_unlock.
Qed.

Lemma runs_exec p ctx m pl s :
  runs_to p (Ph_exec ctx m pl) s
    (ended (err ← redis_ctx (pl_Exec pl ctx);
           _ ← unlock ctx m;
           mret (if negb (is_nil err) then WrapError ErrCommitFailed err else ENil)) s).
Proof.
  eapply runs_eq; [symmetry; apply bind_assoc|].
  apply (runs_step (thread_step p) _ s _ (λ err, Ph_unlock ctx m
    (Some (if negb (is_nil err) then WrapError ErrCommitFailed err else ENil)))); [done|].
  intros err s' _. apply redis_runs_unlock.
Qed.

(** The options of these calls have no functions. *)
Lemma task_opts_silent p (s : St store W) :
  OnRollbackOption_Invoke (task_opts p) s = (Return (), s) ∧
  AfterCommitOption_Invoke (task_opts p) s = (Return (), s).
Proof. unfold task_opts. by destruct (task_lock p). Qed.

Lemma task_opts_lock p : WriteLockOption_Enabled (task_opts p) = task_lock p.
Proof. unfold task_opts. by destruct (task_lock p). Qed.

Lemma redis_finishTX_split p ctx m pl e s :
  finishTX ctx pl m (task_opts p) e s =
  (if negb (is_nil e) then _ ← redis (pl_Discard pl); _ ← unlock ctx m; mret e
   else
     x ← ctx_Err ctx;
     if negb (is_nil x) then
       _ ← redis (pl_Discard pl); _ ← unlock ctx m; x ← ctx_Err ctx; mret (DatabaseError x)
     else
       err ← redis_ctx (pl_Exec pl ctx);
       _ ← unlock ctx m;
       mret (if negb (is_nil err) then WrapError ErrCommitFailed err else ENil)) s.
Proof.
  assert (HR : ∀ A (k : M A) s, (_ ← OnRollbackOption_Invoke (task_opts p); k) s = k s).
  { intros A k s0. by rewrite (bind_Return _ _ _ _ _ (proj1 (task_opts_silent p s0))). }
  assert (HA : ∀ A (k : M A) s, (_ ← AfterCommitOption_Invoke (task_opts p); k) s = k s).
  { intros A k s0. by rewrite (bind_Return _ _ _ _ _ (proj2 (task_opts_silent p s0))). }
  unfold finishTX. destruct (negb (is_nil e)).
  - apply bind_ext. intros [] s1. apply bind_ext. intros [] s2. apply HR.
  - apply bind_ext. intros x s1. destruct (negb (is_nil x)).
    + apply bind_ext. intros [] s2. apply bind_ext. intros [] s3. apply HR.
    + apply bind_ext. intros err s2. destruct (negb (is_nil err)); apply bind_ext; intros [] s3;
        [apply HR|apply HA].
Qed.

Lemma redis_runs_finish p ctx m pl e s :
  runs_to p (Ph_finish ctx m pl e) s (ended (finishTX ctx pl m (task_opts p) e) s).
Proof.
  eapply runs_eq; [unfold mbind at 1, M_bind at 1; rewrite redis_finishTX_split; reflexivity|].
  destruct (negb (is_nil e)) eqn:En.
  - apply runs_next; cbn [thread_step]; rewrite En; [|intros o s' [= <- <-] Ho; by destruct (Ho _ eq_refl)].
    intros ph' s' [= <- <-]. apply runs_discard.
  - eapply runs_eq; [symmetry; apply bind_assoc|].
    apply (runs_step (thread_step p) _ s (ctx_Err ctx)
      (λ x, if negb (is_nil x) then Ph_discard ctx m pl None else Ph_exec ctx m pl));
      [cbn [thread_step]; by rewrite En|].
    intros x s' _. destruct (negb (is_nil x)); [apply runs_discard|apply runs_exec].
Qed.

Abbreviation after_app p ctx m pl := (λ e, ended (finishTX ctx pl m (task_opts p) e)).

Lemma redis_runs_write p ctx m pl w c s :
  runs_to p (Ph_write ctx m pl w c) s ((run_client w c ≫= after_app p ctx m pl) s).
Proof.
  assert (HS : ∀ c s, (∀ x s', client_step w c s = (Return (inr x), s') →
      runs_to p (Ph_write ctx m pl w x) s' ((run_client w x ≫= after_app p ctx m pl) s')) →
    runs_to p (Ph_write ctx m pl w c) s ((run_client w c ≫= after_app p ctx m pl) s)).
  { intros c' s0 IH.
    eapply runs_eq; [unfold mbind at 1, M_bind at 1; rewrite run_client_step; symmetry;
      exact (bind_assoc (client_step w c') _ (after_app p ctx m pl) s0)|].
    apply (runs_step (thread_step p) _ s0 _ (λ x, match x with
      | inl e => Ph_finish ctx m pl e | inr c' => Ph_write ctx m pl w c' end)); [done|].
    intros [e|x] s' E; [apply redis_runs_finish|by apply IH]. }
  revert s. induction c as [e|k v next IH|k next IH|k next IH|next IH]; intros s; apply HS;
    intros x s' E; cbn in E; [done|..]; apply bind_inv in E as (a & s1 & _ & [= <- _]); apply IH.
Qed.

Lemma redis_runs_read p r q s :
  runs_to p (Ph_read r q) s (ended (run_query r q) s).
Proof.
  assert (HS : ∀ q s, (∀ x s', query_step r q s = (Return (inr x), s') →
      runs_to p (Ph_read r x) s' (ended (run_query r x) s')) →
    runs_to p (Ph_read r q) s (ended (run_query r q) s)).
  { intros q' s0 IH.
    eapply runs_eq; [unfold mbind at 1, M_bind at 1; rewrite run_query_step; symmetry;
      exact (bind_assoc (query_step r q') _ (λ e, mret (Ph_done e)) s0)|].
    apply (runs_step (thread_step p) _ s0 _ (λ x, match x with
      | inl e => Ph_done e | inr q' => Ph_read r q' end)); [done|].
    intros [e|x] s' E; [by apply runs_done|by apply IH]. }
  revert s. induction q as [e|k next IH|next IH]; intros s; apply HS;
    intros x s' E; cbn in E; [done|..]; apply bind_inv in E as (a & s1 & _ & [= <- _]); apply IH.
Qed.

Lemma redis_runs_transact p ctx m pl t ws pr s :
  runs_to p (Ph_transact ctx m pl t ws pr) s
    ((run_program (as_WriteTx prefix fuel t) ws pr ≫= after_app p ctx m pl) s).
Proof.
  revert ws pr s. apply (program_step_ind (as_WriteTx prefix fuel t)
    (λ ws pr, ∀ s, runs_to p (Ph_transact ctx m pl t ws pr) s
      ((run_program (as_WriteTx prefix fuel t) ws pr ≫= after_app p ctx m pl) s))).
  intros ws pr IH s.
  eapply runs_eq; [unfold mbind at 1, M_bind at 1; rewrite run_program_step; symmetry;
    exact (bind_assoc (program_step _ ws pr) _ (after_app p ctx m pl) s)|].
  apply (runs_step (thread_step p) _ s _ (λ x, match x with
    | inl e => Ph_finish ctx m pl e | inr (ws', pr') => Ph_transact ctx m pl t ws' pr' end)); [done|].
  intros [e|[ws' pr']] s' E; [apply redis_runs_finish|by eapply IH].
Qed.

Lemma redis_runs_inquire p t rs i s :
  runs_to p (Ph_inquire t rs i) s (ended (run_inquiry (as_ReadTx prefix fuel t) rs i) s).
Proof.
  revert rs i s. apply (inquiry_step_ind (as_ReadTx prefix fuel t)
    (λ rs i, ∀ s, runs_to p (Ph_inquire t rs i) s
      (ended (run_inquiry (as_ReadTx prefix fuel t) rs i) s))).
  intros rs i IH s.
  eapply runs_eq; [unfold mbind at 1, M_bind at 1; rewrite run_inquiry_step; symmetry;
    exact (bind_assoc (inquiry_step _ rs i) _ (λ e, mret (Ph_done e)) s)|].
  apply (runs_step (thread_step p) _ s _ (λ x, match x with
    | inl e => Ph_done e | inr (rs', i') => Ph_inquire t rs' i' end)); [done|].
  intros [e|[rs' i']] s' E; [by apply runs_done|by eapply IH].
Qed.

(** The callback of a writer, and of a reader. *)
Definition writer_callback p (ctx : Context W) (pl : Pipeliner) : M error :=
  s ← get_back;
  match p with
  | T_shelf _ name c =>
      run_client (as_Writer prefix fuel (getShelf ctx name (Some pl) (client s))) c
  | _ => run_program (as_WriteTx prefix fuel (mkTx (client s) (Some pl) ctx)) ∅ (task_program p)
  end.
Definition reader_callback p : M error :=
  s ← get_back;
  match p with
  | T_read ctx name q => run_query (as_Reader prefix fuel (getShelf ctx name None (client s))) q
  | _ => run_inquiry (as_ReadTx prefix fuel (mkTx (client s) None (task_ctx p))) ∅ (task_inquiry p)
  end.

Lemma runs_open p ctx m pl s :
  runs_to p (Ph_open ctx m pl) s ((writer_callback p ctx pl ≫= after_app p ctx m pl) s).
Proof.
  eapply runs_eq; [symmetry; exact (bind_assoc get_back _ (after_app p ctx m pl) s)|].
  apply (runs_step (thread_step p) _ s get_back (λ s, begin_write p ctx m pl (client s))); [done|].
  intros s1 s' _. destruct p; first [apply redis_runs_write|apply redis_runs_transact].
Qed.

Lemma runs_pipeline p ctx m s :
  runs_to p (Ph_pipeline ctx m) s
    ((s ← get_back; c ← must (client s); pl ← redis (client_TxPipeline c);
      writer_callback p ctx pl ≫= after_app p ctx m pl) s).
Proof.
  set (open := s ← get_back; c ← must (client s); redis (client_TxPipeline c)).
  apply runs_eq with ((open ≫= λ pl, writer_callback p ctx pl ≫= after_app p ctx m pl) s).
  { unfold open. rewrite bind_assoc. apply bind_ext. intros s1 s2. by rewrite bind_assoc. }
  apply (runs_step (thread_step p) _ s open (Ph_open ctx m)).
  { unfold open. rewrite bind_assoc. apply bind_ext. intros s1 s2. by rewrite bind_assoc. }
  intros pl s' _. apply runs_open.
Qed.

(** The error of a lock that was not obtained. *)
Abbreviation lock_error err :=
  (Errorf #"unable to obtain Redis transaction-level write lock" (DatabaseError err)).
Abbreviation run_pipeline p ctx m :=
  (s ← get_back; c ← must (client s); pl ← redis (client_TxPipeline c);
   writer_callback p ctx pl ≫= after_app p ctx m pl).

Lemma runs_acquire p ctx lockCtx m s :
  runs_to p (Ph_acquire ctx lockCtx m) s
    ((err ← redis_ctx (mutex_LockContext m lockCtx);
      if negb (is_nil err) then mret (Ph_done (lock_error err)) else run_pipeline p ctx (Some m)) s).
Proof.
  apply (runs_step (thread_step p) _ s _ (λ err, if negb (is_nil err) then
    Ph_done (lock_error err) else Ph_pipeline ctx (Some m))); [done|].
  intros err s' _. destruct (negb (is_nil err)); [by apply runs_done|apply runs_pipeline].
Qed.

(** [doTX] once it is known that the store is open. *)
Definition locked_tx p : M error :=
  ctx ← tx_context (task_ctx p);
  r ← acquire_lock cfg prefix ctx (task_opts p);
  let '(txMutex, err) := r in
  if negb (is_nil err) then mret (lock_error err)
  else
    s ← get_back;
    c ← must (client s);
    pl ← redis (client_TxPipeline c);
    appError ← writer_callback p ctx pl;
    finishTX ctx pl txMutex (task_opts p) appError.

Lemma run_pipeline_eq p ctx m s :
  ended (s ← get_back; c ← must (client s); pl ← redis (client_TxPipeline c);
         appError ← writer_callback p ctx pl; finishTX ctx pl m (task_opts p) appError) s =
  run_pipeline p ctx m s.
Proof.
  rewrite bind_assoc. apply bind_ext. intros s1 s2. rewrite bind_assoc. apply bind_ext.
  intros c s3. rewrite bind_assoc. apply bind_ext. intros pl s4. apply bind_assoc.
Qed.

Lemma runs_mutex p s : runs_to p Ph_mutex s (ended (locked_tx p) s).
Proof.
  assert (∃ ctx, tx_context (task_ctx p) s = (Return ctx, s)) as [ctx Ec]
    by (unfold tx_context; destruct (Deadline _); eauto).
  unfold locked_tx. rewrite bind_assoc, (bind_Return _ _ _ _ _ Ec).
  unfold acquire_lock. rewrite task_opts_lock. destruct (task_lock p) eqn:El.
  -     set (new := w ← get_world;
      m ← redis (rs_NewMutex (#"lock_" ++ prefix)
        (default 0 (Deadline ctx) + lockExpiryOffset - now w)%Z);
      mret (WithTimeout ctx (now w) (LockAcquireTimeout cfg), m)).
    eapply runs_eq; [|apply (runs_step (thread_step p) Ph_mutex s new
      (λ x, Ph_acquire ctx x.1 x.2) (λ x, err ← redis_ctx (mutex_LockContext x.2 x.1);
        if negb (is_nil err) then mret (Ph_done (lock_error err)) else run_pipeline p ctx (Some x.2)))].
    + unfold new. cbv beta iota zeta. rewrite !bind_assoc. apply bind_ext. intros w s1.
      rewrite !bind_assoc. apply bind_ext. intros m s2. rewrite !bind_assoc, bind_ret. cbn [fst snd].
      apply bind_ext. intros err s3. rewrite bind_ret. destruct (negb (is_nil err)); [done|].
      symmetry. apply run_pipeline_eq.
    + cbn [thread_step]. rewrite (bind_Return _ _ _ _ _ Ec), El. unfold new.
      rewrite !bind_assoc. apply bind_ext. intros w s1. rewrite !bind_assoc. by apply bind_ext.
    + intros x s' _. apply runs_acquire.
  - rewrite bind_assoc, bind_ret.
    cbn [is_nil negb].
    eapply runs_one; [cbn [thread_step]; by rewrite (bind_Return _ _ _ _ _ Ec), El|].
    eapply runs_eq; [|apply runs_pipeline].
    symmetry. apply run_pipeline_eq.
Qed.

(** ** The calls *)

(** [checkOpen], and what follows if the store is open. *)
Lemma runs_checkOpen p ph next (k : M error) s :
  (∀ s, thread_step p ph s = (err ← checkOpen; mret (open_phase err next)) s) →
  (∀ s', runs_to p next s' (ended k s')) →
  runs_to p ph s (ended (err ← checkOpen; if negb (is_nil err) then mret err else k) s).
Proof.
  intros Hp Hk. eapply runs_eq; [symmetry; apply bind_assoc|].
  apply (runs_step (thread_step p) ph s _ (λ err, open_phase err next)); [apply Hp|].
  intros err s' _. unfold open_phase. destruct (negb (is_nil err)); [by apply runs_done|apply Hk].
Qed.

Lemma redis_doTX_split p fn s :
  (∀ ctx pl s, fn ctx pl s = writer_callback p ctx pl s) →
  doTX cfg prefix (task_ctx p) fn (task_opts p) s =
    (err ← checkOpen; if negb (is_nil err) then mret err else locked_tx p) s.
Proof.
  intros Hfn. unfold doTX, locked_tx. apply bind_ext. intros err s1.
  destruct (negb (is_nil err)); [done|]. apply bind_ext. intros ctx s2. apply bind_ext.
  intros [m err'] s3. destruct (negb (is_nil err')); [done|]. apply bind_ext. intros b s4.
  apply bind_ext. intros c s5. apply bind_ext. intros pl s6. unfold mbind, M_bind. by rewrite Hfn.
Qed.

Lemma redis_runs_writer p fn s :
  (∀ s, thread_step p Ph_start s = (err ← checkOpen; mret (open_phase err Ph_check)) s) →
  (∀ ctx pl s, fn ctx pl s = writer_callback p ctx pl s) →
  runs_to p Ph_start s
    (ended (err ← checkOpen;
            if negb (is_nil err) then mret err
            else doTX cfg prefix (task_ctx p) fn (task_opts p)) s).
Proof.
  intros Hp Hfn. apply (runs_checkOpen p Ph_start Ph_check); [done|]. intros s'.
  eapply runs_eq; [unfold mbind at 1, M_bind at 1; rewrite redis_doTX_split by done; reflexivity|].
  apply (runs_checkOpen p Ph_check Ph_mutex); [done|]. apply runs_mutex.
Qed.

Lemma redis_runs_reader p s : runs_to p Ph_reader s (ended (reader_callback p) s).
Proof.
  eapply runs_eq; [symmetry; apply bind_assoc|].
  apply (runs_step (thread_step p) _ s get_back (λ s, begin_read p (client s))); [done|].
  intros s1 s' _. destruct p; first [apply redis_runs_read|apply redis_runs_inquire].
Qed.

(** The phases are the code: a goroutine that is left alone comes, from some number of
    phases on, to exactly the outcome and state of its call. *)
Lemma redis_phases_call p s : runs_to p Ph_start s (ended (task_call p) s).
Proof.
  destruct p as [lock ctx pr|ctx name c|ctx name q|ctx i|ctx].
  - by apply (redis_runs_writer (T_write lock ctx pr)).
  - by apply (redis_runs_writer (T_shelf ctx name c)).
  - apply (runs_checkOpen (T_read ctx name q) Ph_start Ph_reader); [done|]. intros s'.
    apply (redis_runs_reader (T_read ctx name q)).
  - apply (runs_checkOpen (T_inquire ctx i) Ph_start Ph_reader); [done|]. intros s'.
    apply (redis_runs_reader (T_inquire ctx i)).
  - eapply runs_eq; [symmetry; apply bind_assoc|].
    apply (runs_step (thread_step (T_close ctx)) _ s Lock (λ _, Ph_closing)); [done|].
    intros [] s' _. apply (runs_step (thread_step (T_close ctx)) _ s' (close_store ctx) Ph_done); [done|].
    intros e s1 _. by apply runs_done.
Qed.
End conc.
