(* ===== verification/RedisFrame.v ===== *)
(** What the operations of redis7/redis.go leave alone while other goroutines use the store,
    and the writes a program has buffered as a list. *)
From S2P Require Import Prelude Errors Keys Go Store Lock Timeout Shelf Client Program.
From S2P Require Import Redis RedisSpec RedisConcSpec RedisKeys RedisTx RedisClient RedisProgram RedisConc.

(** ** Buffered writes *)

(** Writes of a program, in order: a shelf, a key, and the value put or [None] for a
    deletion. *)
Record op := mkOp { op_shelf : bytes; op_key : Key; op_value : option bytes }.

Definition apply_op (σ : shelves) (o : op) : shelves :=
  set_shelf (op_shelf o)
    (match op_value o with
     | Some v => items_insert (Bytes (op_key o)) v (σ (op_shelf o))
     | None => items_delete (Bytes (op_key o)) (σ (op_shelf o))
     end) σ.
Definition apply_ops (l : list op) (σ : shelves) : shelves := foldl apply_op σ l.

Lemma apply_ops_snoc l o σ : apply_ops (l ++ [o]) σ = apply_op (apply_ops l σ) o.
Proof. unfold apply_ops. by rewrite foldl_app. Qed.

Section frame.
Context {W : Type} `{LS : RedisConcSpec W} `{!Env W, !CallScheduler W}.
Context (prefix : bytes) (keyType : Key).
Implicit Types (s : St store W) (sh : shelf (W := W)) (σ : shelves) (d : gmap bytes bytes).
Abbreviation M := (M store W).
Abbreviation redis_name := (redis_name (W := W) prefix).
Abbreviation holds := (holds (W := W) prefix keyType).

(** The command that buffers a write. *)
Definition cmd_of (o : op) : cmd :=
  match op_value o with
  | Some v => CmdSet (redis_name (op_shelf o) (op_key o)) v
  | None => CmdDel (redis_name (op_shelf o) (op_key o))
  end.

#[global] Instance holds_proper d : Proper (same_on (λ _, True) ==> iff) (holds d).
Proof.
  assert (HE : ∀ σ σ', same_on (λ _, True) σ σ' → holds d σ → holds d σ').
  { intros σ σ' E H n. rewrite <-(E n I). apply H. }
  intros σ σ' E. by split; apply HE.
Qed.

Lemma holds_ops l d σ :
  Forall (λ o, typed keyType (op_key o)) l → holds d σ →
  holds (apply_cmds (cmd_of <$> l) d) (apply_ops l σ).
Proof.
  intros Hl Hd. induction l as [|[n k o] l IH] using rev_ind; [done|].
  rewrite Forall_app, Forall_singleton in Hl. destruct Hl as [Hl Hk]. specialize (IH Hl).
  rewrite fmap_app. cbn [fmap list_fmap]. rewrite apply_cmds_snoc, apply_ops_snoc.
  destruct o as [v|]; cbn [cmd_of op_shelf op_key op_value apply_cmd]; [by apply holds_insert|by apply holds_delete].
Qed.

(** ** Frames *)

(** The data, the locks and the pipelines other than [own] have not been touched. *)
Definition quiet (own : option Pipeliner) s s' : Prop :=
  (now (world s) ≤ now (world s'))%Z ∧ data s' = data s ∧ leaves own (db (back s)) (db (back s')).
#[global] Instance quiet_preorder own : PreOrder (quiet own).
Proof.
  split; [by intros s|]. intros s1 s2 s3 (H1 & H2 & H3) (H4 & H5 & H6).
  split_and!; [lia|congruence|by etrans].
Qed.

(** The mutex of the store is free, or taken by [Close]. *)
Definition mux_ok s : Prop := mux (back s) = unlocked ∨ mux (back s) = mkRWMutex true 0.

Hypothesis forward : clock_forward (W := W).

Lemma quiet_tick own s : quiet own s (mkSt (back s) (tick (world s))).
Proof. split_and!; [apply forward|done|reflexivity]. Qed.

Lemma quiet_call own s (d : DB) :
  server d = data s → leaves own (db (back s)) d → quiet own s (with_db (ticked s) d).
Proof. intros. split_and!; [apply forward|done|done]. Qed.

Lemma checkOpen_cases s :
  mux_ok s →
  (checkOpen s = (Return (match client (back s) with None => ErrStoreIsClosed | Some _ => ENil end), s)) ∨
  (checkOpen s = (Blocked, s)).
Proof.
  intros [Hm|Hm]; [left; by apply checkOpen_run|right].
  unfold checkOpen, RLock, on_mux, mbind, M_bind. cbn. by rewrite Hm.
Qed.

(** A write to the own pipeline [pl]. *)
Definition buffers pl s (q : list cmd) : Prop :=
  pipe_made (db (back s)) pl ∧ queue (db (back s)) pl = Some q.

Definition own_write pl s (q : list cmd) (c : cmd) (e : error) s' : Prop :=
  quiet (Some pl) s s' ∧ mux (back s') = mux (back s) ∧
  buffers pl s' (if is_nil e then q ++ [c] else q) ∧
  (e ≠ ENil → is_database_error e = true).

Lemma pl_own_write pl s q c (f : World W → DB → error * DB) e s' :
  buffers pl s q →
  (∀ w, let '(e, d') := f w (db (back s)) in
    server d' = data s ∧ queue d' pl = Some (if is_nil e then q ++ [c] else q)) →
  (∀ w, leaves (Some pl) (db (back s)) (f w (db (back s))).2) →
  (err ← redis_ctx f; if negb (is_nil err) then mret (DatabaseError err) else mret ENil) s =
    (Return e, s') →
  own_write pl s q c e s'.
Proof.
  intros [Hm Hq] Hf Hl. rewrite (bind_Return _ _ _ _ _ (redis_ctx_run f s)).
  specialize (Hf (tick (world s))). specialize (Hl (tick (world s))).
  destruct (f (tick (world s)) (db (back s))) as [e0 d'] eqn:E. destruct Hf as [Hd Hq'].
  cbn [fst snd] in *. assert (Hm' : pipe_made d' pl) by (by apply Hl).
  destruct (is_nil e0) eqn:En; cbn [negb]; intros [= <- <-];
    (split_and!; [by apply quiet_call|done| |]).
  - by split.
  - done.
  - rewrite (proj2 (is_nil_false _) (DatabaseError_not_nil e0)). by split.
  - intros _. apply DatabaseError_database.
Qed.

Lemma Put_own sh pl k v s q e s' :
  writer sh = Some pl → mux_ok s → buffers pl s q →
  shelf_Put prefix sh k v s = (Return e, s') →
  own_write pl s q (cmd_of (mkOp (name sh) k (Some v))) e s'.
Proof.
  intros Hw Hm Hb. unfold shelf_Put.
  destruct (checkOpen_cases s Hm) as [E|E]; [|unfold mbind at 1, M_bind at 1; by rewrite E].
  rewrite (bind_Return _ _ _ _ _ E). destruct (client (back s)); cbn [is_nil negb].
  - rewrite Hw. cbn [must]. rewrite bind_ret. apply pl_own_write; [done|intros; apply spec_Set, (proj2 Hb)|].
    intros w. apply law_Set.
  - intros [= <- <-]. split_and!; [reflexivity|done|exact Hb|done].
Qed.

Lemma Delete_own sh pl k s q e s' :
  writer sh = Some pl → buffers pl s q → shelf_Delete prefix sh k s = (Return e, s') →
  own_write pl s q (cmd_of (mkOp (name sh) k None)) e s'.
Proof.
  intros Hw Hb. unfold shelf_Delete. rewrite Hw. cbn [must]. rewrite bind_ret.
  apply pl_own_write; [done|intros; apply spec_Del, (proj2 Hb)|]. intros w. apply law_Del.
Qed.

(** [Get] on a shelf whose client may be gone. *)
Lemma Get_quiet sh k s it r s' :
  typed keyType k → represents (W := W) prefix keyType (name sh) (data s) it →
  shelf_Get prefix sh k s = (Return r, s') →
  quiet None s s' ∧ mux (back s') = mux (back s) ∧
  (r = get_result k it ∨ ∃ err, err ≠ ENil ∧ redis_read_fails err ∧ r = (None, err)).
Proof.
  intros Hk HR E. unfold shelf_Get in E. destruct (reader sh) as [c|] eqn:Er; [|done].
  destruct (redis_Get_result prefix keyType sh c k s it Er Hk HR) as (r' & s1 & E' & Hc & HC).
  unfold shelf_Get in E'. rewrite Er in E'. rewrite E in E'. injection E' as <- <-.
  split_and!; [|apply Hc|done]. cbn [must] in E. rewrite bind_ret in E.
  rewrite (bind_Return _ _ _ _ _ (redis_ctx_run _ s)) in E.
  pose proof (law_Get c (shelf_ctx sh) (toRedisKey prefix sh k) (tick (world s)) (db (back s))) as HL.
  destruct (client_Get c _ _ _ _) as [[v e] d'] eqn:Eg. cbn [fst snd] in *.
  assert (s' = with_db (ticked s) d') as ->
    by (destruct (errors_Is e redis_Nil); [|destruct (negb (is_nil e))]; by injection E).
  apply quiet_call; [apply Hc|done].
Qed.

(** [quiet], in the locks of mutexes other than [m] only. *)
Definition unlocks (m : Mutex) s s' : Prop :=
  (now (world s) ≤ now (world s'))%Z ∧ same_server (db (back s)) (db (back s')) ∧
  remembers (db (back s)) (db (back s')) ∧ mux (back s') = mux (back s) ∧
  ∀ n m' t, holder (db (back s)) n = Some (m', t) → m' ≠ m → holder (db (back s')) n = Some (m', t).

Lemma unlocks_tick m s : unlocks m s (mkSt (back s) (tick (world s))).
Proof. split_and!; [apply forward|reflexivity|reflexivity|done|done]. Qed.
#[global] Instance unlocks_preorder m : PreOrder (unlocks m).
Proof.
  split; [by intros s; split_and!|]. intros s1 s2 s3 (?&?&?&?&H5) (?&?&?&?&H10).
  split_and!; [lia|by etrans|by etrans|congruence|]. intros n m' t Hh Hn. apply H10; auto.
Qed.

Lemma unlock_unlocks ctx m s : ∃ s', unlock ctx (Some m) s = (Return (), s') ∧ unlocks m s s'.
Proof.
  unfold unlock. rewrite (bind_Return _ _ _ _ _ (ctx_Err_run ctx s)).
  set (s1 := mkSt _ _). destruct (errors_Is _ DeadlineExceeded).
  { eexists. split; [done|]. apply unlocks_tick. }
  rewrite (bind_Return get_world _ s1 (world s1) s1 eq_refl). cbv zeta.
  set (ctx' := WithTimeout _ _ _). rewrite (bind_Return _ _ _ _ _ (redis_ctx_run _ s1)).
  pose proof (law_UnlockContext m ctx' (tick (world s1)) (db (back s1))) as HU.
  pose proof (spec_UnlockContext m ctx' (tick (world s1)) (db (back s1))) as HS.
  destruct (mutex_UnlockContext m ctx' (tick (world s1)) (db (back s1))) as [r d'].
  destruct HU as [Hr Hh]. eexists. split; [done|]. etrans; [apply unlocks_tick|].
  split_and!; [apply forward|exact HS|exact Hr|done|exact Hh].
Qed.

(** [Close], with the mutex taken. *)
Lemma close_store_quiet ctx s e s' :
  mux_ok s → close_store ctx s = (Return e, s') → quiet None s s' ∧ mux_ok s'.
Proof.
  intros Hm. set (R := λ s s' : St store W, quiet None s s' ∧ mux (back s') = mux (back s)).
  assert (HP : PreOrder R).
  { split; [by intros s1|]. intros s1 s2 s3 [H1 H2] [H3 H4]. split; [by etrans|congruence]. }
  assert (HK : ∀ c, keeps R (CallWithTimeout ctx (redis (client_Close c)) (mret ()))).
  { intros c. apply keeps_CallWithTimeout; [done| |by intros s1|].
    - intros s1. rewrite redis_run. split; [|done].
      split_and!; [done|apply spec_client_Close|apply law_Close].
    - intros s1. split; [apply quiet_tick|done]. }
  assert (HU : ∀ e1 s1, R s s1 → (_ ← Unlock; mret e1 : M error) s1 = (Return e, s') →
    quiet None s s' ∧ mux_ok s').
  { intros e1 s1 [Hq Hm1]. unfold Unlock, on_mux, mbind, M_bind. cbn. rewrite Hm1.
    destruct Hm as [->| ->]; [done|]. intros [= _ <-]. split; [exact Hq|by left]. }
  unfold close_store, defer. rewrite (bind_Return get_back _ s (back s) s eq_refl).
  destruct (client (back s)) as [c|].
  - unfold mbind at 1, M_bind at 1. specialize (HK c s).
    destruct (CallWithTimeout ctx (redis (client_Close c)) (mret ()) s) as [[err| | |] s1];
      [|unfold mbind, M_bind; by destruct (Unlock s1) as [[]]|done|done].
    cbn [snd] in HK. cbn. intros E.
    assert (R s (mkSt (mkStore _ _ (db (back s1)) None (mux (back s1))) (world s1))) as HR by exact HK.
    destruct (negb (is_nil err)); exact (HU _ _ HR E).
  - cbn. intros E. exact (HU _ s ltac:(by split) E).
Qed.
End frame.
