(* ===== verification/RedisTask.v ===== *)
(** The specification of the calls of goroutines on one Redis store whose writers take the
    distributed lock, the invariant of one goroutine, and what it survives. RedisSteps.v shows
    what each phase does to it. *)
From S2P Require Import Prelude Errors Keys Go Store Lock Timeout Shelf Client Program Interleave.
From S2P Require Import Redis RedisSpec RedisConcSpec RedisKeys RedisTx RedisClient RedisProgram.
From S2P Require Import RedisConc RedisFrame.

Definition phase_mutex `{RL : RedisLib W} (ph : phase (W := W)) : option Mutex :=
  match ph with
  | Ph_acquire _ _ m => Some m
  | Ph_pipeline _ m | Ph_open _ m _ | Ph_transact _ m _ _ _ _ | Ph_write _ m _ _ _
  | Ph_finish _ m _ _
  | Ph_discard _ m _ _ | Ph_exec _ m _ | Ph_unlock _ m _ => m
  | _ => None
  end.
Definition phase_pipe `{RL : RedisLib W} (ph : phase (W := W)) : option Pipeliner :=
  match ph with
  | Ph_open _ _ pl | Ph_transact _ _ pl _ _ _ | Ph_write _ _ pl _ _ | Ph_finish _ _ pl _
  | Ph_discard _ _ pl _ | Ph_exec _ _ pl => Some pl
  | _ => None
  end.
Definition finished `{RL : RedisLib W} (ph : phase (W := W)) : option error :=
  match ph with Ph_unlock _ _ r => r | Ph_done e => Some e | _ => None end.

(** A context whose deadline has passed is over. *)
Definition punctual {W} (ctx : Context W) : Prop :=
  ∀ w t, Deadline ctx = Some t → Err ctx w = ENil → (now w ≤ t)%Z.

(** A query as an inquiry on the shelf [n]. *)
Fixpoint inquiry_of (n : bytes) (q : query) : inquiry :=
  match q with
  | q_return e => i_return e
  | q_get k next => i_get n k (λ x, inquiry_of n (next x))
  | q_empty next => i_empty n (λ x, inquiry_of n (next x))
  end.

(** The calls considered: writers take the lock and read before they write, on whatever
    shelves, with keys of one type; readers use [Get] with such keys; and the store may be
    closed at any time. *)
Definition task_ok {W} (keyType : Key) (p : task (W := W)) : Prop :=
  match p with
  | T_write lock ctx pr => lock = true ∧ punctual ctx ∧ program_reads_first keyType pr
  | T_shelf _ _ _ => False
  | T_read _ n q => inquiry_gets keyType (inquiry_of n q)
  | T_inquire _ i => inquiry_gets keyType i
  | T_close _ => True
  end.

Section steps.
Context {W : Type} `{LS : RedisConcSpec W} `{!Env W, !CallScheduler W}.
Context (prefix : bytes) (keyType : Key) (fuel : nat).
Context (tasks : list (task (W := W))).
Implicit Types (s : St store W) (σ : shelves) (p : task (W := W)) (ph : phase (W := W))
  (m : Mutex) (pl : Pipeliner) (ctx : Context W).
Abbreviation holds := (holds (W := W) prefix keyType).
Abbreviation program_spec := (program_spec redis_open_fails redis_write_fails redis_read_fails None).
Abbreviation buffers := (buffers (W := W)).

(** ** Specification *)

(** What a program may return, and leave, shelf by shelf. *)
Definition runs (hs : gmap bytes (option error)) σ (pr : program) (e : error) σ' : Prop :=
  ∃ σ1, program_spec hs σ pr e σ1 ∧ same_on (λ _, True) σ1 σ'.

(** What a call of a writer may return, and leave, when it has the shelves for itself and its
    writes are installed. *)
Inductive task_spec : task (W := W) → shelves → error → shelves → Prop :=
  | ts_installed lock ctx pr σ σ' e :
      program_spec ∅ σ pr ENil σ' →
      e = ENil ∨ (∃ err, err ≠ ENil ∧ e = WrapError ErrCommitFailed err) →
      task_spec (T_write lock ctx pr) σ e σ'.

(** The calls that have installed their writes, in order, with their results. *)
Abbreviation log := (list (nat * error)).
Abbreviation serial := (serial tasks task_spec).

(** [σ] was the committed data at some time after the calls of [floor]. *)
Definition snapshot (σ0 : shelves) (floor h : log) σ : Prop :=
  ∃ h1, floor `prefix_of` h1 ∧ h1 `prefix_of` h ∧ serial σ0 h1 σ.

(** What an inquiry may return: each [Get] answers from a snapshot, later ones, on whatever
    shelf, from later snapshots. *)
Inductive sees (σ0 : shelves) (h : log) : log → inquiry → error → Prop :=
  | sees_return floor e : sees σ0 h floor (i_return e) e
  | sees_get floor h1 σ n k next e :
      floor `prefix_of` h1 → h1 `prefix_of` h → serial σ0 h1 σ →
      sees σ0 h h1 (next (get_result k (σ n))) e → sees σ0 h floor (i_get n k next) e
  | sees_fails floor n k next err e :
      err ≠ ENil → redis_read_fails err → sees σ0 h floor (next (None, err)) e →
      sees σ0 h floor (i_get n k next) e.

(** The result [e] of the call [i]: a writer that has returned nil is one of the log, or has
    written nothing and did what it does on a snapshot; a reader has seen snapshots, unless
    the store was closed. *)
Definition explained σ0 (floor h : log) (i : nat) p (e : error) : Prop :=
  match p with
  | T_write _ _ pr =>
      e = ENil → (i, ENil) ∈ h ∨ ∃ σ, snapshot σ0 floor h σ ∧ runs ∅ σ pr ENil σ
  | T_read _ n q => e = ErrStoreIsClosed ∨ sees σ0 h floor (inquiry_of n q) e
  | T_inquire _ i => e = ErrStoreIsClosed ∨ sees σ0 h floor i e
  | _ => True
  end.

(** ** The invariant of one goroutine *)

Definition lock_name : bytes := #"lock_" ++ prefix.
Definition deadline ctx : Z := default 0%Z (Deadline ctx).

(** The time after which the transaction can no longer take effect, until which its lock
    lasts. *)
Definition in_time s ctx : Prop := (now (world s) ≤ deadline ctx + lockExpiryOffset)%Z.

(** Until then, the transaction has the lock, and [hb] and [σb], the log and the data at the
    time it took the lock, are those of now. *)
Record in_tx (σ0 : shelves) (floor h : log) s ctx m (hb : log) σb : Prop := {
  it_made : mutex_made (db (back s)) m;
  it_deadline : Deadline ctx ≠ None;
  it_punctual : punctual ctx;
  it_floor : floor `prefix_of` hb;
  it_log : hb `prefix_of` h;
  it_serial : serial σ0 hb σb;
  it_owns : in_time s ctx → ∃ t, holder (db (back s)) lock_name = Some (m, t) ∧
    (deadline ctx + lockExpiryOffset ≤ t)%Z;
  it_base : in_time s ctx → hb = h ∧ holds (data s) σb
}.

(** The handles of the shelves a transaction has handed out. *)
Abbreviation kept t ws hs := (∀ s, Program.kept (writer_in (W := W) prefix fuel t) s ws hs).
Definition readers_kept (t : tx (W := W)) (rs : gmap bytes (Reader store W)) : Prop :=
  ∀ n r, rs !! n = Some r → r = tx_GetShelfReader prefix fuel t n.

(** The rest [pr'] of the program [pr], which has the handles [hs] and has buffered the writes
    [l], completes a run of [pr] on the data at the beginning; that is, as long as the deadline
    has not passed. *)
Definition writing σ0 floor h s ctx m pl (pr : program) hs (pr' : program) : Prop :=
  ∃ hb σb l, in_tx σ0 floor h s ctx m hb σb ∧ buffers pl s (cmd_of prefix <$> l) ∧
    Forall (λ o, typed keyType (op_key o)) l ∧
    (l = [] ∧ program_reads_first keyType pr' ∨ program_writes keyType pr') ∧
    ((now (world s) ≤ deadline ctx)%Z →
     ∀ e σ, runs hs (apply_ops l σb) pr' e σ → runs ∅ σb pr e σ).

(** The program has ended in time and is about to install the writes [l]. *)
Definition committing σ0 floor h s ctx m pl (pr : program) : Prop :=
  ∃ hb σb l, in_tx σ0 floor h s ctx m hb σb ∧ buffers pl s (cmd_of prefix <$> l) ∧
    Forall (λ o, typed keyType (op_key o)) l ∧ runs ∅ σb pr ENil (apply_ops l σb).

Definition querying σ0 (floor h : log) (i i' : inquiry) : Prop :=
  inquiry_gets keyType i' ∧ ∃ hc, floor `prefix_of` hc ∧ hc `prefix_of` h ∧
    ∀ h' e, h `prefix_of` h' → sees σ0 h' hc i' e → sees σ0 h' floor i e.

Definition thread_ok σ0 (floor h : log) (j : nat) p ph s : Prop :=
  match ph, p with
  | Ph_start, _ => floor `prefix_of` h
  | Ph_check, T_write _ _ _ | Ph_mutex, T_write _ _ _
  | Ph_reader, T_read _ _ _ | Ph_reader, T_inquire _ _ => floor `prefix_of` h
  | Ph_acquire ctx _ m, T_write _ _ _ =>
      mutex_made (db (back s)) m ∧ Deadline ctx ≠ None ∧ punctual ctx ∧ floor `prefix_of` h ∧
      ∃ t, (t ≤ now (world s))%Z ∧
        mutex_info (db (back s)) m = Some (lock_name, deadline ctx + lockExpiryOffset - t)%Z
  | Ph_pipeline ctx (Some m), T_write _ _ _ => ∃ hb σb, in_tx σ0 floor h s ctx m hb σb
  | Ph_open ctx (Some m) pl, T_write _ _ _ =>
      buffers pl s [] ∧ ∃ hb σb, in_tx σ0 floor h s ctx m hb σb
  | Ph_transact ctx (Some m) pl t ws pr', T_write _ _ pr =>
      (∃ c, t = mkTx c (Some pl) ctx) ∧
      ∃ hs, kept t ws hs ∧ writing σ0 floor h s ctx m pl pr hs pr'
  | Ph_finish ctx (Some m) pl e, T_write _ _ pr =>
      ∃ hs, writing σ0 floor h s ctx m pl pr hs (p_return e)
  | Ph_discard ctx (Some m) pl r, T_write _ _ _ =>
      mutex_made (db (back s)) m ∧ pipe_made (db (back s)) pl ∧ ∀ e, r = Some e → e ≠ ENil
  | Ph_exec ctx (Some m) pl, T_write _ _ pr => committing σ0 floor h s ctx m pl pr
  | Ph_unlock ctx (Some m) r, T_write _ _ _ =>
      mutex_made (db (back s)) m ∧ ∀ e, r = Some e → explained σ0 floor h j p e
  | Ph_read r q', T_read ctx n q =>
      (∃ c, r = as_Reader prefix fuel (getShelf ctx n None c)) ∧
      querying σ0 floor h (inquiry_of n q) (inquiry_of n q')
  | Ph_inquire t rs i', T_inquire ctx i =>
      (∃ c, t = mkTx c None ctx) ∧ readers_kept t rs ∧ querying σ0 floor h i i'
  | Ph_closing, T_close _ => True
  | Ph_done e, _ => explained σ0 floor h j p e
  | _, _ => False
  end.

(** *** Frames *)

(** A step has left the handles of the phase [ph] alone. The log grows only when another
    mutex holds the lock. *)
Record undisturbed_phase ph s h s' (h' : log) : Prop := {
  up_time : (now (world s) ≤ now (world s'))%Z;
  up_log : h `prefix_of` h';
  up_remembers : remembers (db (back s)) (db (back s'));
  up_pipe : ∀ pl, phase_pipe ph = Some pl → pipe_made (db (back s)) pl →
    queue (db (back s')) pl = queue (db (back s)) pl;
  up_holder : ∀ m t, phase_mutex ph = Some m → mutex_made (db (back s)) m →
    holder (db (back s)) lock_name = Some (m, t) → (now (world s') ≤ t)%Z →
    holder (db (back s')) lock_name = Some (m, t);
  up_data : h' = h ∧ data s' = data s ∨
    ∃ m t, phase_mutex ph ≠ Some m ∧ holder (db (back s)) lock_name = Some (m, t)
}.

Lemma sees_later σ0 h h' floor i e :
  h `prefix_of` h' → sees σ0 h floor i e → sees σ0 h' floor i e.
Proof.
  intros Hh He. induction He as [floor e|floor h1 σ n k next e H1 H2 H3 _ IH|floor n k next err e H1 H2 _ IH].
  - constructor.
  - by eapply sees_get; [exact H1|etrans|exact H3|].
  - by eapply sees_fails.
Qed.

Lemma redis_explained_later σ0 floor h h' j p e :
  h `prefix_of` h' → explained σ0 floor h j p e → explained σ0 floor h' j p e.
Proof.
  intros Hh. destruct p as [lock ctx pr|ctx n c|ctx n q|ctx i|ctx]; cbn; try done.
  - intros He ->. destruct (He eq_refl) as [Hi|(σ & (h1 & H1 & H2 & H3) & Hc)]; [left|right].
    + destruct Hh as [k ->]. apply elem_of_app. by left.
    + exists σ. split; [|done]. exists h1. split_and!; [done|by etrans|done].
  - intros [->|He]; [by left|right]. by eapply sees_later.
  - intros [->|He]; [by left|right]. by eapply sees_later.
Qed.

Lemma in_time_earlier s s' ctx :
  (now (world s) ≤ now (world s'))%Z → in_time s' ctx → in_time s ctx.
Proof. unfold in_time. lia. Qed.

Lemma in_tx_frame σ0 floor ph s h s' h' ctx m hb σb :
  undisturbed_phase ph s h s' h' → phase_mutex ph = Some m →
  in_tx σ0 floor h s ctx m hb σb → in_tx σ0 floor h' s' ctx m hb σb.
Proof.
  intros HU Hm [H1 H2 H3 H4 H5 H6 H7 H8].
  assert (HT : in_time s' ctx → in_time s ctx) by apply in_time_earlier, HU.
  split; [by apply (up_remembers _ _ _ _ _ HU)|done|done|done|etrans; [done|apply HU]|done| |].
  - intros Ht. destruct (H7 (HT Ht)) as (t & Hh & Hle). exists t. split; [|done].
    apply (up_holder _ _ _ _ _ HU); [done|done|done|]. unfold in_time in Ht. lia.
  - intros Ht. destruct (H8 (HT Ht)) as [-> Hσ].
    destruct (up_data _ _ _ _ _ HU) as [[-> ->]|(m' & t' & Hne & Hh')]; [done|].
    destruct (H7 (HT Ht)) as (t & Hh & _). destruct Hne. congruence.
Qed.

Lemma buffers_frame ph s h s' h' pl q :
  undisturbed_phase ph s h s' h' → phase_pipe ph = Some pl → buffers pl s q → buffers pl s' q.
Proof.
  intros HU Hp [H1 H2]. split; [by apply (up_remembers _ _ _ _ _ HU)|].
  by rewrite (up_pipe _ _ _ _ _ HU).
Qed.

Lemma redis_writing_frame σ0 floor ph s h s' h' ctx m pl pr hs pr' :
  undisturbed_phase ph s h s' h' → phase_mutex ph = Some m → phase_pipe ph = Some pl →
  writing σ0 floor h s ctx m pl pr hs pr' → writing σ0 floor h' s' ctx m pl pr hs pr'.
Proof.
  intros HU Hm Hp (hb & σb & l & Hi & Hb & Hl & Hc & Hr). exists hb, σb, l. split_and!.
  - by eapply in_tx_frame.
  - by eapply buffers_frame.
  - done.
  - done.
  - intros Ht. apply Hr. pose proof (up_time _ _ _ _ _ HU). lia.
Qed.

Lemma querying_later σ0 floor h h' i i' :
  h `prefix_of` h' → querying σ0 floor h i i' → querying σ0 floor h' i i'.
Proof.
  intros Hh (Hq & hc & H1 & H2 & H3). split; [done|]. exists hc. split_and!; [done|by etrans|].
  intros h1 e Hh1. apply H3. by etrans.
Qed.

Lemma redis_thread_ok_frame σ0 floor j p ph s h s' h' :
  undisturbed_phase ph s h s' h' → thread_ok σ0 floor h j p ph s → thread_ok σ0 floor h' j p ph s'.
Proof.
  intros HU. pose proof (up_log _ _ _ _ _ HU) as Hh. pose proof (up_time _ _ _ _ _ HU) as Ht.
  pose proof (up_remembers _ _ _ _ _ HU) as (Rp & Rm & Ri).
  destruct ph as [| | |ctx lctx m|ctx [m|]|ctx [m|] pl|ctx [m|] pl t ws pr'|ctx [m|] pl w c'
    |ctx [m|] pl e|ctx [m|] pl r|ctx [m|] pl|ctx [m|] r| |r q'|t rs i'| |e],
    p as [lock ctx0 pr|ctx0 n c|ctx0 n q|ctx0 i|ctx0];
    cbn [thread_ok]; try done; try (by intros; etrans); try (by apply redis_explained_later).
  - intros (H1 & H2 & H3 & H4 & t & H5 & H6).
    split_and!; [by apply Rm|done|done|by etrans|]. exists t. split; [lia|]. by apply Ri.
  - intros (hb & σb & Hi). exists hb, σb. by eapply in_tx_frame.
  - intros (Hb & hb & σb & Hi). split; [by eapply buffers_frame|]. exists hb, σb.
    by eapply in_tx_frame.
  - intros (Ht' & hs & Hk & Hr). split; [done|]. exists hs. split; [done|].
    by eapply redis_writing_frame.
  - intros (hs & Hr). exists hs. by eapply redis_writing_frame.
  - intros (H1 & H2 & H3). split_and!; [by apply Rm|by apply Rp|done].
  - intros (hb & σb & l & Hi & Hb & Hl & Hc). exists hb, σb, l.
    split_and!; [by eapply in_tx_frame|by eapply buffers_frame|done|done].
  - intros (H1 & H2). split; [by apply Rm|]. intros e He. by eapply redis_explained_later, H2.
  - intros (Hr & Hq). split; [done|]. by eapply querying_later.
  - intros (Hr & Hk & Hq). split_and!; [done|done|]. by eapply querying_later.
Qed.

(** A mutex and a pipeline in a phase have been made. *)
Lemma thread_ok_made σ0 floor h j p ph s :
  thread_ok σ0 floor h j p ph s →
  (∀ m, phase_mutex ph = Some m → mutex_made (db (back s)) m) ∧
  (∀ pl, phase_pipe ph = Some pl → pipe_made (db (back s)) pl).
Proof.
  intros Hok.
  destruct ph as [| | |ctx' lctx m|ctx' [m|]|ctx' [m|] pl|ctx' [m|] pl t ws pr'|ctx' [m|] pl w c'
    |ctx' [m|] pl e|ctx' [m|] pl r|ctx' [m|] pl|ctx' [m|] r| |r q'|t rs i'| |e],
    p as [lock ctx pr|ctx n c|ctx n q|ctx i|ctx];
    try done; (split; [intros m' [= <-]|intros pl' [= <-]]).
  all: repeat match goal with
    | H : thread_ok _ _ _ _ _ _ _ |- _ => cbn in H
    | H : writing _ _ _ _ _ _ _ _ _ _ |- _ => unfold writing in H
    | H : committing _ _ _ _ _ _ _ _ |- _ => unfold committing in H
    | H : _ ∧ _ |- _ => destruct H
    | H : ∃ _, _ |- _ => destruct H
    | H : in_tx _ _ _ _ _ _ _ _ |- _ => apply it_made in H
    | H : RedisFrame.buffers _ _ _ |- _ => destruct H
    end; done.
Qed.
End steps.
