(* ===== verification/RedisSteps.v ===== *)
(** The phases of goroutines on one Redis store whose writers take the distributed lock: what
    each does to its goroutine and to the others. RedisSerial.v puts the goroutines together. *)
From S2P Require Import Prelude Errors Keys Go Store Lock Timeout Shelf Client Program Interleave.
From S2P Require Import Redis RedisSpec RedisConcSpec RedisKeys RedisTx RedisClient RedisProgram.
From S2P Require Import RedisConc RedisFrame RedisTask.

Section steps.
Context {Logger W : Type} `{LS : RedisConcSpec W} `{!Env W, !CallScheduler W}.
Context (cfg : Config Logger) (prefix : bytes) (keyType : Key) (fuel : nat).
Context (tasks : list (task (W := W))).
Implicit Types (s : St store W) (σ : shelves) (p : task (W := W)) (ph : phase (W := W))
  (m : Mutex) (pl : Pipeliner) (ctx : Context W).
Abbreviation M := (M store W).
Abbreviation step := (thread_step cfg prefix fuel).
Abbreviation holds := (holds (W := W) prefix keyType).
Abbreviation program_spec := (program_spec redis_open_fails redis_write_fails redis_read_fails None).
Abbreviation buffers := (buffers (W := W)).
Abbreviation log := (list (nat * error)).
Abbreviation serial := (serial tasks task_spec).
Abbreviation explained := (explained tasks).
Abbreviation sees := (sees tasks).
Abbreviation lock_name := (lock_name prefix).
Abbreviation in_tx := (in_tx prefix keyType tasks).
Abbreviation writing := (writing prefix keyType tasks).
Abbreviation querying := (querying keyType tasks).
Abbreviation kept t ws hs := (∀ s, Program.kept (writer_in (W := W) prefix fuel t) s ws hs).
Abbreviation undisturbed_phase := (undisturbed_phase prefix).
Abbreviation thread_ok := (thread_ok prefix keyType fuel tasks).

Hypothesis forward : clock_forward (W := W).

(** What a phase of the goroutine [j] leads to. The log grows by the call itself, when it
    installs its writes, and only while it has the lock. *)
Record step_ok σ0 floor h (j : nat) p ph s h' ph' s' : Prop := {
  so_time : (now (world s) ≤ now (world s'))%Z;
  so_mux : mux_ok s';
  so_remembers : remembers (db (back s)) (db (back s'));
  so_pipes : ∀ pl, pipe_made (db (back s)) pl → phase_pipe ph ≠ Some pl →
    queue (db (back s')) pl = queue (db (back s)) pl;
  so_holder : ∀ m t, mutex_made (db (back s)) m → phase_mutex ph ≠ Some m →
    holder (db (back s)) lock_name = Some (m, t) → (now (world s') ≤ t)%Z →
    holder (db (back s')) lock_name = Some (m, t);
  so_log : h' = h ∧ data s' = data s ∨
    ∃ e m t, h' = h ++ [(j, e)] ∧ finished ph = None ∧ finished ph' = Some e ∧
      phase_mutex ph = Some m ∧ holder (db (back s)) lock_name = Some (m, t);
  so_serial : ∃ σ, serial σ0 h' σ ∧ holds (data s') σ;
  so_ok : thread_ok σ0 floor h' j p ph' s';
  so_new_mutex : ∀ m, phase_mutex ph' = Some m →
    phase_mutex ph = Some m ∨ ¬ mutex_made (db (back s)) m;
  so_new_pipe : ∀ pl, phase_pipe ph' = Some pl →
    phase_pipe ph = Some pl ∨ ¬ pipe_made (db (back s)) pl;
  so_finished : ∀ e, finished ph = Some e → finished ph' = Some e
}.

Lemma quiet_undisturbed own ph s s' h :
  quiet own s s' → (∀ pl, own = Some pl → phase_pipe ph ≠ Some pl) →
  undisturbed_phase ph s h s' h.
Proof.
  intros (Ht & Hd & Hr & Hh & Hq) Ho. split; try done.
  - intros pl Hp Hm. apply Hq; [done|]. intros E. by apply (Ho pl).
  - intros m t _ _ Hm _. by rewrite Hh.
  - by left.
Qed.

Lemma in_tx_quiet σ0 floor h own s s' ctx m hb σb :
  quiet own s s' → in_tx σ0 floor h s ctx m hb σb → in_tx σ0 floor h s' ctx m hb σb.
Proof.
  intros Hq. apply (in_tx_frame _ _ _ _ _ (Ph_pipeline ctx (Some m))); [|done].
  by eapply quiet_undisturbed.
Qed.

Lemma buffers_quiet s s' pl q : quiet None s s' → buffers pl s q → buffers pl s' q.
Proof.
  intros (_ & _ & Hr & _ & Hq) [H1 H2]. split; [by apply Hr|]. by rewrite Hq.
Qed.

Section step.
Context (σ0 : shelves) (floor h : log) (j : nat).
Abbreviation thread_ok := (thread_ok σ0 floor h j).
Abbreviation step_ok := (step_ok σ0 floor h j).
(** The committed data is what the log [h] makes of [σ0]. *)
Definition logged s : Prop := ∃ σ, serial σ0 h σ ∧ holds (data s) σ.

(** A step that leaves the data and the locks alone. *)
Lemma step_ok_quiet own p ph s ph' s' :
  quiet own s s' → (∀ pl, own = Some pl → phase_pipe ph = Some pl) → mux_ok s' → logged s →
  (∀ m, phase_mutex ph' = Some m → phase_mutex ph = Some m ∨ ¬ mutex_made (db (back s)) m) →
  (∀ pl, phase_pipe ph' = Some pl → phase_pipe ph = Some pl ∨ ¬ pipe_made (db (back s)) pl) →
  (∀ e, finished ph = Some e → finished ph' = Some e) → thread_ok p ph' s' →
  step_ok p ph s h ph' s'.
Proof.
  intros (Ht & Hd & Hr & Hh & Hq) Ho Hm HL H1 H2 H3 Hok. split; try done.
  - intros pl Hp Hne. apply Hq; [done|]. intros E. by apply Hne, Ho.
  - intros m t _ _ E _. by rewrite Hh.
  - by left.
  - by rewrite Hd.
Qed.

(** *** Outside the transaction *)

Lemma redis_step_open p ph s ph' s' next :
  (err ← checkOpen; mret (open_phase err next)) s = (Return ph', s') →
  mux_ok s → logged s → finished ph = None →
  phase_mutex next = None → phase_pipe next = None →
  thread_ok p next s → explained σ0 floor h j p ErrStoreIsClosed →
  step_ok p ph s h ph' s'.
Proof.
  intros E Hm HL Hf Hn1 Hn2 Hok He.
  destruct (checkOpen_cases s Hm) as [Ec|Ec]; [|unfold mbind, M_bind in E; by rewrite Ec in E].
  rewrite (bind_Return _ _ _ _ _ Ec) in E. injection E as <- <-.
  apply (step_ok_quiet None); try done.
  - destruct (client (back s)); cbn; [by rewrite Hn1|done].
  - destruct (client (back s)); cbn; [by rewrite Hn2|done].
  - by rewrite Hf.
  - destruct (client (back s)); [done|]. by destruct p.
Qed.

Lemma redis_step_lock ctx s ph' s' :
  (_ ← Lock; mret Ph_closing) s = (Return ph', s') → mux_ok s → logged s →
  step_ok (T_close ctx) Ph_start s h ph' s'.
Proof.
  unfold Lock, on_mux, mbind, M_bind. cbn. intros E [Hm|Hm] HL; rewrite Hm in E; [|done].
  injection E as <- <-. apply (step_ok_quiet None); try done. by right.
Qed.

Lemma redis_step_closing ctx s ph' s' :
  step (T_close ctx) Ph_closing s = (Return ph', s') → mux_ok s → logged s →
  step_ok (T_close ctx) Ph_closing s h ph' s'.
Proof.
  intros (e & s1 & E & [= <- <-])%bind_inv Hm HL.
  destruct (close_store_quiet forward ctx s e s1 Hm E). by apply (step_ok_quiet None).
Qed.

Lemma redis_step_reader p s ph' s' :
  step p Ph_reader s = (Return ph', s') → mux_ok s → logged s → task_ok keyType p →
  thread_ok p Ph_reader s → step_ok p Ph_reader s h ph' s'.
Proof.
  intros E Hm HL Hq Hf. destruct p as [| |ctx n q|ctx i|]; try done; injection E as <- <-;
    apply (step_ok_quiet None); try done.
  - split; [by eexists|]. split; [done|]. by exists floor.
  - split_and!; [by eexists|by intros m r; rewrite lookup_empty|]. split; [done|]. by exists floor.
Qed.

(** The rest of a query after a read of [k]. *)
Lemma querying_get σ i n k next x :
  serial σ0 h σ → querying σ0 floor h i (i_get n k next) →
  (x = get_result k (σ n) ∨ ∃ err, err ≠ ENil ∧ redis_read_fails err ∧ x = (None, err)) →
  querying σ0 floor h i (next x).
Proof.
  intros Hs ([_ Hq] & hc & H1 & H2 & H3) HC. split; [apply Hq|].
  destruct HC as [->|(err & He & Hf & ->)].
  - exists h. split_and!; [by etrans|done|]. intros h' e Hh Hsee. apply H3; [done|].
    eapply sees_get; [exact H2|exact Hh|exact Hs|exact Hsee].
  - exists hc. split_and!; [done..|]. intros h' e Hh Hsee. apply H3; [done|]. by apply sees_fails with err.
Qed.

Lemma querying_return i e : querying σ0 floor h i (i_return e) → sees σ0 h floor i e.
Proof. intros (_ & hc & _ & _ & H). apply H; [done|constructor]. Qed.

Lemma redis_step_read ctx n q r q' s ph' s' :
  step (T_read ctx n q) (Ph_read r q') s = (Return ph', s') → mux_ok s → logged s →
  thread_ok (T_read ctx n q) (Ph_read r q') s →
  step_ok (T_read ctx n q) (Ph_read r q') s h ph' s'.
Proof.
  intros E Hm HL ((c & ->) & Hq). pose proof HL as (σ & Hs & Hσ).
  destruct q' as [e|k next|next]; [| |by destruct Hq as [[] _]].
  - injection E as <- <-. apply (step_ok_quiet None); try done. right. by apply querying_return.
  - cbn [thread_step query_step] in E. rewrite bind_assoc in E.
    apply bind_inv in E as (x & s1 & E & E2). cbn in E2. injection E2 as <- <-.
    pose proof (proj1 (proj1 Hq)) as Hk.
    destruct (Get_quiet prefix keyType forward (getShelf ctx n None c) k s (σ n) x s1 Hk (proj2 (Hσ n)) E) as (Hqt & Hmx & HC).
    apply (step_ok_quiet None); try done; [unfold mux_ok; by rewrite Hmx|].
    split; [by eexists|]. by eapply (querying_get σ _ n k (λ x, inquiry_of n (next x))).
Qed.

Lemma redis_step_inquire ctx i t rs i' s ph' s' :
  step (T_inquire ctx i) (Ph_inquire t rs i') s = (Return ph', s') → mux_ok s → logged s →
  thread_ok (T_inquire ctx i) (Ph_inquire t rs i') s →
  step_ok (T_inquire ctx i) (Ph_inquire t rs i') s h ph' s'.
Proof.
  intros E Hm HL ((c & ->) & Hk & Hq). pose proof HL as (σ & Hs & Hσ).
  destruct i' as [e|n k next|n next]; [| |by destruct Hq as [[] _]].
  - injection E as <- <-. apply (step_ok_quiet None); try done. right. by apply querying_return.
  - cbn [thread_step inquiry_step] in E. unfold on_reader in E. destruct (rs !! n) as [r|] eqn:Er.
    + apply Hk in Er as ->. rewrite !bind_assoc in E. apply bind_inv in E as (x & s1 & E & E2).
      cbn in E2. injection E2 as <- <-. pose proof (proj1 (proj1 Hq)) as Hk'.
      destruct (Get_quiet prefix keyType forward (getShelf ctx n None c) k s (σ n) x s1 Hk' (proj2 (Hσ n)) E) as (Hqt & Hmx & HC).
      apply (step_ok_quiet None); try done; [unfold mux_ok; by rewrite Hmx|].
      split_and!; [by eexists|done|by eapply querying_get].
    + cbn in E. injection E as <- <-. apply (step_ok_quiet None); try done.
      split_and!; [by eexists| |done]. intros n' r.
      rewrite lookup_insert_Some. intros [[<- <-]|[_ Hr]]; [done|by apply Hk].
Qed.

(** *** Taking the lock *)

Lemma tx_context_punctual ctx s :
  punctual ctx → ∃ ctx', tx_context ctx s = (Return ctx', s) ∧ Deadline ctx' ≠ None ∧ punctual ctx'.
Proof.
  intros Hp. unfold tx_context. destruct (Deadline ctx) as [d|] eqn:Ed.
  - exists ctx. by rewrite Ed.
  - eexists. split; [done|]. split; [done|]. intros w t. cbn. rewrite Ed. intros [= <-].
    destruct (is_nil (Err ctx w)) eqn:En; [|by apply is_nil_false in En].
    destruct (Z.leb_spec (now (world s) + DefaultTransactionTimeout) (now w)); [done|]. lia.
Qed.

Lemma redis_step_mutex lock ctx pr s ph' s' :
  step (T_write lock ctx pr) Ph_mutex s = (Return ph', s') → mux_ok s → logged s →
  task_ok keyType (T_write lock ctx pr) → floor `prefix_of` h →
  step_ok (T_write lock ctx pr) Ph_mutex s h ph' s'.
Proof.
  intros E Hm HL (-> & Hp & _) Hf. cbn [thread_step task_ctx task_lock] in E.
  destruct (tx_context_punctual ctx s Hp) as (ctx' & Ec & Hd & Hp').
  rewrite (bind_Return _ _ _ _ _ Ec), (bind_Return get_world _ s (world s) s eq_refl) in E.
  rewrite (bind_Return _ _ _ _ _ (redis_run _ s)) in E.
  pose proof (law_NewMutex lock_name (deadline ctx' + lockExpiryOffset - now (world s)) (db (back s))) as HN.
  pose proof (spec_NewMutex lock_name (deadline ctx' + lockExpiryOffset - now (world s)) (db (back s))) as HS.
  unfold lock_name, deadline in HN, HS.
  destruct (rs_NewMutex _ _ (db (back s))) as [m d']. destruct HN as (HL' & Hn & Hmm & Hi).
  injection E as <- <-. apply (step_ok_quiet None); try done.
  - split_and!; [done|apply HS|done].
  - intros m' [= <-]. by right.
  - split_and!; [done|done|done|done|]. by exists (now (world s)).
Qed.

Lemma redis_step_acquire lock ctx pr ctx' lctx m s ph' s' :
  step (T_write lock ctx pr) (Ph_acquire ctx' lctx m) s = (Return ph', s') → mux_ok s → logged s →
  thread_ok (T_write lock ctx pr) (Ph_acquire ctx' lctx m) s →
  step_ok (T_write lock ctx pr) (Ph_acquire ctx' lctx m) s h ph' s'.
Proof.
  intros E Hm (σ & Hs & Hσ) (Hmm & Hd & Hp & Hf & t0 & Ht0 & Hi). cbn [thread_step] in E.
  rewrite (bind_Return _ _ _ _ _ (redis_ctx_run _ s)) in E.
  pose proof (law_LockContext m lctx (tick (world s)) (db (back s)) _ _ Hmm Hi) as HL.
  pose proof (spec_LockContext m lctx (tick (world s)) (db (back s))) as [HS HQ].
  destruct (mutex_LockContext m lctx (tick (world s)) (db (back s))) as [err d'].
  destruct HL as (HR & HH & HO). cbn [fst snd] in *. injection E as <- <-.
  pose proof (forward (world s)) as Hw. split; try done.
  - intros m' t Hmm' Hne Hh Ht. apply HH; [done| |done]. intros ->. by apply Hne.
  - left. by split.
  - exists σ. split; [done|]. unfold data. cbn. by rewrite HS.
  - destruct (is_nil err) eqn:En; cbn [negb].
    + apply is_nil_true in En as ->. destruct (HO eq_refl) as (t & Hh & Ht).
      exists h, σ. split; try done; [by apply HR| |].
      * intros _. exists t. split; [exact Hh|]. lia.
      * intros _. split; [done|]. unfold data. cbn. by rewrite HS.
    + by intros ?.
  - intros m'. destruct (negb (is_nil err)); [done|]. intros [= <-]. by left.
  - intros pl. by destruct (negb (is_nil err)).
Qed.

Lemma redis_step_pipeline lock ctx pr ctx' m s ph' s' :
  step (T_write lock ctx pr) (Ph_pipeline ctx' (Some m)) s = (Return ph', s') →
  mux_ok s → logged s →
  thread_ok (T_write lock ctx pr) (Ph_pipeline ctx' (Some m)) s →
  step_ok (T_write lock ctx pr) (Ph_pipeline ctx' (Some m)) s h ph' s'.
Proof.
  intros E Hm HL (hb & σb & Hi). cbn [thread_step] in E.
  rewrite (bind_Return get_back _ s (back s) s eq_refl) in E.
  destruct (client (back s)) as [cl|]; [|done]. cbn [must] in E. rewrite bind_ret in E.
  rewrite (bind_Return _ _ _ _ _ (redis_run _ s)) in E.
  pose proof (law_TxPipeline cl (db (back s))) as HT.
  pose proof (spec_TxPipeline cl (db (back s))) as HS.
  destruct (client_TxPipeline cl (db (back s))) as [pl d'].
  destruct HT as (HL' & Hn & Hmm), HS as [HS HQ]. injection E as <- <-.
  assert (Hq : quiet None s (with_db s d')) by (by split_and!).
  apply (step_ok_quiet None); try done.
  - intros m' [= <-]. by left.
  - intros pl' [= <-]. by right.
  - split; [by split|]. exists hb, σb. by eapply in_tx_quiet.
Qed.

(** *** The callback *)

Lemma redis_step_writer lock ctx pr ctx' m pl s ph' s' :
  step (T_write lock ctx pr) (Ph_open ctx' (Some m) pl) s = (Return ph', s') →
  mux_ok s → logged s → task_ok keyType (T_write lock ctx pr) →
  thread_ok (T_write lock ctx pr) (Ph_open ctx' (Some m) pl) s →
  step_ok (T_write lock ctx pr) (Ph_open ctx' (Some m) pl) s h ph' s'.
Proof.
  intros E Hm HL (_ & _ & Hc) (Hb & hb & σb & Hi). injection E as <- <-.
  apply (step_ok_quiet None); try done; [by intros ? [= <-]; left|by intros ? [= <-]; left|].
  split; [by eexists|]. exists ∅. split; [intros s0; apply kept_none|].
  exists hb, σb, []. split_and!; [done|done|constructor|by left|done].
Qed.

(** The next operation of a program is on the shelf [n]: the program has it, or asks for it. *)
Lemma on_writer_cases t ws hs n pr' (op : Writer store W → M program) s x s' :
  kept t ws hs → on_writer (as_WriteTx prefix fuel t) ws n pr' op s = (Return x, s') →
  (∃ pr1, op (tx_GetShelfWriter prefix fuel t n) s = (Return pr1, s') ∧ x = inr (ws, pr1) ∧
     hs !! n = Some None) ∨
  (s' = s ∧ ∃ ws', x = inr (ws', pr') ∧ hs !! n = None ∧ kept t ws' (<[n := None]> hs)).
Proof.
  intros Hk E. unfold on_writer in E. destruct (ws !! n) as [w|] eqn:Ew.
  - left. destruct (proj1 (Hk s) n w Ew) as (r & Hr & -> & ->).
    apply bind_inv in E as (pr1 & s1 & E & [= <- <-]). by exists pr1.
  - right. cbn in E. injection E as <- <-. split; [done|]. eexists. split_and!; [done|by apply (Hk s)|].
    intros s0. by apply kept_insert.
Qed.

Lemma writing_open ctx m pl s pr hs n pr' :
  program_shelf pr' = Some n → hs !! n = None → writing σ0 floor h s ctx m pl pr hs pr' →
  writing σ0 floor h s ctx m pl pr (<[n := None]> hs) pr'.
Proof.
  intros Hn Hh (hb & σb & l & Hi & Hb & Hl & Hc & Hr). exists hb, σb, l. split_and!; try done.
  intros Ht e σ (σ1 & Hp & Hs). apply Hr; [done|]. exists σ1. split; [|done].
  eapply program_spec_used; [by apply uses_opened|done|done].
Qed.

(** A write that has failed leaves the shelves as they were. *)
Lemma runs_unchanged hs σ n pr e σ' :
  runs hs σ pr e σ' → ∃ σ1, program_spec hs (set_shelf n (σ n) σ) pr e σ1 ∧ same_on (λ _, True) σ1 σ'.
Proof.
  intros (σ1 & Hp & Hs).
  destruct (program_spec_same (λ _, True) _ _ _ _ _ _ _ _ _ (set_shelf n (σ n) σ) Hp) as (σ2 & H2 & Hs2);
    [apply program_on_all| |exists σ2; split; [done|by rewrite <-Hs2]].
  intros m _. unfold set_shelf. case_bool_decide; by subst.
Qed.

(** An operation [pr'] that makes the write [o], and goes on with [next]. *)
Definition makes hs (o : op) (pr' : program) (next : error → program) : Prop :=
  ∀ σ e σ', (runs hs (apply_op σ o) (next ENil) e σ' → runs hs σ pr' e σ') ∧
    ∀ err, err ≠ ENil → redis_write_fails err → runs hs σ (next err) e σ' → runs hs σ pr' e σ'.

Lemma makes_put hs n k v next :
  hs !! n = Some None → makes hs (mkOp n k (Some v)) (p_put n k v next) next.
Proof.
  intros Hn σ e σ'. split.
  - intros (σ1 & Hp & Hs). exists σ1. split; [|done].
    eapply ps_put; [by apply uses_known|by left|done].
  - intros err He Hf Hp. destruct (runs_unchanged _ _ n _ _ _ Hp) as (σ1 & H1 & Hs). exists σ1. split; [|done].
    eapply ps_put; [by apply uses_known|by right|done].
Qed.
Lemma makes_delete hs n k next :
  hs !! n = Some None → makes hs (mkOp n k None) (p_delete n k next) next.
Proof.
  intros Hn σ e σ'. split.
  - intros (σ1 & Hp & Hs). exists σ1. split; [|done].
    eapply ps_delete; [by apply uses_known|by left|done].
  - intros err He Hf Hp. destruct (runs_unchanged _ _ n _ _ _ Hp) as (σ1 & H1 & Hs). exists σ1. split; [|done].
    eapply ps_delete; [by apply uses_known|by right|done].
Qed.

(** The rest of the program after a write of [o], or its failure. *)
Lemma writing_write ctx m pl s s' pr hs pr' next o e l hb σb :
  in_tx σ0 floor h s ctx m hb σb → own_write pl s (cmd_of prefix <$> l) (cmd_of prefix o) e s' →
  Forall (λ o, typed keyType (op_key o)) l → typed keyType (op_key o) →
  program_writes keyType (next e) →
  ((now (world s) ≤ deadline ctx)%Z →
     ∀ e σ, runs hs (apply_ops l σb) pr' e σ → runs ∅ σb pr e σ) →
  makes hs o pr' next → writing σ0 floor h s' ctx m pl pr hs (next e).
Proof.
  intros Hi (Hq & _ & Hb & Hf) Hl Ho Hw Hr Hmk. exists hb, σb, (if is_nil e then l ++ [o] else l).
  assert (Ht : (now (world s') ≤ deadline ctx → now (world s) ≤ deadline ctx)%Z)
    by (destruct Hq as [? _]; lia).
  split_and!; [by eapply in_tx_quiet| | |by right|].
  - destruct (is_nil e); [|exact Hb]. by rewrite fmap_app.
  - destruct (is_nil e); [|done]. apply Forall_app. split; [done|]. by constructor.
  - intros Hle e' σ Hsp. apply Hr; [by apply Ht|]. destruct (is_nil e) eqn:En.
    + apply is_nil_true in En as ->. apply Hmk. by rewrite <-apply_ops_snoc.
    + apply is_nil_false in En. eapply Hmk; [exact En|by apply Hf|done].
Qed.

(** The rest of the program after a read of [k]. *)
Lemma writing_get n ctx m pl s s' pr hs k next r hb σb σ :
  in_tx σ0 floor h s ctx m hb σb → buffers pl s [] → quiet None s s' → hs !! n = Some None →
  holds (data s) σ → typed keyType k → program_reads_first keyType (next r) →
  ((now (world s) ≤ deadline ctx)%Z → ∀ e σ, runs hs σb (p_get n k next) e σ → runs ∅ σb pr e σ) →
  (r = get_result k (σ n) ∨ ∃ err, err ≠ ENil ∧ redis_read_fails err ∧ r = (None, err)) →
  writing σ0 floor h s' ctx m pl pr hs (next r).
Proof.
  intros Hi Hb Hq Hn Hσ Hk Hp Hr HC. exists hb, σb, [].
  split_and!; [by eapply in_tx_quiet|by eapply buffers_quiet|constructor|by left|].
  intros Ht e it (σ1 & Hsp & Hs). pose proof Hq as [Hle _].
  assert (Hin : in_time s ctx) by (unfold in_time, lockExpiryOffset, Second; lia).
  apply Hr; [lia|]. exists σ1. split; [|done]. eapply ps_get; [by apply uses_known| |exact Hsp].
  destruct HC as [->|HC]; [left|by right]. destruct (it_base _ _ _ _ _ _ _ _ _ _ _ Hi Hin) as [_ Hb'].
  unfold get_result. by rewrite <-(proj2 (Hσ n) k Hk), <-(proj2 (Hb' n) k Hk).
Qed.

Lemma redis_step_program lock ctx pr ctx' m pl t ws pr' s ph' s' :
  step (T_write lock ctx pr) (Ph_transact ctx' (Some m) pl t ws pr') s = (Return ph', s') →
  mux_ok s → logged s →
  thread_ok (T_write lock ctx pr) (Ph_transact ctx' (Some m) pl t ws pr') s →
  step_ok (T_write lock ctx pr) (Ph_transact ctx' (Some m) pl t ws pr') s h ph' s'.
Proof.
  intros E Hm HL [[r ->] (hs & Hk & HW)]. pose proof HW as (hb & σb & l & Hi & Hb & Hl & Hc & Hr).
  set (t := mkTx r (Some pl) ctx') in *. cbn [thread_step] in E.
  apply bind_inv in E as (x & s1 & E & [= <- <-]).
  (* a step that leaves the locks alone and comes to [x] *)
  assert (HG : ∀ own, quiet own s s1 → (∀ pl', own = Some pl' → pl = pl') →
    mux (back s1) = mux (back s) →
    match x with
    | inl e => writing σ0 floor h s1 ctx' m pl pr hs (p_return e)
    | inr (ws', pr1) => ∃ hs', kept t ws' hs' ∧ writing σ0 floor h s1 ctx' m pl pr hs' pr1
    end →
    step_ok (T_write lock ctx pr) (Ph_transact ctx' (Some m) pl t ws pr') s h
      (match x with inl e => Ph_finish ctx' (Some m) pl e
       | inr (ws', pr1) => Ph_transact ctx' (Some m) pl t ws' pr1 end) s1).
  { intros own Hq Ho Hmx HX. apply (step_ok_quiet own); try done.
    - intros pl' Hpl. cbn. by rewrite (Ho pl').
    - unfold mux_ok. by rewrite Hmx.
    - destruct x as [|[]]; intros ? [= <-]; by left.
    - destruct x as [|[]]; intros ? [= <-]; by left.
    - destruct x as [e|[ws' pr1]]; [by exists hs|]. split; [by exists r|exact HX]. }
  (* the operation is on the shelf [n], which is opened, or there *)
  assert (HO : ∀ n op, program_shelf pr' = Some n →
    on_writer (as_WriteTx prefix fuel t) ws n pr' op s = (Return x, s1) →
    (∀ pr1, op (tx_GetShelfWriter prefix fuel t n) s = (Return pr1, s1) → x = inr (ws, pr1) →
       hs !! n = Some None →
       step_ok (T_write lock ctx pr) (Ph_transact ctx' (Some m) pl t ws pr') s h
         (Ph_transact ctx' (Some m) pl t ws pr1) s1) →
    step_ok (T_write lock ctx pr) (Ph_transact ctx' (Some m) pl t ws pr') s h
      (match x with inl e => Ph_finish ctx' (Some m) pl e
       | inr (ws', pr1) => Ph_transact ctx' (Some m) pl t ws' pr1 end) s1).
  { intros n op Hn Eo Hop.
    destruct (on_writer_cases _ _ _ _ _ _ _ _ _ Hk Eo) as [(pr1 & E1 & -> & Hh)|(-> & ws' & -> & Hh & Hk')];
      [by apply Hop|]. apply (HG None); try done. eexists. split; [exact Hk'|]. by apply writing_open. }
  destruct pr' as [e|n k v next|n k next|n k next|n next]; cbn [program_step] in E.
  - injection E as <- <-. by apply (HG None).
  - apply (HO n _ eq_refl E). intros pr1 Ep -> Hn. apply bind_inv in Ep as (e & s2 & Ep & [= <- <-]).
    assert (typed keyType k ∧ ∀ e, program_writes keyType (next e)) as [Hty Hnx] by (by destruct Hc as [[_ ?]|?]).
    pose proof (Put_own prefix forward (getShelf ctx' n (Some pl) r) pl k v s _ e s2 eq_refl Hm Hb Ep) as HP.
    apply (HG (Some pl)); [apply HP|by intros ? [= ->]|apply HP|]. exists hs. split; [done|].
    eapply (writing_write _ _ _ _ _ _ _ (p_put n k v next)); try done. by apply makes_put.
  - apply (HO n _ eq_refl E). intros pr1 Ep -> Hn. apply bind_inv in Ep as (e & s2 & Ep & [= <- <-]).
    assert (typed keyType k ∧ ∀ e, program_writes keyType (next e)) as [Hty Hnx] by (by destruct Hc as [[_ ?]|?]).
    pose proof (Delete_own prefix forward (getShelf ctx' n (Some pl) r) pl k s _ e s2 eq_refl Hb Ep) as HP.
    apply (HG (Some pl)); [apply HP|by intros ? [= ->]|apply HP|]. exists hs. split; [done|].
    eapply (writing_write _ _ _ _ _ _ _ (p_delete n k next)); try done. by apply makes_delete.
  - apply (HO n _ eq_refl E). intros pr1 Ep -> Hn. apply bind_inv in Ep as (y & s2 & Ep & [= <- <-]).
    destruct Hc as [[-> [Hty Hnx]]|[]]. destruct HL as (σ & Hs & Hσ).
    destruct (Get_quiet prefix keyType forward (getShelf ctx' n (Some pl) r) k s (σ n) y s2 Hty (proj2 (Hσ n)) Ep) as (Hq & Hmx & HC).
    apply (HG None); try done. exists hs. split; [done|]. by eapply writing_get.
  - by destruct Hc as [[_ []]|[]].
Qed.

(** *** The end *)

Lemma redis_step_finish lock ctx pr ctx' m pl e s ph' s' :
  step (T_write lock ctx pr) (Ph_finish ctx' (Some m) pl e) s = (Return ph', s') →
  mux_ok s → logged s →
  thread_ok (T_write lock ctx pr) (Ph_finish ctx' (Some m) pl e) s →
  step_ok (T_write lock ctx pr) (Ph_finish ctx' (Some m) pl e) s h ph' s'.
Proof.
  intros E Hm HL (hs & hb & σb & l & Hi & Hb & Hl & Hc & Hr). cbn [thread_step] in E.
  assert (HD : ∀ s1 r, quiet None s s1 → (∀ e, r = Some e → e ≠ ENil) → back s1 = back s →
    step_ok (T_write lock ctx pr) (Ph_finish ctx' (Some m) pl e) s h (Ph_discard ctx' (Some m) pl r) s1).
  { intros s1 r Hq Hne Hbk. apply (step_ok_quiet None); try done; [by unfold mux_ok; rewrite Hbk| | |].
    - intros ? [= <-]. by left.
    - intros ? [= <-]. by left.
    - change (mutex_made (db (back s1)) m ∧ pipe_made (db (back s1)) pl ∧
        ∀ e, r = Some e → e ≠ ENil).
      rewrite !Hbk. split_and!; [apply Hi|apply Hb|done]. }
  destruct (is_nil e) eqn:En; cbn [negb] in E.
  - apply is_nil_true in En as ->. rewrite (bind_Return _ _ _ _ _ (ctx_Err_run ctx' s)) in E.
    pose proof (quiet_tick forward None s) as Hq.
    destruct (is_nil (Err ctx' (tick (world s)))) eqn:Ee; cbn [negb] in E; injection E as <- <-.
    + apply (step_ok_quiet None); try done; [by intros ? [= <-]; left|by intros ? [= <-]; left|].
      exists hb, σb, l. split_and!; [by eapply in_tx_quiet|by eapply buffers_quiet|done|].
      apply Hr; [|eexists; split; [constructor|done]]. apply is_nil_true in Ee. unfold deadline.
      pose proof (it_deadline _ _ _ _ _ _ _ _ _ _ _ Hi) as Hd. destruct (Deadline ctx') as [t|] eqn:Et; [|done].
      pose proof (it_punctual _ _ _ _ _ _ _ _ _ _ _ Hi _ _ Et Ee). pose proof (forward (world s)). cbn. lia.
    + by apply HD.
  - injection E as <- <-. apply HD; [reflexivity| |done]. intros e' [= <-]. by apply is_nil_false.
Qed.

Lemma redis_step_discard lock ctx pr ctx' m pl r s ph' s' :
  step (T_write lock ctx pr) (Ph_discard ctx' (Some m) pl r) s = (Return ph', s') →
  mux_ok s → logged s →
  thread_ok (T_write lock ctx pr) (Ph_discard ctx' (Some m) pl r) s →
  step_ok (T_write lock ctx pr) (Ph_discard ctx' (Some m) pl r) s h ph' s'.
Proof.
  intros E Hm HL (H1 & H2 & H3). cbn [thread_step] in E.
  rewrite (bind_Return _ _ _ _ _ (redis_run _ s)) in E. injection E as <- <-.
  pose proof (law_Discard pl (db (back s))) as HD.
  apply (step_ok_quiet (Some pl)); try done.
  - split_and!; [done|apply spec_Discard|exact HD].
  - by intros ? [= <-]; left.
  - split; [by apply HD|]. intros e He Hn. by destruct (H3 e He).
Qed.

Lemma redis_step_unlock lock ctx pr ctx' m r s ph' s' :
  step (T_write lock ctx pr) (Ph_unlock ctx' (Some m) r) s = (Return ph', s') →
  mux_ok s → logged s →
  thread_ok (T_write lock ctx pr) (Ph_unlock ctx' (Some m) r) s →
  step_ok (T_write lock ctx pr) (Ph_unlock ctx' (Some m) r) s h ph' s'.
Proof.
  intros E Hm (σ & Hs & Hσ) (H1 & H2). cbn [thread_step] in E.
  destruct (unlock_unlocks forward ctx' m s) as (s1 & Eu & Hu). rewrite (bind_Return _ _ _ _ _ Eu) in E.
  assert (∃ s2, s2 = s' ∧ unlocks m s s2 ∧ ∃ e, ph' = Ph_done e ∧ (∀ e', r = Some e' → e' = e) ∧
    explained σ0 floor h j (T_write lock ctx pr) e) as (? & -> & (Ht & [Hd Hq] & Hr & Hmx & Hh) & e & -> & Hre & He).
  { destruct r as [e|].
    - injection E as <- <-. exists s1. split_and!; [done|done|]. exists e.
      split_and!; [done|by intros ? [= ->]|by apply H2].
    - rewrite (bind_Return _ _ _ _ _ (ctx_Err_run ctx' s1)) in E. injection E as <- <-.
      eexists. split_and!; [done|by etrans; [|apply unlocks_tick]|].
      eexists. split_and!; [done|done|]. intros Hn. by destruct (DatabaseError_not_nil _ Hn). }
  split; try done.
  - unfold mux_ok. by rewrite Hmx.
  - intros m' t _ Hne Hho _. apply Hh; [done|]. intros ->. by apply Hne.
  - left. by split.
  - exists σ. split; [done|]. unfold data. by rewrite Hd.
  - intros e' Hf. cbn in Hf |- *. by rewrite (Hre e' Hf).
Qed.

Lemma redis_step_exec lock ctx pr ctx' m pl s ph' s' :
  tasks !! j = Some (T_write lock ctx pr) →
  step (T_write lock ctx pr) (Ph_exec ctx' (Some m) pl) s = (Return ph', s') →
  mux_ok s → logged s →
  thread_ok (T_write lock ctx pr) (Ph_exec ctx' (Some m) pl) s →
  ∃ h', h `prefix_of` h' ∧ step_ok (T_write lock ctx pr) (Ph_exec ctx' (Some m) pl) s h' ph' s'.
Proof.
  intros Hj E Hm HL (hb & σb & l & Hi & Hb & Hl & Hsp). cbn [thread_step] in E.
  rewrite (bind_Return _ _ _ _ _ (redis_ctx_run _ s)) in E.
  set (w := tick (world s)) in *. set (q := cmd_of prefix <$> l) in *.
  pose proof (spec_Exec pl ctx' w (db (back s)) q (proj2 Hb)) as HE.
  pose proof (law_Exec pl ctx' w (db (back s))) as HX.
  pose proof (λ t, law_Exec_late pl ctx' w (db (back s)) q t (proj2 Hb)) as HLate.
  pose proof (it_deadline _ _ _ _ _ _ _ _ _ _ _ Hi) as Hd.
  destruct (pl_Exec pl ctx' w (db (back s))) as [err d']. cbn [fst snd] in *. injection E as <- <-.
  set (r := if negb (is_nil err) then WrapError ErrCommitFailed err else ENil).
  assert (Hr : r = ENil → err = ENil).
  { unfold r. destruct (is_nil err) eqn:En; [by intros _; apply is_nil_true|done]. }
  assert (HQ : server d' = data s → (err = ENil → l = []) →
    step_ok (T_write lock ctx pr) (Ph_exec ctx' (Some m) pl) s h
      (Ph_unlock ctx' (Some m) (Some r)) (with_db (ticked s) d')).
  { intros Hsd Hnil. apply (step_ok_quiet (Some pl)); try done; [by intros ? [= <-]; left|].
    split; [apply HX, Hi|]. intros e [= <-] Hn. right. exists σb. rewrite (Hnil (Hr Hn)) in Hsp. split; [|exact Hsp].
    exists hb. split_and!; [apply Hi|apply Hi|apply Hi]. }
  destruct (decide (now w ≤ deadline ctx' + lockExpiryOffset)%Z) as [Hin|Hlate].
  2: { exists h. split; [done|]. unfold deadline in Hlate.
    destruct (Deadline ctx') as [t|] eqn:Et; [|done]. cbn in Hlate.
    destruct (HLate t eq_refl) as [Hsd Hne]; [lia|]. apply HQ; [exact Hsd|].
    intros ->. destruct l; [done|]. by destruct (Hne ltac:(done)). }
  assert (Hin' : in_time s ctx') by (pose proof (forward (world s)) as Hf; fold w in Hf; unfold in_time; lia).
  destruct (it_owns _ _ _ _ _ _ _ _ _ _ _ Hi Hin') as (t & Hh & Ht).
  destruct (it_base _ _ _ _ _ _ _ _ _ _ _ Hi Hin') as [-> Hσ].
  destruct HE as [HE|[He HE]]; [|exists h; split; [done|]; by apply HQ].
  exists (h ++ [(j, r)]). split; [by apply prefix_app_r|].
  pose proof HX as (HR & HH & HP). split; try done.
  - intros pl' Hp Hne. apply HP; [done|]. intros [= ->]. by apply Hne.
  - intros m' t' _ _ Hm' _. cbn. by rewrite HH.
  - right. by exists r, m, t.
  - destruct Hsp as (σ1 & Hsp & Hs1). exists σ1. split.
    + econstructor; [apply Hi|exact Hj|]. apply ts_installed; [done|]. unfold r.
      destruct (is_nil err) eqn:En; [by left|right]. exists err. split; [by apply is_nil_false|done].
    + rewrite Hs1. unfold data. cbn. rewrite HE. by apply holds_ops.
  - split; [apply HR, Hi|]. intros e [= <-] Hn. left. apply elem_of_app. right. rewrite Hn. by left.
  - by intros ? [= <-]; left.
Qed.

Lemma redis_thread_step_ok p ph s ph' s' :
  tasks !! j = Some p → task_ok keyType p → mux_ok s → logged s → thread_ok p ph s →
  step p ph s = (Return ph', s') → ∃ h', h `prefix_of` h' ∧ step_ok p ph s h' ph' s'.
Proof.
  intros Hj Htk Hm HL Hok E.
  assert (HW : step_ok p ph s h ph' s' → ∃ h', h `prefix_of` h' ∧ step_ok p ph s h' ph' s') by eauto.
  destruct ph as [| | |ctx' lctx m|ctx' [m|]|ctx' [m|] pl|ctx' [m|] pl t ws pr'|ctx' [m|] pl w c'
    |ctx' [m|] pl e|ctx' [m|] pl r|ctx' [m|] pl|ctx' [m|] r| |r q'|t rs i'| |e],
    p as [lock ctx pr|ctx n c|ctx n q|ctx i|ctx];
    try done; try (injection E as <- <-; apply HW; by apply (step_ok_quiet None)).
  - apply HW. by eapply redis_step_open.
  - apply HW. eapply redis_step_open; try done. by left.
  - apply HW. eapply redis_step_open; try done. by left.
  - apply HW. by apply redis_step_lock.
  - apply HW. by eapply redis_step_open.
  - apply HW. by apply redis_step_mutex.
  - apply HW. by apply redis_step_acquire.
  - apply HW. by apply redis_step_pipeline.
  - apply HW. by apply redis_step_writer.
  - apply HW. by apply redis_step_program.
  - apply HW. by apply redis_step_finish.
  - apply HW. by apply redis_step_discard.
  - by apply redis_step_exec.
  - apply HW. by apply redis_step_unlock.
  - apply HW. by apply redis_step_reader.
  - apply HW. by apply redis_step_reader.
  - apply HW. by apply redis_step_read.
  - apply HW. by apply redis_step_inquire.
  - apply HW. by apply redis_step_closing.
Qed.
End step.

End steps.
