(* ===== verification/RedisSerial.v ===== *)
(** Goroutines on one Redis store, interleaved phase by phase: the calls of [Write] that use
    the option [WithWriteLock] are serialisable, and readers see committed data, even when
    transactions outlive their lock. *)
From S2P Require Import Prelude Errors Keys Go Store Lock Timeout Shelf Client Program Interleave.
From S2P Require Import Redis RedisSpec RedisConcSpec RedisKeys RedisTx RedisClient RedisProgram.
From S2P Require Import RedisConc RedisFrame RedisTask RedisSteps.

Section serial.
Context {Logger W : Type} `{LS : RedisConcSpec W} `{!Env W, !CallScheduler W}.
Context (cfg : Config Logger) (prefix : bytes) (keyType : Key) (fuel : nat).
Context (tasks : list (task (W := W))).
Implicit Types (s : St store W) (σ : shelves) (p : task (W := W)) (ph : phase (W := W))
  (m : Mutex) (pl : Pipeliner).
Abbreviation conc := (conc store W (phase (W := W))).
Abbreviation step := (thread_step cfg prefix fuel).
Abbreviation conc_step := (conc_step step (λ _ _ _, None) tasks).
Abbreviation conc_init := (conc_init tasks Ph_start).
Abbreviation holds := (holds (W := W) prefix keyType).
Abbreviation log := (list (nat * error)).
Abbreviation serial := (serial tasks task_spec).
Abbreviation thread_ok := (thread_ok prefix keyType fuel tasks).
Abbreviation step_ok := (step_ok prefix keyType fuel tasks).
Abbreviation logged := (logged prefix keyType tasks).
Abbreviation explained := (explained tasks).
Abbreviation undisturbed_phase := (undisturbed_phase prefix).

Hypothesis forward : clock_forward (W := W).

(** ** The invariant of the store *)

(** Each goroutine's invariant holds, each with its own [floor]; no two have the same mutex
    or the same pipeline; and the committed data is what the calls of the log [h], all of
    which have come to their results, make of [σ0] one after the other. *)
Record inv σ0 (floor : nat → log) (c : conc) (h : log) : Prop := {
  inv_ok : ∀ i p ph, tasks !! i = Some p → phases c !! i = Some ph →
    thread_ok σ0 (floor i) h i p ph (shared c);
  inv_mutex : ∀ i k ph ph' m, i ≠ k → phases c !! i = Some ph → phases c !! k = Some ph' →
    phase_mutex ph = Some m → phase_mutex ph' = Some m → False;
  inv_pipe : ∀ i k ph ph' pl, i ≠ k → phases c !! i = Some ph → phases c !! k = Some ph' →
    phase_pipe ph = Some pl → phase_pipe ph' = Some pl → False;
  inv_mux : mux_ok (shared c);
  inv_logged : logged σ0 h (shared c);
  inv_log : ∀ i e, (i, e) ∈ h → ∃ ph, phases c !! i = Some ph ∧ finished ph = Some e;
  inv_nodup : NoDup h.*1;
  inv_length : length (phases c) = length tasks
}.

Section inv_step.
Context σ0 (floor : nat → log) (c : conc) (h h' : log) (HI : inv σ0 floor c h).
Context (i : nat) p ph ph' s' (Hp : tasks !! i = Some p) (Hph : phases c !! i = Some ph)
  (Hh : h `prefix_of` h') (HS : step_ok σ0 (floor i) h i p ph (shared c) h' ph' s').
Abbreviation c' := (mkConc s' (<[i := ph']> (phases c))).

Lemma redis_lookup_self : phases c' !! i = Some ph'.
Proof. apply list_lookup_insert_eq. by eapply lookup_lt_Some. Qed.
Lemma redis_lookup_other k : k ≠ i → phases c' !! k = phases c !! k.
Proof. intros Hk. by apply list_lookup_insert_ne. Qed.

Lemma task_of k x : phases c !! k = Some x → ∃ q, tasks !! k = Some q.
Proof.
  intros Hx. apply lookup_lt_is_Some_2. rewrite <-(inv_length _ _ _ _ HI). by eapply lookup_lt_Some.
Qed.

Lemma step_undisturbed k q x :
  k ≠ i → tasks !! k = Some q → phases c !! k = Some x →
  undisturbed_phase x (shared c) h s' h'.
Proof.
  intros Hk Hq Hx. split; [apply HS|done|apply HS| | |].
  - intros pl Hpl Hm. apply (so_pipes _ _ _ _ _ _ _ _ _ _ _ _ _ _ HS); [done|]. intros E.
    by eapply (inv_pipe _ _ _ _ HI k i).
  - intros m t Hm Hmm. apply (so_holder _ _ _ _ _ _ _ _ _ _ _ _ _ _ HS); [done|]. intros E.
    by eapply (inv_mutex _ _ _ _ HI k i).
  - destruct (so_log _ _ _ _ _ _ _ _ _ _ _ _ _ _ HS) as [?|(e & m & t & _ & _ & _ & Hm & Ho)]; [by left|right].
    exists m, t. split; [|done]. intros E. by eapply (inv_mutex _ _ _ _ HI k i).
Qed.

(** The handles of the others are not those of the new phase. *)
Lemma step_mutex_apart k x m :
  k ≠ i → phases c !! k = Some x → phase_mutex ph' = Some m → phase_mutex x = Some m → False.
Proof.
  intros Hk Hx Hm Hm'. destruct (so_new_mutex _ _ _ _ _ _ _ _ _ _ _ _ _ _ HS m Hm) as [Ho|Hn].
  - by eapply (inv_mutex _ _ _ _ HI k i).
  - destruct (task_of k x Hx) as [q Hq].
    by destruct Hn; apply (thread_ok_made _ _ _ _ _ _ _ _ _ _ _ (inv_ok _ _ _ _ HI k q x Hq Hx)).
Qed.
Lemma step_pipe_apart k x pl :
  k ≠ i → phases c !! k = Some x → phase_pipe ph' = Some pl → phase_pipe x = Some pl → False.
Proof.
  intros Hk Hx Hm Hm'. destruct (so_new_pipe _ _ _ _ _ _ _ _ _ _ _ _ _ _ HS pl Hm) as [Ho|Hn].
  - by eapply (inv_pipe _ _ _ _ HI k i).
  - destruct (task_of k x Hx) as [q Hq].
    by destruct Hn; apply (thread_ok_made _ _ _ _ _ _ _ _ _ _ _ (inv_ok _ _ _ _ HI k q x Hq Hx)).
Qed.

Lemma redis_step_logged :
  NoDup h'.*1 ∧ ∀ k e, (k, e) ∈ h' → ∃ x, phases c' !! k = Some x ∧ finished x = Some e.
Proof.
  assert (HL : ∀ k e, (k, e) ∈ h → ∃ x, phases c' !! k = Some x ∧ finished x = Some e).
  { intros k e Hk. destruct (inv_log _ _ _ _ HI k e Hk) as (x & Hx & Hf).
    destruct (decide (k = i)) as [->|Hne]; [|exists x; by rewrite redis_lookup_other].
    exists ph'. rewrite redis_lookup_self. split; [done|]. apply HS. congruence. }
  destruct (so_log _ _ _ _ _ _ _ _ _ _ _ _ _ _ HS) as [[-> _]|(e & m & t & -> & E1 & E2 & _)].
  - split; [apply HI|done].
  - split.
    + rewrite fmap_app. apply NoDup_app. split_and!; [apply HI| |apply NoDup_singleton].
      intros k Hk Hk'. apply list_elem_of_fmap in Hk as ([k1 e1] & Ek & Hin).
      apply list_elem_of_singleton in Hk'. cbn in Ek, Hk'. subst k k1.
      destruct (inv_log _ _ _ _ HI i e1 Hin) as (x & Hx & Hf). congruence.
    + intros k e'. rewrite elem_of_app, list_elem_of_singleton. intros [Hk|[= -> ->]]; [by apply HL|].
      exists ph'. by rewrite redis_lookup_self.
Qed.

Lemma redis_inv_thread : inv σ0 floor c' h'.
Proof.
  destruct redis_step_logged as [H2 H3].
  split; [| | |apply HS|exact (so_serial _ _ _ _ _ _ _ _ _ _ _ _ _ _ HS)|done|done|].
  - intros k q x Hq Hx. cbn [shared]. destruct (decide (k = i)) as [->|Hk].
    + rewrite redis_lookup_self in Hx. injection Hx as <-. rewrite Hp in Hq. injection Hq as <-. apply HS.
    + rewrite redis_lookup_other in Hx by done.
      eapply redis_thread_ok_frame; [by eapply step_undisturbed|by apply HI].
  - intros k l x y m Hkl Hx Hy Hm Hm'. destruct (decide (k = i)) as [->|Hk], (decide (l = i)) as [->|Hl]; try done.
    + rewrite redis_lookup_self in Hx. rewrite redis_lookup_other in Hy by done. injection Hx as <-.
      by eapply (step_mutex_apart l y).
    + rewrite redis_lookup_self in Hy. rewrite redis_lookup_other in Hx by done. injection Hy as <-.
      by eapply (step_mutex_apart k x).
    + rewrite redis_lookup_other in Hx, Hy by done. by eapply (inv_mutex _ _ _ _ HI k l).
  - intros k l x y pl Hkl Hx Hy Hm Hm'. destruct (decide (k = i)) as [->|Hk], (decide (l = i)) as [->|Hl]; try done.
    + rewrite redis_lookup_self in Hx. rewrite redis_lookup_other in Hy by done. injection Hx as <-.
      by eapply (step_pipe_apart l y).
    + rewrite redis_lookup_self in Hy. rewrite redis_lookup_other in Hx by done. injection Hy as <-.
      by eapply (step_pipe_apart k x).
    + rewrite redis_lookup_other in Hx, Hy by done. by eapply (inv_pipe _ _ _ _ HI k l).
  - cbn. rewrite length_insert. apply HI.
Qed.
End inv_step.

Hypothesis tasks_ok : Forall (task_ok keyType) tasks.

Lemma redis_inv_step σ0 floor c c1 h :
  inv σ0 floor c h → conc_step c c1 → ∃ h', h `prefix_of` h' ∧ inv σ0 floor c1 h'.
Proof.
  intros HI Hstep. destruct Hstep as [i p ph ph' s' Hp Hph E|i p ph ph' s' Hp Hph E Es|].
  - rewrite Forall_lookup in tasks_ok.
    destruct (redis_thread_step_ok cfg prefix keyType fuel tasks forward σ0 (floor i) h i p ph (shared c) ph' s' Hp (tasks_ok i p Hp)
      (inv_mux _ _ _ _ HI) (inv_logged _ _ _ _ HI) (inv_ok _ _ _ _ HI i p ph Hp Hph) E) as (h' & Hh & HS).
    exists h'. split; [done|]. by eapply redis_inv_thread.
  - done.
  - exists h. split; [done|]. pose proof HI as [H1 H2 H3 H4 H5 H6 H7 H8]. split; try done.
    intros i p ph Hp Hph. eapply redis_thread_ok_frame; [|by apply H1].
    eapply (quiet_undisturbed prefix None); [by apply quiet_tick|done].
Qed.

Lemma redis_inv_steps σ0 floor c c1 h :
  inv σ0 floor c h → rtc conc_step c c1 → ∃ h', h `prefix_of` h' ∧ inv σ0 floor c1 h'.
Proof.
  intros HI Hs. revert h HI. induction Hs as [c|c c1 c2 H1 _ IH]; intros h HI; [by exists h|].
  destruct (redis_inv_step _ _ _ _ _ HI H1) as (h1 & Hh1 & HI1). destruct (IH _ HI1) as (h2 & Hh2 & HI2).
  exists h2. split; [by etrans|done].
Qed.

Lemma redis_conc_inv_init s σ :
  mux (back s) = unlocked → holds (data s) σ → inv σ (λ _, []) (conc_init s) [].
Proof.
  intros Hm Hσ. pose proof (conc_init_lookup tasks (Ph_start (W := W)) s) as HP. split; try done.
  - intros i p ph Hp ->%HP. cbn. destruct p; apply prefix_nil.
  - by intros i k ph ph' m _ ->%HP ->%HP.
  - by intros i k ph ph' pl _ ->%HP ->%HP.
  - by left.
  - exists σ. split; [constructor|done].
  - by intros i e ?%not_elem_of_nil.
  - constructor.
  - cbn. apply length_replicate.
Qed.

(** The calls that have not begun may be given the log as their floor. *)
Lemma redis_inv_refloor σ0 c h :
  inv σ0 (λ _, []) c h →
  inv σ0 (λ i, match phases c !! i with Some Ph_start => h | _ => [] end) c h.
Proof.
  intros [H1 H2 H3 H4 H5 H6 H7 H8]. split; try done. intros i p ph Hp Hph.
  specialize (H1 i p ph Hp Hph). rewrite Hph. destruct ph; try exact H1. cbn. done.
Qed.

(** C7: serialisability on Redis, with the write lock. Goroutines call [Write] with the option
    [WithWriteLock], under contexts that are over once their deadline has passed, with programs
    that first read with [Get] and then write, on whatever shelves; others call [Read] and
    [ReadShelf] with programs that read with [Get] only; all use well-formed keys of one type,
    and none calls [Empty]. The store may be closed. In every interleaving of their phases, and
    however long a goroutine is held up, the committed data holds what the calls of a log make of the initial shelves when they
    run one after the other, each with the result it has; all of them are at their end, and the
    log only grows. Any other writer that has returned nil has written nothing and did what it
    does on the data after some part of the log; each [Get] of a reader has seen the data after
    some part of the log, later ones after longer parts. A call that began after the calls of
    [h1] has seen all of them. *)
Theorem redis_serializable s σ c1 c2
    (Hm : mux (back s) = unlocked) (Hσ : holds (data s) σ)
    (H1 : rtc conc_step (conc_init s) c1) (H2 : rtc conc_step c1 c2) :
  ∃ h1 h2, h1 `prefix_of` h2 ∧ NoDup h2.*1 ∧
    logged σ h1 (shared c1) ∧ logged σ h2 (shared c2) ∧
    (∀ i e, (i, e) ∈ h1 → ∃ ph, phases c1 !! i = Some ph ∧ finished ph = Some e) ∧
    (∀ i e, (i, e) ∈ h2 → ∃ ph, phases c2 !! i = Some ph ∧ finished ph = Some e) ∧
    ∀ i p e, tasks !! i = Some p → phases c2 !! i = Some (Ph_done e) →
      explained σ (match phases c1 !! i with Some Ph_start => h1 | _ => [] end) h2 i p e.
Proof.
  destruct (redis_inv_steps _ _ _ _ _ (redis_conc_inv_init s σ Hm Hσ) H1) as (h1 & _ & HI1).
  destruct (redis_inv_steps _ _ _ _ _ (redis_inv_refloor _ _ _ HI1) H2) as (h2 & Hh & HI2).
  exists h1, h2. split_and!; [done|apply HI2|apply HI1|apply HI2|apply HI1|apply HI2|].
  intros i p e Hp Hph. pose proof (inv_ok _ _ _ _ HI2 i p _ Hp Hph) as Hok. by destruct p.
Qed.
End serial.
