(* ===== verification/RedisConcExamples.v ===== *)
(** Interleaved calls on one Redis store at concrete inputs: increments of a counter, with the
    write lock and without; a reader that sees no snapshot; a transaction that outlives its
    lock; and the store closed under a call. *)
From S2P Require Import Prelude Errors Keys Go Store Lock Timeout Shelf Client Program Interleave.
From S2P Require Import Redis RedisSpec RedisConcSpec RedisKeys RedisTx RedisClient RedisProgram.
From S2P Require Import RedisConc RedisFrame RedisTask RedisSteps RedisSerial RedisExamples.
Import RedisMem RedisConcMem.

#[local] Instance prompt : CallScheduler () := λ _, [K_worker; K_rendezvous].

(** Reads a counter in unary notation and writes it back with one stroke more. *)
Definition counter : Key := key 7.
Definition increment : Client.client :=
  c_get counter (λ r, c_put counter (default [] r.1 ++ #"|") c_return).
Definition read_counter : query :=
  q_get counter (λ r, q_return (errorfText (default #"none" r.1))).

(** The same on the shelf [s], with a copy of the new value on the shelf [t]; and a look at
    both. *)
Definition count : program :=
  p_get #"s" counter (λ r, let v := default [] r.1 ++ #"|" in
    p_put #"s" counter v (λ _, p_put #"t" counter v p_return)).
Definition look : inquiry :=
  i_get #"s" counter (λ a, i_get #"t" counter (λ b,
    i_return (errorfText (default #"none" a.1 ++ #"/" ++ default #"none" b.1)))).
Definition counter_name (n : bytes) : bytes := redis_name (W := ()) pre n counter.

Abbreviation conc := (conc store () (phase (W := ()))).
Definition counter_on (n : bytes) (c : conc) : option bytes := data (shared c) !! counter_name n.
Abbreviation counter_value := (counter_on #"s").
Definition results (c : conc) : list (option error) := finished <$> phases c.

Lemma count_reads_first : program_reads_first (key 0) count.
Proof. split; [done|]. intros r. by repeat split. Qed.
Lemma background_punctual : punctual (W := ()) Background.
Proof. by intros w t. Qed.
Lemma empty_store_holds : holds (W := ()) pre (key 0) (data empty_store) (λ _, []).
Proof. intros n. split; [constructor|apply empty_store_represents]. Qed.

(** ** With and without the lock, while time stands still *)

Module Still.
#[local] Instance still : Env () := λ w, w.

Definition locked_count : task (W := ()) := T_write true Background count.
Definition tasks : list (task (W := ())) :=
  [locked_count; locked_count; T_read Background #"s" read_counter; T_inquire Background look].
Abbreviation step := (thread_step config pre 0).
Abbreviation init tasks := (conc_init tasks Ph_start empty_store).
Definition run (tasks : list (task (W := ()))) (sched : list nat) : conc :=
  conc_run step (λ _ _ _, None) tasks sched (init tasks).

Lemma still_forward : clock_forward (W := ()).
Proof. intros w. unfold tick, still. lia. Qed.
Lemma redis_tasks_ok : Forall (task_ok (key 0)) tasks.
Proof.
  unfold tasks. rewrite !Forall_cons. split_and!; try done;
    first [split_and!; [done|exact background_punctual|exact count_reads_first]|by repeat split].
Qed.

(** A call of [Write] on its own takes fifteen phases. *)
Definition one_by_one : list nat := repeat 0 15 ++ repeat 1 15 ++ repeat 2 4 ++ repeat 3 8.
Definition together : list nat := concat (repeat [0; 1; 2; 3] 15).

(** One after the other; and in turns, when the second writer does not get the lock. *)
Example redis_interleavings :
  counter_value (run tasks one_by_one) = Some #"||" ∧
  counter_on #"t" (run tasks one_by_one) = Some #"||" ∧
  results (run tasks one_by_one) =
    [Some ENil; Some ENil; Some (errorfText #"||"); Some (errorfText #"||/||")] ∧
  counter_value (run tasks together) = Some #"|" ∧
  results (run tasks together) =
    [Some ENil;
     Some (Errorf #"unable to obtain Redis transaction-level write lock" (DatabaseError LockFailed));
     Some (errorfText #"none"); Some (errorfText #"none/none")].
Proof. vm_compute. repeat split. Qed.

(** A transaction is installed as a whole, but a call of [Read] sees no snapshot: between its
    two [Get]s the writer commits. *)
Example redis_read_skew :
  let c := run tasks (repeat 3 4 ++ repeat 0 15 ++ repeat 3 4) in
  results c = [Some ENil; None; None; Some (errorfText #"none/|")].
Proof. vm_compute. repeat split. Qed.

Lemma redis_serializable_witness :
  let c1 := run tasks (take 9 one_by_one) in
  let c2 := conc_run step (λ _ _ _, None) tasks (drop 9 one_by_one) c1 in
  ∃ h1 h2, h1 `prefix_of` h2 ∧ NoDup h2.*1 ∧
    logged (W := ()) pre (key 0) tasks (λ _, []) h1 (shared c1) ∧
    logged (W := ()) pre (key 0) tasks (λ _, []) h2 (shared c2) ∧
    (∀ i e, (i, e) ∈ h1 → ∃ ph, phases c1 !! i = Some ph ∧ finished ph = Some e) ∧
    (∀ i e, (i, e) ∈ h2 → ∃ ph, phases c2 !! i = Some ph ∧ finished ph = Some e) ∧
    ∀ i p e, tasks !! i = Some p → phases c2 !! i = Some (Ph_done e) →
      explained tasks (λ _, [])
        (match phases c1 !! i with Some Ph_start => h1 | _ => [] end) h2 i p e.
Proof.
  intros c1 c2.
  exact (redis_serializable config pre (key 0) 0 tasks still_forward redis_tasks_ok empty_store
    (λ _, []) c1 c2 eq_refl empty_store_holds
    (conc_run_steps step (λ _ _ _, None) tasks (take 9 one_by_one) (init tasks))
    (conc_run_steps step (λ _ _ _, None) tasks (drop 9 one_by_one) c1)).
Defined.

(** The lock does not keep out [WriteShelf], nor [Write] without the option: between the read
    and the write of the locked transaction another one commits, and its increment is lost. *)
Example redis_lost_update :
  let tasks := [locked_count; T_shelf Background #"s" increment] in
  let c := run tasks (repeat 0 8 ++ repeat 1 12 ++ repeat 0 7) in
  results c = [Some ENil; Some ENil] ∧ counter_value c = Some #"|".
Proof. vm_compute. repeat split. Qed.

Definition panicked {A} (o : outcome A) : bool := match o with Panic => true | _ => false end.

(** [Close] between the look at the store and the begin of the transaction, or before a
    reader's first [Get]: the client is gone, and the call panics. *)
Example redis_close_race :
  let tasks := [T_shelf Background #"s" increment; T_read Background #"s" read_counter;
                T_close Background] in
  let c := run tasks [0; 0; 0; 1; 2; 2; 1] in
  results c = [None; None; Some ENil] ∧
  panicked (step (T_shelf Background #"s" increment) (default Ph_start (phases c !! 0)) (shared c)).1 = true ∧
  panicked (step (T_read Background #"s" read_counter) (default Ph_start (phases c !! 1)) (shared c)).1 = true.
Proof. vm_compute. repeat split. Qed.
End Still.

(** ** A transaction that outlives its lock *)

Module Slow.
(** Every call takes four seconds, and a lock may be waited for a minute. *)
#[local] Instance slow : Env () := λ w, mkWorld (now w + 4 * Second) (app w).
Definition patient : Config () := WithLockAcquireTimeout (60 * Second) config.

(** Reads the counter seven times. *)
Definition seven_reads : query :=
  let get q := q_get counter (λ _, q) in get (get (get (get (get (get read_counter))))).
Definition tasks : list (task (W := ())) :=
  [T_write true Background count; T_write true Background count;
   T_read Background #"s" seven_reads].
Definition run (sched : list nat) : conc :=
  conc_run (thread_step patient pre 0) (λ _ _ _, None) tasks sched (conc_init tasks Ph_start empty_store).

(** The first writer is held up before [Exec], until its lock has expired and the second one
    has committed; its own transaction takes no effect then, and it is told so. *)
Example redis_expired_lock :
  let c := run (repeat 0 13 ++ repeat 2 10 ++ repeat 1 15 ++ repeat 0 2) in
  counter_value c = Some #"|" ∧
  results c = [Some (WrapError ErrCommitFailed DeadlineExceeded); Some ENil; Some (errorfText #"none")].
Proof. vm_compute. repeat split. Qed.
End Slow.
