(* ===== verification/Stores.v ===== *)
(** The three stores side by side: one contract. *)
From S2P Require Import Prelude Errors Keys Go Store Lock Timeout Shelf Prefix Client Program Contract.
From S2P Require Import Bbolt BboltSpec BboltTx BboltProgram BboltContract.
From S2P Require Import Badger BadgerSpec BadgerTx BadgerProgram BadgerContract.
From S2P Require Import Redis RedisSpec RedisTx RedisClient RedisProgram RedisContract.

Section stores.
Context {Logger W : Type} `{!Env W, !Scheduler W, !CallScheduler W}.
Context `{BoS : BoltSpec} `{BaS : BadgerSpec} `{ReS : RedisSpec W}.
Context (cfg : Config Logger) (fuel : nat).
Context (ctx : Context W) (Hst : sticky ctx).
Hypothesis no_interference : undisturbed W.
Hypothesis forward : clock_forward (W := W).

(** A history of calls on [st] in the state [s], and what it comes to, if it does not wait
    for a lock for ever. *)
Definition keeps_contract {B} (st : KVStore B W) (holding : St B W → Program.shelves → Prop)
    (open_fails write_fails read_fails : error → Prop) (exact uncertain waits : bool)
    (l : list call) (s : St B W) (σ : Program.shelves) : Prop :=
  (waits = true ∧ (run_history st ctx l s).1 = Blocked) ∨
  ∃ es s' σ', run_history st ctx l s = (Return es, s') ∧
    history_spec open_fails write_fails read_fails exact uncertain l σ es σ' ∧ holding s' σ'.

(** C8: one contract for all stores. Whatever calls of [Write], [Read], [WriteShelf] and
    [ReadShelf] with client programs the application makes, one after the other, their results
    and what the store holds afterwards are those of the abstract store of all shelves. On
    bbolt that holds for any calls, unless one waits for the lock for ever; but what [Empty]
    says in a transaction of a shelf that the transaction has changed is left open. On Badger
    it holds while the database is open, for calls on shelves no two of which have names of
    which one is a prefix of the other; every call returns. On Redis it holds for programs that
    use well-formed keys of one type, read before they write and do not call [Empty]; every
    call returns, and a failed execution of the pipeline may have had its effect. *)
Theorem stores_keep_contract (l : list call) (names : bytes → Prop) (prefix : bytes) (keyType : Key) :
  (∀ s σ, bbolt_holding s σ →
     keeps_contract (Bbolt.Wrap cfg fuel) bbolt_holding
       bbolt_open_fails bbolt_write_fails bbolt_read_fails false false true l s σ) ∧
  ((∀ n m, names n → names m → n ≠ m → unrelated n m) →
   Forall (badger_permits names) l → ∀ s σ, badger_holding names s σ →
     keeps_contract (Badger.Wrap fuel) (badger_holding names)
       badger_open_fails badger_write_fails badger_read_fails true false false l s σ) ∧
  (Forall (redis_permits keyType) l → ∀ s σ, redis_holding prefix keyType s σ →
     keeps_contract (as_KVStore cfg prefix fuel) (redis_holding prefix keyType)
       redis_open_fails redis_write_fails redis_read_fails true true false l s σ).
Proof.
  split_and!.
  - intros s σ Hs. eapply (run_history_refines _ _ (λ _, True)); [|by apply Forall_true|done].
    by apply bbolt_Conforms.
  - intros Hn Hl s σ Hs. eapply (run_history_refines _ _ (badger_permits names)); [|done|done].
    by apply badger_Conforms.
  - intros Hl s σ Hs. eapply (run_history_refines _ _ (redis_permits keyType)); [|done|done].
    by apply redis_Conforms.
Qed.

(** C9: transactions with options. [Write] with a program on several shelves is all or nothing:
    it is refused with a database error, it commits what the abstract store makes of the
    shelves, or it leaves them alone and returns the error of the program or a database error
    (on Redis, such an error may also come although all has been done). The [AfterCommit]
    functions are called if and only if it commits, otherwise, unless it is refused, the
    [OnRollback] functions; all of them, in their order, once, when the store is holding what
    the transaction leaves; and what they do to the store stays. The conditions on the program
    are those of C8; on Badger, moreover, the functions may use the store, but neither close it
    nor end a transaction of another. *)
Theorem stores_call_options (p : program) (names : bytes → Prop) (prefix : bytes) (keyType : Key) :
  (∀ opts s σ, bbolt_holding s σ →
     runs_transaction (Bbolt.Wrap cfg fuel) ctx bbolt_holding
       bbolt_open_fails bbolt_write_fails bbolt_read_fails false false true p opts s σ) ∧
  ((∀ n m, names n → names m → n ≠ m → unrelated n m) → program_on names p →
   ∀ opts s σ, Forall badger_polite (after_commit_fns opts) →
     Forall badger_polite (on_rollback_fns opts) → badger_holding names s σ →
     runs_transaction (Badger.Wrap fuel) ctx (badger_holding names)
       badger_open_fails badger_write_fails badger_read_fails true false false p opts s σ) ∧
  (program_reads_first keyType p → ∀ opts s σ, redis_holding prefix keyType s σ →
     runs_transaction (as_KVStore cfg prefix fuel) ctx (redis_holding prefix keyType)
       redis_open_fails redis_write_fails redis_read_fails true true false p opts s σ).
Proof.
  split_and!.
  - intros opts s σ Hs. eapply (bbolt_Transacts cfg fuel no_interference forward ctx Hst);
      [done|by apply Forall_true..|done].
  - intros Hn Hp opts s σ Hac Hrb Hs. by eapply (badger_Transacts fuel names Hn ctx Hst).
  - intros Hp opts s σ Hs. eapply (redis_Transacts cfg prefix keyType fuel forward ctx Hst);
      [done|by apply Forall_true..|done].
Qed.
(** The last result of a history, in which the key was written with [w] and [f] makes a result
    of what [Get] answers. *)
Definition answered (read_fails : error → Prop) (w : option bytes)
    (f : option bytes * error → error) (es : list error) : Prop :=
  ∃ e, last es = Some e ∧
    (e = f (answer w) ∨ (∃ err, err ≠ ENil ∧ read_fails err ∧ e = f (None, err)) ∨
     is_database_error e = true).

(** C10: reading what was written. On each of the three stores, after a [Put] or [Delete] of
    a key for which [WriteShelf] returned nil, and any calls that do not write to that shelf,
    a [Get] of the key in [ReadShelf] answers with the value put, or with [ErrKeyNotFound] after
    the [Delete], unless the read itself fails. (The conditions on the calls are those of C8.) *)
Theorem stores_get_after_write n k w f l es (names : bytes → Prop) (prefix : bytes) (keyType : Key)
    (Hn : Forall (leaves n) l) :
  let history := Call_write n (c_write k w) :: l ++ [Call_read n (q_ask k f)] in
  (∀ s σ s', bbolt_holding s σ →
     run_history (Bbolt.Wrap cfg fuel) ctx history s = (Return (ENil :: es), s') →
     answered bbolt_read_fails w f es) ∧
  ((∀ n m, names n → names m → n ≠ m → unrelated n m) →
   Forall (badger_permits names) history → ∀ s σ s', badger_holding names s σ →
     run_history (Badger.Wrap fuel) ctx history s = (Return (ENil :: es), s') →
     answered badger_read_fails w f es) ∧
  (Forall (redis_permits keyType) history → ∀ s σ s', redis_holding prefix keyType s σ →
     run_history (as_KVStore cfg prefix fuel) ctx history s = (Return (ENil :: es), s') →
     answered redis_read_fails w f es).
Proof.
  intros history. split_and!.
  - intros s σ s' Hs HR. pose proof (bbolt_Conforms cfg no_interference forward fuel ctx Hst) as HC.
    eapply (answer_after_write _ _ (λ _, True));
      [exact HC|by apply Forall_true|exact Hs|exact Hn|exact HR].
  - intros Hsep Hl s σ s' Hs HR. pose proof (badger_Conforms names Hsep fuel ctx Hst).
    by eapply (answer_after_write _ _ (badger_permits names)).
  - intros Hl s σ s' Hs HR.
    pose proof (redis_Conforms cfg prefix keyType forward fuel ctx Hst) as HC.
    by eapply (answer_after_write _ _ (redis_permits keyType)).
Qed.
End stores.
