(* ===== verification/StoresExamples.v ===== *)
(** The contract of the three stores at a concrete history, the scenario of Contract.v on empty
    stores; and a transaction whose options use the store. *)
From S2P Require Import Prelude Errors Keys Go Store Lock Timeout Shelf Prefix Client Program Contract.
From S2P Require Import BboltSpec BboltProgram BboltContract BboltExamples.
From S2P Require Import BadgerSpec BadgerProgram BadgerContract BadgerNested BadgerExamples.
From S2P Require Import RedisSpec RedisClient RedisProgram RedisContract RedisExamples Stores.
Import BoltMem BadgerMem RedisMem.

#[local] Instance still : Env () := λ w, w.
#[local] Instance uncontended : Scheduler () :=
  λ _, [Ch_locker; Ch_locker; Ch_locker; Ch_rendezvous; Ch_locker].
#[local] Instance prompt : CallScheduler () := λ _, [K_worker; K_rendezvous].

Definition config : Config () := DefaultConfig ().

Lemma stores_keep_contract_witness :
  keeps_contract Background (Bbolt.Wrap config 9) bbolt_holding
    bbolt_open_fails BboltTx.bbolt_write_fails BboltTx.bbolt_read_fails false false true Scenario.calls
    BboltExamples.empty_store (λ _, []) ∧
  keeps_contract Background (Badger.Wrap 9) (badger_holding two_names)
    badger_open_fails BadgerTx.badger_write_fails BadgerTx.badger_read_fails true false false
    Scenario.calls BadgerExamples.empty_store (λ _, []) ∧
  keeps_contract Background (Redis.as_KVStore config pre 9)
    (redis_holding pre (Uint32Key 0)) redis_open_fails redis_write_fails redis_read_fails true true false
    Scenario.calls RedisExamples.empty_store (λ _, []).
Proof.
  destruct (stores_keep_contract config 9 Background bbolt_background_sticky no_others bbolt_forward
    Scenario.calls two_names pre (Uint32Key 0)) as (H1 & H2 & H3).
  split; [exact (H1 _ _ bbolt_empty_store_holds)|].
  split; [|exact (H3 scenario_permitted _ _ redis_empty_store_holds)].
  refine (H2 two_names_separate scenario_on_two_names _ _ badger_empty_store_holds).
Defined.

(** ** Reading what was written *)

(** The value is there after a call that does not write to the shelf. *)
Definition between : list call := [Call_read Scenario.shelf_name (q_return Canceled)].
Definition write_and_ask : list call :=
  Call_write Scenario.shelf_name (c_write Scenario.k (Some #"x")) ::
  between ++ [Call_read Scenario.shelf_name (q_ask Scenario.k Scenario.show)].
Definition asked : list error := [Canceled; errorfText #"x"].

Lemma write_and_ask_on_two_names : Forall (badger_permits two_names) write_and_ask.
Proof. repeat apply Forall_cons_2; try apply Forall_nil_2; by left. Qed.
Lemma write_and_ask_permitted : Forall (redis_permits (Uint32Key 0)) write_and_ask.
Proof. repeat apply Forall_cons_2; try apply Forall_nil_2; by cbn. Qed.

Lemma stores_get_after_write_witness :
  answered BboltTx.bbolt_read_fails (Some #"x") Scenario.show asked ∧
  answered BadgerTx.badger_read_fails (Some #"x") Scenario.show asked ∧
  answered redis_read_fails (Some #"x") Scenario.show asked.
Proof.
  destruct (stores_get_after_write config 9 Background bbolt_background_sticky no_others
    bbolt_forward Scenario.shelf_name Scenario.k (Some #"x") Scenario.show between asked two_names
    pre (Uint32Key 0) ltac:(repeat constructor)) as (H1 & H2 & H3).
  split; [|split].
  - refine (H1 BboltExamples.empty_store _ _ bbolt_empty_store_holds (pair_of_fst _ _ _)).
    vm_compute. reflexivity.
  - refine (H2 two_names_separate write_and_ask_on_two_names BadgerExamples.empty_store _ _
      badger_empty_store_holds (pair_of_fst _ _ _)).
    vm_compute. reflexivity.
  - refine (H3 write_and_ask_permitted RedisExamples.empty_store _ _ redis_empty_store_holds
      (pair_of_fst _ _ _)).
    vm_compute. reflexivity.
Defined.

(** ** Options that use the store *)

(** A transaction puts two pairs; when it is committed another call puts a third one, and when it
    is not, a fourth one. *)
Definition log_key : Key := Uint32Key 1.
Definition fill (result : error) : program :=
  p_put Scenario.shelf_name Scenario.k #"x" (λ _,
    p_put Scenario.archive_name Scenario.k #"y" (λ _, p_return result)).
Definition note (v : bytes) : client := c_put log_key v c_return.

Section options.
Context {B : Type} (st : KVStore B ()).
Definition put_note (v : bytes) : M B () () :=
  _ ← WriteShelf st Background Scenario.archive_name (λ w, run_client w (note v)); mret ().
Definition noting : list (TxOption B ()) :=
  [AfterCommit (put_note #"committed"); WithWriteLock; OnRollback (put_note #"undone")].

(** The results of the transaction and of a look at the shelves afterwards. *)
Definition look_at_notes : inquiry :=
  i_get Scenario.shelf_name Scenario.k (λ a, i_get Scenario.archive_name log_key (λ b,
    i_return (errorfText (default #"none" a.1 ++ #" / " ++ default #"none" b.1)))).
Definition fill_and_look (result : error) : M B () (error * error) :=
  e ← Write st Background (λ t, run_program t ∅ (fill result)) noting;
  e' ← Read st Background (λ t, run_inquiry t ∅ look_at_notes);
  mret (e, e').
End options.

Example stores_options_run :
  let seen result :=
    if is_nil result then (ENil, errorfText #"x / committed")
    else (result, errorfText #"none / undone") in
  ∀ result, result ∈ [ENil; Canceled] →
    (fill_and_look (Bbolt.Wrap config 9) result BboltExamples.empty_store).1 =
      Return (seen result) ∧
    (fill_and_look (Badger.Wrap 9) result BadgerExamples.empty_store).1 = Return (seen result) ∧
    (fill_and_look (Redis.as_KVStore config pre 9) result RedisExamples.empty_store).1 =
      Return (seen result).
Proof.
  intros seen result. rewrite !elem_of_cons, elem_of_nil.
  intros [-> | [-> | []]]; vm_compute; repeat split.
Qed.

Lemma fill_on_two_names : program_on two_names (fill ENil).
Proof. split; [by left|]. intros _. split; [by right|]. by intros _. Qed.
Lemma fill_reads_first : program_reads_first (Uint32Key 0) (fill ENil).
Proof. split; [done|]. intros _. split; [done|]. by intros _. Qed.
Lemma note_polite v : badger_polite (put_note (Badger.Wrap 9) v).
Proof.
  apply polite_WriteShelf; [exact badger_background_sticky|]. intros _. apply polite_ret.
Qed.

Lemma stores_call_options_witness :
  runs_transaction (Bbolt.Wrap config 9) Background bbolt_holding
    bbolt_open_fails BboltTx.bbolt_write_fails BboltTx.bbolt_read_fails false false true
    (fill ENil) (noting (Bbolt.Wrap config 9)) BboltExamples.empty_store (λ _, []) ∧
  runs_transaction (Badger.Wrap 9) Background (badger_holding two_names)
    badger_open_fails BadgerTx.badger_write_fails BadgerTx.badger_read_fails true false false
    (fill ENil) (noting (Badger.Wrap 9)) BadgerExamples.empty_store (λ _, []) ∧
  runs_transaction (Redis.as_KVStore config pre 9) Background (redis_holding pre (Uint32Key 0))
    redis_open_fails redis_write_fails redis_read_fails true true false
    (fill ENil) (noting (Redis.as_KVStore config pre 9)) RedisExamples.empty_store (λ _, []).
Proof.
  destruct (stores_call_options config 9 Background bbolt_background_sticky no_others bbolt_forward
    (fill ENil) two_names pre (Uint32Key 0)) as (H1 & H2 & H3).
  split; [exact (H1 _ _ _ bbolt_empty_store_holds)|].
  split; [|exact (H3 fill_reads_first _ _ _ redis_empty_store_holds)].
  exact (H2 two_names_separate fill_on_two_names (noting (Badger.Wrap 9)) _ _
    (proj2 (Forall_singleton _ _) (note_polite _)) (proj2 (Forall_singleton _ _) (note_polite _))
    badger_empty_store_holds).
Defined.
