(* ===== verification/KVTests.v ===== *)
(** kvtests/common_tests.go: the tests that every store of the repository runs, as programs of
    the [KVStore] interface. Left out are the subtests that reach into the library's
    transaction object or compare stores for identity, and the one with ten goroutines, whose
    subject the theorems on interleaved calls have. *)
From S2P Require Import Prelude Errors Keys Go Store.

(** The variables of the tests' closures. *)
Record vars := mkVars {
  actual : option bytes;
  entries : list (Key * bytes);
  called : bool;
  rollbackCalled : bool;
  afterCommitCalled : bool;
  cancelled : bool
}.
Definition no_vars : vars := mkVars None [] false false false false.

Section kvtests.
Context {B : Type}.
Abbreviation M := (M B vars).
Abbreviation KVStore := (KVStore B vars).
Abbreviation ctx := (@Background vars).

(** *** The closures' accesses to the variables *)

Definition modify (f : vars → vars) : M () :=
  w ← get_world; put_world (mkWorld (now w) (f (app w))).
Definition get_vars : M vars := w ← get_world; mret (app w).

Definition set_actual (o : option bytes) : M () :=
  modify (λ v, mkVars o (entries v) (called v) (rollbackCalled v) (afterCommitCalled v) (cancelled v)).
Definition append_entry (k : Key) (x : bytes) : M () :=
  modify (λ v, mkVars (actual v) (entries v ++ [(k, x)]) (called v) (rollbackCalled v)
                 (afterCommitCalled v) (cancelled v)).
Definition set_called : M () :=
  modify (λ v, mkVars (actual v) (entries v) true (rollbackCalled v) (afterCommitCalled v) (cancelled v)).
Definition set_rollbackCalled : M () :=
  modify (λ v, mkVars (actual v) (entries v) (called v) true (afterCommitCalled v) (cancelled v)).
Definition set_afterCommitCalled : M () :=
  modify (λ v, mkVars (actual v) (entries v) (called v) (rollbackCalled v) true (cancelled v)).

(** [context.WithCancel] and its [cancel], and [time.Sleep]. *)
Definition cancellable : Context vars :=
  mkContext None (λ w, if cancelled (app w) then Canceled else ENil).
Definition cancel : M () :=
  modify (λ v, mkVars (actual v) (entries v) (called v) (rollbackCalled v) (afterCommitCalled v) true).
Definition sleep (d : Z) : M () :=
  w ← get_world; put_world (mkWorld (now w + d) (app w)).

(** *** Data *)

Definition bytesKey : Key := BytesKey [x01; x02; x03].
Definition next (k : Key) : Key := default k (Next k).
Definition bytesValue : bytes := Bytes (next bytesKey).
Definition largerBytesKey : Key := BytesKey [x04; x05; x06].
Definition largerBytesValue : bytes := [x64; x65; x66].
Definition stringKey : Key := BytesKey (#"message").
Definition stringValue : bytes := #"Hello, World!".
Definition shelf : bytes := #"test".
Definition failure : error := errorfText (#"failure").

(** *** Assertions *)

Definition NoError (e : error) : bool := is_nil e.
Definition Error (e : error) : bool := negb (is_nil e).
Definition ErrorIs (e target : error) : bool := errors_Is e target.
Definition Equal {A} `{EqDecision A} (x y : A) : bool := bool_decide (x = y).

(** The pattern of a read that remembers what it got. *)
Definition get_into (r : Reader B vars) (k : Key) : M error :=
  x ← Get r k; _ ← set_actual x.1; mret x.2.
Definition collect (k : Key) (x : bytes) : M error := _ ← append_entry k x; mret ENil.
(** Writes pairs, ignoring the results. *)
Fixpoint put_all (w : Writer B vars) (l : list (Key * bytes)) : M error :=
  match l with
  | [] => mret ENil
  | (k, x) :: l' => _ ← Put w k x; put_all w l'
  end.

Definition test : Type := KVStore → M bool.

(** *** TestReadingAndWriting *)

Definition write_then_read (k : Key) (x : bytes) : test := λ st,
  err ← Write st ctx (λ tx, w ← GetShelfWriter tx shelf; Put w k x) [];
  err' ← ReadShelf st ctx shelf (λ r, get_into r k);
  v ← get_vars;
  mret (NoError err && NoError err' && Equal (actual v) (Some x)).

Definition ReadShelf_for_non_existing_shelf : test := λ st,
  err ← ReadShelf st ctx shelf (λ r, _ ← set_called; mret ENil);
  v ← get_vars;
  mret (NoError err && called v).

Definition GetShelfReader_for_non_existing_shelf : test := λ st,
  err ← Read st ctx (λ tx,
    r ← GetShelfReader tx shelf;
    x ← Get r (BytesKey (#"key"));
    if negb (is_nil x.2) then mret x.2
    else match x.1 with None => mret ENil | Some _ => panic end);
  mret (ErrorIs err ErrKeyNotFound).

Definition read_non_existing_key : test := λ st,
  err ← WriteShelf st ctx shelf (λ w, Put w stringKey stringValue);
  err' ← ReadShelf st ctx shelf (λ r, get_into r bytesKey);
  v ← get_vars;
  mret (NoError err && ErrorIs err' ErrKeyNotFound && Equal (actual v) None).

Definition TestReadingAndWriting : list test :=
  [write_then_read bytesKey bytesValue; write_then_read stringKey stringValue;
   ReadShelf_for_non_existing_shelf; GetShelfReader_for_non_existing_shelf; read_non_existing_key].

(** *** TestRange *)

Definition input : list (Key * bytes) :=
  [(bytesKey, bytesValue); (next bytesKey, bytesValue); (next (next (next bytesKey)), bytesValue)].

Definition range_over_values (stopAtNil : bool) (expected : list (Key * bytes)) : test := λ st,
  _ ← WriteShelf st ctx shelf (λ w, put_all w input);
  err ← ReadShelf st ctx shelf (λ r, Range r bytesKey largerBytesKey collect stopAtNil);
  v ← get_vars;
  mret (NoError err && Equal (entries v) expected).

(** [n] keys from [k] on. *)
Fixpoint keys_from (n : nat) (k : Key) : list Key :=
  match n with O => [] | S n' => k :: keys_from n' (next k) end.

Definition many_results (stored wanted : nat) : test := λ st,
  let keys := keys_from stored bytesKey in
  let to := default bytesKey (keys !! wanted) in
  _ ← WriteShelf st ctx shelf (λ w, put_all w ((λ k, (k, bytesValue)) <$> keys));
  err ← ReadShelf st ctx shelf (λ r, Range r bytesKey to collect false);
  v ← get_vars;
  mret (NoError err && Equal (length (entries v)) wanted).

Definition range_error : test := λ st,
  _ ← WriteShelf st ctx shelf (λ w, Put w bytesKey bytesValue);
  err ← ReadShelf st ctx shelf (λ r, Range r bytesKey largerBytesKey (λ _ _, mret failure) false);
  mret (Equal err failure && negb (is_database_error err)).

Definition range_cancelled : test := λ st,
  _ ← WriteShelf st ctx shelf (λ w, put_all w input);
  err ← ReadShelf st cancellable shelf (λ r,
    Range r bytesKey largerBytesKey (λ _ _, _ ← cancel; mret ENil) false);
  mret (ErrorIs err Canceled && is_database_error err).

(** The test that skips gaps comes last, and the number of results is a parameter. *)
Definition TestRange (stored wanted : nat) : list test :=
  [range_over_values true (take 2 input); many_results stored wanted; range_error;
   range_cancelled].
Definition TestRange_skip_gaps : list test := [range_over_values false input].

(** *** TestEmpty *)

Definition empty_is (n : bytes) (pairs : list (Key * bytes)) (expected : bool) : test := λ st,
  _ ← WriteShelf st ctx n (λ w, put_all w pairs);
  err ← ReadShelf st ctx shelf (λ r,
    x ← Empty r; mret (if NoError x.2 && Equal x.1 expected then ENil else failure));
  mret (NoError err).

Definition returns_true_for_an_empty_shelf : test := λ st,
  err ← ReadShelf st ctx shelf (λ r,
    x ← Empty r; mret (if NoError x.2 && x.1 then ENil else failure));
  mret (NoError err).

Definition zero : list (Key * bytes) := [(BytesKey [x00], [x00])].
Definition TestEmpty : list test :=
  [returns_true_for_an_empty_shelf; empty_is (#"other") zero true; empty_is shelf zero false].

(** *** TestIterate *)

(** Iterates over a shelf with the given pairs. *)
Definition iterates_over_all_keys (pairs : list (Key * bytes)) (keyType : Key) : test := λ st,
  _ ← WriteShelf st ctx shelf (λ w, put_all w pairs);
  err ← ReadShelf st ctx shelf (λ r, Iterate r collect keyType);
  v ← get_vars;
  mret (NoError err && Equal (length (entries v)) (length pairs) &&
        forallb (λ x, bool_decide (x ∈ entries v)) pairs).

Definition iterate_over_empty_store : test := λ st,
  err ← ReadShelf st ctx shelf (λ r, Iterate r collect (BytesKey []));
  v ← get_vars;
  mret (NoError err && Equal (entries v) []).

Definition iterate_error : test := λ st,
  err ← WriteShelf st ctx shelf (λ w, Put w bytesKey bytesValue);
  err' ← ReadShelf st ctx shelf (λ r, Iterate r (λ _ _, mret failure) (BytesKey []));
  mret (NoError err && Equal err' failure && negb (is_database_error err')).

Definition iterate_cancelled : test := λ st,
  _ ← WriteShelf st ctx shelf (λ w, Put w bytesKey bytesValue);
  _ ← cancel;
  err ← ReadShelf st cancellable shelf (λ r, Iterate r (λ _ _, mret ENil) (BytesKey []));
  mret (ErrorIs err Canceled && is_database_error err).

Definition int_pairs : list (Key * bytes) :=
  (λ n, (Uint32Key n, Bytes (Uint32Key (n + 1000)))) <$> [1; 2; 3; 10; 11]%N.
Definition TestIterate : list test :=
  [iterates_over_all_keys [(bytesKey, bytesValue); (largerBytesKey, largerBytesValue)] (BytesKey []);
   iterates_over_all_keys int_pairs (Uint32Key 0); iterate_over_empty_store; iterate_error;
   iterate_cancelled].

(** *** TestWriteTransactions *)

Definition rollback_does_not_commit_changes : test := λ st,
  let secondKey := next bytesKey in
  let thirdKey := next secondKey in
  _ ← WriteShelf st ctx shelf (λ w, _ ← Put w bytesKey bytesValue; mret ENil);
  err ← WriteShelf st ctx shelf (λ w,
    _ ← Put w secondKey bytesValue;
    _ ← Put w thirdKey bytesValue;
    x ← Get w bytesKey;
    _ ← set_actual x.1;
    mret failure);
  err' ← ReadShelf st ctx shelf (λ r, Iterate r collect (BytesKey []));
  v ← get_vars;
  mret (Error err && negb (is_database_error err) && Equal (actual v) (Some bytesValue) &&
        NoError err' && Equal (fst <$> entries v) [bytesKey]).

Definition afterCommit_and_onRollback_after_commit : test := λ st,
  err ← Write st ctx (λ tx, w ← GetShelfWriter tx shelf; Put w bytesKey bytesValue)
    [AfterCommit (innerError ← ReadShelf st ctx shelf (λ r, get_into r bytesKey);
                  if negb (is_nil innerError) then panic else mret ());
     OnRollback set_rollbackCalled];
  v ← get_vars;
  mret (NoError err && Equal (actual v) (Some bytesValue) && negb (rollbackCalled v)).

Definition afterCommit_and_onRollback_on_rollback : test := λ st,
  _ ← Write st ctx (λ tx, mret failure)
    [AfterCommit set_afterCommitCalled; OnRollback set_rollbackCalled];
  v ← get_vars;
  mret (negb (afterCommitCalled v) && rollbackCalled v).

(** The other goroutine cancels the context while the callback waits for this. *)
Definition context_cancellation_prevents_commit : test := λ st,
  err ← WriteShelf st cancellable shelf (λ w,
    err ← Put w bytesKey bytesValue;
    _ ← cancel;
    mret err);
  err' ← ReadShelf st ctx shelf (λ r, get_into r bytesKey);
  v ← get_vars;
  mret (ErrorIs err Canceled && is_database_error err && ErrorIs err' ErrKeyNotFound &&
        Equal (actual v) None).

Definition TestWriteTransactions : list test :=
  [rollback_does_not_commit_changes; afterCommit_and_onRollback_after_commit;
   afterCommit_and_onRollback_on_rollback; context_cancellation_prevents_commit].

(** *** TestTransactionWriteLock *)

Definition context_expired : test := λ st,
  w ← get_world;
  err ← Write st (WithTimeout ctx (now w) (Second / 2)) (λ tx, _ ← sleep Second; mret ENil)
    [WithWriteLock];
  mret (ErrorIs err DeadlineExceeded && is_database_error err).

Definition TestTransactionWriteLock : list test := [context_expired].

(** *** TestDelete *)

Definition write_delete_read : test := λ st,
  err ← WriteShelf st ctx shelf (λ w, _ ← Put w bytesKey bytesValue; Put w largerBytesKey bytesValue);
  err' ← WriteShelf st ctx shelf (λ w, Delete w bytesKey);
  err'' ← ReadShelf st ctx shelf (λ r, get_into r bytesKey);
  v ← get_vars;
  mret (NoError err && NoError err' && ErrorIs err'' ErrKeyNotFound && Equal (actual v) None).

Definition delete_non_existing_entry : test := λ st,
  err ← WriteShelf st ctx shelf (λ w, Delete w bytesKey);
  mret (NoError err).

Definition TestDelete : list test := [write_delete_read; delete_non_existing_entry].

(** *** TestClose *)

Definition close_closed_store : test := λ st,
  err ← Close st ctx;
  err' ← Close st ctx;
  mret (NoError err && NoError err').

Definition close_timeout : test := λ st,
  _ ← cancel;
  err ← Close st cancellable;
  mret (Equal err (DatabaseError Canceled)).

Definition TestClose : list test := [close_closed_store; close_timeout].

(** *** TestStats *)

Definition stats_empty_then_not : test := λ st,
  let getStats (n : bytes) (check : ShelfStats → bool) : M bool :=
    err ← ReadShelf st ctx n (λ r, x ← Stats r; mret (if check x then ENil else failure));
    mret (NoError err) in
  b1 ← getStats shelf (λ x, Equal (NumEntries x) 0%N && Equal (ShelfSize x) 0%N);
  err ← WriteShelf st ctx shelf (λ w, Put w (Uint32Key 2) (#"test value"));
  b2 ← getStats shelf (λ x, Equal (NumEntries x) 1%N && (0 <? ShelfSize x)%N);
  mret (b1 && NoError err && b2).

Definition TestStats : list test := [stats_empty_then_not].

(** The tests of all stores. *)
Definition common_tests (stored wanted : nat) : list test :=
  TestReadingAndWriting ++ TestRange stored wanted ++ TestEmpty ++ TestIterate ++ TestWriteTransactions ++
  TestDelete ++ TestClose.

(** A subtest on a new store, which is closed afterwards. *)
Definition createStore (t : test) : test := λ st, b ← t st; _ ← Close st ctx; mret b.
Definition run_test (st : KVStore) (b : B) (t : test) : outcome bool :=
  (createStore t st (mkSt b (mkWorld 0 no_vars))).1.
Definition passes (st : KVStore) (b : B) (t : test) : bool :=
  match run_test st b t with Return true => true | _ => false end.
End kvtests.
