(* ===== verification/KVTestsRuns.v ===== *)
(** The conformance tests of KVTests.v run on the three stores, each with its in-memory
    library and the tests the repository runs on it: Badger and Redis do not pass [TestStats],
    and Badger has no write lock. The tests with many results run with 20 pairs here, and the
    one in which Redis skips a gap of some 200,000 keys is left out. *)
From S2P Require Import Prelude Errors Keys Go Store Lock Timeout KVTests.
From S2P Require Bbolt BboltSpec Badger BadgerSpec Redis RedisSpec.

(** Time passes; a context that is over is noticed; a free lock is taken, and a call returns. *)
#[local] Instance millisecond : Env vars := λ w, mkWorld (now w + Second / 1000) (app w).
#[local] Instance scheduler : Scheduler vars :=
  λ _, [Ch_locker; Ch_locker; Ch_locker; Ch_rendezvous; Ch_locker;
        Ch_caller; Ch_caller; Ch_caller; Ch_caller].
#[local] Instance call_scheduler : CallScheduler vars :=
  λ _, [K_caller; K_caller; K_caller; K_worker; K_rendezvous].

Definition results {B} (st : KVStore B vars) (b : B) (l : list test) : list bool := passes st b <$> l.

Module BboltRun.
Import Bbolt BboltSpec BoltMem.
Definition st : KVStore store vars := Wrap (DefaultConfig ()) 3000.
Definition new : store := mkStore _ (mkMem ∅ ∅ 0 false false : DB) unlocked.
Example bbolt_passes_kvtests :
  results st new (common_tests 20 15 ++ TestRange_skip_gaps ++ TestStats ++ TestTransactionWriteLock) =
    replicate 28 true.
Proof. vm_compute. reflexivity. Qed.
End BboltRun.

Module BadgerRun.
Import Badger BadgerSpec BadgerMem.
Definition st : KVStore store vars := Wrap 3000.
Definition new : store := mkStore _ (mkMem [] ∅ 0 [] false false : DB) [].
Example badger_passes_kvtests :
  results st new (common_tests 20 15 ++ TestRange_skip_gaps) = replicate 26 true.
Proof. vm_compute. reflexivity. Qed.
End BadgerRun.

Module RedisRun.
Import Redis RedisSpec RedisMem.
Definition st : KVStore (store (W := vars)) vars := as_KVStore (DefaultConfig ()) #"db" 3000.
Definition new : store (W := vars) := mkStore _ _ (empty_db : DB) (Some () : option Client) unlocked.
Example redis_passes_kvtests :
  results st new (common_tests 20 15 ++ TestTransactionWriteLock) = replicate 26 true.
Proof. vm_compute. reflexivity. Qed.
End RedisRun.

