(* ===== verification/Mock.v ===== *)
(** mock.go: the mocks that mockgen made of the interfaces of store.go. The controller that
    records the expected calls and answers the actual ones is gomock's, a parameter. *)
From S2P Require Import Prelude Errors Keys Go Store.

(** ** Values *)

(** Values of type [any], as far as the mocks pass them on; [other] are those of the test
    that are none of the listed ones (matchers, its own types). A nil error is the nil
    interface. *)
Inductive any (B W other : Type) :=
  | A_nil
  | A_bool (b : bool)
  | A_string (s : bytes)
  | A_bytes (b : option bytes)
  | A_error (e : error)
  | A_key (k : Key)
  | A_stats (st : ShelfStats)
  | A_context (ctx : Context W)
  | A_CallerFn (f : CallerFn B W)
  | A_ReaderFn (f : Reader B W → M B W error)
  | A_WriterFn (f : Writer B W → M B W error)
  | A_ReadTxFn (f : ReadTx B W → M B W error)
  | A_WriteTxFn (f : WriteTx B W → M B W error)
  | A_TxOption (o : TxOption B W)
  | A_Reader (r : Reader B W)
  | A_Writer (w : Writer B W)
  | A_KVStore (st : KVStore B W)
  | A_other (o : other).
Arguments A_nil {B W other}.
Arguments A_bool {B W other} b.
Arguments A_string {B W other} s.
Arguments A_bytes {B W other} b.
Arguments A_error {B W other} e.
Arguments A_key {B W other} k.
Arguments A_stats {B W other} st.
Arguments A_context {B W other} ctx.
Arguments A_CallerFn {B W other} f.
Arguments A_ReaderFn {B W other} f.
Arguments A_WriterFn {B W other} f.
Arguments A_ReadTxFn {B W other} f.
Arguments A_WriteTxFn {B W other} f.
Arguments A_TxOption {B W other} o.
Arguments A_Reader {B W other} r.
Arguments A_Writer {B W other} w.
Arguments A_KVStore {B W other} st.
Arguments A_other {B W other} o.

(** A mock object, to the controller: the name of its type and its address. *)
Definition receiver : Type := bytes * N.
(** The type of a method, [reflect.TypeOf] of the method value, to the controller. *)
Definition method_type : Type := bytes * bytes.

(** [gomock.Controller]: [T.Helper()], [Call] and [RecordCallWithMethodType]. *)
Class GoMock (B W other : Type) := {
  Controller : Type;
  GoMockCall : Type;
  T_Helper : Controller → M B W ();
  ctrl_Call : Controller → receiver → bytes → list (any B W other) → M B W (list (any B W other));
  ctrl_RecordCallWithMethodType :
    Controller → receiver → bytes → method_type → list (any B W other) → M B W GoMockCall
}.

Section mocks.
Context `{GM : GoMock B W other}.
Abbreviation M := (M B W).
Abbreviation any := (any B W other).

(** The element [ret[i]] of a slice. *)
Definition index (ret : list any) (i : nat) : M any := must (ret !! i).

(** Type assertions [v, _ := x.(T)]: the zero value when [x] is no [T]. A call on a nil
    interface panics. *)
Definition as_error (x : any) : error := match x with A_error e => e | _ => ENil end.
Definition as_bool (x : any) : bool := match x with A_bool b => b | _ => false end.
Definition as_bytes (x : any) : option bytes := match x with A_bytes b => b | _ => None end.
Definition as_ShelfStats (x : any) : ShelfStats :=
  match x with A_stats st => st | _ => mkShelfStats 0 0 end.
Definition nil_Reader : Reader B W := mkReader panic (λ _, panic) (λ _ _, panic)
    (λ _ _ _ _, panic) panic.
Definition nil_Writer : Writer B W := mkWriter nil_Reader (λ _ _, panic) (λ _, panic).
Definition nil_KVStore : KVStore B W :=
  mkKVStore (λ _, panic) (λ _ _ _, panic) (λ _ _, panic) (λ _ _ _, panic) (λ _ _ _, panic).
Definition as_Reader (x : any) : Reader B W :=
  match x with A_Reader r => r | A_Writer w => as_reader w | _ => nil_Reader end.
Definition as_Writer (x : any) : Writer B W := match x with A_Writer w => w | _ => nil_Writer end.
Definition as_KVStore (x : any) : KVStore B W
    := match x with A_KVStore st => st | _ => nil_KVStore end.

(** *** MockKVStore *)

Record MockKVStore := mkMockKVStore { MockKVStore_ctrl : Controller; MockKVStore_address : N }.
Definition MockKVStore_self (m : MockKVStore) : receiver
    := (#"MockKVStore", MockKVStore_address m).
Record MockKVStoreMockRecorder := mkMockKVStoreMockRecorder {
  MockKVStoreMockRecorder_mock : MockKVStore
}.

(** [address] is where the new object lies. *)
Definition NewMockKVStore (ctrl : Controller) (address : N) : MockKVStore :=
  mkMockKVStore ctrl address.
Definition MockKVStore_EXPECT (m : MockKVStore) : MockKVStoreMockRecorder :=
  mkMockKVStoreMockRecorder m.

Definition MockKVStore_Close (m : MockKVStore) (ctx : Context W) : M error :=
  _ ← T_Helper (MockKVStore_ctrl m);
  ret ← ctrl_Call (MockKVStore_ctrl m) (MockKVStore_self m) #"Close"
          [A_context ctx];
  ret0 ← index ret 0;
  mret (as_error ret0).

Definition MockKVStoreMockRecorder_Close (mr : MockKVStoreMockRecorder) (ctx : any)
    : M GoMockCall :=
  let m := MockKVStoreMockRecorder_mock mr in
  _ ← T_Helper (MockKVStore_ctrl m);
  ctrl_RecordCallWithMethodType (MockKVStore_ctrl m) (MockKVStore_self m)
    #"Close" (#"MockKVStore", #"Close") [ctx].

Definition MockKVStore_Read (m : MockKVStore) (ctx : Context W) (fn : ReadTx B W → M error)
    : M error :=
  _ ← T_Helper (MockKVStore_ctrl m);
  ret ← ctrl_Call (MockKVStore_ctrl m) (MockKVStore_self m) #"Read"
          [A_context ctx; A_ReadTxFn fn];
  ret0 ← index ret 0;
  mret (as_error ret0).

Definition MockKVStoreMockRecorder_Read (mr : MockKVStoreMockRecorder) (ctx : any) (fn : any)
    : M GoMockCall :=
  let m := MockKVStoreMockRecorder_mock mr in
  _ ← T_Helper (MockKVStore_ctrl m);
  ctrl_RecordCallWithMethodType (MockKVStore_ctrl m) (MockKVStore_self m)
    #"Read" (#"MockKVStore", #"Read") [ctx; fn].

Definition MockKVStore_ReadShelf (m : MockKVStore) (ctx : Context W) (shelfName : bytes)
    (fn : Reader B W → M error) : M error :=
  _ ← T_Helper (MockKVStore_ctrl m);
  ret ← ctrl_Call (MockKVStore_ctrl m) (MockKVStore_self m) #"ReadShelf"
          [A_context ctx; A_string shelfName; A_ReaderFn fn];
  ret0 ← index ret 0;
  mret (as_error ret0).

Definition MockKVStoreMockRecorder_ReadShelf (mr : MockKVStoreMockRecorder) (ctx : any)
    (shelfName : any) (fn : any) : M GoMockCall :=
  let m := MockKVStoreMockRecorder_mock mr in
  _ ← T_Helper (MockKVStore_ctrl m);
  ctrl_RecordCallWithMethodType (MockKVStore_ctrl m) (MockKVStore_self m)
    #"ReadShelf" (#"MockKVStore", #"ReadShelf") [ctx; shelfName; fn].

Definition MockKVStore_Write (m : MockKVStore) (ctx : Context W) (fn : WriteTx B W → M error)
    (opts : list (TxOption B W)) : M error :=
  _ ← T_Helper (MockKVStore_ctrl m);
  ret ← ctrl_Call (MockKVStore_ctrl m) (MockKVStore_self m) #"Write"
          ([A_context ctx; A_WriteTxFn fn] ++ (A_TxOption <$> opts));
  ret0 ← index ret 0;
  mret (as_error ret0).

Definition MockKVStoreMockRecorder_Write (mr : MockKVStoreMockRecorder) (ctx : any) (fn : any)
    (opts : list any) : M GoMockCall :=
  let m := MockKVStoreMockRecorder_mock mr in
  _ ← T_Helper (MockKVStore_ctrl m);
  ctrl_RecordCallWithMethodType (MockKVStore_ctrl m) (MockKVStore_self m)
    #"Write" (#"MockKVStore", #"Write") ([ctx; fn] ++ opts).

Definition MockKVStore_WriteShelf (m : MockKVStore) (ctx : Context W) (shelfName : bytes)
    (fn : Writer B W → M error) : M error :=
  _ ← T_Helper (MockKVStore_ctrl m);
  ret ← ctrl_Call (MockKVStore_ctrl m) (MockKVStore_self m) #"WriteShelf"
          [A_context ctx; A_string shelfName; A_WriterFn fn];
  ret0 ← index ret 0;
  mret (as_error ret0).

Definition MockKVStoreMockRecorder_WriteShelf (mr : MockKVStoreMockRecorder) (ctx : any)
    (shelfName : any) (fn : any) : M GoMockCall :=
  let m := MockKVStoreMockRecorder_mock mr in
  _ ← T_Helper (MockKVStore_ctrl m);
  ctrl_RecordCallWithMethodType (MockKVStore_ctrl m) (MockKVStore_self m)
    #"WriteShelf" (#"MockKVStore", #"WriteShelf") [ctx; shelfName; fn].

(** *** MockReader *)

Record MockReader := mkMockReader { MockReader_ctrl : Controller; MockReader_address : N }.
Definition MockReader_self (m : MockReader) : receiver := (#"MockReader", MockReader_address m).
Record MockReaderMockRecorder := mkMockReaderMockRecorder {
  MockReaderMockRecorder_mock : MockReader
}.

Definition NewMockReader (ctrl : Controller) (address : N) : MockReader :=
  mkMockReader ctrl address.
Definition MockReader_EXPECT (m : MockReader) : MockReaderMockRecorder :=
  mkMockReaderMockRecorder m.

Definition MockReader_Empty (m : MockReader) : M (bool * error) :=
  _ ← T_Helper (MockReader_ctrl m);
  ret ← ctrl_Call (MockReader_ctrl m) (MockReader_self m) #"Empty"
          [];
  ret0 ← index ret 0;
  ret1 ← index ret 1;
  mret (as_bool ret0, as_error ret1).

Definition MockReaderMockRecorder_Empty (mr : MockReaderMockRecorder) : M GoMockCall :=
  let m := MockReaderMockRecorder_mock mr in
  _ ← T_Helper (MockReader_ctrl m);
  ctrl_RecordCallWithMethodType (MockReader_ctrl m) (MockReader_self m)
    #"Empty" (#"MockReader", #"Empty") [].

Definition MockReader_Get (m : MockReader) (key : Key) : M (option bytes * error) :=
  _ ← T_Helper (MockReader_ctrl m);
  ret ← ctrl_Call (MockReader_ctrl m) (MockReader_self m) #"Get"
          [A_key key];
  ret0 ← index ret 0;
  ret1 ← index ret 1;
  mret (as_bytes ret0, as_error ret1).

Definition MockReaderMockRecorder_Get (mr : MockReaderMockRecorder) (key : any) : M GoMockCall :=
  let m := MockReaderMockRecorder_mock mr in
  _ ← T_Helper (MockReader_ctrl m);
  ctrl_RecordCallWithMethodType (MockReader_ctrl m) (MockReader_self m)
    #"Get" (#"MockReader", #"Get") [key].

Definition MockReader_Iterate (m : MockReader) (callback : CallerFn B W) (keyType : Key)
    : M error :=
  _ ← T_Helper (MockReader_ctrl m);
  ret ← ctrl_Call (MockReader_ctrl m) (MockReader_self m) #"Iterate"
          [A_CallerFn callback; A_key keyType];
  ret0 ← index ret 0;
  mret (as_error ret0).

Definition MockReaderMockRecorder_Iterate (mr : MockReaderMockRecorder) (callback : any)
    (keyType : any) : M GoMockCall :=
  let m := MockReaderMockRecorder_mock mr in
  _ ← T_Helper (MockReader_ctrl m);
  ctrl_RecordCallWithMethodType (MockReader_ctrl m) (MockReader_self m)
    #"Iterate" (#"MockReader", #"Iterate") [callback; keyType].

Definition MockReader_Range (m : MockReader) (from : Key) (to : Key) (callback : CallerFn B W)
    (stopAtNil : bool) : M error :=
  _ ← T_Helper (MockReader_ctrl m);
  ret ← ctrl_Call (MockReader_ctrl m) (MockReader_self m) #"Range"
          [A_key from; A_key to; A_CallerFn callback; A_bool stopAtNil];
  ret0 ← index ret 0;
  mret (as_error ret0).

Definition MockReaderMockRecorder_Range (mr : MockReaderMockRecorder) (from : any) (to : any)
    (callback : any) (stopAtNil : any) : M GoMockCall :=
  let m := MockReaderMockRecorder_mock mr in
  _ ← T_Helper (MockReader_ctrl m);
  ctrl_RecordCallWithMethodType (MockReader_ctrl m) (MockReader_self m)
    #"Range" (#"MockReader", #"Range") [from; to; callback; stopAtNil].

Definition MockReader_Stats (m : MockReader) : M ShelfStats :=
  _ ← T_Helper (MockReader_ctrl m);
  ret ← ctrl_Call (MockReader_ctrl m) (MockReader_self m) #"Stats"
          [];
  ret0 ← index ret 0;
  mret (as_ShelfStats ret0).

Definition MockReaderMockRecorder_Stats (mr : MockReaderMockRecorder) : M GoMockCall :=
  let m := MockReaderMockRecorder_mock mr in
  _ ← T_Helper (MockReader_ctrl m);
  ctrl_RecordCallWithMethodType (MockReader_ctrl m) (MockReader_self m)
    #"Stats" (#"MockReader", #"Stats") [].

(** *** MockWriter *)

Record MockWriter := mkMockWriter { MockWriter_ctrl : Controller; MockWriter_address : N }.
Definition MockWriter_self (m : MockWriter) : receiver := (#"MockWriter", MockWriter_address m).
Record MockWriterMockRecorder := mkMockWriterMockRecorder {
  MockWriterMockRecorder_mock : MockWriter
}.

Definition NewMockWriter (ctrl : Controller) (address : N) : MockWriter :=
  mkMockWriter ctrl address.
Definition MockWriter_EXPECT (m : MockWriter) : MockWriterMockRecorder :=
  mkMockWriterMockRecorder m.

Definition MockWriter_Delete (m : MockWriter) (key : Key) : M error :=
  _ ← T_Helper (MockWriter_ctrl m);
  ret ← ctrl_Call (MockWriter_ctrl m) (MockWriter_self m) #"Delete"
          [A_key key];
  ret0 ← index ret 0;
  mret (as_error ret0).

Definition MockWriterMockRecorder_Delete (mr : MockWriterMockRecorder) (key : any) : M GoMockCall
    :=
  let m := MockWriterMockRecorder_mock mr in
  _ ← T_Helper (MockWriter_ctrl m);
  ctrl_RecordCallWithMethodType (MockWriter_ctrl m) (MockWriter_self m)
    #"Delete" (#"MockWriter", #"Delete") [key].

Definition MockWriter_Empty (m : MockWriter) : M (bool * error) :=
  _ ← T_Helper (MockWriter_ctrl m);
  ret ← ctrl_Call (MockWriter_ctrl m) (MockWriter_self m) #"Empty"
          [];
  ret0 ← index ret 0;
  ret1 ← index ret 1;
  mret (as_bool ret0, as_error ret1).

Definition MockWriterMockRecorder_Empty (mr : MockWriterMockRecorder) : M GoMockCall :=
  let m := MockWriterMockRecorder_mock mr in
  _ ← T_Helper (MockWriter_ctrl m);
  ctrl_RecordCallWithMethodType (MockWriter_ctrl m) (MockWriter_self m)
    #"Empty" (#"MockWriter", #"Empty") [].

Definition MockWriter_Get (m : MockWriter) (key : Key) : M (option bytes * error) :=
  _ ← T_Helper (MockWriter_ctrl m);
  ret ← ctrl_Call (MockWriter_ctrl m) (MockWriter_self m) #"Get"
          [A_key key];
  ret0 ← index ret 0;
  ret1 ← index ret 1;
  mret (as_bytes ret0, as_error ret1).

Definition MockWriterMockRecorder_Get (mr : MockWriterMockRecorder) (key : any) : M GoMockCall :=
  let m := MockWriterMockRecorder_mock mr in
  _ ← T_Helper (MockWriter_ctrl m);
  ctrl_RecordCallWithMethodType (MockWriter_ctrl m) (MockWriter_self m)
    #"Get" (#"MockWriter", #"Get") [key].

Definition MockWriter_Iterate (m : MockWriter) (callback : CallerFn B W) (keyType : Key)
    : M error :=
  _ ← T_Helper (MockWriter_ctrl m);
  ret ← ctrl_Call (MockWriter_ctrl m) (MockWriter_self m) #"Iterate"
          [A_CallerFn callback; A_key keyType];
  ret0 ← index ret 0;
  mret (as_error ret0).

Definition MockWriterMockRecorder_Iterate (mr : MockWriterMockRecorder) (callback : any)
    (keyType : any) : M GoMockCall :=
  let m := MockWriterMockRecorder_mock mr in
  _ ← T_Helper (MockWriter_ctrl m);
  ctrl_RecordCallWithMethodType (MockWriter_ctrl m) (MockWriter_self m)
    #"Iterate" (#"MockWriter", #"Iterate") [callback; keyType].

Definition MockWriter_Put (m : MockWriter) (key : Key) (value : bytes) : M error :=
  _ ← T_Helper (MockWriter_ctrl m);
  ret ← ctrl_Call (MockWriter_ctrl m) (MockWriter_self m) #"Put"
          [A_key key; A_bytes (Some value)];
  ret0 ← index ret 0;
  mret (as_error ret0).

Definition MockWriterMockRecorder_Put (mr : MockWriterMockRecorder) (key : any) (value : any)
    : M GoMockCall :=
  let m := MockWriterMockRecorder_mock mr in
  _ ← T_Helper (MockWriter_ctrl m);
  ctrl_RecordCallWithMethodType (MockWriter_ctrl m) (MockWriter_self m)
    #"Put" (#"MockWriter", #"Put") [key; value].

Definition MockWriter_Range (m : MockWriter) (from : Key) (to : Key) (callback : CallerFn B W)
    (stopAtNil : bool) : M error :=
  _ ← T_Helper (MockWriter_ctrl m);
  ret ← ctrl_Call (MockWriter_ctrl m) (MockWriter_self m) #"Range"
          [A_key from; A_key to; A_CallerFn callback; A_bool stopAtNil];
  ret0 ← index ret 0;
  mret (as_error ret0).

Definition MockWriterMockRecorder_Range (mr : MockWriterMockRecorder) (from : any) (to : any)
    (callback : any) (stopAtNil : any) : M GoMockCall :=
  let m := MockWriterMockRecorder_mock mr in
  _ ← T_Helper (MockWriter_ctrl m);
  ctrl_RecordCallWithMethodType (MockWriter_ctrl m) (MockWriter_self m)
    #"Range" (#"MockWriter", #"Range") [from; to; callback; stopAtNil].

Definition MockWriter_Stats (m : MockWriter) : M ShelfStats :=
  _ ← T_Helper (MockWriter_ctrl m);
  ret ← ctrl_Call (MockWriter_ctrl m) (MockWriter_self m) #"Stats"
          [];
  ret0 ← index ret 0;
  mret (as_ShelfStats ret0).

Definition MockWriterMockRecorder_Stats (mr : MockWriterMockRecorder) : M GoMockCall :=
  let m := MockWriterMockRecorder_mock mr in
  _ ← T_Helper (MockWriter_ctrl m);
  ctrl_RecordCallWithMethodType (MockWriter_ctrl m) (MockWriter_self m)
    #"Stats" (#"MockWriter", #"Stats") [].

(** *** MockStore *)

Record MockStore := mkMockStore { MockStore_ctrl : Controller; MockStore_address : N }.
Definition MockStore_self (m : MockStore) : receiver := (#"MockStore", MockStore_address m).
Record MockStoreMockRecorder := mkMockStoreMockRecorder {
  MockStoreMockRecorder_mock : MockStore
}.

Definition NewMockStore (ctrl : Controller) (address : N) : MockStore :=
  mkMockStore ctrl address.
Definition MockStore_EXPECT (m : MockStore) : MockStoreMockRecorder :=
  mkMockStoreMockRecorder m.

Definition MockStore_Close (m : MockStore) (ctx : Context W) : M error :=
  _ ← T_Helper (MockStore_ctrl m);
  ret ← ctrl_Call (MockStore_ctrl m) (MockStore_self m) #"Close"
          [A_context ctx];
  ret0 ← index ret 0;
  mret (as_error ret0).

Definition MockStoreMockRecorder_Close (mr : MockStoreMockRecorder) (ctx : any) : M GoMockCall :=
  let m := MockStoreMockRecorder_mock mr in
  _ ← T_Helper (MockStore_ctrl m);
  ctrl_RecordCallWithMethodType (MockStore_ctrl m) (MockStore_self m)
    #"Close" (#"MockStore", #"Close") [ctx].

(** *** MockTxOption *)

Record MockTxOption := mkMockTxOption { MockTxOption_ctrl : Controller;
    MockTxOption_address : N }.
Definition MockTxOption_self (m : MockTxOption) : receiver
    := (#"MockTxOption", MockTxOption_address m).
Record MockTxOptionMockRecorder := mkMockTxOptionMockRecorder {
  MockTxOptionMockRecorder_mock : MockTxOption
}.

Definition NewMockTxOption (ctrl : Controller) (address : N) : MockTxOption :=
  mkMockTxOption ctrl address.
Definition MockTxOption_EXPECT (m : MockTxOption) : MockTxOptionMockRecorder :=
  mkMockTxOptionMockRecorder m.

(** *** MockWriteTx *)

Record MockWriteTx := mkMockWriteTx { MockWriteTx_ctrl : Controller; MockWriteTx_address : N }.
Definition MockWriteTx_self (m : MockWriteTx) : receiver
    := (#"MockWriteTx", MockWriteTx_address m).
Record MockWriteTxMockRecorder := mkMockWriteTxMockRecorder {
  MockWriteTxMockRecorder_mock : MockWriteTx
}.

Definition NewMockWriteTx (ctrl : Controller) (address : N) : MockWriteTx :=
  mkMockWriteTx ctrl address.
Definition MockWriteTx_EXPECT (m : MockWriteTx) : MockWriteTxMockRecorder :=
  mkMockWriteTxMockRecorder m.

Definition MockWriteTx_GetShelfReader (m : MockWriteTx) (shelfName : bytes) : M (Reader B W) :=
  _ ← T_Helper (MockWriteTx_ctrl m);
  ret ← ctrl_Call (MockWriteTx_ctrl m) (MockWriteTx_self m) #"GetShelfReader"
          [A_string shelfName];
  ret0 ← index ret 0;
  mret (as_Reader ret0).

Definition MockWriteTxMockRecorder_GetShelfReader (mr : MockWriteTxMockRecorder)
    (shelfName : any) : M GoMockCall :=
  let m := MockWriteTxMockRecorder_mock mr in
  _ ← T_Helper (MockWriteTx_ctrl m);
  ctrl_RecordCallWithMethodType (MockWriteTx_ctrl m) (MockWriteTx_self m)
    #"GetShelfReader" (#"MockWriteTx", #"GetShelfReader") [shelfName].

Definition MockWriteTx_GetShelfWriter (m : MockWriteTx) (shelfName : bytes) : M (Writer B W) :=
  _ ← T_Helper (MockWriteTx_ctrl m);
  ret ← ctrl_Call (MockWriteTx_ctrl m) (MockWriteTx_self m) #"GetShelfWriter"
          [A_string shelfName];
  ret0 ← index ret 0;
  mret (as_Writer ret0).

Definition MockWriteTxMockRecorder_GetShelfWriter (mr : MockWriteTxMockRecorder)
    (shelfName : any) : M GoMockCall :=
  let m := MockWriteTxMockRecorder_mock mr in
  _ ← T_Helper (MockWriteTx_ctrl m);
  ctrl_RecordCallWithMethodType (MockWriteTx_ctrl m) (MockWriteTx_self m)
    #"GetShelfWriter" (#"MockWriteTx", #"GetShelfWriter") [shelfName].

Definition MockWriteTx_Store (m : MockWriteTx) : M (KVStore B W) :=
  _ ← T_Helper (MockWriteTx_ctrl m);
  ret ← ctrl_Call (MockWriteTx_ctrl m) (MockWriteTx_self m) #"Store"
          [];
  ret0 ← index ret 0;
  mret (as_KVStore ret0).

Definition MockWriteTxMockRecorder_Store (mr : MockWriteTxMockRecorder) : M GoMockCall :=
  let m := MockWriteTxMockRecorder_mock mr in
  _ ← T_Helper (MockWriteTx_ctrl m);
  ctrl_RecordCallWithMethodType (MockWriteTx_ctrl m) (MockWriteTx_self m)
    #"Store" (#"MockWriteTx", #"Store") [].

Definition MockWriteTx_Unwrap (m : MockWriteTx) : M any :=
  _ ← T_Helper (MockWriteTx_ctrl m);
  ret ← ctrl_Call (MockWriteTx_ctrl m) (MockWriteTx_self m) #"Unwrap"
          [];
  ret0 ← index ret 0;
  mret (ret0).

Definition MockWriteTxMockRecorder_Unwrap (mr : MockWriteTxMockRecorder) : M GoMockCall :=
  let m := MockWriteTxMockRecorder_mock mr in
  _ ← T_Helper (MockWriteTx_ctrl m);
  ctrl_RecordCallWithMethodType (MockWriteTx_ctrl m) (MockWriteTx_self m)
    #"Unwrap" (#"MockWriteTx", #"Unwrap") [].

(** *** MockReadTx *)

Record MockReadTx := mkMockReadTx { MockReadTx_ctrl : Controller; MockReadTx_address : N }.
Definition MockReadTx_self (m : MockReadTx) : receiver := (#"MockReadTx", MockReadTx_address m).
Record MockReadTxMockRecorder := mkMockReadTxMockRecorder {
  MockReadTxMockRecorder_mock : MockReadTx
}.

Definition NewMockReadTx (ctrl : Controller) (address : N) : MockReadTx :=
  mkMockReadTx ctrl address.
Definition MockReadTx_EXPECT (m : MockReadTx) : MockReadTxMockRecorder :=
  mkMockReadTxMockRecorder m.

Definition MockReadTx_GetShelfReader (m : MockReadTx) (shelfName : bytes) : M (Reader B W) :=
  _ ← T_Helper (MockReadTx_ctrl m);
  ret ← ctrl_Call (MockReadTx_ctrl m) (MockReadTx_self m) #"GetShelfReader"
          [A_string shelfName];
  ret0 ← index ret 0;
  mret (as_Reader ret0).

Definition MockReadTxMockRecorder_GetShelfReader (mr : MockReadTxMockRecorder) (shelfName : any)
    : M GoMockCall :=
  let m := MockReadTxMockRecorder_mock mr in
  _ ← T_Helper (MockReadTx_ctrl m);
  ctrl_RecordCallWithMethodType (MockReadTx_ctrl m) (MockReadTx_self m)
    #"GetShelfReader" (#"MockReadTx", #"GetShelfReader") [shelfName].

Definition MockReadTx_Store (m : MockReadTx) : M (KVStore B W) :=
  _ ← T_Helper (MockReadTx_ctrl m);
  ret ← ctrl_Call (MockReadTx_ctrl m) (MockReadTx_self m) #"Store"
          [];
  ret0 ← index ret 0;
  mret (as_KVStore ret0).

Definition MockReadTxMockRecorder_Store (mr : MockReadTxMockRecorder) : M GoMockCall :=
  let m := MockReadTxMockRecorder_mock mr in
  _ ← T_Helper (MockReadTx_ctrl m);
  ctrl_RecordCallWithMethodType (MockReadTx_ctrl m) (MockReadTx_self m)
    #"Store" (#"MockReadTx", #"Store") [].

Definition MockReadTx_Unwrap (m : MockReadTx) : M any :=
  _ ← T_Helper (MockReadTx_ctrl m);
  ret ← ctrl_Call (MockReadTx_ctrl m) (MockReadTx_self m) #"Unwrap"
          [];
  ret0 ← index ret 0;
  mret (ret0).

Definition MockReadTxMockRecorder_Unwrap (mr : MockReadTxMockRecorder) : M GoMockCall :=
  let m := MockReadTxMockRecorder_mock mr in
  _ ← T_Helper (MockReadTx_ctrl m);
  ctrl_RecordCallWithMethodType (MockReadTx_ctrl m) (MockReadTx_self m)
    #"Unwrap" (#"MockReadTx", #"Unwrap") [].

(** *** The mocks as what they mock *)

Definition MockReader_as_Reader (m : MockReader) : Reader B W :=
  mkReader (MockReader_Empty m) (MockReader_Get m) (MockReader_Iterate m) (MockReader_Range m)
    (MockReader_Stats m).
Definition MockWriter_as_Writer (m : MockWriter) : Writer B W :=
  mkWriter
    (mkReader (MockWriter_Empty m) (MockWriter_Get m) (MockWriter_Iterate m) (MockWriter_Range m)
       (MockWriter_Stats m))
    (MockWriter_Put m) (MockWriter_Delete m).
Definition MockReadTx_as_ReadTx (m : MockReadTx) : ReadTx B W
    := mkReadTx (MockReadTx_GetShelfReader m).
Definition MockWriteTx_as_WriteTx (m : MockWriteTx) : WriteTx B W :=
  mkWriteTx (mkReadTx (MockWriteTx_GetShelfReader m)) (MockWriteTx_GetShelfWriter m).
Definition MockKVStore_as_KVStore (m : MockKVStore) : KVStore B W :=
  mkKVStore (MockKVStore_Close m) (MockKVStore_Write m) (MockKVStore_Read m)
    (MockKVStore_WriteShelf m) (MockKVStore_ReadShelf m).
End mocks.
Arguments MockKVStore B W other {GM}.
Arguments MockReader B W other {GM}.
Arguments MockWriter B W other {GM}.
Arguments MockStore B W other {GM}.
Arguments MockTxOption B W other {GM}.
Arguments MockWriteTx B W other {GM}.
Arguments MockReadTx B W other {GM}.
