(* ===== verification/MockFacts.v ===== *)
(** The mocks of mock.go in use: what is recorded with [EXPECT] is played back, so that a run
    of a client program on any store can be replayed on a mock. *)
From S2P Require Import Prelude Errors Keys Go Store Shelf Client Mock.

(** ** The controller *)

(** An expected call, with its arguments and the values it shall return. *)
Record expectation (B W other : Type) := mkExpectation {
  ex_receiver : receiver;
  ex_method : bytes;
  ex_args : list (any B W other);
  ex_rets : list (any B W other)
}.
Arguments mkExpectation {B W other} _ _ _ _.
Arguments ex_receiver {B W other} _.
Arguments ex_method {B W other} _.
Arguments ex_args {B W other} _.
Arguments ex_rets {B W other} _.

Section controller.
Context {B W other : Type}.
Implicit Types x : any B W other.

(** Values that are equal to themselves for the controller (functions are not). *)
Definition comparable x : bool :=
  match x with A_nil | A_bool _ | A_string _ | A_bytes _ | A_key _ => true | _ => false end.

(** Values of a type, and lists of results of a method of [Writer]. *)
Definition fits_error x : bool := match x with A_nil | A_error _ => true | _ => false end.
Definition fits_bool x : bool := match x with A_bool _ => true | _ => false end.
Definition fits_bytes x : bool := match x with A_nil | A_bytes _ => true | _ => false end.
Definition rets_fit (t : method_type) (rets : list (any B W other)) : bool :=
  match rets with
  | [e] => bool_decide (t.2 = #"Put" ∨ t.2 = #"Delete") && fits_error e
  | [x; e] => (bool_decide (t.2 = #"Get") && fits_bytes x || bool_decide (t.2 = #"Empty") && fits_bool x)
                && fits_error e
  | _ => false
  end.
End controller.

(** The documented behaviour of gomock: [Helper] does nothing to the expectations; a recorded
    call, completed with [Return], is expected once; a call that agrees with the first
    expected one is answered with its values, and not expected any more. *)
Class GoMockSpec `{GM : GoMock B W other} := {
  call_Return : GoMockCall → list (any B W other) → M B W ();
  pending : Controller → St B W → list (expectation B W other);
  spec_Helper c s : ∃ s', T_Helper c s = (Return (), s') ∧ pending c s' = pending c s;
  spec_Call c r m args rets l s :
    pending c s = mkExpectation r m args rets :: l → forallb comparable args = true →
    ∃ s', ctrl_Call c r m args s = (Return rets, s') ∧ pending c s' = l;
  spec_Record c r m t args rets s :
    forallb comparable args = true → rets_fit t rets = true →
    ∃ s', (g ← ctrl_RecordCallWithMethodType c r m t args; call_Return g rets) s = (Return (), s') ∧
      pending c s' = pending c s ++ [mkExpectation r m args rets]
}.

(** ** Traces of client programs *)

(** An operation of a program and its result. *)
Inductive event :=
  | Ev_put (k : Key) (v : bytes) (e : error)
  | Ev_delete (k : Key) (e : error)
  | Ev_get (k : Key) (r : option bytes * error)
  | Ev_empty (r : bool * error).

Inductive trace_of : client → list event → error → Prop :=
  | trace_return e : trace_of (c_return e) [] e
  | trace_put k v next e l r :
      trace_of (next e) l r → trace_of (c_put k v next) (Ev_put k v e :: l) r
  | trace_delete k next e l r :
      trace_of (next e) l r → trace_of (c_delete k next) (Ev_delete k e :: l) r
  | trace_get k next x l r :
      trace_of (next x) l r → trace_of (c_get k next) (Ev_get k x :: l) r
  | trace_empty next x l r :
      trace_of (next x) l r → trace_of (c_empty next) (Ev_empty x :: l) r.

(** The operations of a run, up to one that does not return. *)
Definition then_events {A B W} (r : outcome A * St B W) (ev : A → event)
    (k : A → St B W → list event) : list event :=
  match r with (Return a, s) => ev a :: k a s | _ => [] end.
Fixpoint operations {B W} (w : Writer B W) (c : client) (s : St B W) : list event :=
  match c with
  | c_return _ => []
  | c_put k v next => then_events (Put w k v s) (Ev_put k v) (λ e, operations w (next e))
  | c_delete k next => then_events (Delete w k s) (Ev_delete k) (λ e, operations w (next e))
  | c_get k next => then_events (Get w k s) (Ev_get k) (λ r, operations w (next r))
  | c_empty next => then_events (Empty w s) Ev_empty (λ r, operations w (next r))
  end.

Lemma then_events_Return {A B W} (r : outcome A * St B W) ev k a s :
  r = (Return a, s) → then_events r ev k = ev a :: k a s.
Proof. by intros ->. Qed.

(** Those of a run that returns are a trace of the program. *)
Lemma run_trace {B W} (w : Writer B W) c s e s' :
  run_client w c s = (Return e, s') → trace_of c (operations w c s) e.
Proof.
  revert s. induction c as [e0|k v next IH|k next IH|k next IH|next IH]; intros s;
    cbn [run_client operations];
    [intros [= <- _]; constructor|..]; intros (x & s1 & E & H)%bind_inv;
    rewrite E; constructor; by apply IH.
Qed.

(** ** Record and replay *)

Section replay.
Context `{GS : GoMockSpec B W other}.
Abbreviation M := (M B W).
Abbreviation any := (any B W other).
Implicit Types (m : MockWriter B W other) (s : St B W).

Definition box_error (e : error) : any := if is_nil e then A_nil else A_error e.

(** What the mock of a test is told to expect: [m.EXPECT().Put(k, v).Return(e)] and so on. *)
Definition expect m (ev : event) : M () :=
  match ev with
  | Ev_put k v e =>
      g ← MockWriterMockRecorder_Put (MockWriter_EXPECT m) (A_key k) (A_bytes (Some v));
      call_Return g [box_error e]
  | Ev_delete k e =>
      g ← MockWriterMockRecorder_Delete (MockWriter_EXPECT m) (A_key k);
      call_Return g [box_error e]
  | Ev_get k r =>
      g ← MockWriterMockRecorder_Get (MockWriter_EXPECT m) (A_key k);
      call_Return g [A_bytes r.1; box_error r.2]
  | Ev_empty r =>
      g ← MockWriterMockRecorder_Empty (MockWriter_EXPECT m);
      call_Return g [A_bool r.1; box_error r.2]
  end.
Fixpoint expect_all m (l : list event) : M () :=
  match l with [] => mret () | ev :: l' => _ ← expect m ev; expect_all m l' end.

Definition expected m (ev : event) : expectation B W other :=
  let r := MockWriter_self m in
  match ev with
  | Ev_put k v e => mkExpectation r #"Put" [A_key k; A_bytes (Some v)] [box_error e]
  | Ev_delete k e => mkExpectation r #"Delete" [A_key k] [box_error e]
  | Ev_get k x => mkExpectation r #"Get" [A_key k] [A_bytes x.1; box_error x.2]
  | Ev_empty x => mkExpectation r #"Empty" [] [A_bool x.1; box_error x.2]
  end.

Abbreviation waiting m s := (pending (MockWriter_ctrl m) s).

Lemma box_error_fits e : fits_error (box_error e) = true.
Proof. unfold box_error. by destruct (is_nil e). Qed.
Lemma unbox_error e : as_error (box_error e) = e.
Proof. unfold box_error. destruct (is_nil e) eqn:E; [|done]. by apply is_nil_true in E. Qed.

Lemma record_spec m method t args rets s :
  forallb comparable args = true → rets_fit t rets = true →
  ∃ s', (g ← (_ ← T_Helper (MockWriter_ctrl m);
              ctrl_RecordCallWithMethodType (MockWriter_ctrl m) (MockWriter_self m) method t args);
         call_Return g rets) s = (Return (), s') ∧
    waiting m s' = waiting m s ++ [mkExpectation (MockWriter_self m) method args rets].
Proof.
  intros Ha Hr. rewrite bind_assoc. destruct (spec_Helper (MockWriter_ctrl m) s) as (s1 & E & Hp).
  rewrite (bind_Return _ _ _ _ _ E), <-Hp. by apply spec_Record.
Qed.

Lemma expect_spec m ev s :
  ∃ s', expect m ev s = (Return (), s') ∧ waiting m s' = waiting m s ++ [expected m ev].
Proof.
  destruct ev as [k v e|k e|k [x e]|[x e]]; apply record_spec; cbn;
    rewrite ?box_error_fits; done.
Qed.

Lemma expect_all_spec m l s :
  ∃ s', expect_all m l s = (Return (), s') ∧ waiting m s' = waiting m s ++ (expected m <$> l).
Proof.
  revert s. induction l as [|ev l IH]; intros s; cbn [expect_all fmap list_fmap].
  - exists s. by rewrite app_nil_r.
  - destruct (expect_spec m ev s) as (s1 & E & H1). rewrite (bind_Return _ _ _ _ _ E).
    destruct (IH s1) as (s2 & E2 & H2). exists s2. split; [done|].
    by rewrite H2, H1, <-app_assoc.
Qed.

(** A call that is expected next. *)
Lemma answered m method args rets l s :
  waiting m s = mkExpectation (MockWriter_self m) method args rets :: l →
  forallb comparable args = true →
  ∃ s', waiting m s' = l ∧ ∀ A (k : list any → M A),
    (_ ← T_Helper (MockWriter_ctrl m);
     ret ← ctrl_Call (MockWriter_ctrl m) (MockWriter_self m) method args; k ret) s = k rets s'.
Proof.
  intros Hw Ha. destruct (spec_Helper (MockWriter_ctrl m) s) as (s1 & E & Hp). rewrite <-Hp in Hw.
  destruct (spec_Call _ _ _ _ _ _ _ Hw Ha) as (s2 & E2 & H2). exists s2. split; [done|].
  intros A k. by rewrite (bind_Return _ _ _ _ _ E), (bind_Return _ _ _ _ _ E2).
Qed.

(** The operations of the mock writer play back what is expected next. *)
Lemma mock_operation m ev l s :
  waiting m s = expected m ev :: l →
  ∃ s', waiting m s' = l ∧
    match ev with
    | Ev_put k v e => MockWriter_Put m k v s = (Return e, s')
    | Ev_delete k e => MockWriter_Delete m k s = (Return e, s')
    | Ev_get k r => MockWriter_Get m k s = (Return r, s')
    | Ev_empty r => MockWriter_Empty m s = (Return r, s')
    end.
Proof.
  destruct ev as [k v e|k e|k [x e]|[x e]]; intros Hw;
    destruct (answered m _ _ _ _ s Hw eq_refl) as (s' & Hs & E); exists s'; (split; [exact Hs|]);
    (etrans; [apply E|]); cbn; by rewrite !bind_ret, unbox_error.
Qed.

Lemma replay m c l e s :
  trace_of c l e → waiting m s = expected m <$> l →
  ∃ s', run_client (MockWriter_as_Writer m) c s = (Return e, s') ∧ waiting m s' = [] ∧
    operations (MockWriter_as_Writer m) c s = l.
Proof.
  intros HT. revert s. induction HT as [e|k v next e l r HT IH|k next e l r HT IH
    |k next x l r HT IH|next x l r HT IH]; intros s Hw; [by exists s|..];
    destruct (mock_operation m _ _ s Hw) as (s1 & Hs & E); destruct (IH s1 Hs) as (s2 & E2 & H2);
    destruct H2 as [H2 HO]; exists s2;
    (split; [exact (eq_trans (bind_Return _ _ _ _ _ E) E2)|split; [exact H2|]]);
    (etrans; [eapply then_events_Return; exact E|]); exact (f_equal (cons _) HO).
Qed.

(** C36: record and replay. When a run of a client program on some writer, of whatever store,
    returns [e], its operations are played back by a mock: any mock writer that expects no
    calls, when it is told with the recorder's methods and [Return] to expect exactly the
    operations of that run with the results they had, runs the program to the same result,
    with the same operations and results, and every expected call has been made. *)
Theorem mock_record_replay {B' W'} (w : Writer B' W') c (s0 : St B' W') e
    (s1 : St B' W') (HR : run_client w c s0 = (Return e, s1)) m s (Hs : waiting m s = []) :
  ∃ s2 s3, expect_all m (operations w c s0) s = (Return (), s2) ∧
    run_client (MockWriter_as_Writer m) c s2 = (Return e, s3) ∧
    operations (MockWriter_as_Writer m) c s2 = operations w c s0 ∧ waiting m s3 = [].
Proof.
  destruct (expect_all_spec m (operations w c s0) s) as (s2 & E & H2). rewrite Hs in H2.
  destruct (replay m c _ e s2 (run_trace w c s0 e s1 HR) H2) as (s3 & E3 & H3 & HO).
  by exists s2, s3.
Qed.
End replay.

(** ** A controller in memory *)

Module MockMem.

(** The first-order values; functions and the like cannot be stored. *)
Inductive simple :=
  | S_nil
  | S_bool (b : bool)
  | S_string (s : bytes)
  | S_bytes (b : option bytes)
  | S_error (e : error)
  | S_key (k : Key).
#[global] Instance simple_eq_dec : EqDecision simple.
Proof. solve_decision. Defined.

(** The expected calls: receiver, method, arguments, results. *)
Definition entry : Type := receiver * bytes * list simple * list simple.

Section values.
Context {B W : Type}.
Abbreviation any := (any B W ()).

Definition simplify (x : any) : option simple :=
  match x with
  | A_nil => Some S_nil
  | A_bool b => Some (S_bool b)
  | A_string s => Some (S_string s)
  | A_bytes b => Some (S_bytes b)
  | A_error e => Some (S_error e)
  | A_key k => Some (S_key k)
  | _ => None
  end.
Definition unsimplify (x : simple) : any :=
  match x with
  | S_nil => A_nil
  | S_bool b => A_bool b
  | S_string s => A_string s
  | S_bytes b => A_bytes b
  | S_error e => A_error e
  | S_key k => A_key k
  end.
Definition expects (x : entry) : expectation B W () :=
  let '(r, m, args, rets) := x in
  mkExpectation r m (unsimplify <$> args) (unsimplify <$> rets).

Lemma simplify_unsimplify x : simplify (unsimplify x) = Some x.
Proof. by destruct x. Qed.
Lemma unsimplify_simplify (x : any) y : simplify x = Some y → unsimplify y = x.
Proof. destruct x; cbn; try done; by intros [= <-]. Qed.
Lemma mapM_unsimplify l : mapM simplify (unsimplify <$> l) = Some l.
Proof. induction l as [|x l IH]; [done|]. cbn. by rewrite simplify_unsimplify, IH. Qed.
Lemma unsimplify_mapM (l : list any) l' : mapM simplify l = Some l' → unsimplify <$> l' = l.
Proof.
  revert l'. induction l as [|x l IH]; cbn; intros l'; [by intros [= <-]|].
  destruct (simplify x) as [y|] eqn:E; [|done]. cbn. destruct (mapM simplify l) as [l1|]; [|done].
  intros [= <-]. cbn. by rewrite (unsimplify_simplify x y), (IH l1).
Qed.

Lemma comparable_simple (l : list any) : forallb comparable l = true → is_Some (mapM simplify l).
Proof.
  induction l as [|x l IH]; cbn; [by eexists|]. intros [Hx Hl]%andb_true_iff.
  destruct (IH Hl) as [l' ->]. by destruct x; try done; eexists.
Qed.
Lemma rets_fit_simple t (l : list any) : rets_fit t l = true → is_Some (mapM simplify l).
Proof.
  destruct l as [|x [|y [|]]]; cbn; try done.
  - rewrite andb_true_iff. intros [_ Hx]. by destruct x; try done; eexists.
  - rewrite !andb_true_iff, orb_true_iff, !andb_true_iff. intros [Hx Hy].
    destruct y; try done; destruct x; try (by eexists); by destruct Hx as [[_ ?]|[_ ?]].
Qed.
End values.

(** The first expected call that agrees is answered; no such call is fatal. *)
Definition agrees (r : receiver) (m : bytes) (args : list simple) (x : entry) : bool :=
  bool_decide (x.1 = (r, m, args)).
Fixpoint take_first (f : entry → bool) (l : list entry) : option (entry * list entry) :=
  match l with
  | [] => None
  | x :: l' =>
      if f x then Some (x, l')
      else match take_first f l' with Some (y, l2) => Some (y, x :: l2) | None => None end
  end.

#[export] Instance controller {W} : GoMock (list entry) W () := {|
  Controller := ();
  GoMockCall := option (receiver * bytes * list simple);
  T_Helper _ := mret ();
  ctrl_Call _ r m args :=
    args ← must (mapM simplify args);
    l ← get_back;
    x ← must (take_first (agrees r m args) l);
    _ ← put_back x.2;
    mret (unsimplify <$> x.1.2);
  ctrl_RecordCallWithMethodType _ r m t args :=
    mret (args ← mapM simplify args; Some (r, m, args))
|}.

#[export] Instance controller_spec {W} : GoMockSpec (B := list entry) (W := W) (other := ()).
Proof.
  refine {|
    call_Return := λ (g : GoMockCall) rets,
      x ← must g; rets ← must (mapM simplify rets);
      l ← get_back; put_back (l ++ [(x, rets)]);
    pending := λ _ s, expects <$> back s
  |}.
  - intros c s. by exists s.
  - intros c r m args rets l s Hp Ha. destruct (comparable_simple args Ha) as [args' Ea].
    destruct (back s) as [|[[[r' m'] a'] t'] l'] eqn:Eb; [done|]. cbn in Hp.
    injection Hp as <- <- <- <- <-. rewrite mapM_unsimplify in Ea. injection Ea as <-.
    exists (mkSt l' (world s)). split; [|done]. cbn. rewrite mapM_unsimplify. unfold mbind, M_bind.
    cbn. rewrite Eb. cbn. unfold agrees. by rewrite bool_decide_eq_true_2.
  - intros c r m t args rets s Ha Hr. destruct (comparable_simple args Ha) as [args' Ea].
    destruct (rets_fit_simple t rets Hr) as [rets' Er]. eexists.
    cbn. rewrite Ea. unfold mbind, M_bind. cbn. rewrite Er. split; [done|]. cbn.
    rewrite fmap_app. cbn [fmap list_fmap expects].
    by rewrite (unsimplify_mapM args args' Ea), (unsimplify_mapM rets rets' Er).
Defined.

(** ** An instance *)

(** A program that counts in unary notation, and a mock that is told what a store would have
    answered. *)
Definition k1 : Key := Uint32Key 1.
Definition count : client :=
  c_get k1 (λ r, c_put k1 (default [] r.1 ++ #"|") c_return).
Definition quiet : St (list entry) () := mkSt [] (mkWorld 0 ()).
Definition mock : MockWriter (list entry) () () := NewMockWriter (tt : Controller) 1.
Definition answers : list event := [Ev_get k1 (Some #"|", ENil); Ev_put k1 #"||" Canceled].

Example mock_runs :
  (_ ← expect_all mock answers; run_client (MockWriter_as_Writer mock) count) quiet =
    (Return Canceled, quiet) ∧
  (run_client (MockWriter_as_Writer mock) count quiet).1 = Panic.
Proof. split; reflexivity. Qed.

(** A run on a writer that always fails, played back. *)
Definition failed : list event := [Ev_get k1 (None, DatabaseError Canceled);
  Ev_put k1 #"|" (DatabaseError Canceled)].

Lemma mock_record_replay_witness :
  operations (NewErrorWriter Canceled) count quiet = failed ∧
  ∃ s2 s3, expect_all mock failed quiet = (Return (), s2) ∧
    run_client (MockWriter_as_Writer mock) count s2 = (Return (DatabaseError Canceled), s3) ∧
    operations (MockWriter_as_Writer mock) count s2 = failed ∧
    pending (MockWriter_ctrl mock) s3 = [].
Proof.
  split; [reflexivity|].
  exact (mock_record_replay (NewErrorWriter Canceled) count quiet (DatabaseError Canceled) quiet
    eq_refl mock quiet eq_refl).
Defined.
End MockMem.
